(* ===== verification/_CoqProject ===== *)
-Q . S2P
Prelude.v
Buffer.v
Transport.v
Session.v
Json.v
Attestation.v
Host.v
HostUtils.v
Ias.v
Config.v
Messages.v
Texts.v
LogStore.v
StateMachine.v
StateMgr.v
Scheduler.v
Peer.v
Server.v
Membership.v
Requests.v
Responses.v
AsyncResult.v
CommitThread.v
Enclave.v
Samples.v
Rpc.v
Client.v
Driver.v
KeyExchange.v
Start.v
Frames.v
PeerSet.v
Elections.v
PeerTable.v
Cluster.v
Durability.v
Replication.v
LeaderLog.v
Leading.v
LogMatching.v
Completeness.v
LostCommit.v
Tally.v
Committed.v
Reconfig.v
Commit.v
