(* ===== verification/Prelude.v ===== *)
(** * EnclaveRaft: a verification development

    EnclaveRaft runs the Raft server of the cornerstone library inside an SGX
    enclave.  This library models the C++ code under src/ as executable
    functions and proves what makes its parts correct.

    ** The program and its models

    - The enclave's server, src/raft_enclave/raft/.  [Buffer]: byte buffers and
      their packed header (buffer.cxx).  [Config]: parameters, persistent
      state, cluster configuration.  [Messages]: requests, answers, log
      entries, snapshots and their formats (msg_serializer.cxx and the classes'
      serialize/deserialize).  [Peer]: the leader's view of a server.
      [Server], [Membership], [Requests], [Responses]: class raft_server, one
      definition per member function, grouped as raft_server.cxx,
      raft_server_handle_req.cxx, raft_server_handle_resp.cxx and
      raft_server_handle_timeout.cxx are.
    - What the server is plugged into, src/raft_enclave/app_impl/.  [LogStore]:
      the interface log_store as a class with laws, and the in-memory store
      that satisfies them.  [StateMachine]: the interface state_machine and the
      echo machine.  [StateMgr]: what the server saves, in memory only.
    - Timers, [Scheduler] (delayed_task.hxx, timer_task.hxx, service_port).
    - Threads.  [AsyncResult]: async_result.hxx, with the mutex and the
      condition variable.  [CommitThread]: how the commit thread, the calls of
      commit and the destructor of raft_server wait for each other.
    - The ports and the key store, src/raft_enclave/port/ and system/.
      [Transport]: message tags, AES-CTR, the envelope (messages.hxx,
      aes_ctr_crypto.cxx, crypto.cxx).  [Json]: the values JSON and base64
      exchange.  [Attestation]: reading and checking a report of the
      attestation service (url_decode.cxx, cert_utils.cxx, key_store.cxx).
      [Enclave]: the RPC client and listener ports, the key store and the entry
      points of raft_enclave.cpp around the server.
    - The host, src/raft_app/.  [Session]: one connection of the listener.
      [Host]: outgoing connections, endpoints and timers.  [Ias]: the client of
      the attestation service (ssl_client.hxx, intel_ias.hxx).  [Start]: the
      accept loop (asio_rpc_listener.hxx), the quote (enclave_quote.cxx), the
      loading of the enclave (sgx_utils.cpp) and [main] (raft_app.cpp).
      [HostUtils]: the text of SGX errors, the search for a library, and which
      log lines of the enclave are printed.  [Texts]: the names of message
      types and addresses in log lines, and the clock.
    - The client, src/client/.  [Client]: RequestBuilder and SocketClient.
      [Driver]: the loop of client.cxx.

    [Samples] builds the concrete servers the examples run on.

    ** How code is modelled

    A function that may throw returns an [outcome]: a value, an exception, or a
    [Fault] where C++ leaves the behaviour undefined (an access outside a
    block, a null or dangling pointer, a loop that does not end).  Code over an
    object's members is in the monad [M]: the state is kept when an exception
    is thrown, as in C++.  The members of a class are a record; a call of a
    member function takes the lock first, so a handler is one atomic step, and
    the interleavings are the sequences of steps ([Responses.event],
    [Responses.step], [KeyExchange.host_call], [Session.io_event],
    [Host.client_step]).  [AsyncResult] and [CommitThread] are finer: there
    every access to a shared member is a step.  Integers are [Z] with the wrap-around of their width
    written out.  What the server asks of its environment is recorded in order
    in its field [out]; [Enclave.perform] carries it out through the ports.

    Third-party code is a parameter: OpenSSL ([Transport.evp],
    [Attestation.openssl]), json11 and cppcodec ([Json.codecs]), the SGX calls
    ([Enclave.sgx], [Start.platform]), with documented behaviour as laws ([evp_laws];
    [codecs_laws], for the values json11 can write and read, [json_ok]) and an
    instance of each, on which the examples run.  That the calls of OpenSSL
    succeed is a separate assumption ([evp_works]) of [Transport] and [Rpc];
    without it they throw.  asio is
    the environment of [Session], [Host] and [Ias]: it completes operations in any
    order, with any result.  Fresh memory has arbitrary content ([FreshMem]).

    Loops that are not structural take fuel: the parser of log entries and the
    certificate loop as much as the input is long, which suffices
    ([deserialize_req_terminates], [load_cert_chain_terminates]); the walk back
    through configurations as many rounds as the log has entries, since a
    longer walk repeats itself; the commit loop as many rounds as entries wait
    ([commits_applied_in_order]); asking for a quote three rounds
    ([init_quote_returns]).

    ** What is proved

    - Elections ([Elections], [Cluster], [Durability]): a server votes once a
      term (in runs without join requests), the state manager holds its term
      and vote after every event (a restart loses them, since the manager is
      in memory), a leader has the votes of a majority, and two leaders of one
      term are the same server.  [Frames], [PeerSet]: what each handler leaves alone.
      [PeerTable]: the table of peers is well-formed after any events.
    - The log ([LogStore], [Replication], [LeaderLog], [Commit]): the in-memory
      store implements a list with an index offset; an append request is a
      slice of the leader's log, and merging it makes the logs agree up to its
      end or is refused; the commit index is one that a majority is recorded to
      have reached; a leader only appends; a client's entries are appended
      under the leader's term; agreed entries are applied in order and once,
      configurations among them take effect.  [Leading] follows
      what a server sends while it leads, and [LogMatching] what becomes of it
      in a cluster: two logs with an entry of the same index and term agree up
      to it.  [Completeness]: what a majority has stored in its own term is in
      the log of every later leader.  [Tally] follows the matched indices, and
      [Committed] concludes that what a leader commits of its own term stays,
      and that no two leaders commit different entries of their terms at one
      index, if the indices they count are of their leadership.  [LostCommit] is a run
      that shows the limits: the commit rule counts entries of earlier terms,
      too, and one that was applied is replaced.  These theorems are for clusters that take no
      snapshots, as the parameters the enclave sets (snapshot_distance_ is 0).
    - Threads ([AsyncResult], [CommitThread]): a waiting thread gets what was
      set and is never left asleep; the handler is called; the destructor ends
      when the commit thread waits and wakes up only when notified (or late
      enough); examples show where wake-ups get lost, or come unasked.
    - Membership ([Reconfig]): reconfiguring makes the peers those of the new
      configuration.
    - Formats ([Buffer], [Messages], [Transport], [Client]): round trips,
      bounds and termination of the parsers, the packed header.
    - Calls ([Rpc], [Client]): a call between two enclaves is a call between
      their servers; a client's request is appended and acknowledged; a stray
      answer is refused; a failed call blocks its peer.
    - Attestation ([Attestation], [KeyExchange]): a key is stored only from a
      report whose announced bytes are signed under Intel's root, and the key
      exchange proposes only servers with a stored key as members (a raft
      message can propose any); the chain is split into its certificates; the signing
      certificate is freed twice, which the theorems on later calls take to have
      no effect; a process serves only once its own report was accepted
      ([Start]), and the report arrives whole ([Ias], if a zero byte ends the
      search in the header).
    - The host ([Session], [Host], [Scheduler]): framing does not depend on how
      the network cuts the bytes; every call is reported once; a task has one
      timer; a cancelled timer is silent; the listener knows its sessions
      ([Start]).

    The cluster theorems take as a hypothesis that an accepted vote comes from
    the server it names, log matching that an append request was sent by a
    server of the cluster, and leader completeness that a vote request was;
    [envelope_malleable] shows that the envelope alone does not ensure it.
    [Committed] asks besides that answers to a leader are of its term and
    that nothing was matched when it took office, which the code does not
    check.  Membership is fixed in all of them.

    ** Not modelled

    The text of log lines and printing; the locks of the
    server's handlers, each of which is one step; the destructor of the client
    port of an erased peer ([Enclave.perform]); the files of src/client that
    are commented out; third-party code. *)

From coqutil Require Export Byte Word.LittleEndianList.
From stdpp Require Export prelude gmap sorting.

(** ** Machine integers

    Every C++ integer is a [Z]; the wrap-around of its width is written out
    with the functions below ([uint64_t], [uint32_t], [uint16_t], [int32_t]). *)

Declare Scope raft_scope.
Delimit Scope raft_scope with raft.
Open Scope Z_scope.

Definition u64 (z : Z) : Z := z `mod` 2 ^ 64.
Definition u32 (z : Z) : Z := z `mod` 2 ^ 32.
Definition u16 (z : Z) : Z := z `mod` 2 ^ 16.
Definition i32 (z : Z) : Z := (z + 2 ^ 31) `mod` 2 ^ 32 - 2 ^ 31.

Definition is_u64 (z : Z) : Prop := 0 ≤ z < 2 ^ 64.
Definition is_i32 (z : Z) : Prop := - 2 ^ 31 ≤ z < 2 ^ 31.

(** ** Outcomes of C++ code

    A call returns a value, throws, or runs into behaviour the language leaves
    undefined ([Fault]: the access is recorded, nothing is assumed after it). *)

Inductive exn :=
  | out_of_range
  | overflow_error
  | runtime_error
  | logic_error
  | invalid_argument
  | bad_function_call
  | parse_error
  | openssl_exception
  | sgx_error
  | system_error
  | raft_exception.

Inductive fault :=
  | oob_access
  | null_deref
  | dangling_ref
  | assert_failed
  | uninit_read
  | diverges.

Inductive outcome (A : Type) :=
  | Ok (a : A)
  | Throw (e : exn)
  | Fault (f : fault).
Arguments Ok {A} a.
Arguments Throw {A} e.
Arguments Fault {A} f.

#[global] Instance exn_eq_dec : EqDecision exn.
Proof. solve_decision. Defined.
#[global] Instance fault_eq_dec : EqDecision fault.
Proof. solve_decision. Defined.
#[global] Instance outcome_eq_dec {A} `{EqDecision A} : EqDecision (outcome A).
Proof. solve_decision. Defined.

#[global] Instance outcome_ret : MRet outcome := @Ok.
#[global] Instance outcome_bind : MBind outcome := λ A B f m,
  match m with Ok a => f a | Throw e => Throw e | Fault u => Fault u end.
#[global] Instance outcome_fmap : FMap outcome := λ A B f m,
  match m with Ok a => Ok (f a) | Throw e => Throw e | Fault u => Fault u end.

Definition is_ok {A} (o : outcome A) : bool :=
  match o with Ok _ => true | _ => false end.

(** ** Stateful code

    [M W A]: code over a state [W] that keeps the state it reached when it
    throws, as a C++ object does. *)

Definition M (W A : Type) : Type := W → outcome A * W.

#[global] Instance M_ret {W} : MRet (M W) := λ A a w, (Ok a, w).
#[global] Instance M_bind {W} : MBind (M W) := λ A B f m w,
  match m w with
  | (Ok a, w') => f a w'
  | (Throw e, w') => (Throw e, w')
  | (Fault u, w') => (Fault u, w')
  end.

Definition gets {W A} (f : W → A) : M W A := λ w, (Ok (f w), w).
Definition modify {W} (f : W → W) : M W unit := λ w, (Ok tt, f w).
Definition throw {W A} (e : exn) : M W A := λ w, (Throw e, w).
Definition faulting {W A} (u : fault) : M W A := λ w, (Fault u, w).
Definition lift {W A} (o : outcome A) : M W A := λ w, (o, w).

(** [catch (...)]: a thrown exception runs the handler, a fault does not. *)
Definition catch_all {W A} (m : M W A) (h : M W A) : M W A := λ w,
  match m w with
  | (Throw _, w') => h w'
  | r => r
  end.

Definition when {W} (b : bool) (m : M W unit) : M W unit :=
  if b then m else mret tt.

Fixpoint for_each {W A} (l : list A) (f : A → M W unit) : M W unit :=
  match l with
  | [] => mret tt
  | x :: l' => f x ;; for_each l' f
  end.

(** ** Record update: [r <| field := v |>]

    A record type lists its fields once ([Eta]); the setter of a field is
    computed from that list. *)

Class Eta (R : Type) := eta : R → R.
Class Update {R T : Type} (proj : R → T) := update : (T → T) → R → R.
Arguments update {R T} proj {_} f r.

Ltac build_update proj :=
  let f := fresh "f" in
  let r := fresh "r" in
  red; intros f r;
  lazymatch type of proj with
  | ?R → ?T =>
      let i := constr:(_ : Eta R) in
      let e := eval red in (i r) in
      let g := eval pattern (proj r) in e in
      lazymatch g with
      | ?h _ => let e' := eval cbv beta in (h (f (proj r))) in exact e'
      end
  end.

#[export] Hint Extern 1 (Update ?proj) => build_update proj : typeclass_instances.

Notation "r <| proj := v |>" := (update proj (λ _, v) r)
  (at level 1, proj at level 12, left associativity) : raft_scope.
Notation "r <| proj ::= f |>" := (update proj f r)
  (at level 1, proj at level 12, left associativity) : raft_scope.
Notation "proj <~ v" := (modify (update proj (λ _, v)))
  (at level 65, no associativity) : raft_scope.
Open Scope raft_scope.

(** Code of a member object, run on the object that contains it. *)
Definition on {W S A} (proj : W → S) {U : Update proj} (m : M S A) : M W A := λ w,
  let '(o, s) := m (proj w) in (o, update proj (λ _, s) w).

(** ** Lemmas on machine integers *)

Lemma u64_small z : is_u64 z → u64 z = z.
Proof. apply Z.mod_small. Qed.

Lemma u64_range z : is_u64 (u64 z).
Proof. apply Z.mod_pos_bound. lia. Qed.

Lemma u32_small z : 0 ≤ z < 2 ^ 32 → u32 z = z.
Proof. apply Z.mod_small. Qed.

Lemma u16_small z : 0 ≤ z < 2 ^ 16 → u16 z = z.
Proof. apply Z.mod_small. Qed.

Lemma i32_small z : is_i32 z → i32 z = z.
Proof. unfold is_i32, i32. intros ?. rewrite Z.mod_small; lia. Qed.

Lemma i32_range z : is_i32 (i32 z).
Proof.
  unfold is_i32, i32.
  pose proof (Z.mod_pos_bound (z + 2 ^ 31) (2 ^ 32) ltac:(lia)). lia.
Qed.

(** Wrapping first and adding later is wrapping the sum. *)
Lemma i32_mod z : i32 (z `mod` 2 ^ 32) = i32 z.
Proof. unfold i32. by rewrite Zplus_mod_idemp_l. Qed.

Lemma i32_add_l a b : i32 (i32 a + b) = i32 (a + b).
Proof.
  unfold i32. replace ((a + 2 ^ 31) `mod` 2 ^ 32 - 2 ^ 31 + b + 2 ^ 31)
    with ((a + 2 ^ 31) `mod` 2 ^ 32 + b) by lia.
  rewrite Zplus_mod_idemp_l. f_equal. f_equal. lia.
Qed.

Lemma i32_add_r a b : i32 (a + i32 b) = i32 (a + b).
Proof. rewrite Z.add_comm, i32_add_l. f_equal. lia. Qed.

Lemma u64_add_l a b : u64 (u64 a + b) = u64 (a + b).
Proof. apply Zplus_mod_idemp_l. Qed.

Lemma u64_add_r a b : u64 (a + u64 b) = u64 (a + b).
Proof. apply Zplus_mod_idemp_r. Qed.

Create Rewrite HintDb machine.
#[export] Hint Rewrite u64_small u32_small u16_small i32_small
  using (unfold is_u64, is_i32 in *; lia) : machine.

(** Remove the wrap-around of every operation that cannot overflow. *)
Ltac machine := autorewrite with machine in *.

(** ** Lemmas on outcomes *)

Lemma bind_Ok {A B} (m : outcome A) (k : A → outcome B) b :
  m ≫= k = Ok b ↔ ∃ a, m = Ok a ∧ k a = Ok b.
Proof. destruct m; simpl; naive_solver. Qed.

Ltac bind_inv H :=
  let a := fresh "x" in let E := fresh "E" in
  apply bind_Ok in H as (a & E & H).

(** ** Running stateful code *)

Section run.
Context {W A B : Type}.

Lemma bind_get (k : W → M W B) w : (gets id ≫= k) w = k w w.
Proof. done. Qed.
Lemma bind_gets (f : W → A) (k : A → M W B) w : (gets f ≫= k) w = k (f w) w.
Proof. done. Qed.
Lemma bind_modify f (k : unit → M W B) w : (modify f ≫= k) w = k tt (f w).
Proof. done. Qed.
Lemma bind_ret (a : A) (k : A → M W B) w : (mret a ≫= k) w = k a w.
Proof. done. Qed.
Lemma bind_lift (a : A) (k : A → M W B) w : (lift (Ok a) ≫= k) w = k a w.
Proof. done. Qed.
Lemma bind_step (m : M W A) (k : A → M W B) w a w' :
  m w = (Ok a, w') → (m ≫= k) w = k a w'.
Proof. intros E. unfold mbind, M_bind. by rewrite E. Qed.
Lemma bind_throw (m : M W A) (k : A → M W B) w e w' :
  m w = (Throw e, w') → (m ≫= k) w = (Throw e, w').
Proof. intros E. unfold mbind, M_bind. by rewrite E. Qed.
Lemma bind_fault (m : M W A) (k : A → M W B) w u w' :
  m w = (Fault u, w') → (m ≫= k) w = (Fault u, w').
Proof. intros E. unfold mbind, M_bind. by rewrite E. Qed.
Lemma bind_assoc {C} (m : M W A) (k : A → M W B) (j : B → M W C) w :
  ((m ≫= k) ≫= j) w = (m ≫= (λ a, k a ≫= j)) w.
Proof. unfold mbind, M_bind. by destruct (m w) as [[]?]. Qed.
Lemma on_step {S} (proj : W → S) `{!Update proj} (m : M S A) w a s :
  m (proj w) = (Ok a, s) → on proj m w = (Ok a, update proj (λ _, s) w).
Proof. intros E. unfold on. by rewrite E. Qed.

(** A sequence goes on after its first part or ends in the state it left. *)
Lemma bind_cases (m : M W A) (k : A → M W B) w :
  (∃ a, (m w).1 = Ok a ∧ (m ≫= k) w = k a (m w).2) ∨
  ((∀ a, (m w).1 ≠ Ok a) ∧ ((m ≫= k) w).2 = (m w).2).
Proof. unfold mbind, M_bind. destruct (m w) as [[]?]; naive_solver. Qed.

(** What a finished run says about its parts. *)
Lemma bind_inv_ok (m : M W A) (k : A → M W B) w b w' :
  (m ≫= k) w = (Ok b, w') → ∃ a w1, m w = (Ok a, w1) ∧ k a w1 = (Ok b, w').
Proof. unfold mbind, M_bind. destruct (m w) as [[]?]; naive_solver. Qed.
End run.

Create Rewrite HintDb run.
#[export] Hint Rewrite @bind_get @bind_gets @bind_modify @bind_ret @bind_lift : run.

(** Execute the reads and assignments at the head of a program. *)
Ltac run := autorewrite with run.

(** ** Relations between the state before and after a piece of code

    [within R m]: whatever [m] does (return, throw or fault), the state it
    leaves is related to the one it started from.  For a preorder [R] this is
    compositional, which is how invariants and frame conditions of the
    handlers are proved. *)

Definition within {W A} (R : relation W) (m : M W A) : Prop := ∀ w, R w (m w).2.

(** The preorder of an invariant. *)
Definition keeps {W} (I : W → Prop) : relation W := λ w w', I w → I w'.

#[global] Instance keeps_preorder {W} (I : W → Prop) : PreOrder (keeps I).
Proof. split; unfold keeps; [by intros w | by intros x y z H1 H2 H; apply H2, H1]. Qed.

(** The preorder of a field that is left alone. *)
Definition same {W A} (f : W → A) : relation W := λ w w', f w' = f w.

#[global] Instance same_preorder {W A} (f : W → A) : PreOrder (same f).
Proof. split; unfold same; [by intros w | intros x y z; congruence]. Qed.

Section within.
Context {W : Type} (R : relation W) `{!PreOrder R}.

Lemma within_ret {A} (a : A) : within R (mret a : M W A).
Proof. intros w. reflexivity. Qed.

Lemma within_gets {A} (f : W → A) : within R (gets f).
Proof. intros w. reflexivity. Qed.

Lemma within_throw {A} e : within R (throw e : M W A).
Proof. intros w. reflexivity. Qed.

Lemma within_faulting {A} u : within R (faulting u : M W A).
Proof. intros w. reflexivity. Qed.

Lemma within_lift {A} (o : outcome A) : within R (lift o).
Proof. intros w. reflexivity. Qed.

Lemma within_modify f : (∀ w, R w (f w)) → within R (modify f).
Proof. intros H w. apply H. Qed.

Lemma within_bind {A B} (m : M W A) (k : A → M W B) :
  within R m → (∀ a, within R (k a)) → within R (m ≫= k).
Proof.
  intros Hm Hk w. specialize (Hm w). unfold mbind, M_bind.
  destruct (m w) as [[a|e|u] w']; simpl in *; [|done..].
  etrans; [done|apply Hk].
Qed.

Lemma within_catch {A} (m h : M W A) :
  within R m → within R h → within R (catch_all m h).
Proof.
  intros Hm Hh w. specialize (Hm w). unfold catch_all.
  destruct (m w) as [[a|e|u] w']; simpl in *; [done| |done].
  etrans; [done|apply Hh].
Qed.

Lemma within_when b (m : M W unit) : within R m → within R (when b m).
Proof. destruct b; [done|]. intros _. apply within_ret. Qed.

Lemma within_for_each {A} (l : list A) (f : A → M W unit) :
  (∀ x, within R (f x)) → within R (for_each l f).
Proof.
  intros Hf. induction l as [|x l IH]; simpl; [apply within_ret|].
  apply within_bind; auto.
Qed.

Lemma within_on {S A} (proj : W → S) `{!Update proj} (m : M S A) :
  (∀ w s, R w (update proj (λ _, s) w)) → within R (on proj m).
Proof. intros H w. unfold on. destruct (m (proj w)). apply H. Qed.
End within.

Lemma within_weaken {W A} (R S : relation W) (m : M W A) :
  (∀ w w', R w w' → S w w') → within R m → within S m.
Proof. intros H Hm w. apply H, Hm. Qed.

(** [R] does not look at the field [proj].  For an [R] written with the
    projections of the state this holds by computation. *)
Class Ignores {W A} (R : relation W) (proj : W → A) {U : Update proj} : Prop :=
  ignores : ∀ f w, R w (update proj f w).

#[export] Hint Extern 1 (Ignores ?R _) =>
  (intros ? ?; match goal with |- R ?w _ => exact (reflexivity (R := R) w) end)
  : typeclass_instances.

Lemma within_update {W A} (R : relation W) (proj : W → A) `{!Update proj} `{!Ignores R proj} f :
  within R (modify (update proj f)).
Proof. intros w. apply ignores. Qed.

Lemma within_on_ignored {W S A} (R : relation W) (proj : W → S) `{!Update proj}
    `{!Ignores R proj} (m : M S A) : within R (on proj m).
Proof. intros w. unfold on. destruct (m (proj w)). apply ignores. Qed.

Create HintDb within.
#[export] Hint Resolve within_ret within_gets within_throw within_faulting
  within_lift within_update within_on_ignored : within.

(** Walk through the structure of a handler; the calls it makes are closed by
    the lemmas registered in the hint database, the assignments by [tac]. *)
Ltac within_step tac :=
  lazymatch goal with
  | |- within _ (_ ≫= _) => apply within_bind; [typeclasses eauto| |intros ?]
  | |- within _ (for_each _ _) => apply within_for_each; [typeclasses eauto|intros ?]
  | |- within _ (when _ _) => apply within_when; [typeclasses eauto|]
  | |- within _ (catch_all _ _) => apply within_catch; [typeclasses eauto| |]
  | |- within _ (match ?x with _ => _ end) => destruct x
  | |- within _ (let _ := _ in _) => cbv zeta
  | |- within _ _ => first [solve [typeclasses eauto with within typeclass_instances] | solve [tac]]
  end.
Ltac within_solve tac := repeat within_step tac.

(** The state a piece of code leaves, from [within]. *)
Lemma within_elim {W A} (R : relation W) (m : M W A) w o w' :
  within R m → m w = (o, w') → R w w'.
Proof. intros Hm E. specialize (Hm w). by rewrite E in Hm. Qed.

(** An assignment that reads other members. *)
Ltac ignored := apply within_modify; intros ?; apply ignores.
