(* ===== verification/Buffer.v ===== *)
(** * [cornerstone::buffer] (src/raft_enclave/raft/src/buffer.cxx)

    Two levels.  [Block] is the memory block of buffer.cxx: a header whose
    first 32-bit word tells a small block (two [ushort]s, size and position)
    from a big one (two [uint]s, the size tagged with the top bit).  [buffer]
    is what the accessors compute from it: the payload and the position.  The
    operations that serialise integers, strings and other buffers are written
    on [buffer]; [Block.header_simulates] relates the levels. *)

From S2P Require Import Prelude.

(** ** The memory block and its header *)

Module Block.

(** [w0] is the first word of the header; [w1] is the second one, which only a
    big block has. *)
Record block := mk_block { w0 : Z; w1 : Z }.
#[global] Instance eta_block : Eta block := λ b, mk_block (w0 b) (w1 b).

Definition is_big_block (b : block) : bool :=
  negb (Z.land 0x80000000 (w0 b) =? 0).

(** The two [ushort]s of a small block, as they lie in [w0] (little endian). *)
Definition lo16 (w : Z) : Z := Z.land w 0xffff.
Definition hi16 (w : Z) : Z := Z.shiftr w 16.
Definition of_halves (lo hi : Z) : Z := Z.lor lo (Z.shiftl hi 16).

Definition init_s_block (size : Z) : block := mk_block (of_halves (u16 size) 0) 0.
Definition init_b_block (size : Z) : block :=
  mk_block (Z.lor (u32 size) 0x80000000) 0.

Definition alloc_header (size : Z) : block :=
  if 0x8000 <=? size then init_b_block size else init_s_block size.

Definition size_of_block (b : block) : Z :=
  if is_big_block b then Z.lxor (w0 b) 0x80000000 else lo16 (w0 b).

Definition pos_of_block (b : block) : Z :=
  if is_big_block b then w1 b else hi16 (w0 b).

Definition mv_fw_block (b : block) (d : Z) : block :=
  if is_big_block b then b <| w1 := u32 (w1 b + d) |>
  else b <| w0 := of_halves (lo16 (w0 b)) (u16 (hi16 (w0 b) + u16 d)) |>.

Definition set_block_pos (b : block) (p : Z) : block :=
  if is_big_block b then b <| w1 := u32 p |>
  else b <| w0 := of_halves (lo16 (w0 b)) (u16 p) |>.

(** Offset of [__data_of_block(p)] from the start of the block. *)
Definition data_of_block (b : block) : Z :=
  if is_big_block b then 8 + w1 b else 4 + hi16 (w0 b).

End Block.

(** ** The buffer *)

Record buffer := mk_buffer { bytes : list byte; bpos : nat }.
#[global] Instance eta_buffer : Eta buffer := λ b, mk_buffer (bytes b) (bpos b).

#[global] Instance byte_eq_dec : EqDecision byte := Byte.byte_eq_dec.
#[global] Instance buffer_eq_dec : EqDecision buffer.
Proof. solve_decision. Defined.

(** [new char[n]] is not initialised: what the [i]-th byte of a fresh block
    holds is unknown. *)
Class FreshMem := fresh_byte : nat → byte.

Definition sz_byte : nat := 1.
Definition sz_int : nat := 4.
Definition sz_ulong : nat := 8.

Definition fresh `{FreshMem} (n : nat) : list byte := fresh_byte <$> seq 0 n.

Definition alloc `{FreshMem} (size : Z) : outcome buffer :=
  if 0x80000000 <=? size then Throw out_of_range
  else Ok (mk_buffer (fresh (Z.to_nat size)) 0).

Definition buf_size (b : buffer) : Z := Z.of_nat (length (bytes b)).
Definition buf_pos (b : buffer) : Z := Z.of_nat (bpos b).

(** [size() - pos()] as a [size_t]. *)
Definition avail (b : buffer) : Z := u64 (buf_size b - buf_pos b).

Definition pos_set (p : Z) (b : buffer) : buffer :=
  b <| bpos := Z.to_nat (if buf_size b <? p then buf_size b else p) |>.

Definition mv_fw (n : nat) (b : buffer) : buffer := b <| bpos ::= Nat.add n |>.

(** Reads and writes of [n] bytes through [data()]. *)
Definition load (n : nat) (b : buffer) : outcome (list byte) :=
  if (bpos b + n <=? length (bytes b))%nat then Ok (take n (drop (bpos b) (bytes b)))
  else Fault oob_access.

Definition store (d : list byte) (b : buffer) : outcome buffer :=
  if (bpos b + length d <=? length (bytes b))%nat
  then Ok (b <| bytes := take (bpos b) (bytes b) ++ d ++
                         drop (bpos b + length d) (bytes b) |>)
  else Fault oob_access.

(** The accumulation loop of [get_int] and [get_ulong]: [val += byte << (i*8)]
    at the width of [wrap]. *)
Fixpoint accumulate (wrap : Z → Z) (i val : Z) (d : list byte) : Z :=
  match d with
  | [] => val
  | x :: d' => accumulate wrap (i + 1)
                 (wrap (val + wrap (Z.shiftl (byte.unsigned x) (i * 8)))) d'
  end.

Definition get_int (b : buffer) : outcome (Z * buffer) :=
  if avail b <? Z.of_nat sz_int then Throw overflow_error
  else d ← load sz_int b; Ok (accumulate i32 0 0 d, mv_fw sz_int b).

Definition get_ulong (b : buffer) : outcome (Z * buffer) :=
  if avail b <? Z.of_nat sz_ulong then Throw overflow_error
  else d ← load sz_ulong b; Ok (accumulate u64 0 0 d, mv_fw sz_ulong b).

Definition get_byte (b : buffer) : outcome (Z * buffer) :=
  if avail b <? Z.of_nat sz_byte then Throw overflow_error
  else d ← load sz_byte b;
       match d with
       | x :: _ => Ok (byte.unsigned x, mv_fw sz_byte b)
       | [] => Fault oob_access
       end.

(** [while ((p + i) < s && *(d + i)) ++i]: the index of the first NUL byte, or
    the length when there is none. *)
Fixpoint strlen (d : list byte) : nat :=
  match d with
  | [] => 0
  | x :: d' => if decide (x = Byte.x00) then 0 else S (strlen d')
  end%nat.

(** The string [get_str] points to, or [None] for [nilptr]. *)
Definition get_str (b : buffer) : option (list byte) * buffer :=
  let d := drop (bpos b) (bytes b) in
  let i := strlen d in
  if (buf_size b <=? buf_pos b + Z.of_nat i) || (i =? 0)%nat then (None, b)
  else (Some (take i d), mv_fw (i + 1) b).

(** [(byte) (val >> (i * 8))] for [i < n]. *)
Definition split_bytes (n : nat) (val : Z) : list byte :=
  (λ i, byte.of_Z (Z.shiftr val (Z.of_nat i * 8))) <$> seq 0 n.

Definition put_raw (d : list byte) (b : buffer) : outcome buffer :=
  if avail b <? Z.of_nat (length d) then Throw overflow_error
  else b' ← store d b; Ok (mv_fw (length d) b').

Definition put_byte (x : Z) (b : buffer) : outcome buffer := put_raw [byte.of_Z x] b.
Definition put_int (val : Z) (b : buffer) : outcome buffer :=
  put_raw (split_bytes sz_int val) b.
Definition put_ulong (val : Z) (b : buffer) : outcome buffer :=
  put_raw (split_bytes sz_ulong val) b.
Definition put_str (s : list byte) (b : buffer) : outcome buffer :=
  put_raw (s ++ [Byte.x00]) b.

Definition put_buf (src : buffer) (b : buffer) : outcome buffer :=
  if avail b <? avail src then Throw overflow_error
  else d ← load (Z.to_nat (avail src)) src;
       b' ← store d b; Ok (mv_fw (length d) b').

(** [get(dst)] copies [dst->size() - dst->pos()] bytes without looking at what
    this buffer holds: reading past its end is undefined. *)
Definition get_buf_into (dst b : buffer) : outcome (buffer * buffer) :=
  d ← load (Z.to_nat (avail dst)) b;
  dst' ← store d dst;
  Ok (dst', mv_fw (length d) b).

Definition copy `{FreshMem} (b : buffer) : outcome buffer :=
  other ← alloc (avail b);
  other ← put_buf b other;
  Ok (pos_set 0 other).

(** ** Well-formed buffers and the shapes serialisation goes through *)

Definition buf_ok (b : buffer) : Prop := (bpos b ≤ length (bytes b))%nat ∧ buf_size b < 2 ^ 31.

(** The buffer whose position is just after [pre]. *)
Definition buf_at (pre rest : list byte) : buffer := mk_buffer (pre ++ rest) (length pre).

(** The buffer holding exactly [d], read from the start. *)
Definition buf_of (d : list byte) : buffer := buf_at [] d.

(** ** The header represents size and position *)

Module BlockFacts.
Import Block.

(** The header [b] stands for a block of [sz] bytes at position [p]. *)
Definition represents (b : block) (sz p : Z) : Prop :=
  0 ≤ p ≤ sz ∧ sz < 2 ^ 31 ∧
  ((sz < 0x8000 ∧ w0 b = sz + p * 2 ^ 16) ∨
   (0x8000 ≤ sz ∧ w0 b = sz + 2 ^ 31 ∧ w1 b = p)).

Lemma of_halves_add lo hi : 0 ≤ lo < 2 ^ 16 → of_halves lo hi = lo + hi * 2 ^ 16.
Proof.
  intros Hlo. unfold of_halves. rewrite <-Z.add_lor_land, Z.shiftl_mul_pow2 by lia.
  enough (Z.land lo (hi * 2 ^ 16) = 0) as -> by lia.
  apply Z.bits_inj'; intros n Hn. rewrite Z.land_spec, Z.bits_0.
  destruct (decide (n < 16)).
  - rewrite Z.mul_pow2_bits_low by lia. apply andb_false_r.
  - rewrite (Z.bits_above_log2 lo n); [done|lia|].
    destruct (decide (lo = 0)) as [->|]; [simpl; lia|].
    apply Z.lt_le_trans with 16; [apply Z.log2_lt_pow2; lia|lia].
Qed.

Lemma lo16_mod w : lo16 w = w `mod` 2 ^ 16.
Proof. unfold lo16. apply (Z.land_ones w 16). lia. Qed.

Lemma hi16_div w : hi16 w = w `div` 2 ^ 16.
Proof. apply Z.shiftr_div_pow2. lia. Qed.

Lemma land_top w : 0 ≤ w < 2 ^ 32 →
  Z.land 0x80000000 w = if decide (2 ^ 31 ≤ w) then 2 ^ 31 else 0.
Proof.
  intros Hw. change 0x80000000 with (2 ^ 31).
  assert (Z.land (2 ^ 31) w = if Z.testbit w 31 then 2 ^ 31 else 0) as ->.
  { apply Z.bits_inj'; intros n Hn. rewrite Z.land_spec, Z.pow2_bits_eqb by lia.
    destruct (Z.eqb_spec 31 n) as [<-|Hne]; [rewrite andb_true_l|rewrite andb_false_l].
    - destruct (Z.testbit w 31); reflexivity.
    - destruct (Z.testbit w 31); [|by rewrite Z.bits_0].
      rewrite Z.pow2_bits_eqb by lia. symmetry. by apply Z.eqb_neq. }
  rewrite Z.testbit_odd, Z.shiftr_div_pow2 by lia.
  case_decide.
  - replace (w `div` 2 ^ 31) with 1; [done|]. apply Z.div_unique with (w - 2^31); lia.
  - by rewrite Z.div_small by lia.
Qed.

Lemma lxor_top w : 0 ≤ w < 2 ^ 31 → Z.lxor (w + 2 ^ 31) 0x80000000 = w.
Proof.
  intros Hw. change 0x80000000 with (2 ^ 31).
  assert (w + 2 ^ 31 = Z.lxor w (2 ^ 31)) as ->.
  { apply Z.add_nocarry_lxor. rewrite Z.land_comm, land_top by lia. case_decide; lia. }
  by rewrite Z.lxor_assoc, Z.lxor_nilpotent, Z.lxor_0_r.
Qed.

Lemma represents_is_big b sz p : represents b sz p → is_big_block b = (0x8000 <=? sz).
Proof.
  intros (Hp & Hsz & [[Hs Hw]|(Hs & Hw & _)]); unfold is_big_block;
    rewrite Hw, land_top by lia; case_decide; simpl; lia.
Qed.

Lemma represents_read b sz p :
  represents b sz p →
  size_of_block b = sz ∧ pos_of_block b = p ∧
  data_of_block b = (if 0x8000 <=? sz then 8 else 4) + p.
Proof.
  intros H. pose proof (represents_is_big _ _ _ H) as Hb.
  destruct H as (Hp & Hsz & Hw). unfold size_of_block, pos_of_block, data_of_block.
  rewrite Hb. destruct Hw as [[Hs Hw]|(Hs & Hw & Hw1)].
  - destruct (Z.leb_spec 0x8000 sz); [lia|]. rewrite Hw, hi16_div, lo16_mod.
    rewrite Z.mod_add, Z.mod_small, Z.div_add, Z.div_small by lia. lia.
  - destruct (Z.leb_spec 0x8000 sz); [|lia]. rewrite Hw, Hw1, lxor_top by lia. lia.
Qed.

Lemma represents_alloc sz : 0 ≤ sz < 2 ^ 31 → represents (alloc_header sz) sz 0.
Proof.
  intros Hsz. unfold alloc_header, represents.
  destruct (Z.leb_spec 0x8000 sz); simpl; (split_and!; [lia..|]).
  - right. rewrite u32_small by lia. split_and!; [lia| |done].
    change (Z.lor sz 0x80000000) with (Z.lor sz (2 ^ 31)).
    rewrite <-Z.add_lor_land, Z.land_comm, land_top by lia. case_decide; lia.
  - left. rewrite u16_small, of_halves_add by lia. lia.
Qed.

Lemma represents_set_pos b sz p q :
  represents b sz p → 0 ≤ q ≤ sz → represents (set_block_pos b q) sz q.
Proof.
  intros H Hq. pose proof (represents_is_big _ _ _ H) as Hb.
  destruct H as (Hp & Hsz & Hw). unfold set_block_pos, represents. rewrite Hb.
  destruct Hw as [[Hs Hw]|(Hs & Hw & Hw1)].
  - destruct (Z.leb_spec 0x8000 sz); [lia|]. simpl. split_and!; [lia..|]. left.
    rewrite Hw, lo16_mod, Z.mod_add, Z.mod_small, u16_small, of_halves_add by lia. lia.
  - destruct (Z.leb_spec 0x8000 sz); [|lia]. simpl. split_and!; [lia..|]. right.
    rewrite u32_small by lia. lia.
Qed.

Lemma mv_fw_is_set_pos b sz p d :
  represents b sz p → 0 ≤ d → p + d ≤ sz → mv_fw_block b d = set_block_pos b (p + d).
Proof.
  intros H Hd Hq. pose proof (represents_is_big _ _ _ H) as Hb.
  pose proof (represents_read _ _ _ H) as (_ & Hpos & _).
  unfold mv_fw_block, set_block_pos, pos_of_block in *. rewrite Hb in *.
  destruct (Z.leb_spec 0x8000 sz).
  - by rewrite Hpos.
  - destruct H as (? & ? & _). rewrite Hpos, (u16_small d) by lia. done.
Qed.

End BlockFacts.

(** ** Reference encodings *)

Lemma le_combine_cons x d : le_combine (x :: d) = byte.unsigned x + le_combine d * 2 ^ 8.
Proof.
  pose proof (byte.unsigned_range x). pose proof (le_combine_bound d) as [? _].
  change (le_combine (x :: d)) with (Z.lor (byte.unsigned x) (Z.shiftl (le_combine d) 8)).
  rewrite <-Z.add_lor_land, Z.shiftl_mul_pow2 by lia.
  enough (Z.land (byte.unsigned x) (le_combine d * 2 ^ 8) = 0) as -> by lia.
  apply Z.bits_inj'; intros n Hn. rewrite Z.land_spec, Z.bits_0.
  destruct (decide (n < 8)).
  - rewrite Z.mul_pow2_bits_low by lia. apply andb_false_r.
  - rewrite (Z.bits_above_log2 (byte.unsigned x) n); [done|lia|].
    destruct (decide (byte.unsigned x = 0)) as [->|]; [simpl; lia|].
    apply Z.lt_le_trans with 8; [apply Z.log2_lt_pow2; lia|lia].
Qed.

Section accumulate.
Context (wrap : Z → Z).
  Hypothesis wrap_l : ∀ a b, wrap (wrap a + b) = wrap (a + b).
  Hypothesis wrap_r : ∀ a b, wrap (a + wrap b) = wrap (a + b).

(** The loop computes the little-endian value, wrapped once. *)
Lemma accumulate_spec d i val :
  0 ≤ i → wrap val = val →
  accumulate wrap i val d = wrap (val + le_combine d * 2 ^ (i * 8)).
Proof.
  intros Hi. revert i val Hi. induction d as [|x d IH]; intros i val Hi Hv.
  - simpl. rewrite le_combine_nil. by rewrite Z.add_0_r.
  - cbn [accumulate]. rewrite IH, wrap_l; [|lia|].
    + rewrite <-Z.add_assoc, (Z.add_comm (wrap _)), Z.add_assoc, wrap_r.
      f_equal. rewrite Z.shiftl_mul_pow2, le_combine_cons by lia.
      replace ((i + 1) * 8) with (8 + i * 8) by lia. rewrite Z.pow_add_r by lia. ring.
    + pose proof (wrap_r 0 (val + wrap (Z.shiftl (byte.unsigned x) (i * 8)))). done.
Qed.
End accumulate.

Lemma accumulate_i32 d : accumulate i32 0 0 d = i32 (le_combine d).
Proof.
  rewrite accumulate_spec; auto using i32_add_l, i32_add_r; [|lia].
  f_equal. lia.
Qed.

Lemma accumulate_u64 d : accumulate u64 0 0 d = u64 (le_combine d).
Proof.
  rewrite accumulate_spec; auto using u64_add_l, u64_add_r; [|lia].
  f_equal. lia.
Qed.

Lemma split_bytes_le n v : split_bytes n v = le_split n v.
Proof.
  unfold split_bytes. revert v. induction n as [|n IH]; intros v; [done|].
  change (le_split (S n) v) with (byte.of_Z v :: le_split n (Z.shiftr v 8)).
  rewrite <-IH. cbn [seq fmap list_fmap]. f_equal.
  rewrite <-fmap_S_seq, <-list_fmap_compose. apply list_fmap_ext. intros i k _. simpl.
  rewrite Z.shiftr_shiftr by lia. do 2 f_equal. lia.
Qed.

Definition int_bytes (v : Z) : list byte := le_split sz_int v.
Definition ulong_bytes (v : Z) : list byte := le_split sz_ulong v.
Definition byte_bytes (v : Z) : list byte := [byte.of_Z v].
#[global] Arguments int_bytes : simpl never.
#[global] Arguments ulong_bytes : simpl never.
#[global] Arguments byte_bytes : simpl never.

Lemma length_int_bytes v : length (int_bytes v) = 4%nat.
Proof. apply length_le_split. Qed.
Lemma length_ulong_bytes v : length (ulong_bytes v) = 8%nat.
Proof. apply length_le_split. Qed.
Lemma length_fresh `{FreshMem} n : length (fresh n) = n.
Proof. unfold fresh. by rewrite length_fmap, length_seq. Qed.

Create Rewrite HintDb len.
#[export] Hint Rewrite @length_app @length_drop @length_take @length_cons @length_nil
  length_int_bytes length_ulong_bytes @length_fresh : len.

(** Lengths of concatenated encodings, then arithmetic. *)
Ltac len := autorewrite with len in *; simpl length in *; try lia.

(** ** Writing and reading at a position *)

Lemma avail_at pre rest :
  Z.of_nat (length (pre ++ rest)) < 2 ^ 64 →
  avail (buf_at pre rest) = Z.of_nat (length rest).
Proof.
  intros H. unfold avail, buf_at, buf_size, buf_pos; simpl in *.
  rewrite u64_small; unfold is_u64; len.
Qed.

Lemma store_at pre rest d :
  (length d ≤ length rest)%nat →
  store d (buf_at pre rest) =
    Ok (buf_at pre (d ++ drop (length d) rest)).
Proof.
  intros H. unfold store, buf_at; simpl.
  destruct (Nat.leb_spec (length pre + length d) (length (pre ++ rest))); [|len].
  unfold update; simpl. rewrite take_app_length, <-drop_drop, drop_app_length. done.
Qed.

Lemma load_at n pre rest :
  (n ≤ length rest)%nat → load n (buf_at pre rest) = Ok (take n rest).
Proof.
  intros H. unfold load, buf_at; simpl.
  destruct (Nat.leb_spec (length pre + n) (length (pre ++ rest))); [|len].
  by rewrite drop_app_length.
Qed.

Lemma mv_fw_at pre d rest :
  mv_fw (length d) (buf_at pre (d ++ rest)) = buf_at (pre ++ d) rest.
Proof.
  unfold mv_fw, buf_at, update; simpl. rewrite app_assoc. f_equal. len.
Qed.

(** A buffer still below the 2 GiB limit of [alloc]. *)
Definition fits (pre rest : list byte) : Prop := Z.of_nat (length (pre ++ rest)) < 2 ^ 31.

Lemma put_raw_at pre rest d :
  fits pre rest → (length d ≤ length rest)%nat →
  put_raw d (buf_at pre rest) = Ok (buf_at (pre ++ d) (drop (length d) rest)).
Proof.
  unfold fits. intros Hf H. unfold put_raw. rewrite avail_at by lia.
  destruct (Z.ltb_spec (Z.of_nat (length rest)) (Z.of_nat (length d))); [lia|].
  rewrite store_at by done. simpl. by rewrite mv_fw_at.
Qed.

Lemma put_raw_short b d : avail b < Z.of_nat (length d) → put_raw d b = Throw overflow_error.
Proof. intros H. unfold put_raw. by apply Z.ltb_lt in H as ->. Qed.

Lemma put_byte_at pre rest x :
  fits pre rest → (1 ≤ length rest)%nat →
  put_byte x (buf_at pre rest) = Ok (buf_at (pre ++ byte_bytes x) (drop 1 rest)).
Proof. intros. by apply put_raw_at. Qed.

Lemma put_int_at pre rest v :
  fits pre rest → (4 ≤ length rest)%nat →
  put_int v (buf_at pre rest) = Ok (buf_at (pre ++ int_bytes v) (drop 4 rest)).
Proof.
  intros. unfold put_int. rewrite split_bytes_le. fold (int_bytes v).
  rewrite put_raw_at by (try done; len). by rewrite length_int_bytes.
Qed.

Lemma put_ulong_at pre rest v :
  fits pre rest → (8 ≤ length rest)%nat →
  put_ulong v (buf_at pre rest) = Ok (buf_at (pre ++ ulong_bytes v) (drop 8 rest)).
Proof.
  intros. unfold put_ulong. rewrite split_bytes_le. fold (ulong_bytes v).
  rewrite put_raw_at by (try done; len). by rewrite length_ulong_bytes.
Qed.

Lemma put_str_at pre rest s :
  fits pre rest → (length s + 1 ≤ length rest)%nat →
  put_str s (buf_at pre rest) =
    Ok (buf_at (pre ++ s ++ [Byte.x00]) (drop (length s + 1) rest)).
Proof. intros. unfold put_str. rewrite put_raw_at by (try done; len). by len. Qed.

Lemma put_buf_at pre rest spre srest :
  fits pre rest → fits spre srest → (length srest ≤ length rest)%nat →
  put_buf (buf_at spre srest) (buf_at pre rest) =
    Ok (buf_at (pre ++ srest) (drop (length srest) rest)).
Proof.
  unfold fits. intros Hf Hs H. unfold put_buf. rewrite !avail_at by lia.
  destruct (Z.ltb_spec (Z.of_nat (length rest)) (Z.of_nat (length srest))); [lia|].
  rewrite Nat2Z.id, load_at by done. simpl. rewrite take_ge, store_at by lia. simpl.
  by rewrite mv_fw_at.
Qed.

Lemma put_buf_of_at pre rest d :
  fits pre rest → (length d ≤ length rest)%nat →
  put_buf (buf_of d) (buf_at pre rest) = Ok (buf_at (pre ++ d) (drop (length d) rest)).
Proof. intros Hf H. apply put_buf_at; [done| |done]. unfold fits in *. len. Qed.

Lemma alloc_at `{FreshMem} sz :
  sz < 2 ^ 31 → alloc sz = Ok (buf_at [] (fresh (Z.to_nat sz))).
Proof. intros H0. unfold alloc. destruct (Z.leb_spec 0x80000000 sz); [lia|done]. Qed.

Lemma alloc_too_big `{FreshMem} sz : 2 ^ 31 ≤ sz → alloc sz = Throw out_of_range.
Proof. intros H0. unfold alloc. destruct (Z.leb_spec 0x80000000 sz); [done|lia]. Qed.

(** A filled buffer is rewound. *)
Lemma rewind_at pre rest : length rest = 0%nat → pos_set 0 (buf_at pre rest) = buf_of pre.
Proof.
  destruct rest; [|done]. intros _. unfold pos_set, buf_of, buf_at, update; simpl.
  rewrite app_nil_r. destruct (_ <? 0) eqn:E; [|done].
  apply Z.ltb_lt in E. unfold buf_size in E. simpl in E. lia.
Qed.

Lemma get_int_at pre v post :
  fits pre (int_bytes v ++ post) →
  get_int (buf_at pre (int_bytes v ++ post)) = Ok (i32 v, buf_at (pre ++ int_bytes v) post).
Proof.
  unfold fits. intros Hf. unfold get_int. rewrite avail_at by lia.
  destruct (Z.ltb_spec (Z.of_nat (length (int_bytes v ++ post))) (Z.of_nat sz_int)) as [E|_].
  { len. unfold sz_int in *. lia. }
  rewrite load_at by (len; unfold sz_int; lia). cbn [mbind outcome_bind].
  rewrite take_app_length' by (symmetry; apply length_le_split). rewrite accumulate_i32.
  unfold int_bytes at 1. rewrite le_combine_split. f_equal. f_equal; [apply i32_mod|].
  rewrite <-mv_fw_at. by rewrite length_int_bytes.
Qed.

Lemma get_ulong_at pre v post :
  fits pre (ulong_bytes v ++ post) →
  get_ulong (buf_at pre (ulong_bytes v ++ post)) =
    Ok (u64 v, buf_at (pre ++ ulong_bytes v) post).
Proof.
  unfold fits. intros Hf. unfold get_ulong. rewrite avail_at by lia.
  destruct (Z.ltb_spec (Z.of_nat (length (ulong_bytes v ++ post))) (Z.of_nat sz_ulong)) as [E|_].
  { len. unfold sz_ulong in *. lia. }
  rewrite load_at by (len; unfold sz_ulong; lia). cbn [mbind outcome_bind].
  rewrite take_app_length' by (symmetry; apply length_le_split). rewrite accumulate_u64.
  unfold ulong_bytes at 1. rewrite le_combine_split. f_equal. f_equal.
  - unfold u64. by rewrite Zmod_mod.
  - rewrite <-mv_fw_at. by rewrite length_ulong_bytes.
Qed.

Lemma get_byte_at pre v post :
  fits pre (byte_bytes v ++ post) →
  get_byte (buf_at pre (byte_bytes v ++ post)) =
    Ok (v `mod` 2 ^ 8, buf_at (pre ++ byte_bytes v) post).
Proof.
  unfold fits. intros Hf. unfold get_byte. rewrite avail_at by lia.
  destruct (Z.ltb_spec (Z.of_nat (length (byte_bytes v ++ post))) (Z.of_nat sz_byte)) as [E|_].
  { unfold byte_bytes, sz_byte in *. len. }
  rewrite load_at by (unfold byte_bytes, sz_byte; len). simpl.
  rewrite byte.unsigned_of_Z. unfold byte.wrap. f_equal. f_equal.
  by rewrite <-mv_fw_at.
Qed.

Lemma strlen_app s rest : Byte.x00 ∉ s → strlen (s ++ Byte.x00 :: rest) = length s.
Proof.
  induction s as [|x s IH]; intros Hx; [done|]. simpl.
  rewrite decide_False by set_solver. f_equal. apply IH. set_solver.
Qed.

Lemma get_str_at pre s post :
  Byte.x00 ∉ s → s ≠ [] →
  get_str (buf_at pre ((s ++ [Byte.x00]) ++ post)) =
    (Some s, buf_at (pre ++ s ++ [Byte.x00]) post).
Proof.
  intros Hx Hs. unfold get_str, buf_at at 1 2 3 4; simpl.
  rewrite drop_app_length, <-app_assoc. simpl. rewrite strlen_app by done.
  unfold buf_size, buf_pos; simpl.
  destruct (Z.leb_spec (Z.of_nat (length (pre ++ s ++ Byte.x00 :: post)))
              (Z.of_nat (length pre) + Z.of_nat (length s))); [len|].
  destruct (Nat.eqb_spec (length s) 0); [by destruct s|]. simpl.
  rewrite take_app_length. f_equal.
  rewrite <-mv_fw_at, <-app_assoc. f_equal. len.
Qed.

(** [get] into a fresh buffer of [n] bytes. *)
Lemma get_buf_into_at pre d post dst :
  fits pre (d ++ post) → length dst = length d →
  get_buf_into (buf_of dst) (buf_at pre (d ++ post)) =
    Ok (buf_of d, buf_at (pre ++ d) post).
Proof.
  unfold fits. intros Hf Hl. unfold get_buf_into, buf_of. len.
  rewrite avail_at by len. rewrite Nat2Z.id, load_at by len. simpl.
  rewrite Hl, take_app_length, store_at by lia. simpl.
  rewrite mv_fw_at, <-Hl, drop_all, app_nil_r. done.
Qed.

(** Past the end of the source nothing stops the copy. *)
Lemma get_buf_into_overread dst b :
  buf_ok dst → buf_ok b →
  (length (bytes b) - bpos b < length (bytes dst) - bpos dst)%nat →
  get_buf_into dst b = Fault oob_access.
Proof.
  unfold buf_ok, buf_size. intros [Hd Hd'] [Hb Hb'] H. unfold get_buf_into, avail, buf_size, buf_pos.
  rewrite u64_small by (unfold is_u64; lia). unfold load.
  destruct (Nat.leb_spec (bpos b + Z.to_nat (Z.of_nat (length (bytes dst)) - Z.of_nat (bpos dst)))
              (length (bytes b))); [lia|done].
Qed.

Lemma buf_ok_at b : buf_ok b → b = buf_at (take (bpos b) (bytes b)) (drop (bpos b) (bytes b)).
Proof.
  intros [H _]. unfold buf_at. rewrite take_drop, length_take, Nat.min_l by done.
  by destruct b.
Qed.

(** [copy] keeps what follows the position. *)
Lemma copy_spec `{FreshMem} b : buf_ok b → copy b = Ok (buf_of (drop (bpos b) (bytes b))).
Proof.
  intros Hb. rewrite (buf_ok_at _ Hb) at 1. destruct Hb as [Hb Hs]. unfold buf_size in Hs.
  set (pre := take _ _). set (rest := drop _ _).
  assert (Z.of_nat (length (pre ++ rest)) < 2 ^ 31) as Hl
    by (subst pre rest; rewrite take_drop; lia).
  unfold copy. rewrite avail_at by lia. len. rewrite alloc_at by lia. simpl.
  rewrite Nat2Z.id, put_buf_at; unfold fits; len. simpl.
  by rewrite rewind_at by len.
Qed.

(** Reads never leave a well-formed buffer. *)
Lemma mv_fw_ok n b : buf_ok b → (bpos b + n ≤ length (bytes b))%nat → buf_ok (mv_fw n b).
Proof. unfold buf_ok, buf_size, mv_fw, update; simpl. lia. Qed.

Lemma avail_ok b : buf_ok b → avail b = buf_size b - buf_pos b.
Proof.
  intros [H1 H2]. unfold avail, buf_size, buf_pos in *.
  apply u64_small. unfold is_u64. lia.
Qed.

Lemma load_checked n b :
  buf_ok b → Z.of_nat n ≤ avail b →
  load n b = Ok (take n (drop (bpos b) (bytes b))) ∧ (bpos b + n ≤ length (bytes b))%nat.
Proof.
  intros Hb. rewrite avail_ok by done. unfold buf_size, buf_pos, load. intros H.
  destruct (Nat.leb_spec (bpos b + n) (length (bytes b))); [|lia]. split; [done|lia].
Qed.

Lemma store_checked d b :
  buf_ok b → Z.of_nat (length d) ≤ avail b →
  ∃ b', store d b = Ok b' ∧ bpos b' = bpos b ∧ length (bytes b') = length (bytes b) ∧
        (bpos b + length d ≤ length (bytes b))%nat.
Proof.
  intros Hb. rewrite avail_ok by done. unfold buf_size, buf_pos, store. intros H.
  destruct (Nat.leb_spec (bpos b + length d) (length (bytes b))); [|lia].
  eexists; split_and!; [done..| |lia]. unfold update; simpl. len.
Qed.

(** ** Properties of the buffer *)

(** A result that is in bounds: a value or an exception, never an access
    outside the block, and the buffer it leaves is well formed. *)
Definition in_bounds (o : outcome buffer) : Prop :=
  match o with Ok b => buf_ok b | Throw _ => True | Fault _ => False end.

Lemma put_raw_in_bounds d b : buf_ok b → in_bounds (put_raw d b).
Proof.
  intros Hb. unfold put_raw. destruct (Z.ltb_spec (avail b) (Z.of_nat (length d))); [done|].
  destruct (store_checked d b) as (b' & -> & Hp & Hl & Hle); [done..|].
  simpl. destruct Hb. unfold buf_ok, buf_size, mv_fw, update in *; simpl. lia.
Qed.

Lemma put_buf_in_bounds src b : buf_ok src → buf_ok b → in_bounds (put_buf src b).
Proof.
  intros Hs Hb. unfold put_buf. destruct (Z.ltb_spec (avail b) (avail src)); [done|].
  pose proof (u64_range (buf_size src - buf_pos src)) as [Hr _].
  destruct (load_checked (Z.to_nat (avail src)) src) as [-> Hn]; [done|unfold avail in *; lia|].
  simpl. set (d := take _ _).
  assert (length d = Z.to_nat (avail src)) as Hd by (subst d; len).
  destruct (store_checked d b) as (b' & -> & Hp & Hl & Hle); [done|unfold avail in *; lia|].
  simpl. destruct Hb. unfold buf_ok, buf_size, mv_fw, update in *; simpl. lia.
Qed.

(** C32: the accessors that check the space left ([get_int], [get_ulong],
    [get_byte], [get_str], [pos] and every [put]) never touch memory outside
    the block, whatever the contents and the position: on a well-formed buffer
    each of them either throws or leaves a well-formed buffer. *)
Theorem checked_accessors_in_bounds (b src : buffer) (v p : Z) (s : list byte) :
  buf_ok b → buf_ok src →
  in_bounds (snd <$> get_int b) ∧ in_bounds (snd <$> get_ulong b) ∧
  in_bounds (snd <$> get_byte b) ∧ buf_ok (get_str b).2 ∧ buf_ok (pos_set p b) ∧
  in_bounds (put_byte v b) ∧ in_bounds (put_int v b) ∧ in_bounds (put_ulong v b) ∧
  in_bounds (put_str s b) ∧ in_bounds (put_buf src b).
Proof.
  intros Hb Hs. split_and!; try (by apply put_raw_in_bounds); try (by apply put_buf_in_bounds).
  - unfold get_int. destruct (Z.ltb_spec (avail b) (Z.of_nat sz_int)); [done|].
    destruct (load_checked sz_int b) as [-> ?]; auto. simpl. by apply mv_fw_ok.
  - unfold get_ulong. destruct (Z.ltb_spec (avail b) (Z.of_nat sz_ulong)); [done|].
    destruct (load_checked sz_ulong b) as [-> ?]; auto. simpl. by apply mv_fw_ok.
  - unfold get_byte. destruct (Z.ltb_spec (avail b) (Z.of_nat sz_byte)); [done|].
    destruct (load_checked sz_byte b) as [-> Hl]; auto. cbn [mbind outcome_bind].
    destruct (take sz_byte (drop (bpos b) (bytes b))) as [|x l] eqn:E; [|by apply mv_fw_ok].
    apply (f_equal length) in E. unfold sz_byte in *. len.
  - unfold get_str. destruct (Z.leb_spec (buf_size b) (buf_pos b +
      Z.of_nat (strlen (drop (bpos b) (bytes b))))); [done|].
    simpl. destruct (_ =? 0)%nat; [done|]. apply mv_fw_ok; [done|].
    unfold buf_size, buf_pos in *. lia.
  - destruct Hb. unfold buf_ok, pos_set, update, buf_size in *; simpl.
    destruct (Z.ltb_spec (Z.of_nat (length (bytes b))) p); lia.
Qed.

Lemma checked_accessors_in_bounds_witness :
  buf_ok (buf_of [Byte.x01; Byte.x02]) ∧
  in_bounds (snd <$> get_int (buf_of [Byte.x01; Byte.x02])).
Proof.
  assert (buf_ok (buf_of [Byte.x01; Byte.x02])) as H by (split; vm_compute; try lia; done).
  split; [exact H|].
  exact (proj1 (checked_accessors_in_bounds (buf_of [Byte.x01; Byte.x02])
    (buf_of [Byte.x01; Byte.x02]) 0 0 [] H H)).
Defined.

(** The position changes of the accessors, on the header and on the buffer. *)
Inductive pos_op := Seek (p : Z) | Advance (n : nat).

Definition run_pos (o : pos_op) (b : buffer) : buffer :=
  match o with Seek p => pos_set p b | Advance n => mv_fw n b end.

Definition run_header (sz : Z) (o : pos_op) (h : Block.block) : Block.block :=
  match o with
  | Seek p => Block.set_block_pos h (if sz <? p then sz else p)
  | Advance n => Block.mv_fw_block h (Z.of_nat n)
  end.

(** Every position reached stays inside the block. *)
Fixpoint stays_inside (os : list pos_op) (b : buffer) : Prop :=
  match os with
  | [] => True
  | o :: os' => (match o with Seek p => 0 ≤ p | Advance _ => True end) ∧
                buf_ok (run_pos o b) ∧ stays_inside os' (run_pos o b)
  end.

Lemma header_step h b o :
  BlockFacts.represents h (buf_size b) (buf_pos b) →
  (match o with Seek p => 0 ≤ p | Advance _ => True end) →
  buf_ok (run_pos o b) →
  BlockFacts.represents (run_header (buf_size b) o h)
    (buf_size (run_pos o b)) (buf_pos (run_pos o b)).
Proof.
  intros H Hp Hok. pose proof H as (? & ? & _). destruct o as [p|n]; simpl in *.
  - unfold pos_set, update, buf_pos, buf_size in *; simpl; fold (buf_size b) in *.
    destruct (Z.ltb_spec (buf_size b) p); rewrite Z2Nat.id by lia;
      eapply BlockFacts.represents_set_pos; eauto; lia.
  - destruct Hok as [Hn _]. unfold buf_pos, buf_size, mv_fw, update in *; simpl in *.
    erewrite BlockFacts.mv_fw_is_set_pos by (eauto; lia).
    replace (Z.of_nat (n + bpos b)) with (Z.of_nat (bpos b) + Z.of_nat n) by lia.
    eapply BlockFacts.represents_set_pos; eauto; lia.
Qed.

(** C33: the packed block header implements the buffer.  After [alloc] and any
    sequence of position changes that stays inside the block, the header bits
    (the tag of the block kind included) decode to the size and the position
    the accessors work with, and [data()] points just past the header of the
    right kind. *)
Theorem header_simulates `{FreshMem} (sz : Z) (b : buffer) (os : list pos_op) :
  0 ≤ sz → alloc sz = Ok b → stays_inside os b →
  let h := foldl (λ h o, run_header sz o h) (Block.alloc_header sz) os in
  let b' := foldl (λ b o, run_pos o b) b os in
  Block.size_of_block h = buf_size b' ∧ Block.pos_of_block h = buf_pos b' ∧
  Block.data_of_block h = (if 0x8000 <=? sz then 8 else 4) + buf_pos b'.
Proof.
  intros Hsz Ha Hin. unfold alloc in Ha. destruct (Z.leb_spec 0x80000000 sz); [done|].
  assert (buf_size b = sz ∧ buf_pos b = 0) as [Hs0 Hp0].
  { injection Ha as <-. unfold buf_size, buf_pos; simpl. rewrite length_fresh. lia. }
  assert (BlockFacts.represents (Block.alloc_header sz) (buf_size b) (buf_pos b)) as Hr.
  { rewrite Hs0, Hp0. apply BlockFacts.represents_alloc. lia. }
  clear Ha Hp0. revert Hr. generalize (Block.alloc_header sz) as h. revert b Hs0 Hin.
  induction os as [|o os IH]; intros b Hs0 Hin h Hr.
  - cbn [foldl]. rewrite <-Hs0. by apply BlockFacts.represents_read.
  - destruct Hin as (Hp & Hok & Hin). apply IH; [|done|].
    + rewrite <-Hs0. by destruct o.
    + rewrite <-Hs0 at 1. by apply header_step.
Qed.

Lemma header_simulates_witness :
  let fm : FreshMem := λ _, Byte.x00 in
  Block.pos_of_block (Block.mv_fw_block (Block.alloc_header 0x9000) 4) = 4.
Proof.
  intros fm.
  pose proof (header_simulates 0x9000 (mk_buffer (fresh (Z.to_nat 0x9000)) 0) [Advance 4]
    ltac:(lia) eq_refl) as H.
  destruct H as (_ & H & _); [|exact H].
  split_and!; [exact I| |exact I].
  unfold buf_ok, run_pos, mv_fw, update, buf_size. cbn [bpos bytes].
  rewrite length_fresh. lia.
Defined.

(** ** Automation for serialisers

    [serial]: run a chain of [alloc] and [put]s forward; [deserial]: run a
    chain of [get]s over the concatenated encodings.  The side conditions are
    lengths. *)

Ltac fits_tac := unfold fits, sz_int, sz_ulong, sz_byte, byte_bytes in *; len; try done.

Ltac serial_step :=
  first
    [ rewrite alloc_at by fits_tac
    | rewrite put_ulong_at by fits_tac
    | rewrite put_int_at by fits_tac
    | rewrite put_byte_at by fits_tac
    | rewrite put_str_at by fits_tac
    | rewrite put_buf_of_at by fits_tac
    | rewrite rewind_at by fits_tac ];
  cbn [mbind outcome_bind].
Ltac serial := repeat serial_step.

Ltac deserial_step :=
  first
    [ rewrite get_ulong_at by fits_tac
    | rewrite get_int_at by fits_tac
    | rewrite get_byte_at by fits_tac
    | rewrite get_str_at by (try done; fits_tac) ];
  cbn [mbind outcome_bind].
Ltac deserial := rewrite <-?app_assoc; repeat deserial_step.
