(* ===== verification/Transport.v ===== *)
(** * Message envelope and encryption

    What travels between two enclaves: the message tags of
    src/common/messages.hxx, the AES-CTR wrappers of
    src/common/aes_ctr_crypto.cxx and the envelope of
    src/raft_enclave/port/crypto.cxx.  OpenSSL is a parameter: the class [evp]
    holds the calls the wrappers make, [evp_laws] what its documentation says
    of the results of calls in CTR mode that succeed, and [evp_works], kept
    apart, that they succeed. *)

From S2P Require Import Prelude Buffer.

(** ** Message tags *)

Inductive er_message_type :=
  | client_add_srv_req | client_add_srv_resp
  | client_remove_srv_req | client_remove_srv_resp
  | client_append_entries_req | client_append_entries_resp
  | system_key_exchange_req | system_key_exchange_resp
  | system_key_setup_req | system_key_setup_resp
  | raft_message
  | er_unknown (tag : Z).

Definition er_type_to_Z (t : er_message_type) : Z :=
  match t with
  | client_add_srv_req => 1 | client_add_srv_resp => 2
  | client_remove_srv_req => 3 | client_remove_srv_resp => 4
  | client_append_entries_req => 5 | client_append_entries_resp => 6
  | system_key_exchange_req => 7 | system_key_exchange_resp => 8
  | system_key_setup_req => 9 | system_key_setup_resp => 10
  | raft_message => 255
  | er_unknown z => z
  end.

(** [static_cast<er_message_type>] of a 16-bit number. *)
Definition er_type_of_Z (z : Z) : er_message_type :=
  match z with
  | 1 => client_add_srv_req | 2 => client_add_srv_resp
  | 3 => client_remove_srv_req | 4 => client_remove_srv_resp
  | 5 => client_append_entries_req | 6 => client_append_entries_resp
  | 7 => system_key_exchange_req | 8 => system_key_exchange_resp
  | 9 => system_key_setup_req | 10 => system_key_setup_resp
  | 255 => raft_message
  | _ => er_unknown z
  end.

#[global] Instance er_message_type_eq_dec : EqDecision er_message_type.
Proof. solve_decision. Defined.

(** A number as it lies in memory, and the tag in front of a message. *)
Definition u16_bytes (z : Z) : list byte := le_split 2 z.
Definition u32_bytes (z : Z) : list byte := le_split 4 z.

(** The tag in front of a message: two bytes are read whatever the size. *)
Definition read_type (message : list byte) : outcome er_message_type :=
  match message with
  | a :: b :: _ => Ok (er_type_of_Z (le_combine [a; b]))
  | _ => Fault oob_access
  end.

(** [message->insert(message->begin(), ptr, ptr + sizeof(uint16_t))]. *)
Definition tagged (t : er_message_type) (message : list byte) : list byte :=
  u16_bytes (er_type_to_Z t) ++ message.

(** [memcpy_s(dst, dst_size, src, count)] of the SGX runtime: when [count]
    does not fit, the destination is cleared and an error code returned, which
    no caller looks at.  [src] is what can be read behind the source pointer. *)
Definition memcpy_s (dst src : list byte) (count : nat) : outcome (list byte) :=
  if (length dst <? count)%nat then Ok (replicate (length dst) Byte.x00)
  else if (length src <? count)%nat then Fault oob_access
  else Ok (take count src ++ drop count dst).

(** ** AES-CTR *)

Definition S_KEY_SIZE : nat := 32.
Definition S_BLOCK_SIZE : nat := 16.

(** The OpenSSL calls: [None] stands for a result other than 1,
    [EVP_CIPHER_CTX_new] says whether the pointer is not null.  [Update] gets
    the memory behind the input pointer and the [int] that says how much of it
    is the input. *)
Class evp := {
  EVP_CIPHER_CTX_new : bool;
  EVP_EncryptInit_ex : list byte → list byte → option ();
  EVP_EncryptUpdate : list byte → list byte → list byte → Z → option (list byte);
  EVP_EncryptFinal_ex : list byte → list byte → list byte → Z → option (list byte);
  EVP_DecryptInit_ex : list byte → list byte → option ();
  EVP_DecryptUpdate : list byte → list byte → list byte → Z → option (list byte);
  EVP_DecryptFinal_ex : list byte → list byte → list byte → Z → option (list byte);
  RAND_bytes : nat → nat → option (list byte);
}.

Definition check {A} (o : option A) : outcome A :=
  match o with Some a => Ok a | None => Throw runtime_error end.

Section code.
Context `{evp}.

(** The [n]-th call. *)
Definition rand_fill (n size : nat) : outcome (list byte) := check (RAND_bytes n size).

(** The context the calls are made with. *)
Definition new_ctx : outcome () := if EVP_CIPHER_CTX_new then Ok tt else Fault null_deref.

(** The output buffer has [size] bytes; the two calls write into it one after
    the other, and it is cut to what they wrote. *)
Definition gather (size : Z) (out1 out2 : list byte) : outcome (list byte) :=
  if size <? Z.of_nat (length out1 + length out2) then Fault oob_access else Ok (out1 ++ out2).

(** [psize] is a [uint32_t]: the buffer's size is computed in 32 bits, and the
    length given to OpenSSL is negative from 2^31 on. *)
Definition aes_ctr_encrypt (key iv ptext : list byte) (psize : Z) : outcome (list byte) :=
  new_ctx ;;
  check (EVP_EncryptInit_ex key iv) ;;
  out1 ← check (EVP_EncryptUpdate key iv ptext (i32 psize));
  out2 ← check (EVP_EncryptFinal_ex key iv ptext (i32 psize));
  gather (u32 (psize + Z.of_nat S_BLOCK_SIZE)) out1 out2.

(** [&rtext[0]] of an empty vector is undefined. *)
Definition aes_ctr_decrypt (key iv ctext : list byte) (csize : Z) : outcome (list byte) :=
  new_ctx ;;
  check (EVP_DecryptInit_ex key iv) ;;
  if csize =? 0 then Fault oob_access
  else
    out1 ← check (EVP_DecryptUpdate key iv ctext (i32 csize));
    out2 ← check (EVP_DecryptFinal_ex key iv ctext (i32 csize));
    gather csize out1 out2.

(** ** The envelope *)

(** [hex::decode] of the literal in the source. *)
Definition get_key : list byte := le_split 32
  0x1d46075acef8505ecf44adf18ceb3e69ea0e57db9125670a4b93503d35828682.

(** The sizes of both functions are [uint32_t]. *)
Definition raft_encrypt (n : nat) (data : list byte) : outcome (list byte) :=
  iv ← rand_fill n S_BLOCK_SIZE;
  enc ← aes_ctr_encrypt get_key iv data (u32 (Z.of_nat (length data)));
  Ok (iv ++ enc).

(** With fewer than [S_BLOCK_SIZE] bytes the initial value is read past the end
    of the message. *)
Definition raft_decrypt (data : list byte) : outcome (list byte) :=
  if (length data <? S_BLOCK_SIZE)%nat then Fault oob_access
  else aes_ctr_decrypt get_key (take S_BLOCK_SIZE data) (drop S_BLOCK_SIZE data)
         (u32 (u32 (Z.of_nat (length data)) - Z.of_nat S_BLOCK_SIZE)).
End code.

(** ** What OpenSSL promises *)

Definition xor_bytes (a b : list byte) : list byte := zip_with byte.xor a b.

(** CTR mode: a call that succeeds combines the text with a key stream that
    depends on the key and the initial value only; the length is kept, the
    last call adds nothing. *)
Class evp_laws `{evp} := {
  keystream : list byte → list byte → nat → list byte;
  keystream_length key iv n : length (keystream key iv n) = n;
  encrypt_update key iv d n r : 0 ≤ n ≤ Z.of_nat (length d) → EVP_EncryptUpdate key iv d n = Some r →
    r = xor_bytes (take (Z.to_nat n) d) (keystream key iv (Z.to_nat n));
  encrypt_final key iv d n r : EVP_EncryptFinal_ex key iv d n = Some r → r = [];
  decrypt_update key iv d n r : 0 ≤ n ≤ Z.of_nat (length d) → EVP_DecryptUpdate key iv d n = Some r →
    r = xor_bytes (take (Z.to_nat n) d) (keystream key iv (Z.to_nat n));
  decrypt_final key iv d n r : EVP_DecryptFinal_ex key iv d n = Some r → r = [];
  rand_length n size r : RAND_bytes n size = Some r → length r = size;
}.

(** An assumption on the run, not on OpenSSL's results: no call fails (no
    memory is missing, the generator is seeded) on keys and initial values of
    the right size and on lengths that are not negative. *)
Class evp_works `{evp} : Prop := {
  ctx_new_works : EVP_CIPHER_CTX_new = true;
  encrypt_init_works key iv : length key = S_KEY_SIZE → length iv = S_BLOCK_SIZE →
    EVP_EncryptInit_ex key iv = Some ();
  encrypt_update_works key iv d n : 0 ≤ n → is_Some (EVP_EncryptUpdate key iv d n);
  encrypt_final_works key iv d n : 0 ≤ n → is_Some (EVP_EncryptFinal_ex key iv d n);
  decrypt_init_works key iv : length key = S_KEY_SIZE → length iv = S_BLOCK_SIZE →
    EVP_DecryptInit_ex key iv = Some ();
  decrypt_update_works key iv d n : 0 ≤ n → is_Some (EVP_DecryptUpdate key iv d n);
  decrypt_final_works key iv d n : 0 ≤ n → is_Some (EVP_DecryptFinal_ex key iv d n);
  rand_works n size : is_Some (RAND_bytes n size);
}.

(** *** Exclusive or *)

Lemma wrap_ones z : byte.wrap z = Z.land z (Z.ones 8).
Proof. by rewrite Z.land_ones by lia. Qed.

Lemma xor_xor_byte a b : byte.xor (byte.xor a b) b = a.
Proof.
  apply byte.unsigned_inj. unfold byte.xor. rewrite !byte.unsigned_of_Z, <-(byte.wrap_unsigned a).
  rewrite !wrap_ones. apply Z.bits_inj'. intros n Hn.
  repeat (rewrite Z.land_spec || rewrite Z.lxor_spec).
  destruct (Z.testbit (byte.unsigned a) n), (Z.testbit (byte.unsigned b) n),
    (Z.testbit (Z.ones 8) n); done.
Qed.

Lemma xor_swap_byte a b c : byte.xor (byte.xor a b) c = byte.xor (byte.xor a c) b.
Proof.
  apply byte.unsigned_inj. unfold byte.xor. rewrite !byte.unsigned_of_Z.
  rewrite !wrap_ones. apply Z.bits_inj'. intros n Hn.
  repeat (rewrite Z.land_spec || rewrite Z.lxor_spec).
  destruct (Z.testbit (byte.unsigned a) n), (Z.testbit (byte.unsigned b) n),
    (Z.testbit (byte.unsigned c) n), (Z.testbit (Z.ones 8) n); done.
Qed.

Lemma length_xor_bytes a b : length b = length a → length (xor_bytes a b) = length a.
Proof. intros Hl. unfold xor_bytes. rewrite length_zip_with. lia. Qed.

Lemma xor_xor_bytes a b : length b = length a → xor_bytes (xor_bytes a b) b = a.
Proof.
  revert b. induction a as [|x a IH]; intros [|y b] Hl; try done. cbn.
  injection Hl as Hl. by rewrite xor_xor_byte, IH.
Qed.

Lemma xor_swap_bytes a b c :
  length b = length a → length c = length a →
  xor_bytes (xor_bytes a b) c = xor_bytes (xor_bytes a c) b.
Proof.
  revert b c. induction a as [|x a IH]; intros [|y b] [|z c] Hb Hc; try done. cbn.
  injection Hb as Hb. injection Hc as Hc. by rewrite xor_swap_byte, IH.
Qed.

(** Lengths OpenSSL's [int] can express. *)
Definition int_sized (d : list byte) : Prop := Z.of_nat (length d) < 2 ^ 31.

Section laws.
Context `{evp_laws} `{!evp_works}.

Lemma length_get_key : length get_key = S_KEY_SIZE.
Proof. apply length_le_split. Qed.

(** The whole text, from the two calls. *)
Lemma encrypt_update_all key iv d :
  EVP_EncryptUpdate key iv d (Z.of_nat (length d)) = Some (xor_bytes d (keystream key iv (length d))).
Proof.
  destruct (encrypt_update_works key iv d (Z.of_nat (length d))) as [r Hr]; [lia|]. rewrite Hr.
  apply encrypt_update in Hr; [|lia]. by rewrite Nat2Z.id, firstn_all in Hr; subst r.
Qed.
Lemma decrypt_update_all key iv d :
  EVP_DecryptUpdate key iv d (Z.of_nat (length d)) = Some (xor_bytes d (keystream key iv (length d))).
Proof.
  destruct (decrypt_update_works key iv d (Z.of_nat (length d))) as [r Hr]; [lia|]. rewrite Hr.
  apply decrypt_update in Hr; [|lia]. by rewrite Nat2Z.id, firstn_all in Hr; subst r.
Qed.
Lemma encrypt_final_all key iv d n : 0 ≤ n → EVP_EncryptFinal_ex key iv d n = Some [].
Proof. intros Hn. destruct (encrypt_final_works key iv d n Hn) as [r Hr]. rewrite Hr. by apply encrypt_final in Hr as ->. Qed.
Lemma decrypt_final_all key iv d n : 0 ≤ n → EVP_DecryptFinal_ex key iv d n = Some [].
Proof. intros Hn. destruct (decrypt_final_works key iv d n Hn) as [r Hr]. rewrite Hr. by apply decrypt_final in Hr as ->. Qed.

(** What [raft_encrypt] makes: the initial value, then the text combined with
    the key stream. *)
Lemma raft_encrypt_spec n d :
  int_sized d →
  ∃ iv, length iv = S_BLOCK_SIZE ∧
    raft_encrypt n d = Ok (iv ++ xor_bytes d (keystream get_key iv (length d))).
Proof.
  unfold int_sized. intros Hd. unfold raft_encrypt, rand_fill, aes_ctr_encrypt, new_ctx.
  destruct (rand_works n S_BLOCK_SIZE) as [iv Hr]. pose proof (rand_length _ _ _ Hr) as Hiv.
  exists iv. split; [done|]. rewrite Hr, ctx_new_works.
  cbn [check mbind outcome_bind]. rewrite encrypt_init_works by (done || apply length_get_key).
  rewrite (u32_small (Z.of_nat (length d))) by lia. rewrite i32_small by (unfold is_i32; lia).
  rewrite encrypt_update_all, encrypt_final_all by lia. cbn [check mbind outcome_bind]. unfold gather.
  rewrite length_xor_bytes by apply keystream_length. cbn [length].
  rewrite u32_small by (unfold S_BLOCK_SIZE; lia).
  destruct (Z.ltb_spec (Z.of_nat (length d) + Z.of_nat S_BLOCK_SIZE) (Z.of_nat (length d + 0))); [lia|].
  cbn. by rewrite app_nil_r.
Qed.

Lemma raft_decrypt_spec iv c :
  length iv = S_BLOCK_SIZE → c ≠ [] → int_sized c →
  raft_decrypt (iv ++ c) = Ok (xor_bytes c (keystream get_key iv (length c))).
Proof.
  unfold int_sized. intros Hiv Hc Hl. unfold raft_decrypt, aes_ctr_decrypt, new_ctx. rewrite length_app.
  destruct (Nat.ltb_spec (length iv + length c) S_BLOCK_SIZE); [lia|].
  rewrite take_app_length', drop_app_length' by done. rewrite Hiv.
  replace (u32 (u32 (Z.of_nat (S_BLOCK_SIZE + length c)) - Z.of_nat S_BLOCK_SIZE)) with (Z.of_nat (length c))
    by (unfold S_BLOCK_SIZE; rewrite !u32_small; unfold u32; rewrite ?Z.mod_small; lia).
  rewrite ctx_new_works, decrypt_init_works by (done || apply length_get_key). cbn [check mbind outcome_bind].
  destruct (Z.eqb_spec (Z.of_nat (length c)) 0); [by destruct c|]. rewrite i32_small by (unfold is_i32; lia).
  rewrite decrypt_update_all, decrypt_final_all by lia. cbn [check mbind outcome_bind]. unfold gather.
  rewrite length_xor_bytes by apply keystream_length. cbn [length].
  destruct (Z.ltb_spec (Z.of_nat (length c)) (Z.of_nat (length c + 0))); [lia|]. cbn. by rewrite app_nil_r.
Qed.

(** Decrypting what was encrypted and then combined with [mask] on the way. *)
Lemma raft_decrypt_masked n d mask :
  d ≠ [] → int_sized d → length mask = length d →
  ∃ c, raft_encrypt n d = Ok c ∧ length c = (S_BLOCK_SIZE + length d)%nat ∧
    raft_decrypt (take S_BLOCK_SIZE c ++ xor_bytes (drop S_BLOCK_SIZE c) mask) =
      Ok (xor_bytes d mask) ∧
    raft_decrypt c = Ok d.
Proof.
  intros Hd Hsz Hm. destruct (raft_encrypt_spec n d Hsz) as (iv & Hiv & ->). eexists. split; [done|].
  set (ks := keystream get_key iv (length d)).
  assert (length ks = length d) as Hks by apply keystream_length.
  assert (∀ x, length x = length d → x ≠ [] ∧ int_sized x) as Hne.
  { intros x Hx. split; [by destruct x, d|]. unfold int_sized. by rewrite Hx. }
  pose proof (length_xor_bytes d ks Hks) as Hl1. pose proof (length_xor_bytes d mask Hm) as Hl2.
  rewrite length_app, Hl1, Hiv. split; [done|]. rewrite take_app_length', drop_app_length' by done.
  assert (length (xor_bytes (xor_bytes d ks) mask) = length d) as Hl3
    by (rewrite length_xor_bytes; congruence).
  split.
  - rewrite raft_decrypt_spec, Hl3 by (by try apply Hne). fold ks.
    rewrite (xor_swap_bytes d ks mask), xor_xor_bytes by congruence. done.
  - rewrite raft_decrypt_spec, Hl1 by (by try apply Hne). fold ks. by rewrite xor_xor_bytes.
Qed.

(** The same for a message that is known to be what [raft_encrypt] made. *)
Lemma raft_decrypt_encrypt n d c :
  d ≠ [] → int_sized d → raft_encrypt n d = Ok c → raft_decrypt c = Ok d.
Proof.
  intros Hd Hsz Hc. destruct (raft_decrypt_masked n d d Hd Hsz eq_refl) as (c' & Hc' & _ & _ & Hdec).
  congruence.
Qed.

Lemma raft_encrypt_ok n d :
  int_sized d → ∃ c, raft_encrypt n d = Ok c ∧ length c = (S_BLOCK_SIZE + length d)%nat.
Proof.
  intros Hsz. destruct (raft_encrypt_spec n d Hsz) as (iv & Hiv & ->). eexists. split; [done|].
  by rewrite length_app, length_xor_bytes, Hiv by apply keystream_length.
Qed.

(** The envelope.  Whatever random initial value is drawn, decrypting
    what [raft_encrypt] produced gives the message back. *)
Theorem envelope_roundtrip (n : nat) (d : list byte) :
  d ≠ [] → int_sized d → ∃ c, raft_encrypt n d = Ok c ∧ raft_decrypt c = Ok d.
Proof.
  intros Hd Hsz. destruct (raft_decrypt_masked n d d Hd Hsz eq_refl) as (c & Hc & _ & _ & Hdec).
  by exists c.
Qed.

(** C36: the envelope hides a message and does not protect it.  Without the
    key, changing the cipher text of a message of less than 2^31 bytes by any
    mask changes the decrypted message by the same mask, and [raft_decrypt]
    accepts it, as long as the calls of OpenSSL succeed. *)
Theorem envelope_malleable (n : nat) (d mask : list byte) :
  d ≠ [] → int_sized d → length mask = length d →
  ∃ c, raft_encrypt n d = Ok c ∧
    raft_decrypt (take S_BLOCK_SIZE c ++ xor_bytes (drop S_BLOCK_SIZE c) mask) =
      Ok (xor_bytes d mask).
Proof.
  intros Hd Hsz Hm. destruct (raft_decrypt_masked n d mask Hd Hsz Hm) as (c & Hc & _ & Hdec & _).
  by exists c.
Qed.

(** Copying a whole source into a destination of its size. *)
Lemma memcpy_s_full dst src n :
  length dst = n → (n ≤ length src)%nat → memcpy_s dst src n = Ok (take n src).
Proof.
  intros <- Hs. unfold memcpy_s. rewrite (proj2 (Nat.ltb_ge _ _)) by lia.
  rewrite (proj2 (Nat.ltb_ge _ _)) by lia. by rewrite drop_all, app_nil_r.
Qed.

Lemma read_type_tagged t m :
  0 ≤ er_type_to_Z t < 2 ^ 16 → read_type (tagged t m) = Ok (er_type_of_Z (er_type_to_Z t)).
Proof.
  intros Ht. unfold tagged, u16_bytes, read_type.
  destruct (le_split 2 (er_type_to_Z t)) as [|a [|b l]] eqn:E;
    [by apply (f_equal length) in E; rewrite length_le_split in E..|].
  assert (l = []) as ->.
  { apply (f_equal length) in E. rewrite length_le_split in E. by destruct l. }
  cbn [app]. rewrite <-E, le_combine_split, Z.mod_small by done. done.
Qed.
End laws.

(** An instance of the interface: a constant key stream. *)
Definition toy_stream (n : nat) : list byte := replicate n Byte.x5a.

Definition toy_update (d : list byte) (n : Z) : option (list byte) :=
  if n <? 0 then None else Some (xor_bytes (take (Z.to_nat n) d) (toy_stream (Z.to_nat n))).

Definition toy_evp : evp := {|
  EVP_CIPHER_CTX_new := true;
  EVP_EncryptInit_ex _ _ := Some ();
  EVP_EncryptUpdate _ _ := toy_update;
  EVP_EncryptFinal_ex _ _ _ _ := Some [];
  EVP_DecryptInit_ex _ _ := Some ();
  EVP_DecryptUpdate _ _ := toy_update;
  EVP_DecryptFinal_ex _ _ _ _ := Some [];
  RAND_bytes n size := Some (replicate size (byte.of_Z (Z.of_nat n)));
|}.

Lemma toy_update_Some d n r :
  0 ≤ n → toy_update d n = Some r → r = xor_bytes (take (Z.to_nat n) d) (toy_stream (Z.to_nat n)).
Proof. intros Hn. unfold toy_update. rewrite (proj2 (Z.ltb_ge _ _)) by done. by intros [= <-]. Qed.

Lemma toy_evp_laws : @evp_laws toy_evp.
Proof.
  refine {| keystream _ _ n := toy_stream n |}; cbn.
  - intros _ _ n. apply length_replicate.
  - intros _ _ d n r [Hn _]. by apply toy_update_Some.
  - by intros _ _ d n r [= <-].
  - intros _ _ d n r [Hn _]. by apply toy_update_Some.
  - by intros _ _ d n r [= <-].
  - intros n size r [= <-]. apply length_replicate.
Defined.

Lemma toy_evp_works : @evp_works toy_evp.
Proof.
  split; cbn; try done; intros _ _ d n Hn; unfold toy_update; by rewrite (proj2 (Z.ltb_ge _ _)).
Defined.

#[local] Existing Instances toy_evp toy_evp_laws toy_evp_works.

Lemma envelope_roundtrip_witness :
  ∃ c, raft_encrypt 7 [Byte.x01; Byte.x02] = Ok c ∧ raft_decrypt c = Ok [Byte.x01; Byte.x02].
Proof. apply envelope_roundtrip; [discriminate|vm_compute; reflexivity]. Defined.

Lemma envelope_malleable_witness :
  ∃ c, raft_encrypt 7 [Byte.x01] = Ok c ∧
    raft_decrypt (take S_BLOCK_SIZE c ++ xor_bytes (drop S_BLOCK_SIZE c) [Byte.x01]) = Ok [Byte.x00].
Proof. apply (envelope_malleable 7 [Byte.x01] [Byte.x01]); [discriminate|vm_compute; reflexivity|reflexivity]. Defined.
