(* ===== verification/Session.v ===== *)
(** * Sessions of the host

    One connection of the host's listener
    (src/raft_app/port/asio_rpc_session.hxx): requests and answers travel as
    frames, a 32-bit length and that many bytes, and asio delivers them in
    pieces of any size.  asio is the environment: an event is the completion
    of a read or of a write.  The handler of a request ([message_handler], see
    [Enclave]) is a parameter with a state of its own. *)

From S2P Require Import Prelude Buffer Transport.

(** ** State *)

(** What the session waits for. *)
Inductive phase := ReadHeader | ReadPayload | Writing | Closed.

Record session (H : Type) := mk_session {
  payload_size_ : Z;
  request_ : list byte;
  response_ : list byte;
  waiting : phase;
  (* the handler's state, and what went out on the socket *)
  env : H;
  written : list byte;
}.
Arguments mk_session {H}. Arguments payload_size_ {H}. Arguments request_ {H}.
Arguments response_ {H}. Arguments waiting {H}. Arguments env {H}. Arguments written {H}.
#[global] Instance eta_session H : Eta (session H) := λ s, mk_session
  (payload_size_ s) (request_ s) (response_ s) (waiting s) (env s) (written s).

Definition request_header_size : nat := 4.

Section code.
Context {H : Type} (handler_ : list byte → M H (option (list byte))).
#[local] Abbreviation S := (session H).

(** ** Operations *)

(** The constructor, and [start]. *)
Definition new_session (h : H) : S := mk_session 0 [] [] ReadHeader h [].

Definition read_header : M S unit := waiting <~ ReadHeader.
Definition read_payload : M S unit := waiting <~ ReadPayload.

(** The socket is closed; the listener is told. *)
Definition stop : M S unit := waiting <~ Closed.

Definition write_response (resp_buf : list byte) : M S unit :=
  let size := u32 (Z.of_nat (length resp_buf)) in
  payload_size_ <~ size ;;
  modify (update response_ (λ r, r ++ u32_bytes size ++ take (Z.to_nat size) resp_buf)) ;;
  waiting <~ Writing.

Definition handle_request : M S unit :=
  s ← gets id;
  let n := Z.to_nat (payload_size_ s) in
  catch_all (
    request_ <~ drop n (request_ s) ;;
    resp_buf ← on env (handler_ (take n (request_ s)));
    match resp_buf with
    | Some r => write_response r
    | None => stop
    end) stop.

Definition handle_request_header : M S unit :=
  s ← gets id;
  let size := le_combine (take request_header_size (request_ s)) in
  payload_size_ <~ size ;;
  request_ <~ drop request_header_size (request_ s) ;;
  s ← gets id;
  if Z.of_nat (length (request_ s)) <? size then read_payload else handle_request.

(** ** Completions *)

(** Bytes have arrived; while asio has fewer than it was asked for it goes on
    reading. *)
Definition bytes_read (d : list byte) : M S unit :=
  modify (update request_ (λ r, r ++ d)) ;;
  s ← gets id;
  match waiting s with
  | ReadHeader => if (length (request_ s) <? request_header_size)%nat then mret tt else handle_request_header
  | ReadPayload => if Z.of_nat (length (request_ s)) <? payload_size_ s then read_payload else handle_request
  | _ => mret tt
  end.

Definition response_written : M S unit :=
  modify (λ s, s <| written := written s ++ response_ s |>) ;;
  payload_size_ <~ 0 ;;
  response_ <~ [] ;;
  s ← gets id;
  if (length (request_ s) <? request_header_size)%nat then read_header else handle_request_header.

Definition handle_error : M S unit := stop.

(** The events of a connection; a read is under way only while the session
    waits for one, a write only while it writes. *)
Inductive io_event := IoRead (d : list byte) | IoWritten | IoError.

Definition session_step (ev : io_event) : M S unit :=
  s ← gets id;
  match ev, waiting s with
  | IoRead d, (ReadHeader | ReadPayload) => bytes_read d
  | IoWritten, Writing => response_written
  | IoError, (ReadHeader | ReadPayload | Writing) => handle_error
  | _, _ => mret tt
  end.

Definition run_session (evs : list io_event) : M S unit := for_each evs session_step.

(** What of the input the session has taken off the socket. *)
Fixpoint input (s : S) (evs : list io_event) : list byte :=
  match evs with
  | [] => []
  | ev :: evs' =>
      (match ev, waiting s with IoRead d, (ReadHeader | ReadPayload) => d | _, _ => [] end) ++
      input (session_step ev s).2 evs'
  end.

(** ** The specification: whole requests, one after the other *)

Definition frame (m : list byte) : list byte := u32_bytes (Z.of_nat (length m)) ++ m.
Definition frames (ms : list (list byte)) : list byte := concat (frame <$> ms).
Definition small (m : list byte) : Prop := Z.of_nat (length m) < 2 ^ 32.

(** Serve requests as long as each is answered; the answers, framed. *)
Fixpoint serve (ms : list (list byte)) (h : H) : option (list (list byte) * H) :=
  match ms with
  | [] => Some ([], h)
  | m :: ms' =>
      match handler_ m h with
      | (Ok (Some r), h') => '(rs, h'') ← serve ms' h'; Some (r :: rs, h'')
      | _ => None
      end
  end.

(** ** Frames *)

Lemma length_frame m : length (frame m) = (4 + length m)%nat.
Proof. unfold frame, u32_bytes. by rewrite length_app, length_le_split. Qed.

Lemma frame_size m : small m → le_combine (u32_bytes (Z.of_nat (length m))) = Z.of_nat (length m).
Proof. intros Hm. unfold u32_bytes. rewrite le_combine_split. apply Z.mod_small. split; [lia|done]. Qed.

Lemma frames_cons m ms : frames (m :: ms) = frame m ++ frames ms.
Proof. done. Qed.

Lemma frames_app ms1 ms2 : frames (ms1 ++ ms2) = frames ms1 ++ frames ms2.
Proof. unfold frames. by rewrite fmap_app, concat_app. Qed.

(** A frame is determined by what begins with it. *)
Lemma frame_inj m1 m2 x y :
  small m1 → small m2 → frame m1 ++ x = frame m2 ++ y → m1 = m2 ∧ x = y.
Proof.
  intros H1 H2. unfold frame. rewrite <-!app_assoc. intros E.
  apply app_inj_1 in E as [Eh E]; [|by unfold u32_bytes; rewrite !length_le_split].
  apply (f_equal le_combine) in Eh. rewrite !frame_size in Eh by done.
  apply app_inj_1 in E; [done|lia].
Qed.

(** Two readings of the same bytes: one is the beginning of the other. *)
Lemma frames_prefix done ms rest :
  Forall small done → Forall small ms → frames done ++ rest = frames ms →
  ∃ ms', ms = done ++ ms' ∧ rest = frames ms'.
Proof.
  intros Hd. revert ms. induction Hd as [|m done Hm Hd IH]; intros ms Hms E; [by exists ms|].
  destruct Hms as [|m' ms Hm' Hms].
  - apply (f_equal length) in E. rewrite frames_cons, !length_app, length_frame in E. cbn in E. lia.
  - rewrite !frames_cons, <-app_assoc in E. apply frame_inj in E as [-> E]; [|done..].
    destruct (IH ms Hms E) as (ms' & -> & ->). by exists ms'.
Qed.

(** ** The invariant *)

Context (answers_small : ∀ m h r h', handler_ m h = (Ok (Some r), h') → small r).

(** The bytes taken off the socket that belong to no request served yet. *)
Definition pending (s : S) : list byte :=
  match waiting s with
  | ReadPayload => u32_bytes (payload_size_ s) ++ request_ s
  | _ => request_ s
  end.

(** Bytes that are short of a request. *)
Definition incomplete (s : S) : Prop :=
  match waiting s with
  | ReadHeader => (length (request_ s) < 4)%nat ∧ response_ s = []
  | ReadPayload => Z.of_nat (length (request_ s)) < payload_size_ s < 2 ^ 32 ∧ response_ s = []
  | _ => True
  end.

Record served (h : H) (inp : list byte) (done rs : list (list byte)) (s : S) : Prop := {
  served_small : Forall small done;
  served_env : serve done h = Some (rs, env s);
  served_out : written s ++ response_ s = frames rs;
}.

Definition session_inv (h : H) (inp : list byte) (s : S) : Prop :=
  waiting s = Closed ∨
  ∃ done rs, served h inp done rs s ∧ inp = frames done ++ pending s ∧ incomplete s.

Lemma serve_snoc ms m h rs h1 r h2 :
  serve ms h = Some (rs, h1) → handler_ m h1 = (Ok (Some r), h2) →
  serve (ms ++ [m]) h = Some (rs ++ [r], h2).
Proof.
  revert h rs. induction ms as [|m' ms IH]; intros h rs; cbn.
  - intros [= <- <-] ->. done.
  - destruct (handler_ m' h) as [[[r'|]| |] h']; try done.
    destruct (serve ms h') as [[rs' h'']|] eqn:E; [|done]. cbn. intros [= <- <-] Hm.
    by rewrite (IH h' rs' E Hm).
Qed.

(** A whole request is there. *)
Lemma handle_request_inv h inp done rs s s' :
  served h inp done rs s → response_ s = [] → 0 ≤ payload_size_ s < 2 ^ 32 →
  inp = frames done ++ u32_bytes (payload_size_ s) ++ request_ s →
  payload_size_ s ≤ Z.of_nat (length (request_ s)) →
  handle_request s = (Ok tt, s') → session_inv h inp s'.
Proof.
  intros [Hsm He Ho] Hr Hsz Hi Hl. unfold handle_request. run. unfold catch_all. rewrite bind_modify.
  set (n := Z.to_nat (payload_size_ s)). set (m := take n (request_ s)).
  assert (length m = n) as Hm by (unfold m; rewrite length_take; lia).
  set (s1 := s <| request_ := drop n (request_ s) |>).
  assert (∀ o h2, handler_ m (env s) = (o, h2) → on env (handler_ m) s1 = (o, s1 <| env := h2 |>)) as Hon.
  { intros o h2 Eh. unfold on. change (env s1) with (env s). by rewrite Eh. }
  destruct (handler_ m (env s)) as [[[r|]|e|u] h2] eqn:Eh; specialize (Hon _ _ eq_refl).
  - rewrite (bind_step _ _ _ _ _ Hon).
    pose proof (answers_small _ _ _ _ Eh) as Hs. unfold write_response. rewrite !bind_modify.
    intros [= <-]. right. exists (done ++ [m]), (rs ++ [r]).
    assert (small m) as Hsmall by (unfold small; lia).
    split; [split|split; [|done]].
    + apply Forall_app. by repeat constructor.
    + by eapply serve_snoc.
    + unfold update; cbn. rewrite Hr in *. rewrite app_nil_r in Ho. rewrite Ho, frames_app. f_equal.
      unfold frames. cbn. rewrite app_nil_r. unfold frame.
      rewrite u32_small by (unfold small in Hs; lia). by rewrite Nat2Z.id, firstn_all.
    + rewrite frames_app, <-app_assoc, Hi. f_equal. unfold frames, pending, update. cbn.
      unfold frame. rewrite app_nil_r, Hm, <-app_assoc. unfold n at 1. rewrite Z2Nat.id by lia. f_equal.
      unfold m. by rewrite take_drop.
  - rewrite (bind_step _ _ _ _ _ Hon). intros [= <-]. by left.
  - rewrite (bind_throw _ _ _ _ _ Hon). intros [= <-]. by left.
  - by rewrite (bind_fault _ _ _ _ _ Hon).
Qed.

(** A whole header is there. *)
Lemma handle_header_inv h inp done rs s s' :
  served h inp done rs s → response_ s = [] → inp = frames done ++ request_ s →
  (4 ≤ length (request_ s))%nat → handle_request_header s = (Ok tt, s') → session_inv h inp s'.
Proof.
  intros Hd Hr Hi Hl. unfold handle_request_header. rewrite bind_get, !bind_modify, bind_get.
  set (size := le_combine (take request_header_size (request_ s))).
  set (s1 := s <| payload_size_ := size |> <| request_ := drop request_header_size (request_ s) |>).
  assert (length (take 4 (request_ s)) = 4%nat) as H4 by (rewrite length_take; lia).
  assert (0 ≤ size < 2 ^ 32) as Hsz.
  { pose proof (le_combine_bound (take request_header_size (request_ s))) as Hb.
    unfold request_header_size in *. rewrite H4 in Hb. exact Hb. }
  assert (served h inp done rs s1) as Hd1 by (destruct Hd; by split).
  assert (request_ s = u32_bytes size ++ request_ s1) as Hq.
  { unfold u32_bytes, size, s1, request_header_size, update; cbn [request_].
    rewrite <-(take_drop 4 (request_ s)) at 1. f_equal.
    rewrite <-(split_le_combine (take 4 (request_ s))) at 1. by rewrite H4. }
  rewrite Hq in Hi. destruct (Z.ltb_spec (Z.of_nat (length (request_ s1))) size).
  - unfold read_payload, read_header, modify. intros [= <-]. right. exists done, rs. split; [destruct Hd1; by split|]. split; [done|].
    split; [|done]. change (Z.of_nat (length (request_ s1)) < size < 2 ^ 32). lia.
  - intros Hh. by apply (handle_request_inv h inp done rs s1 s').
Qed.

Lemma served_input h inp inp' done rs s : served h inp done rs s → served h inp' done rs s.
Proof. intros []. by split. Qed.

Lemma bytes_read_inv h inp s s' d :
  waiting s = ReadHeader ∨ waiting s = ReadPayload → session_inv h inp s →
  bytes_read d s = (Ok tt, s') → session_inv h (inp ++ d) s'.
Proof.
  intros Hw [Hc|(done & rs & Hd & Hi & Hn)]; [by destruct Hw; congruence|].
  unfold bytes_read. rewrite bind_modify, bind_get. set (s1 := s <| request_ ::= λ r, r ++ d |>).
  assert (served h (inp ++ d) done rs s1) as Hd1 by (destruct Hd; by split).
  change (waiting s1) with (waiting s). change (payload_size_ s1) with (payload_size_ s).
  unfold pending, incomplete in *. destruct Hw as [Hw|Hw]; rewrite Hw in *; destruct Hn as [Hn Hr].
  - destruct (Nat.ltb_spec (length (request_ s1)) request_header_size).
    + unfold read_payload, modify. intros [= <-]. right. exists done, rs. split; [done|]. unfold pending, incomplete.
      change (waiting s1) with (waiting s). rewrite Hw, Hi, <-app_assoc. done.
    + apply (handle_header_inv h (inp ++ d) done rs); [done|done|by rewrite Hi, <-app_assoc|done].
  - destruct (Z.ltb_spec (Z.of_nat (length (request_ s1))) (payload_size_ s)).
    + unfold read_payload, modify. intros [= <-]. right. exists done, rs. split; [destruct Hd1; by split|].
      unfold pending, incomplete. cbn. rewrite Hi, <-!app_assoc. split; [done|]. split; [|done]. split; [done|lia].
    + apply (handle_request_inv h (inp ++ d) done rs); try done.
      * change (payload_size_ s1) with (payload_size_ s). lia.
      * rewrite Hi, <-!app_assoc. done.
Qed.

Lemma response_written_inv h inp s s' :
  waiting s = Writing → session_inv h inp s → response_written s = (Ok tt, s') → session_inv h inp s'.
Proof.
  intros Hw [Hc|(done & rs & Hd & Hi & _)]; [congruence|].
  unfold response_written. rewrite !bind_modify, bind_get.
  match goal with |- (if _ then _ else _) ?x = _ → _ => set (s1 := x) end.
  assert (served h inp done rs s1) as Hd1.
  { destruct Hd as [H1 H2 H3]. split; [done..|]. cbn. by rewrite app_nil_r. }
  unfold pending in Hi. rewrite Hw in Hi.
  destruct (Nat.ltb_spec (length (request_ s1)) request_header_size).
  - unfold read_payload, read_header, modify. intros [= <-]. right. exists done, rs. split; [destruct Hd1; by split|]. done.
  - by apply (handle_header_inv h inp done rs).
Qed.

Lemma session_step_inv h inp s ev s' :
  session_inv h inp s → session_step ev s = (Ok tt, s') →
  session_inv h (inp ++ match ev, waiting s with
                        | IoRead d, (ReadHeader | ReadPayload) => d | _, _ => [] end) s'.
Proof.
  intros Hs. unfold session_step. rewrite bind_get.
  destruct ev as [d| |], (waiting s) eqn:Hw; rewrite ?app_nil_r; try (by intros [= <-]);
    try (by intros [= <-]; left).
  - apply bytes_read_inv; auto.
  - apply bytes_read_inv; auto.
  - by apply response_written_inv.
Qed.

Lemma run_session_inv h inp s evs s' :
  session_inv h inp s → run_session evs s = (Ok tt, s') → session_inv h (inp ++ input s evs) s'.
Proof.
  revert inp s. induction evs as [|ev evs IH]; intros inp s Hs; cbn [run_session for_each input].
  - intros [= <-]. by rewrite app_nil_r.
  - intros Hrun. apply bind_inv_ok in Hrun as ([] & s1 & H1 & H2).
    rewrite H1, app_assoc. by apply IH; [apply (session_step_inv h inp s ev s1 Hs H1)|].
Qed.

(** C20: requests are framed.  However the network cuts the input into
    pieces, and however reads and writes interleave: when the session waits
    for more input after whole requests, the handler has run on exactly these
    requests, each once and in order, and the client has been sent exactly the
    answers, in frames. *)
Theorem session_serves_requests (h : H) (evs : list io_event) (s : S) (ms : list (list byte)) :
  run_session evs (new_session h) = (Ok tt, s) →
  input (new_session h) evs = frames ms → Forall small ms →
  waiting s = ReadHeader ∨ waiting s = ReadPayload →
  ∃ rs, serve ms h = Some (rs, env s) ∧ written s = frames rs.
Proof.
  intros Hrun Hin Hms Hw.
  assert (session_inv h [] (new_session h)) as H0.
  { right. exists [], []. split; [by split|]. split; [done|]. cbn. split; [lia|done]. }
  apply (run_session_inv h [] _ evs s H0) in Hrun as [Hc|(done & rs & [Hd He Ho] & Hi & Hn)];
    [by destruct Hw; congruence|]. cbn in Hi. rewrite Hin in Hi. symmetry in Hi.
  apply frames_prefix in Hi as (ms' & -> & Hp); [|done..].
  enough (ms' = []) as ->.
  { rewrite app_nil_r. exists rs. split; [done|]. unfold incomplete in Hn.
    rewrite <-Ho. destruct Hw as [Hw|Hw]; rewrite Hw in Hn; destruct Hn as [_ ->]; by rewrite app_nil_r. }
  destruct ms' as [|m ms']; [done|]. exfalso. rewrite frames_cons in Hp.
  apply Forall_app in Hms as [_ [Hm _]%Forall_cons]. unfold pending, incomplete in *.
  destruct Hw as [Hw|Hw]; rewrite Hw in *; destruct Hn as [Hn _].
  - rewrite Hp, length_app, length_frame in Hn. lia.
  - unfold frame in Hp. rewrite <-app_assoc in Hp.
    apply app_inj_1 in Hp as [Eh E]; [|by unfold u32_bytes; rewrite !length_le_split].
    apply (f_equal le_combine) in Eh. rewrite frame_size in Eh by done.
    unfold u32_bytes in Eh. rewrite le_combine_split, Z.mod_small in Eh by lia.
    rewrite E, length_app in Hn. lia.
Qed.
End code.

(** ** Example: a handler that remembers the requests *)

Definition sample_handler (m : list byte) : M (list (list byte)) (option (list byte)) :=
  modify (λ l, l ++ [m]) ;; mret (Some [Byte.x2a]).

Definition sample_requests : list (list byte) := [[Byte.x01]; [Byte.x02; Byte.x03]].

(** The two frames arrive in three pieces. *)
Definition sample_io : list io_event :=
  [IoRead (take 2 (frames sample_requests)); IoRead (take 7 (drop 2 (frames sample_requests)));
   IoWritten; IoRead (drop 9 (frames sample_requests)); IoWritten].

Lemma session_serves_requests_witness :
  ∃ rs, serve sample_handler sample_requests [] =
      Some (rs, env (run_session sample_handler sample_io (new_session [])).2) ∧
    written (run_session sample_handler sample_io (new_session [])).2 = frames rs.
Proof.
  apply (session_serves_requests sample_handler) with (evs := sample_io).
  - intros m h r h' Hm. injection Hm as <- _. reflexivity.
  - vm_compute. reflexivity.
  - vm_compute. reflexivity.
  - repeat constructor.
  - left. vm_compute. reflexivity.
Defined.
