(* ===== verification/Json.v ===== *)
(** * JSON and base64

    The values json11 and cppcodec exchange with the code that uses them
    (rpc_listener_port.cxx, rpc_client_port.hxx, key_store.hxx,
    RequestBuilder.hxx).  The two libraries are parameters: the class [codecs]
    holds their functions, [codecs_laws] that reading gives back what was
    written, for the values json11 can write and read. *)

From S2P Require Import Prelude Buffer.
From Stdlib Require Import String.
From stdpp Require Import countable.

(** The bytes of a string literal. *)
Definition str (s : string) : list byte := list_byte_of_string s.

(** A value; a number is known by the [int] it converts to, an object is kept
    in the order of its keys. *)
Inductive json :=
  | JNull
  | JNumber (z : Z)
  | JBool (b : bool)
  | JString (s : list byte)
  | JArray (l : list json)
  | JObject (m : list (list byte * json)).

(** [body[key]], [int_value()], [string_value()], [array_items()]: a value of
    another kind reads as the default. *)
Fixpoint lookup_key (k : list byte) (m : list (list byte * json)) : json :=
  match m with
  | [] => JNull
  | (k', v) :: m' => if bool_decide (k = k') then v else lookup_key k m'
  end.
Definition at_key (k : list byte) (j : json) : json :=
  match j with JObject m => lookup_key k m | _ => JNull end.
Definition int_value (j : json) : Z := match j with JNumber z => z | _ => 0 end.
Definition string_value (j : json) : list byte := match j with JString s => s | _ => [] end.
Definition array_items (j : json) : list json := match j with JArray l => l | _ => [] end.

(** [Json::parse] with an error gives the null value; [base64::decode] throws. *)
Class codecs := {
  json_parse : list byte → option json;
  json_dump : json → list byte;
  base64_encode : list byte → list byte;
  base64_decode : list byte → outcome (list byte);
}.

Definition parsed `{codecs} (payload : list byte) : json := default JNull (json_parse payload).

(** The order of [std::string], and the keys of a [std::map] in it. *)
Fixpoint bytes_lt (a b : list byte) : bool :=
  match a, b with
  | [], [] => false
  | [], _ :: _ => true
  | _ :: _, [] => false
  | x :: a', y :: b' =>
      (byte.unsigned x <? byte.unsigned y)%Z || (bool_decide (x = y) && bytes_lt a' b')
  end.
Fixpoint increasing (ks : list (list byte)) : bool :=
  match ks with
  | [] => true
  | k :: ks' => match ks' with [] => true | k' :: _ => bytes_lt k k' end && increasing ks'
  end.

(** The values that survive json11: integers of type [int], objects in the
    order of their keys without a key twice, at most [depth] levels. *)
Fixpoint json_ok (depth : nat) (j : json) : bool :=
  match j with
  | JNull | JBool _ | JString _ => true
  | JNumber z => (- 2 ^ 31 <=? z)%Z && (z <? 2 ^ 31)%Z
  | JArray l => match depth with O => false | S d => forallb (json_ok d) l end
  | JObject m => match depth with
                 | O => false
                 | S d => increasing m.*1 && forallb (λ '(_, v), json_ok d v) m
                 end
  end.

(** [max_depth] of json11. *)
Definition max_depth : nat := 200.

Class codecs_laws `{codecs} := {
  parse_dump j : json_ok max_depth j = true → json_parse (json_dump j) = Some j;
  base64_decode_encode d : base64_decode (base64_encode d) = Ok d;
}.

(** ** An instance of the interface *)

Fixpoint json_tree (j : json) : gen_tree (list byte + Z) :=
  match j with
  | JNull => GenNode 0 []
  | JNumber z => GenLeaf (inr z)
  | JBool b => GenNode (if b then 2 else 1) []
  | JString s => GenLeaf (inl s)
  | JArray l => GenNode 3 (json_tree <$> l)
  | JObject m => GenNode 4 ((λ '(k, v), GenNode 5 [GenLeaf (inl k); json_tree v]) <$> m)
  end.

Fixpoint tree_json (t : gen_tree (list byte + Z)) : json :=
  match t with
  | GenLeaf (inl s) => JString s
  | GenLeaf (inr z) => JNumber z
  | GenNode 1 _ => JBool false
  | GenNode 2 _ => JBool true
  | GenNode 3 l => JArray (tree_json <$> l)
  | GenNode 4 l => JObject ((λ t, match t with
      | GenNode _ [GenLeaf (inl k); v] => (k, tree_json v)
      | _ => ([], JNull)
      end) <$> l)
  | GenNode _ _ => JNull
  end.

Fixpoint json_size (j : json) : nat :=
  match j with
  | JArray l => S (sum_list_with json_size l)
  | JObject m => S (sum_list_with (λ '(_, v), json_size v) m)
  | _ => 1
  end.

Lemma tree_json_tree j : tree_json (json_tree j) = j.
Proof.
  induction j as [j IH] using (induction_ltof1 _ json_size). unfold ltof in IH.
  destruct j as [|z|[]|s|l|m]; try done; cbn; f_equal.
  - rewrite <-list_fmap_compose. transitivity (id <$> l); [|apply list_fmap_id].
    apply list_fmap_ext. intros i x Hx. apply IH. cbn.
    enough (json_size x ≤ sum_list_with json_size l)%nat by lia.
    apply sum_list_with_in. by eapply list_elem_of_lookup_2.
  - rewrite <-list_fmap_compose. transitivity (id <$> m); [|apply list_fmap_id].
    apply list_fmap_ext. intros i [k v] Hx. cbn. f_equal. apply IH. cbn.
    enough (json_size v ≤ sum_list_with (λ '(_, v), json_size v) m)%nat by lia.
    apply (sum_list_with_in (k, v) (λ '(_, v), json_size v)). by eapply list_elem_of_lookup_2.
Qed.

(** A number as a text, one character for each bit. *)
Fixpoint bits (p : positive) : list byte :=
  match p with
  | xH => []
  | xO p => Byte.x30 :: bits p
  | xI p => Byte.x31 :: bits p
  end.
Fixpoint of_bits (l : list byte) : positive :=
  match l with
  | [] => xH
  | x :: l => if bool_decide (x = Byte.x30) then xO (of_bits l) else xI (of_bits l)
  end.

Lemma of_bits_bits p : of_bits (bits p) = p.
Proof. induction p as [p IH|p IH|]; cbn; by rewrite ?IH. Qed.

#[global] Instance byte_countable : Countable byte.
Proof.
  apply (inj_countable' (λ b, Z.to_nat (byte.unsigned b)) (λ n, byte.of_Z (Z.of_nat n))).
  intros b. rewrite Z2Nat.id by apply byte.unsigned_range. apply byte.of_Z_unsigned.
Defined.

Definition toy_codecs : codecs := {|
  json_parse d := tree_json <$> decode (of_bits d);
  json_dump j := bits (encode (json_tree j));
  base64_encode d := d;
  base64_decode d := Ok d;
|}.

Lemma toy_codecs_laws : @codecs_laws toy_codecs.
Proof.
  split; [|done]. intros j _. cbn. rewrite of_bits_bits, decode_encode. cbn.
  by rewrite tree_json_tree.
Qed.
