(* ===== verification/Attestation.v ===== *)
(** * Attestation reports

    How the enclave reads a report of the Intel attestation service:
    src/common/url_decode.cxx, src/raft_enclave/system/cert_utils.cxx and
    [validate_verification_report] of src/raft_enclave/system/key_store.cxx.
    OpenSSL's certificates are a parameter (class [openssl]), as are JSON and
    base64 (class [codecs]).

    A C string is the list of its bytes before the terminator, and a pointer
    into it the rest of the string from there. *)

From S2P Require Import Prelude Buffer Json.
From Stdlib Require String.
Import String.StringSyntax.

(** ** The C library *)

Definition chr (b : byte) : Z := byte.unsigned b.

(** [c_str()] of a string that may hold zero bytes. *)
Fixpoint c_str (s : list byte) : list byte :=
  match s with
  | [] => []
  | c :: s' => if chr c =? 0 then [] else c :: c_str s'
  end.

(** [strchr]-like search: the offset of the first occurrence. *)
Fixpoint find (pat s : list byte) : option nat :=
  if bool_decide (pat `prefix_of` s) then Some O
  else match s with [] => None | _ :: s' => S <$> find pat s' end.

(** [std::string::find(pat, pos)]; [None] is [npos]. *)
Definition find_from (pat s : list byte) (pos : nat) : option nat :=
  Nat.add pos <$> find pat (drop pos s).

(** [strstr(s, pat) + strlen(pat)], dereferenced by every caller. *)
Definition after (pat s : list byte) : outcome (list byte) :=
  match find pat s with
  | Some i => Ok (drop (i + length pat) s)
  | None => Fault null_deref
  end.

(** [strstr(s, pat) - s]. *)
Definition upto (pat s : list byte) : outcome nat :=
  match find pat s with Some i => Ok i | None => Fault null_deref end.

Definition isspace (c : byte) : bool := (chr c =? 32) || ((9 <=? chr c) && (chr c <=? 13)).

Fixpoint skip_space (s : list byte) : list byte :=
  match s with c :: s' => if isspace c then skip_space s' else s | [] => [] end.

Definition sign_of (s : list byte) : Z * list byte :=
  match s with
  | c :: s' => if chr c =? 45 then (-1, s') else if chr c =? 43 then (1, s') else (1, s)
  | [] => (1, [])
  end.

Definition digit (base : Z) (c : byte) : option Z :=
  let d := if (48 <=? chr c) && (chr c <=? 57) then chr c - 48
           else if (97 <=? chr c) && (chr c <=? 122) then chr c - 87
           else if (65 <=? chr c) && (chr c <=? 90) then chr c - 55
           else base in
  if d <? base then Some d else None.

Fixpoint digits (base : Z) (s : list byte) (acc : Z) : Z :=
  match s with
  | c :: s' => match digit base c with Some d => digits base s' (acc * base + d) | None => acc end
  | [] => acc
  end.

(** The prefix [0x] of a hexadecimal number. *)
Definition drop_0x (s : list byte) : list byte :=
  match s with
  | a :: b :: c :: _ =>
      if (chr a =? 48) && ((chr b =? 120) || (chr b =? 88)) && bool_decide (digit 16 c ≠ None)
      then drop 2 s else s
  | _ => s
  end.

(** [strtol(s, nullptr, 16)] of a text too short to overflow. *)
Definition strtol16 (s : list byte) : Z :=
  let '(sg, s) := sign_of (skip_space s) in sg * digits 16 (drop_0x s) 0.

(** [strtoul(s, nullptr, 10)]. *)
Definition strtoul10 (s : list byte) : Z :=
  let '(sg, s) := sign_of (skip_space s) in
  let v := digits 10 s 0 in
  if 2 ^ 64 <=? v then 2 ^ 64 - 1 else u64 (sg * v).

(** [%d] of a number that is not negative; twenty digits hold 64 bits. *)
Fixpoint decimal_digits (fuel : nat) (n : Z) (acc : list byte) : list byte :=
  match fuel with
  | O => acc
  | S fuel =>
      let acc := byte.of_Z (48 + n `mod` 10) :: acc in
      if n <? 10 then acc else decimal_digits fuel (n / 10) acc
  end.
Definition decimal (n : Z) : list byte := decimal_digits 20 n [].

(** ** Percent encoding *)

(** [url_decode(start, end)] with [n = end - start].  A percent sign makes it
    read two more characters and skip them, wherever [end] is; past the
    terminator there is nothing to read. *)
Fixpoint url_decode (start : list byte) (n : Z) : outcome (list byte) :=
  match start with
  | [] => Ok []
  | c :: s =>
      if (chr c =? 0) || (n <=? 0) then Ok []
      else if chr c =? 37 then
        match s with
        | a :: b :: s' =>
            output ← url_decode s' (n - 3);
            Ok (byte.of_Z (strtol16 (if chr a =? 0 then [] else if chr b =? 0 then [a] else [a; b]))
                  :: output)
        | _ => Fault oob_access
        end
      else
        output ← url_decode s (n - 1);
        Ok (c :: output)
  end.

(** What the service does to the text: characters that are not kept become
    [%XY]. *)
Definition hex_char (d : Z) : byte := byte.of_Z (if d <? 10 then 48 + d else 55 + d).
Definition percent (b : byte) : list byte :=
  [Byte.x25; hex_char (chr b / 16); hex_char (chr b `mod` 16)].
Fixpoint url_encode (keep : byte → bool) (s : list byte) : list byte :=
  match s with
  | [] => []
  | b :: s' => (if keep b then [b] else percent b) ++ url_encode keep s'
  end.

Lemma strtol16_percent b :
  let '(h, l) := (hex_char (chr b / 16), hex_char (chr b `mod` 16)) in
  chr h ≠ 0 ∧ chr l ≠ 0 ∧ byte.of_Z (strtol16 [h; l]) = b.
Proof. destruct b; vm_compute; by repeat split. Qed.

(** Whatever the certificate header escapes, [url_decode] gives the text
    back, and stops at [end] even when more text follows. *)
Theorem url_decode_encode (keep : byte → bool) (s rest : list byte) :
  (∀ b, keep b = true → chr b ≠ 37 ∧ chr b ≠ 0) →
  url_decode (url_encode keep s ++ rest) (Z.of_nat (length (url_encode keep s))) = Ok s.
Proof.
  intros Hk. induction s as [|b s IH].
  - cbn. destruct rest; [done|]. cbn. by rewrite orb_true_r.
  - cbn [url_encode]. destruct (keep b) eqn:Hb.
    + destruct (Hk b Hb). cbn [app length url_decode].
      rewrite (proj2 (Z.eqb_neq (chr b) 0)), (proj2 (Z.eqb_neq (chr b) 37)) by done.
      rewrite (proj2 (Z.leb_gt _ 0)) by lia. cbn [orb].
      replace (Z.of_nat (S _) - 1) with (Z.of_nat (length (url_encode keep s))) by lia.
      by rewrite IH.
    + pose proof (strtol16_percent b) as (Hh & Hl & Hv).
      unfold percent. cbn [app length url_decode].
      rewrite (proj2 (Z.leb_gt _ 0)) by lia. change (chr Byte.x25 =? 37) with true.
      change (chr Byte.x25 =? 0) with false. cbn [orb].
      rewrite (proj2 (Z.eqb_neq _ 0) Hh), (proj2 (Z.eqb_neq _ 0) Hl), Hv.
      replace (Z.of_nat _ - 3) with (Z.of_nat (length (url_encode keep s))) by lia.
      by rewrite IH.
Qed.

Lemma url_decode_encode_witness :
  url_decode (url_encode (λ b, 65 <=? chr b) (str "A b!") ++ str "next") 8 = Ok (str "A b!").
Proof.
  refine (url_decode_encode (λ b, (65 <=? chr b)) (str "A b!") (str "next") _).
  intros b ?%Z.leb_le. lia.
Defined.

(** *** Searching *)

Lemma find_Some pat s i :
  find pat s = Some i → (i ≤ length s)%nat ∧ pat `prefix_of` drop i s.
Proof.
  revert i. induction s as [|c s IH]; intros i; cbn; case_bool_decide as Hp.
  - intros [= <-]. by split; [lia|].
  - done.
  - intros [= <-]. by split; [lia|].
  - destruct (find pat s) as [j|] eqn:E; intros [= <-]. destruct (IH j eq_refl).
    by split; [lia|].
Qed.

Lemma prefix_of_app_inv (pat l t : list byte) :
  pat `prefix_of` l ++ t → (length pat ≤ length l)%nat → pat `prefix_of` l.
Proof.
  intros [k Hk] Hl. exists (take (length l - length pat) k).
  apply (f_equal (take (length l))) in Hk. rewrite take_app_length in Hk. rewrite Hk at 1.
  by rewrite take_app_ge.
Qed.

(** More text behind an occurrence does not change what is found. *)
Lemma find_app pat s t i : find pat s = Some i → find pat (s ++ t) = Some i.
Proof.
  revert i. induction s as [|c s IH]; intros i; cbn; case_bool_decide as Hp; try done.
  - intros [= <-]. apply prefix_nil_inv in Hp as ->.
    destruct t; cbn; rewrite bool_decide_eq_true_2; done || apply prefix_nil.
  - intros [= <-]. rewrite bool_decide_eq_true_2; [done|].
    apply (prefix_app_r pat (c :: s) t Hp).
  - destruct (find pat s) as [j|] eqn:E; intros [= <-].
    rewrite bool_decide_eq_false_2; [by rewrite (IH j eq_refl)|].
    intros Hp'. apply Hp, (prefix_of_app_inv pat (c :: s) t Hp').
    destruct (find_Some _ _ _ E) as [Hj Hd%prefix_length]. rewrite length_drop in Hd. cbn. lia.
Qed.

(** An occurrence found behind [s] is not in [s]. *)
Lemma find_app_None pat s t i :
  find pat (s ++ t) = Some i → (length s ≤ i)%nat → pat ≠ [] → find pat s = None.
Proof.
  intros Hf Hi Hp. destruct (find pat s) as [j|] eqn:E; [|done].
  pose proof (find_app _ _ t _ E). destruct (find_Some _ _ _ E) as [Hj Hd%prefix_length].
  rewrite length_drop in Hd. destruct pat; [done|]. cbn in Hd. assert (j = i) by congruence. lia.
Qed.

(** ** Certificates *)

(** The calls of OpenSSL: [None] stands for a null pointer, a number for the
    result code; a context is passed on as the calls leave it. *)
Class openssl := {
  BIO : Type;
  X509 : Type;
  X509_STORE : Type;
  X509_STORE_CTX : Type;
  EVP_PKEY : Type;
  EVP_MD_CTX : Type;
  BIO_new : option BIO;
  BIO_write : BIO → list byte → Z * BIO;
  PEM_read_bio_X509 : BIO → option X509;
  sk_X509_new_null : option ();
  X509_STORE_new : option X509_STORE;
  X509_STORE_add_cert : X509_STORE → X509 → Z * X509_STORE;
  X509_STORE_CTX_new : option X509_STORE_CTX;
  X509_STORE_CTX_init : X509_STORE_CTX → X509_STORE → option X509 → list X509 → Z * X509_STORE_CTX;
  X509_verify_cert : X509_STORE_CTX → Z;
  X509_get_pubkey : X509 → option EVP_PKEY;
  EVP_MD_CTX_new : option EVP_MD_CTX;
  EVP_DigestVerifyInit : EVP_MD_CTX → EVP_PKEY → Z * EVP_MD_CTX;
  EVP_DigestVerifyUpdate : EVP_MD_CTX → list byte → Z * EVP_MD_CTX;
  EVP_DigestVerifyFinal : EVP_MD_CTX → list byte → Z;
}.

Section certificates.
Context `{openssl}.

(** A certificate object: its number and its content. *)
Definition cert : Type := nat * X509.

(** What [verify_certs_and_signature] holds, and the certificates its
    destructors have freed. *)
Record cert_state := mk_cert_state {
  loaded : nat;
  stack : list cert;
  sign_cert : option cert;
  freed : list nat;
}.
#[global] Instance eta_cert_state : Eta cert_state := λ s, mk_cert_state
  (loaded s) (stack s) (sign_cert s) (freed s).
Definition no_certs : cert_state := mk_cert_state 0 [] None [].

(** A null pointer, and a result other than 1, is an [OpenSSLException]. *)
Definition non_null {A} (o : option A) : outcome A :=
  match o with Some a => Ok a | None => Throw openssl_exception end.
Definition is_one {A} (r : Z * A) : outcome A :=
  if r.1 =? 1 then Ok r.2 else Throw openssl_exception.

Definition load_cert_unsafe (data : list byte) : M cert_state cert :=
  bio_mem ← lift (non_null BIO_new);
  let '(written, bio_mem) := BIO_write bio_mem data in
  if negb (written =? Z.of_nat (length data)) then throw openssl_exception
  else
    x ← lift (non_null (PEM_read_bio_X509 bio_mem));
    n ← gets loaded;
    loaded <~ S n ;;
    mret (n, x).

(** Intel's root certificate, as it is in the source. *)
Definition ias_root_ca_cert : list byte := str
"-----BEGIN CERTIFICATE-----
MIIFSzCCA7OgAwIBAgIJANEHdl0yo7CUMA0GCSqGSIb3DQEBCwUAMH4xCzAJBgNV
BAYTAlVTMQswCQYDVQQIDAJDQTEUMBIGA1UEBwwLU2FudGEgQ2xhcmExGjAYBgNV
BAoMEUludGVsIENvcnBvcmF0aW9uMTAwLgYDVQQDDCdJbnRlbCBTR1ggQXR0ZXN0
YXRpb24gUmVwb3J0IFNpZ25pbmcgQ0EwIBcNMTYxMTE0MTUzNzMxWhgPMjA0OTEy
MzEyMzU5NTlaMH4xCzAJBgNVBAYTAlVTMQswCQYDVQQIDAJDQTEUMBIGA1UEBwwL
U2FudGEgQ2xhcmExGjAYBgNVBAoMEUludGVsIENvcnBvcmF0aW9uMTAwLgYDVQQD
DCdJbnRlbCBTR1ggQXR0ZXN0YXRpb24gUmVwb3J0IFNpZ25pbmcgQ0EwggGiMA0G
CSqGSIb3DQEBAQUAA4IBjwAwggGKAoIBgQCfPGR+tXc8u1EtJzLA10Feu1Wg+p7e
LmSRmeaCHbkQ1TF3Nwl3RmpqXkeGzNLd69QUnWovYyVSndEMyYc3sHecGgfinEeh
rgBJSEdsSJ9FpaFdesjsxqzGRa20PYdnnfWcCTvFoulpbFR4VBuXnnVLVzkUvlXT
L/TAnd8nIZk0zZkFJ7P5LtePvykkar7LcSQO85wtcQe0R1Raf/sQ6wYKaKmFgCGe
NpEJUmg4ktal4qgIAxk+QHUxQE42sxViN5mqglB0QJdUot/o9a/V/mMeH8KvOAiQ
byinkNndn+Bgk5sSV5DFgF0DffVqmVMblt5p3jPtImzBIH0QQrXJq39AT8cRwP5H
afuVeLHcDsRp6hol4P+ZFIhu8mmbI1u0hH3W/0C2BuYXB5PC+5izFFh/nP0lc2Lf
6rELO9LZdnOhpL1ExFOq9H/B8tPQ84T3Sgb4nAifDabNt/zu6MmCGo5U8lwEFtGM
RoOaX4AS+909x00lYnmtwsDVWv9vBiJCXRsCAwEAAaOByTCBxjBgBgNVHR8EWTBX
MFWgU6BRhk9odHRwOi8vdHJ1c3RlZHNlcnZpY2VzLmludGVsLmNvbS9jb250ZW50
L0NSTC9TR1gvQXR0ZXN0YXRpb25SZXBvcnRTaWduaW5nQ0EuY3JsMB0GA1UdDgQW
BBR4Q3t2pn680K9+QjfrNXw7hwFRPDAfBgNVHSMEGDAWgBR4Q3t2pn680K9+Qjfr
NXw7hwFRPDAOBgNVHQ8BAf8EBAMCAQYwEgYDVR0TAQH/BAgwBgEB/wIBADANBgkq
hkiG9w0BAQsFAAOCAYEAeF8tYMXICvQqeXYQITkV2oLJsp6J4JAqJabHWxYJHGir
IEqucRiJSSx+HjIJEUVaj8E0QjEud6Y5lNmXlcjqRXaCPOqK0eGRz6hi+ripMtPZ
sFNaBwLQVV905SDjAzDzNIDnrcnXyB4gcDFCvwDFKKgLRjOB/WAqgscDUoGq5ZVi
zLUzTqiQPmULAQaB9c6Oti6snEFJiCQ67JLyW/E83/frzCmO5Ru6WjU4tmsmy8Ra
Ud4APK0wZTGtfPXU7w+IBdG5Ez0kE1qzxGQaL4gINJ1zMyleDnbuS8UicjJijvqA
152Sq049ESDz+1rRGc2NVEqh1KaGXmtXvqxXcTB+Ljy5Bw2ke0v8iGngFBPqCTVB
3op5KBG3RjbF6RRSzwzuWfL7QErNC8WEy5yDVARzTA5+xmBc388v9Dm21HGfcC8O
DD+gT9sSpssq0ascmvH49MOgjt1yoysLtdCtJW/9FZpoOypaHx0R+mJTLwPXVMrv
DaVzWh5aiEx+idkSGMnX
-----END CERTIFICATE-----
".

Definition begin_mark : list byte := str "-----BEGIN".

(** One certificate onto the stack; the first is the signing certificate too. *)
Definition push_cert (first : bool) (data : list byte) : M cert_state unit :=
  c ← load_cert_unsafe data;
  modify (update stack (λ l, l ++ [c])) ;;
  when first (sign_cert <~ Some c).

(** The loop of [load_cert_chain]; [fuel] bounds its rounds. *)
Fixpoint load_loop (fuel : nat) (cert_chain : list byte) (idx_l : nat) : M cert_state unit :=
  match fuel with
  | O => faulting diverges
  | S fuel =>
      let idx_r := find_from begin_mark cert_chain (S idx_l) in
      let len := (default (length cert_chain) idx_r - idx_l)%nat in
      push_cert (Nat.eqb idx_l 0) (take len (drop idx_l cert_chain)) ;;
      match idx_r with
      | None => mret tt
      | Some idx_l => load_loop fuel cert_chain idx_l
      end
  end.

Definition load_cert_chain (cert_chain : list byte) : M cert_state unit :=
  lift (non_null sk_X509_new_null) ;;
  load_loop (S (length cert_chain)) cert_chain 0.

Definition build_ca (c : X509) : outcome X509_STORE :=
  store ← non_null X509_STORE_new;
  is_one (X509_STORE_add_cert store c).

Definition cert_verify (store : X509_STORE) (chain : list X509) : outcome bool :=
  ctx ← non_null X509_STORE_CTX_new;
  ctx ← is_one (X509_STORE_CTX_init ctx store (head chain) chain);
  let rv := X509_verify_cert ctx in
  if negb (rv =? 1) && negb (rv =? 0) then Throw openssl_exception else Ok (rv =? 1).

(** Reading [size] bytes of a C string: the terminator is the last. *)
Definition read_mem (s : list byte) (size : Z) : outcome (list byte) :=
  if size <=? Z.of_nat (length s) + 1 then Ok (take (Z.to_nat size) (s ++ [Byte.x00]))
  else Fault oob_access.

Definition sha256_verify (msg : list byte) (msgsz : Z) (sig : list byte) (pkey : EVP_PKEY) :
    outcome bool :=
  ctx ← non_null EVP_MD_CTX_new;
  ctx ← is_one (EVP_DigestVerifyInit ctx pkey);
  data ← read_mem msg msgsz;
  ctx ← is_one (EVP_DigestVerifyUpdate ctx data);
  let rv := EVP_DigestVerifyFinal ctx sig in
  if (rv =? 0) || (rv =? 1) then Ok (rv =? 1) else Throw openssl_exception.

(** The destructors at the end of the scope: the stack with its certificates,
    then [sign_cert], then [root_ca]. *)
Definition release (root_ca : cert) (s : cert_state) : cert_state :=
  s <| freed ::= λ l, l ++ (stack s).*1 ++ (fst <$> option_list (sign_cert s)) ++ [root_ca.1] |>.

Definition scoped {A} (leave : cert_state → cert_state) (m : M cert_state A) : M cert_state A :=
  λ w, let '(r, w') := m w in (r, leave w').

(** From the root certificate to the end of the scope. *)
Definition verify_under (root_ca : cert) (certs sig data : list byte) (size : Z) :
    M cert_state bool :=
  load_cert_chain certs ;;
  w ← gets id;
  store ← lift (build_ca root_ca.2);
  trusted ← lift (cert_verify store (stack w).*2);
  if negb trusted then mret false
  else match sign_cert w with
       | None => faulting null_deref
       | Some c =>
           pkey ← lift (non_null (X509_get_pubkey c.2));
           lift (sha256_verify data size sig pkey)
       end.

Definition verify_certs_and_signature (certs sig data : list byte) (size : Z) :
    M cert_state bool :=
  if bool_decide (certs = []) then throw invalid_argument
  else if bool_decide (sig = []) then throw invalid_argument
  else if size =? 0 then throw invalid_argument
  else
    root_ca ← load_cert_unsafe ias_root_ca_cert;
    scoped (release root_ca) (verify_under root_ca certs sig data size).

(** ** Splitting the chain *)

(** The reference: one certificate after the other. *)
Fixpoint load_pieces (first : bool) (ps : list (list byte)) : M cert_state unit :=
  match ps with
  | [] => mret tt
  | p :: ps' => push_cert first p ;; load_pieces false ps'
  end.

(** A text in which a certificate begins at the first byte and no other does. *)
Definition pem (p : list byte) : Prop :=
  begin_mark `prefix_of` p ∧
  find begin_mark (drop 1 (p ++ begin_mark)) = Some (length p - 1)%nat.
#[global] Instance pem_dec p : Decision (pem p).
Proof. unfold pem. apply _. Defined.

Lemma pem_length p : pem p → (1 ≤ length p)%nat.
Proof. intros [Hp%prefix_length _]. cbn in Hp. lia. Qed.

Lemma drop_S_pre (pre x : list byte) : drop (S (length pre)) (pre ++ x) = drop 1 x.
Proof.
  replace (S (length pre)) with (length pre + 1)%nat by lia. by rewrite <-drop_drop, drop_app_length.
Qed.

Lemma next_mark pre p ps :
  Forall pem (p :: ps) →
  find_from begin_mark (pre ++ concat (p :: ps)) (S (length pre)) =
    if ps is [] then None else Some (length pre + length p)%nat.
Proof.
  intros [Hp Hps]%Forall_cons. unfold find_from. rewrite drop_S_pre.
  pose proof (pem_length p Hp) as Hl. destruct Hp as [_ Hf]. cbn [concat].
  rewrite drop_app_le in Hf by done. destruct ps as [|q ps].
  - cbn [concat]. rewrite app_nil_r, (find_app_None _ _ _ _ Hf); [done| |done].
    rewrite length_drop. lia.
  - apply Forall_cons in Hps as [[[k ->] _] _]. cbn [concat]. rewrite drop_app_le by done.
    rewrite <-(app_assoc begin_mark), (app_assoc (drop 1 p)).
    rewrite (find_app _ _ _ _ Hf). cbn. f_equal. lia.
Qed.

Lemma load_loop_pieces p ps pre fuel w :
  Forall pem (p :: ps) → (length ps < fuel)%nat →
  load_loop fuel (pre ++ concat (p :: ps)) (length pre) w =
    load_pieces (Nat.eqb (length pre) 0) (p :: ps) w.
Proof.
  revert p pre fuel w. induction ps as [|q ps IH]; intros p pre [|fuel] w Hps Hf; cbn in Hf; try lia;
    cbn [load_loop load_pieces]; rewrite (next_mark pre) by done; cbn [default concat];
    rewrite drop_app_length.
  - rewrite !length_app, app_nil_r, take_ge; [done|]. cbn. lia.
  - cbn [default]. unfold id. replace (length pre + length p - length pre)%nat with (length p) by lia.
    rewrite take_app_length. unfold mbind, M_bind. destruct (push_cert _ p w) as [[[]|e|u] w']; try done.
    apply Forall_cons in Hps as [Hp Hps]. pose proof (pem_length p Hp).
    specialize (IH q (pre ++ p) fuel w' Hps ltac:(lia)).
    rewrite length_app, <-app_assoc in IH. cbn [concat] in IH. rewrite IH.
    by rewrite (proj2 (Nat.eqb_neq (length pre + length p) 0)) by lia.
Qed.

Lemma push_cert_no_fault first data w u : (push_cert first data w).1 ≠ Fault u.
Proof.
  unfold push_cert, load_cert_unsafe, mbind, M_bind, lift, non_null, throw, gets, modify.
  destruct BIO_new as [b|]; [|done]. destruct (BIO_write b data) as [n b'].
  destruct (negb _); [done|]. destruct (PEM_read_bio_X509 b'); [|done]. by destruct first.
Qed.

Lemma find_from_bounds pat s pos i :
  pat ≠ [] → find_from pat s pos = Some i → (pos ≤ i < length s)%nat.
Proof.
  intros Hp. unfold find_from. destruct (find pat (drop pos s)) as [j|] eqn:E; [|done].
  intros [= <-]. destruct (find_Some _ _ _ E) as [_ Hd%prefix_length].
  rewrite !length_drop in Hd. destruct pat; [done|]. cbn in Hd. lia.
Qed.

Lemma load_loop_no_fault fuel chain idx w u :
  (idx ≤ length chain < fuel + idx)%nat → (load_loop fuel chain idx w).1 ≠ Fault u.
Proof.
  revert idx w. induction fuel as [|fuel IH]; intros idx w Hf; [lia|]. cbn [load_loop].
  unfold mbind, M_bind. pose proof (push_cert_no_fault (Nat.eqb idx 0)
    (take (default (length chain) (find_from begin_mark chain (S idx)) - idx) (drop idx chain)) w u) as Hn.
  destruct (push_cert _ _ w) as [[[]|e|u'] w']; [|done..].
  destruct (find_from begin_mark chain (S idx)) as [i|] eqn:E; [|done].
  apply find_from_bounds in E; [|done]. apply IH. lia.
Qed.

(** C34: the chain is split into its certificates.  The index arithmetic of
    [load_cert_chain] on certificates written one behind the other loads each
    of them, in order, the first as the signing certificate. *)
Theorem load_cert_chain_pieces (p : list byte) (ps : list (list byte)) (w : cert_state) :
  Forall pem (p :: ps) →
  load_cert_chain (concat (p :: ps)) w =
    (lift (non_null sk_X509_new_null) ;; load_pieces true (p :: ps)) w.
Proof.
  intros Hps. unfold load_cert_chain, mbind, M_bind, lift.
  destruct (non_null sk_X509_new_null); [|done..].
  apply (load_loop_pieces p ps [] _ w Hps).
  assert (length ps ≤ length (concat ps))%nat; [|cbn; rewrite length_app; lia].
  apply Forall_cons in Hps as [_ Hps]. induction Hps as [|q qs Hq _ IH]; cbn; [lia|].
  rewrite length_app. apply pem_length in Hq. lia.
Qed.

(** On any text [load_cert_chain] ends, by returning or with an
    exception, and reads nothing outside the text. *)
Theorem load_cert_chain_terminates (chain : list byte) (w : cert_state) (u : fault) :
  (load_cert_chain chain w).1 ≠ Fault u.
Proof.
  unfold load_cert_chain, mbind, M_bind, lift. destruct (non_null _) eqn:E; [|done|].
  - apply load_loop_no_fault. lia.
  - unfold non_null in E. by destruct sk_X509_new_null.
Qed.

(** ** Lifetime of the certificates *)

Lemma push_cert_spec first data w w' :
  push_cert first data w = (Ok tt, w') →
  ∃ c, stack w' = stack w ++ [c] ∧ freed w' = freed w ∧
    sign_cert w' = if first then Some c else sign_cert w.
Proof.
  unfold push_cert, load_cert_unsafe, mbind, M_bind, lift, non_null, throw, gets, modify.
  destruct BIO_new as [b|]; [|done]. destruct (BIO_write b data) as [n b'].
  destruct (negb _); [done|]. destruct (PEM_read_bio_X509 b'); [|done].
  destruct first; intros [= <-]; eexists; cbn; repeat split; reflexivity.
Qed.

Lemma load_loop_keeps fuel chain idx w w' :
  idx ≠ O → load_loop fuel chain idx w = (Ok tt, w') →
  (∃ l, stack w' = stack w ++ l) ∧ sign_cert w' = sign_cert w ∧ freed w' = freed w.
Proof.
  revert idx w. induction fuel as [|fuel IH]; intros idx w Hi; [done|]. cbn [load_loop].
  unfold mbind, M_bind. rewrite (proj2 (Nat.eqb_neq idx 0) Hi).
  destruct (push_cert _ _ w) as [[[]|e|u'] w1] eqn:E; [|done..].
  apply push_cert_spec in E as (c & Hs & Hf & Hc).
  destruct (find_from begin_mark chain (S idx)) as [i|] eqn:E.
  - apply find_from_bounds in E; [|done]. intros ((l & Hl) & Hs' & Hf')%IH; [|lia].
    rewrite Hl, Hs, <-app_assoc, Hs', Hf'. eauto.
  - intros [= <-]. eauto.
Qed.

(** After a loaded chain the signing certificate is the first of the stack:
    the same object. *)
Lemma load_cert_chain_first chain w w' :
  load_cert_chain chain w = (Ok tt, w') → stack w = [] →
  ∃ c l, stack w' = c :: l ∧ sign_cert w' = Some c ∧ freed w' = freed w.
Proof.
  unfold load_cert_chain, mbind at 1, M_bind at 1, lift. destruct (non_null _); [|done..].
  cbn [load_loop]. unfold mbind, M_bind. intros Hl Hw.
  destruct (push_cert _ _ w) as [[[]|e|u'] w1] eqn:E; [|done..].
  apply push_cert_spec in E as (c & Hs & Hf & Hc). rewrite Hw in Hs. cbn in Hs, Hc.
  destruct (find_from begin_mark chain 1) as [i|] eqn:E.
  - apply find_from_bounds in E; [|done]. apply load_loop_keeps in Hl as ((l & Hl) & Hs' & Hf'); [|lia].
    rewrite Hl, Hs, Hs', Hf'. exists c, l. eauto.
  - injection Hl as <-. exists c, []. eauto.
Qed.

(** The state after a verification that did not throw. *)
Lemma verify_result certs sig data size w' b :
  verify_certs_and_signature certs sig data size no_certs = (Ok b, w') →
  ∃ root_ca w0 w1, load_cert_unsafe ias_root_ca_cert no_certs = (Ok root_ca, w0) ∧
    stack w0 = [] ∧ load_cert_chain certs w0 = (Ok tt, w1) ∧ w' = release root_ca w1 ∧
    verify_under root_ca certs sig data size w0 = (Ok b, w1).
Proof.
  unfold verify_certs_and_signature. do 3 (case_match; [done|]).
  unfold mbind at 1, M_bind at 1.
  destruct (load_cert_unsafe ias_root_ca_cert no_certs) as [[root|e|u] w0] eqn:E0; [|done..].
  unfold scoped. destruct (verify_under root certs sig data size w0) as [r w1] eqn:E1.
  intros [= -> <-]. exists root, w0, w1. split; [done|].
  assert (stack w0 = []) as Hs.
  { revert E0. unfold load_cert_unsafe, mbind, M_bind, lift, non_null, throw, gets, modify.
    destruct BIO_new as [bio|]; [|done]. destruct (BIO_write bio _) as [n b'].
    destruct (negb _); [done|]. destruct (PEM_read_bio_X509 b'); [|done]. by intros [= <- <-]. }
  split; [done|]. split; [|by split].
  revert E1. unfold verify_under. unfold mbind at 1, M_bind at 1.
  destruct (load_cert_chain certs w0) as [[[]|e|u] w2]; [|done..].
  intros E1. f_equal. revert E1. unfold mbind, M_bind, gets, lift, id.
  destruct (build_ca root.2); [|done..]. destruct (cert_verify _ _) as [[]|?|?]; [|by intros [= _ <-]|done..].
  cbn [negb]. destruct (sign_cert w2) as [c|]; [|done]. destruct (non_null _); [|done..].
  by intros [= _ <-].
Qed.

(** C35: the signing certificate is freed twice.  It is owned by the stack and
    by [sign_cert] at once; every verification that comes to a result runs
    both destructors on the same object. *)
Theorem signing_cert_freed_twice (certs sig data : list byte) (size : Z) (w' : cert_state) (b : bool) :
  verify_certs_and_signature certs sig data size no_certs = (Ok b, w') →
  ∃ n l1 l2 l3, freed w' = l1 ++ n :: l2 ++ n :: l3.
Proof.
  intros (root & w0 & w1 & _ & Hs & Hl & -> & _)%verify_result.
  apply load_cert_chain_first in Hl as (c & l & Hst & Hsg & _); [|done].
  exists c.1, (freed w1), l.*1, [root.1]. unfold release, update. cbn. by rewrite Hst, Hsg.
Qed.
End certificates.

(** ** The report *)

Section report.
Context `{openssl} `{codecs}.

Definition header_length : list byte := str "Content-Length: ".
Definition header_signature : list byte := str "X-IASReport-Signature: ".
Definition header_certificates : list byte := str "X-IASReport-Signing-Certificate: ".
Definition delimiter : list byte := [Byte.x0d; Byte.x0a].
Definition double_delimiter : list byte := [Byte.x0d; Byte.x0a; Byte.x0d; Byte.x0a].

(** The certificate state is dropped at the end of the call: the second free of
    the signing certificate ([signing_cert_freed_twice]), undefined in C++, is
    taken to have no effect, and what is proved of runs that go on after a
    report was checked is under this assumption. *)
Definition validate_verification_report (http_packet : list byte) : outcome (option (list byte)) :=
  ptr_l ← after header_length http_packet;
  let content_length := strtoul10 ptr_l in
  ptr_l ← after header_signature http_packet;
  n ← upto delimiter ptr_l;
  signature ← base64_decode (take n ptr_l);
  ptr_l ← after header_certificates http_packet;
  n ← upto delimiter ptr_l;
  certificates ← url_decode ptr_l (Z.of_nat n);
  ptr_l ← after double_delimiter http_packet;
  let body := json_parse ptr_l in
  match (verify_certs_and_signature certificates signature ptr_l content_length no_certs).1 with
  | Throw openssl_exception => Ok None
  | Throw e => Throw e
  | Fault u => Fault u
  | Ok result =>
      match body with
      | None => Ok None
      | Some body =>
          if negb result then Ok None
          else if negb (int_value (at_key (str "version") body) =? 3) then Ok None
          else if negb (bool_decide (string_value (at_key (str "isvEnclaveQuoteStatus") body) = str "OK"))
          then Ok None
          else
            quote ← base64_decode (string_value (at_key (str "isvEnclaveQuoteBody") body));
            Ok (Some quote)
      end
  end.

(** [report_data.d] of the [sgx_quote_t] at the beginning of the bytes; their
    number is not checked. *)
Definition SGX_REPORT_DATA_SIZE : nat := 64.
Definition report_data_offset : nat := 48 + 320.
Definition report_data (quote : list byte) : outcome (list byte) :=
  if (length quote <? report_data_offset + SGX_REPORT_DATA_SIZE)%nat then Fault oob_access
  else Ok (take SGX_REPORT_DATA_SIZE (drop report_data_offset quote)).

(** OpenSSL accepts [sig] as a signature of exactly [data] under [key]. *)
Definition signed (data sig : list byte) (key : EVP_PKEY) : Prop :=
  ∃ ctx ctx1 ctx2, EVP_MD_CTX_new = Some ctx ∧ EVP_DigestVerifyInit ctx key = (1, ctx1) ∧
    EVP_DigestVerifyUpdate ctx1 data = (1, ctx2) ∧ EVP_DigestVerifyFinal ctx2 sig = 1.

(** OpenSSL accepts the chain for its first certificate, with [root] as the only
    certificate that is trusted. *)
Definition trusted (root : X509) (chain : list X509) : Prop :=
  ∃ store store1 ctx ctx1, X509_STORE_new = Some store ∧ X509_STORE_add_cert store root = (1, store1) ∧
    X509_STORE_CTX_new = Some ctx ∧ X509_STORE_CTX_init ctx store1 (head chain) chain = (1, ctx1) ∧
    X509_verify_cert ctx1 = 1.

(** What a valid report means.  The packet names a signature, a chain of
    certificates and a length; the chain is trusted under Intel's root; the
    key of its first certificate signed the first [Content-Length] bytes
    behind the header (counting the zero at the end of the string); and the
    text behind the header says that the quote is genuine. *)
Record genuine (packet text quote : list byte) : Prop := {
  genuine_text : after double_delimiter packet = Ok text;
  genuine_signed : ∃ len_at sig_at sig_len sig certs_at certs_len certs root_ca w0 w1 leaf rest key,
    after header_length packet = Ok len_at ∧ strtoul10 len_at ≤ Z.of_nat (length text) + 1 ∧
    after header_signature packet = Ok sig_at ∧ upto delimiter sig_at = Ok sig_len ∧
    base64_decode (take sig_len sig_at) = Ok sig ∧
    after header_certificates packet = Ok certs_at ∧ upto delimiter certs_at = Ok certs_len ∧
    url_decode certs_at (Z.of_nat certs_len) = Ok certs ∧
    load_cert_unsafe ias_root_ca_cert no_certs = (Ok root_ca, w0) ∧
    load_cert_chain certs w0 = (Ok tt, w1) ∧ (stack w1).*2 = leaf :: rest ∧
    trusted root_ca.2 (leaf :: rest) ∧ X509_get_pubkey leaf = Some key ∧
    signed (take (Z.to_nat (strtoul10 len_at)) (text ++ [Byte.x00])) sig key;
  genuine_status : ∃ j, json_parse text = Some j ∧ int_value (at_key (str "version") j) = 3 ∧
    string_value (at_key (str "isvEnclaveQuoteStatus") j) = str "OK" ∧
    base64_decode (string_value (at_key (str "isvEnclaveQuoteBody") j)) = Ok quote;
}.

Lemma is_one_Ok {A} (r : Z * A) a : is_one r = Ok a → r = (1, a).
Proof. destruct r as [z b]. unfold is_one; cbn. destruct (Z.eqb_spec z 1) as [->|]; [by intros [= ->]|done]. Qed.

Lemma non_null_Ok {A} (o : option A) a : non_null o = Ok a → o = Some a.
Proof. destruct o; [by intros [= ->]|done]. Qed.

Lemma sha256_verify_true msg n sig key :
  sha256_verify msg n sig key = Ok true →
  n ≤ Z.of_nat (length msg) + 1 ∧ signed (take (Z.to_nat n) (msg ++ [Byte.x00])) sig key.
Proof.
  unfold sha256_verify. intros Hv.
  apply bind_Ok in Hv as (ctx & H1%non_null_Ok & Hv). apply bind_Ok in Hv as (ctx1 & H2%is_one_Ok & Hv).
  apply bind_Ok in Hv as (data & H3 & Hv). apply bind_Ok in Hv as (ctx2 & H4%is_one_Ok & Hv).
  unfold read_mem in H3. destruct (Z.leb_spec n (Z.of_nat (length msg) + 1)); [|done]. injection H3 as <-.
  split; [done|]. exists ctx, ctx1, ctx2. split_and!; [done..|].
  destruct (_ || _); [|done]. injection Hv as Hv. by apply Z.eqb_eq.
Qed.

Lemma chain_trusted root store chain :
  build_ca root = Ok store → cert_verify store chain = Ok true → trusted root chain.
Proof.
  unfold build_ca, cert_verify. intros Hb Hv.
  apply bind_Ok in Hb as (st & H1%non_null_Ok & H2%is_one_Ok).
  apply bind_Ok in Hv as (ctx & H3%non_null_Ok & Hv). apply bind_Ok in Hv as (ctx1 & H4%is_one_Ok & Hv).
  exists st, store, ctx, ctx1. split_and!; [done..|].
  destruct (_ && _); [done|]. injection Hv as Hv. by apply Z.eqb_eq.
Qed.

Lemma verify_true certs sig data size :
  (verify_certs_and_signature certs sig data size no_certs).1 = Ok true →
  ∃ root_ca w0 w1 leaf rest key,
    load_cert_unsafe ias_root_ca_cert no_certs = (Ok root_ca, w0) ∧
    load_cert_chain certs w0 = (Ok tt, w1) ∧ (stack w1).*2 = leaf :: rest ∧
    trusted root_ca.2 (leaf :: rest) ∧ X509_get_pubkey leaf = Some key ∧
    size ≤ Z.of_nat (length data) + 1 ∧
    signed (take (Z.to_nat size) (data ++ [Byte.x00])) sig key.
Proof.
  destruct (verify_certs_and_signature certs sig data size no_certs) as [r w'] eqn:E.
  cbn. intros ->. apply verify_result in E as (root & w0 & w1 & Hroot & Hs & Hl & _ & Hu).
  destruct (load_cert_chain_first _ _ _ Hl Hs) as (c & l & Hst & Hsg & _).
  exists root, w0, w1, c.2, l.*2. revert Hu. unfold verify_under.
  unfold mbind at 1, M_bind at 1. rewrite Hl. unfold mbind, M_bind, gets, lift, id. rewrite Hst, Hsg.
  destruct (build_ca root.2) as [store| |] eqn:Hb; [|done..]. cbn [fmap list_fmap].
  destruct (cert_verify store _) as [[]| |] eqn:Hv; try done. cbn [negb].
  destruct (X509_get_pubkey c.2) as [key|] eqn:Hk; [|done]. cbn. intros [= [Hle Hsig]%sha256_verify_true].
  pose proof (chain_trusted _ _ _ Hb Hv). by exists key.
Qed.

(** A report that [validate_verification_report] accepts carries a quote that
    the service called genuine, in a text whose first [Content-Length] bytes
    are signed under Intel's root certificate. *)
Lemma validate_sound (http_packet quote : list byte) :
  validate_verification_report http_packet = Ok (Some quote) →
  ∃ text, genuine http_packet text quote.
Proof.
  unfold validate_verification_report. intros Hv.
  apply bind_Ok in Hv as (len_at & Hlen & Hv). apply bind_Ok in Hv as (sig_at & Hsa & Hv).
  apply bind_Ok in Hv as (sig_len & Hsl & Hv). apply bind_Ok in Hv as (sig & Hsig & Hv).
  apply bind_Ok in Hv as (certs_at & Hca & Hv). apply bind_Ok in Hv as (certs_len & Hcl & Hv).
  apply bind_Ok in Hv as (certs & Hcerts & Hv). apply bind_Ok in Hv as (text & Ht & Hv).
  exists text.
  destruct (verify_certs_and_signature _ _ _ _ _).1 as [[]|[]|] eqn:E; try done;
    destruct (json_parse text) as [j|] eqn:Hj; try done.
  cbn [negb] in Hv. destruct (Z.eqb_spec (int_value (at_key (str "version") j)) 3); [|done].
  case_bool_decide; [|done]. cbn [negb] in Hv. apply bind_Ok in Hv as (q & Hq & [= <-]).
  split; [done| |eauto 10].
  destruct (verify_true _ _ _ _ E) as (root & w0 & w1 & leaf & rest & key & Hr & Hl & Hst & Htr & Hk & Hle & Hsg).
  by exists len_at, sig_at, sig_len, sig, certs_at, certs_len, certs, root, w0, w1, leaf, rest, key.
Qed.
End report.

(** ** An instance of the interface

    A certificate is its text, and every check succeeds. *)

Definition toy_openssl : openssl := {|
  BIO := list byte; X509 := list byte; X509_STORE := (); X509_STORE_CTX := ();
  EVP_PKEY := (); EVP_MD_CTX := ();
  BIO_new := Some [];
  BIO_write b d := (Z.of_nat (length d), b ++ d);
  PEM_read_bio_X509 := Some;
  sk_X509_new_null := Some ();
  X509_STORE_new := Some ();
  X509_STORE_add_cert _ _ := (1, ());
  X509_STORE_CTX_new := Some ();
  X509_STORE_CTX_init _ _ _ _ := (1, ());
  X509_verify_cert _ := 1;
  X509_get_pubkey _ := Some ();
  EVP_MD_CTX_new := Some ();
  EVP_DigestVerifyInit _ _ := (1, ());
  EVP_DigestVerifyUpdate _ _ := (1, ());
  EVP_DigestVerifyFinal _ _ := 1;
|}.
#[local] Existing Instances toy_openssl toy_codecs.

Definition sample_pem : list byte := str "-----BEGIN A-----END-----".
Definition sample_quote : list byte := replicate 432 Byte.x41.
Definition sample_report : json := JObject
  [(str "isvEnclaveQuoteBody", JString sample_quote);
   (str "isvEnclaveQuoteStatus", JString (str "OK")); (str "version", JNumber 3)].
Definition sample_packet : list byte :=
  header_length ++ str "20" ++ delimiter ++
  header_signature ++ str "sig" ++ delimiter ++
  header_certificates ++ sample_pem ++ str "%0A" ++ sample_pem ++ double_delimiter ++
  json_dump sample_report.

Lemma load_cert_chain_pieces_witness :
  Forall pem [sample_pem; sample_pem] ∧
  load_cert_chain (concat [sample_pem; sample_pem]) no_certs =
    (lift (non_null sk_X509_new_null) ;; load_pieces true [sample_pem; sample_pem]) no_certs.
Proof.
  assert (Forall pem [sample_pem; sample_pem]) as Hp
    by (repeat constructor; apply (bool_decide_unpack _); vm_compute; exact I).
  split; [exact Hp|]. apply (load_cert_chain_pieces sample_pem [sample_pem] no_certs Hp).
Defined.

Lemma signing_cert_freed_twice_witness :
  ∃ n l1 l2 l3,
    freed (verify_certs_and_signature sample_pem (str "sig") (str "text") 4 no_certs).2 =
    l1 ++ n :: l2 ++ n :: l3.
Proof.
  apply (signing_cert_freed_twice sample_pem (str "sig") (str "text") 4 _ true).
  vm_compute. reflexivity.
Defined.

Example sample_packet_valid : validate_verification_report sample_packet = Ok (Some sample_quote).
Proof. vm_compute. reflexivity. Qed.
