(* ===== verification/Host.v ===== *)
(** * The host: outgoing calls and timers

    src/raft_app/port/asio_rpc_client.hxx and .cxx (the connections the
    enclave calls other servers through) and asio_task_scheduler.cxx (its
    timers).  asio is the environment: an operation that has been started is
    outstanding until its completion handler runs. *)

From S2P Require Import Prelude Buffer Transport Json Attestation.
From Stdlib Require String.
Import String.StringSyntax.

(** ** Endpoints

    The regular expression
    [^tcp://(([a-zA-Z0-9\-]+\.)*([a-zA-Z0-9]+)):([0-9]+)$] as a recogniser. *)

Definition is_digit (c : byte) : bool := (48 <=? chr c) && (chr c <=? 57).
Definition is_alnum (c : byte) : bool :=
  is_digit c || ((97 <=? chr c) && (chr c <=? 122)) || ((65 <=? chr c) && (chr c <=? 90)).
Definition in_label (c : byte) : bool := is_alnum c || (chr c =? 45).

Fixpoint split_at (sep : Z) (s : list byte) : option (list byte * list byte) :=
  match s with
  | [] => None
  | c :: s' => if chr c =? sep then Some ([], s')
               else '(a, b) ← split_at sep s'; Some (c :: a, b)
  end.

(** [([a-zA-Z0-9\-]+\.)*([a-zA-Z0-9]+)]; [label] is what was read of the
    current label, and whether it has a dash. *)
Fixpoint host_ok (s : list byte) (nonempty dash : bool) : bool :=
  match s with
  | [] => nonempty && negb dash
  | c :: s' =>
      if chr c =? 46 then nonempty && host_ok s' false false
      else in_label c && host_ok s' true (dash || (chr c =? 45))
  end.

Definition is_port (s : list byte) : bool := negb (bool_decide (s = [])) && forallb is_digit s.

Definition match_endpoint (ep : list byte) : option (list byte * list byte) :=
  if bool_decide (str "tcp://" `prefix_of` ep) then
    '(host, port) ← split_at 58 (drop 6 ep);
    if host_ok host false false && is_port port then Some (host, port) else None
  else None.

(** *** Decimal numbers *)

Lemma digit_char d : 0 ≤ d < 10 →
  is_digit (byte.of_Z (48 + d)) = true ∧ digit 10 (byte.of_Z (48 + d)) = Some d.
Proof.
  intros Hd. assert (chr (byte.of_Z (48 + d)) = 48 + d) as Hc.
  { unfold chr. rewrite byte.unsigned_of_Z. apply Z.mod_small. lia. }
  unfold is_digit, digit. rewrite Hc. rewrite (proj2 (Z.leb_le 48 _)), (proj2 (Z.leb_le _ 57)) by lia.
  cbn [andb]. split; [done|]. rewrite (proj2 (Z.ltb_lt _ 10)) by lia. f_equal. lia.
Qed.

(** The digits of a number, and reading them on from any value. *)
Lemma decimal_digits_spec fuel n acc :
  0 ≤ n < 10 ^ Z.of_nat fuel → (0 < fuel)%nat →
  ∃ l, decimal_digits fuel n acc = l ++ acc ∧ l ≠ [] ∧ Forall (λ c, is_digit c = true) l ∧
    ∀ tail a, digits 10 (l ++ tail) a = digits 10 tail (a * 10 ^ Z.of_nat (length l) + n).
Proof.
  revert n acc. induction fuel as [|fuel IH]; intros n acc Hn Hf; [lia|]. cbn [decimal_digits].
  assert (0 ≤ n `mod` 10 < 10) as Hd by (apply Z.mod_pos_bound; lia).
  destruct (digit_char _ Hd) as [Hc Hv]. destruct (Z.ltb_spec n 10) as [Hs|Hs].
  - eexists [_]. split; [done|]. split; [done|]. split; [by repeat constructor|]. intros tail a.
    cbn [app digits]. rewrite Hv. f_equal. rewrite Z.mod_small by lia. cbn. lia.
  - destruct (IH (n / 10) (byte.of_Z (48 + n `mod` 10) :: acc)) as (l & -> & Hne & Hl & Hg).
    { rewrite Nat2Z.inj_succ, Z.pow_succ_r in Hn by lia.
      split; [apply Z.div_pos; lia|apply Z.div_lt_upper_bound; lia]. }
    { destruct fuel; [|lia]. cbn in Hn. lia. }
    exists (l ++ [byte.of_Z (48 + n `mod` 10)]). rewrite <-app_assoc. split; [done|].
    split; [by destruct l|]. split; [apply Forall_app; by repeat constructor|]. intros tail a.
    rewrite <-app_assoc, Hg. cbn [app digits]. rewrite Hv, length_app. f_equal. cbn [length].
    rewrite Nat2Z.inj_add, Z.pow_add_r by lia. pose proof (Z.div_mod n 10). cbn. lia.
Qed.

Lemma skip_space_digit c s : is_digit c = true → skip_space (c :: s) = c :: s ∧ sign_of (c :: s) = (1, c :: s).
Proof.
  unfold is_digit. intros [H1%Z.leb_le H2%Z.leb_le]%andb_true_iff. cbn [skip_space sign_of]. unfold isspace.
  rewrite (proj2 (Z.eqb_neq _ 32)), (proj2 (Z.leb_gt _ 13)), andb_false_r by lia. cbn [orb].
  by rewrite (proj2 (Z.eqb_neq _ 45)), (proj2 (Z.eqb_neq _ 43)) by lia.
Qed.

Lemma strtoul10_digits c s n :
  is_digit c = true → digits 10 (c :: s) 0 = n → 0 ≤ n < 2 ^ 64 → strtoul10 (c :: s) = n.
Proof.
  intros Hc Hd Hn. destruct (skip_space_digit c s Hc) as [Hk Hs].
  unfold strtoul10. rewrite Hk, Hs, Hd, (proj2 (Z.leb_gt _ n)) by lia. rewrite Z.mul_1_l. by apply u64_small.
Qed.

(** ** A connection *)

(** Operations that are under way for a request. *)
Inductive io_op := Resolving | Connecting | Sending (d : list byte) | Receiving (size : Z).

Record asio_rpc_client := mk_client {
  host_ : list byte;
  port_ : list byte;
  socket_open : bool;
  req_map_ : gmap Z (list byte);
  resp_map_ : gmap Z Z;
  (* operations under way, and the calls of [ecall_rpc_response] made *)
  ops : list (Z * io_op);
  reports : list (Z * option (list byte));
}.
#[global] Instance eta_client : Eta asio_rpc_client := λ c, mk_client
  (host_ c) (port_ c) (socket_open c) (req_map_ c) (resp_map_ c) (ops c) (reports c).

Definition new_client (host port : list byte) : asio_rpc_client :=
  mk_client host port false ∅ ∅ [] [].

#[local] Abbreviation C := asio_rpc_client.

Definition begin_op (uid : Z) (o : io_op) : M C unit := modify (update ops (λ l, l ++ [(uid, o)])).
Definition report (uid : Z) (r : option (list byte)) : M C unit :=
  modify (update reports (λ l, l ++ [(uid, r)])).

Definition handle_error (uid : Z) : M C unit :=
  report uid None ;;
  socket_open <~ false.

Definition query (uid : Z) : M C unit := begin_op uid Resolving.

(** [async_connect] opens the socket. *)
Definition connect (uid : Z) : M C unit :=
  socket_open <~ true ;;
  begin_op uid Connecting.

(** The size is written at once; [size_error] is what that gave. *)
Definition send_message (uid : Z) (size_error : bool) : M C unit :=
  c ← gets id;
  match req_map_ c !! uid with
  | None => faulting null_deref
  | Some req_buf =>
      if size_error then handle_error uid
      else begin_op uid (Sending (u32_bytes (u32 (Z.of_nat (length req_buf))) ++ req_buf))
  end.

Definition client_send (uid : Z) (message : list byte) (size_error : bool) : M C unit :=
  modify (update req_map_ <[uid := message]>) ;;
  c ← gets id;
  if negb (socket_open c) then query uid else send_message uid size_error.

(** What reading the size of an answer gives. *)
Inductive size_read := SizeEof | SizeError | Size (n : Z).

(** [do ... while (err == eof)]: at the end of the stream it reads again. *)
Fixpoint read_size (reads : list size_read) : outcome (option Z) :=
  match reads with
  | [] => Fault diverges
  | SizeEof :: reads' => read_size reads'
  | SizeError :: _ => Ok None
  | Size n :: _ => Ok (Some n)
  end.

(** [make_shared<bytes>(data_size, 0)] of a negative size throws. *)
Definition recv_message (uid : Z) (reads : list size_read) : M C unit :=
  r ← lift (read_size reads);
  match r with
  | None => handle_error uid
  | Some data_size =>
      if data_size <? 0 then throw logic_error
      else
        modify (update resp_map_ <[uid := data_size]>) ;;
        begin_op uid (Receiving data_size)
  end.

Definition request_sent (uid : Z) (ok : bool) (reads : list size_read) : M C unit :=
  if ok then recv_message uid reads
  else handle_error uid ;; socket_open <~ false.

Definition response_read (uid : Z) (r : option (list byte)) : M C unit :=
  match r with
  | Some d => report uid (Some d)
  | None => handle_error uid
  end ;;
  modify (update resp_map_ (delete uid)).

(** How an operation ends: with an error, or well and then what the calls the
    handler makes give. *)
Record completion := mk_completion {
  succeeded : bool;
  data : list byte;
  write_failed : bool;
  size_reads : list size_read;
}.

Definition op_done (uid : Z) (o : io_op) (r : completion) : M C unit :=
  match o with
  | Resolving => if succeeded r then connect uid else handle_error uid
  | Connecting => if succeeded r then send_message uid (write_failed r) else handle_error uid
  | Sending _ => request_sent uid (succeeded r) (size_reads r)
  | Receiving _ => response_read uid (if succeeded r then Some (data r) else None)
  end.

(** ** Every call is reported once *)

(** The life of a client: calls come in, outstanding operations complete in
    any order. *)
Inductive client_step (c : C) : C → Prop :=
  | step_send uid m we c' :
      uid ∉ dom (req_map_ c) → client_send uid m we c = (Ok tt, c') → client_step c c'
  | step_done l1 l2 uid o r c' :
      ops c = l1 ++ (uid, o) :: l2 →
      op_done uid o r (c <| ops := l1 ++ l2 |>) = (Ok tt, c') → client_step c c'.

(** Outstanding operations and reports of a request. *)
Definition tokens (uid : Z) (c : C) : nat :=
  length (filter (λ x, x.1 = uid) (ops c)) + length (filter (λ x, x.1 = uid) (reports c)).

Definition once (c : C) : Prop :=
  ∀ uid, tokens uid c = (if bool_decide (uid ∈ dom (req_map_ c)) then 1 else 0)%nat.

(** One more operation or report for [uid], nothing for another. *)
Definition adds (uid : Z) : relation C := λ c c',
  dom (req_map_ c') = dom (req_map_ c) ∧
  ∀ u, tokens u c' = (tokens u c + if bool_decide (u = uid) then 1 else 0)%nat.

Lemma filter_snoc {A} (l : list (Z * A)) uid u x :
  length (filter (λ x, x.1 = u) (l ++ [(uid, x)])) =
    (length (filter (λ x, x.1 = u) l) + if bool_decide (u = uid) then 1 else 0)%nat.
Proof.
  rewrite filter_app, length_app. f_equal. case_bool_decide as Hu.
  - rewrite filter_cons_True; [done|]. by symmetry.
  - rewrite filter_cons_False; [done|]. cbn. congruence.
Qed.

Lemma adds_op uid o c : adds uid c (c <| ops ::= λ l, l ++ [(uid, o)] |>).
Proof. split; [done|]. intros u. unfold tokens, update; cbn. rewrite filter_snoc. lia. Qed.

Lemma adds_report uid r c : adds uid c (c <| reports ::= λ l, l ++ [(uid, r)] |>).
Proof. split; [done|]. intros u. unfold tokens, update; cbn. rewrite filter_snoc. lia. Qed.

(** Members that carry no tokens. *)
Lemma adds_through uid c c1 c2 :
  adds uid c c1 → dom (req_map_ c2) = dom (req_map_ c1) → ops c2 = ops c1 → reports c2 = reports c1 →
  adds uid c c2.
Proof. intros [Hd Ht] H1 H2 H3. split; [congruence|]. intros u. unfold tokens. rewrite H2, H3. apply Ht. Qed.

Lemma handle_error_adds uid c c' : handle_error uid c = (Ok tt, c') → adds uid c c'.
Proof.
  unfold handle_error, report. rewrite bind_modify. unfold modify. intros [= <-].
  by apply (adds_through _ _ _ _ (adds_report uid None c)).
Qed.

Lemma send_message_adds uid we c c' : send_message uid we c = (Ok tt, c') → adds uid c c'.
Proof.
  unfold send_message. rewrite bind_get. destruct (req_map_ c !! uid); [|done].
  destruct we; [apply handle_error_adds|]. unfold begin_op, modify. intros [= <-]. apply adds_op.
Qed.

Lemma op_done_adds uid o r c c' : op_done uid o r c = (Ok tt, c') → adds uid c c'.
Proof.
  destruct o; cbn [op_done].
  - destruct (succeeded r); [|apply handle_error_adds]. unfold connect, begin_op. rewrite bind_modify.
    unfold modify. intros [= <-]. by apply (adds_through _ _ _ _ (adds_op uid Connecting c)).
  - destruct (succeeded r); [apply send_message_adds|apply handle_error_adds].
  - unfold request_sent. destruct (succeeded r).
    + unfold recv_message. intros (n & c1 & Hn & Hr)%bind_inv_ok. injection Hn as _ <-.
      destruct n as [n|]; [|by apply handle_error_adds]. destruct (n <? 0); [done|].
      revert Hr. rewrite bind_modify. unfold begin_op, modify. intros [= <-].
      by apply (adds_through _ _ _ _ (adds_op uid (Receiving n) c)).
    + intros ([] & c1 & Hn & Hr)%bind_inv_ok. apply handle_error_adds in Hn.
      revert Hr. unfold modify. intros [= <-]. by apply (adds_through _ _ _ _ Hn).
  - unfold response_read. intros ([] & c1 & Hn & Hr)%bind_inv_ok.
    revert Hr. unfold modify. intros [= <-].
    destruct (succeeded r); [injection Hn as <-|apply handle_error_adds in Hn].
    + by apply (adds_through _ _ _ _ (adds_report uid (Some (data r)) c)).
    + by apply (adds_through _ _ _ _ Hn).
Qed.

Lemma client_send_adds uid m we c c' :
  client_send uid m we c = (Ok tt, c') → adds uid (c <| req_map_ ::= <[uid := m]> |>) c'.
Proof.
  unfold client_send. rewrite bind_modify, bind_get. destruct (negb _); [|apply send_message_adds].
  unfold query, begin_op, modify. intros [= <-]. apply adds_op.
Qed.

Lemma tokens_remove uid o l1 l2 u c :
  ops c = l1 ++ (uid, o) :: l2 →
  tokens u c = (tokens u (c <| ops := l1 ++ l2 |>) + if bool_decide (u = uid) then 1 else 0)%nat.
Proof.
  intros Ho. unfold tokens, update; cbn. rewrite Ho, !filter_app, !length_app.
  case_bool_decide as Hu.
  - rewrite filter_cons_True by (by symmetry). cbn. lia.
  - rewrite filter_cons_False by (cbn; congruence). lia.
Qed.

Lemma client_step_once c c' : once c → client_step c c' → once c'.
Proof.
  intros Hc [uid m we c1 Hn Hs|l1 l2 uid o r c1 Ho Hd] u.
  - apply client_send_adds in Hs as [Hdom Ht]. rewrite Ht. specialize (Hc u).
    replace (tokens u (c <| req_map_ ::= <[uid := m]> |>)) with (tokens u c) by done.
    rewrite Hc, Hdom. unfold update; cbn. rewrite dom_insert_L.
    destruct (decide (u = uid)) as [->|Hu].
    + rewrite (bool_decide_eq_false_2 _ Hn), (bool_decide_eq_true_2 (uid = uid)) by done.
      rewrite bool_decide_eq_true_2 by set_solver. done.
    + rewrite (bool_decide_eq_false_2 (u = uid)), Nat.add_0_r by done.
      do 2 case_bool_decide; set_solver.
  - apply op_done_adds in Hd as [Hdom Ht]. rewrite Ht, Hdom, <-(tokens_remove uid o l1 l2 u c Ho).
    apply Hc.
Qed.

(** C21: no call is lost and none is answered twice.  In whatever order the
    operations of a connection complete and fail, every call the enclave made
    through it is either under way, in exactly one operation, and has not been
    reported, or has been reported exactly once, with the answer or the
    error. *)
Theorem calls_reported_once (host port : list byte) (c : asio_rpc_client) (uid : Z) :
  rtc client_step (new_client host port) c →
  (length (filter (λ x, x.1 = uid) (ops c)) + length (filter (λ x, x.1 = uid) (reports c)) =
   if bool_decide (uid ∈ dom (req_map_ c)) then 1 else 0)%nat.
Proof.
  intros Hr. assert (once (new_client host port)) as H0.
  { intros u. unfold new_client; cbn. by rewrite dom_empty_L. }
  assert (once c) as Hc; [|apply Hc].
  induction Hr as [c|c1 c2 c3 Hs _ IH]; [done|]. apply IH. by eapply client_step_once.
Qed.

Definition all_well : completion := mk_completion true [Byte.x2a] false [Size 1].

Lemma calls_reported_once_witness :
  ∃ c, (length (filter (λ x, x.1 = 7%Z) (ops c)) + length (filter (λ x, x.1 = 7%Z) (reports c)) = 1)%nat.
Proof.
  assert (∃ c, rtc client_step (new_client [] []) c ∧ 7 ∈ dom (req_map_ c)) as (c & Hc & H7).
  { eexists. split.
    - eapply rtc_l; [apply (step_send _ 7 [Byte.x01] false); [set_solver|vm_compute; reflexivity]|].
      eapply rtc_l; [apply (step_done _ [] [] 7 Resolving all_well); [done|vm_compute; reflexivity]|].
      eapply rtc_l; [eapply (step_done _ [] [] 7 _ all_well); [done|vm_compute; reflexivity]|].
      apply rtc_refl.
    - cbn. set_solver. }
  exists c. rewrite (calls_reported_once [] [] c 7 Hc), bool_decide_eq_true_2 by exact H7. reflexivity.
Defined.

(** The end of the stream holds the thread: when the other side has closed the
    connection, every read of the size reports the end again, and no number of
    reads ends the loop. *)
Lemma eof_never_ends uid n c : (recv_message uid (replicate n SizeEof) c).1 = Fault diverges.
Proof.
  unfold recv_message, mbind, M_bind, lift.
  assert (read_size (replicate n SizeEof) = Fault diverges) as -> by (induction n; done). done.
Qed.

(** ** The pool of connections *)

Record host_state := mk_host {
  rpc_client_id_counter : Z;
  rpc_client_pool : gmap Z asio_rpc_client;
}.
#[global] Instance eta_host : Eta host_state := λ h, mk_host (rpc_client_id_counter h) (rpc_client_pool h).

Definition ocall_rpc_client_create (endpoint : list byte) : M host_state Z :=
  match match_endpoint endpoint with
  | None => mret 0
  | Some (hostname, port) =>
      h ← gets id;
      let client_id := u32 (rpc_client_id_counter h + 1) in
      rpc_client_id_counter <~ client_id ;;
      modify (update rpc_client_pool <[client_id := new_client hostname port]>) ;;
      mret client_id
  end.

Definition ocall_rpc_client_close (client_uid : Z) : M host_state unit :=
  modify (update rpc_client_pool (delete client_uid)).

(** The lookup is not tested. *)
Definition ocall_send_rpc_request (client_uid : Z) (message : list byte) (request_uid : Z)
    (size_error : bool) : M host_state unit :=
  h ← gets id;
  match rpc_client_pool h !! client_uid with
  | None => faulting dangling_ref
  | Some c =>
      let '(r, c') := client_send request_uid message size_error c in
      modify (update rpc_client_pool <[client_uid := c']>) ;;
      lift r
  end.

(** ** Timers *)

(** [asio_task_scheduler_pool] holds timer objects; [waits] are the waits that
    have not completed, [callbacks] the calls of
    [ecall_timer_expired_callback]. *)
Record host_timers := mk_timers {
  asio_task_scheduler_pool : gmap Z nat;
  waits : gmap nat Z;
  next_timer : nat;
  callbacks : list (Z * bool);
}.
#[global] Instance eta_timers : Eta host_timers := λ t, mk_timers
  (asio_task_scheduler_pool t) (waits t) (next_timer t) (callbacks t).
Definition no_timers : host_timers := mk_timers ∅ ∅ 0 [].

(** A wait that is given up, by [cancel] or with its timer: the handler runs
    with an error. *)
Definition abort_wait (t : nat) : M host_timers unit :=
  h ← gets id;
  match waits h !! t with
  | None => mret tt
  | Some uid =>
      modify (update waits (delete t)) ;;
      modify (update callbacks (λ l, l ++ [(uid, false)]))
  end.

(** The timer that the new one replaces in the pool is destroyed. *)
Definition ocall_schedule_delayed_task (task_uid : Z) : M host_timers unit :=
  h ← gets id;
  let timer := next_timer h in
  next_timer <~ S timer ;;
  modify (update waits <[timer := task_uid]>) ;;
  modify (update asio_task_scheduler_pool <[task_uid := timer]>) ;;
  match asio_task_scheduler_pool h !! task_uid with
  | Some old => abort_wait old
  | None => mret tt
  end.

Definition ocall_cancel_delayed_task (task_uid : Z) : M host_timers unit :=
  h ← gets id;
  match asio_task_scheduler_pool h !! task_uid with
  | Some timer => abort_wait timer
  | None => mret tt
  end.

(** The time of a wait has come. *)
Definition timer_fires (t : nat) : M host_timers unit :=
  h ← gets id;
  match waits h !! t with
  | None => mret tt
  | Some uid =>
      modify (update waits (delete t)) ;;
      modify (update callbacks (λ l, l ++ [(uid, true)]))
  end.

Inductive timer_event := TeSchedule (uid : Z) | TeCancel (uid : Z) | TeFire (t : nat).

Definition timer_step (ev : timer_event) : M host_timers unit :=
  match ev with
  | TeSchedule uid => ocall_schedule_delayed_task uid
  | TeCancel uid => ocall_cancel_delayed_task uid
  | TeFire t => timer_fires t
  end.

(** A wait belongs to the timer the pool holds for its task. *)
Definition timers_ok (h : host_timers) : Prop :=
  (∀ t uid, waits h !! t = Some uid → asio_task_scheduler_pool h !! uid = Some t) ∧
  (∀ uid t, asio_task_scheduler_pool h !! uid = Some t → (t < next_timer h)%nat).

Definition drop_wait (t : nat) (b : bool) (h : host_timers) : host_timers :=
  match waits h !! t with
  | None => h
  | Some uid => h <| waits ::= delete t |> <| callbacks ::= λ l, l ++ [(uid, b)] |>
  end.

Lemma abort_wait_spec t h : abort_wait t h = (Ok tt, drop_wait t false h).
Proof. unfold abort_wait, drop_wait. rewrite bind_get. by destruct (waits h !! t). Qed.

Lemma timer_fires_spec t h : timer_fires t h = (Ok tt, drop_wait t true h).
Proof. unfold timer_fires, drop_wait. rewrite bind_get. by destruct (waits h !! t). Qed.

Lemma drop_wait_lookup t b h t' :
  waits (drop_wait t b h) !! t' = if bool_decide (t' = t) then None else waits h !! t'.
Proof.
  unfold drop_wait. case_bool_decide as Ht; [subst|]; destruct (waits h !! t) eqn:E; cbn; try done.
  - apply lookup_delete_eq.
  - by apply lookup_delete_ne.
Qed.

Lemma drop_wait_ok t b h : timers_ok h → timers_ok (drop_wait t b h).
Proof.
  intros [H1 H2]. split.
  - intros t' uid. rewrite drop_wait_lookup. case_bool_decide; [done|]. intros Hw%H1.
    unfold drop_wait. by destruct (waits h !! t).
  - unfold drop_wait. by destruct (waits h !! t).
Qed.

Lemma host_schedule_ok uid h : timers_ok h → timers_ok (ocall_schedule_delayed_task uid h).2.
Proof.
  intros [H1 H2]. unfold ocall_schedule_delayed_task. rewrite bind_get, !bind_modify.
  set (h1 := update asio_task_scheduler_pool _ _).
  assert (∀ uid t, asio_task_scheduler_pool h1 !! uid = Some t → (t < next_timer h1)%nat) as Hn.
  { intros u t. unfold h1, update; cbn. intros [[_ <-]|[_ Hu%H2]]%lookup_insert_Some; lia. }
  assert (∀ t u, waits h1 !! t = Some u → asio_task_scheduler_pool h !! uid ≠ Some t →
    asio_task_scheduler_pool h1 !! u = Some t) as Hw.
  { intros t u. unfold h1, update; cbn.
    intros [[<- <-]|[Ht Hu%H1]]%lookup_insert_Some Hne; [by rewrite lookup_insert_eq|].
    rewrite lookup_insert_ne; [done|]. intros ->. congruence. }
  destruct (asio_task_scheduler_pool h !! uid) as [old|] eqn:Eo.
  - rewrite abort_wait_spec. cbn [snd]. split.
    + intros t u. rewrite drop_wait_lookup. case_bool_decide; [done|]. intros Ht.
      assert (asio_task_scheduler_pool h1 !! u = Some t) by (apply Hw; congruence).
      unfold drop_wait. by destruct (waits h1 !! old).
    + unfold drop_wait. destruct (waits h1 !! old); exact Hn.
  - split; [|exact Hn]. intros t u Ht. apply Hw; [exact Ht|done].
Qed.

Lemma timer_step_ok ev h : timers_ok h → timers_ok (timer_step ev h).2.
Proof.
  intros Hh. destruct ev as [uid|uid|t]; cbn [timer_step].
  - by apply host_schedule_ok.
  - unfold ocall_cancel_delayed_task. rewrite bind_get.
    destruct (asio_task_scheduler_pool h !! uid); [|done]. rewrite abort_wait_spec. by apply drop_wait_ok.
  - rewrite timer_fires_spec. by apply drop_wait_ok.
Qed.

(** One timer per task.  Whatever the enclave schedules and cancels, and
    whatever fires in between, a task has at most one wait under way, the one
    of its last schedule; and none after it is cancelled, so nothing fires for
    it before it is scheduled again. *)
Theorem one_wait_per_task (evs : list timer_event) (uid : Z) :
  let h := foldl (λ h ev, (timer_step ev h).2) no_timers evs in
  (∀ t1 t2, waits h !! t1 = Some uid → waits h !! t2 = Some uid → t1 = t2) ∧
  (∀ t, waits (ocall_cancel_delayed_task uid h).2 !! t ≠ Some uid).
Proof.
  intros h. assert (timers_ok h) as [H1 H2].
  { unfold h. assert (timers_ok no_timers) as H0 by (by split; intros ? ?; cbn; rewrite lookup_empty).
    revert H0. generalize no_timers. induction evs as [|ev evs IH]; intros h0 H0; [done|].
    apply IH, timer_step_ok, H0. }
  split.
  - intros t1 t2 E1%H1 E2%H1. congruence.
  - intros t. unfold ocall_cancel_delayed_task. rewrite bind_get.
    destruct (asio_task_scheduler_pool h !! uid) as [old|] eqn:Eo.
    + rewrite abort_wait_spec. cbn [snd]. rewrite drop_wait_lookup. case_bool_decide; [done|].
      intros E%H1. congruence.
    + intros E%H1. congruence.
Qed.
