(* ===== verification/HostUtils.v ===== *)
(** * Helpers of the host

    src/raft_app/sgx_utils/sgx_exception.hpp (the error a failed SGX call
    becomes) and search_shared_library.cpp, and what the loggers of
    src/raft_enclave/port/logger_port.hxx let through. *)

From S2P Require Import Prelude Buffer Json Attestation.
From Stdlib Require String.
Import String.StringSyntax.

(** ** SGX errors *)

(** The statuses the text names; the numbers are the SDK's. *)
Inductive sgx_status :=
  | SGX_ERROR_UNEXPECTED | SGX_ERROR_INVALID_PARAMETER | SGX_ERROR_OUT_OF_MEMORY |
  SGX_ERROR_ENCLAVE_LOST | SGX_ERROR_INVALID_STATE | SGX_ERROR_FEATURE_NOT_SUPPORTED |
  SGX_ERROR_INVALID_FUNCTION | SGX_ERROR_OUT_OF_TCS | SGX_ERROR_ENCLAVE_CRASHED |
  SGX_ERROR_ECALL_NOT_ALLOWED | SGX_ERROR_OCALL_NOT_ALLOWED | SGX_ERROR_STACK_OVERRUN |
  SGX_ERROR_UNDEFINED_SYMBOL | SGX_ERROR_INVALID_ENCLAVE | SGX_ERROR_INVALID_ENCLAVE_ID |
  SGX_ERROR_INVALID_SIGNATURE | SGX_ERROR_NDEBUG_ENCLAVE | SGX_ERROR_OUT_OF_EPC |
  SGX_ERROR_NO_DEVICE | SGX_ERROR_MEMORY_MAP_CONFLICT | SGX_ERROR_INVALID_METADATA |
  SGX_ERROR_DEVICE_BUSY | SGX_ERROR_INVALID_VERSION | SGX_ERROR_MODE_INCOMPATIBLE |
  SGX_ERROR_ENCLAVE_FILE_ACCESS | SGX_ERROR_INVALID_MISC | SGX_ERROR_INVALID_LAUNCH_TOKEN |
  SGX_ERROR_MAC_MISMATCH | SGX_ERROR_INVALID_ATTRIBUTE | SGX_ERROR_INVALID_CPUSVN |
  SGX_ERROR_INVALID_ISVSVN | SGX_ERROR_INVALID_KEYNAME | SGX_ERROR_SERVICE_UNAVAILABLE |
  SGX_ERROR_SERVICE_TIMEOUT | SGX_ERROR_AE_INVALID_EPIDBLOB |
  SGX_ERROR_SERVICE_INVALID_PRIVILEGE | SGX_ERROR_EPID_MEMBER_REVOKED |
  SGX_ERROR_UPDATE_NEEDED | SGX_ERROR_NETWORK_FAILURE | SGX_ERROR_AE_SESSION_INVALID |
  SGX_ERROR_BUSY | SGX_ERROR_MC_NOT_FOUND | SGX_ERROR_MC_NO_ACCESS_RIGHT |
  SGX_ERROR_MC_USED_UP | SGX_ERROR_MC_OVER_QUOTA | SGX_ERROR_KDF_MISMATCH |
  SGX_ERROR_UNRECOGNIZED_PLATFORM | SGX_ERROR_UNSUPPORTED_CONFIG | SGX_ERROR_NO_PRIVILEGE |
  SGX_ERROR_PCL_ENCRYPTED | SGX_ERROR_PCL_NOT_ENCRYPTED | SGX_ERROR_PCL_MAC_MISMATCH |
  SGX_ERROR_PCL_SHA_MISMATCH | SGX_ERROR_PCL_GUID_MISMATCH | SGX_ERROR_FILE_BAD_STATUS |
  SGX_ERROR_FILE_NO_KEY_ID | SGX_ERROR_FILE_NAME_MISMATCH | SGX_ERROR_FILE_NOT_SGX_FILE |
  SGX_ERROR_FILE_CANT_OPEN_RECOVERY_FILE | SGX_ERROR_FILE_CANT_WRITE_RECOVERY_FILE |
  SGX_ERROR_FILE_RECOVERY_NEEDED | SGX_ERROR_FILE_FLUSH_FAILED | SGX_ERROR_FILE_CLOSE_FAILED
  | SGX_ERROR_UNSUPPORTED_ATT_KEY_ID | SGX_ERROR_ATT_KEY_CERTIFICATION_FAILURE |
  SGX_ERROR_ATT_KEY_UNINITIALIZED | SGX_ERROR_INVALID_ATT_KEY_CERT_DATA |
  SGX_ERROR_PLATFORM_CERT_UNAVAILABLE | SGX_INTERNAL_ERROR_ENCLAVE_CREATE_INTERRUPTED
  | sgx_other (code : Z).

Definition error_str (status : sgx_status) : list byte :=
  match status with
  | SGX_ERROR_UNEXPECTED => str "Unexpected error"
  | SGX_ERROR_INVALID_PARAMETER => str "The parameter is incorrect"
  | SGX_ERROR_OUT_OF_MEMORY => str "Not enough memory is available to complete this operation"
  | SGX_ERROR_ENCLAVE_LOST =>
      str "Enclave lost after power transition or used in child process created by linux:fork()"
  | SGX_ERROR_INVALID_STATE => str "SGX API is invoked in incorrect order or state"
  | SGX_ERROR_FEATURE_NOT_SUPPORTED => str "Feature is not supported on this platform"
  | SGX_ERROR_INVALID_FUNCTION => str "The ecall/ocall index is invalid"
  | SGX_ERROR_OUT_OF_TCS => str "The enclave is out of TCS"
  | SGX_ERROR_ENCLAVE_CRASHED => str "The enclave is crashed"
  | SGX_ERROR_ECALL_NOT_ALLOWED =>
      str "The ECALL is not allowed at this time, e.g. ecall is blocked by the dynamic entry table, or nested ecall is not allowed during initialization"
  | SGX_ERROR_OCALL_NOT_ALLOWED =>
      str "The OCALL is not allowed at this time, e.g. ocall is not allowed during exception handling"
  | SGX_ERROR_STACK_OVERRUN => str "The enclave is running out of stack"
  | SGX_ERROR_UNDEFINED_SYMBOL => str "The enclave image has undefined symbol."
  | SGX_ERROR_INVALID_ENCLAVE => str "The enclave image is not correct."
  | SGX_ERROR_INVALID_ENCLAVE_ID => str "The enclave id is invalid"
  | SGX_ERROR_INVALID_SIGNATURE => str "The signature is invalid"
  | SGX_ERROR_NDEBUG_ENCLAVE =>
      str "The enclave is signed as product enclave, and can not be created as debuggable enclave."
  | SGX_ERROR_OUT_OF_EPC => str "Not enough EPC is available to load the enclave"
  | SGX_ERROR_NO_DEVICE => str "Can't open SGX device"
  | SGX_ERROR_MEMORY_MAP_CONFLICT => str "Page mapping failed in driver"
  | SGX_ERROR_INVALID_METADATA => str "The metadata is incorrect."
  | SGX_ERROR_DEVICE_BUSY => str "Device is busy, mostly EINIT failed."
  | SGX_ERROR_INVALID_VERSION =>
      str "Metadata version is inconsistent between uRTS and sgx_sign or uRTS is incompatible with current platform."
  | SGX_ERROR_MODE_INCOMPATIBLE =>
      str "The target enclave 32/64 bit mode or sim/hw mode is incompatible with the mode of current uRTS."
  | SGX_ERROR_ENCLAVE_FILE_ACCESS => str "Can't open enclave file."
  | SGX_ERROR_INVALID_MISC => str "The MiscSelct/MiscMask settings are not correct"
  | SGX_ERROR_INVALID_LAUNCH_TOKEN => str "The launch token is not correct"
  | SGX_ERROR_MAC_MISMATCH =>
      str "Indicates verification error for reports, sealed datas, etc"
  | SGX_ERROR_INVALID_ATTRIBUTE => str "The enclave is not authorized"
  | SGX_ERROR_INVALID_CPUSVN => str "The cpu svn is beyond platform's cpu svn value"
  | SGX_ERROR_INVALID_ISVSVN => str "The isv svn is greater than the enclave's isv svn"
  | SGX_ERROR_INVALID_KEYNAME => str "The key name is an unsupported value"
  | SGX_ERROR_SERVICE_UNAVAILABLE =>
      str "Indicates aesm didn't respond or the requested service is not supported"
  | SGX_ERROR_SERVICE_TIMEOUT => str "The request to aesm timed out"
  | SGX_ERROR_AE_INVALID_EPIDBLOB => str "Indicates epid blob verification error"
  | SGX_ERROR_SERVICE_INVALID_PRIVILEGE => str "Enclave has no privilege to get launch token"
  | SGX_ERROR_EPID_MEMBER_REVOKED => str "The EPID group membership is revoked."
  | SGX_ERROR_UPDATE_NEEDED => str "SGX needs to be updated"
  | SGX_ERROR_NETWORK_FAILURE =>
      str "Network connecting or proxy setting issue is encountered"
  | SGX_ERROR_AE_SESSION_INVALID => str "Session is invalid or ended by server"
  | SGX_ERROR_BUSY => str "The requested service is temporarily not availabe"
  | SGX_ERROR_MC_NOT_FOUND => str "The Monotonic Counter doesn't exist or has been invalided"
  | SGX_ERROR_MC_NO_ACCESS_RIGHT =>
      str "Caller doesn't have the access right to specified VMC"
  | SGX_ERROR_MC_USED_UP => str "Monotonic counters are used out"
  | SGX_ERROR_MC_OVER_QUOTA => str "Monotonic counters exceeds quota limitation"
  | SGX_ERROR_KDF_MISMATCH => str "Key derivation function doesn't match during key exchange"
  | SGX_ERROR_UNRECOGNIZED_PLATFORM =>
      str "EPID Provisioning failed due to platform not recognized by backend serve"
  | SGX_ERROR_UNSUPPORTED_CONFIG =>
      str "The config for trigging EPID Provisiong or PSE Provisiong&LTP is invali"
  | SGX_ERROR_NO_PRIVILEGE => str "Not enough privilege to perform the operation"
  | SGX_ERROR_PCL_ENCRYPTED => str "trying to encrypt an already encrypted enclave"
  | SGX_ERROR_PCL_NOT_ENCRYPTED =>
      str "trying to load a plain enclave using sgx_create_encrypted_enclave"
  | SGX_ERROR_PCL_MAC_MISMATCH => str "section mac result does not match build time mac"
  | SGX_ERROR_PCL_SHA_MISMATCH =>
      str "Unsealed key MAC does not match MAC of key hardcoded in enclave binary"
  | SGX_ERROR_PCL_GUID_MISMATCH =>
      str "GUID in sealed blob does not match GUID hardcoded in enclave binary"
  | SGX_ERROR_FILE_BAD_STATUS =>
      str "The file is in bad status, run sgx_clearerr to try and fix it"
  | SGX_ERROR_FILE_NO_KEY_ID =>
      str "The Key ID field is all zeros, can't re-generate the encryption key"
  | SGX_ERROR_FILE_NAME_MISMATCH =>
      str "The current file name is different then the original file name (not allowed, substitution attack)"
  | SGX_ERROR_FILE_NOT_SGX_FILE => str "The file is not an SGX file"
  | SGX_ERROR_FILE_CANT_OPEN_RECOVERY_FILE =>
      str "A recovery file can't be opened, so flush operation can't continue (only used when no EXXX is returned) "
  | SGX_ERROR_FILE_CANT_WRITE_RECOVERY_FILE =>
      str "A recovery file can't be written, so flush operation can't continue (only used when no EXXX is returned) "
  | SGX_ERROR_FILE_RECOVERY_NEEDED =>
      str "When openeing the file, recovery is needed, but the recovery process failed"
  | SGX_ERROR_FILE_FLUSH_FAILED =>
      str "fflush operation (to disk) failed (only used when no EXXX is returned)"
  | SGX_ERROR_FILE_CLOSE_FAILED =>
      str "fclose operation (to disk) failed (only used when no EXXX is returned)"
  | SGX_ERROR_UNSUPPORTED_ATT_KEY_ID =>
      str "platform quoting infrastructure does not support the key"
  | SGX_ERROR_ATT_KEY_CERTIFICATION_FAILURE =>
      str "Failed to generate and certify the attestation key"
  | SGX_ERROR_ATT_KEY_UNINITIALIZED =>
      str "The platform quoting infrastructure does not have the attestation key available to generate quote"
  | SGX_ERROR_INVALID_ATT_KEY_CERT_DATA =>
      str "TThe data returned by the platform library's sgx_get_quote_config() is invalid"
  | SGX_ERROR_PLATFORM_CERT_UNAVAILABLE =>
      str "The PCK Cert for the platform is not available"
  | SGX_INTERNAL_ERROR_ENCLAVE_CREATE_INTERRUPTED =>
      str "The ioctl for enclave_create unexpectedly failed with EINTR. "
  | sgx_other _ => str "Unexpected SGX status"
  end.

(** [%04x] of a 32-bit number. *)
Fixpoint hex_digits (fuel : nat) (n : Z) (acc : list byte) : list byte :=
  match fuel with
  | O => acc
  | S fuel =>
      let d := n `mod` 16 in
      let acc := byte.of_Z (if d <? 10 then 48 + d else 87 + d) :: acc in
      if n <? 16 then acc else hex_digits fuel (n / 16) acc
  end.
Definition hex4 (n : Z) : list byte :=
  let s := hex_digits 8 (u32 n) [] in replicate (4 - length s) (byte.of_Z 48) ++ s.

Section sgx_error.
(** The SDK's number of a status. *)
Context (status_code : sgx_status → Z).

(** The constructor of [sgx_error] writes the text into [buffer[4096]]; a
    longer one is written past its end. *)
Definition sgx_error_text (where_ : list byte) (status : sgx_status) : list byte :=
  where_ ++ str ": " ++ hex4 (status_code status) ++ str " " ++ error_str status.
Definition sgx_error_info (where_ : list byte) (status : sgx_status) : outcome (list byte) :=
  let info := sgx_error_text where_ status in
  if (length info <? 4096)%nat then Ok info else Fault oob_access.

Lemma error_str_short status : (length (error_str status) ≤ 200)%nat.
Proof. destruct status; apply Nat.leb_le; vm_compute; reflexivity. Qed.

Lemma hex_digits_length fuel n acc : (length (hex_digits fuel n acc) ≤ fuel + length acc)%nat.
Proof.
  revert n acc. induction fuel as [|fuel IH]; intros n acc; cbn [hex_digits]; [cbn; lia|].
  destruct (n <? 16); [cbn; lia|]. etrans; [apply IH|]. cbn. lia.
Qed.

Lemma hex4_length n : (4 ≤ length (hex4 n) ≤ 8)%nat.
Proof.
  unfold hex4. pose proof (hex_digits_length 8 (u32 n) []) as Hl. cbn [length] in Hl.
  rewrite length_app, length_replicate. lia.
Qed.

(** The text of an error fits the buffer when the caller says where in at most
    3800 characters; the callers in the program use a few words. *)
Theorem sgx_error_fits (where_ : list byte) (status : sgx_status) :
  (length where_ ≤ 3800)%nat → sgx_error_info where_ status = Ok (sgx_error_text where_ status).
Proof.
  intros Hw. unfold sgx_error_info. rewrite (proj2 (Nat.ltb_lt _ _)); [done|].
  pose proof (error_str_short status). pose proof (hex4_length (status_code status)).
  unfold sgx_error_text. rewrite !length_app. cbn [length str]. change (length (str ": ")) with 2%nat.
  change (length (str " ")) with 1%nat. lia.
Qed.
End sgx_error.

(** ** Finding a library *)

Section search.
(** [stat] and [getenv]. *)
Context (check_file_path : list byte → bool) (getenv : list byte → option (list byte)).

Definition colon : byte := byte.of_Z 58.

(** [strtok(str, ":")]: the pieces between colons, empty ones left out. *)
Fixpoint strtok_from (s cur : list byte) : list (list byte) :=
  match s with
  | [] => if bool_decide (cur = []) then [] else [cur]
  | c :: s' =>
      if bool_decide (c = colon) then
        (if bool_decide (cur = []) then [] else [cur]) ++ strtok_from s' []
      else strtok_from s' (cur ++ [c])
  end.
Definition strtok (s : list byte) : list (list byte) := strtok_from s [].

Fixpoint first_file (filename : list byte) (dirs : list (list byte)) : list byte :=
  match dirs with
  | [] => []
  | p :: dirs' =>
      let full_path := p ++ str "/" ++ filename in
      if check_file_path full_path then full_path else first_file filename dirs'
  end.

Definition file_in_search_path (filename path : list byte) : list byte :=
  if bool_decide (path = []) then [] else first_file filename (strtok path).

Definition DEF_LIB_SEARCHPATH : list byte := str "/lib:/lib64:/usr/lib:/usr/lib64".

(** A [string] made from a null pointer. *)
Definition string_of (s : option (list byte)) : outcome (list byte) :=
  match s with Some s => Ok s | None => Fault null_deref end.

(** Every round of the loop searches LD_LIBRARY_PATH. *)
Fixpoint search_paths (filename : list byte) (paths : list (list byte)) : outcome (list byte) :=
  match paths with
  | [] => Ok filename
  | _ :: paths' =>
      ld ← string_of (getenv (str "LD_LIBRARY_PATH"));
      let result := file_in_search_path filename ld in
      if bool_decide (result = []) then search_paths filename paths' else Ok result
  end.

Definition search_shared_library (filename path : list byte) : outcome (list byte) :=
  let result := file_in_search_path filename path in
  if negb (bool_decide (path = [])) && negb (bool_decide (result = [])) then Ok result
  else if check_file_path filename then Ok filename
  else
    ld ← string_of (getenv (str "LD_LIBRARY_PATH"));
    run ← string_of (getenv (str "DT_RUNPATH"));
    search_paths filename [ld; run; DEF_LIB_SEARCHPATH].

Lemma first_file_found filename dirs :
  first_file filename dirs = [] ∨
  (check_file_path (first_file filename dirs) = true ∧
   ∃ p, p ∈ dirs ∧ first_file filename dirs = p ++ str "/" ++ filename).
Proof.
  induction dirs as [|p dirs IH]; cbn [first_file]; [by left|].
  destruct (check_file_path (p ++ str "/" ++ filename)) eqn:Hc.
  - right. split; [done|]. exists p. split; [by left|done].
  - destruct IH as [->|[Hf (q & Hq & E)]]; [by left|]. right. split; [done|]. exists q. split; [by right|done].
Qed.

(** The answer is a file that exists, or the name as given; the system
    directories are never searched: without LD_LIBRARY_PATH or DT_RUNPATH the
    search ends in undefined behaviour instead. *)
Theorem search_result (filename path r : list byte) :
  search_shared_library filename path = Ok r → check_file_path r = true ∨ r = filename.
Proof.
  assert (∀ p, file_in_search_path filename p = [] ∨
    check_file_path (file_in_search_path filename p) = true) as Hfile.
  { intros p. unfold file_in_search_path. case_bool_decide; [by left|].
    destruct (first_file_found filename (strtok p)) as [->|[? _]]; auto. }
  unfold search_shared_library. destruct (_ && _) eqn:E.
  - intros [= <-]. apply andb_true_iff in E as [_ E%negb_true_iff%bool_decide_eq_false].
    destruct (Hfile path); [done|by left].
  - destruct (check_file_path filename) eqn:Hf; [intros [= <-]; by left|].
    destruct (getenv (str "LD_LIBRARY_PATH")) as [ld|] eqn:Hld; [|done]. cbn [string_of mbind outcome_bind].
    destruct (string_of _) as [run| |]; [|done..]. cbn [mbind outcome_bind].
    generalize [ld; run; DEF_LIB_SEARCHPATH]. intros paths.
    induction paths as [|q paths IH]; cbn [search_paths]; [intros [= <-]; by right|].
    rewrite Hld. cbn [string_of mbind outcome_bind].
    destruct (bool_decide_reflect (file_in_search_path filename ld = [])) as [He|He]; [exact IH|].
    intros [= <-]. destruct (Hfile ld); [done|by left].
Qed.

Lemma search_needs_environment (filename : list byte) :
  check_file_path filename = false → getenv (str "LD_LIBRARY_PATH") = None →
  search_shared_library filename [] = Fault null_deref.
Proof.
  intros Hc Hg. unfold search_shared_library. rewrite bool_decide_eq_true_2 by done. cbn [negb andb].
  by rewrite Hc, Hg.
Qed.
End search.

(** ** Log lines of the enclave *)

Definition LOG_LEVEL_DEBUG : Z := 1.
Definition LOG_LEVEL_INFO : Z := 2.
Definition LOG_LEVEL_WARN : Z := 3.
Definition LOG_LEVEL_ERROR : Z := 4.

Section logger.
(** Whether the enclave is built with DEBUG. *)
Context (debug_build : bool).

(** The lines passed to [ocall_print_log]. *)
Definition log (level : Z) (message : list byte) (printed : list (Z * list byte)) :
    list (Z * list byte) :=
  if debug_build || (LOG_LEVEL_INFO <=? level) then printed ++ [(level, message)] else printed.

Definition debug := log LOG_LEVEL_DEBUG.
Definition info := log LOG_LEVEL_INFO.
Definition warn := log LOG_LEVEL_WARN.
Definition err := log LOG_LEVEL_ERROR.
End logger.

(** A release build prints everything but debug lines. *)
Lemma release_drops_debug line printed :
  debug false line printed = printed ∧ info false line printed = printed ++ [(2, line)] ∧
  warn false line printed = printed ++ [(3, line)] ∧ err false line printed = printed ++ [(4, line)].
Proof. done. Qed.
