(* ===== verification/Ias.v ===== *)
(** * The attestation service

    The host's client of Intel's attestation service:
    src/raft_app/system/ssl_client.hxx and intel_ias.hxx.  asio is the
    environment: [replies] lists how each operation on the connection ends. *)

From S2P Require Import Prelude Buffer Transport Json Attestation Host.
From Stdlib Require String.
Import String.StringSyntax.

(** What asio reports: error codes (0 is success), the bytes a read put into
    the buffer, and the memory behind them in the buffer's block when the
    header has arrived. *)
Record replies := mk_replies {
  on_verify_file : Z;
  on_resolve : Z;
  on_connect : Z;
  on_handshake : Z;
  on_write : Z;
  on_header : list byte * Z;
  slack : list byte;
  on_body : list (list byte * Z);
}.
#[global] Instance eta_replies : Eta replies := λ r, mk_replies (on_verify_file r) (on_resolve r)
  (on_connect r) (on_handshake r) (on_write r) (on_header r) (slack r) (on_body r).

(** [strstr] in memory that may lack a terminator: the offset of the first
    occurrence; both callers use the pointer without a test. *)
Definition strstr (memory pat : list byte) : outcome nat :=
  if negb (existsb (λ c, chr c =? 0) memory) then Fault oob_access
  else match find pat (c_str memory) with Some i => Ok i | None => Fault null_deref end.

(** [sscanf(s, "Content-Length: %lu\r\n", &size)]; [None]: nothing is stored. *)
Definition scan_length (s : list byte) : option Z :=
  let mark := str "Content-Length:" in
  if negb (bool_decide (mark `prefix_of` s)) then None
  else
    let s := skip_space (drop (length mark) s) in
    if bool_decide (head (sign_of s).2 ≫= digit 10 = None) then None else Some (strtoul10 s).

Module SslClient.

(** [size_] has no value until the header was read. *)
Record ssl_client := mk_ssl_client {
  error_ : Z;
  response_ : list byte;
  size_ : option Z;
  sent : list byte;
}.
#[global] Instance eta_ssl_client : Eta ssl_client := λ c, mk_ssl_client
  (error_ c) (response_ c) (size_ c) (sent c).
#[local] Abbreviation C := ssl_client.
Definition new_ssl_client : ssl_client := mk_ssl_client 0 [] None [].

Definition handle_error : M C unit :=
  c ← gets id;
  if error_ c =? 0 then mret tt else throw system_error.

Definition connect (e : Z) : M C unit := error_ <~ e ;; handle_error.
Definition handshake (e : Z) : M C unit := error_ <~ e ;; handle_error.

Definition send_request (data : list byte) (e : Z) : M C unit :=
  error_ <~ e ;; handle_error ;; modify (update sent (λ d, d ++ data)).

(** Reading [size_]. *)
Definition get_size : M C Z :=
  c ← gets id;
  match size_ c with Some n => mret n | None => faulting uninit_read end.

Definition read_more (r : list byte * Z) : M C unit :=
  modify (update response_ (λ d, d ++ r.1)) ;; error_ <~ r.2.

Definition recv_response_header (r : list byte * Z) (slack : list byte) : M C unit :=
  read_more r ;;
  handle_error ;;
  c ← gets id;
  let data := response_ c ++ slack in
  ptr ← lift (strstr data (str "Content-Length"));
  (match scan_length (drop ptr (c_str data)) with
   | Some n => size_ <~ Some n
   | None => mret tt
   end) ;;
  ptr ← lift (strstr data double_delimiter);
  n ← get_size;
  size_ <~ Some (u64 (n + Z.of_nat (ptr + length double_delimiter))).

(** Without a further read that completes, the thread waits. *)
Fixpoint recv_response_body (reads : list (list byte * Z)) : M C unit :=
  n ← get_size;
  c ← gets id;
  if (Z.of_nat (length (response_ c)) <? n) && (error_ c =? 0) then
    match reads with
    | [] => faulting diverges
    | r :: reads => read_more r ;; recv_response_body reads
    end
  else handle_error.

(** [string(resp, resp + size_)]. *)
Definition response_text : M C (list byte) :=
  n ← get_size;
  c ← gets id;
  if Z.of_nat (length (response_ c)) <? n then faulting oob_access
  else mret (take (Z.to_nat n) (response_ c)).

(** The size of the text is passed on as 32 bits. *)
Definition request_bytes (data : list byte) : list byte :=
  take (Z.to_nat (u32 (Z.of_nat (length data)))) data.

Definition request (data : list byte) (r : replies) : M C (list byte) :=
  connect (on_connect r) ;;
  handshake (on_handshake r) ;;
  send_request (request_bytes data) (on_write r) ;;
  recv_response_header (on_header r) (slack r) ;;
  recv_response_body (on_body r) ;;
  response_text.
End SslClient.

(** ** [IntelIAS] *)

Inductive ENVIRONMENT := DEVELOPMENT | PRODUCTION.

Definition host : list byte := str "api.trustedservices.intel.com".
Definition crlf : list byte := delimiter.

Definition report_path (env_ : ENVIRONMENT) : list byte :=
  match env_ with
  | PRODUCTION => str "/sgx/attestation/v3/report"
  | DEVELOPMENT => str "/sgx/dev/attestation/v3/report"
  end.

(** A double quote. *)
Definition dq : list byte := [Byte.x22].
Definition report_body (isvEnclaveQuote_b64 : list byte) : list byte :=
  str "{" ++ dq ++ str "isvEnclaveQuote" ++ dq ++ str ": " ++ dq ++ isvEnclaveQuote_b64 ++ dq ++ str "}".

Definition report_request (env_ : ENVIRONMENT) (key isvEnclaveQuote_b64 : list byte) : list byte :=
  let body := report_body isvEnclaveQuote_b64 in
  str "POST " ++ report_path env_ ++ str " HTTP/1.1" ++ crlf ++
  str "Host: " ++ host ++ crlf ++
  str "Content-Type: application/json" ++ crlf ++
  str "Ocp-Apim-Subscription-Key: " ++ key ++ crlf ++
  str "Content-Length: " ++ decimal (Z.of_nat (length body)) ++ crlf ++
  crlf ++ body ++ crlf.

(** The constructor of [IntelIAS] loads the certificates, that of [ssl_client]
    resolves the host. *)
Definition report (env_ : ENVIRONMENT) (key isvEnclaveQuote_b64 : list byte) (r : replies) :
    outcome (list byte) :=
  if negb (on_verify_file r =? 0) then Throw system_error
  else if negb (on_resolve r =? 0) then Throw system_error
  else (SslClient.request (report_request env_ key isvEnclaveQuote_b64) r SslClient.new_ssl_client).1.

(** ** Receiving a report

    The service answers with a header that announces the length of its body. *)

Definition announces (h : list byte) (n : Z) : Prop :=
  ∃ a rest, h = a ++ str "Content-Length: " ++ decimal n ++ rest ∧
    find (str "Content-Length") h = Some (length a) ∧ head rest ≫= digit 10 = None.

Record http_header (h : list byte) (n : Z) : Prop := {
  hdr_text : Forall (λ c, chr c ≠ 0) h;
  hdr_length : announces h n;
  hdr_end : find double_delimiter (h ++ double_delimiter) = Some (length h);
}.

Lemma c_str_app a b : Forall (λ c, chr c ≠ 0) a → c_str (a ++ b) = a ++ c_str b.
Proof.
  induction 1 as [|c a Hc _ IH]; [done|]. cbn [app c_str].
  rewrite (proj2 (Z.eqb_neq _ _) Hc). by rewrite IH.
Qed.

Lemma digits_stop s a : head s ≫= digit 10 = None → digits 10 s a = a.
Proof. destruct s as [|c s]; [done|]. cbn. by intros ->. Qed.

Lemma scan_length_decimal n tail :
  0 ≤ n < 2 ^ 64 → head tail ≫= digit 10 = None →
  scan_length (str "Content-Length: " ++ decimal n ++ tail) = Some n.
Proof.
  intros Hn Ht. unfold scan_length, decimal.
  destruct (decimal_digits_spec 20 n []) as (l & -> & Hne & Hd & Hg); [lia..|]. rewrite app_nil_r.
  specialize (Hg tail 0). rewrite (digits_stop tail) in Hg by done.
  destruct l as [|c l]; [done|]. apply Forall_cons in Hd as [Hc _].
  destruct (skip_space_digit c (l ++ tail) Hc) as [Hk Hs].
  change (str "Content-Length: ") with (str "Content-Length:" ++ [Byte.x20]). rewrite <-app_assoc.
  rewrite (bool_decide_eq_true_2 (_ `prefix_of` _)) by by eexists.
  rewrite drop_app_length. cbn [negb app].
  change (skip_space (Byte.x20 :: ?s)) with (skip_space s). rewrite Hk, Hs. cbn [snd head mbind option_bind].
  rewrite bool_decide_eq_false_2.
  - f_equal. apply strtoul10_digits; [done| |done]. cbn [app] in Hg. rewrite Hg. lia.
  - unfold is_digit in Hc. unfold digit. rewrite Hc.
    apply andb_true_iff in Hc as [H1%Z.leb_le H2%Z.leb_le]. by rewrite (proj2 (Z.ltb_lt _ 10)) by lia.
Qed.

(** What the two searches find in the buffer. *)
Lemma strstr_header pat h t slack i :
  Forall (λ c, chr c ≠ 0) h → Byte.x00 ∈ slack → find pat h = Some i →
  strstr (h ++ t ++ slack) pat = Ok i.
Proof.
  intros Hh Hs Hf. unfold strstr. rewrite (c_str_app h) by done.
  assert (existsb (λ c, chr c =? 0) (h ++ t ++ slack) = true) as ->.
  { apply existsb_exists. exists Byte.x00. split; [|done]. apply list_elem_of_In. set_solver. }
  cbn [negb]. by rewrite (find_app _ _ _ _ Hf).
Qed.

Section receive.
Import SslClient.

(** The client with these bytes in its buffer, and the size it waits for. *)
Definition received (d : list byte) (e : Z) (c : ssl_client) : ssl_client :=
  c <| response_ := d |> <| error_ := e |>.

Lemma handle_error_spec d e c :
  handle_error (received d e c) = (if e =? 0 then Ok tt else Throw system_error, received d e c).
Proof. unfold handle_error. rewrite bind_get. cbn. by destruct (e =? 0). Qed.

Lemma read_more_spec r c : read_more r c = (Ok tt, received (response_ c ++ r.1) r.2 c).
Proof. done. Qed.

Lemma response_text_spec c N :
  size_ c = Some N → N ≤ Z.of_nat (length (response_ c)) →
  (response_text c).1 = Ok (take (Z.to_nat N) (response_ c)).
Proof.
  intros Hn Hl. unfold response_text, get_size. rewrite bind_assoc, bind_get, Hn, bind_ret, bind_get.
  by rewrite (proj2 (Z.ltb_ge _ _) Hl).
Qed.

Lemma recv_header_spec h body t slack c :
  http_header h (Z.of_nat (length body)) → Z.of_nat (length (h ++ double_delimiter ++ body)) < 2 ^ 64 →
  Byte.x00 ∈ slack → response_ c = [] →
  recv_response_header (h ++ double_delimiter ++ t, 0) slack c =
    (Ok tt, received (h ++ double_delimiter ++ t) 0 c
              <| size_ := Some (Z.of_nat (length (h ++ double_delimiter ++ body))) |>).
Proof.
  intros Hh Hsz Hs Hc. destruct Hh as [Htxt (a & rest & Ea & Hfa & Hr) Hend].
  unfold recv_response_header. rewrite (bind_step _ _ _ _ _ (read_more_spec _ _)), Hc, app_nil_l.
  cbn [fst snd]. set (d := h ++ double_delimiter ++ t).
  rewrite (bind_step _ _ _ _ _ (handle_error_spec d 0 c)), bind_get. cbn [received response_ update].
  assert (Forall (λ x, chr x ≠ 0) (h ++ double_delimiter)) as Hd
    by (apply Forall_app; split; [done|by repeat constructor]).
  assert (strstr (d ++ slack) (str "Content-Length") = Ok (length a)) as ->.
  { unfold d. rewrite <-app_assoc. by apply strstr_header. }
  rewrite bind_lift.
  assert (scan_length (drop (length a) (c_str (d ++ slack))) = Some (Z.of_nat (length body))) as ->.
  { unfold d. rewrite <-app_assoc, c_str_app by done. rewrite Ea at 1.
    rewrite <-(app_assoc a), drop_app_length, <-!app_assoc. apply scan_length_decimal.
    - rewrite !length_app in Hsz. lia.
    - by destruct rest. }
  rewrite bind_modify.
  assert (strstr (d ++ slack) double_delimiter = Ok (length h)) as ->.
  { unfold d. rewrite app_assoc, <-app_assoc. by apply strstr_header. }
  rewrite bind_lift. unfold get_size. rewrite bind_assoc, bind_get.
  cbn [size_ update]. rewrite bind_ret. unfold modify, received, update; cbn. do 3 f_equal.
  rewrite !length_app in *. rewrite u64_small; unfold is_u64; cbn in *; lia.
Qed.

(** Reads that succeed, and what comes after them. *)
Definition reads (chunks : list (list byte)) (later : list (list byte * Z)) : list (list byte * Z) :=
  ((λ d, (d, 0)) <$> chunks) ++ later.

Lemma recv_body_spec chunks later c N :
  error_ c = 0 → size_ c = Some N →
  (N ≤ Z.of_nat (length (response_ c ++ concat chunks)) →
   ∃ d, d `prefix_of` response_ c ++ concat chunks ∧ N ≤ Z.of_nat (length d) ∧
     recv_response_body (reads chunks later) c = (Ok tt, received d 0 c)) ∧
  (Z.of_nat (length (response_ c ++ concat chunks)) < N → ∀ x e l, later = (x, e) :: l → e ≠ 0 →
   (recv_response_body (reads chunks later) c).1 = Throw system_error).
Proof.
  revert c. induction chunks as [|x chunks IH]; intros c He Hn.
  all: assert (received (response_ c) 0 c = c) as Hc by (destruct c; cbn in *; by subst).
  all: assert (get_size c = (Ok N, c)) as Hg by (unfold get_size; rewrite bind_get, Hn; done).
  - unfold reads. cbn [concat fmap list_fmap app]. rewrite app_nil_r. split.
    + intros Hl. exists (response_ c). split; [done|]. split; [done|].
      destruct later; cbn [recv_response_body]; rewrite (bind_step _ _ _ _ _ Hg), bind_get;
        rewrite (proj2 (Z.ltb_ge _ _) Hl); cbn [andb]; by rewrite <-Hc at 1; rewrite handle_error_spec.
    + intros Hl y e l -> Hne. cbn [recv_response_body]. rewrite (bind_step _ _ _ _ _ Hg), bind_get.
      rewrite (proj2 (Z.ltb_lt _ _) Hl), He. cbn [andb Z.eqb].
      rewrite (bind_step _ _ _ _ _ (read_more_spec _ _)). cbn [fst snd].
      set (c' := received _ e c). assert (get_size c' = (Ok N, c')) as Hg'
        by (unfold get_size; rewrite bind_get; cbn; by rewrite Hn).
      destruct l; cbn [recv_response_body]; rewrite (bind_step _ _ _ _ _ Hg'), bind_get;
        cbn [c' received error_ update]; rewrite (proj2 (Z.eqb_neq e 0) Hne), andb_false_r; unfold c';
        rewrite handle_error_spec, (proj2 (Z.eqb_neq e 0) Hne); done.
  - specialize (IH (received (response_ c ++ x) 0 c) eq_refl Hn). cbn [received response_ update] in IH.
    cbn [concat]. rewrite app_assoc. destruct IH as [IH1 IH2].
    unfold reads in *. cbn [fmap list_fmap app recv_response_body].
    rewrite (bind_step _ _ _ _ _ Hg), bind_get, He.
    destruct (Z.ltb_spec (Z.of_nat (length (response_ c))) N) as [Hl|Hl]; cbn [andb Z.eqb].
    + rewrite (bind_step _ _ _ _ _ (read_more_spec _ _)). cbn [fst snd]. split; [|done].
      intros Hle. destruct (IH1 Hle) as (d & Hp & Hd & E). by exists d.
    + split; [|rewrite !length_app; lia]. intros _. exists (response_ c).
      split; [rewrite <-app_assoc; by eexists|]. split; [done|].
      rewrite <-Hc at 1. by rewrite handle_error_spec, Hc.
Qed.
End receive.

(** A connection that was made and took the request. *)
Record connected (r : replies) : Prop := {
  conn_file : on_verify_file r = 0;
  conn_resolve : on_resolve r = 0;
  conn_connect : on_connect r = 0;
  conn_handshake : on_handshake r = 0;
  conn_write : on_write r = 0;
}.

(** A connection that fails before the header is there. *)
Definition refused (r : replies) : Prop :=
  on_verify_file r ≠ 0 ∨ on_resolve r ≠ 0 ∨ on_connect r ≠ 0 ∨ on_handshake r ≠ 0 ∨
  on_write r ≠ 0 ∨ (on_header r).2 ≠ 0.

Lemma recv_header_error x sl c :
  x.2 ≠ 0 → ∃ c', SslClient.recv_response_header x sl c = (Throw system_error, c').
Proof.
  intros He. unfold SslClient.recv_response_header. rewrite (bind_step _ _ _ _ _ (read_more_spec _ _)).
  set (d := SslClient.response_ c ++ x.1).
  assert (SslClient.handle_error (received d x.2 c) = (Throw system_error, received d x.2 c)) as Ht
    by (rewrite handle_error_spec; by rewrite (proj2 (Z.eqb_neq _ _) He)).
  rewrite (bind_throw _ _ _ _ _ Ht). by eexists.
Qed.

Lemma refused_throws env_ key quote_b64 r :
  refused r → report env_ key quote_b64 r = Throw system_error.
Proof.
  unfold refused, report, SslClient.request, SslClient.connect, SslClient.handshake, SslClient.send_request,
    SslClient.handle_error. intros Hr.
  destruct (Z.eqb_spec (on_verify_file r) 0) as [E1|]; [cbn [negb]|done].
  destruct (Z.eqb_spec (on_resolve r) 0) as [E2|]; [cbn [negb]|done].
  rewrite bind_assoc, bind_modify, bind_assoc, bind_get. cbn [SslClient.error_ update].
  destruct (Z.eqb_spec (on_connect r) 0) as [E3|]; [rewrite bind_ret|done].
  rewrite bind_assoc, bind_modify, bind_assoc, bind_get. cbn [SslClient.error_ update].
  destruct (Z.eqb_spec (on_handshake r) 0) as [E4|]; [rewrite bind_ret|done].
  rewrite bind_assoc, bind_modify, bind_assoc, bind_assoc, bind_get. cbn [SslClient.error_ update].
  destruct (Z.eqb_spec (on_write r) 0) as [E5|]; [rewrite bind_ret, bind_modify|done].
  match goal with |- ((_ ≫= _) ?c).1 = _ =>
    destruct (recv_header_error (on_header r) (slack r) c) as [c' Hc]; [naive_solver|] end.
  by rewrite (bind_throw _ _ _ _ _ Hc).
Qed.

(** The parts of [request] up to the body. *)
Lemma request_spec data r h body t :
  connected r → Byte.x00 ∈ slack r → http_header h (Z.of_nat (length body)) →
  Z.of_nat (length (h ++ double_delimiter ++ body)) < 2 ^ 64 →
  on_header r = (h ++ double_delimiter ++ t, 0) →
  let N := Z.of_nat (length (h ++ double_delimiter ++ body)) in
  let c := SslClient.mk_ssl_client 0 (h ++ double_delimiter ++ t) (Some N) (SslClient.request_bytes data) in
  SslClient.request data r SslClient.new_ssl_client =
    (SslClient.recv_response_body (on_body r) ;; SslClient.response_text) c.
Proof.
  intros [_ _ Hc Hk Hw] Hs Hh Hsz Ht N c. unfold SslClient.request, SslClient.connect, SslClient.handshake.
  rewrite Hc, Hk, Hw, Ht. unfold SslClient.send_request.
  set (c0 := SslClient.mk_ssl_client 0 [] None (SslClient.request_bytes data)).
  lazymatch goal with |- _ = ?rhs => change ((SslClient.recv_response_header
    (h ++ double_delimiter ++ t, 0) (slack r) ≫= λ _,
    SslClient.recv_response_body (on_body r) ;; SslClient.response_text) c0 = rhs) end.
  by rewrite (bind_step _ _ _ _ _ (recv_header_spec h body t (slack r) c0 Hh Hsz Hs eq_refl)).
Qed.

(** The header has arrived when [read_until] returns. *)
Lemma header_arrived h n got rest tail :
  http_header h n → got ++ rest = h ++ double_delimiter ++ tail → find double_delimiter got ≠ None →
  ∃ t, got = h ++ double_delimiter ++ t.
Proof.
  intros [_ _ Hend] E Hf. destruct (find double_delimiter got) as [i|] eqn:Hi; [|done].
  pose proof (find_app _ _ rest _ Hi) as Hi'. rewrite E, app_assoc, (find_app _ _ _ _ Hend) in Hi'.
  injection Hi' as <-. apply find_Some in Hi as [Hl [t Ht]]. exists t. rewrite <-Ht.
  rewrite <-(take_drop (length h) got) at 1. f_equal.
  apply (f_equal (take (length h))) in E. by rewrite take_app_le, take_app_length in E.
Qed.

(** C19: the report is received whole or not at all.  If the connection fails
    before the header is there, [report] throws.  If it does not, and the
    memory behind the received bytes holds a zero byte, where the searches in
    the header, which is not terminated, come to an end: however the network
    cuts the service's answer into reads, [report] returns exactly the header
    and the body it announces, whatever follows them; if a read fails before
    the last byte, it throws and returns nothing. *)
Theorem report_received_whole (env_ : ENVIRONMENT) (key quote_b64 h body got : list byte)
    (chunks : list (list byte)) (later : list (list byte * Z)) (r : replies) :
  (refused r → report env_ key quote_b64 r = Throw system_error) ∧
  (http_header h (Z.of_nat (length body)) →
   Z.of_nat (length (h ++ double_delimiter ++ body)) < 2 ^ 64 →
   connected r → Byte.x00 ∈ slack r → on_header r = (got, 0) → find double_delimiter got ≠ None →
   on_body r = reads chunks later →
   (∀ extra, got ++ concat chunks = (h ++ double_delimiter ++ body) ++ extra →
      report env_ key quote_b64 r = Ok (h ++ double_delimiter ++ body)) ∧
   (∀ missing x e l, (got ++ concat chunks) ++ missing = h ++ double_delimiter ++ body → missing ≠ [] →
      later = (x, e) :: l → e ≠ 0 → report env_ key quote_b64 r = Throw system_error)).
Proof.
  split; [apply refused_throws|].
  intros Hh Hsz Hr Hslack Hg Hf Hb. set (packet := h ++ double_delimiter ++ body) in *.
  assert (∀ d, report env_ key quote_b64 r = d ↔
    (SslClient.request (report_request env_ key quote_b64) r SslClient.new_ssl_client).1 = d) as Hrep.
  { intros d. unfold report. by rewrite (conn_file r Hr), (conn_resolve r Hr). }
  split.
  - intros extra E. apply Hrep. unfold packet in E. rewrite <-!app_assoc in E.
    destruct (header_arrived _ _ _ _ _ Hh E Hf) as [t ->].
    rewrite (request_spec _ r h body t Hr Hslack Hh Hsz Hg), Hb.
    match goal with |- context [SslClient.mk_ssl_client _ _ (Some ?N) _] => set (c := SslClient.mk_ssl_client _ _ _ _);
      destruct (recv_body_spec chunks later c N eq_refl eq_refl) as [Hok _] end.
    destruct Hok as (d & [z Hp] & Hd & Hrun).
    { cbn [c SslClient.response_]. rewrite E, !length_app. lia. }
    rewrite (bind_step _ _ _ _ _ Hrun), (response_text_spec (received d 0 c) _ eq_refl Hd).
    change (SslClient.response_ (received d 0 c)) with d.
    f_equal. rewrite Nat2Z.id. cbn [c SslClient.response_] in Hp.
    transitivity (take (length packet) (d ++ z)); [rewrite take_app_le; [done|unfold packet; lia]|].
    rewrite <-Hp, E. unfold packet. by rewrite !app_assoc, take_app_length.
  - intros missing x e l E Hm Hl He. apply Hrep. rewrite <-app_assoc in E.
    destruct (header_arrived _ _ _ _ _ Hh E Hf) as [t ->].
    rewrite (request_spec _ r h body t Hr Hslack Hh Hsz Hg), Hb.
    match goal with |- context [SslClient.mk_ssl_client _ _ (Some ?N) _] => set (c := SslClient.mk_ssl_client _ _ _ _);
      destruct (recv_body_spec chunks later c N eq_refl eq_refl) as [_ Hbad] end.
    assert ((SslClient.recv_response_body (reads chunks later) c).1 = Throw system_error) as Ht.
    { apply (Hbad) with x e l; [|done..]. cbn [c SslClient.response_]. fold packet. rewrite <-E.
      rewrite !length_app. destruct missing; [done|]. cbn [length]. lia. }
    destruct (SslClient.recv_response_body _ c) as [o c'] eqn:Eo. cbn in Ht. subst o.
    by rewrite (bind_throw _ _ _ _ _ Eo).
Qed.

(** Without a zero byte behind the header the search leaves the buffer. *)
Lemma unterminated_header got slack c :
  SslClient.response_ c = [] → ¬ existsb (λ b, chr b =? 0) (got ++ slack) →
  (SslClient.recv_response_header (got, 0) slack c).1 = Fault oob_access.
Proof.
  intros Hc Hz. unfold SslClient.recv_response_header.
  rewrite (bind_step _ _ _ _ _ (read_more_spec _ _)), Hc. cbn [fst snd app].
  rewrite (bind_step _ _ _ _ _ (handle_error_spec got 0 c)), bind_get.
  cbn [received SslClient.response_ update]. unfold strstr. by destruct (existsb _ (got ++ slack)).
Qed.

(** The sample report behind an HTTP header, in two reads. *)
Definition sample_header : list byte :=
  str "HTTP/1.1 200 OK" ++ crlf ++ str "Content-Length: 5" ++ crlf ++ str "Date: today".
Definition sample_replies : replies :=
  mk_replies 0 0 0 0 0 (sample_header ++ double_delimiter ++ str "re", 0) [Byte.x00]
    (reads [str "p"; str "ort!"] []).

Lemma report_received_whole_witness :
  report PRODUCTION (str "key") (str "quote") sample_replies =
    Ok (sample_header ++ double_delimiter ++ str "repor").
Proof.
  destruct (report_received_whole PRODUCTION (str "key") (str "quote") sample_header (str "repor")
    (sample_header ++ double_delimiter ++ str "re") [str "p"; str "ort!"] [] sample_replies) as [_ Hrec].
  destruct Hrec as [Hok _].
  - split.
    + repeat constructor; vm_compute; discriminate.
    + exists (str "HTTP/1.1 200 OK" ++ crlf), (crlf ++ str "Date: today").
      split; [reflexivity|]. split; vm_compute; reflexivity.
    + vm_compute. reflexivity.
  - vm_compute. reflexivity.
  - split; reflexivity.
  - apply list_elem_of_singleton. reflexivity.
  - reflexivity.
  - vm_compute. discriminate.
  - reflexivity.
  - apply (Hok (str "t!")). reflexivity.
Defined.
