(* ===== verification/Config.v ===== *)
(** * Server and cluster configuration

    [srv_config], [cluster_config], [srv_state], [srv_role] and [raft_params]
    (src/raft_enclave/raft/include), with the byte format the first three are
    kept and sent in.  [Serial] is the interface a serialisable class offers to
    the classes that embed it. *)

From S2P Require Import Prelude Buffer.

(** ** The interface of self-delimiting serialisation

    [encode] is the reference format; [serialize] and [deserialize] are the
    code.  The laws: serialising produces exactly the reference bytes, and
    deserialising anywhere inside a buffer reads them back and stops just
    after them. *)

Class Serial `{FreshMem} (T : Type) := {
  serialize : T → outcome buffer;
  deserialize : buffer → outcome (T * buffer);
}.

Class SerialLaws `{FreshMem} (T : Type) `{!Serial T} := {
  encode : T → list byte;
  wire_ok : T → Prop;
  serialize_spec x :
    wire_ok x → fits [] (encode x) → serialize x = Ok (buf_of (encode x));
  deserialize_spec x pre post :
    wire_ok x → fits pre (encode x ++ post) →
    deserialize (buf_at pre (encode x ++ post)) = Ok (x, buf_at (pre ++ encode x) post);
}.

(** ** Roles and parameters *)

Inductive srv_role := follower | candidate | leader.
#[global] Instance srv_role_eq_dec : EqDecision srv_role.
Proof. solve_decision. Defined.

Record raft_params := mk_raft_params {
  election_timeout_upper_bound_ : Z;
  election_timeout_lower_bound_ : Z;
  heart_beat_interval_ : Z;
  rpc_failure_backoff_ : Z;
  log_sync_batch_size_ : Z;
  log_sync_stop_gap_ : Z;
  snapshot_distance_ : Z;
  snapshot_block_size_ : Z;
  max_append_size_ : Z;
  reserved_log_items_ : Z;
}.
#[global] Instance eta_raft_params : Eta raft_params := λ p, mk_raft_params
  (election_timeout_upper_bound_ p) (election_timeout_lower_bound_ p)
  (heart_beat_interval_ p) (rpc_failure_backoff_ p) (log_sync_batch_size_ p)
  (log_sync_stop_gap_ p) (snapshot_distance_ p) (snapshot_block_size_ p)
  (max_append_size_ p) (reserved_log_items_ p).

(** The default constructor. *)
Definition default_params : raft_params := {|
  election_timeout_upper_bound_ := 300;
  election_timeout_lower_bound_ := 150;
  heart_beat_interval_ := 75;
  rpc_failure_backoff_ := 25;
  log_sync_batch_size_ := 1000;
  log_sync_stop_gap_ := 10;
  snapshot_distance_ := 0;
  snapshot_block_size_ := 0;
  max_append_size_ := 100;
  reserved_log_items_ := 10000;
|}.

Definition with_election_timeout_upper (v : Z) (p : raft_params) : raft_params :=
  p <| election_timeout_upper_bound_ := v |>.
Definition with_election_timeout_lower (v : Z) (p : raft_params) : raft_params :=
  p <| election_timeout_lower_bound_ := v |>.
Definition with_hb_interval (v : Z) (p : raft_params) : raft_params :=
  p <| heart_beat_interval_ := v |>.
Definition with_rpc_failure_backoff (v : Z) (p : raft_params) : raft_params :=
  p <| rpc_failure_backoff_ := v |>.
Definition with_max_append_size (v : Z) (p : raft_params) : raft_params :=
  p <| max_append_size_ := v |>.
Definition with_log_sync_batch_size (v : Z) (p : raft_params) : raft_params :=
  p <| log_sync_batch_size_ := v |>.
Definition with_log_sync_stopping_gap (v : Z) (p : raft_params) : raft_params :=
  p <| log_sync_stop_gap_ := v |>.
Definition with_snapshot_enabled (v : Z) (p : raft_params) : raft_params :=
  p <| snapshot_distance_ := v |>.
Definition with_snapshot_sync_block_size (v : Z) (p : raft_params) : raft_params :=
  p <| snapshot_block_size_ := v |>.
Definition with_reserved_log_items (v : Z) (p : raft_params) : raft_params :=
  p <| reserved_log_items_ := v |>.

(** C++ integer division truncates. *)
Definition max_hb_interval (p : raft_params) : Z :=
  Z.max (heart_beat_interval_ p)
        (i32 (election_timeout_lower_bound_ p - Z.quot (heart_beat_interval_ p) 2)).

(** The parameters [run_raft_instance] starts the enclave with. *)
Definition enclave_params : raft_params :=
  with_rpc_failure_backoff 50 (with_max_append_size 100 (with_hb_interval 100
    (with_election_timeout_upper 400 (with_election_timeout_lower 200 default_params)))).

(** ** Persistent server state *)

Record srv_state := mk_srv_state { term_ : Z; voted_for_ : Z }.
#[global] Instance eta_srv_state : Eta srv_state := λ s, mk_srv_state (term_ s) (voted_for_ s).
#[global] Instance srv_state_eq_dec : EqDecision srv_state.
Proof. solve_decision. Defined.

Definition set_term (t : Z) (s : srv_state) : srv_state := s <| term_ := t |>.
Definition set_voted_for (v : Z) (s : srv_state) : srv_state := s <| voted_for_ := v |>.
Definition inc_term (s : srv_state) : srv_state := s <| term_ := u64 (term_ s + 1) |>.

(** ** Configurations *)

Record srv_config := mk_srv_config { sc_id : Z; sc_endpoint : list byte }.
#[global] Instance srv_config_eq_dec : EqDecision srv_config.
Proof. solve_decision. Defined.

Record cluster_config := mk_cluster_config {
  log_idx_ : Z;
  prev_log_idx_ : Z;
  servers_ : list srv_config;
}.
#[global] Instance eta_cluster_config : Eta cluster_config := λ c,
  mk_cluster_config (log_idx_ c) (prev_log_idx_ c) (servers_ c).
#[global] Instance cluster_config_eq_dec : EqDecision cluster_config.
Proof. solve_decision. Defined.

Definition set_log_idx (i : Z) (c : cluster_config) : cluster_config :=
  c <| prev_log_idx_ := log_idx_ c |> <| log_idx_ := i |>.

Fixpoint find_server (l : list srv_config) (id : Z) : option srv_config :=
  match l with
  | [] => None
  | s :: l' => if sc_id s =? id then Some s else find_server l' id
  end.
Definition get_server (c : cluster_config) (id : Z) : option srv_config :=
  find_server (servers_ c) id.

(** ** Serialisation code *)

Section serialisation.
Context `{FreshMem}.

Definition srv_state_serialize (s : srv_state) : outcome buffer :=
  buf ← alloc (Z.of_nat (sz_ulong + sz_int));
  buf ← put_ulong (term_ s) buf;
  buf ← put_int (voted_for_ s) buf;
  Ok (pos_set 0 buf).

Definition srv_state_deserialize (buf : buffer) : outcome (srv_state * buffer) :=
  '(term, buf) ← get_ulong buf;
  '(voted_for, buf) ← get_int buf;
  Ok (mk_srv_state term voted_for, buf).

Definition srv_config_serialize (s : srv_config) : outcome buffer :=
  buf ← alloc (Z.of_nat (sz_int + length (sc_endpoint s) + 1));
  buf ← put_int (sc_id s) buf;
  buf ← put_str (sc_endpoint s) buf;
  Ok (pos_set 0 buf).

(** [srv_config(id, endpoint)] builds a [std::string] from the pointer
    [get_str] returns: undefined when that is [nilptr]. *)
Definition srv_config_deserialize (buf : buffer) : outcome (srv_config * buffer) :=
  '(id, buf) ← get_int buf;
  match get_str buf with
  | (Some endpoint, buf) => Ok (mk_srv_config id endpoint, buf)
  | (None, _) => Fault null_deref
  end.

Fixpoint serialize_servers (l : list srv_config) : outcome (list buffer) :=
  match l with
  | [] => Ok []
  | s :: l' => b ← srv_config_serialize s; bs ← serialize_servers l'; Ok (b :: bs)
  end.

Fixpoint put_all (srcs : list buffer) (buf : buffer) : outcome buffer :=
  match srcs with
  | [] => Ok buf
  | b :: srcs' => buf ← put_buf b buf; put_all srcs' buf
  end.

Definition cluster_config_serialize (c : cluster_config) : outcome buffer :=
  srv_buffs ← serialize_servers (servers_ c);
  let sz := foldl (λ sz b, sz + buf_size b) (Z.of_nat (2 * sz_ulong + sz_int)) srv_buffs in
  result ← alloc sz;
  result ← put_ulong (log_idx_ c) result;
  result ← put_ulong (prev_log_idx_ c) result;
  result ← put_int (i32 (Z.of_nat (length (servers_ c)))) result;
  result ← put_all srv_buffs result;
  Ok (pos_set 0 result).

Fixpoint deserialize_servers (cnt : nat) (buf : buffer) : outcome (list srv_config * buffer) :=
  match cnt with
  | O => Ok ([], buf)
  | S cnt' =>
      '(s, buf) ← srv_config_deserialize buf;
      '(l, buf) ← deserialize_servers cnt' buf;
      Ok (s :: l, buf)
  end.

Definition cluster_config_deserialize (buf : buffer) : outcome (cluster_config * buffer) :=
  '(log_idx, buf) ← get_ulong buf;
  '(prev_log_idx, buf) ← get_ulong buf;
  '(cnt, buf) ← get_int buf;
  '(l, buf) ← deserialize_servers (Z.to_nat cnt) buf;
  Ok (mk_cluster_config log_idx prev_log_idx l, buf).

#[global] Instance srv_state_serial : Serial srv_state :=
  { serialize := srv_state_serialize; deserialize := srv_state_deserialize }.
#[global] Instance srv_config_serial : Serial srv_config :=
  { serialize := srv_config_serialize; deserialize := srv_config_deserialize }.
#[global] Instance cluster_config_serial : Serial cluster_config :=
  { serialize := cluster_config_serialize; deserialize := cluster_config_deserialize }.
End serialisation.

(** ** Reference formats and the laws *)

Definition srv_state_encode (s : srv_state) : list byte :=
  ulong_bytes (term_ s) ++ int_bytes (voted_for_ s).
Definition srv_state_ok (s : srv_state) : Prop := is_u64 (term_ s) ∧ is_i32 (voted_for_ s).

Definition srv_config_encode (s : srv_config) : list byte :=
  int_bytes (sc_id s) ++ (sc_endpoint s ++ [Byte.x00]).

(** An endpoint the C string format can carry. *)
Definition srv_config_ok (s : srv_config) : Prop :=
  is_i32 (sc_id s) ∧ (Byte.x00 ∉ sc_endpoint s) ∧ sc_endpoint s ≠ [].

Definition servers_encode (l : list srv_config) : list byte := mjoin (srv_config_encode <$> l).

Definition cluster_config_encode (c : cluster_config) : list byte :=
  ulong_bytes (log_idx_ c) ++ ulong_bytes (prev_log_idx_ c) ++
  int_bytes (Z.of_nat (length (servers_ c))) ++ servers_encode (servers_ c).

Definition cluster_config_ok (c : cluster_config) : Prop :=
  is_u64 (log_idx_ c) ∧ is_u64 (prev_log_idx_ c) ∧
  Z.of_nat (length (servers_ c)) < 2 ^ 31 ∧ Forall srv_config_ok (servers_ c).

Section laws.
Context `{FreshMem}.
#[local] Obligation Tactic := idtac.

#[global] Program Instance srv_state_laws : SerialLaws srv_state :=
  {| encode := srv_state_encode; wire_ok := srv_state_ok |}.
Next Obligation.
  intros s _ Hf. unfold srv_state_encode in *. unfold serialize, srv_state_serial, srv_state_serialize. by serial.
Qed.
Next Obligation.
  intros s pre post [Ht Hv] Hf. unfold srv_state_encode in *. unfold deserialize, srv_state_serial, srv_state_deserialize. deserial.
  rewrite u64_small, i32_small, app_assoc by done. by destruct s.
Qed.

#[global] Program Instance srv_config_laws : SerialLaws srv_config :=
  {| encode := srv_config_encode; wire_ok := srv_config_ok |}.
Next Obligation.
  intros s _ Hf. unfold srv_config_encode in *. unfold serialize, srv_config_serial, srv_config_serialize. by serial.
Qed.
Next Obligation.
  intros s pre post (Hi & Hz & Hn) Hf. unfold srv_config_encode in *. unfold deserialize, srv_config_serial, srv_config_deserialize. rewrite <-app_assoc in *. deserial_step.
  rewrite get_str_at by done. rewrite i32_small, <-!app_assoc by done. by destruct s.
Qed.

Lemma srv_config_serialize_spec s :
  srv_config_ok s → fits [] (srv_config_encode s) →
  srv_config_serialize s = Ok (buf_of (srv_config_encode s)).
Proof. exact (serialize_spec s). Qed.

Lemma srv_config_deserialize_spec s pre post :
  srv_config_ok s → fits pre (srv_config_encode s ++ post) →
  srv_config_deserialize (buf_at pre (srv_config_encode s ++ post)) =
    Ok (s, buf_at (pre ++ srv_config_encode s) post).
Proof. exact (deserialize_spec s pre post). Qed.

Lemma servers_encode_cons s l :
  servers_encode (s :: l) = srv_config_encode s ++ servers_encode l.
Proof. done. Qed.

Lemma serialize_servers_spec l :
  Forall srv_config_ok l → fits [] (servers_encode l) →
  serialize_servers l = Ok ((λ s, buf_of (srv_config_encode s)) <$> l).
Proof.
  induction l as [|s l IH]; intros Hl Hf; [done|]. inversion_clear Hl.
  rewrite servers_encode_cons in Hf. cbn [serialize_servers].
  rewrite srv_config_serialize_spec by (try done; fits_tac).
  cbn [mbind outcome_bind]. rewrite IH by (try done; fits_tac). done.
Qed.

Lemma put_all_at l pre rest :
  fits pre rest → (length (servers_encode l) ≤ length rest)%nat →
  put_all ((λ s, buf_of (srv_config_encode s)) <$> l) (buf_at pre rest) =
    Ok (buf_at (pre ++ servers_encode l) (drop (length (servers_encode l)) rest)).
Proof.
  revert pre rest. induction l as [|s l IH]; intros pre rest Hf Hl.
  - cbn. by rewrite app_nil_r.
  - rewrite servers_encode_cons in *. cbn [fmap list_fmap put_all].
    serial_step.
    rewrite IH by fits_tac. by rewrite drop_drop, <-app_assoc, length_app.
Qed.

Lemma srv_buffs_size l n :
  foldl (λ sz b, sz + buf_size b) n ((λ s, buf_of (srv_config_encode s)) <$> l) =
    n + Z.of_nat (length (servers_encode l)).
Proof.
  revert n. induction l as [|s l IH]; intros n; [simpl; lia|].
  rewrite servers_encode_cons. cbn [fmap list_fmap foldl]. rewrite IH.
  unfold buf_size at 1; simpl. len.
Qed.

Lemma deserialize_servers_spec l pre post :
  Forall srv_config_ok l → fits pre (servers_encode l ++ post) →
  deserialize_servers (length l) (buf_at pre (servers_encode l ++ post)) =
    Ok (l, buf_at (pre ++ servers_encode l) post).
Proof.
  revert pre. induction l as [|s l IH]; intros pre Hl Hf.
  - cbn. by rewrite app_nil_r.
  - inversion_clear Hl. rewrite servers_encode_cons, <-!app_assoc in *.
    cbn [length deserialize_servers].
    rewrite srv_config_deserialize_spec by (try done; fits_tac). cbn [mbind outcome_bind].
    rewrite IH by (try done; fits_tac). cbn [mbind outcome_bind].
    by rewrite <-app_assoc.
Qed.

#[global] Program Instance cluster_config_laws : SerialLaws cluster_config :=
  {| encode := cluster_config_encode; wire_ok := cluster_config_ok |}.
Next Obligation.
  intros c (Hi & Hp & Hn & Hs) Hf. unfold cluster_config_encode in *. unfold serialize, cluster_config_serial, cluster_config_serialize. rewrite serialize_servers_spec by (try done; fits_tac).
  cbn [mbind outcome_bind]. rewrite srv_buffs_size. serial.
  rewrite put_all_at by fits_tac. cbn [mbind outcome_bind]. serial.
  rewrite i32_small by (unfold is_i32; lia). by rewrite <-!app_assoc.
Qed.
Next Obligation.
  intros c pre post (Hi & Hp & Hn & Hs) Hf. unfold cluster_config_encode in *. unfold deserialize, cluster_config_serial, cluster_config_deserialize. rewrite <-!app_assoc in *. deserial.
  rewrite i32_small, Nat2Z.id by (unfold is_i32; lia).
  rewrite deserialize_servers_spec by (try done; fits_tac). cbn [mbind outcome_bind].
  rewrite !u64_small, <-!app_assoc by done. by destruct c.
Qed.

Lemma srv_state_serialize_spec s :
  srv_state_ok s → srv_state_serialize s = Ok (buf_of (srv_state_encode s)).
Proof.
  intros Hs. pose proof (serialize_spec s) as Hx. apply Hx; [exact Hs|].
  change (fits [] (srv_state_encode s)). unfold fits, srv_state_encode. len.
Qed.

Lemma srv_state_deserialize_spec s pre post :
  srv_state_ok s → fits pre (srv_state_encode s ++ post) →
  srv_state_deserialize (buf_at pre (srv_state_encode s ++ post)) =
    Ok (s, buf_at (pre ++ srv_state_encode s) post).
Proof. exact (deserialize_spec s pre post). Qed.

Lemma cluster_config_serialize_spec c :
  cluster_config_ok c → fits [] (cluster_config_encode c) →
  cluster_config_serialize c = Ok (buf_of (cluster_config_encode c)).
Proof. exact (serialize_spec c). Qed.

Lemma cluster_config_deserialize_spec c pre post :
  cluster_config_ok c → fits pre (cluster_config_encode c ++ post) →
  cluster_config_deserialize (buf_at pre (cluster_config_encode c ++ post)) =
    Ok (c, buf_at (pre ++ cluster_config_encode c) post).
Proof. exact (deserialize_spec c pre post). Qed.

(** Whatever is serialised, the buffer that comes out is well formed. *)
Lemma alloc_ok sz b : alloc sz = Ok b → buf_ok b.
Proof.
  unfold alloc. destruct (Z.leb_spec 0x80000000 sz) as [|Hlt]; [done|]. intros [= <-].
  unfold buf_ok, buf_size. cbn. rewrite length_fresh. lia.
Qed.

Lemma put_raw_ok d b b' : buf_ok b → put_raw d b = Ok b' → buf_ok b'.
Proof. intros Hb Hp. pose proof (put_raw_in_bounds d b Hb) as Hi. by rewrite Hp in Hi. Qed.

Lemma put_all_ok bs b b' : Forall buf_ok bs → buf_ok b → put_all bs b = Ok b' → buf_ok b'.
Proof.
  intros Hbs. revert b. induction Hbs as [|x bs Hx Hbs IH]; intros b Hb Hp; cbn [put_all] in Hp.
  { by injection Hp as <-. }
  bind_inv Hp. eapply IH; [|done].
  pose proof (put_buf_in_bounds x b Hx Hb) as Hi. by rewrite E in Hi.
Qed.

Lemma rewind_ok b : buf_ok b → buf_ok (pos_set 0 b).
Proof.
  intros [Hp Hs]. unfold buf_ok, pos_set, update, buf_size in *. cbn.
  destruct (Z.ltb_spec (Z.of_nat (length (bytes b))) 0); lia.
Qed.

Lemma srv_config_serialize_ok c b : srv_config_serialize c = Ok b → buf_ok b.
Proof.
  intros Hs. unfold srv_config_serialize in Hs. do 3 bind_inv Hs. injection Hs as <-.
  eauto using rewind_ok, put_raw_ok, alloc_ok.
Qed.

Lemma serialize_servers_ok l bs : serialize_servers l = Ok bs → Forall buf_ok bs.
Proof.
  revert bs. induction l as [|c l IH]; intros bs Hs; cbn [serialize_servers] in Hs.
  { by injection Hs as <-. }
  do 2 bind_inv Hs. injection Hs as <-. constructor; eauto using srv_config_serialize_ok.
Qed.

Lemma cluster_config_serialize_ok c b : cluster_config_serialize c = Ok b → buf_ok b.
Proof.
  intros Hs. unfold cluster_config_serialize in Hs. do 6 bind_inv Hs. injection Hs as <-.
  eapply rewind_ok, put_all_ok; [by eapply serialize_servers_ok| |done].
  eauto using put_raw_ok, alloc_ok.
Qed.
End laws.
