(* ===== verification/Messages.v ===== *)
(** * Log entries, snapshots and messages

    [log_entry], [snapshot], [snapshot_sync_req], [req_msg] and [resp_msg]
    (src/raft_enclave/raft/include/contribution, .../rpc), their byte formats
    and the wire format of src/raft_enclave/port/msg_serializer.cxx. *)

From S2P Require Import Prelude Buffer Config.

(** ** Enumerations

    A byte cast to an enumeration may be none of the enumerators: those values
    are kept as [unknown_val] and [unknown_msg]. *)

Inductive log_val_type :=
  | app_log | conf | cluster_server | log_pack | snp_sync_req
  | unknown_val (z : Z).
#[global] Instance log_val_type_eq_dec : EqDecision log_val_type.
Proof. solve_decision. Defined.

Definition log_val_type_to_Z (t : log_val_type) : Z :=
  match t with
  | app_log => 1 | conf => 2 | cluster_server => 3 | log_pack => 4 | snp_sync_req => 5
  | unknown_val z => z
  end.

Definition log_val_type_of_Z (z : Z) : log_val_type :=
  match z with
  | 1 => app_log | 2 => conf | 3 => cluster_server | 4 => log_pack | 5 => snp_sync_req
  | _ => unknown_val z
  end.

Inductive msg_type :=
  | request_vote_request | request_vote_response
  | append_entries_request | append_entries_response
  | client_request
  | add_server_request | add_server_response
  | remove_server_request | remove_server_response
  | sync_log_request | sync_log_response
  | join_cluster_request | join_cluster_response
  | leave_cluster_request | leave_cluster_response
  | install_snapshot_request | install_snapshot_response
  | unknown_msg (z : Z).
#[global] Instance msg_type_eq_dec : EqDecision msg_type.
Proof. solve_decision. Defined.

Definition msg_type_to_Z (t : msg_type) : Z :=
  match t with
  | request_vote_request => 1 | request_vote_response => 2
  | append_entries_request => 3 | append_entries_response => 4
  | client_request => 5
  | add_server_request => 6 | add_server_response => 7
  | remove_server_request => 8 | remove_server_response => 9
  | sync_log_request => 10 | sync_log_response => 11
  | join_cluster_request => 12 | join_cluster_response => 13
  | leave_cluster_request => 14 | leave_cluster_response => 15
  | install_snapshot_request => 16 | install_snapshot_response => 17
  | unknown_msg z => z
  end.

Definition msg_type_of_Z (z : Z) : msg_type :=
  match z with
  | 1 => request_vote_request | 2 => request_vote_response
  | 3 => append_entries_request | 4 => append_entries_response
  | 5 => client_request
  | 6 => add_server_request | 7 => add_server_response
  | 8 => remove_server_request | 9 => remove_server_response
  | 10 => sync_log_request | 11 => sync_log_response
  | 12 => join_cluster_request | 13 => join_cluster_response
  | 14 => leave_cluster_request | 15 => leave_cluster_response
  | 16 => install_snapshot_request | 17 => install_snapshot_response
  | _ => unknown_msg z
  end.

(** ** Data *)

(** [le_buf] is never nil: every [log_entry] of the program is built from a
    buffer that was just allocated. *)
Record log_entry := mk_log_entry {
  le_term : Z;
  le_val_type : log_val_type;
  le_buf : buffer;
}.
#[global] Instance eta_log_entry : Eta log_entry := λ e,
  mk_log_entry (le_term e) (le_val_type e) (le_buf e).
#[global] Instance log_entry_eq_dec : EqDecision log_entry.
Proof. solve_decision. Defined.

Record snapshot := mk_snapshot {
  last_log_idx_ : Z;
  last_log_term_ : Z;
  snp_size_ : Z;
  last_config_ : cluster_config;
}.
#[global] Instance snapshot_eq_dec : EqDecision snapshot.
Proof. solve_decision. Defined.

Record snapshot_sync_ctx := mk_snapshot_sync_ctx { ctx_snapshot : snapshot; ctx_offset : Z }.
#[global] Instance eta_snapshot_sync_ctx : Eta snapshot_sync_ctx := λ c,
  mk_snapshot_sync_ctx (ctx_snapshot c) (ctx_offset c).

Record snapshot_sync_req := mk_snapshot_sync_req {
  ssr_snapshot : snapshot;
  ssr_offset : Z;
  ssr_data : buffer;
  ssr_done : bool;
}.

Record req_msg := mk_req_msg {
  req_term : Z;
  req_type : msg_type;
  req_src : Z;
  req_dst : Z;
  req_last_log_term : Z;
  req_last_log_idx : Z;
  req_commit_idx : Z;
  req_log_entries : list log_entry;
}.
#[global] Instance eta_req_msg : Eta req_msg := λ r, mk_req_msg
  (req_term r) (req_type r) (req_src r) (req_dst r) (req_last_log_term r)
  (req_last_log_idx r) (req_commit_idx r) (req_log_entries r).
#[global] Instance req_msg_eq_dec : EqDecision req_msg.
Proof. solve_decision. Defined.

Record resp_msg := mk_resp_msg {
  resp_term : Z;
  resp_type : msg_type;
  resp_src : Z;
  resp_dst : Z;
  resp_next_idx : Z;
  resp_accepted : bool;
}.
#[global] Instance eta_resp_msg : Eta resp_msg := λ r, mk_resp_msg
  (resp_term r) (resp_type r) (resp_src r) (resp_dst r) (resp_next_idx r) (resp_accepted r).
#[global] Instance resp_msg_eq_dec : EqDecision resp_msg.
Proof. solve_decision. Defined.

(** [resp_msg(term, type, src, dst)] with its default arguments, and [accept]. *)
Definition new_resp (term : Z) (t : msg_type) (src dst : Z) : resp_msg :=
  mk_resp_msg term t src dst 0 false.
Definition accept (next_idx : Z) (r : resp_msg) : resp_msg :=
  r <| resp_next_idx := next_idx |> <| resp_accepted := true |>.

(** ** Serialisation code *)

Section code.
Context `{FreshMem}.

(** [serialize] rewinds the entry's own buffer, returned as well. *)
Definition log_entry_serialize (e : log_entry) : outcome (buffer * log_entry) :=
  let e := e <| le_buf := pos_set 0 (le_buf e) |> in
  buf ← alloc (8 + 1 + buf_size (le_buf e));
  buf ← put_ulong (le_term e) buf;
  buf ← put_byte (log_val_type_to_Z (le_val_type e)) buf;
  buf ← put_buf (le_buf e) buf;
  Ok (pos_set 0 buf, e).

Definition log_entry_deserialize (buf : buffer) : outcome (log_entry * buffer) :=
  '(term, buf) ← get_ulong buf;
  '(t, buf) ← get_byte buf;
  data ← copy buf;
  Ok (mk_log_entry term (log_val_type_of_Z t) data, buf).

Definition term_in_buffer (buf : buffer) : outcome (Z * buffer) :=
  '(term, buf) ← get_ulong buf;
  Ok (term, pos_set 0 buf).

Definition snapshot_serialize (s : snapshot) : outcome buffer :=
  conf_buf ← cluster_config_serialize (last_config_ s);
  buf ← alloc (buf_size conf_buf + Z.of_nat (sz_ulong * 3));
  buf ← put_ulong (last_log_idx_ s) buf;
  buf ← put_ulong (last_log_term_ s) buf;
  buf ← put_ulong (snp_size_ s) buf;
  buf ← put_buf conf_buf buf;
  Ok (pos_set 0 buf).

Definition snapshot_deserialize (buf : buffer) : outcome (snapshot * buffer) :=
  '(last_log_idx, buf) ← get_ulong buf;
  '(last_log_term, buf) ← get_ulong buf;
  '(sz, buf) ← get_ulong buf;
  '(c, buf) ← cluster_config_deserialize buf;
  Ok (mk_snapshot last_log_idx last_log_term sz c, buf).

Definition sync_req_serialize (r : snapshot_sync_req) : outcome buffer :=
  snp_buf ← snapshot_serialize (ssr_snapshot r);
  buf ← alloc (buf_size snp_buf + Z.of_nat (sz_ulong + sz_byte) + avail (ssr_data r));
  buf ← put_buf snp_buf buf;
  buf ← put_ulong (ssr_offset r) buf;
  buf ← put_byte (if ssr_done r then 1 else 0) buf;
  buf ← put_buf (ssr_data r) buf;
  Ok (pos_set 0 buf).

Definition sync_req_deserialize (buf : buffer) : outcome snapshot_sync_req :=
  '(snp, buf) ← snapshot_deserialize buf;
  '(offset, buf) ← get_ulong buf;
  '(d, buf) ← get_byte buf;
  let done := d =? 1 in
  if buf_pos buf <? buf_size buf then
    b ← alloc (avail buf);
    src ← load (Z.to_nat (avail buf)) buf;
    b ← store src b;
    Ok (mk_snapshot_sync_req snp offset b done)
  else
    b ← alloc 0;
    Ok (mk_snapshot_sync_req snp offset b done).

(** ** The wire format (msg_serializer.cxx) *)

Definition RPC_REQ_HEADER_SIZE : Z := 3 * 4 + 8 * 4 + 1.
Definition RPC_RESP_HEADER_SIZE : Z := 4 * 2 + 8 * 2 + 2.

Definition serialize_entry (e : log_entry) : outcome buffer :=
  entry_buf ← alloc (u64 (8 + 1 + 4 + buf_size (le_buf e)));
  entry_buf ← put_ulong (le_term e) entry_buf;
  entry_buf ← put_byte (log_val_type_to_Z (le_val_type e)) entry_buf;
  entry_buf ← put_int (i32 (buf_size (le_buf e))) entry_buf;
  entry_buf ← put_buf (pos_set 0 (le_buf e)) entry_buf;
  Ok (pos_set 0 entry_buf).

(** The first loop: the entry buffers and [log_data_size], an [int32] sum. *)
Fixpoint serialize_entries (l : list log_entry) (log_data_size : Z) :
    outcome (list buffer * Z) :=
  match l with
  | [] => Ok ([], log_data_size)
  | e :: l' =>
      b ← serialize_entry e;
      '(bs, n) ← serialize_entries l' (i32 (log_data_size + i32 (buf_size b)));
      Ok (b :: bs, n)
  end.

Definition serialize_req (r : req_msg) : outcome buffer :=
  '(log_entry_bufs, log_data_size) ← serialize_entries (req_log_entries r) 0;
  req_buf ← alloc (u64 (i32 (RPC_REQ_HEADER_SIZE + log_data_size)));
  req_buf ← put_byte (msg_type_to_Z (req_type r)) req_buf;
  req_buf ← put_int (req_src r) req_buf;
  req_buf ← put_int (req_dst r) req_buf;
  req_buf ← put_ulong (req_term r) req_buf;
  req_buf ← put_ulong (req_last_log_term r) req_buf;
  req_buf ← put_ulong (req_last_log_idx r) req_buf;
  req_buf ← put_ulong (req_commit_idx r) req_buf;
  req_buf ← put_int log_data_size req_buf;
  req_buf ← put_all log_entry_bufs req_buf;
  Ok (pos_set 0 req_buf).

(** [while (log_data->size() > log_data->pos())], with fuel: a round reads at
    least thirteen bytes, so the size of the buffer is enough
    ([deserialize_entries_terminates]). *)
Fixpoint deserialize_entries (fuel : nat) (log_data : buffer) : outcome (list log_entry) :=
  if buf_pos log_data <? buf_size log_data then
    match fuel with
    | O => Fault diverges
    | S fuel' =>
        '(log_term, log_data) ← get_ulong log_data;
        '(val_type, log_data) ← get_byte log_data;
        '(val_size, log_data) ← get_int log_data;
        buf ← alloc (u64 val_size);
        '(buf, log_data) ← get_buf_into buf log_data;
        l ← deserialize_entries fuel' log_data;
        Ok (mk_log_entry log_term (log_val_type_of_Z val_type) buf :: l)
    end
  else Ok [].

Definition deserialize_req (header : buffer) (log_data : option buffer) : outcome req_msg :=
  let header := pos_set 0 header in
  '(t, header) ← get_byte header;
  '(src, header) ← get_int header;
  '(dst, header) ← get_int header;
  '(term, header) ← get_ulong header;
  '(last_term, header) ← get_ulong header;
  '(last_idx, header) ← get_ulong header;
  '(commit_idx, header) ← get_ulong header;
  '(data_size, header) ← get_int header;
  entries ←
    match log_data with
    | Some log_data =>
        if 0 <? data_size
        then deserialize_entries (length (bytes log_data)) (pos_set 0 log_data)
        else Ok []
    | None => Ok []
    end;
  Ok (mk_req_msg term (msg_type_of_Z t) src dst last_term last_idx commit_idx entries).

Definition serialize_resp (r : resp_msg) : outcome buffer :=
  resp_buf ← alloc RPC_RESP_HEADER_SIZE;
  resp_buf ← put_byte (msg_type_to_Z (resp_type r)) resp_buf;
  resp_buf ← put_int (resp_src r) resp_buf;
  resp_buf ← put_int (resp_dst r) resp_buf;
  resp_buf ← put_ulong (resp_term r) resp_buf;
  resp_buf ← put_ulong (resp_next_idx r) resp_buf;
  resp_buf ← put_byte (if resp_accepted r then 1 else 0) resp_buf;
  Ok (pos_set 0 resp_buf).

Definition deserialize_resp (resp_buf : buffer) : outcome resp_msg :=
  let resp_buf := pos_set 0 resp_buf in
  '(msg_type_val, resp_buf) ← get_byte resp_buf;
  '(src, resp_buf) ← get_int resp_buf;
  '(dst, resp_buf) ← get_int resp_buf;
  '(term, resp_buf) ← get_ulong resp_buf;
  '(nxt_idx, resp_buf) ← get_ulong resp_buf;
  '(accepted_val, resp_buf) ← get_byte resp_buf;
  Ok (mk_resp_msg term (msg_type_of_Z msg_type_val) src dst nxt_idx (accepted_val =? 1)).
End code.

(** ** Reference formats *)

Definition val_type_ok (t : log_val_type) : Prop :=
  0 ≤ log_val_type_to_Z t < 2 ^ 8 ∧ log_val_type_of_Z (log_val_type_to_Z t) = t.
Definition msg_type_ok (t : msg_type) : Prop :=
  0 ≤ msg_type_to_Z t < 2 ^ 8 ∧ msg_type_of_Z (msg_type_to_Z t) = t.

(** The entry with its buffer read from the start. *)
Definition rewound (e : log_entry) : log_entry := e <| le_buf := buf_of (bytes (le_buf e)) |>.

Definition entry_ok (e : log_entry) : Prop := is_u64 (le_term e) ∧ val_type_ok (le_val_type e).

Definition log_entry_encode (e : log_entry) : list byte :=
  ulong_bytes (le_term e) ++ byte_bytes (log_val_type_to_Z (le_val_type e)) ++ bytes (le_buf e).

Definition wire_entry_encode (e : log_entry) : list byte :=
  ulong_bytes (le_term e) ++ byte_bytes (log_val_type_to_Z (le_val_type e)) ++
  int_bytes (buf_size (le_buf e)) ++ bytes (le_buf e).

Definition wire_entries_encode (l : list log_entry) : list byte :=
  mjoin (wire_entry_encode <$> l).

Definition snapshot_encode (s : snapshot) : list byte :=
  ulong_bytes (last_log_idx_ s) ++ ulong_bytes (last_log_term_ s) ++
  ulong_bytes (snp_size_ s) ++ cluster_config_encode (last_config_ s).

Definition snapshot_ok (s : snapshot) : Prop :=
  is_u64 (last_log_idx_ s) ∧ is_u64 (last_log_term_ s) ∧ is_u64 (snp_size_ s) ∧
  cluster_config_ok (last_config_ s).

Definition sync_req_encode (r : snapshot_sync_req) : list byte :=
  snapshot_encode (ssr_snapshot r) ++ ulong_bytes (ssr_offset r) ++
  byte_bytes (if ssr_done r then 1 else 0) ++ drop (bpos (ssr_data r)) (bytes (ssr_data r)).

Definition req_header_encode (r : req_msg) : list byte :=
  byte_bytes (msg_type_to_Z (req_type r)) ++ int_bytes (req_src r) ++ int_bytes (req_dst r) ++
  ulong_bytes (req_term r) ++ ulong_bytes (req_last_log_term r) ++
  ulong_bytes (req_last_log_idx r) ++ ulong_bytes (req_commit_idx r) ++
  int_bytes (Z.of_nat (length (wire_entries_encode (req_log_entries r)))).

(** The fields fit their types and the whole message fits a buffer. *)
Definition req_ok (r : req_msg) : Prop :=
  msg_type_ok (req_type r) ∧ is_i32 (req_src r) ∧ is_i32 (req_dst r) ∧
  is_u64 (req_term r) ∧ is_u64 (req_last_log_term r) ∧ is_u64 (req_last_log_idx r) ∧
  is_u64 (req_commit_idx r) ∧ Forall entry_ok (req_log_entries r) ∧
  RPC_REQ_HEADER_SIZE + Z.of_nat (length (wire_entries_encode (req_log_entries r))) < 2 ^ 31.

Definition resp_encode (r : resp_msg) : list byte :=
  byte_bytes (msg_type_to_Z (resp_type r)) ++ int_bytes (resp_src r) ++
  int_bytes (resp_dst r) ++ ulong_bytes (resp_term r) ++ ulong_bytes (resp_next_idx r) ++
  byte_bytes (if resp_accepted r then 1 else 0).

Definition resp_ok (r : resp_msg) : Prop :=
  msg_type_ok (resp_type r) ∧ is_i32 (resp_src r) ∧ is_i32 (resp_dst r) ∧
  is_u64 (resp_term r) ∧ is_u64 (resp_next_idx r).

Lemma length_byte_bytes v : length (byte_bytes v) = 1%nat.
Proof. done. Qed.
#[export] Hint Rewrite length_byte_bytes : len.

Lemma pos_set_0 b : pos_set 0 b = buf_of (bytes b).
Proof.
  unfold pos_set, buf_of, buf_at, update; simpl. unfold buf_size.
  destruct (Z.ltb_spec (Z.of_nat (length (bytes b))) 0); [lia|done].
Qed.

Section laws.
Context `{FreshMem}.
#[local] Obligation Tactic := idtac.

Lemma log_entry_serialize_spec e :
  fits [] (log_entry_encode e) →
  log_entry_serialize e = Ok (buf_of (log_entry_encode e), rewound e).
Proof.
  unfold log_entry_encode. intros Hf. unfold log_entry_serialize, rewound.
  cbn [le_buf le_term le_val_type update]. rewrite pos_set_0. unfold buf_size.
  cbn [bytes buf_of buf_at]. rewrite app_nil_l. serial. by rewrite <-!app_assoc.
Qed.

Lemma log_entry_deserialize_spec e :
  entry_ok e → fits [] (log_entry_encode e) →
  fst <$> log_entry_deserialize (buf_of (log_entry_encode e)) = Ok (rewound e).
Proof.
  intros (Ht & Hv & Hv') Hf. unfold log_entry_encode in *.
  unfold log_entry_deserialize, buf_of. deserial.
  rewrite copy_spec; cycle 1.
  { split; unfold buf_size, buf_at; simpl; fits_tac. }
  cbn. rewrite u64_small, Z.mod_small, Hv' by done.
  by rewrite drop_app_length.
Qed.

#[global] Instance snapshot_serial : Serial snapshot :=
  { serialize := snapshot_serialize; deserialize := snapshot_deserialize }.

#[global] Program Instance snapshot_laws : SerialLaws snapshot :=
  {| encode := snapshot_encode; wire_ok := snapshot_ok |}.
Next Obligation.
  intros s (H1 & H2 & H3 & Hc) Hf. unfold snapshot_encode in *.
  unfold serialize, snapshot_serial, snapshot_serialize.
  rewrite cluster_config_serialize_spec by (try done; fits_tac).
  cbn [mbind outcome_bind]. unfold buf_size. cbn [bytes buf_of buf_at app]. serial.
  by rewrite <-!app_assoc.
Qed.
Next Obligation.
  intros s pre post (H1 & H2 & H3 & Hc) Hf. unfold snapshot_encode in *.
  unfold deserialize, snapshot_serial, snapshot_deserialize. rewrite <-!app_assoc in *. deserial.
  rewrite cluster_config_deserialize_spec by (try done; fits_tac). cbn [mbind outcome_bind].
  rewrite !u64_small, <-!app_assoc by done. by destruct s.
Qed.

Lemma snapshot_serialize_spec s :
  snapshot_ok s → fits [] (snapshot_encode s) →
  snapshot_serialize s = Ok (buf_of (snapshot_encode s)).
Proof. exact (serialize_spec s). Qed.

Lemma snapshot_deserialize_spec s pre post :
  snapshot_ok s → fits pre (snapshot_encode s ++ post) →
  snapshot_deserialize (buf_at pre (snapshot_encode s ++ post)) =
    Ok (s, buf_at (pre ++ snapshot_encode s) post).
Proof. exact (deserialize_spec s pre post). Qed.

Lemma sync_req_serialize_spec r :
  snapshot_ok (ssr_snapshot r) → buf_ok (ssr_data r) → fits [] (sync_req_encode r) →
  sync_req_serialize r = Ok (buf_of (sync_req_encode r)).
Proof.
  intros Hs Hd Hf. unfold sync_req_encode in *. set (d := drop _ _) in *.
  set (dpre := take (bpos (ssr_data r)) (bytes (ssr_data r))).
  assert (ssr_data r = buf_at dpre d) as E by by apply buf_ok_at.
  assert (fits dpre d) as Hdd.
  { destruct Hd as [_ Hd]. unfold fits, dpre, d. by rewrite take_drop. }
  clearbody d dpre. unfold sync_req_serialize. rewrite !E.
  rewrite snapshot_serialize_spec by (try done; fits_tac). cbn [mbind outcome_bind].
  rewrite avail_at by (unfold fits in Hdd; lia). unfold buf_size.
  cbn [bytes buf_of buf_at app].
  serial. rewrite put_buf_at by fits_tac. cbn [mbind outcome_bind]. serial.
  by rewrite <-!app_assoc.
Qed.

Lemma sync_req_deserialize_spec r :
  snapshot_ok (ssr_snapshot r) → is_u64 (ssr_offset r) → fits [] (sync_req_encode r) →
  sync_req_deserialize (buf_of (sync_req_encode r)) =
    Ok (mk_snapshot_sync_req (ssr_snapshot r) (ssr_offset r)
          (buf_of (drop (bpos (ssr_data r)) (bytes (ssr_data r)))) (ssr_done r)).
Proof.
  intros Hs Ho Hf. unfold sync_req_encode in *. set (d := drop _ _) in *.
  unfold sync_req_deserialize, buf_of.
  rewrite snapshot_deserialize_spec by (try done; fits_tac). cbn [mbind outcome_bind].
  rewrite <-(app_nil_r d) in *. deserial. rewrite u64_small by done.
  assert (((if ssr_done r then 1 else 0) `mod` 2 ^ 8 =? 1) = ssr_done r) as ->
    by by destruct (ssr_done r).
  set (pre := _ ++ byte_bytes _). rewrite !app_nil_r in *.
  assert (fits pre d) as Hp by (unfold pre; fits_tac).
  unfold fits in Hp. rewrite avail_at by lia.
  unfold buf_pos, buf_size. cbn [bytes bpos buf_at].
  destruct (Z.ltb_spec (Z.of_nat (length pre)) (Z.of_nat (length (pre ++ d)))).
  - rewrite alloc_at by (len). rewrite Nat2Z.id. cbn [mbind outcome_bind].
    rewrite load_at by done. cbn [mbind outcome_bind]. rewrite take_ge by lia.
    rewrite store_at by len. cbn [mbind outcome_bind].
    rewrite drop_ge by len. by rewrite app_nil_r.
  - destruct d; [|len]. rewrite alloc_at by lia. done.
Qed.

(** *** Entries on the wire *)

Lemma wire_entries_cons e l :
  wire_entries_encode (e :: l) = wire_entry_encode e ++ wire_entries_encode l.
Proof. done. Qed.

Lemma length_wire_entry e :
  length (wire_entry_encode e) = (13 + length (bytes (le_buf e)))%nat.
Proof. unfold wire_entry_encode. len. Qed.

Lemma serialize_entry_spec e :
  fits [] (wire_entry_encode e) → serialize_entry e = Ok (buf_of (wire_entry_encode e)).
Proof.
  intros Hf. unfold wire_entry_encode in *. unfold serialize_entry. unfold buf_size in *.
  rewrite (u64_small (_ + _)) by (unfold is_u64; fits_tac).
  rewrite (i32_small (Z.of_nat _)) by (unfold is_i32; fits_tac).
  rewrite pos_set_0. serial. by rewrite <-!app_assoc.
Qed.

Lemma serialize_entries_spec l n :
  0 ≤ n → n + Z.of_nat (length (wire_entries_encode l)) < 2 ^ 31 →
  serialize_entries l n =
    Ok ((λ e, buf_of (wire_entry_encode e)) <$> l, n + Z.of_nat (length (wire_entries_encode l))).
Proof.
  revert n. induction l as [|e l IH]; intros n Hn Hl.
  - cbn. f_equal. f_equal. lia.
  - rewrite wire_entries_cons in *. cbn [serialize_entries].
    rewrite serialize_entry_spec by fits_tac. cbn [mbind outcome_bind].
    unfold buf_size. cbn [bytes buf_of buf_at app]. len.
    rewrite (i32_small (Z.of_nat _)), (i32_small (_ + _)) by (unfold is_i32; lia).
    rewrite IH by lia. cbn. f_equal. f_equal. lia.
Qed.

Lemma put_entries_at l pre rest :
  fits pre rest → (length (wire_entries_encode l) ≤ length rest)%nat →
  put_all ((λ e, buf_of (wire_entry_encode e)) <$> l) (buf_at pre rest) =
    Ok (buf_at (pre ++ wire_entries_encode l) (drop (length (wire_entries_encode l)) rest)).
Proof.
  revert pre rest. induction l as [|e l IH]; intros pre rest Hf Hl.
  - cbn. by rewrite app_nil_r.
  - rewrite wire_entries_cons in *. cbn [fmap list_fmap put_all]. serial_step.
    rewrite IH by fits_tac. by rewrite drop_drop, <-app_assoc, length_app.
Qed.

Lemma serialize_req_spec r :
  req_ok r →
  serialize_req r =
    Ok (buf_of (req_header_encode r ++ wire_entries_encode (req_log_entries r))).
Proof.
  intros (_ & _ & _ & _ & _ & _ & _ & _ & Hl). unfold RPC_REQ_HEADER_SIZE in Hl.
  unfold serialize_req. rewrite serialize_entries_spec by lia. cbn [mbind outcome_bind].
  unfold RPC_REQ_HEADER_SIZE. rewrite i32_small by (unfold is_i32; lia).
  rewrite u64_small by (unfold is_u64; lia). rewrite Z.add_0_l. serial.
  rewrite put_entries_at by fits_tac. cbn [mbind outcome_bind]. serial.
  unfold req_header_encode. by rewrite <-!app_assoc.
Qed.

Lemma deserialize_entries_spec l pre fuel :
  Forall entry_ok l → fits pre (wire_entries_encode l) → (length l ≤ fuel)%nat →
  deserialize_entries fuel (buf_at pre (wire_entries_encode l)) = Ok (rewound <$> l).
Proof.
  revert pre fuel. induction l as [|e l IH]; intros pre fuel Hl Hf Hfuel.
  - replace (wire_entries_encode []) with (@nil byte) by done.
    destruct fuel; cbn [deserialize_entries]; unfold buf_size, buf_pos;
      cbn [bytes bpos buf_at]; rewrite app_nil_r, Z.ltb_irrefl; done.
  - inversion_clear Hl as [|? ? (Ht & Hv & Hv')]. rewrite wire_entries_cons in *.
    pose proof (length_wire_entry e) as Hwe.
    destruct fuel as [|fuel]; [simpl in Hfuel; lia|]. cbn [deserialize_entries].
    destruct (Z.ltb_spec (buf_pos (buf_at pre (wire_entry_encode e ++ wire_entries_encode l)))
      (buf_size (buf_at pre (wire_entry_encode e ++ wire_entries_encode l)))) as [_|Hc]; cycle 1.
    { exfalso. unfold buf_size, buf_pos in Hc. cbn in Hc. len. }
    unfold wire_entry_encode in Hf |- *. rewrite <-!app_assoc in *. deserial.
    unfold buf_size in *. rewrite (i32_small (Z.of_nat _)) by (unfold is_i32; fits_tac).
    rewrite (u64_small (Z.of_nat _)) by (unfold is_u64; fits_tac). rewrite alloc_at by fits_tac.
    cbn [mbind outcome_bind]. rewrite Nat2Z.id.
    rewrite (get_buf_into_at _ (bytes (le_buf e))) by fits_tac. cbn [mbind outcome_bind].
    rewrite IH by (try done; try fits_tac; simpl in Hfuel; lia). cbn [mbind outcome_bind].
    rewrite u64_small, Z.mod_small, Hv' by done. done.
Qed.

Lemma length_wire_entries l : (13 * length l ≤ length (wire_entries_encode l))%nat.
Proof.
  induction l as [|e l IH]; [done|]. rewrite wire_entries_cons, length_app, length_wire_entry.
  simpl. lia.
Qed.

Lemma deserialize_req_spec r :
  req_ok r →
  deserialize_req (buf_of (req_header_encode r))
    (Some (buf_of (wire_entries_encode (req_log_entries r)))) =
    Ok (r <| req_log_entries := rewound <$> req_log_entries r |>).
Proof.
  intros ((Ht & Ht') & Hs & Hd & H1 & H2 & H3 & H4 & He & Hl). unfold RPC_REQ_HEADER_SIZE in Hl.
  unfold deserialize_req. rewrite !pos_set_0. unfold req_header_encode.
  cbn [bytes buf_of buf_at app]. unfold buf_of.
  rewrite <-(app_nil_r (int_bytes (Z.of_nat _))). deserial.
  rewrite (i32_small (Z.of_nat _)) by (unfold is_i32; lia).
  rewrite Z.mod_small, !u64_small, !i32_small, Ht' by done.
  pose proof (length_wire_entries (req_log_entries r)) as Hle.
  destruct (Z.ltb_spec 0 (Z.of_nat (length (wire_entries_encode (req_log_entries r))))).
  - rewrite deserialize_entries_spec by (try done; fits_tac). by destruct r.
  - assert (req_log_entries r = []) as Hn by (destruct (req_log_entries r); [done|simpl in *; lia]).
    cbn. rewrite Hn. destruct r; cbn in *; by subst.
Qed.

Lemma length_req_header r : length (req_header_encode r) = 45%nat.
Proof. unfold req_header_encode. len. Qed.

(** The number of bytes behind the header, as the listener reads it. *)
Lemma req_header_size r :
  req_ok r →
  fst <$> get_int (pos_set (RPC_REQ_HEADER_SIZE - 4) (buf_of (req_header_encode r))) =
    Ok (Z.of_nat (length (wire_entries_encode (req_log_entries r)))).
Proof.
  intros (_ & _ & _ & _ & _ & _ & _ & _ & Hl). unfold RPC_REQ_HEADER_SIZE in *.
  unfold req_header_encode. rewrite !app_assoc.
  match goal with |- context [buf_of (?h ++ int_bytes ?v)] =>
    replace (pos_set (3 * 4 + 8 * 4 + 1 - 4) (buf_of (h ++ int_bytes v)))
      with (buf_at h (int_bytes v ++ [])) by
      (rewrite app_nil_r; unfold buf_of, buf_at, pos_set, update; cbn; f_equal; len)
  end.
  rewrite get_int_at by fits_tac. cbn. by rewrite i32_small by (unfold is_i32; lia).
Qed.

Lemma length_resp r : length (resp_encode r) = Z.to_nat RPC_RESP_HEADER_SIZE.
Proof. change (Z.to_nat RPC_RESP_HEADER_SIZE) with 26%nat. unfold resp_encode. len. Qed.

Lemma serialize_resp_spec r : serialize_resp r = Ok (buf_of (resp_encode r)).
Proof.
  unfold serialize_resp, RPC_RESP_HEADER_SIZE, resp_encode. serial. by rewrite <-!app_assoc.
Qed.

Lemma deserialize_resp_spec r :
  resp_ok r → deserialize_resp (buf_of (resp_encode r)) = Ok r.
Proof.
  intros ((Ht & Ht') & Hs & Hd & H1 & H2).
  unfold deserialize_resp. rewrite pos_set_0. unfold resp_encode, buf_of.
  cbn [bytes buf_at app]. rewrite <-(app_nil_r (byte_bytes (if resp_accepted r then 1 else 0))). deserial.
  rewrite !Z.mod_small, !u64_small, !i32_small, Ht' by (done || destruct (resp_accepted r); lia).
  destruct r as [? ? ? ? ? []]; done.
Qed.

(** *** Termination of the parser *)

(** What a read does: it moves the position forward, throws, or faults on an
    access outside the block. *)
Definition advances {A} (n : nat) (b : buffer) (o : outcome (A * buffer)) : Prop :=
  match o with
  | Ok (_, b') => bpos b' = (bpos b + n)%nat ∧ bytes b' = bytes b
  | Throw _ => True
  | Fault f => f ≠ diverges
  end.

Lemma load_advances {A} n b (k : list byte → outcome (A * buffer)) :
  (∀ d, length d = n → advances n b (k d)) → advances n b (load n b ≫= k).
Proof.
  intros Hk. unfold load. destruct (Nat.leb_spec (bpos b + n) (length (bytes b))); [|done].
  apply Hk. len.
Qed.

Lemma mv_fw_advances {A} (x : A) n b : advances n b (Ok (x, mv_fw n b)).
Proof. unfold mv_fw, update; simpl. split; [lia|done]. Qed.

Lemma get_ulong_advances b : advances sz_ulong b (get_ulong b).
Proof.
  unfold get_ulong. destruct (_ <? _); [done|]. apply load_advances. auto using mv_fw_advances.
Qed.

Lemma get_int_advances b : advances sz_int b (get_int b).
Proof.
  unfold get_int. destruct (_ <? _); [done|]. apply load_advances. auto using mv_fw_advances.
Qed.

Lemma get_byte_advances b : advances sz_byte b (get_byte b).
Proof.
  unfold get_byte. destruct (_ <? _); [done|]. apply load_advances.
  intros [|x d] ?; [done|]. apply mv_fw_advances.
Qed.

Lemma get_buf_into_advances dst b : ∃ n, advances n b (get_buf_into dst b).
Proof.
  exists (Z.to_nat (avail dst)). apply load_advances. intros d <-.
  unfold store. destruct (_ <=? _)%nat; [|done]. apply mv_fw_advances.
Qed.

(** A fuel larger than what is left to read is never used up. *)
Lemma deserialize_entries_terminates fuel b :
  (length (bytes b) - bpos b ≤ fuel)%nat → deserialize_entries fuel b ≠ Fault diverges.
Proof.
  revert b. induction fuel as [|fuel IH]; intros b Hb; cbn [deserialize_entries];
    destruct (Z.ltb_spec (buf_pos b) (buf_size b)) as [Hlt|]; try done;
    unfold buf_pos, buf_size in Hlt; [lia|].
  pose proof (get_ulong_advances b) as H1.
  destruct (get_ulong b) as [[t b1]|e|u]; cbn in H1 |- *; [|done|congruence].
  pose proof (get_byte_advances b1) as H2.
  destruct (get_byte b1) as [[v b2]|e|u]; cbn in H2 |- *; [|done|congruence].
  pose proof (get_int_advances b2) as H3.
  destruct (get_int b2) as [[n b3]|e|u]; cbn in H3 |- *; [|done|congruence].
  unfold alloc. destruct (_ <=? u64 n); cbn [mbind outcome_bind]; [done|].
  destruct (get_buf_into_advances (mk_buffer (fresh (Z.to_nat (u64 n))) 0) b3) as [k H4].
  destruct (get_buf_into _ b3) as [[dst b4]|e|u]; cbn in H4 |- *; [|done|congruence].
  specialize (IH b4). destruct (deserialize_entries fuel b4) as [l|e|u]; [done..|].
  cbn. intros [= ->]. apply IH; [|done]. destruct_and!.
  replace (bytes b4) with (bytes b) by congruence. unfold sz_ulong, sz_int, sz_byte in *. lia.
Qed.
End laws.

(** ** Properties of the formats *)

Section properties.
Context `{FreshMem}.

(** C30: every request that fits a buffer survives the wire.  [serialize_req]
    succeeds, and cutting its bytes where the receiver does (after the 45-byte
    header) and parsing the two parts gives back every field and every log
    entry, each entry with its buffer rewound. *)
Theorem req_roundtrip (r : req_msg) :
  req_ok r →
  ∃ b, serialize_req r = Ok b ∧
    deserialize_req (buf_of (take (Z.to_nat RPC_REQ_HEADER_SIZE) (bytes b)))
      (Some (buf_of (drop (Z.to_nat RPC_REQ_HEADER_SIZE) (bytes b)))) =
    Ok (r <| req_log_entries := rewound <$> req_log_entries r |>).
Proof.
  intros Hr. eexists. split; [by apply serialize_req_spec|].
  change (Z.to_nat RPC_REQ_HEADER_SIZE) with 45%nat.
  change (bytes (buf_of ?d)) with d.
  assert (length (req_header_encode r) = 45%nat) as Hl
    by (unfold req_header_encode; len).
  rewrite take_app_length', drop_app_length' by done. by apply deserialize_req_spec.
Qed.

(** C31: the request parser always returns.  Whatever bytes the header and the
    log data hold, the loop over the entries consumes its input: it ends with
    a request, an exception or a fault, and never runs on. *)
Theorem deserialize_req_terminates (header : buffer) (log_data : option buffer) :
  deserialize_req header log_data ≠ Fault diverges.
Proof.
  unfold deserialize_req.
  assert (∀ A B n b (o : outcome (A * buffer)) (k : A * buffer → outcome B),
    advances n b o → (∀ x, k x ≠ Fault diverges) → o ≫= k ≠ Fault diverges) as Hbind.
  { intros A B n b [[x b']|e|u] k Ho Hk; cbn in *; [apply Hk|done|congruence]. }
  eapply Hbind; [apply get_byte_advances|intros [t h1]].
  do 2 (eapply Hbind; [apply get_int_advances|intros [? ?]]).
  do 4 (eapply Hbind; [apply get_ulong_advances|intros [? ?]]).
  eapply Hbind; [apply get_int_advances|intros [n ?]].
  destruct log_data as [d|]; [|done]. destruct (0 <? n); [|done].
  pose proof (deserialize_entries_terminates (length (bytes d)) (pos_set 0 d)) as Hd.
  rewrite pos_set_0 in *. destruct (deserialize_entries _ _); cbn; [done..|].
  intros [= ->]. apply Hd; [|done]. cbn. lia.
Qed.

(** The format log entries are packed and stored in is exact.  Serialising
    an entry yields its term, its type byte and its payload; deserialising
    those bytes gives the entry back with its buffer rewound. *)
Theorem log_entry_roundtrip (e : log_entry) :
  entry_ok e → fits [] (log_entry_encode e) →
  ∃ b e', log_entry_serialize e = Ok (b, e') ∧ fst <$> log_entry_deserialize b = Ok e' ∧
    le_term e' = le_term e ∧ le_val_type e' = le_val_type e ∧
    bytes (le_buf e') = bytes (le_buf e) ∧ bpos (le_buf e') = 0%nat.
Proof.
  intros He Hf. eexists _, _. split; [by apply log_entry_serialize_spec|].
  split; [by apply log_entry_deserialize_spec|]. done.
Qed.

(** A snapshot chunk survives the wire: snapshot metadata (with the
    embedded configuration), offset, final flag, and the unread part of the
    data buffer. *)
Theorem sync_req_roundtrip (r : snapshot_sync_req) :
  snapshot_ok (ssr_snapshot r) → is_u64 (ssr_offset r) → buf_ok (ssr_data r) →
  fits [] (sync_req_encode r) →
  ∃ b, sync_req_serialize r = Ok b ∧
    sync_req_deserialize b =
      Ok (mk_snapshot_sync_req (ssr_snapshot r) (ssr_offset r)
            (buf_of (drop (bpos (ssr_data r)) (bytes (ssr_data r)))) (ssr_done r)).
Proof.
  intros. eexists. split; [by apply sync_req_serialize_spec|].
  by apply sync_req_deserialize_spec.
Qed.
End properties.

(** A memory that hands out zeroed blocks, for the examples. *)
Definition zero_mem : FreshMem := λ _, Byte.x00.

Definition sample_entry : log_entry :=
  mk_log_entry 3 app_log (mk_buffer [Byte.x68; Byte.x69; Byte.x00] 1).
Definition sample_req : req_msg :=
  mk_req_msg 3 append_entries_request 1 2 2 4 4 [sample_entry; sample_entry].
Definition sample_config : cluster_config :=
  mk_cluster_config 7 1 [mk_srv_config 1 [Byte.x61]; mk_srv_config 2 [Byte.x62; Byte.x63]].
Definition sample_sync_req : snapshot_sync_req :=
  mk_snapshot_sync_req (mk_snapshot 9 3 100 sample_config) 16 (buf_of [Byte.x01; Byte.x02]) false.

Ltac ok_tac :=
  unfold is_u64, is_i32, entry_ok, val_type_ok, msg_type_ok, snapshot_ok, cluster_config_ok,
    srv_config_ok, buf_ok, is_u64, is_i32 in *; cbn;
  repeat first [split | apply Forall_cons | apply Forall_nil];
  try lia; try done; try (vm_compute; done); try set_solver.

Lemma req_roundtrip_witness :
  is_ok (serialize_req (H := zero_mem) sample_req) = true ∧
  ∃ b, serialize_req (H := zero_mem) sample_req = Ok b.
Proof.
  destruct (req_roundtrip (H := zero_mem) sample_req) as (b & Hb & _).
  - unfold req_ok. ok_tac.
  - split; [by rewrite Hb|by exists b].
Defined.

Lemma log_entry_roundtrip_witness :
  ∃ b e', log_entry_serialize (H := zero_mem) sample_entry = Ok (b, e').
Proof.
  destruct (log_entry_roundtrip (H := zero_mem) sample_entry) as (b & e' & Hb & _).
  - ok_tac.
  - vm_compute. done.
  - by exists b, e'.
Defined.

Lemma sync_req_roundtrip_witness :
  ∃ b, sync_req_serialize (H := zero_mem) sample_sync_req = Ok b.
Proof.
  destruct (sync_req_roundtrip (H := zero_mem) sample_sync_req) as (b & Hb & _);
    [ok_tac..|vm_compute; done|by exists b].
Defined.
