(* ===== verification/Texts.v ===== *)
(** * Names in log lines

    src/raft_enclave/raft/src/msg_type.cxx and strfmt.hxx of the enclave, and
    asio_log_utils.cxx of the host: the texts that name a message type and the
    ends of a connection. *)

From S2P Require Import Prelude Buffer Messages Json Attestation Host.
From Stdlib Require String.
Import String.StringSyntax.

(** ** Formatting into a fixed buffer *)

(** [strfmt<N>::fmt]: snprintf writes at most N - 1 characters and the
    terminator; the text is what comes before it. *)
Definition strfmt_fmt (n : nat) (text : list byte) : list byte := take (n - 1) text.

Lemma strfmt_fits n text : (0 < n)%nat → (length (strfmt_fmt n text) < n)%nat.
Proof. intros Hn. unfold strfmt_fmt. rewrite length_take. lia. Qed.

(** ** The name of a message type *)

(** A pointer to characters: into the program's constants, or into the
    namespace's string [buffer], which every call shares. *)
Inductive cstr := literal (s : list byte) | into_buffer.

(** %d *)
Definition print_int (z : Z) : list byte := if z <? 0 then str "-" ++ decimal (- z) else decimal z.

Definition msg_type_string (type : msg_type) (buffer : list byte) : cstr * list byte :=
  match type with
  | request_vote_request => (literal (str "request_vote_request"), buffer)
  | request_vote_response => (literal (str "request_vote_response"), buffer)
  | append_entries_request => (literal (str "append_entries_request"), buffer)
  | append_entries_response => (literal (str "append_entries_response"), buffer)
  | client_request => (literal (str "client_request"), buffer)
  | add_server_request => (literal (str "add_server_request"), buffer)
  | add_server_response => (literal (str "add_server_response"), buffer)
  | remove_server_request => (literal (str "remove_server_request"), buffer)
  | remove_server_response => (literal (str "remove_server_response"), buffer)
  | sync_log_request => (literal (str "sync_log_request"), buffer)
  | sync_log_response => (literal (str "sync_log_response"), buffer)
  | join_cluster_request => (literal (str "join_cluster_request"), buffer)
  | join_cluster_response => (literal (str "join_cluster_response"), buffer)
  | leave_cluster_request => (literal (str "leave_cluster_request"), buffer)
  | leave_cluster_response => (literal (str "leave_cluster_response"), buffer)
  | install_snapshot_request => (literal (str "install_snapshot_request"), buffer)
  | install_snapshot_response => (literal (str "install_snapshot_response"), buffer)
  | unknown_msg z => (into_buffer, strfmt_fmt 100 (str "unknown_type_" ++ print_int z))
  end.

(** What a pointer reads, given the content of [buffer] at that time. *)
Definition chars (p : cstr) (buffer : list byte) : list byte :=
  match p with literal s => s | into_buffer => buffer end.

Definition name_of (t : msg_type) : list byte :=
  let '(p, buffer) := msg_type_string t [] in chars p buffer.

(** The types a received byte can denote have different names. *)
Lemma names_differ z1 z2 :
  0 ≤ z1 < 256 → 0 ≤ z2 < 256 → name_of (msg_type_of_Z z1) = name_of (msg_type_of_Z z2) → z1 = z2.
Proof.
  intros H1 H2 E. assert (NoDup (name_of ∘ msg_type_of_Z <$> seqZ 0 256)) as Hn
    by (apply (bool_decide_unpack _); vm_compute; exact I).
  assert (∀ z, 0 ≤ z < 256 → (name_of ∘ msg_type_of_Z <$> seqZ 0 256) !! Z.to_nat z = Some (name_of (msg_type_of_Z z))) as Hz.
  { intros z Hz. rewrite list_lookup_fmap, lookup_seqZ_lt by lia. cbn. do 3 f_equal. lia. }
  pose proof (NoDup_lookup _ _ _ _ Hn (Hz z1 H1) ltac:(rewrite E; by apply Hz)). lia.
Qed.

(** The name of an unknown type lasts until the next unknown type is named. *)
Lemma unknown_name_overwritten z1 z2 buffer :
  let '(p1, b1) := msg_type_string (unknown_msg z1) buffer in
  let '(p2, b2) := msg_type_string (unknown_msg z2) b1 in
  chars p1 b1 = name_of (unknown_msg z1) ∧ chars p1 b2 = name_of (unknown_msg z2).
Proof. done. Qed.

(** ** The ends of a connection *)

(** What asio knows of an end of a socket: an error message, or the address
    and the port. *)
Definition end_point : Type := list byte + (list byte * Z).

Definition socket_local_address (local_endpoint : end_point) : list byte :=
  match local_endpoint with
  | inr (address, port) => address ++ str ":" ++ decimal port
  | inl message => message
  end.
Definition socket_remote_address (remote_endpoint : end_point) : list byte :=
  match remote_endpoint with
  | inr (address, port) => address ++ str ":" ++ decimal port
  | inl message => message
  end.

(** Two ports of one address are told apart. *)
Lemma decimal_inj a b : 0 ≤ a < 10 ^ 20 → 0 ≤ b < 10 ^ 20 → decimal a = decimal b → a = b.
Proof.
  intros Ha Hb E. destruct (decimal_digits_spec 20 a []) as (la & Ea & _ & _ & Hga); [cbn; lia|lia|].
  destruct (decimal_digits_spec 20 b []) as (lb & Eb & _ & _ & Hgb); [cbn; lia|lia|].
  unfold decimal in E. rewrite Ea, Eb, !app_nil_r in E. subst lb. pose proof (Hga [] 0) as H1.
  rewrite Hgb in H1. cbn [digits] in H1. lia.
Qed.

Lemma socket_address_port address p1 p2 :
  0 ≤ p1 < 65536 → 0 ≤ p2 < 65536 →
  socket_local_address (inr (address, p1)) = socket_local_address (inr (address, p2)) → p1 = p2.
Proof. intros H1 H2 E%app_inv_head%app_inv_head. apply decimal_inj; [lia..|done]. Qed.

(** ** The clock *)

(** [get_time_milliseconds], from the seconds and nanoseconds of the system
    clock. *)
Definition get_time_milliseconds (tv_sec tv_nsec : Z) : Z := tv_sec * 1000 + tv_nsec `quot` 1000000.

(** The result fits [int64_t], and later readings are not smaller. *)
Lemma time_monotone s1 n1 s2 n2 :
  0 ≤ s1 → 0 ≤ n1 < 10 ^ 9 → 0 ≤ n2 < 10 ^ 9 → s2 < 2 ^ 53 → s1 < s2 ∨ (s1 = s2 ∧ n1 ≤ n2) →
  0 ≤ get_time_milliseconds s1 n1 ≤ get_time_milliseconds s2 n2 ∧ get_time_milliseconds s2 n2 < 2 ^ 63.
Proof.
  intros H0 Hn1 Hn2 Hb Hle. unfold get_time_milliseconds. rewrite !Z.quot_div_nonneg by lia.
  assert (n1 / 1000000 < 1000) by (apply Z.div_lt_upper_bound; lia).
  assert (n2 / 1000000 < 1000) by (apply Z.div_lt_upper_bound; lia).
  assert (0 ≤ n1 / 1000000) by (apply Z.div_pos; lia). assert (0 ≤ n2 / 1000000) by (apply Z.div_pos; lia).
  destruct Hle as [?|[-> Hn]]; [lia|]. pose proof (Z.div_le_mono n1 n2 1000000 ltac:(lia) Hn). lia.
Qed.
