(* ===== verification/LogStore.v ===== *)
(** * The log store

    The interface [log_store] (src/raft_enclave/raft/include/contribution/
    log_store_interface.hxx) as a class of operations with their laws, and the
    implementation the enclave runs, [in_memory_log_store]
    (src/raft_enclave/app_impl/in_memory_log_store.hxx), which discharges
    them.  The server's theorems are proved against the class. *)

From S2P Require Import Prelude Buffer Config Messages.

(** ** The interface *)

Class log_store (LS : Type) := {
    next_slot : LS → Z;
    start_index : LS → Z;
    last_entry : LS → outcome log_entry;
    append : log_entry → M LS Z;
    write_at : Z → log_entry → M LS unit;
    log_entries : Z → Z → LS → outcome (list log_entry);
    entry_at : Z → LS → outcome log_entry;
    term_at : Z → LS → outcome Z;
    pack : Z → Z → M LS buffer;
    apply_pack : Z → buffer → M LS unit;
    compact : Z → M LS bool;
  }.

(** What a store keeps of an entry: its buffer from the current position on. *)
Definition clone (e : log_entry) : log_entry :=
  e <| le_buf := buf_of (drop (bpos (le_buf e)) (bytes (le_buf e))) |>.

(** An entry as a store holds it: rewound, of a size a buffer can have. *)
Definition stored (e : log_entry) : Prop := bpos (le_buf e) = 0%nat ∧ buf_ok (le_buf e).

(** The format of a pack: the number of entries, then each entry after its size. *)
Definition pack_entry (e : log_entry) : list byte :=
  int_bytes (Z.of_nat (length (log_entry_encode e))) ++ log_entry_encode e.
Definition pack_entries (l : list log_entry) : list byte := mjoin (pack_entry <$> l).
Definition pack_encode (l : list log_entry) : list byte :=
  int_bytes (Z.of_nat (length l)) ++ pack_entries l.

(** The contract: a store is the entries of the indices from [start_index] up
    to [next_slot]. *)
Class log_store_laws (LS : Type) `{log_store LS} := {
    log_ok : LS → Prop;
    view : LS → list log_entry;
    log_bounds s : log_ok s →
      1 ≤ start_index s ∧ start_index s + Z.of_nat (length (view s)) < 2 ^ 64;
    view_stored s : log_ok s → Forall stored (view s);
    next_slot_spec s : log_ok s → next_slot s = start_index s + Z.of_nat (length (view s));
    entry_at_hit s i e : log_ok s → start_index s ≤ i →
      view s !! Z.to_nat (i - start_index s) = Some e → entry_at i s = Ok e;
    entry_at_miss s i : log_ok s → 0 ≤ i → (i < start_index s ∨ next_slot s ≤ i) →
      ∃ d, entry_at i s = Ok d ∧ le_term d = 0;
    term_at_entry s i e : log_ok s → entry_at i s = Ok e → term_at i s = Ok (le_term e);
    last_entry_spec s : log_ok s → last_entry s = entry_at (next_slot s - 1) s;
    append_spec s e : log_ok s → buf_ok (le_buf e) → next_slot s + 1 < 2 ^ 64 →
      ∃ s', append e s = (Ok (next_slot s), s') ∧ log_ok s' ∧
        start_index s' = start_index s ∧ view s' = view s ++ [clone e];
    write_at_spec s i e : log_ok s → buf_ok (le_buf e) →
      start_index s ≤ i ≤ next_slot s → i + 1 < 2 ^ 64 →
      ∃ s', write_at i e s = (Ok tt, s') ∧ log_ok s' ∧
        start_index s' = start_index s ∧
        view s' = take (Z.to_nat (i - start_index s)) (view s) ++ [clone e];
    log_entries_spec s a b : log_ok s → start_index s ≤ a ≤ b → b ≤ next_slot s →
      b - a < 2 ^ 59 →
      log_entries a b s =
        Ok (take (Z.to_nat (b - a)) (drop (Z.to_nat (a - start_index s)) (view s)));
    pack_spec s i cnt : log_ok s → start_index s ≤ i → 0 ≤ cnt < 2 ^ 31 →
      i + cnt ≤ next_slot s →
      let l := take (Z.to_nat cnt) (drop (Z.to_nat (i - start_index s)) (view s)) in
      fits [] (pack_encode l) →
      ∃ b, pack i cnt s = (Ok b, s) ∧ bytes b = pack_encode l;
  pack_keeps s i cnt : log_ok s → (pack i cnt s).2 = s;
    apply_pack_spec s l b : log_ok s → Forall entry_ok l → Forall stored l → l ≠ [] →
      next_slot s + Z.of_nat (length l) < 2 ^ 64 →
      fits [] (pack_encode l) → bytes b = pack_encode l →
      ∃ s', apply_pack (next_slot s) b s = (Ok tt, s') ∧ log_ok s' ∧
        start_index s' = start_index s ∧ view s' = view s ++ l;
    compact_spec s i : log_ok s → start_index s - 1 ≤ i → i + 1 < 2 ^ 64 →
      ∃ s', compact i s = (Ok true, s') ∧ log_ok s' ∧ start_index s' = i + 1 ∧
        view s' = drop (Z.to_nat (i + 1 - start_index s)) (view s);
  }.

(** ** The in-memory implementation *)

Record in_memory_log_store := mk_log_store {
    logs_ : gmap Z log_entry;
    start_idx_ : Z;
  }.
#[global] Instance eta_log_store : Eta in_memory_log_store := λ s,
  mk_log_store (logs_ s) (start_idx_ s).

Section code.
Context `{FreshMem}.

(** The constructor: a dummy entry of eight uninitialised bytes at index 0. *)
Definition dummy_entry : log_entry := mk_log_entry 0 app_log (buf_of (fresh sz_ulong)).
Definition mem_new : in_memory_log_store := mk_log_store {[ 0 := dummy_entry ]} 1.

Definition make_clone (e : log_entry) : outcome log_entry :=
  b ← copy (le_buf e);
  Ok (mk_log_entry (le_term e) (le_val_type e) b).

Definition mem_next_slot (s : in_memory_log_store) : Z :=
  u64 (start_idx_ s + Z.of_nat (size (logs_ s)) - 1).

Definition mem_start_index (s : in_memory_log_store) : Z := start_idx_ s.

(** [logs_.find(index)], falling back on [logs_.find(0)]. *)
Definition find_or_dummy (i : Z) (s : in_memory_log_store) : outcome log_entry :=
  match logs_ s !! i with
  | Some e => Ok e
  | None => match logs_ s !! 0 with Some e => Ok e | None => Fault null_deref end
  end.

Definition mem_last_entry (s : in_memory_log_store) : outcome log_entry :=
  e ← find_or_dummy (u64 (mem_next_slot s - 1)) s;
  make_clone e.

Definition mem_append (e : log_entry) : M in_memory_log_store Z :=
  c ← lift (make_clone e);
  idx ← gets mem_next_slot;
  modify (update logs_ <[idx := c]>) ;;
  mret idx.

Definition mem_write_at (index : Z) (e : log_entry) : M in_memory_log_store unit :=
  c ← lift (make_clone e);
  modify (update logs_ (filter (λ '(k, _), k < index))) ;;
  modify (update logs_ <[index := c]>).

(** The vector's [max_size]: [reserve] throws [length_error] above it. *)
Definition vector_max_size : Z := 2 ^ 59 - 1.

Fixpoint collect_entries (ids : list Z) (s : in_memory_log_store) : outcome (list log_entry) :=
  match ids with
  | [] => Ok []
  | ii :: ids' =>
      match logs_ s !! ii with
      | None => Fault assert_failed
      | Some src =>
          c ← make_clone src;
          l ← collect_entries ids' s;
          Ok (c :: l)
      end
  end.

Definition mem_log_entries (start stop : Z) (s : in_memory_log_store) :
    outcome (list log_entry) :=
  if vector_max_size <? u64 (stop - start) then Throw logic_error
  else collect_entries (seqZ start (stop - start)) s.

Definition mem_entry_at (index : Z) (s : in_memory_log_store) : outcome log_entry :=
  src ← find_or_dummy index s;
  make_clone src.

Definition mem_term_at (index : Z) (s : in_memory_log_store) : outcome Z :=
  le_term <$> find_or_dummy index s.

(** The first loop of [pack]; [serialize] rewinds the stored entry. *)
Fixpoint pack_loop (ids : list Z) (total_size : Z) :
    M in_memory_log_store (list buffer * Z) :=
  match ids with
  | [] => mret ([], total_size)
  | ii :: ids' =>
      entry ← gets (λ s, logs_ s !! ii);
      match entry with
      | None => faulting assert_failed
      | Some e =>
          '(buf, e') ← lift (log_entry_serialize e);
          modify (update logs_ <[ii := e']>) ;;
          '(bufs, n) ← pack_loop ids' (u64 (total_size + buf_size buf));
          mret (buf :: bufs, n)
      end
  end.

Fixpoint put_sized (bufs : list buffer) (out : buffer) : outcome buffer :=
  match bufs with
  | [] => Ok out
  | bb :: bufs' =>
      out ← put_int (i32 (buf_size bb)) out;
      out ← put_buf bb out;
      put_sized bufs' out
  end.

Definition mem_pack (index cnt : Z) : M in_memory_log_store buffer :=
  '(logs, total_size) ← pack_loop (seqZ index (u64 (index + cnt) - index)) 0;
  lift (
    buf_out ← alloc (u64 (4 + u64 (cnt * 4) + total_size));
    buf_out ← put_int cnt (pos_set 0 buf_out);
    put_sized logs buf_out).

Fixpoint apply_loop (ids : list Z) (pk : buffer) : M in_memory_log_store unit :=
  match ids with
  | [] => mret tt
  | ii :: ids' =>
      '(n, pk) ← lift (get_int pk);
      buf_local ← lift (alloc (u64 n));
      '(buf_local, pk) ← lift (get_buf_into buf_local pk);
      '(entry, _) ← lift (log_entry_deserialize buf_local);
      modify (update logs_ <[ii := entry]>) ;;
      apply_loop ids' pk
  end.

(** [logs_.upper_bound(0)]: the least key above 0. *)
Definition first_key (m : gmap Z log_entry) : option Z :=
  foldr (λ k acc, if 0 <? k then
                    match acc with Some a => Some (Z.min k a) | None => Some k end
                  else acc) None (map_to_list m).*1.

Definition mem_apply_pack (index : Z) (pk : buffer) : M in_memory_log_store unit :=
  '(num_logs, pk) ← lift (get_int (pos_set 0 pk));
  apply_loop (seqZ index (u64 (index + num_logs) - index)) pk ;;
  modify (λ s, s <| start_idx_ := default 1 (first_key (logs_ s)) |>).

(** With the largest index the loop condition [ii <= last_log_index] never
    fails. *)
Definition mem_compact (last_log_index : Z) : M in_memory_log_store bool :=
  s ← gets id;
  if (last_log_index =? 2 ^ 64 - 1) then faulting diverges
  else
    modify (update logs_ (λ m, foldl (λ m ii, delete ii m) m
      (seqZ (start_idx_ s) (last_log_index + 1 - start_idx_ s)))) ;;
    start_idx_ <~ u64 (last_log_index + 1) ;;
    mret true.

#[global] Instance mem_log_store : log_store in_memory_log_store := {|
    next_slot := mem_next_slot;
    start_index := mem_start_index;
    last_entry := mem_last_entry;
    append := mem_append;
    write_at := mem_write_at;
    log_entries := mem_log_entries;
    entry_at := mem_entry_at;
    term_at := mem_term_at;
    pack := mem_pack;
    apply_pack := mem_apply_pack;
    compact := mem_compact;
  |}.
End code.

(** ** The implementation meets the contract

    [holds s d l]: the map is the dummy [d] at index 0 and the entries [l]
    from [start_idx_] on. *)

Definition holds (s : in_memory_log_store) (d : log_entry) (l : list log_entry) : Prop :=
  logs_ s = <[0 := d]> (map_seqZ (start_idx_ s) l) ∧
  1 ≤ start_idx_ s ∧ start_idx_ s + Z.of_nat (length l) < 2 ^ 64 ∧
  Forall stored (d :: l) ∧ le_term d = 0.

Definition mem_ok (s : in_memory_log_store) : Prop := ∃ d l, holds s d l.

Definition mem_view (s : in_memory_log_store) : list log_entry :=
  omap (λ i, logs_ s !! i) (seqZ (start_idx_ s) (Z.of_nat (size (logs_ s)) - 1)).

Lemma clone_stored e : stored e → clone e = e.
Proof.
  intros [Hp _]. unfold clone, update. rewrite Hp. destruct e as [t v [b p]]; simpl in *.
  by subst.
Qed.

Lemma stored_clone e : buf_ok (le_buf e) → stored (clone e).
Proof.
  intros [_ Hs]. unfold stored, clone, update, buf_ok, buf_size in *; simpl. len.
Qed.

Section implementation.
Context `{FreshMem}.

Lemma make_clone_spec e : buf_ok (le_buf e) → make_clone e = Ok (clone e).
Proof. intros Hb. unfold make_clone. by rewrite copy_spec. Qed.

Lemma make_clone_stored e : stored e → make_clone e = Ok e.
Proof. intros He. rewrite make_clone_spec by apply He. by rewrite clone_stored. Qed.

Lemma map_seqZ_size {A} start (l : list A) :
  size (map_seqZ start l : gmap Z A) = length l.
Proof.
  revert start. induction l as [|x l IH]; intros start; [apply map_size_empty|].
  rewrite map_seqZ_cons, map_size_insert_None, IH; [done|].
  apply lookup_map_seqZ_None. lia.
Qed.

Section holds.
Context (s : in_memory_log_store) (d : log_entry) (l : list log_entry) (Hs : holds s d l).

Lemma holds_size : size (logs_ s) = S (length l).
Proof.
  destruct Hs as (-> & Hst & _). rewrite map_size_insert_None, map_seqZ_size; [done|].
  apply lookup_map_seqZ_None. lia.
Qed.

Lemma holds_dummy : logs_ s !! 0 = Some d.
Proof. destruct Hs as (-> & _). apply lookup_insert_eq. Qed.

Lemma holds_in i : start_idx_ s ≤ i → logs_ s !! i = l !! Z.to_nat (i - start_idx_ s).
Proof.
  intros Hi. destruct Hs as (-> & Hst & _). rewrite lookup_insert_ne by lia.
  rewrite lookup_map_seqZ. by rewrite option_guard_True.
Qed.

Lemma holds_below i : i ≠ 0 → i < start_idx_ s → logs_ s !! i = None.
Proof.
  intros Hi Hlt. destruct Hs as (-> & Hst & _). rewrite lookup_insert_ne by done.
  apply lookup_map_seqZ_None. lia.
Qed.

Lemma holds_next : mem_next_slot s = start_idx_ s + Z.of_nat (length l).
Proof.
  unfold mem_next_slot. rewrite holds_size. destruct Hs as (_ & ? & ? & _).
  rewrite u64_small; unfold is_u64; lia.
Qed.

Lemma holds_stored i e : logs_ s !! i = Some e → stored e.
Proof.
  destruct Hs as (-> & _ & _ & Hf & _). inversion_clear Hf.
  rewrite lookup_insert_Some, lookup_map_seqZ_Some. intros [[_ <-]|(_ & _ & Hl)]; [done|].
  by eapply Forall_lookup_1.
Qed.

Lemma holds_view : mem_view s = l.
Proof.
  unfold mem_view. rewrite holds_size.
  replace (Z.of_nat (S (length l)) - 1) with (Z.of_nat (length l)) by lia.
  assert (∀ i, (i < length l)%nat → logs_ s !! (start_idx_ s + Z.of_nat i) = l !! i) as Hl.
  { intros i Hi. rewrite holds_in by lia. f_equal. lia. }
  revert Hl. generalize (start_idx_ s) as st, (logs_ s) as m. clear Hs. intros st m.
  revert st. induction l as [|x l' IH]; intros st Hl; [done|].
  cbn [length]. rewrite seqZ_cons by lia. cbn [omap list_omap].
  replace st with (st + Z.of_nat 0) at 1 by lia. rewrite Hl by (simpl; lia). cbn.
  f_equal. replace (Z.pred (Z.of_nat (S (length l')))) with (Z.of_nat (length l')) by lia.
  apply IH. intros i Hi. specialize (Hl (S i) ltac:(simpl; lia)).
  etrans; [|exact Hl]. f_equal. lia.
Qed.

Lemma holds_entry_at i e : 0 ≤ i → find_or_dummy i s = Ok e → mem_entry_at i s = Ok e.
Proof.
  intros Hi He. unfold mem_entry_at. rewrite He. cbn [mbind outcome_bind].
  apply make_clone_stored. unfold find_or_dummy in He.
  destruct (logs_ s !! i) eqn:E; [|rewrite holds_dummy in He];
    injection He as <-; eauto using holds_stored, holds_dummy.
Qed.

Lemma holds_hit i e :
  start_idx_ s ≤ i → l !! Z.to_nat (i - start_idx_ s) = Some e → find_or_dummy i s = Ok e.
Proof. intros Hi He. unfold find_or_dummy. by rewrite holds_in, He. Qed.

Lemma holds_miss i :
  0 ≤ i → (i < start_idx_ s ∨ mem_next_slot s ≤ i) → find_or_dummy i s = Ok d.
Proof.
  rewrite holds_next. intros Hi Hm. unfold find_or_dummy. rewrite holds_dummy.
  destruct (decide (i = 0)) as [->|]; [by rewrite holds_dummy|].
  destruct Hm; [by rewrite holds_below|].
  destruct Hs as (_ & ? & _). rewrite holds_in by lia.
  rewrite lookup_ge_None_2 by lia. done.
Qed.

Lemma holds_find i : 0 ≤ i → ∃ e, find_or_dummy i s = Ok e.
Proof. intros Hi. unfold find_or_dummy. rewrite holds_dummy. destruct (_ !! i); eauto. Qed.

Lemma holds_append e :
  stored e → mem_next_slot s + 1 < 2 ^ 64 →
  holds (s <| logs_ ::= <[mem_next_slot s := e]> |>) d (l ++ [e]).
Proof.
  rewrite holds_next. destruct Hs as (Hl & H1 & H2 & H3 & H4). intros He Hn.
  unfold update; simpl. split_and!; simpl; [|lia|len| |done].
  - rewrite Hl, map_seqZ_snoc, insert_insert_ne by lia. done.
  - inversion_clear H3. constructor; [done|]. apply Forall_app_2; auto.
Qed.

Lemma holds_write_at i e :
  stored e → start_idx_ s ≤ i ≤ mem_next_slot s → i + 1 < 2 ^ 64 →
  holds (s <| logs_ ::= filter (λ '(k, _), k < i) |> <| logs_ ::= <[i := e]> |>) d
    (take (Z.to_nat (i - start_idx_ s)) l ++ [e]).
Proof.
  rewrite holds_next. intros He Hi Hb. destruct Hs as (Hl & H1 & H2 & H3 & H4).
  unfold update; simpl. split_and!; simpl; [|lia|len| |done].
  - rewrite map_seqZ_snoc. rewrite length_take, Nat.min_l by lia.
    rewrite Z2Nat.id by lia. replace (start_idx_ s + (i - start_idx_ s)) with i by lia.
    rewrite insert_insert_ne by lia. f_equal. apply map_eq. intros k.
    rewrite map_lookup_filter, Hl.
    destruct (decide (k = 0)) as [->|Hk].
    { rewrite !lookup_insert_eq. cbn. rewrite option_guard_True; [done|lia]. }
    rewrite !lookup_insert_ne, !lookup_map_seqZ by done.
    destruct (decide (start_idx_ s ≤ k)); [|by rewrite !option_guard_False].
    rewrite !option_guard_True by done. destruct (decide (k < i)).
    + rewrite lookup_take_lt by lia. destruct (l !! _); [|done]. cbn.
      by rewrite option_guard_True.
    + rewrite lookup_take_ge by lia. destruct (l !! _); [|done]. cbn.
      by rewrite option_guard_False.
  - inversion_clear H3. constructor; [done|].
    apply Forall_app_2; [by apply Forall_take|auto].
Qed.

Lemma holds_compact i :
  start_idx_ s - 1 ≤ i → i + 1 < 2 ^ 64 →
  holds (mk_log_store (foldl (λ m ii, delete ii m) (logs_ s)
           (seqZ (start_idx_ s) (i + 1 - start_idx_ s))) (i + 1)) d
    (drop (Z.to_nat (i + 1 - start_idx_ s)) l).
Proof.
  intros Hi Hb. destruct Hs as (Hl & H1 & H2 & H3 & H4).
  split_and!; simpl; [|lia|len| |done].
  - assert (∀ ids (m : gmap Z log_entry) k, foldl (λ m ii, delete ii m) m ids !! k =
      if decide (k ∈ ids) then None else m !! k) as Hfold.
    { intros ids. induction ids as [|j ids IH]; intros m k; [done|]. cbn [foldl]. rewrite IH.
      destruct (decide (k ∈ ids)); [by rewrite decide_True by set_solver|].
      destruct (decide (k = j)) as [->|].
      - rewrite decide_True, lookup_delete_eq by set_solver. done.
      - rewrite decide_False, lookup_delete_ne by set_solver. done. }
    apply map_eq. intros k. rewrite Hfold, Hl.
    destruct (decide (k = 0)) as [->|].
    { rewrite decide_False by (rewrite elem_of_seqZ; lia). by rewrite !lookup_insert_eq. }
    rewrite !lookup_insert_ne, !lookup_map_seqZ by done.
    case_decide as Hk; rewrite elem_of_seqZ in Hk; [rewrite option_guard_False by lia; done|].
    destruct (decide (start_idx_ s ≤ k)).
    + rewrite !option_guard_True, lookup_drop by lia. f_equal. lia.
    + by rewrite !option_guard_False by lia.
  - inversion_clear H3. constructor; [done|]. by apply Forall_drop.
Qed.
End holds.

(** *** Ranges of entries *)

(** The [n] entries from index [i] of a log that starts at [start]. *)
Definition slice (start i : Z) (n : nat) (l : list log_entry) : list log_entry :=
  take n (drop (Z.to_nat (i - start)) l).

Lemma slice_cons start i n l :
  start ≤ i → i + Z.of_nat (S n) ≤ start + Z.of_nat (length l) →
  ∃ e, l !! Z.to_nat (i - start) = Some e ∧ slice start i (S n) l = e :: slice start (Z.succ i) n l.
Proof.
  intros Hi Hn. destruct (lookup_lt_is_Some_2 l (Z.to_nat (i - start))) as [e He]; [lia|].
  exists e. split; [done|]. unfold slice. erewrite drop_S by done. cbn [take].
  do 3 f_equal. lia.
Qed.

Lemma seqZ_step i n : seqZ i (Z.of_nat (S n)) = i :: seqZ (Z.succ i) (Z.of_nat n).
Proof. rewrite seqZ_cons by lia. do 2 f_equal. lia. Qed.

Lemma collect_spec s d l (Hs : holds s d l) n i :
  start_idx_ s ≤ i → i + Z.of_nat n ≤ start_idx_ s + Z.of_nat (length l) →
  collect_entries (seqZ i (Z.of_nat n)) s = Ok (slice (start_idx_ s) i n l).
Proof.
  revert i. induction n as [|n IH]; intros i Hi Hn; [done|].
  rewrite seqZ_step. destruct (slice_cons (start_idx_ s) i n l) as (e & He & ->); [done..|].
  cbn [collect_entries]. erewrite holds_in, He by done.
  rewrite make_clone_stored, IH; [done|lia..|].
  eapply holds_stored; [done|]. by erewrite holds_in.
Qed.

Lemma rewound_stored e : stored e → rewound e = e.
Proof.
  intros [Hp _]. unfold rewound, update. destruct e as [t v [b p]]; simpl in *. by subst.
Qed.

(** *** Packs *)

Definition encode_size (l : list log_entry) : Z :=
  foldr (λ e n, Z.of_nat (length (log_entry_encode e)) + n) 0 l.

Lemma encode_size_nonneg l : 0 ≤ encode_size l.
Proof. induction l; simpl; lia. Qed.

Lemma pack_entries_cons e l :
  pack_entries (e :: l) = (int_bytes (Z.of_nat (length (log_entry_encode e))) ++
    log_entry_encode e) ++ pack_entries l.
Proof. done. Qed.

Lemma length_pack_entries l :
  Z.of_nat (length (pack_entries l)) = 4 * Z.of_nat (length l) + encode_size l.
Proof.
  induction l as [|e l IH]; [done|]. rewrite pack_entries_cons. cbn [encode_size foldr].
  change (foldr _ 0 l) with (encode_size l). len.
Qed.

Lemma pack_loop_spec s d l (Hs : holds s d l) n i tot :
  start_idx_ s ≤ i → i + Z.of_nat n ≤ start_idx_ s + Z.of_nat (length l) →
  0 ≤ tot → tot + encode_size (slice (start_idx_ s) i n l) < 2 ^ 31 →
  pack_loop (seqZ i (Z.of_nat n)) tot s =
    (Ok ((λ e, buf_of (log_entry_encode e)) <$> slice (start_idx_ s) i n l,
         tot + encode_size (slice (start_idx_ s) i n l)), s).
Proof.
  revert i tot. induction n as [|n IH]; intros i tot Hi Hn Ht Hsz.
  { cbn. by rewrite Z.add_0_r. }
  rewrite seqZ_step. destruct (slice_cons (start_idx_ s) i n l) as (e & He & Hsl); [done..|].
  rewrite Hsl in *. cbn [encode_size foldr] in Hsz.
  change (foldr _ 0 ?l) with (encode_size l) in Hsz.
  pose proof (encode_size_nonneg (slice (start_idx_ s) (Z.succ i) n l)).
  assert (logs_ s !! i = Some e) as Hlk by by erewrite holds_in.
  cbn [pack_loop]. unfold gets at 1, mbind at 1, M_bind at 1. cbv beta iota. rewrite Hlk.
  rewrite log_entry_serialize_spec by (unfold fits; cbn [app]; lia).
  rewrite rewound_stored by (by eapply holds_stored).
  unfold mbind, M_bind, lift, modify, update. cbn [fst snd]. rewrite insert_id by done.
  replace (mk_log_store (logs_ s) (start_idx_ s)) with s by by destruct s.
  unfold buf_size. cbn [bytes buf_of buf_at app]. rewrite u64_small by (unfold is_u64; lia).
  rewrite IH by lia. cbn. change (foldr _ 0 ?l) with (encode_size l).
  unfold mret, M_ret. do 3 f_equal. lia.
Qed.

(** Even a failing [pack] leaves the store as it is: its entries are rewound. *)
Lemma pack_loop_keeps s d l (Hs : holds s d l) ids tot : (pack_loop ids tot s).2 = s.
Proof.
  revert tot. induction ids as [|i ids IH]; intros tot; [done|].
  cbn [pack_loop]. unfold gets at 1, mbind at 1, M_bind at 1. cbv beta iota.
  destruct (logs_ s !! i) as [e|] eqn:Hlk; [|done].
  unfold mbind at 1, M_bind at 1, lift at 1.
  destruct (log_entry_serialize e) as [[b e']| |] eqn:Hse; [|done..].
  assert (e' = e) as ->.
  { unfold log_entry_serialize in Hse. do 4 bind_inv Hse. injection Hse as _ <-.
    rewrite pos_set_0. apply rewound_stored. by eapply holds_stored. }
  unfold mbind at 1, M_bind at 1, modify. unfold update. rewrite insert_id by done.
  replace (mk_log_store (logs_ s) (start_idx_ s)) with s by by destruct s.
  specialize (IH (u64 (tot + buf_size b))). unfold mbind, M_bind.
  by destruct (pack_loop ids _ s) as [[[]| |] ?].
Qed.

Lemma put_sized_at l pre rest :
  fits pre rest → (length (pack_entries l) ≤ length rest)%nat →
  put_sized ((λ e, buf_of (log_entry_encode e)) <$> l) (buf_at pre rest) =
    Ok (buf_at (pre ++ pack_entries l) (drop (length (pack_entries l)) rest)).
Proof.
  revert pre rest. induction l as [|e l IH]; intros pre rest Hf Hl.
  - cbn. by rewrite app_nil_r.
  - rewrite pack_entries_cons in *. cbn [fmap list_fmap put_sized].
    unfold buf_size. cbn [bytes buf_of buf_at app]. fold (buf_of (log_entry_encode e)).
    rewrite i32_small by (unfold is_i32, fits in *; len). serial_step. serial_step.
    rewrite IH by fits_tac. rewrite !drop_drop, <-!app_assoc. do 2 f_equal. f_equal. len.
Qed.

Lemma mem_pack_spec s d l (Hs : holds s d l) i n :
  start_idx_ s ≤ i → i + Z.of_nat n ≤ start_idx_ s + Z.of_nat (length l) →
  fits [] (pack_encode (slice (start_idx_ s) i n l)) →
  mem_pack i (Z.of_nat n) s =
    (Ok (buf_at (pack_encode (slice (start_idx_ s) i n l)) []), s).
Proof.
  intros Hi Hn Hf. pose proof Hs as (_ & ? & Hb & _).
  assert (length (slice (start_idx_ s) i n l) = n) as Hlen by (unfold slice; len).
  unfold mem_pack. rewrite (u64_small (i + _)) by (unfold is_u64; lia).
  replace (i + Z.of_nat n - i) with (Z.of_nat n) by lia.
  pose proof (length_pack_entries (slice (start_idx_ s) i n l)) as Hpe. rewrite Hlen in Hpe.
  unfold pack_encode, fits in Hf. len. 
  pose proof (encode_size_nonneg (slice (start_idx_ s) i n l)).
  unfold mbind, M_bind. erewrite pack_loop_spec by (eauto; lia).
  unfold lift. f_equal. rewrite (u64_small (Z.of_nat n * 4)) by (unfold is_u64; lia).
  rewrite u64_small by (unfold is_u64; lia).
  rewrite Z.add_0_l. serial_step. rewrite pos_set_0. cbn [bytes buf_at app].
  change (buf_of (fresh ?n)) with (buf_at [] (fresh n)).
  rewrite put_int_at by fits_tac. cbn [outcome_bind].
  rewrite put_sized_at by fits_tac. unfold pack_encode. rewrite Hlen.
  do 3 f_equal. apply nil_length_inv. len.
Qed.

Lemma apply_loop_spec l s d l0 pre :
  holds s d l0 → Forall entry_ok l → Forall stored l →
  mem_next_slot s + Z.of_nat (length l) < 2 ^ 64 → fits pre (pack_entries l) →
  ∃ s', apply_loop (seqZ (mem_next_slot s) (Z.of_nat (length l)))
          (buf_at pre (pack_entries l)) s = (Ok tt, s') ∧
    start_idx_ s' = start_idx_ s ∧ holds s' d (l0 ++ l).
Proof.
  revert s l0 pre. induction l as [|e l IH]; intros s l0 pre Hs Ho Hl Hn Hf.
  { exists s. by rewrite app_nil_r. }
  inversion_clear Ho. inversion_clear Hl. cbn [length] in Hn |- *. rewrite seqZ_step.
  rewrite pack_entries_cons, <-!app_assoc in *. cbn [apply_loop].
  unfold mbind, M_bind, lift, modify. 
  rewrite get_int_at by fits_tac. rewrite i32_small by (unfold is_i32, fits in *; len).
  rewrite u64_small by (unfold is_u64, fits in *; len). rewrite alloc_at by fits_tac.
  rewrite Nat2Z.id. fold (buf_of (fresh (length (log_entry_encode e)))).
  rewrite get_buf_into_at by fits_tac.
  assert (fst <$> log_entry_deserialize (buf_of (log_entry_encode e)) = Ok (rewound e)) as Hd
    by (apply log_entry_deserialize_spec; [done|fits_tac]).
  destruct (log_entry_deserialize (buf_of (log_entry_encode e))) as [[e' b']|x|x]; try done.
  injection Hd as ->. rewrite rewound_stored by done.
  pose proof (holds_append s d l0 Hs e ltac:(done) ltac:(lia)) as Ha.
  edestruct IH as (s' & Hs' & Hst & Hh); [exact Ha|done|done| | |].
  3:{ exists s'. rewrite <-app_assoc in Hh. split_and!; [|exact Hst|exact Hh].
      rewrite <-Hs'. f_equal. f_equal. rewrite (holds_next _ _ _ Ha), (holds_next _ _ _ Hs).
      unfold update; cbn [start_idx_]. len. }
  - rewrite (holds_next _ _ _ Ha). rewrite (holds_next _ _ _ Hs) in Hn.
    unfold update; cbn [start_idx_]. len.
  - fits_tac.
Qed.

(** The least positive key. *)
Lemma first_key_spec m k :
  0 < k → is_Some (m !! k) → (∀ j, 0 < j → is_Some (m !! j) → k ≤ j) →
  first_key m = Some k.
Proof.
  intros Hk Hm Hmin. unfold first_key.
  assert (k ∈ (map_to_list m).*1) as Hin.
  { destruct Hm as [e He]. apply list_elem_of_fmap. exists (k, e). split; [done|].
    by apply elem_of_map_to_list. }
  assert (∀ j, j ∈ (map_to_list m).*1 → 0 < j → k ≤ j) as Hall.
  { intros j Hj Hj0. apply list_elem_of_fmap in Hj as ([j' e] & -> & Hj).
    apply elem_of_map_to_list in Hj. eauto. }
  clear Hm Hmin. revert Hin Hall. generalize ((map_to_list m).*1). intros ks.
  assert ((∀ j, j ∈ ks → 0 < j → k ≤ j) → 
    let r := foldr (λ k acc, if 0 <? k then
      match acc with Some a => Some (Z.min k a) | None => Some k end else acc) None ks in
    (k ∈ ks → r = Some k) ∧ match r with Some a => k ≤ a | None => True end) as H';
    [|naive_solver].
  induction ks as [|j ks IH]; intros Hall; [set_solver|]. cbn [foldr].
  destruct IH as [IH1 IH2]; [set_solver|].
  set (r := foldr _ None ks) in *. clearbody r.
  destruct (Z.ltb_spec 0 j).
  - assert (k ≤ j) by (apply Hall; [set_solver|done]). split; [|destruct r; lia].
    intros Hin. apply elem_of_cons in Hin as [->|Hin].
    + destruct r; [f_equal; lia|done].
    + rewrite (IH1 Hin). f_equal. lia.
  - split; [|done]. intros Hin. apply elem_of_cons in Hin as [->|Hin]; [lia|auto].
Qed.

Lemma holds_first_key s d l : holds s d l → l ≠ [] → first_key (logs_ s) = Some (start_idx_ s).
Proof.
  intros Hs Hl. pose proof Hs as (_ & ? & _). apply first_key_spec; [lia| |].
  - erewrite holds_in by (eauto; lia). rewrite Z.sub_diag. destruct l; [done|]. by eexists.
  - intros j Hj [e He]. destruct (decide (start_idx_ s ≤ j)); [done|].
    erewrite holds_below in He by (eauto; lia). done.
Qed.

Lemma mem_apply_pack_spec s d l0 l b :
  holds s d l0 → Forall entry_ok l → Forall stored l → l ≠ [] →
  mem_next_slot s + Z.of_nat (length l) < 2 ^ 64 →
  fits [] (pack_encode l) → bytes b = pack_encode l →
  ∃ s', mem_apply_pack (mem_next_slot s) b s = (Ok tt, s') ∧
    start_idx_ s' = start_idx_ s ∧ holds s' d (l0 ++ l).
Proof.
  intros Hs Ho Hl Hne Hn Hf Hb. unfold pack_encode in *. pose proof (length_pack_entries l) as Hp.
  pose proof (encode_size_nonneg l).
  assert (0 ≤ mem_next_slot s) by (pose proof Hs as (_ & ? & _); erewrite holds_next by eauto; lia).
  edestruct apply_loop_spec as (s' & Hs' & Hst & Hh); [done..| |].
  { instantiate (1 := int_bytes (Z.of_nat (length l))). fits_tac. }
  exists s'. unfold mem_apply_pack, mbind, M_bind, lift, modify.
  rewrite pos_set_0, Hb. unfold buf_of. rewrite get_int_at by fits_tac.
  rewrite i32_small by (unfold is_i32, fits in *; len).
  rewrite u64_small by (unfold is_u64, fits in *; len).
  replace (mem_next_slot s + Z.of_nat (length l) - mem_next_slot s)
    with (Z.of_nat (length l)) by lia.
  rewrite app_nil_l, Hs'. erewrite holds_first_key by (eauto; by destruct l0, l).
  split_and!; [|done..]. unfold update; simpl. by destruct s'.
Qed.

(** *** The instance *)

#[local] Obligation Tactic := idtac.
#[global] Program Instance mem_log_store_laws : log_store_laws in_memory_log_store :=
  {| log_ok := mem_ok; view := mem_view |}.
Next Obligation.
  intros s (d & l & Hs). erewrite holds_view by done. pose proof Hs as (_ & ? & ? & _). done.
Qed.
Next Obligation.
  intros s (d & l & Hs). erewrite holds_view by done. pose proof Hs as (_ & _ & _ & Hf & _).
  by inversion_clear Hf.
Qed.
Next Obligation. intros s (d & l & Hs). erewrite holds_view by done. by eapply holds_next. Qed.
Next Obligation.
  intros s i e (d & l & Hs) Hi He. erewrite holds_view in He by done.
  eapply holds_entry_at, holds_hit; eauto. pose proof Hs as (_ & ? & _). cbn in Hi. 
  unfold mem_start_index in *. lia.
Qed.
Next Obligation.
  intros s i (d & l & Hs) Hi Hm. exists d. pose proof Hs as (_ & _ & _ & _ & Ht).
  split; [|done]. eapply holds_entry_at, holds_miss; eauto.
Qed.
Next Obligation.
  intros s i e (d & l & Hs) He. cbn in *. unfold mem_entry_at, mem_term_at in *.
  unfold find_or_dummy in *. rewrite (holds_dummy _ _ _ Hs) in *.
  destruct (logs_ s !! i) as [e'|] eqn:E; cbn in He;
    rewrite make_clone_stored in He by eauto using holds_stored, holds_dummy; by injection He as ->.
Qed.
Next Obligation.
  intros s (d & l & Hs). cbn. unfold mem_last_entry, mem_entry_at.
  rewrite (u64_small (_ - 1)); [done|]. erewrite holds_next by done.
  pose proof Hs as (_ & ? & ? & _). unfold is_u64. lia.
Qed.
Next Obligation.
  intros s e (d & l & Hs) He Hn. cbn in *. unfold mem_append, mbind, M_bind, lift, gets, modify.
  rewrite make_clone_spec by done. eexists. split; [done|].
  pose proof (holds_append s d l Hs (clone e) (stored_clone _ He) Hn) as Ha.
  split_and!; [by exists d, (l ++ [clone e])|done|].
  by rewrite (holds_view _ _ _ Ha), (holds_view _ _ _ Hs).
Qed.
Next Obligation.
  intros s i e (d & l & Hs) He Hi Hn. cbn in *.
  unfold mem_write_at, mbind, M_bind, lift, gets, modify.
  rewrite make_clone_spec by done. eexists. split; [done|].
  pose proof (holds_write_at s d l Hs i (clone e) (stored_clone _ He) Hi Hn) as Ha.
  split_and!; [by eexists d, _|done|].
  by rewrite (holds_view _ _ _ Ha), (holds_view _ _ _ Hs).
Qed.
Next Obligation.
  intros s a b (d & l & Hs) Ha Hb Hv. cbn in *. unfold mem_start_index in *.
  pose proof (holds_next _ _ _ Hs) as Hn. erewrite holds_view by done.
  unfold mem_log_entries, vector_max_size. rewrite u64_small by (unfold is_u64; lia).
  destruct (Z.ltb_spec (2 ^ 59 - 1) (b - a)); [lia|].
  rewrite <-(Z2Nat.id (b - a)) at 1 by lia. erewrite collect_spec; eauto; lia.
Qed.
Next Obligation.
  intros s i cnt (d & l & Hs) Hi Hc Hn. cbn in *. unfold mem_start_index in *.
  pose proof (holds_next _ _ _ Hs) as Hn'. erewrite holds_view by done. intros Hf.
  eexists. split.
  - rewrite <-(Z2Nat.id cnt) at 1 by lia. eapply mem_pack_spec; eauto; lia.
  - cbn. by rewrite app_nil_r.
Qed.
Next Obligation.
  intros s i cnt (d & l & Hs). cbn. unfold mem_pack, mbind, M_bind, lift.
  pose proof (pack_loop_keeps s d l Hs (seqZ i (u64 (i + cnt) - i)) 0) as Hk.
  by destruct (pack_loop _ 0 s) as [[[]| |] ?].
Qed.
Next Obligation.
  intros s l b (d & l0 & Hs) Ho Hl Hne Hn Hf Hb. cbn in *.
  destruct (mem_apply_pack_spec s d l0 l b) as (s' & Hs' & Hst & Hh); [done..|].
  exists s'. split_and!; [done|by eexists _, _|done|].
  by rewrite (holds_view _ _ _ Hh), (holds_view _ _ _ Hs).
Qed.
Next Obligation.
  intros s i (d & l & Hs) Hi Hb. cbn in *. unfold mem_start_index in *.
  unfold mem_compact, mbind, M_bind, gets, modify, id.
  destruct (Z.eqb_spec i (2 ^ 64 - 1)); [lia|]. eexists. split; [done|].
  pose proof (holds_compact s d l Hs i Hi Hb) as Hc.
  pose proof Hs as (_ & ? & _). unfold update; simpl. rewrite u64_small by (unfold is_u64; lia).
  split_and!; [by eexists _, _|done|].
  by rewrite (holds_view _ _ _ Hc), (holds_view _ _ _ Hs).
Qed.

Lemma mem_new_holds : holds mem_new dummy_entry [].
Proof.
  split_and!; simpl; [done|lia|lia| |done]. constructor; [|done].
  unfold stored, buf_ok, buf_size; simpl. split; [done|]. split; [lia|done].
Qed.
End implementation.

(** ** Clients of the interface *)

Section client.
Context `{log_store_laws LS}.

(** The entry of index [i], if the store holds it, and its term (0 if not). *)
Definition entry_view (s : LS) (i : Z) : option log_entry :=
  if i <? start_index s then None else view s !! Z.to_nat (i - start_index s).
Definition term_view (s : LS) (i : Z) : Z := from_option le_term 0 (entry_view s i).

Lemma entry_at_view s i :
  log_ok s → 0 ≤ i →
  ∃ e, entry_at i s = Ok e ∧ le_term e = term_view s i ∧
       (∀ e', entry_view s i = Some e' → e = e').
Proof.
  intros Hs Hi. unfold term_view, entry_view. pose proof (next_slot_spec s Hs) as Hn.
  destruct (Z.ltb_spec i (start_index s)).
  - destruct (entry_at_miss s i) as (d & Hd & Ht); [done..|by left|]. by exists d.
  - destruct (view s !! Z.to_nat (i - start_index s)) as [e|] eqn:E.
    + exists e. split_and!; [by apply entry_at_hit|done|by intros ? [= ->]].
    + apply lookup_ge_None in E. destruct (entry_at_miss s i) as (d & Hd & Ht); [done..| |].
      * right. lia.
      * by exists d.
Qed.

Lemma term_at_view s i : log_ok s → 0 ≤ i → term_at i s = Ok (term_view s i).
Proof.
  intros Hs Hi. destruct (entry_at_view s i) as (e & He & <- & _); [done..|].
  by apply term_at_entry.
Qed.

(** Operations that change a store, and what they mean on a log. *)
Inductive log_op :=
  | OAppend (e : log_entry)
  | OWriteAt (i : Z) (e : log_entry)
  | OApplyPack (l : list log_entry)
  | OCompact (i : Z).

Definition run_op (o : log_op) : M LS unit :=
  match o with
  | OAppend e => append e ;; mret tt
  | OWriteAt i e => write_at i e
  | OApplyPack l => i ← gets next_slot; apply_pack i (buf_of (pack_encode l))
  | OCompact i => compact i ;; mret tt
  end.

Definition abstract_op (o : log_op) (a : Z * list log_entry) : Z * list log_entry :=
  let '(start, l) := a in
  match o with
  | OAppend e => (start, l ++ [clone e])
  | OWriteAt i e => (start, take (Z.to_nat (i - start)) l ++ [clone e])
  | OApplyPack l' => (start, l ++ l')
  | OCompact i => (i + 1, drop (Z.to_nat (i + 1 - start)) l)
  end.

(** The indices and sizes the callers must respect: an overwrite is of an
    entry that is there. *)
Definition op_allowed (o : log_op) (a : Z * list log_entry) : Prop :=
  let '(start, l) := a in
  let next := start + Z.of_nat (length l) in
  match o with
  | OAppend e => buf_ok (le_buf e) ∧ next + 1 < 2 ^ 64
  | OWriteAt i e => buf_ok (le_buf e) ∧ start ≤ i < next ∧ i + 1 < 2 ^ 64
  | OApplyPack l' => Forall entry_ok l' ∧ Forall stored l' ∧ l' ≠ [] ∧
      next + Z.of_nat (length l') < 2 ^ 64 ∧ fits [] (pack_encode l')
  | OCompact i => start - 1 ≤ i ∧ i + 1 < 2 ^ 64
  end.

Fixpoint run_ops (os : list log_op) : M LS unit :=
  match os with [] => mret tt | o :: os' => run_op o ;; run_ops os' end.
Definition abstract_ops (os : list log_op) (a : Z * list log_entry) : Z * list log_entry :=
  foldl (λ a o, abstract_op o a) a os.
Fixpoint ops_allowed (os : list log_op) (a : Z * list log_entry) : Prop :=
  match os with
  | [] => True
  | o :: os' => op_allowed o a ∧ ops_allowed os' (abstract_op o a)
  end.

Definition abstraction (s : LS) : Z * list log_entry := (start_index s, view s).

Lemma run_op_refines o s :
  log_ok s → op_allowed o (abstraction s) →
  ∃ s', run_op o s = (Ok tt, s') ∧ log_ok s' ∧ abstraction s' = abstract_op o (abstraction s).
Proof.
  intros Hs. unfold abstraction, op_allowed, abstract_op.
  pose proof (next_slot_spec s Hs) as Hn. rewrite <-Hn.
  destruct o as [e|i e|l|i]; cbn [run_op];
    unfold mbind, M_bind, gets, mret, M_ret; intros Hp; destruct_and?.
  - destruct (append_spec s e) as (s' & -> & Hok & Hst & Hv); [done..|]. exists s'. by rewrite Hst, Hv.
  - destruct (write_at_spec s i e) as (s' & -> & Hok & Hst & Hv); [done|done|lia|done|]. exists s'. by rewrite Hst, Hv.
  - destruct (apply_pack_spec s l (buf_of (pack_encode l))) as (s' & -> & Hok & Hst & Hv); [done..|].
    exists s'. by rewrite Hst, Hv.
  - destruct (compact_spec s i) as (s' & -> & Hok & Hst & Hv); [done..|]. exists s'. by rewrite Hst, Hv.
Qed.

Lemma run_ops_refine os s :
  log_ok s → ops_allowed os (abstraction s) →
  ∃ s', run_ops os s = (Ok tt, s') ∧ log_ok s' ∧
        abstraction s' = abstract_ops os (abstraction s).
Proof.
  revert s. induction os as [|o os IH]; intros s Hs Hp; [by exists s|].
  destruct Hp as [Ho Hp]. destruct (run_op_refines o s) as (s1 & Hr & Hok & Ha); [done..|].
  rewrite <-Ha in Hp. destruct (IH s1) as (s' & Hr' & Hok' & Ha'); [done..|].
  exists s'. split_and!; [|done|by rewrite Ha', Ha].
  cbn [run_ops]. unfold mbind, M_bind. by rewrite Hr.
Qed.
End client.

(** C23: the in-memory store is a log.  Any sequence of appends, overwrites of
    entries that are there, packs applied at the end and compactions, run on a
    new store, succeeds, and afterwards [start_index], [next_slot], [entry_at]
    and [term_at] of the indices in the log, [term_at] of those before it, and
    [log_entries] of ranges in the log that are not empty answer as the list
    of entries says: an overwrite has cut the log behind it, a compaction its
    front. *)
Theorem in_memory_log_refines `{FreshMem} (os : list log_op) :
  ops_allowed os (1, []) →
  let '(start, l) := abstract_ops os (1, []) in
  ∃ s, run_ops os mem_new = (Ok tt, s) ∧
    start_index s = start ∧ next_slot s = start + Z.of_nat (length l) ∧
    (∀ i e, start ≤ i → l !! Z.to_nat (i - start) = Some e →
       term_at i s = Ok (le_term e) ∧ entry_at i s = Ok e) ∧
    (∀ i, 0 ≤ i < start → term_at i s = Ok 0) ∧
    (∀ a b, start ≤ a < b → b ≤ start + Z.of_nat (length l) → b - a < 2 ^ 59 →
       log_entries a b s = Ok (take (Z.to_nat (b - a)) (drop (Z.to_nat (a - start)) l))).
Proof.
  intros Hp. assert (abstraction mem_new = (1, [])) as Ha.
  { unfold abstraction. cbn [view mem_log_store_laws]. by rewrite (holds_view _ _ _ mem_new_holds). }
  destruct (run_ops_refine os mem_new) as (s & Hr & Hok & Hs).
  { eexists _, _. apply mem_new_holds. }
  { by rewrite Ha. }
  rewrite Ha in Hs. rewrite <-Hs. unfold abstraction. exists s.
  pose proof (next_slot_spec s Hok) as Hn. rewrite <-Hn.
  split_and!; [done..| | |].
  - intros i e Hi He. pose proof (entry_at_hit s i e Hok Hi He).
    split; [by apply term_at_entry|done].
  - intros i [Hi Hm]. destruct (entry_at_miss s i Hok Hi (or_introl Hm)) as (d & Hd & Ht).
    rewrite <-Ht. by apply term_at_entry.
  - intros a b Hab Hb Hv. apply log_entries_spec; [done|lia|done..].
Qed.

Definition sample_ops : list log_op :=
  [OAppend sample_entry; OAppend sample_entry; OApplyPack [clone sample_entry];
   OWriteAt 2 sample_entry; OCompact 1].

Lemma in_memory_log_refines_witness :
  ∃ s, run_ops (H := mem_log_store (H := zero_mem)) sample_ops (mem_new (H := zero_mem)) = (Ok tt, s) ∧
       next_slot (log_store := mem_log_store (H := zero_mem)) s = 3.
Proof.
  destruct (in_memory_log_refines (H := zero_mem) sample_ops) as (s & Hr & _ & Hn & _).
  - unfold ops_allowed, sample_ops, op_allowed, abstract_op. cbn [length app take drop].
    ok_tac; unfold clone, stored, buf_ok, fits, buf_size, update; cbn; ok_tac.
  - exists s. split; [exact Hr|exact Hn].
Defined.

(** a pack moves a range of the log to another server.  Packing the [cnt]
    entries from [i] of one store and applying the bytes at the end of another
    (of any implementation) appends exactly those entries there, and leaves
    the source as it was. *)
Theorem pack_transfers `{log_store_laws LS1} `{log_store_laws LS2}
    (src : LS1) (dst : LS2) (i cnt : Z) :
  log_ok src → log_ok dst → start_index src ≤ i → 0 < cnt < 2 ^ 31 →
  i + cnt ≤ next_slot src → next_slot dst + cnt < 2 ^ 64 →
  let l := take (Z.to_nat cnt) (drop (Z.to_nat (i - start_index src)) (view src)) in
  Forall entry_ok l → fits [] (pack_encode l) →
  ∃ b dst', pack i cnt src = (Ok b, src) ∧
    apply_pack (next_slot dst) b dst = (Ok tt, dst') ∧
    start_index dst' = start_index dst ∧ view dst' = view dst ++ l.
Proof.
  intros Hs Hd Hi Hc Hn Hb l Ho Hf. pose proof (next_slot_spec src Hs) as Hns.
  assert (length l = Z.to_nat cnt) as Hl by (subst l; len).
  destruct (pack_spec src i cnt) as (b & Hpk & Hbytes); [done|done|lia|lia|done|].
  destruct (apply_pack_spec dst l b) as (dst' & Ha & _ & Hst & Hv); try done; try lia.
  - apply Forall_take, Forall_drop. by apply view_stored.
  - intros ->. simpl in Hl. lia.
  - by exists b, dst'.
Qed.

Definition sample_store : in_memory_log_store :=
  (run_ops (H := mem_log_store (H := zero_mem))
     [OAppend sample_entry; OAppend sample_entry] (mem_new (H := zero_mem))).2.

Lemma pack_transfers_witness :
  ∃ b dst', mem_pack (H := zero_mem) 1 2 sample_store = (Ok b, sample_store) ∧
    mem_apply_pack (H := zero_mem) 1 b (mem_new (H := zero_mem)) = (Ok tt, dst').
Proof.
  destruct (@pack_transfers in_memory_log_store mem_log_store (mem_log_store_laws (H := zero_mem))
    in_memory_log_store mem_log_store (mem_log_store_laws (H := zero_mem))
    sample_store (mem_new (H := zero_mem)) 1 2) as (b & dst' & Hb & Hd & _).
  - exists (dummy_entry (H := zero_mem)), [clone sample_entry; clone sample_entry].
    split_and!; [vm_compute; reflexivity|vm_compute; done|vm_compute; done| |done].
    repeat constructor; unfold buf_ok, buf_size; cbn; lia.
  - eexists _, _. apply mem_new_holds.
  - vm_compute. done.
  - lia.
  - vm_compute. done.
  - vm_compute. done.
  - match goal with |- Forall _ ?l =>
      replace l with [clone sample_entry; clone sample_entry] by (vm_compute; reflexivity) end.
    ok_tac.
  - vm_compute. done.
  - exists b, dst'. split; [exact Hb|exact Hd].
Defined.
