(* ===== verification/StateMachine.v ===== *)
(** * The state machine

    The interface the server drives (src/raft_enclave/raft/include/
    state_machine_interface.hxx), as a class, and the one the enclave is built
    with, [echo_state_machine] (src/raft_enclave/app_impl/
    echo_state_machine.hxx).  The lines it prints are not modelled; that
    building them reads a string out of the buffer is. *)

From S2P Require Import Prelude Buffer Config Messages.

(** [create_snapshot] gets a completion handler.  Its result says whether the
    handler was called before the call returned, and with what; the caller
    runs it. *)
Class state_machine (SM : Type) := {
  sm_commit : Z → buffer → M SM unit;
  sm_pre_commit : Z → buffer → M SM unit;
  sm_rollback : Z → buffer → M SM unit;
  save_snapshot_data : snapshot → Z → buffer → M SM unit;
  apply_snapshot : snapshot → M SM bool;
  read_snapshot_data : snapshot → Z → buffer → M SM (Z * buffer);
  sm_last_snapshot : SM → option snapshot;
  last_commit_index : SM → Z;
  create_snapshot : snapshot → M SM (option bool);
}.

(** What the server relies on: on the payloads the machine understands the
    calls return, and [last_commit_index] follows [commit]. *)
Class state_machine_laws (SM : Type) `{state_machine SM} := {
  payload_ok : buffer → Prop;
  sm_commit_spec m i b : payload_ok b →
    ∃ m', sm_commit i b m = (Ok tt, m') ∧ last_commit_index m' = i ∧
          sm_last_snapshot m' = sm_last_snapshot m;
  sm_pre_commit_spec m i b : payload_ok b → sm_pre_commit i b m = (Ok tt, m);
  sm_rollback_spec m i b : payload_ok b → sm_rollback i b m = (Ok tt, m);
}.

(** ** The echo state machine *)

Record echo_state_machine := mk_echo {
  last_committed_idx_ : Z;
  echo_last_snapshot_ : option snapshot;
}.
#[global] Instance eta_echo : Eta echo_state_machine := λ m,
  mk_echo (last_committed_idx_ m) (echo_last_snapshot_ m).

Definition echo_new : echo_state_machine := mk_echo 0 None.

(** [string msg = data.get_str()], and [%s] of it: undefined for [nilptr]. *)
Definition read_payload (data : buffer) : outcome (list byte) :=
  match (get_str data).1 with Some s => Ok s | None => Fault null_deref end.

Definition echo_pre_commit (log_idx : Z) (data : buffer) : M echo_state_machine unit :=
  _ ← lift (read_payload data); mret tt.

Definition echo_commit (log_idx : Z) (data : buffer) : M echo_state_machine unit :=
  _ ← lift (read_payload data);
  last_committed_idx_ <~ log_idx.

Definition echo_rollback (log_idx : Z) (data : buffer) : M echo_state_machine unit :=
  _ ← lift (read_payload data); mret tt.

Definition echo_save_snapshot_data (s : snapshot) (offset : Z) (data : buffer) :
    M echo_state_machine unit :=
  _ ← lift (read_payload data); mret tt.

Section code.
Context `{FreshMem}.

(** The snapshot is kept as a copy made through its byte format. *)
Definition clone_snapshot (s : snapshot) : outcome snapshot :=
  b ← snapshot_serialize s;
  '(s', _) ← snapshot_deserialize b;
  Ok s'.

Definition echo_apply_snapshot (s : snapshot) : M echo_state_machine bool :=
  s' ← lift (clone_snapshot s);
  echo_last_snapshot_ <~ Some s' ;;
  mret true.

Definition echo_read_snapshot_data (s : snapshot) (offset : Z) (data : buffer) :
    M echo_state_machine (Z * buffer) := mret (0, data).

Definition echo_create_snapshot (s : snapshot) : M echo_state_machine (option bool) :=
  s' ← lift (clone_snapshot s);
  echo_last_snapshot_ <~ Some s' ;;
  mret (Some true).

#[global] Instance echo_sm : state_machine echo_state_machine := {|
  sm_commit := echo_commit;
  sm_pre_commit := echo_pre_commit;
  sm_rollback := echo_rollback;
  save_snapshot_data := echo_save_snapshot_data;
  apply_snapshot := echo_apply_snapshot;
  read_snapshot_data := echo_read_snapshot_data;
  sm_last_snapshot := echo_last_snapshot_;
  last_commit_index := last_committed_idx_;
  create_snapshot := echo_create_snapshot;
|}.

(** A payload the echo machine can print: a C string that is not empty. *)
Definition echo_payload_ok (b : buffer) : Prop := is_ok (read_payload b) = true.

#[global] Instance echo_payload_dec b : Decision (echo_payload_ok b).
Proof. unfold echo_payload_ok. apply _. Defined.

#[local] Obligation Tactic := idtac.
#[global] Program Instance echo_laws : state_machine_laws echo_state_machine :=
  {| payload_ok := echo_payload_ok |}.
Next Obligation.
  intros m i b Hb. unfold echo_payload_ok in Hb. cbn.
  unfold echo_commit, mbind, M_bind, lift, modify.
  destruct (read_payload b); [|done..]. by eexists.
Qed.
Next Obligation.
  intros m i b Hb. unfold echo_payload_ok in Hb. cbn.
  unfold echo_pre_commit, mbind, M_bind, lift. by destruct (read_payload b).
Qed.
Next Obligation.
  intros m i b Hb. unfold echo_payload_ok in Hb. cbn.
  unfold echo_rollback, mbind, M_bind, lift. by destruct (read_payload b).
Qed.

Lemma clone_snapshot_spec s :
  snapshot_ok s → fits [] (snapshot_encode s) → clone_snapshot s = Ok s.
Proof.
  intros Hs Hf. unfold clone_snapshot. rewrite snapshot_serialize_spec by done.
  cbn [mbind outcome_bind]. unfold buf_of. rewrite <-(app_nil_r (snapshot_encode s)).
  rewrite snapshot_deserialize_spec; [done|done|by rewrite app_nil_r].
Qed.
End code.
