(* ===== verification/StateMgr.v ===== *)
(** * The state manager

    [in_memory_state_mgr] (src/raft_enclave/app_impl/in_memory_state_mgr.hxx):
    what the server saves, kept in memory only, as copies made through the byte
    formats; every start of the enclave's server makes a new one.
    [load_config] hands out the manager's own object, so until the first
    [save_config] the server and the manager share one configuration
    ([shared_config_]). *)

From S2P Require Import Prelude Buffer Config.

Record in_memory_state_mgr := mk_state_mgr {
  my_id_ : Z;
  my_endpoint_ : list byte;
  saved_config_ : cluster_config;
  saved_state_ : option srv_state;
  shared_config_ : bool;
}.
#[global] Instance eta_state_mgr : Eta in_memory_state_mgr := λ m,
  mk_state_mgr (my_id_ m) (my_endpoint_ m) (saved_config_ m) (saved_state_ m)
    (shared_config_ m).

(** The constructor: a cluster of one. *)
Definition new_state_mgr (srv_id : Z) (endpoint : list byte) : in_memory_state_mgr :=
  mk_state_mgr srv_id endpoint
    (mk_cluster_config 0 0 [mk_srv_config srv_id endpoint]) None false.

Definition load_config : M in_memory_state_mgr cluster_config :=
  shared_config_ <~ true ;;
  gets saved_config_.

(** [None] is the null pointer of a manager that has saved nothing. *)
Definition read_state (m : in_memory_state_mgr) : option srv_state := saved_state_ m.

(** The server changed the object it got from [load_config]. *)
Definition config_written (c : cluster_config) : M in_memory_state_mgr unit :=
  modify (λ m, if shared_config_ m then m <| saved_config_ := c |> else m).

Section code.
Context `{FreshMem}.

Definition save_config (c : cluster_config) : M in_memory_state_mgr unit :=
  buf ← lift (cluster_config_serialize c);
  '(c', _) ← lift (cluster_config_deserialize buf);
  saved_config_ <~ c' ;;
  shared_config_ <~ false.

Definition save_state (s : srv_state) : M in_memory_state_mgr unit :=
  buf ← lift (srv_state_serialize s);
  '(s', _) ← lift (srv_state_deserialize buf);
  saved_state_ <~ Some s'.

(** ** Persistence keeps values *)

Lemma save_state_spec s m :
  srv_state_ok s → save_state s m = (Ok tt, m <| saved_state_ := Some s |>).
Proof.
  intros Hs. unfold save_state, mbind, M_bind, lift, modify.
  rewrite srv_state_serialize_spec by done. unfold buf_of.
  rewrite <-(app_nil_r (srv_state_encode s)).
  rewrite srv_state_deserialize_spec; [done|done|].
  unfold fits, srv_state_encode. len.
Qed.

Lemma save_config_spec c m :
  cluster_config_ok c → fits [] (cluster_config_encode c) →
  save_config c m = (Ok tt, m <| saved_config_ := c |> <| shared_config_ := false |>).
Proof.
  intros Hc Hf. unfold save_config, mbind, M_bind, lift, modify.
  rewrite cluster_config_serialize_spec by done. unfold buf_of.
  rewrite <-(app_nil_r (cluster_config_encode c)).
  rewrite cluster_config_deserialize_spec; [done|done|by rewrite app_nil_r].
Qed.
End code.
