(* ===== verification/Scheduler.v ===== *)
(** * Delayed tasks and the scheduler

    [delayed_task] and [timer_task] (src/raft_enclave/raft/include/async_task)
    and their scheduler, the [ServicePort] of src/raft_enclave/port/
    service_port.hxx with the callback the host calls when a timer expires
    (service_port.cxx).  Task objects live in a heap; the pool keeps a
    reference to every task that was ever scheduled, so none is freed. *)

From S2P Require Import Prelude Buffer Config Messages.

(** What [exec_] of a task was bound to: the election handler, the heartbeat
    handler of a peer object, the retry of a request to a peer object. *)
Inductive task_body :=
  | TElection
  | THeartbeat (peer_obj : nat)
  | TRetry (peer_obj : nat) (req : req_msg).

Record delayed_task := mk_delayed_task {
  cancelled_ : bool;
  impl_ctx_ : option Z;
  exec_ : task_body;
}.
#[global] Instance eta_delayed_task : Eta delayed_task := λ t,
  mk_delayed_task (cancelled_ t) (impl_ctx_ t) (exec_ t).

(** Calls out of the enclave to the host's timers. *)
Inductive timer_ocall :=
  | ocall_schedule_delayed_task (uid milliseconds : Z)
  | ocall_cancel_delayed_task (uid : Z).

Record ServicePort := mk_service_port {
  last_task_uid_ : Z;
  service_task_pool : gmap Z nat;
  tasks : gmap nat delayed_task;
  next_task : nat;
  timer_calls : list timer_ocall;
}.
#[global] Instance eta_service_port : Eta ServicePort := λ s,
  mk_service_port (last_task_uid_ s) (service_task_pool s) (tasks s) (next_task s)
    (timer_calls s).

Definition new_service_port : ServicePort := mk_service_port 0 ∅ ∅ 0 [].

(** [cs_new<timer_task<...>>(exec)]. *)
Definition new_task (b : task_body) : M ServicePort nat :=
  t ← gets next_task;
  modify (update tasks <[t := mk_delayed_task false None b]>) ;;
  next_task <~ S t ;;
  mret t.

Definition get_task (t : nat) : M ServicePort delayed_task :=
  o ← gets (λ s, tasks s !! t);
  match o with Some d => mret d | None => faulting dangling_ref end.

Definition set_task (t : nat) (d : delayed_task) : M ServicePort unit :=
  modify (update tasks <[t := d]>).

Definition emit_timer (c : timer_ocall) : M ServicePort unit :=
  modify (update timer_calls (λ l, l ++ [c])).

Definition schedule (t : nat) (milliseconds : Z) : M ServicePort unit :=
  d ← get_task t;
  uid ← match impl_ctx_ d with
        | None =>
            modify (update last_task_uid_ (λ u, u64 (u + 1))) ;;
            gets last_task_uid_
        | Some u => mret u
        end;
  set_task t (d <| impl_ctx_ := Some uid |> <| cancelled_ := false |>) ;;
  modify (update service_task_pool <[uid := t]>) ;;
  emit_timer (ocall_schedule_delayed_task uid milliseconds).

Definition cancel_impl (t : nat) : M ServicePort unit :=
  d ← get_task t;
  match impl_ctx_ d with
  | Some uid => emit_timer (ocall_cancel_delayed_task uid)
  | None => mret tt
  end.

(** [delayed_task_scheduler::cancel]. *)
Definition cancel (t : nat) : M ServicePort unit :=
  cancel_impl t ;;
  d ← get_task t;
  set_task t (d <| cancelled_ := true |>).

(** [ecall_timer_expired_callback] down to [delayed_task::execute]: the task
    and what it runs, if anything. *)
Definition expired (task_uid : Z) (success : bool) (s : ServicePort) : option (nat * task_body) :=
  t ← service_task_pool s !! task_uid;
  d ← tasks s !! t;
  if success && negb (cancelled_ d) then Some (t, exec_ d) else None.

(** ** The invariant: a pool entry points to a task that carries its uid *)

Record port_ok (s : ServicePort) : Prop := {
  pool_task uid t : service_task_pool s !! uid = Some t →
    ∃ d, tasks s !! t = Some d ∧ impl_ctx_ d = Some uid;
  task_pool uid t d : tasks s !! t = Some d → impl_ctx_ d = Some uid →
    service_task_pool s !! uid = Some t;
  uid_bound uid t : service_task_pool s !! uid = Some t → 0 < uid ≤ last_task_uid_ s;
  fresh_task t : (next_task s ≤ t)%nat → tasks s !! t = None;
  uid_nonneg : 0 ≤ last_task_uid_ s;
}.

Lemma new_port_ok : port_ok new_service_port.
Proof. split; cbn; intros; try done; lia. Qed.

Lemma get_task_Some t d s : tasks s !! t = Some d → get_task t s = (Ok d, s).
Proof. intros H. unfold get_task, mbind, M_bind, gets. by rewrite H. Qed.

Lemma new_task_spec b s :
  new_task b s =
    (Ok (next_task s),
     s <| tasks ::= <[next_task s := mk_delayed_task false None b]> |>
       <| next_task := S (next_task s) |>).
Proof. done. Qed.

Lemma new_task_ok b s : port_ok s → port_ok (new_task b s).2.
Proof.
  intros Hs. rewrite new_task_spec. unfold update; cbn [snd].
  split; cbn [tasks next_task service_task_pool last_task_uid_].
  - intros uid t Ht. destruct (pool_task _ Hs _ _ Ht) as (d & Hd & Hu). exists d. split; [|done].
    rewrite lookup_insert_ne; [done|]. intros <-. by rewrite (fresh_task _ Hs) in Hd.
  - intros uid t d. destruct (decide (t = next_task s)) as [->|].
    + rewrite lookup_insert_eq. by intros [= <-].
    + rewrite lookup_insert_ne by done. by apply (task_pool _ Hs).
  - by apply (uid_bound _ Hs).
  - intros t Ht. rewrite lookup_insert_ne by lia. apply (fresh_task _ Hs). lia.
  - by apply (uid_nonneg _ Hs).
Qed.

(** The state [schedule] leaves, for a task that exists. *)
Lemma schedule_spec t ms d s :
  tasks s !! t = Some d →
  ∃ uid last,
    (impl_ctx_ d = Some uid ∧ last = last_task_uid_ s ∨
     impl_ctx_ d = None ∧ uid = u64 (last_task_uid_ s + 1) ∧ last = uid) ∧
    schedule t ms s = (Ok tt,
      mk_service_port last (<[uid := t]> (service_task_pool s))
        (<[t := mk_delayed_task false (Some uid) (exec_ d)]> (tasks s)) (next_task s)
        (timer_calls s ++ [ocall_schedule_delayed_task uid ms])).
Proof.
  intros Hd. unfold schedule. unfold mbind at 1, M_bind at 1. rewrite (get_task_Some _ d) by done.
  destruct (impl_ctx_ d) as [u|] eqn:Eu; eexists _, _; (split; [eauto 6|done]).
Qed.

Lemma cancel_spec t d s :
  tasks s !! t = Some d →
  ∃ calls, cancel t s = (Ok tt,
    s <| tasks ::= <[t := d <| cancelled_ := true |>]> |> <| timer_calls := calls |>).
Proof.
  intros Hd. unfold cancel, cancel_impl. unfold mbind, M_bind.
  rewrite (get_task_Some _ d) by done.
  destruct (impl_ctx_ d); cbn; rewrite (get_task_Some _ d) by done; by eexists.
Qed.

Lemma schedule_ok t ms s :
  port_ok s → last_task_uid_ s + 1 < 2 ^ 64 → port_ok (schedule t ms s).2.
Proof.
  intros Hs Hb. pose proof (uid_nonneg _ Hs) as H0. destruct (tasks s !! t) as [d|] eqn:Hd; cycle 1.
  { unfold schedule, get_task, mbind, M_bind, gets. by rewrite Hd. }
  destruct (schedule_spec t ms d s Hd) as (uid & last & Hu & ->). cbn [snd].
  rewrite u64_small in Hu by (unfold is_u64; lia).
  assert (0 < uid ≤ last ∧ last_task_uid_ s ≤ last) as Hul.
  { destruct Hu as [[Hu ->]|(_ & -> & ->)]; [|lia].
    pose proof (uid_bound _ Hs _ _ (task_pool _ Hs _ _ _ Hd Hu)). lia. }
  assert (∀ t', service_task_pool s !! uid = Some t' → t' = t) as Huniq.
  { intros t' Ht'. destruct Hu as [[Hu _]|(_ & -> & _)].
    - pose proof (task_pool _ Hs _ _ _ Hd Hu). congruence.
    - pose proof (uid_bound _ Hs _ _ Ht'). lia. }
  assert (∀ t' uid', t' = t → service_task_pool s !! uid' = Some t' → uid' = uid) as Hinj.
  { intros t' uid' -> Ht'. destruct (pool_task _ Hs _ _ Ht') as (d' & Hd' & Hu').
    destruct Hu as [[Hu _]|(Hu & _)]; congruence. }
  split; cbn [tasks next_task service_task_pool last_task_uid_].
  - intros uid' t'. destruct (decide (uid' = uid)) as [->|Hne].
    + rewrite lookup_insert_eq. intros [= <-]. rewrite lookup_insert_eq. by eexists.
    + rewrite lookup_insert_ne by done. intros Ht'.
      rewrite lookup_insert_ne by (intros <-; by apply Hne, (Hinj t)).
      by apply (pool_task _ Hs).
  - intros uid' t' d'. destruct (decide (t' = t)) as [->|Hne].
    + rewrite lookup_insert_eq. intros [= <-] [= <-]. by rewrite lookup_insert_eq.
    + rewrite lookup_insert_ne by done. intros Hd' Hu'.
      pose proof (task_pool _ Hs _ _ _ Hd' Hu') as Hp.
      rewrite lookup_insert_ne; [done|]. intros <-. by apply Hne, Huniq.
  - intros uid' t'. rewrite lookup_insert_Some. intros [[<- _]|[_ Ht']]; [lia|].
    pose proof (uid_bound _ Hs _ _ Ht'). lia.
  - intros t' Ht'. rewrite lookup_insert_ne; [by apply (fresh_task _ Hs)|].
    intros <-. by rewrite (fresh_task _ Hs) in Hd.
  - lia.
Qed.

Lemma cancel_ok t s : port_ok s → port_ok (cancel t s).2.
Proof.
  intros Hs. destruct (tasks s !! t) as [d|] eqn:Hd; cycle 1.
  { unfold cancel, cancel_impl, get_task, mbind, M_bind, gets. by rewrite Hd. }
  destruct (cancel_spec t d s Hd) as (calls & ->). unfold update; cbn [snd].
  split; cbn [tasks next_task service_task_pool last_task_uid_].
  - intros uid t' Ht'. destruct (pool_task _ Hs _ _ Ht') as (d' & Hd' & Hu).
    destruct (decide (t' = t)) as [->|]; [|rewrite lookup_insert_ne by done; eauto].
    rewrite lookup_insert_eq. eexists. split; [done|]. cbn. congruence.
  - intros uid t' d'. destruct (decide (t' = t)) as [->|].
    + rewrite lookup_insert_eq. intros [= <-]. exact (task_pool _ Hs uid t d Hd).
    + rewrite lookup_insert_ne by done. by apply (task_pool _ Hs).
  - by apply (uid_bound _ Hs).
  - intros t' Ht'. rewrite lookup_insert_ne; [by apply (fresh_task _ Hs)|].
    intros <-. by rewrite (fresh_task _ Hs) in Hd.
  - by apply (uid_nonneg _ Hs).
Qed.

(** ** Timers under an untrusted host

    The server's calls on the scheduler, in any order. *)
Inductive sched_op :=
  | SNew (b : task_body)
  | SSchedule (t : nat) (ms : Z)
  | SCancel (t : nat).

Definition run_sched (o : sched_op) : M ServicePort unit :=
  match o with
  | SNew b => new_task b ;; mret tt
  | SSchedule t ms => schedule t ms
  | SCancel t => cancel t
  end.

(** The state after the calls; a call that fails leaves the state it reached. *)
Definition sched_state (os : list sched_op) (s : ServicePort) : ServicePort :=
  foldl (λ s o, (run_sched o s).2) s os.

Definition is_cancelled (t : nat) (s : ServicePort) : Prop :=
  (t < next_task s)%nat ∧ ∃ d, tasks s !! t = Some d ∧ cancelled_ d = true.

Lemma run_sched_cancelled o t s :
  (∀ ms, o ≠ SSchedule t ms) → is_cancelled t s → is_cancelled t (run_sched o s).2.
Proof.
  intros Ho (Hlt & d & Hd & Hc). destruct o as [b|t' ms|t']; cbn [run_sched].
  - unfold mbind, M_bind. rewrite new_task_spec. unfold is_cancelled, update.
    cbn [snd mret M_ret tasks next_task]. split; [lia|]. exists d.
    by rewrite lookup_insert_ne by lia.
  - assert (t' ≠ t) by (intros ->; by apply (Ho ms)).
    destruct (tasks s !! t') as [d'|] eqn:Hd'; cycle 1.
    { unfold schedule, get_task, mbind, M_bind, gets. rewrite Hd'. by split; [|exists d]. }
    destruct (schedule_spec t' ms d' s Hd') as (uid & last & _ & ->).
    split; [done|]. exists d. cbn. by rewrite lookup_insert_ne.
  - destruct (tasks s !! t') as [d'|] eqn:Hd'; cycle 1.
    { unfold cancel, cancel_impl, get_task, mbind, M_bind, gets. rewrite Hd'. by split; [|exists d]. }
    destruct (cancel_spec t' d' s Hd') as (calls & ->). unfold is_cancelled, update; cbn.
    split; [done|]. destruct (decide (t' = t)) as [->|].
    + rewrite lookup_insert_eq. by eexists.
    + exists d. by rewrite lookup_insert_ne.
Qed.

(** C40: cancelling is final.  Once a timer is cancelled, whatever else the
    server schedules and cancels, an expiry reported by the host for any uid
    never runs that timer, until the server itself schedules it again. *)
Theorem cancelled_timer_silent (s : ServicePort) (t : nat) (os : list sched_op)
    (uid : Z) (success : bool) (b : task_body) :
  port_ok s → is_Some (tasks s !! t) → (∀ o ms, o ∈ os → o ≠ SSchedule t ms) →
  expired uid success (sched_state os (cancel t s).2) ≠ Some (t, b).
Proof.
  intros Hs [d Hd] Hos.
  assert (is_cancelled t (cancel t s).2) as Hc.
  { destruct (cancel_spec t d s Hd) as (calls & ->). unfold is_cancelled, update; cbn.
    rewrite lookup_insert_eq. split; [|by eexists].
    destruct (decide (t < next_task s)%nat); [done|].
    rewrite (fresh_task _ Hs) in Hd by lia. done. }
  revert Hc. generalize (cancel t s).2 as s0. clear Hs Hd s. intros s Hc. revert s Hc.
  induction os as [|o os IH]; intros s Hc.
  - cbn. destruct Hc as (_ & d' & Hd' & Hc). unfold expired, sched_state. cbn.
    destruct (service_task_pool s !! uid) as [t'|]; cbn; [|done].
    destruct (tasks s !! t') as [d''|] eqn:E; cbn; [|done].
    destruct (success && negb (cancelled_ d'')) eqn:Eb; [|done].
    intros [= -> _]. rewrite Hd' in E. injection E as <-. rewrite Hc in Eb.
    by rewrite andb_false_r in Eb.
  - apply IH; [set_solver|]. apply run_sched_cancelled; [|done].
    intros ms. apply Hos. set_solver.
Qed.

Lemma cancelled_timer_silent_witness :
  expired 1 true (sched_state [SNew TElection; SSchedule 1 5]
    (cancel 0 (sched_state [SNew TElection; SSchedule 0 200] new_service_port)).2)
  ≠ Some (0%nat, TElection).
Proof.
  apply cancelled_timer_silent.
  - apply (schedule_ok 0 200 (new_task TElection new_service_port).2); [|vm_compute; done].
    apply (new_task_ok TElection), new_port_ok.
  - by eexists.
  - intros o ms. rewrite !elem_of_cons. intros [->|[->|Ho]]; [done..|set_solver].
Defined.

(** A scheduled timer runs its own handler when the host reports success for
    the uid it was given. *)
Lemma scheduled_timer_runs s t d ms :
  port_ok s → tasks s !! t = Some d → last_task_uid_ s + 1 < 2 ^ 64 →
  ∃ uid, service_task_pool (schedule t ms s).2 !! uid = Some t ∧
         expired uid true (schedule t ms s).2 = Some (t, exec_ d).
Proof.
  intros Hs Hd Hb. destruct (schedule_spec t ms d s Hd) as (uid & last & _ & ->).
  exists uid. unfold expired. cbn. rewrite lookup_insert_eq. cbn. by rewrite lookup_insert_eq.
Qed.
