(* ===== verification/Peer.v ===== *)
(** * Peers

    The leader's view of another server (src/raft_enclave/raft/include/
    peer.hxx).  Operations that also touch the scheduler or the network are
    with the server ([Server]); the rest of the class is here. *)

From S2P Require Import Prelude Buffer Config Messages.

(** [p_obj] is the identity of the C++ object: timers and pending calls are
    bound to objects, and an id can get a new object after a removal. *)
Record peer := mk_peer {
  p_obj : nat;
  p_config : srv_config;
  current_hb_interval_ : Z;
  hb_interval_ : Z;
  rpc_backoff_ : Z;
  max_hb_interval_ : Z;
  next_log_idx_ : Z;
  matched_idx_ : Z;
  last_resp_ : Z;
  busy_flag_ : bool;
  pending_commit_flag_ : bool;
  hb_enabled_ : bool;
  hb_task_ : nat;
  snp_sync_ctx_ : option snapshot_sync_ctx;
}.
#[global] Instance eta_peer : Eta peer := λ p, mk_peer
  (p_obj p) (p_config p) (current_hb_interval_ p) (hb_interval_ p) (rpc_backoff_ p)
  (max_hb_interval_ p) (next_log_idx_ p) (matched_idx_ p) (last_resp_ p) (busy_flag_ p)
  (pending_commit_flag_ p) (hb_enabled_ p) (hb_task_ p) (snp_sync_ctx_ p).

(** The constructor, once the object and its heartbeat task exist. *)
Definition init_peer (obj task : nat) (config : srv_config) (params : raft_params) : peer :=
  {| p_obj := obj; p_config := config;
     current_hb_interval_ := heart_beat_interval_ params;
     hb_interval_ := heart_beat_interval_ params;
     rpc_backoff_ := rpc_failure_backoff_ params;
     max_hb_interval_ := max_hb_interval params;
     next_log_idx_ := 0; matched_idx_ := 0; last_resp_ := 0;
     busy_flag_ := false; pending_commit_flag_ := false; hb_enabled_ := false;
     hb_task_ := task; snp_sync_ctx_ := None |}.

Definition p_id (p : peer) : Z := sc_id (p_config p).

Definition make_busy (p : peer) : bool * peer :=
  if busy_flag_ p then (false, p) else (true, p <| busy_flag_ := true |>).
Definition set_free (p : peer) : peer := p <| busy_flag_ := false |>.
Definition set_next_log_idx (i : Z) (p : peer) : peer := p <| next_log_idx_ := i |>.
Definition set_matched_idx (i : Z) (p : peer) : peer := p <| matched_idx_ := i |>.
Definition set_last_resp (t : Z) (p : peer) : peer := p <| last_resp_ := t |>.
Definition set_pending_commit (p : peer) : peer := p <| pending_commit_flag_ := true |>.
Definition clear_pending_commit (p : peer) : bool * peer :=
  if pending_commit_flag_ p then (true, p <| pending_commit_flag_ := false |>) else (false, p).
Definition set_snapshot_in_sync (s : option snapshot) (p : peer) : peer :=
  p <| snp_sync_ctx_ := (λ s, mk_snapshot_sync_ctx s 0) <$> s |>.
Definition set_sync_offset (o : Z) (p : peer) : peer :=
  p <| snp_sync_ctx_ ::= fmap (λ c, c <| ctx_offset := o |>) |>.
Definition slow_down_hb (p : peer) : peer :=
  p <| current_hb_interval_ :=
    Z.min (max_hb_interval_ p) (i32 (current_hb_interval_ p + rpc_backoff_ p)) |>.
Definition resume_hb_speed (p : peer) : peer := p <| current_hb_interval_ := hb_interval_ p |>.

(** The part of [handle_rpc_result] that changes the peer. *)
Definition rpc_completed (t : msg_type) (failed : bool) (p : peer) : peer :=
  let p := match t with
           | append_entries_request | install_snapshot_request => set_free p
           | _ => p
           end in
  if failed then slow_down_hb p else resume_hb_speed p.

(** ** The heartbeat interval stays within its bounds *)

Definition hb_ok (p : peer) : Prop :=
  hb_interval_ p ≤ current_hb_interval_ p ≤ max_hb_interval_ p.

(** Parameters for which the interval arithmetic does not overflow. *)
Definition params_ok (ps : raft_params) : Prop :=
  0 ≤ heart_beat_interval_ ps < 2 ^ 30 ∧ 0 ≤ rpc_failure_backoff_ ps < 2 ^ 30 ∧
  0 ≤ election_timeout_lower_bound_ ps < 2 ^ 30.

#[global] Instance params_ok_dec ps : Decision (params_ok ps).
Proof. unfold params_ok. apply _. Defined.

Inductive peer_op :=
  | PRpc (t : msg_type) (failed : bool)
  | PSlowDown | PResume | PMakeBusy | PSetFree
  | PNext (i : Z) | PMatched (i : Z) | PResp (t : Z) | PPending | PClear
  | PSnapshot (s : option snapshot) | POffset (o : Z).

Definition run_peer (o : peer_op) (p : peer) : peer :=
  match o with
  | PRpc t failed => rpc_completed t failed p
  | PSlowDown => slow_down_hb p
  | PResume => resume_hb_speed p
  | PMakeBusy => (make_busy p).2
  | PSetFree => set_free p
  | PNext i => set_next_log_idx i p
  | PMatched i => set_matched_idx i p
  | PResp t => set_last_resp t p
  | PPending => set_pending_commit p
  | PClear => (clear_pending_commit p).2
  | PSnapshot s => set_snapshot_in_sync s p
  | POffset o => set_sync_offset o p
  end.

(** The invariant, with the constants the constructor fixed. *)
Definition peer_inv (ps : raft_params) (p : peer) : Prop :=
  hb_ok p ∧ hb_interval_ p = heart_beat_interval_ ps ∧
  max_hb_interval_ p = max_hb_interval ps ∧ rpc_backoff_ p = rpc_failure_backoff_ ps.

Lemma max_hb_interval_bounds ps :
  params_ok ps → heart_beat_interval_ ps ≤ max_hb_interval ps < 2 ^ 30.
Proof.
  intros (Hh & _ & He). unfold max_hb_interval.
  assert (0 ≤ heart_beat_interval_ ps `quot` 2 ≤ heart_beat_interval_ ps) as Hq.
  { rewrite Z.quot_div_nonneg by lia. split; [apply Z.div_pos; lia|apply Z.div_le_upper_bound; lia]. }
  rewrite i32_small by (unfold is_i32; lia). lia.
Qed.

Lemma slow_down_inv ps p : params_ok ps → peer_inv ps p → peer_inv ps (slow_down_hb p).
Proof.
  intros Hps (Hhb & H1 & H2 & H3). pose proof (max_hb_interval_bounds ps Hps) as Hm.
  destruct Hps as (? & ? & ?). unfold peer_inv, hb_ok, slow_down_hb, update in *; cbn.
  rewrite i32_small by (unfold is_i32; lia). lia.
Qed.

Lemma resume_inv ps p : params_ok ps → peer_inv ps p → peer_inv ps (resume_hb_speed p).
Proof.
  intros Hps (Hhb & H1 & H2 & H3). unfold peer_inv, hb_ok, resume_hb_speed, update in *; cbn.
  pose proof (max_hb_interval_bounds ps Hps). lia.
Qed.

Lemma run_peer_inv ps o p : params_ok ps → peer_inv ps p → peer_inv ps (run_peer o p).
Proof.
  intros Hps Hp. destruct o as [t failed| | | | | | | | | | | ]; cbn [run_peer];
    try (by apply slow_down_inv); try (by apply resume_inv); try exact Hp.
  - unfold rpc_completed. destruct failed; [apply slow_down_inv|apply resume_inv]; try done;
      by destruct t.
  - unfold make_busy. by destruct (busy_flag_ p).
  - unfold clear_pending_commit. by destruct (pending_commit_flag_ p).
Qed.

(** Whatever happens to a peer (answers, failed calls, back-off, every
    setter, in any order), its heartbeat interval stays between the configured
    interval and [max_hb_interval], which leaves half an interval before the
    shortest election timeout. *)
Theorem hb_interval_bounded (ps : raft_params) (obj task : nat) (c : srv_config)
    (os : list peer_op) :
  params_ok ps →
  let p := foldl (λ p o, run_peer o p) (init_peer obj task c ps) os in
  heart_beat_interval_ ps ≤ current_hb_interval_ p ≤ max_hb_interval ps.
Proof.
  intros Hps. enough (peer_inv ps (foldl (λ p o, run_peer o p) (init_peer obj task c ps) os))
    as (Hhb & H1 & H2 & _) by (unfold hb_ok in Hhb; cbn; lia).
  assert (peer_inv ps (init_peer obj task c ps)) as Hi.
  { pose proof (max_hb_interval_bounds ps Hps). unfold peer_inv, hb_ok; cbn. lia. }
  revert Hi. generalize (init_peer obj task c ps). induction os as [|o os IH]; intros p Hp; [done|].
  by apply IH, run_peer_inv.
Qed.

Lemma hb_interval_bounded_witness :
  let p := foldl (λ p o, run_peer o p) (init_peer 0 0 (mk_srv_config 2 []) enclave_params)
             [PSlowDown; PRpc append_entries_request true; PSlowDown] in
  heart_beat_interval_ enclave_params ≤ current_hb_interval_ p ≤ max_hb_interval enclave_params.
Proof. apply hb_interval_bounded. apply (bool_decide_unpack (params_ok enclave_params)).
  vm_compute. exact I. Defined.
