(* ===== verification/Server.v ===== *)
(** * The server: state and core operations

    [raft_server]'s members (src/raft_enclave/raft/include/raft_server.hxx)
    and the operations of src/raft_enclave/raft/src/raft_server.cxx.  The
    server is written against the interfaces [log_store] and [state_machine].

    Every entry point of the class takes [lock_] first, so a handler is one
    piece of code of the monad [M raft_server]; what it does outside (calls on
    RPC clients, on the state machine, [system_exit]) is recorded in order in
    [out].  Log messages are left out; an argument of one that dereferences a
    pointer is not. *)

From S2P Require Import Prelude Buffer Config Messages LogStore StateMachine StateMgr Scheduler Peer.

(** ** State *)

(** The handler a request was sent with: [resp_handler_] or [ex_resp_handler_]. *)
Inductive rpc_handler := resp_handler | ex_resp_handler.

(** Who holds an RPC client: a peer object, or [rpc_clients_] for a leader. *)
Inductive client_owner := PeerClient (obj : nat) | LeaderClient (leader : Z).

Inductive effect :=
  | ESend (peer_obj : nat) (req : req_msg) (h : rpc_handler)
  | ESendLeader (leader : Z) (req : req_msg)
  | ECreateClient (owner : client_owner) (endpoint : list byte)
  | EExit (code : Z)
  | ENotify
  | ECommit (idx : Z) (data : buffer)
  | EPreCommit (idx : Z) (data : buffer)
  | ERollback (idx : Z) (data : buffer).

Record raft_server (LS SM : Type) := mk_raft_server {
  leader_ : Z;
  id_ : Z;
  votes_granted_ : Z;
  quick_commit_idx_ : Z;
  sm_commit_index_ : Z;
  election_completed_ : bool;
  config_changing_ : bool;
  catching_up_ : bool;
  stopping_ : bool;
  steps_to_down_ : Z;
  snp_in_progress_ : bool;
  scheduler_ : ServicePort;
  election_task_ : option nat;
  peers_ : gmap Z peer;
  rpc_clients_ : gset Z;
  role_ : srv_role;
  state_ : srv_state;
  log_store_ : LS;
  state_machine_ : SM;
  config_ : cluster_config;
  srv_to_join_ : option peer;
  conf_to_add_ : option srv_config;
  last_snapshot_ : option snapshot;
  voted_servers_ : gset Z;
  (* members of [ctx_] *)
  params_ : raft_params;
  state_mgr_ : in_memory_state_mgr;
  (* the static of [handle_cli_req] *)
  time_elapsed_since_quorum_resp : Z;
  (* the environment: clock, random numbers, object identities, calls made *)
  clock : Z;
  entropy : nat → Z;
  draws : nat;
  next_obj : nat;
  retried : gset nat;
  out : list effect;
}.
Arguments mk_raft_server {LS SM}.
Arguments leader_ {LS SM}. Arguments id_ {LS SM}. Arguments votes_granted_ {LS SM}.
Arguments quick_commit_idx_ {LS SM}. Arguments sm_commit_index_ {LS SM}.
Arguments election_completed_ {LS SM}. Arguments config_changing_ {LS SM}.
Arguments catching_up_ {LS SM}. Arguments stopping_ {LS SM}. Arguments steps_to_down_ {LS SM}.
Arguments snp_in_progress_ {LS SM}. Arguments scheduler_ {LS SM}. Arguments election_task_ {LS SM}.
Arguments peers_ {LS SM}. Arguments rpc_clients_ {LS SM}. Arguments role_ {LS SM}.
Arguments state_ {LS SM}. Arguments log_store_ {LS SM}. Arguments state_machine_ {LS SM}.
Arguments config_ {LS SM}. Arguments srv_to_join_ {LS SM}. Arguments conf_to_add_ {LS SM}.
Arguments last_snapshot_ {LS SM}. Arguments voted_servers_ {LS SM}. Arguments params_ {LS SM}.
Arguments state_mgr_ {LS SM}. Arguments time_elapsed_since_quorum_resp {LS SM}.
Arguments clock {LS SM}. Arguments entropy {LS SM}. Arguments draws {LS SM}.
Arguments next_obj {LS SM}. Arguments retried {LS SM}. Arguments out {LS SM}.

#[global] Instance eta_raft_server LS SM : Eta (raft_server LS SM) := λ w, mk_raft_server
  (leader_ w) (id_ w) (votes_granted_ w) (quick_commit_idx_ w) (sm_commit_index_ w)
  (election_completed_ w) (config_changing_ w) (catching_up_ w) (stopping_ w)
  (steps_to_down_ w) (snp_in_progress_ w) (scheduler_ w) (election_task_ w) (peers_ w)
  (rpc_clients_ w) (role_ w) (state_ w) (log_store_ w) (state_machine_ w) (config_ w)
  (srv_to_join_ w) (conf_to_add_ w) (last_snapshot_ w) (voted_servers_ w) (params_ w)
  (state_mgr_ w) (time_elapsed_since_quorum_resp w) (clock w) (entropy w) (draws w)
  (next_obj w) (retried w) (out w).

Section code.
Context `{FreshMem} {LS SM : Type} `{!log_store LS} `{!state_machine SM}.
#[local] Abbreviation W := (raft_server LS SM).

(** ** Calls to the outside *)

Definition emit (e : effect) : M W unit := modify (update out (λ l, l ++ [e])).

Definition system_exit (code : Z) : M W unit := emit (EExit code).

(** The code's reaction to a state it considers fatal. *)
Definition fatal {A} (code : Z) : M W A := system_exit code ;; throw raft_exception.

(** [ctx_->state_mgr_->save_state] and [save_config]. *)
Definition persist_state : M W unit :=
  s ← gets state_; on state_mgr_ (save_state s).
Definition persist_config (c : cluster_config) : M W unit := on state_mgr_ (save_config c).

(** [config_ = c], and a change of the object [config_] points to. *)
Definition set_config (c : cluster_config) : M W unit :=
  config_ <~ c ;; on state_mgr_ (shared_config_ <~ false).
Definition mutate_config (f : cluster_config → cluster_config) : M W unit :=
  modify (update config_ f) ;;
  c ← gets config_;
  on state_mgr_ (config_written c).

Definition next_slot_ (w : W) : Z := next_slot (log_store_ w).
Definition start_index_ (w : W) : Z := start_index (log_store_ w).
Definition current_term (w : W) : Z := term_ (state_ w).

(** ** Peers *)

Inductive peer_ref := PeerOf (id : Z) | Joining.

Definition find_peer (r : peer_ref) (w : W) : option peer :=
  match r with PeerOf i => peers_ w !! i | Joining => srv_to_join_ w end.

Definition get_peer (r : peer_ref) : M W peer :=
  o ← gets (find_peer r);
  match o with Some p => mret p | None => faulting dangling_ref end.

Definition set_peer (r : peer_ref) (p : peer) : M W unit :=
  match r with
  | PeerOf i => modify (update peers_ <[i := p]>)
  | Joining => srv_to_join_ <~ Some p
  end.

Definition upd_peer (r : peer_ref) (f : peer → peer) : M W unit :=
  p ← get_peer r; set_peer r (f p).

(** The order an [unordered_map] is walked in; no statement depends on it. *)
Definition peer_ids (w : W) : list Z := (map_to_list (peers_ w)).*1.

(** [cs_new<peer>(config, *ctx_, exec)] with [exec] the heartbeat handler. *)
Definition new_peer (c : srv_config) : M W peer :=
  obj ← gets next_obj;
  next_obj <~ S obj ;;
  emit (ECreateClient (PeerClient obj) (sc_endpoint c)) ;;
  t ← on scheduler_ (new_task (THeartbeat obj));
  ps ← gets params_;
  mret (init_peer obj t c ps).

Definition send_req (r : peer_ref) (req : req_msg) (h : rpc_handler) : M W unit :=
  p ← get_peer r; emit (ESend (p_obj p) req h).

(** [enable_hb] and [enable_hb_for_peer], on a peer object. *)
Definition enable_hb (enable : bool) (p : peer) : M W peer :=
  when (negb enable) (on scheduler_ (cancel (hb_task_ p))) ;;
  mret (p <| hb_enabled_ := enable |>).

Definition enable_hb_for_peer (p : peer) : M W peer :=
  p ← enable_hb true p;
  let p := resume_hb_speed p in
  on scheduler_ (schedule (hb_task_ p) (current_hb_interval_ p)) ;;
  mret p.

(** ** Timers *)

(** A value of [uniform_int_distribution(lower, upper)]. *)
Definition rand_timeout : M W Z :=
  w ← gets id;
  draws <~ S (draws w) ;;
  let lo := election_timeout_lower_bound_ (params_ w) in
  let hi := election_timeout_upper_bound_ (params_ w) in
  mret (lo + (entropy w (draws w)) `mod` (hi - lo + 1)).

Definition restart_election_timer : M W unit :=
  w ← gets id;
  if catching_up_ w then mret tt
  else
    t ← match election_task_ w with
        | Some t => on scheduler_ (cancel t) ;; mret t
        | None =>
            t ← on scheduler_ (new_task TElection);
            election_task_ <~ Some t ;;
            mret t
        end;
    timeout ← rand_timeout;
    on scheduler_ (schedule t timeout).

Definition stop_election_timer : M W unit :=
  o ← gets election_task_;
  match o with
  | None => mret tt
  | Some t => on scheduler_ (cancel t)
  end.

(** ** Requests to peers *)

Definition term_for_log (log_idx : Z) : M W Z :=
  w ← gets id;
  if log_idx =? 0 then mret 0
  else if start_index_ w <=? log_idx then lift (term_at log_idx (log_store_ w))
  else match sm_last_snapshot (state_machine_ w) with
       | Some s =>
           if log_idx =? last_log_idx_ s then mret (last_log_term_ s) else fatal (-1)
       | None => fatal (-1)
       end.

Definition get_snapshot_sync_block_size (w : W) : Z :=
  let block_size := snapshot_block_size_ (params_ w) in
  if block_size =? 0 then 4 * 1024 else block_size.

Definition create_sync_snapshot_req (r : peer_ref) (last_log_idx term commit_idx : Z) :
    M W req_msg :=
  p ← get_peer r;
  w ← gets id;
  let current := ctx_snapshot <$> snp_sync_ctx_ p in
  let stale := match current, last_snapshot_ w with
               | None, _ => true
               | Some s, Some l => last_log_idx_ s <? last_log_idx_ l
               | Some _, None => false
               end in
  snp ← (if stale then
           match last_snapshot_ w with
           | None => faulting null_deref
           | Some snp =>
               if last_log_idx_ snp <? last_log_idx then fatal (-1)
               else if snp_size_ snp <? 1 then fatal (-1)
               else
                 upd_peer r (set_snapshot_in_sync (Some snp)) ;;
                 mret snp
           end
         else match current with Some s => mret s | None => faulting null_deref end);
  p ← get_peer r;
  offset ← match snp_sync_ctx_ p with
           | Some c => mret (ctx_offset c)
           | None => faulting null_deref
           end;
  let sz_left := i32 (snp_size_ snp - offset) in
  let blk_sz := get_snapshot_sync_block_size w in
  data ← lift (alloc (u64 (Z.min blk_sz sz_left)));
  '(sz_rd, data) ← on state_machine_ (read_snapshot_data snp offset data);
  if u64 sz_rd <? buf_size data then fatal (-1)
  else
    let finished := snp_size_ snp <=? u64 (offset + buf_size data) in
    b ← lift (sync_req_serialize (mk_snapshot_sync_req snp offset data finished));
    mret (mk_req_msg term install_snapshot_request (id_ w) (p_id p)
            (last_log_term_ snp) (last_log_idx_ snp) commit_idx
            [mk_log_entry term snp_sync_req b]).

Definition create_append_entries_req (r : peer_ref) : M W req_msg :=
  w ← gets id;
  let starting_idx := start_index_ w in
  let cur_nxt_idx := next_slot_ w in
  let commit_idx := quick_commit_idx_ w in
  let term := current_term w in
  p ← get_peer r;
  when (next_log_idx_ p =? 0) (upd_peer r (set_next_log_idx cur_nxt_idx)) ;;
  p ← get_peer r;
  let last_log_idx := u64 (next_log_idx_ p - 1) in
  if cur_nxt_idx <=? last_log_idx then fatal (-1)
  else if (0 <? last_log_idx) && (last_log_idx <? u64 (starting_idx - 1)) then
    create_sync_snapshot_req r last_log_idx term commit_idx
  else
    last_log_term ← term_for_log last_log_idx;
    let end_idx := Z.min cur_nxt_idx (u64 (last_log_idx + 1 + max_append_size_ (params_ w))) in
    entries ← (if cur_nxt_idx <=? u64 (last_log_idx + 1) then mret []
               else lift (log_entries (u64 (last_log_idx + 1)) end_idx (log_store_ w)));
    mret (mk_req_msg term append_entries_request (id_ w) (p_id p)
            last_log_term last_log_idx commit_idx entries).

(** [bool request_append_entries(peer &p)]. *)
Definition request_append_entries_to (r : peer_ref) : M W bool :=
  p ← get_peer r;
  let '(free, p) := make_busy p in
  if free then
    set_peer r p ;;
    msg ← create_append_entries_req r;
    send_req r msg resp_handler ;;
    mret true
  else mret false.

Definition commit (target_idx : Z) : M W unit :=
  w ← gets id;
  when (quick_commit_idx_ w <? target_idx) (
    quick_commit_idx_ <~ target_idx ;;
    when (bool_decide (role_ w = leader)) (
      ids ← gets peer_ids;
      for_each ids (λ i,
        sent ← request_append_entries_to (PeerOf i);
        when (negb sent) (upd_peer (PeerOf i) set_pending_commit)))) ;;
  w ← gets id;
  when ((sm_commit_index_ w <? u64 (next_slot_ w - 1)) &&
        (sm_commit_index_ w <? quick_commit_idx_ w))
    (emit ENotify).

Definition request_append_entries : M W unit :=
  w ← gets id;
  if bool_decide (peers_ w = ∅) then commit (u64 (next_slot_ w - 1))
  else
    for_each (peer_ids w) (λ i, request_append_entries_to (PeerOf i) ;; mret tt).

(** ** Roles and terms *)

(** Append a configuration to the log. *)
Definition append_config (c : cluster_config) : M W unit :=
  term ← gets current_term;
  b ← lift (cluster_config_serialize c);
  on log_store_ (append (mk_log_entry term conf b)) ;;
  mret tt.

Definition become_leader : M W unit :=
  stop_election_timer ;;
  role_ <~ leader ;;
  modify (λ w, w <| leader_ := id_ w |>) ;;
  srv_to_join_ <~ None ;;
  ids ← gets peer_ids;
  for_each ids (λ i,
    nxt ← gets next_slot_;
    upd_peer (PeerOf i) (λ p, set_free (set_snapshot_in_sync None (set_next_log_idx nxt p))) ;;
    p ← get_peer (PeerOf i);
    p ← enable_hb_for_peer p;
    set_peer (PeerOf i) p) ;;
  w ← gets id;
  when (log_idx_ (config_ w) =? 0) (
    mutate_config (set_log_idx (next_slot_ w)) ;;
    c ← gets config_;
    append_config c ;;
    config_changing_ <~ true) ;;
  request_append_entries.

Definition become_follower : M W unit :=
  ids ← gets peer_ids;
  for_each ids (λ i,
    p ← get_peer (PeerOf i);
    p ← enable_hb false p;
    set_peer (PeerOf i) p) ;;
  srv_to_join_ <~ None ;;
  role_ <~ follower ;;
  restart_election_timer.

Definition update_term (term : Z) : M W bool :=
  w ← gets id;
  if current_term w <? term then
    modify (update state_ (set_term term)) ;;
    modify (update state_ (set_voted_for (-1))) ;;
    election_completed_ <~ false ;;
    votes_granted_ <~ 0 ;;
    voted_servers_ <~ ∅ ;;
    persist_state ;;
    become_follower ;;
    mret true
  else mret false.

Definition request_vote : M W unit :=
  self ← gets id_;
  modify (update state_ (set_voted_for self)) ;;
  persist_state ;;
  modify (update votes_granted_ (λ v, i32 (v + 1))) ;;
  modify (update voted_servers_ (union {[self]})) ;;
  w ← gets id;
  if i32 (Z.of_nat (size (peers_ w)) + 1) `quot` 2 <? votes_granted_ w then
    election_completed_ <~ true ;;
    become_leader
  else
    for_each (peer_ids w) (λ i,
      p ← get_peer (PeerOf i);
      last ← gets (λ w, u64 (next_slot_ w - 1));
      t ← term_for_log last;
      w ← gets id;
      send_req (PeerOf i)
        (mk_req_msg (current_term w) request_vote_request (id_ w) (p_id p) t last
           (quick_commit_idx_ w) [])
        resp_handler).
End code.
