(* ===== verification/Membership.v ===== *)
(** * Membership changes, snapshots and the commit thread

    The rest of src/raft_enclave/raft/src/raft_server.cxx: [reconfigure], the
    operations that bring a server into the cluster or take one out,
    [snapshot_and_compact], and the loop [commit_in_bg]. *)

From S2P Require Import Prelude Buffer Config Messages LogStore StateMachine StateMgr Scheduler Peer Server.

Section code.
Context `{FreshMem} {LS SM : Type} `{!log_store LS} `{!state_machine SM}.
#[local] Abbreviation W := (raft_server LS SM).

(** ** Reconfiguration *)

(** Servers of the new configuration that are neither peers nor this server. *)
Definition srvs_added (new_config : cluster_config) (w : W) : list srv_config :=
  filter (λ s, peers_ w !! sc_id s = None ∧ sc_id s ≠ id_ w) (servers_ new_config).

(** Peers, and this server, that the new configuration does not have. *)
Definition srvs_removed (new_config : cluster_config) (w : W) : list Z :=
  filter (λ i, get_server new_config i = None) (peer_ids w) ++
  (if bool_decide (get_server new_config (id_ w) = None) then [id_ w] else []).

(** [peers_.insert] keeps an entry that is there already. *)
Definition add_server (srv_added : srv_config) : M W unit :=
  p ← new_peer srv_added;
  w ← gets id;
  let p := set_next_log_idx (next_slot_ w) p in
  p ← (if bool_decide (role_ w = leader) then
         p ← enable_hb_for_peer p;
         match srv_to_join_ w with
         | Some j =>
             if p_id j =? p_id p then
               srv_to_join_ <~ None ;;
               mret (set_next_log_idx (next_log_idx_ j) p)
             else mret p
         | None => mret p
         end
       else mret p);
  when (bool_decide (peers_ w !! sc_id srv_added = None))
    (modify (update peers_ <[sc_id srv_added := p]>)).

(** The removal loop; [false] when it returned early because this server was
    removed. *)
Fixpoint remove_servers (new_config : cluster_config) (removed : list Z) : M W bool :=
  match removed with
  | [] => mret true
  | srv :: removed' =>
      w ← gets id;
      if (srv =? id_ w) && negb (catching_up_ w) then
        persist_config new_config ;;
        system_exit 0 ;;
        mret false
      else
        match peers_ w !! srv with
        | Some p =>
            enable_hb false p ;;
            modify (update peers_ (delete srv)) ;;
            remove_servers new_config removed'
        | None => remove_servers new_config removed'
        end
  end.

Definition reconfigure (new_config : cluster_config) : M W unit :=
  w ← gets id;
  let added := srvs_added new_config w in
  let removed := srvs_removed new_config w in
  for_each added add_server ;;
  goes_on ← remove_servers new_config removed;
  when goes_on (set_config new_config).

(** ** Bringing a server in, taking one out *)

Definition on_retryable_req_err (obj : nat) (req : req_msg) : M W unit :=
  emit (ESend obj req ex_resp_handler).

Definition sync_log_to_new_srv (start_idx : Z) : M W unit :=
  w ← gets id;
  let gap := i32 (quick_commit_idx_ w - start_idx) in
  if gap <? log_sync_stop_gap_ (params_ w) then
    _ ← get_peer Joining;
    match conf_to_add_ w with
    | None => faulting null_deref
    | Some c =>
        append_config (mk_cluster_config (next_slot_ w) (log_idx_ (config_ w))
                         (servers_ (config_ w) ++ [c])) ;;
        config_changing_ <~ true ;;
        request_append_entries
    end
  else
    req ← (if (0 <? start_idx) && (start_idx <? start_index_ w) then
             create_sync_snapshot_req Joining start_idx (current_term w) (quick_commit_idx_ w)
           else
             let size_to_sync := Z.min gap (log_sync_batch_size_ (params_ w)) in
             log_pack_buf ← on log_store_ (pack start_idx size_to_sync);
             j ← get_peer Joining;
             mret (mk_req_msg (current_term w) sync_log_request (id_ w) (p_id j) 0
                     (u64 (start_idx - 1)) (quick_commit_idx_ w)
                     [mk_log_entry (current_term w) log_pack log_pack_buf]));
    send_req Joining req ex_resp_handler.

Definition invite_srv_to_join_cluster : M W unit :=
  w ← gets id;
  j ← get_peer Joining;
  b ← lift (cluster_config_serialize (config_ w));
  send_req Joining
    (mk_req_msg (current_term w) join_cluster_request (id_ w) (p_id j) 0
       (u64 (next_slot_ w - 1)) (quick_commit_idx_ w)
       [mk_log_entry (current_term w) conf b])
    ex_resp_handler.

Definition rm_srv_from_cluster (srv_id : Z) : M W unit :=
  w ← gets id;
  let new_conf := mk_cluster_config (next_slot_ w) (log_idx_ (config_ w))
                    (filter (λ s, sc_id s ≠ srv_id) (servers_ (config_ w))) in
  config_changing_ <~ true ;;
  append_config new_conf ;;
  request_append_entries.

(** ** Snapshots *)

(** [failed]: the handler was given an exception. *)
Definition on_snapshot_completed (s : snapshot) (result failed : bool) : M W unit :=
  when (negb failed && result) (
    last_snapshot_ <~ Some s ;;
    ps ← gets params_;
    let reserved := u64 (reserved_log_items_ ps) in
    when (reserved <? last_log_idx_ s) (
      on log_store_ (compact (u64 (last_log_idx_ s - reserved))) ;;
      mret tt)) ;;
  snp_in_progress_ <~ false.

(** The walk back to the configuration in force at [committed_idx].  The next
    configuration is a function of the index it is read from, so a walk longer
    than the log repeats itself for ever. *)
Fixpoint find_config (fuel : nat) (committed_idx : Z) (c : cluster_config) : M W cluster_config :=
  w ← gets id;
  if (committed_idx <? log_idx_ c) && (start_index_ w <=? prev_log_idx_ c) then
    match fuel with
    | O => faulting diverges
    | S fuel' =>
        conf_log ← lift (entry_at (prev_log_idx_ c) (log_store_ w));
        '(c, _) ← lift (cluster_config_deserialize (le_buf conf_log));
        find_config fuel' committed_idx c
    end
  else mret c.

Definition take_snapshot (committed_idx : Z) : M W unit :=
  w ← gets id;
  c ← find_config (S (Z.to_nat (next_slot_ w - start_index_ w))) committed_idx (config_ w);
  c ← (if (committed_idx <? log_idx_ c) && (0 <? prev_log_idx_ c) &&
          (prev_log_idx_ c <? start_index_ w)
       then match last_snapshot_ w with
            | None => fatal (-1)
            | Some s => mret (last_config_ s)
            end
       else if (committed_idx <? log_idx_ c) && (prev_log_idx_ c =? 0) then fatal (-1)
       else mret c);
  log_term_to_compact ← lift (term_at committed_idx (log_store_ w));
  let new_snapshot := mk_snapshot committed_idx log_term_to_compact 0 c in
  done ← on state_machine_ (create_snapshot new_snapshot);
  match done with
  | Some result => on_snapshot_completed new_snapshot result false
  | None => mret tt
  end.

(** Only [take_snapshot] can throw, and it runs with [snapshot_in_action] set,
    which is what the handler of [catch (...)] tests. *)
Definition snapshot_and_compact (committed_idx : Z) : M W unit :=
  w ← gets id;
  let distance := u64 (snapshot_distance_ (params_ w)) in
  if (snapshot_distance_ (params_ w) =? 0) ||
     (u64 (committed_idx - start_index_ w) <? distance)
  then mret tt
  else
    let due := match last_snapshot_ w with
               | None => true
               | Some s => distance <=? u64 (committed_idx - last_log_idx_ s)
               end in
    when (due && negb (snp_in_progress_ w)) (
      snp_in_progress_ <~ true ;;
      catch_all (take_snapshot committed_idx) (snp_in_progress_ <~ false)).

(** ** The commit thread *)

(** The loop condition of the inner [while]. *)
Definition commit_pending (w : W) : bool :=
  (sm_commit_index_ w <? quick_commit_idx_ w) &&
  (sm_commit_index_ w <? u64 (next_slot_ w - 1)).

Definition commit_config_entry (buf : buffer) : M W unit :=
  '(new_conf, _) ← lift (cluster_config_deserialize (pos_set 0 buf));
  persist_config new_conf ;;
  config_changing_ <~ false ;;
  w ← gets id;
  when (log_idx_ (config_ w) <? log_idx_ new_conf) (reconfigure new_conf) ;;
  w ← gets id;
  when (catching_up_ w && bool_decide (get_server new_conf (id_ w) ≠ None))
    (catching_up_ <~ false).

(** One round of the inner [while]. *)
Definition commit_one : M W unit :=
  modify (update sm_commit_index_ (λ i, u64 (i + 1))) ;;
  w ← gets id;
  let idx := sm_commit_index_ w in
  entry ← lift (entry_at idx (log_store_ w));
  match le_val_type entry with
  | app_log =>
      emit (ECommit idx (le_buf entry)) ;;
      on state_machine_ (sm_commit idx (le_buf entry))
  | conf => commit_config_entry (le_buf entry)
  | _ => mret tt
  end ;;
  idx ← gets sm_commit_index_;
  snapshot_and_compact idx.

(** The inner [while], for at most [fuel] rounds. *)
Fixpoint commit_loop (fuel : nat) : M W unit :=
  w ← gets id;
  if commit_pending w then
    match fuel with
    | O => faulting diverges
    | S fuel' => commit_one ;; commit_loop fuel'
    end
  else mret tt.

(** What a wake-up of the thread does: the pending entries, and on an
    exception the exit path. *)
Definition commit_in_bg (fuel : nat) : M W unit :=
  catch_all (commit_loop fuel) (fatal (-1)).
End code.
