(* ===== verification/Requests.v ===== *)
(** * Request handlers

    src/raft_enclave/raft/src/raft_server_handle_req.cxx and [process_req],
    [send_msg_to_leader] and the client operations of raft_server_public.cxx
    and raft_server.cxx. *)

From S2P Require Import Prelude Buffer Config Messages LogStore StateMachine StateMgr Scheduler Peer Server Membership.

Section code.
Context `{FreshMem} {LS SM : Type} `{!log_store LS} `{!state_machine SM}.
#[local] Abbreviation W := (raft_server LS SM).

(** ** Log replication *)

(** The first loop: skip the entries the log already has. *)
Fixpoint skip_matching (idx : Z) (entries : list log_entry) (w : W) :
    outcome (Z * list log_entry) :=
  match entries with
  | [] => Ok (idx, [])
  | e :: entries' =>
      if idx <? next_slot_ w then
        t ← term_at idx (log_store_ w);
        if t =? le_term e then skip_matching (u64 (idx + 1)) entries' w
        else Ok (idx, entries)
      else Ok (idx, entries)
  end.

(** What a new entry at [idx] means to the server. *)
Definition note_new_entry (idx : Z) (e : log_entry) : M W unit :=
  match le_val_type e with
  | app_log => emit (EPreCommit idx (le_buf e)) ;; on state_machine_ (sm_pre_commit idx (le_buf e))
  | conf => config_changing_ <~ true
  | _ => mret tt
  end.

(** What dropping the entry at [idx] means. *)
Definition note_old_entry (idx : Z) (e : log_entry) : M W unit :=
  match le_val_type e with
  | app_log => emit (ERollback idx (le_buf e)) ;; on state_machine_ (sm_rollback idx (le_buf e))
  | conf => config_changing_ <~ false
  | _ => mret tt
  end.

(** The second loop: overwrite. *)
Fixpoint overwrite_entries (idx : Z) (entries : list log_entry) : M W (list log_entry) :=
  match entries with
  | [] => mret []
  | e :: entries' =>
      w ← gets id;
      if idx <? next_slot_ w then
        old_entry ← lift (entry_at idx (log_store_ w));
        note_old_entry idx old_entry ;;
        on log_store_ (write_at idx e) ;;
        note_new_entry idx e ;;
        overwrite_entries (u64 (idx + 1)) entries'
      else mret entries
  end.

(** The third loop: append. *)
Fixpoint append_new_entries (entries : list log_entry) : M W unit :=
  match entries with
  | [] => mret tt
  | e :: entries' =>
      idx ← on log_store_ (append e);
      note_new_entry idx e ;;
      append_new_entries entries'
  end.

(** The three loops; [if (!req.log_entries().empty())] guards nothing they
    would not skip anyway. *)
Definition write_entries (last_log_idx : Z) (entries : list log_entry) : M W unit :=
  if bool_decide (entries = []) then mret tt
  else
    w ← gets id;
    '(idx, rest) ← lift (skip_matching (u64 (last_log_idx + 1)) entries w);
    rest ← overwrite_entries idx rest;
    append_new_entries rest.

(** A message from a server that believes it leads the current term. *)
Definition hear_from_leader : M W unit :=
  w ← gets id;
  match role_ w with
  | candidate => become_follower
  | leader => fatal (-1)
  | follower => restart_election_timer
  end.

Definition log_okay_for (req : req_msg) : M W bool :=
  w ← gets id;
  if req_last_log_idx req =? 0 then mret true
  else if req_last_log_idx req <? next_slot_ w then
    t ← term_for_log (req_last_log_idx req);
    mret (req_last_log_term req =? t)
  else mret false.

Definition handle_append_entries (req : req_msg) : M W resp_msg :=
  w ← gets id;
  when (req_term req =? current_term w) hear_from_leader ;;
  w ← gets id;
  let resp := (new_resp (current_term w) append_entries_response (id_ w) (req_src req))
                <| resp_next_idx := next_slot_ w |> in
  log_okay ← log_okay_for req;
  if (req_term req <? current_term w) || negb log_okay then mret resp
  else
    write_entries (req_last_log_idx req) (req_log_entries req) ;;
    leader_ <~ req_src req ;;
    commit (req_commit_idx req) ;;
    mret (accept (u64 (req_last_log_idx req +
                       Z.of_nat (length (req_log_entries req)) + 1)) resp).

(** ** Elections *)

Definition handle_vote_req (req : req_msg) : M W resp_msg :=
  w ← gets id;
  let resp := new_resp (current_term w) request_vote_response (id_ w) (req_src req) in
  last ← lift (last_entry (log_store_ w));
  let log_okay := (le_term last <? req_last_log_term req) ||
                  ((req_last_log_term req =? le_term last) &&
                   (u64 (next_slot_ w - 1) <=? req_last_log_idx req)) in
  let grant := (req_term req =? current_term w) && log_okay &&
               ((voted_for_ (state_ w) =? req_src req) || (voted_for_ (state_ w) =? -1)) in
  if grant then
    modify (update state_ (set_voted_for (req_src req))) ;;
    persist_state ;;
    mret (accept (next_slot_ w) resp)
  else mret resp.

(** ** Client requests *)

(** Append the entries under the current term. *)
Fixpoint append_client_entries (entries : list log_entry) : M W unit :=
  match entries with
  | [] => mret tt
  | e :: entries' =>
      term ← gets current_term;
      let e := e <| le_term := term |> in
      on log_store_ (append e) ;;
      nxt ← gets next_slot_;
      let idx := u64 (nxt - 1) in
      emit (EPreCommit idx (le_buf e)) ;;
      on state_machine_ (sm_pre_commit idx (le_buf e)) ;;
      append_client_entries entries'
  end.

(** The median of the peers' last answers, against the clock, as an [int32]. *)
Definition quorum_age (w : W) : Z :=
  let times := merge_sort Z.le (last_resp_ <$> (map_to_list (peers_ w)).*2) in
  i32 (clock w - default 0 (times !! (size (peers_ w) / 2)%nat)).

Definition handle_cli_req (req : req_msg) : M W resp_msg :=
  w ← gets id;
  let bound := i32 (election_timeout_upper_bound_ (params_ w) * 2) in
  expired_leader ←
    (if bool_decide (role_ w = leader) && negb (bool_decide (peers_ w = ∅)) &&
        (bound <? time_elapsed_since_quorum_resp w)
     then
       time_elapsed_since_quorum_resp <~ quorum_age w ;;
       mret (bound <? quorum_age w)
     else mret false);
  if (expired_leader : bool) then
    mret (new_resp (current_term w) append_entries_response (id_ w) (-1))
  else
    let resp := new_resp (current_term w) append_entries_response (id_ w) (leader_ w) in
    if negb (bool_decide (role_ w = leader)) then mret resp
    else
      append_client_entries (req_log_entries req) ;;
      request_append_entries ;;
      nxt ← gets next_slot_;
      mret (accept nxt resp).

(** ** Membership requests *)

Definition handle_add_srv_req (req : req_msg) : M W resp_msg :=
  w ← gets id;
  let resp := new_resp (current_term w) add_server_response (id_ w) (leader_ w) in
  match req_log_entries req with
  | [e] =>
      if negb (bool_decide (le_val_type e = cluster_server)) then mret resp
      else if negb (bool_decide (role_ w = leader)) then mret resp
      else
        '(srv_conf, _) ← lift (srv_config_deserialize (le_buf e));
        if bool_decide (peers_ w !! sc_id srv_conf ≠ None) || (id_ w =? sc_id srv_conf) then
          mret resp
        else if config_changing_ w then mret resp
        else
          conf_to_add_ <~ Some srv_conf ;;
          p ← new_peer srv_conf;
          srv_to_join_ <~ Some p ;;
          invite_srv_to_join_cluster ;;
          nxt ← gets next_slot_;
          mret (accept nxt resp)
  | _ => mret resp
  end.

Definition handle_rm_srv_req (req : req_msg) : M W resp_msg :=
  w ← gets id;
  let resp := new_resp (current_term w) remove_server_response (id_ w) (leader_ w) in
  match req_log_entries req with
  | [e] =>
      if negb (buf_size (le_buf e) =? Z.of_nat sz_int) then mret resp
      else if negb (bool_decide (role_ w = leader)) then mret resp
      else if config_changing_ w then mret resp
      else
        '(srv_id, _) ← lift (get_int (le_buf e));
        if srv_id =? id_ w then mret resp
        else match peers_ w !! srv_id with
             | None => mret resp
             | Some _ =>
                 send_req (PeerOf srv_id)
                   (mk_req_msg (current_term w) leave_cluster_request (id_ w) srv_id 0
                      (u64 (next_slot_ w - 1)) (quick_commit_idx_ w) [])
                   ex_resp_handler ;;
                 mret (accept (next_slot_ w) resp)
             end
  | _ => mret resp
  end.

Definition handle_log_sync_req (req : req_msg) : M W resp_msg :=
  w ← gets id;
  let resp := new_resp (current_term w) sync_log_response (id_ w) (req_src req) in
  match req_log_entries req with
  | [e] =>
      if negb (bool_decide (le_val_type e = log_pack)) then mret resp
      else if negb (catching_up_ w) then mret resp
      else
        on log_store_ (apply_pack (u64 (req_last_log_idx req + 1)) (le_buf e)) ;;
        nxt ← gets next_slot_;
        commit (u64 (nxt - 1)) ;;
        nxt ← gets next_slot_;
        mret (accept nxt resp)
  | _ => mret resp
  end.

Definition handle_join_cluster_req (req : req_msg) : M W resp_msg :=
  w ← gets id;
  let resp := new_resp (current_term w) join_cluster_response (id_ w) (req_src req) in
  match req_log_entries req with
  | [e] =>
      if negb (bool_decide (le_val_type e = conf)) then mret resp
      else if catching_up_ w then mret resp
      else
        catching_up_ <~ true ;;
        role_ <~ follower ;;
        leader_ <~ req_src req ;;
        sm_commit_index_ <~ 0 ;;
        quick_commit_idx_ <~ 0 ;;
        modify (update state_ (set_voted_for (-1))) ;;
        modify (update state_ (set_term (req_term req))) ;;
        persist_state ;;
        '(c, _) ← lift (cluster_config_deserialize (le_buf e));
        reconfigure c ;;
        nxt ← gets next_slot_;
        mret (accept nxt resp)
  | _ => mret resp
  end.

Definition handle_leave_cluster_req (req : req_msg) : M W resp_msg :=
  w ← gets id;
  let resp := new_resp (current_term w) leave_cluster_response (id_ w) (req_src req) in
  if config_changing_ w then mret resp
  else
    steps_to_down_ <~ 2 ;;
    mret (accept (next_slot_ w) resp).

(** ** Snapshot installation *)

Definition install_snapshot (s : snapshot) : M W bool :=
  compacted ← on log_store_ (compact (last_log_idx_ s));
  if (compacted : bool) then
    stop_election_timer ;;
    applied ← on state_machine_ (apply_snapshot s);
    if negb applied then fatal (-1)
    else
      reconfigure (last_config_ s) ;;
      c ← gets config_;
      persist_config c ;;
      sm_commit_index_ <~ last_log_idx_ s ;;
      quick_commit_idx_ <~ last_log_idx_ s ;;
      persist_state ;;
      c ← gets config_;
      last_snapshot_ <~ Some (mk_snapshot (last_log_idx_ s) (last_log_term_ s) (snp_size_ s) c) ;;
      restart_election_timer ;;
      mret true
  else mret false.

Definition handle_snapshot_sync_req (req : snapshot_sync_req) : M W bool :=
  catch_all (
    on state_machine_ (save_snapshot_data (ssr_snapshot req) (ssr_offset req) (ssr_data req)) ;;
    if ssr_done req then
      w ← gets id;
      if negb (bool_decide (role_ w = follower)) then fatal (-1)
      else install_snapshot (ssr_snapshot req)
    else mret true)
  (fatal (-1)).

Definition handle_install_snapshot_req (req : req_msg) : M W resp_msg :=
  w ← gets id;
  when ((req_term req =? current_term w) && negb (catching_up_ w)) hear_from_leader ;;
  w ← gets id;
  let resp := new_resp (current_term w) install_snapshot_response (id_ w) (req_src req) in
  if negb (catching_up_ w) && (req_term req <? current_term w) then mret resp
  else
    match req_log_entries req with
    | [e] =>
        if negb (bool_decide (le_val_type e = snp_sync_req)) then mret resp
        else
          sync_req ← lift (sync_req_deserialize (le_buf e));
          if last_log_idx_ (ssr_snapshot sync_req) <=? sm_commit_index_ w then mret resp
          else
            installed ← handle_snapshot_sync_req sync_req;
            if (installed : bool) then
              mret (accept (u64 (ssr_offset sync_req + buf_size (ssr_data sync_req))) resp)
            else mret resp
    | _ => mret resp
    end.

(** ** Dispatch *)

Definition handle_extended_msg (req : req_msg) : M W resp_msg :=
  match req_type req with
  | add_server_request => handle_add_srv_req req
  | remove_server_request => handle_rm_srv_req req
  | sync_log_request => handle_log_sync_req req
  | join_cluster_request => handle_join_cluster_req req
  | leave_cluster_request => handle_leave_cluster_req req
  | install_snapshot_request => handle_install_snapshot_req req
  | _ => fatal (-1)
  end.

Definition is_raft_rpc (t : msg_type) : bool :=
  match t with
  | append_entries_request | request_vote_request | install_snapshot_request => true
  | _ => false
  end.

Definition process_req (req : req_msg) : M W resp_msg :=
  when (is_raft_rpc (req_type req)) (
    update_term (req_term req) ;;
    w ← gets id;
    when (0 <? steps_to_down_ w) (steps_to_down_ <~ 2)) ;;
  match req_type req with
  | append_entries_request => handle_append_entries req
  | request_vote_request => handle_vote_req req
  | client_request => handle_cli_req req
  | _ => handle_extended_msg req
  end.

(** ** Operations for clients of the server

    The result is what the [async_result] holds when the call returns; [None]
    while the answer of the leader is awaited. *)

Definition send_msg_to_leader (req : req_msg) : M W (option bool) :=
  w ← gets id;
  let leader_id := leader_ w in
  if leader_id =? -1 then mret (Some false)
  else if leader_id =? id_ w then
    resp ← process_req req;
    mret (Some (resp_accepted resp))
  else
    if bool_decide (leader_id ∈ rpc_clients_ w) then
      emit (ESendLeader leader_id req) ;; mret None
    else match get_server (config_ w) leader_id with
         | None => mret (Some false)
         | Some srv_conf =>
             emit (ECreateClient (LeaderClient leader_id) (sc_endpoint srv_conf)) ;;
             modify (update rpc_clients_ (union {[leader_id]})) ;;
             emit (ESendLeader leader_id req) ;;
             mret None
         end.

Definition client_req (t : msg_type) (entries : list log_entry) : req_msg :=
  mk_req_msg 0 t 0 0 0 0 0 entries.

Definition add_srv (srv : srv_config) : M W (option bool) :=
  b ← lift (srv_config_serialize srv);
  send_msg_to_leader (client_req add_server_request [mk_log_entry 0 cluster_server b]).

Definition append_entries (logs : list buffer) : M W (option bool) :=
  if bool_decide (logs = []) then mret (Some false)
  else send_msg_to_leader (client_req client_request ((λ b, mk_log_entry 0 app_log b) <$> logs)).

Definition remove_srv (srv_id : Z) : M W (option bool) :=
  b ← lift (b ← alloc (Z.of_nat sz_int); b ← put_int srv_id b; Ok (pos_set 0 b));
  send_msg_to_leader (client_req remove_server_request [mk_log_entry 0 cluster_server b]).
End code.
