(* ===== verification/Responses.v ===== *)
(** * Response handlers, timeouts and start-up

    src/raft_enclave/raft/src/raft_server_handle_resp.cxx and
    raft_server_handle_timeout.cxx, the completion of a call on a peer
    ([peer::handle_rpc_result]), the constructor of [raft_server], and the
    step relation of a running server. *)

From S2P Require Import Prelude Buffer Config Messages LogStore StateMachine StateMgr Scheduler Peer Server Membership Requests.

Section code.
Context `{FreshMem} {LS SM : Type} `{!log_store LS} `{!state_machine SM}.
#[local] Abbreviation W := (raft_server LS SM).

(** ** Answers from peers *)

Definition handle_voting_resp (resp : resp_msg) : M W unit :=
  w ← gets id;
  if negb (resp_term resp =? current_term w) then mret tt
  else if election_completed_ w then mret tt
  else if bool_decide (resp_src resp ∈ voted_servers_ w) then mret tt
  else
    modify (update voted_servers_ (union {[resp_src resp]})) ;;
    when (resp_accepted resp) (modify (update votes_granted_ (λ v, i32 (v + 1)))) ;;
    w ← gets id;
    when (size (peers_ w) + 1 <=? size (voted_servers_ w))%nat (election_completed_ <~ true) ;;
    when (i32 ((Z.of_nat (size (peers_ w)) + 1) `div` 2) <? votes_granted_ w) (
      election_completed_ <~ true ;;
      become_leader).

(** The index a quorum has: own log and the peers' matched indices, the
    largest first, the one in the middle. *)
Definition matched_indexes (w : W) : list Z :=
  u64 (next_slot_ w - 1) :: (matched_idx_ <$> (map_to_list (peers_ w)).*2).

Definition quorum_index (l : list Z) : option Z := merge_sort Z.ge l !! (length l / 2)%nat.

Definition handle_append_entries_resp (resp : resp_msg) : M W unit :=
  w ← gets id;
  match peers_ w !! resp_src resp with
  | None => mret tt
  | Some p =>
      need_to_catchup ←
        (if resp_accepted resp then
           upd_peer (PeerOf (resp_src resp))
             (λ p, set_matched_idx (u64 (resp_next_idx resp - 1))
                     (set_next_log_idx (resp_next_idx resp) p)) ;;
           l ← gets matched_indexes;
           match quorum_index l with
           | Some target => commit target
           | None => faulting oob_access
           end ;;
           p ← get_peer (PeerOf (resp_src resp));
           let '(pending, p) := clear_pending_commit p in
           set_peer (PeerOf (resp_src resp)) p ;;
           nxt ← gets next_slot_;
           mret (pending || (resp_next_idx resp <? nxt))
         else
           upd_peer (PeerOf (resp_src resp)) (λ p,
             if (0 <? resp_next_idx resp) && (resp_next_idx resp <? next_log_idx_ p)
             then set_next_log_idx (resp_next_idx resp) p
             else set_next_log_idx (u64 (next_log_idx_ p - 1)) p) ;;
           mret true);
      w ← gets id;
      when (bool_decide (role_ w = leader) && need_to_catchup)
        (request_append_entries_to (PeerOf (resp_src resp)) ;; mret tt)
  end.

Definition handle_install_snapshot_resp (resp : resp_msg) : M W unit :=
  w ← gets id;
  match peers_ w !! resp_src resp with
  | None => mret tt
  | Some p =>
      let r := PeerOf (resp_src resp) in
      need_to_catchup ←
        (if resp_accepted resp then
           match snp_sync_ctx_ p with
           | None => mret false
           | Some sync_ctx =>
               if snp_size_ (ctx_snapshot sync_ctx) <=? resp_next_idx resp then
                 let last := last_log_idx_ (ctx_snapshot sync_ctx) in
                 upd_peer r (λ p, set_snapshot_in_sync None
                   (set_matched_idx last (set_next_log_idx (u64 (last + 1)) p))) ;;
                 p ← get_peer r;
                 let '(pending, p) := clear_pending_commit p in
                 set_peer r p ;;
                 mret (pending || (resp_next_idx resp <? next_slot_ w))
               else
                 upd_peer r (set_sync_offset (resp_next_idx resp)) ;;
                 mret true
           end
         else mret true);
      when (bool_decide (role_ w = leader) && need_to_catchup)
        (request_append_entries_to r ;; mret tt)
  end.

(** With an error there is no response to handle. *)
Definition handle_peer_resp (resp : option resp_msg) : M W unit :=
  match resp with
  | None => mret tt
  | Some resp =>
      w ← gets id;
      when (bool_decide (peers_ w !! resp_src resp ≠ None))
        (upd_peer (PeerOf (resp_src resp)) (set_last_resp (clock w))) ;;
      newer ← update_term (resp_term resp);
      if (newer : bool) then mret tt
      else match resp_type resp with
           | request_vote_response => handle_voting_resp resp
           | append_entries_response => handle_append_entries_resp resp
           | install_snapshot_response => handle_install_snapshot_resp resp
           | _ => fatal (-1)
           end
  end.

(** ** Answers to membership requests *)

Definition handle_ext_install_snapshot_resp (resp : resp_msg) : M W unit :=
  w ← gets id;
  match srv_to_join_ w with
  | None => mret tt
  | Some j =>
      if negb (resp_accepted resp) then mret tt
      else match snp_sync_ctx_ j with
           | None => fatal (-1)
           | Some sync_ctx =>
               (if snp_size_ (ctx_snapshot sync_ctx) <=? resp_next_idx resp then
                  let last := last_log_idx_ (ctx_snapshot sync_ctx) in
                  upd_peer Joining (λ p, set_matched_idx last
                    (set_next_log_idx (u64 (last + 1)) (set_snapshot_in_sync None p)))
                else upd_peer Joining (set_sync_offset (resp_next_idx resp))) ;;
               j ← get_peer Joining;
               sync_log_to_new_srv (next_log_idx_ j)
           end
  end.

Definition handle_ext_resp_err (req : req_msg) : M W unit :=
  if bool_decide (req_type req = sync_log_request) ||
     bool_decide (req_type req = join_cluster_request) ||
     bool_decide (req_type req = leave_cluster_request)
  then
    w ← gets id;
    let r := if bool_decide (req_type req = leave_cluster_request)
             then PeerOf (req_dst req) else Joining in
    match find_peer r w with
    | None => mret tt
    | Some p =>
        if max_hb_interval (params_ w) <=? current_hb_interval_ p then
          if bool_decide (req_type req = leave_cluster_request) then
            when (size (peers_ w) =? 1)%nat
              (match peers_ w !! p_id p with
               | Some p' =>
                   enable_hb false p' ;;
                   modify (update peers_ (delete (p_id p)))
               | None => mret tt
               end) ;;
            rm_srv_from_cluster (p_id p)
          else
            config_changing_ <~ false ;;
            srv_to_join_ <~ None
        else
          upd_peer r slow_down_hb ;;
          p ← get_peer r;
          modify (update retried (union {[p_obj p]})) ;;
          t ← on scheduler_ (new_task (TRetry (p_obj p) req));
          on scheduler_ (schedule t (current_hb_interval_ p))
    end
  else mret tt.

(** [err] carries the request that failed. *)
Definition handle_ext_resp (resp : resp_msg + req_msg) : M W unit :=
  match resp with
  | inr failed => handle_ext_resp_err failed
  | inl resp =>
      w ← gets id;
      match resp_type resp with
      | sync_log_response =>
          when (bool_decide (srv_to_join_ w ≠ None)) (
            upd_peer Joining (λ p, set_matched_idx (u64 (resp_next_idx resp - 1))
              (set_next_log_idx (resp_next_idx resp) (resume_hb_speed p))) ;;
            sync_log_to_new_srv (resp_next_idx resp))
      | join_cluster_response =>
          when (bool_decide (srv_to_join_ w ≠ None) && resp_accepted resp)
            (sync_log_to_new_srv (resp_next_idx resp))
      | leave_cluster_response =>
          when (resp_accepted resp) (rm_srv_from_cluster (resp_src resp))
      | install_snapshot_response => handle_ext_install_snapshot_resp resp
      | _ => fatal (-1)
      end
  end.

(** ** Completion of a call

    The callback holds a raw pointer to the peer object: it must still exist.
    Besides [peers_] and [srv_to_join_] a retry timer keeps one alive. *)

Definition ref_of_object (obj : nat) (w : W) : option peer_ref :=
  if bool_decide (p_obj <$> srv_to_join_ w = Some obj) then Some Joining
  else (λ '(i, _), PeerOf i) <$> head (filter (λ '(_, p), p_obj p = obj) (map_to_list (peers_ w))).

Definition handle_rpc_result (obj : nat) (req : req_msg) (h : rpc_handler)
    (result : option resp_msg) : M W unit :=
  w ← gets id;
  match ref_of_object obj w with
  | Some r => upd_peer r (rpc_completed (req_type req) (bool_decide (result = None)))
  | None => if bool_decide (obj ∈ retried w) then mret tt else faulting dangling_ref
  end ;;
  match h with
  | resp_handler => handle_peer_resp result
  | ex_resp_handler =>
      handle_ext_resp (match result with Some resp => inl resp | None => inr req end)
  end.

(** ** Timeouts *)

(** [servers.erase(it)] at the first entry of this server. *)
Fixpoint erase_server (i : Z) (l : list srv_config) : list srv_config :=
  match l with
  | [] => []
  | s :: l' => if sc_id s =? i then l' else s :: erase_server i l'
  end.

Definition handle_election_timeout : M W unit :=
  w ← gets id;
  if 0 <? steps_to_down_ w then
    steps_to_down_ <~ steps_to_down_ w - 1 ;;
    if steps_to_down_ w - 1 =? 0 then
      when (bool_decide (get_server (config_ w) (id_ w) ≠ None)) (
        mutate_config (update servers_ (erase_server (id_ w))) ;;
        c ← gets config_;
        persist_config c) ;;
      fatal (-1)
    else restart_election_timer
  else if catching_up_ w then restart_election_timer
  else if bool_decide (role_ w = leader) then fatal (-1)
  else
    modify (update state_ inc_term) ;;
    modify (update state_ (set_voted_for (-1))) ;;
    role_ <~ candidate ;;
    votes_granted_ <~ 0 ;;
    voted_servers_ <~ ∅ ;;
    election_completed_ <~ false ;;
    persist_state ;;
    request_vote ;;
    w ← gets id;
    when (negb (bool_decide (role_ w = leader))) restart_election_timer.

Definition handle_hb_timeout (r : peer_ref) : M W unit :=
  w ← gets id;
  when (bool_decide (role_ w = leader)) (
    request_append_entries_to r ;;
    p ← get_peer r;
    when (hb_enabled_ p) (on scheduler_ (schedule (hb_task_ p) (current_hb_interval_ p)))).

(** What an expired timer runs. *)
Definition run_task (b : task_body) : M W unit :=
  match b with
  | TElection => handle_election_timeout
  | THeartbeat obj =>
      w ← gets id;
      match ref_of_object obj w with
      | Some r => handle_hb_timeout r
      | None => faulting dangling_ref
      end
  | TRetry obj req => on_retryable_req_err obj req
  end.

Definition timer_expired (uid : Z) (success : bool) : M W unit :=
  w ← gets id;
  match expired uid success (scheduler_ w) with
  | Some (_, b) => run_task b
  | None => mret tt
  end.

(** ** Start-up *)

(** An uncommitted configuration in the log. *)
Fixpoint scan_configs (ids : list Z) (l : LS) : outcome bool :=
  match ids with
  | [] => Ok false
  | i :: ids' =>
      e ← entry_at i l;
      if bool_decide (le_val_type e = conf) then Ok true else scan_configs ids' l
  end.

Definition constructor_body : M W unit :=
  w ← gets id;
  let from := Z.max (u64 (sm_commit_index_ w + 1)) (start_index_ w) in
  changing ← lift (scan_configs (seqZ from (next_slot_ w - from)) (log_store_ w));
  config_changing_ <~ changing ;;
  for_each (servers_ (config_ w)) (λ srv,
    when (negb (sc_id srv =? id_ w)) (
      p ← new_peer srv;
      modify (update peers_ (λ m, if bool_decide (m !! sc_id srv = None)
                                  then <[sc_id srv := p]> m else m)))) ;;
  restart_election_timer.

(** The members before the constructor's body runs. *)
Definition initial_server (ls : LS) (sm : SM) (ps : raft_params) (mgr : in_memory_state_mgr)
    (now : Z) (rnd : nat → Z) : W :=
  let '(c, mgr') := load_config mgr in
  {| leader_ := -1; id_ := my_id_ mgr; votes_granted_ := 0;
     quick_commit_idx_ := last_commit_index sm; sm_commit_index_ := last_commit_index sm;
     election_completed_ := true; config_changing_ := false; catching_up_ := false;
     stopping_ := false; steps_to_down_ := 0; snp_in_progress_ := false;
     scheduler_ := new_service_port; election_task_ := None; peers_ := ∅; rpc_clients_ := ∅;
     role_ := follower; state_ := default (mk_srv_state 0 (-1)) (read_state mgr);
     log_store_ := ls; state_machine_ := sm; config_ := saved_config_ mgr;
     srv_to_join_ := None; conf_to_add_ := None; last_snapshot_ := sm_last_snapshot sm;
     voted_servers_ := ∅; params_ := ps; state_mgr_ := mgr';
     time_elapsed_since_quorum_resp := 2 ^ 31 - 1;
     clock := now; entropy := rnd; draws := 0; next_obj := 0; retried := ∅; out := [] |}.

Definition new_raft_server (ls : LS) (sm : SM) (ps : raft_params) (mgr : in_memory_state_mgr)
    (now : Z) (rnd : nat → Z) : outcome unit * W :=
  constructor_body (initial_server ls sm ps mgr now rnd).

(** ** A running server

    The events that reach the server: a request, the end of a call it made,
    an expired timer, a round of the commit thread, the passing of time. *)

Inductive event :=
  | EvRequest (req : req_msg)
  | EvRpcResult (obj : nat) (req : req_msg) (h : rpc_handler) (result : option resp_msg)
  | EvTimer (uid : Z) (success : bool)
  | EvCommit
  | EvClock (now : Z).

Definition handle_event (e : event) : M W unit :=
  match e with
  | EvRequest req => process_req req ;; mret tt
  | EvRpcResult obj req h result => handle_rpc_result obj req h result
  | EvTimer uid success => timer_expired uid success
  | EvCommit => w ← gets id; when (commit_pending w) (catch_all commit_one (fatal (-1)))
  | EvClock now => clock <~ now
  end.

(** A server goes on after an exception (the host sees the failed call) and
    does not after a fault. *)
Inductive step (w : W) : event → W → Prop :=
  | step_event e : (∀ u, (handle_event e w).1 ≠ Fault u) → step w e (handle_event e w).2.

Inductive reachable (w0 : W) : W → Prop :=
  | reach_init : reachable w0 w0
  | reach_step w e w' : reachable w0 w → step w e w' → reachable w0 w'.

(** An invariant the handlers keep holds in every reachable state. *)
Lemma reachable_keeps (I : W → Prop) w0 w :
  (∀ e, within (keeps I) (handle_event e)) → I w0 → reachable w0 w → I w.
Proof.
  intros HI H0 Hr. induction Hr as [|w e w' _ IH Hs]; [done|].
  destruct Hs. by apply HI.
Qed.
End code.
