(* ===== verification/AsyncResult.v ===== *)
(** * Results that are ready later

    src/raft_enclave/raft/include/rpc/async_result.hxx: a result that one
    thread sets and others wait for or handle.  Every access to the members is
    a step of its own; the steps of the threads interleave.  A step of the
    mutex or of the condition variable is possible when the C++ library says
    so: a lock only when it is free, the end of a wait only after a
    notification.  Ends of a wait without one, which the library allows too,
    are a step relation of their own. *)

From S2P Require Import Prelude.

Section async_result.
Context {T E : Type}.

(** A handler is known by a number; the result of a [new] object is not
    initialised. *)
Record async_result := mk_async_result {
  result_ : option T;
  err_ : option E;
  has_result_ : bool;
  handler_ : option nat;
  lock_ : option nat;  (* the thread that has it *)
}.

#[global] Instance eta_async_result : Eta async_result := λ o,
  mk_async_result (result_ o) (err_ o) (has_result_ o) (handler_ o) (lock_ o).

(** The three constructors. *)
Definition new_result : async_result := mk_async_result None None false None None.
Definition new_result_of (r : T) : async_result := mk_async_result (Some r) None true None None.
Definition new_result_for (h : nat) : async_result := mk_async_result None None true (Some h) None.

(** What [get] ends in. *)
Inductive got := Returned (r : option T) | Thrown (e : E).

(** Where a thread is in [set_result], [when_ready] or [get]. *)
Inductive thread :=
  | SetLock (r : T) (e : option E) | SetResult (r : T) (e : option E) | SetErr (e : option E)
  | SetFlag | SetCopy | SetUnlock (h : option nat) | SetCall (h : option nat) | SetNotify | SetDone
  | WhenLock (h : nat) | WhenStore (h : nat) | WhenUnlock | WhenTest | WhenCall | WhenDone
  | GetLock | GetTest | GetWait | Asleep | Awake | GetRead | GetDone (v : got).

Definition set_result (r : T) (e : option E) : thread := SetLock r e.
Definition when_ready (h : nat) : thread := WhenLock h.
Definition get : thread := GetLock.

(** A call of a handler and what it is given. *)
Definition call : Type := nat * option T * option E.

Definition take_lock (i : nat) (o : async_result) : option async_result :=
  match lock_ o with
  | None => Some (o <| lock_ := Some i |>)
  | Some _ => None
  end.
Definition unlock (o : async_result) : async_result := o <| lock_ := None |>.
Definition call_of (h : option nat) (o : async_result) : list call :=
  match h with Some h => [(h, result_ o, err_ o)] | None => [] end.

(** One step of thread [i]; a thread that waits or is done makes none. *)
Definition advance (i : nat) (o : async_result) (t : thread) :
    option (async_result * thread * list call) :=
  match t with
  | SetLock r e => o ← take_lock i o; Some (o, SetResult r e, [])
  | SetResult r e => Some (o <| result_ := Some r |>, SetErr e, [])
  | SetErr e => Some (o <| err_ := e |>, SetFlag, [])
  | SetFlag => Some (o <| has_result_ := true |>, SetCopy, [])
  | SetCopy => Some (o, SetUnlock (handler_ o), [])
  | SetUnlock h => Some (unlock o, SetCall h, [])
  | SetCall h => Some (o, SetNotify, call_of h o)
  | WhenLock h => o ← take_lock i o; Some (o, WhenStore h, [])
  | WhenStore h => Some (o <| handler_ := Some h |>, WhenUnlock, [])
  | WhenUnlock => Some (unlock o, WhenTest, [])
  | WhenTest => Some (o, if has_result_ o then WhenCall else WhenDone, [])
  | WhenCall => Some (o, WhenDone, call_of (handler_ o) o)
  | GetLock => o ← take_lock i o; Some (o, GetTest, [])
  | GetTest => Some (o, if has_result_ o then GetRead else GetWait, [])
  | GetWait => Some (unlock o, Asleep, [])
  | Awake => o ← take_lock i o; Some (o, GetRead, [])
  | GetRead =>
      Some (unlock o, GetDone (match err_ o with None => Returned (result_ o) | Some e => Thrown e end), [])
  | SetNotify | SetDone | WhenDone | Asleep | GetDone _ => None
  end.

(** An object, its threads and the calls made so far. *)
Record system := mk_system { object : async_result; threads : list thread; calls : list call }.

Definition wake (t : thread) : thread := match t with Asleep => Awake | _ => t end.

Inductive step (s : system) : system → Prop :=
  | step_advance i t o t' cs :
      threads s !! i = Some t → advance i (object s) t = Some (o, t', cs) →
      step s (mk_system o (<[i := t']> (threads s)) (calls s ++ cs))
  | step_notify i :
      threads s !! i = Some SetNotify →
      step s (mk_system (object s) (wake <$> <[i := SetDone]> (threads s)) (calls s)).

(** The end of a wait for no reason. *)
Inductive spurious (s : system) : system → Prop :=
  | spurious_wake i :
      threads s !! i = Some Asleep →
      spurious s (mk_system (object s) (<[i := Awake]> (threads s)) (calls s)).

(** ** The mutex *)

Definition holds (t : thread) : bool :=
  match t with
  | SetResult _ _ | SetErr _ | SetFlag | SetCopy | SetUnlock _ | WhenStore _ | WhenUnlock
  | GetTest | GetWait | GetRead => true
  | _ => false
  end.

Definition exclusive (s : system) : Prop :=
  ∀ i t, threads s !! i = Some t → (holds t = true ↔ lock_ (object s) = Some i).

Lemma advance_lock i o t o' t' cs :
  advance i o t = Some (o', t', cs) → (holds t = true ↔ lock_ o = Some i) →
  (holds t' = true ↔ lock_ o' = Some i) ∧ (∀ j, j ≠ i → lock_ o' = Some j ↔ lock_ o = Some j).
Proof.
  intros Ha Hh. destruct o as [r e f h l]. destruct t; cbn in *; try done;
    try (destruct l as [k|]; [done|]); simplify_eq/=; try destruct f; cbn; intuition congruence.
Qed.

Lemma lookup_insert_cases (l : list thread) i j t t' :
  <[i := t]> l !! j = Some t' → (j = i ∧ t' = t) ∨ (j ≠ i ∧ l !! j = Some t').
Proof.
  destruct (decide (j = i)) as [->|Hne]; [|rewrite list_lookup_insert_ne by done; auto].
  intros Hl. pose proof (lookup_lt_Some _ _ _ Hl) as Hlen. rewrite length_insert in Hlen.
  rewrite list_lookup_insert_eq in Hl by done. left. by injection Hl.
Qed.

Lemma wake_holds t : holds (wake t) = holds t.
Proof. by destruct t. Qed.

Lemma lookup_notified (l : list thread) i j t :
  (wake <$> <[i := SetDone]> l) !! j = Some t →
  (j = i ∧ t = SetDone) ∨ (j ≠ i ∧ ∃ t0, l !! j = Some t0 ∧ t = wake t0).
Proof.
  rewrite list_lookup_fmap. intros (t0 & Hl & ->)%fmap_Some.
  apply lookup_insert_cases in Hl as [[-> ->]|[? ?]]; eauto.
Qed.

Lemma step_exclusive s s' : step s s' → exclusive s → exclusive s'.
Proof.
  intros [i t o t' cs Hi Ha|i Hi] Hex j tj; cbn.
  - destruct (advance_lock _ _ _ _ _ _ Ha (Hex i t Hi)) as [Hme Hoth].
    intros [[-> ->]|[Hne Hj]]%lookup_insert_cases; [done|]. rewrite Hoth by done. by apply Hex.
  - intros [[-> ->]|(Hne & t0 & Hj & ->)]%lookup_notified.
    + specialize (Hex i _ Hi). cbn in *. done.
    + rewrite wake_holds. by apply Hex.
Qed.

(** ** One thread sets the result

    Thread [n] runs [set_result r e]; the others run [get] and [when_ready]. *)

Section one_setter.
Context (n : nat) (r : T) (e : option E).

(** What holds of the object where the setter is. *)
Definition setter_at (t : thread) (o : async_result) : Prop :=
  match t with
  | SetLock r' e' | SetResult r' e' => r' = r ∧ e' = e ∧ has_result_ o = false
  | SetErr e' => e' = e ∧ result_ o = Some r ∧ has_result_ o = false
  | SetFlag => result_ o = Some r ∧ err_ o = e ∧ has_result_ o = false
  | SetCopy | SetUnlock _ | SetCall _ | SetNotify | SetDone =>
      result_ o = Some r ∧ err_ o = e ∧ has_result_ o = true
  | _ => False
  end.

(** What [get] must end in. *)
Definition result_of_get : got :=
  match e with None => Returned (Some r) | Some x => Thrown x end.

(** What holds where another thread is, with the setter at [ts]. *)
Definition client_at (ts : thread) (o : async_result) (t : thread) : Prop :=
  match t with
  | SetLock _ _ | SetResult _ _ | SetErr _ | SetFlag | SetCopy | SetUnlock _ | SetCall _
  | SetNotify | SetDone => False
  | GetWait => has_result_ o = false
  | Asleep => ts ≠ SetDone
  | Awake => ts = SetDone
  | GetRead | WhenCall => has_result_ o = true
  | GetDone v => v = result_of_get
  | _ => True
  end.

Record consistent (s : system) : Prop := {
  con_lock : exclusive s;
  con_owner : ∀ i, lock_ (object s) = Some i → is_Some (threads s !! i);
  con_threads : ∃ ts, threads s !! n = Some ts ∧ setter_at ts (object s) ∧
    ∀ i t, i ≠ n → threads s !! i = Some t → client_at ts (object s) t;
}.

Lemma setter_written t o :
  setter_at t o → has_result_ o = true → result_ o = Some r ∧ err_ o = e.
Proof. destruct t; cbn; intuition congruence. Qed.

Lemma setter_advance o t o' t' cs :
  advance n o t = Some (o', t', cs) → setter_at t o →
  setter_at t' o' ∧ t' ≠ SetDone ∧ t ≠ SetDone ∧
  (has_result_ o' = has_result_ o ∨ has_result_ o' = true ∧ holds t = true).
Proof.
  intros Ha Hs. destruct o as [ro eo f h l]. destruct t; cbn in *; try done;
    try (destruct l as [k|]; [done|]); simplify_eq/=; intuition congruence.
Qed.

(** A client leaves what the setter wrote alone. *)
Lemma client_advance i ts o t o' t' cs :
  advance i o t = Some (o', t', cs) → setter_at ts o → client_at ts o t →
  client_at ts o' t' ∧ result_ o' = result_ o ∧ err_ o' = err_ o ∧ has_result_ o' = has_result_ o.
Proof.
  intros Ha Hs Hc. pose proof (setter_written ts o Hs) as Hw.
  assert (ts = SetDone → has_result_ o = true) as Hd by (intros ->; apply Hs).
  destruct o as [ro eo f h l]. destruct t; cbn in *; try done;
    try (destruct l as [k|]; [done|]); simplify_eq/=; try (destruct f; cbn; try done);
    try (split_and!; intuition congruence).
  destruct Hw as [-> ->]; [done|]. unfold result_of_get. by destruct e.
Qed.

Lemma setter_at_same t o o' :
  result_ o' = result_ o → err_ o' = err_ o → has_result_ o' = has_result_ o →
  setter_at t o → setter_at t o'.
Proof. intros Hr He Hh. destruct t; cbn; by rewrite ?Hr, ?He, ?Hh. Qed.

Lemma client_at_same ts o o' t : has_result_ o' = has_result_ o → client_at ts o t → client_at ts o' t.
Proof. intros Hh. destruct t; cbn; by rewrite ?Hh. Qed.

Lemma owner_step s s' :
  step s s' → exclusive s → (∀ i, lock_ (object s) = Some i → is_Some (threads s !! i)) →
  ∀ i, lock_ (object s') = Some i → is_Some (threads s' !! i).
Proof.
  intros [i t o t' cs Hi Ha|i Hi] Hex Ho j Hj; cbn in *; rewrite ?list_lookup_fmap, ?fmap_is_Some.
  - destruct (decide (j = i)) as [->|Hne].
    { rewrite list_lookup_insert_eq by (by eapply lookup_lt_Some). by eexists. }
    rewrite list_lookup_insert_ne by done. apply Ho.
    by apply (advance_lock _ _ _ _ _ _ Ha (Hex i t Hi)).
  - apply lookup_lt_is_Some. rewrite length_insert. by apply lookup_lt_is_Some, Ho.
Qed.

Lemma step_consistent s s' : step s s' → consistent s → consistent s'.
Proof.
  intros Hs [Hex How (ts & Hn & Hts & Hcl)].
  split; [by eapply step_exclusive|by eapply owner_step|].
  destruct Hs as [i t o t' cs Hi Ha|i Hi]; cbn in *.
  - destruct (decide (i = n)) as [->|Hne].
    + assert (t = ts) as -> by congruence.
      destruct (setter_advance _ _ _ _ _ Ha Hts) as (Hts' & Hnd & Hnd0 & Hf). exists t'.
      rewrite list_lookup_insert_eq by (by eapply lookup_lt_Some). split_and!; [done..|].
      intros j u Hj. rewrite list_lookup_insert_ne by done. intros Hu. specialize (Hcl j u Hj Hu).
      destruct u; cbn in *; try done; try (destruct Hf as [->|[-> Hh]]; done).
      destruct Hf as [->|[_ Hh]]; [done|]. exfalso.
      apply (Hex n ts Hn) in Hh. pose proof (proj1 (Hex j _ Hu) eq_refl). congruence.
    + destruct (client_advance _ _ _ _ _ _ _ Ha Hts (Hcl i t Hne Hi)) as (Hc & Hr & He & Hh).
      exists ts. rewrite list_lookup_insert_ne by done.
      split_and!; [done|by eapply setter_at_same|].
      intros j u Hj [[-> ->]|[? Hu]]%lookup_insert_cases; [done|].
      eapply client_at_same; [done|]. by apply (Hcl j).
  - destruct (decide (i = n)) as [->|Hne]; [|by destruct (Hcl i _ Hne Hi)].
    exists SetDone. assert (ts = SetNotify) as -> by congruence. split_and!; [|done|].
    + rewrite list_lookup_fmap, list_lookup_insert_eq by (by eapply lookup_lt_Some). done.
    + intros j u Hj [[-> ->]|(_ & u0 & Hu & ->)]%lookup_notified; [done|].
      specialize (Hcl j u0 Hj Hu). destruct u0; cbn in *; done.
Qed.

(** ** Progress *)

Definition finished (t : thread) : bool :=
  match t with SetDone | WhenDone | GetDone _ => true | _ => false end.

(** The steps a thread has left. *)
Definition remaining (t : thread) : nat :=
  match t with
  | SetLock _ _ => 8 | SetResult _ _ => 7 | SetErr _ => 6 | SetFlag => 5 | SetCopy => 4
  | SetUnlock _ => 3 | SetCall _ => 2 | SetNotify => 1 | SetDone => 0
  | WhenLock _ => 5 | WhenStore _ => 4 | WhenUnlock => 3 | WhenTest => 2 | WhenCall => 1
  | WhenDone => 0
  | GetLock => 6 | GetTest => 5 | GetWait => 4 | Asleep => 3 | Awake => 2 | GetRead => 1
  | GetDone _ => 0
  end.
Definition steps_left (s : system) : nat := sum_list_with remaining (threads s).

Lemma advance_remaining i o t o' t' cs :
  advance i o t = Some (o', t', cs) → (remaining t' < remaining t)%nat.
Proof.
  destruct o as [ro eo f h l]. destruct t; cbn; try done;
    try (destruct l; [done|]); intros [= <- <- <-]; cbn; try destruct f; cbn; lia.
Qed.

Lemma sum_insert (l : list thread) i t t' :
  l !! i = Some t →
  (sum_list_with remaining (<[i := t']> l) + remaining t = sum_list_with remaining l + remaining t')%nat.
Proof.
  revert i. induction l as [|u l IH]; intros [|i] Hi; csimpl in *; [done|done|simplify_eq; lia|].
  specialize (IH i Hi). lia.
Qed.

Lemma sum_wake (l : list thread) :
  (sum_list_with remaining (wake <$> l) ≤ sum_list_with remaining l)%nat.
Proof. induction l as [|t l IH]; cbn; [done|]. assert (remaining (wake t) ≤ remaining t)%nat by (destruct t; cbn; lia). lia. Qed.

Lemma step_left s s' : step s s' → (steps_left s' < steps_left s)%nat.
Proof.
  intros [i t o t' cs Hi Ha|i Hi]; unfold steps_left; cbn.
  - pose proof (sum_insert _ _ _ t' Hi). pose proof (advance_remaining _ _ _ _ _ _ Ha). lia.
  - pose proof (sum_insert _ _ _ SetDone Hi) as Hs. cbn in Hs.
    pose proof (sum_wake (<[i := SetDone]> (threads s))). lia.
Qed.

Lemma nsteps_left k s s' : nsteps step k s s' → (k + steps_left s' ≤ steps_left s)%nat.
Proof. induction 1 as [|k s1 s2 s3 Hs _ IH]; [done|]. apply step_left in Hs. lia. Qed.

(** Whoever has the lock can go on. *)
Lemma holder_advances i o t : holds t = true → is_Some (advance i o t).
Proof. destruct t; cbn; try done; intros _; by eexists. Qed.

(** With the lock free, only a wait keeps a thread from going on. *)
Lemma free_advances i o t :
  lock_ o = None → finished t = false → t ≠ Asleep → t ≠ SetNotify → is_Some (advance i o t).
Proof. destruct t; cbn; try done; unfold take_lock; intros -> _ _ _; by eexists. Qed.

Lemma consistent_progress s i t :
  consistent s → threads s !! i = Some t → finished t = false → ∃ s', step s s'.
Proof.
  intros [Hex How (ts & Hn & Hts & Hcl)] Hi Hf.
  assert (∀ j u, threads s !! j = Some u → is_Some (advance j (object s) u) → ∃ s', step s s') as Hgo.
  { intros j u Hj [[[o u'] cs] Ha]. eexists. by eapply step_advance. }
  destruct (lock_ (object s)) as [j|] eqn:Hl.
  { destruct (How j eq_refl) as [u Hu]. apply (Hgo j u Hu), holder_advances. by apply (Hex j u Hu). }
  assert (∀ j u, threads s !! j = Some u → finished u = false → u ≠ Asleep → ∃ s', step s s') as Hrun.
  { intros j u Hu Hfu Ha. pose proof (free_advances j (object s) u Hl Hfu Ha) as Hadv.
    destruct u; try (by apply (Hgo j _ Hu), Hadv). eexists. by eapply step_notify. }
  destruct t; try (by eapply Hrun). destruct (decide (i = n)) as [->|Hin]; [by simplify_eq|].
  pose proof (Hcl i _ Hin Hi) as Hsl. cbn in Hsl.
  apply (Hrun n ts Hn); destruct ts; cbn in *; done.
Qed.

(** ** One thread gives a handler

    Thread [m] runs [when_ready h]. *)

Context (m h : nat).

(** Where the handler is, with thread [m] at [tm]. *)
Definition giver_at (tm : thread) (o : async_result) : Prop :=
  match tm with
  | WhenLock h' | WhenStore h' => h' = h ∧ handler_ o = None
  | WhenUnlock | WhenTest | WhenCall | WhenDone => handler_ o = Some h
  | _ => False
  end.

Definition the_call : call := (h, Some r, e).

(** The calls a thread has made at most. *)
Definition made (t : thread) : nat :=
  match t with SetNotify | SetDone | WhenDone => 1 | _ => 0 end.

(** Once thread [m] is done, a call was made or is to come. *)
Definition owed (ts tm : thread) (cs : list call) : Prop :=
  match tm, ts with
  | WhenDone, (SetUnlock c | SetCall c) => c = Some h ∨ cs ≠ []
  | WhenDone, (SetNotify | SetDone) => cs ≠ []
  | _, _ => True
  end.

(** The handler the setter has copied. *)
Definition copied (ts : thread) : Prop :=
  match ts with SetUnlock c | SetCall c => c = None ∨ c = Some h | _ => True end.

Record handled (s : system) : Prop := {
  hd_calls : Forall (eq the_call) (calls s);
  hd_threads : ∃ ts tm, threads s !! n = Some ts ∧ threads s !! m = Some tm ∧
    giver_at tm (object s) ∧ copied ts ∧ owed ts tm (calls s) ∧
    (length (calls s) ≤ made ts + made tm)%nat;
  hd_others : ∀ i t, i ≠ n → i ≠ m → threads s !! i = Some t →
    match t with WhenLock _ | WhenStore _ | WhenUnlock | WhenTest | WhenCall => False | _ => True end;
}.

(** A step of a thread that is neither the setter nor the giver. *)
Lemma other_advance i o t o' t' cs :
  advance i o t = Some (o', t', cs) →
  match t with
  | SetLock _ _ | SetResult _ _ | SetErr _ | SetFlag | SetCopy | SetUnlock _ | SetCall _ | SetNotify
  | SetDone | WhenLock _ | WhenStore _ | WhenUnlock | WhenTest | WhenCall => False | _ => True end →
  cs = [] ∧ handler_ o' = handler_ o ∧
  match t' with WhenLock _ | WhenStore _ | WhenUnlock | WhenTest | WhenCall => False | _ => True end.
Proof.
  destruct o as [ro eo f hh l]. destruct t; cbn; try done; intros Ha _;
    try (destruct l; [done|]); simplify_eq/=; try destruct f; done.
Qed.

Lemma giver_advance o t o' t' cs ts cs0 :
  advance m o t = Some (o', t', cs) → giver_at t o → setter_at ts o → client_at ts o t →
  copied ts → owed ts t cs0 →
  giver_at t' o' ∧ owed ts t' (cs0 ++ cs) ∧ Forall (eq the_call) cs ∧
  (length cs + made t ≤ made t')%nat.
Proof.
  intros Ha Hg Hs Hc Hco Ho. pose proof (setter_written ts o Hs) as Hw.
  assert (has_result_ o = false → owed ts WhenDone cs0) as Hno
    by (destruct ts; cbn in *; intuition congruence).
  destruct o as [ro eo f hh l]. destruct t; cbn in *; try done;
    try (destruct l as [k|]; [done|]); simplify_eq/=.
  - by destruct Hg as [-> ->].
  - by destruct Hg as [-> _].
  - done.
  - destruct f; cbn; rewrite ?app_nil_r; split_and!; (done || lia || exact (Hno eq_refl)).
  - destruct Hw as [-> ->]; [done|]. split_and!; [done| |by repeat constructor|lia].
    destruct ts; cbn; try done; try right; by destruct cs0.
Qed.

Lemma setter_advance_calls o t o' t' cs tm cs0 :
  advance n o t = Some (o', t', cs) → setter_at t o → giver_at tm o → copied t → owed t tm cs0 →
  handler_ o' = handler_ o ∧ copied t' ∧ owed t' tm (cs0 ++ cs) ∧ Forall (eq the_call) cs ∧
  (length cs + made t ≤ made t')%nat.
Proof.
  intros Ha Hs Hg Hco Ho. destruct o as [ro eo f hh l]. destruct t; cbn in *; try done;
    try (destruct l as [k|]; [done|]); simplify_eq/=; rewrite ?app_nil_r;
    try (split_and!; try done; try constructor; try lia; destruct tm; by auto).
  - split_and!; [done| | |done|lia].
    + destruct tm; cbn in *; naive_solver.
    + destruct tm; cbn in *; naive_solver.
  - destruct Hs as (-> & -> & _). destruct Hco as [->| ->]; cbn; rewrite ?app_nil_r;
      split_and!; try done; try lia; try (by repeat constructor);
      destruct tm; cbn in *; try done; try (by destruct Ho); try (by destruct cs0).
Qed.

Lemma giver_at_same tm o o' : handler_ o' = handler_ o → giver_at tm o → giver_at tm o'.
Proof. intros Hh. destruct tm; cbn; by rewrite ?Hh. Qed.

Lemma giver_awake tm o : giver_at tm o → wake tm = tm.
Proof. by destruct tm. Qed.

Lemma step_handled s s' : n ≠ m → step s s' → consistent s → handled s → handled s'.
Proof.
  intros Hnm Hs [_ _ (ts & Hn & Hts & Hcl)] [Hcs (ts' & tm & Hn' & Hm & Hg & Hco & Ho & Hlen) Hoth].
  assert (ts' = ts) as -> by congruence. pose proof (Hcl m tm (not_eq_sym Hnm) Hm) as Hcm.
  destruct Hs as [i t o t' cs Hi Ha|i Hi].
  - pose proof (lookup_lt_Some _ _ _ Hi) as Hlt.
    destruct (decide (i = n)) as [->|Hin]; [|destruct (decide (i = m)) as [->|Him]].
    + assert (t = ts) as -> by congruence.
      destruct (setter_advance_calls _ _ _ _ _ _ _ Ha Hts Hg Hco Ho) as (Hh & Hco' & Ho' & Hf & Hl).
      split; cbn; [by apply Forall_app| |].
      * exists t', tm. rewrite list_lookup_insert_eq, list_lookup_insert_ne, length_app by done.
        split_and!; [done..|by eapply giver_at_same|done|done|lia].
      * intros j u Hj Hjm [[? _]|[_ Hu]]%lookup_insert_cases; [done|]. by apply (Hoth j).
    + assert (t = tm) as -> by congruence.
      destruct (giver_advance _ _ _ _ _ _ _ Ha Hg Hts Hcm Hco Ho) as (Hg' & Ho' & Hf & Hl).
      split; cbn; [by apply Forall_app| |].
      * exists ts, t'. rewrite list_lookup_insert_eq, list_lookup_insert_ne, length_app by done.
        split_and!; [done..|lia].
      * intros j u Hj Hjm [[? _]|[_ Hu]]%lookup_insert_cases; [done|]. by apply (Hoth j).
    + pose proof (Hcl i t Hin Hi) as Hci. pose proof (Hoth i t Hin Him Hi) as Hoi.
      destruct (other_advance _ _ _ _ _ _ Ha) as (-> & Hh & Ht'); [by destruct t|].
      split; cbn; rewrite ?app_nil_r; [done| |].
      * exists ts, tm. rewrite !list_lookup_insert_ne by done.
        split_and!; try done; by eapply giver_at_same.
      * intros j u Hj Hjm [[-> ->]|[_ Hu]]%lookup_insert_cases; [done|]. by apply (Hoth j).
  - destruct (decide (i = n)) as [->|Hin]; [|by destruct (Hcl i _ Hin Hi)].
    assert (ts = SetNotify) as -> by congruence. split; cbn; [done| |].
    + exists SetDone, tm. rewrite !list_lookup_fmap, list_lookup_insert_eq, list_lookup_insert_ne, Hm
        by (done || by eapply lookup_lt_Some). cbn. rewrite (giver_awake _ _ Hg).
      split_and!; [done..|by destruct tm|done].
    + intros j u Hj Hjm [[? _]|(_ & u0 & Hu & ->)]%lookup_notified; [done|].
      specialize (Hoth j u0 Hj Hjm Hu). by destruct u0.
Qed.

(** ** From the start *)

Definition waits (t : thread) : Prop := t = get ∨ ∃ h, t = when_ready h.

(** The other threads of the start. *)
Definition waited_for (l : list thread) : Prop :=
  l !! n = Some (set_result r e) ∧ ∀ i t, i ≠ n → l !! i = Some t → waits t.

Definition start (l : list thread) : system := mk_system new_result l [].

Lemma start_consistent l : waited_for l → consistent (start l).
Proof.
  intros [Hn Hw]. split; cbn; [|done|].
  - intros i t. cbn. intros Hi. split; [|done]. destruct (decide (i = n)) as [->|Hne].
    + rewrite Hn in Hi. by injection Hi as <-.
    + by destruct (Hw i t Hne Hi) as [->|[? ->]].
  - eexists. split_and!; [done..|]. intros i t Hne Hi. by destruct (Hw i t Hne Hi) as [->|[? ->]].
Qed.

Lemma start_handled l :
  n ≠ m → waited_for l → l !! m = Some (when_ready h) →
  (∀ i t, i ≠ n → i ≠ m → l !! i = Some t → t = get) → handled (start l).
Proof.
  intros Hnm [Hn _] Hm Hget. split; cbn; [done| |].
  - eexists _, _. by split_and!.
  - intros i t Hin Him Hi. by rewrite (Hget i t Hin Him Hi).
Qed.

Lemma nsteps_invariant (P : system → Prop) k s s' :
  (∀ s1 s2, step s1 s2 → P s1 → P s2) → nsteps step k s s' → P s → P s'.
Proof. intros HP. induction 1 as [|k s1 s2 s3 Hs _ IH]; [done|]. eauto. Qed.

(** C25: every [get] returns what was set.  However the steps of one thread
    that sets the result and of any number that wait for it or handle it
    interleave, without spurious wake-ups: a [get] that returns gives the
    result or throws the error that was set, no run is longer than the steps
    of its threads, and when no thread can go on all of them are done, so no
    waiter is left asleep. *)
Theorem gets_answered (l : list thread) (k : nat) (s : system) :
  waited_for l → nsteps step k (start l) s →
  (∀ i v, threads s !! i = Some (GetDone v) → v = result_of_get) ∧
  (k ≤ steps_left (start l))%nat ∧
  ((∀ s', ¬ step s s') → Forall (λ t, finished t = true) (threads s)).
Proof.
  intros Hl Hk.
  assert (consistent s) as Hc
    by (eapply nsteps_invariant; [exact step_consistent|done|by apply start_consistent]).
  split_and!.
  - destruct Hc as [_ _ (ts & Hn & Hts & Hcl)]. intros i v Hi.
    destruct (decide (i = n)) as [->|Hne]; [by simplify_eq|]. exact (Hcl i _ Hne Hi).
  - apply nsteps_left in Hk. lia.
  - intros Hstuck. apply Forall_lookup. intros i t Hi. destruct (finished t) eqn:Hf; [done|].
    destruct (consistent_progress s i t Hc Hi Hf) as [s' Hs']. by destruct (Hstuck s').
Qed.

(** The handler is called.  When one thread sets the result and another
    gives a handler, then however they interleave the handler has been called
    with what was set once both are done, once or twice. *)
Theorem handler_called (l : list thread) (k : nat) (s : system) :
  n ≠ m → waited_for l → l !! m = Some (when_ready h) →
  (∀ i t, i ≠ n → i ≠ m → l !! i = Some t → t = get) →
  nsteps step k (start l) s → Forall (λ t, finished t = true) (threads s) →
  calls s = [the_call] ∨ calls s = [the_call; the_call].
Proof.
  intros Hnm Hl Hm Hget Hk Hfin.
  assert (consistent s ∧ handled s) as [Hc Hh].
  { eapply (nsteps_invariant (λ s, consistent s ∧ handled s)); [|done|].
    - intros s1 s2 Hs [Hc Hh]. split; [by eapply step_consistent|by eapply step_handled].
    - split; [by apply start_consistent|by apply start_handled]. }
  destruct Hh as [Hcs (ts & tm & Hn & Hm' & Hg & _ & Ho & Hlen) _].
  destruct Hc as [_ _ (ts' & Hn' & Hts & _)]. assert (ts' = ts) as -> by congruence.
  rewrite Forall_lookup in Hfin. pose proof (Hfin _ _ Hn). pose proof (Hfin _ _ Hm').
  assert (ts = SetDone) as -> by (by destruct ts). assert (tm = WhenDone) as -> by (by destruct tm).
  cbn in Ho, Hlen. destruct (calls s) as [|c1 [|c2 [|c3 cs]]]; [done|..]; cbn in Hlen; [| |lia].
  - left. by decompose_Forall_hyps.
  - right. by decompose_Forall_hyps.
Qed.
End one_setter.
End async_result.
Arguments async_result : clear implicits.
Arguments thread : clear implicits.
Arguments system : clear implicits.
Arguments got : clear implicits.

(** ** Runs of a schedule *)

Section schedules.
Context {T E : Type}.

(** The step of thread [i]. *)
Definition step_of (i : nat) (s : system T E) : option (system T E) :=
  t ← threads s !! i;
  match t with
  | SetNotify => Some (mk_system (object s) (wake <$> <[i := SetDone]> (threads s)) (calls s))
  | _ => '(o, t', cs) ← advance i (object s) t;
         Some (mk_system o (<[i := t']> (threads s)) (calls s ++ cs))
  end.

Definition run_schedule (sched : list nat) (s : system T E) : option (system T E) :=
  foldl (λ s i, s ≫= step_of i) (Some s) sched.

Lemma step_of_step i s s' : step_of i s = Some s' → step s s'.
Proof.
  unfold step_of. destruct (threads s !! i) as [t|] eqn:Hi; [|done]. cbn.
  destruct (advance i (object s) t) as [[[o t'] cs]|] eqn:Ha; destruct t; try done; cbn in *;
    intros [= <-]; (by eapply step_notify) || (eapply step_advance; [done|]; cbn; congruence).
Qed.

Lemma run_schedule_steps sched s s' :
  run_schedule sched s = Some s' → nsteps step (length sched) s s'.
Proof.
  revert s. induction sched as [|i sched IH]; intros s; cbn.
  - intros [= <-]. constructor.
  - destruct (step_of i s) as [s1|] eqn:Hs; cbn.
    + intros Hr. econstructor; [by eapply step_of_step|]. by apply IH.
    + intros Hr. exfalso. clear -Hr. induction sched; cbn in *; [done|auto].
Qed.
End schedules.

(** A thread waits, another sets the result, a third gives a handler. *)
Definition sample_threads : list (thread bool unit) :=
  [set_result true None; get; when_ready 7].
(** The waiter sleeps, the result is set, the handler comes last. *)
Definition wait_first : list nat := ([1; 1; 1] ++ replicate 8 0 ++ [1; 1] ++ replicate 5 2)%nat.
(** The handler is stored, and tested just after the setter has copied it. *)
Definition race : list nat := ([2; 2; 2] ++ replicate 5 0 ++ [2; 2; 0; 0; 0; 1; 1; 1])%nat.

Lemma sample_waited_for : waited_for 0 true None sample_threads.
Proof.
  split; [done|]. intros [|[|[|i]]] t Hne Hi; cbn in Hi; [done|..]; injection Hi as <- || done.
  - by left.
  - right. by exists 7%nat.
Qed.

Lemma gets_answered_witness :
  ∃ s, run_schedule wait_first (start sample_threads) = Some s ∧
    Forall (λ t, finished t = true) (threads s) ∧
    (∀ i v, threads s !! i = Some (GetDone v) → v = Returned (Some true)).
Proof.
  eexists. split; [vm_compute; reflexivity|]. lazymatch goal with |- context [threads ?s] =>
    destruct (gets_answered 0 true None sample_threads (length wait_first) s) as (Hv & _ & _);
      [exact sample_waited_for|by apply run_schedule_steps|] end.
  split; [repeat constructor|exact Hv].
Defined.

Lemma handler_called_witness :
  ∃ s, run_schedule race (start sample_threads) = Some s ∧ length (calls s) = 2%nat ∧
    (calls s = [(7%nat, Some true, None)] ∨ calls s = [(7%nat, Some true, None); (7%nat, Some true, None)]).
Proof.
  eexists. split; [vm_compute; reflexivity|]. split; [reflexivity|].
  lazymatch goal with |- calls ?s = _ ∨ _ =>
    apply (handler_called 0 true None 2 7 sample_threads (length race) s);
      [done|exact sample_waited_for|done| |by apply run_schedule_steps|repeat constructor] end.
  intros [|[|[|i]]] t ? ? Hi; cbn in Hi; [done| |done|done]. by injection Hi.
Defined.

(** With a spurious wake-up [get] returns a result nobody set. *)
Example spurious_wakeup_returns :
  ∃ s s1 s2, run_schedule [1%nat; 1%nat; 1%nat] (start sample_threads) = Some s ∧ spurious s s1 ∧
    run_schedule [1%nat; 1%nat] s1 = Some s2 ∧ threads s2 !! 1%nat = Some (GetDone (Returned None)).
Proof.
  eexists _, _, _. split; [vm_compute; reflexivity|]. split; [by apply (spurious_wake _ 1)|].
  split; [vm_compute; reflexivity|done].
Qed.

(** ** The result of an RPC

    [peer::send_req] makes the result with the handler and sets it once. *)
Section rpc_result.
Context {T E : Type} (h : nat) (r : T) (e : option E).

Definition rpc_at (t : thread T E) (o : async_result T E) : Prop :=
  match t with
  | SetLock r' e' | SetResult r' e' => r' = r ∧ e' = e ∧ handler_ o = Some h
  | SetErr e' => e' = e ∧ result_ o = Some r ∧ handler_ o = Some h
  | SetFlag | SetCopy => result_ o = Some r ∧ err_ o = e ∧ handler_ o = Some h
  | SetUnlock c | SetCall c => result_ o = Some r ∧ err_ o = e ∧ c = Some h
  | SetNotify | SetDone => True
  | _ => False
  end.

Lemma rpc_run (s : system T E) :
  rtc step (mk_system (new_result_for h) [set_result r e] []) s →
  ∃ t, threads s = [t] ∧ rpc_at t (object s) ∧
    calls s = match t with SetNotify | SetDone => [(h, Some r, e)] | _ => [] end.
Proof.
  intros Hs. apply (rtc_ind_r (λ s, ∃ t, threads s = [t] ∧ rpc_at t (object s) ∧
    calls s = match t with SetNotify | SetDone => [(h, Some r, e)] | _ => [] end) _) in Hs; [done|..].
  { by eexists. }
  intros s1 s2 _ Hstep (t & Ht & Hat & Hc). destruct Hstep as [i u o u' cs Hi Ha|i Hi]; rewrite Ht in Hi;
    (destruct i as [|i]; [|done]); injection Hi as ->; cbn; rewrite Ht; cbn.
  - eexists. split; [done|]. rewrite Hc. destruct (object s1) as [ro eo f hh l].
    destruct u; cbn in *; try done; try (destruct l; [done|]); simplify_eq/=; intuition (subst; done).
  - by eexists.
Qed.

(** Nothing else calls the handler of an RPC. *)
Theorem rpc_handler_called_once (s : system T E) :
  rtc step (mk_system (new_result_for h) [set_result r e] []) s →
  threads s = [SetDone] → calls s = [(h, Some r, e)].
Proof. intros (t & -> & _ & ->)%rpc_run [= ->]. done. Qed.
End rpc_result.
