(* ===== verification/CommitThread.v ===== *)
(** * The commit thread and the end of the server

    How [commit_in_bg] and [commit] (src/raft_enclave/raft/src/raft_server.cxx)
    and the destructor of [raft_server] (include/raft_server.hxx) wait for each
    other: the three mutexes, the two condition variables and the members they
    guard.  Every access is a step; the steps of the commit thread, of the
    destructor and of the calls on the server interleave.  Both waits are
    without a predicate, and a wait may end without a notification.  What applying an
    entry does is in [Commit]; here it is a number in a list. *)

From S2P Require Import Prelude.

Section code.
(** The entries that are configurations; applying one takes [lock_]. *)
Context (is_conf : nat → bool).

Inductive owner := ByCommitter | ByDestructor.

Record shared := mk_shared {
  quick_commit_idx_ : nat;
  sm_commit_index_ : nat;
  last_idx : nat;  (* next_slot() - 1 *)
  stopping_ : bool;
  lock_ : option owner;
  commit_lock_ : option owner;
  stopping_lock_ : option owner;
  applied : list nat;
}.
#[global] Instance eta_shared : Eta shared := λ s, mk_shared
  (quick_commit_idx_ s) (sm_commit_index_ s) (last_idx s) (stopping_ s) (lock_ s) (commit_lock_ s)
  (stopping_lock_ s) (applied s).

(** Where the commit thread is in [commit_in_bg]. *)
Inductive committer :=
  | CTest          (* the condition of the first inner loop *)
  | CLock | CHold  (* before and after locking [commit_lock_] *)
  | CAsleep | CWoken
  | CCheck         (* [if (stopping_)] *)
  | CApply         (* the second inner loop *)
  | CStopLock | CNotify | CDone.

(** Where the destructor is. *)
Inductive destructor :=
  | DStart | DStop | DCommitLock | DWake | DStopLock | DUnlock | DHold | DAsleep | DWoken | DDone.

Record state := mk_state { mem : shared; thread : committer; dtor : destructor }.

(** Nothing to apply. *)
Definition idle (m : shared) : bool :=
  (quick_commit_idx_ m <=? sm_commit_index_ m)%nat || (last_idx m <=? sm_commit_index_ m)%nat.

(** One step of the commit thread; [None]: it waits or is done. *)
Definition commit_thread_step (s : state) : option state :=
  let m := mem s in
  match thread s with
  | CTest => Some (mk_state m (if idle m then CLock else CApply) (dtor s))
  | CLock =>
      if commit_lock_ m is None then
        Some (mk_state (m <| commit_lock_ := Some ByCommitter |>) CHold (dtor s))
      else None
  | CHold => Some (mk_state (m <| commit_lock_ := None |>) CAsleep (dtor s))
  | CAsleep => None
  | CWoken =>
      if commit_lock_ m is None then
        Some (mk_state (m <| commit_lock_ := Some ByCommitter |>) CCheck (dtor s))
      else None
  | CCheck =>
      Some (mk_state (m <| commit_lock_ := None |>) (if stopping_ m then CStopLock else CTest) (dtor s))
  | CApply =>
      if idle m then Some (mk_state m CTest (dtor s))
      else if is_conf (S (sm_commit_index_ m)) && negb (bool_decide (lock_ m = None)) then None
      else Some (mk_state (m <| sm_commit_index_ ::= S |>
                             <| applied ::= λ l, l ++ [S (sm_commit_index_ m)] |>) CApply (dtor s))
  | CStopLock =>
      if stopping_lock_ m is None then
        Some (mk_state (m <| stopping_lock_ := Some ByCommitter |>) CNotify (dtor s))
      else None
  | CNotify =>
      Some (mk_state (m <| stopping_lock_ := None |>) CDone
              (match dtor s with DAsleep => DWoken | d => d end))
  | CDone => None
  end.

Definition wake (c : committer) : committer := match c with CAsleep => CWoken | _ => c end.

(** One step of the destructor. *)
Definition destroy (s : state) : option state :=
  let m := mem s in
  match dtor s with
  | DStart =>
      if lock_ m is None then Some (mk_state (m <| lock_ := Some ByDestructor |>) (thread s) DStop) else None
  | DStop => Some (mk_state (m <| stopping_ := true |>) (thread s) DCommitLock)
  | DCommitLock =>
      if commit_lock_ m is None then
        Some (mk_state (m <| commit_lock_ := Some ByDestructor |>) (thread s) DWake)
      else None
  | DWake => Some (mk_state m (wake (thread s)) DStopLock)
  | DStopLock =>
      if stopping_lock_ m is None then
        Some (mk_state (m <| stopping_lock_ := Some ByDestructor |>) (thread s) DUnlock)
      else None
  | DUnlock => Some (mk_state (m <| commit_lock_ := None |>) (thread s) DHold)
  | DHold => Some (mk_state (m <| stopping_lock_ := None |>) (thread s) DAsleep)
  | DAsleep => None
  | DWoken =>
      (* the timers are cancelled and the locks released with it *)
      if stopping_lock_ m is None then Some (mk_state (m <| lock_ := None |>) (thread s) DDone) else None
  | DDone => None
  end.

(** A call of [commit] by code that holds [lock_]: the index moves, and a
    waiting commit thread is notified if there is something to apply. *)
Definition commit_call (target : nat) (s : state) : option state :=
  let m := (mem s) <| quick_commit_idx_ ::= Nat.max target |> in
  if lock_ (mem s) is None then
    Some (mk_state m (if idle m then thread s else wake (thread s)) (dtor s))
  else None.

(** The log changes. *)
Definition log_changes (last : nat) (s : state) : option state :=
  if lock_ (mem s) is None then Some (mk_state ((mem s) <| last_idx := last |>) (thread s) (dtor s)) else None.

(** [commit_cv_.wait] and [ready_to_stop_cv_.wait] return without having been
    notified. *)
Definition commit_wait_ends (s : state) : option state :=
  if thread s is CAsleep then Some (mk_state (mem s) CWoken (dtor s)) else None.
Definition stop_wait_ends (s : state) : option state :=
  if dtor s is DAsleep then Some (mk_state (mem s) (thread s) DWoken) else None.

Inductive action :=
  | Committer | Destructor | Commit (target : nat) | Log (last : nat)
  | CommitWaitEnds | StopWaitEnds.

Definition act (a : action) (s : state) : option state :=
  match a with
  | Committer => commit_thread_step s
  | Destructor => destroy s
  | Commit target => commit_call target s
  | Log last => log_changes last s
  | CommitWaitEnds => commit_wait_ends s
  | StopWaitEnds => stop_wait_ends s
  end.

Definition run (l : list action) (s : state) : option state := foldl (λ s a, s ≫= act a) (Some s) l.

Definition initial : state := mk_state (mk_shared 0 0 0 false None None None []) CTest DStart.

(** ** Entries are applied in order *)

Definition in_order (s : state) : Prop :=
  applied (mem s) = seq 1 (sm_commit_index_ (mem s)) ∧
  (sm_commit_index_ (mem s) ≤ quick_commit_idx_ (mem s))%nat.

Lemma act_in_order a s s' : act a s = Some s' → in_order s → in_order s'.
Proof.
  destruct s as [m c d]. unfold in_order. destruct a as [| |target|last| |]; cbn [act].
  - unfold commit_thread_step; cbn [thread dtor mem]. intros E [Ha Hq]. destruct c; try done;
      repeat case_match; simplify_eq/=; try done.
    rewrite Ha. split; [symmetry; exact (seq_S _ 1)|]. unfold idle in *.
    match goal with H : _ || _ = false |- _ => apply orb_false_iff in H as [H _]; apply Nat.leb_gt in H end.
    lia.
  - unfold destroy; cbn [thread dtor mem]. intros E [Ha Hq]. destruct d; repeat case_match; by simplify_eq/=.
  - unfold commit_call; cbn [thread dtor mem]. intros E [Ha Hq]. repeat case_match; simplify_eq/=; (split; [done|lia]).
  - unfold log_changes; cbn [thread dtor mem]. intros E [Ha Hq]. repeat case_match; by simplify_eq/=.
  - unfold commit_wait_ends; cbn [thread dtor mem]. intros E Hs. destruct c; by simplify_eq/=.
  - unfold stop_wait_ends; cbn [thread dtor mem]. intros E Hs. destruct d; by simplify_eq/=.
Qed.

Lemma run_app l l' s : run (l ++ l') s = (run l s ≫= run l').
Proof.
  unfold run. rewrite foldl_app. destruct (foldl _ (Some s) l); [done|].
  induction l'; [done|]. cbn. done.
Qed.

Lemma run_invariant (P : state → Prop) l s s' :
  (∀ a s1 s2, act a s1 = Some s2 → P s1 → P s2) → run l s = Some s' → P s → P s'.
Proof.
  intros HP. revert s. induction l as [|a l IH]; intros s; [by intros [= <-]|].
  change (a :: l) with ([a] ++ l). rewrite run_app. cbn. destruct (act a s) eqn:E; [|done]. cbn. eauto.
Qed.

(** However the commit thread, the calls on the server and the destructor
    interleave, wake-ups without notification included, the entries applied are those up to the commit index of the
    state machine, in order and once each, and none that was not committed. *)
Theorem applied_in_order (l : list action) (s : state) :
  run l initial = Some s →
  applied (mem s) = seq 1 (sm_commit_index_ (mem s)) ∧
  (sm_commit_index_ (mem s) ≤ quick_commit_idx_ (mem s))%nat.
Proof. intros Hr. eapply (run_invariant in_order); [exact act_in_order|done|]. by split. Qed.

(** ** The end *)

Definition ended (s : state) : bool :=
  match thread s, dtor s with CDone, DDone => true | _, _ => false end.

(** The steps an orderly end is made of: those of the two threads, and the
    commit thread waking up by itself once the destructor holds
    [commit_lock_].  Before that, a wake-up by itself makes it miss the
    destructor, or the destructor miss it (below). *)
Definition orderly (a : action) (s : state) : bool :=
  match a with
  | Committer | Destructor => true
  | CommitWaitEnds => match dtor s with DStart | DStop | DCommitLock => false | _ => true end
  | _ => false
  end.

Fixpoint orderly_run (l : list action) (s : state) : option state :=
  match l with
  | [] => Some s
  | a :: l' => if orderly a s then act a s ≫= orderly_run l' else None
  end.

(** Neither thread can go on. *)
Definition stuck (s : state) : bool :=
  match commit_thread_step s, destroy s with None, None => true | _, _ => false end.

(** All orderly ways to go on end, in fewer than [n] steps, with both done. *)
Fixpoint completes (n : nat) (s : state) : bool :=
  match n with
  | O => false
  | S n' =>
      (negb (stuck s) || ended s) &&
      forallb (λ a, match (if orderly a s then act a s else None) with
                    | Some s' => completes n' s'
                    | None => true
                    end) [Committer; Destructor; CommitWaitEnds]
  end.

Lemma completes_step n s a s' :
  completes (S n) s = true → orderly a s = true → act a s = Some s' → completes n s' = true.
Proof.
  cbn [completes]. intros [_ Hall]%andb_true_iff Ho E. rewrite forallb_forall in Hall.
  specialize (Hall a). rewrite Ho, E in Hall. apply Hall. destruct a; cbn in Ho |- *; try done; auto.
Qed.

Lemma completes_runs n s l s' :
  completes n s = true → orderly_run l s = Some s' →
  (length l < n)%nat ∧ (stuck s' = true → ended s' = true).
Proof.
  revert s n. induction l as [|a l IH]; intros s n Hc Hr; (destruct n as [|n]; [done|]).
  - injection Hr as <-. split; [cbn; lia|]. intros Hs. cbn [completes] in Hc.
    apply andb_true_iff in Hc as [Hc _]. by rewrite Hs in Hc.
  - cbn [orderly_run] in Hr. destruct (orderly a s) eqn:Ho; [|done].
    destruct (act a s) as [s1|] eqn:E; [|done]. cbn in Hr.
    destruct (IH s1 n) as [Hlen Hend]; [by eapply completes_step|done|]. cbn. split; [lia|done].
Qed.

(** C26: the destructor ends a server whose commit thread waits.  From the
    moment it holds [lock_], in every order of the steps in which the waits
    end only when notified (the commit thread's may also end by itself once
    the destructor holds [commit_lock_]), at most twelve steps are made, and
    when neither thread can go on both have come to their end. *)
Theorem shutdown_completes (s s' : state) (l : list action) :
  thread s = CAsleep → dtor s = DStop → commit_lock_ (mem s) = None → stopping_lock_ (mem s) = None →
  orderly_run l s = Some s' →
  (length l ≤ 12)%nat ∧ (stuck s' = true → ended s' = true).
Proof.
  intros Hc Hd Hcl Hsl Hr. destruct s as [[q sm la st lo cl sl ap] c d]; cbn in Hc, Hd, Hcl, Hsl. subst.
  assert (completes 13 (mk_state (mk_shared q sm la st lo None None ap) CAsleep DStop) = true) as Hk
    by (vm_compute; reflexivity).
  destruct (completes_runs 13 _ l s' Hk Hr). split; [lia|done].
Qed.
End code.

(** A commit between the test and the wait of the commit thread is not
    noticed: the thread sleeps though there is an entry to apply. *)
Example lost_wakeup :
  ∃ s, run (λ _, false) [Committer; Log 1; Commit 1; Committer; Committer] initial = Some s ∧
    thread s = CAsleep ∧ idle (mem s) = false.
Proof. eexists. split; [vm_compute; reflexivity|done]. Qed.

(** A destructor that notifies before the wait waits for ever. *)
Example shutdown_stuck :
  ∃ s, run (λ _, false) (Committer :: replicate 7 Destructor ++ [Committer; Committer]) initial = Some s ∧
    commit_thread_step (λ _, false) s = None ∧ destroy s = None ∧ ended s = false.
Proof. eexists. split; [vm_compute; reflexivity|done]. Qed.

(** The wait of the commit thread ends by itself before the destructor holds
    [commit_lock_]: the notification of the one is lost on the other, and the
    destructor waits for ever.  Once with [stopping_] not yet set, once with it
    set. *)
Example wakeup_before_stopping :
  ∃ s, run (λ _, false) (replicate 3 Committer ++ [CommitWaitEnds] ++ replicate 3 Committer ++
      replicate 7 Destructor ++ replicate 2 Committer) initial = Some s ∧
    thread s = CAsleep ∧ dtor s = DAsleep.
Proof. eexists. split; [vm_compute; reflexivity|done]. Qed.

Example wakeup_before_lock :
  ∃ s, run (λ _, false) (replicate 3 Committer ++ replicate 2 Destructor ++ [CommitWaitEnds] ++
      replicate 4 Committer ++ replicate 5 Destructor) initial = Some s ∧
    thread s = CDone ∧ dtor s = DAsleep.
Proof. eexists. split; [vm_compute; reflexivity|done]. Qed.

(** The wait of the destructor ends by itself: the server is gone while the
    commit thread still uses it. *)
Example destructor_leaves_early :
  ∃ s, run (λ _, false) (replicate 3 Committer ++ replicate 7 Destructor ++ [StopWaitEnds; Destructor])
      initial = Some s ∧
    thread s = CWoken ∧ dtor s = DDone.
Proof. eexists. split; [vm_compute; reflexivity|done]. Qed.

(** The thread sleeps, the destructor has taken [lock_]; one order of the rest. *)
Lemma shutdown_completes_witness :
  ∃ s, run (λ _, false) [Committer; Committer; Committer; Destructor] initial = Some s ∧
    ∃ s', orderly_run (λ _, false) (replicate 2 Destructor ++ [CommitWaitEnds] ++ replicate 4 Destructor ++
      replicate 4 Committer ++ [Destructor]) s = Some s' ∧
      ended s' = true.
Proof.
  eexists. split; [vm_compute; reflexivity|]. eexists. split; [vm_compute; reflexivity|].
  lazymatch goal with |- ended ?s' = true => refine (proj2 (shutdown_completes (λ _, false)
      (mk_state (mk_shared 0 0 0 false (Some ByDestructor) None None []) CAsleep DStop) s'
      (replicate 2 Destructor ++ [CommitWaitEnds] ++ replicate 4 Destructor ++
       replicate 4 Committer ++ [Destructor])
      eq_refl eq_refl eq_refl eq_refl _) _) end; reflexivity.
Defined.
