(* ===== verification/Enclave.v ===== *)
(** * The enclave

    What surrounds the server inside the enclave: the RPC client port
    (src/raft_enclave/port/rpc_client_port.hxx and .cxx), the RPC listener
    port (rpc_listener_port.hxx and .cxx), the key store
    (src/raft_enclave/system/key_store.hxx and .cxx), the entry points of
    src/raft_enclave/raft_enclave.cpp, and the host's [message_handler]
    (src/raft_app/port/asio_rpc_listener.cxx) that drives the listener.

    The globals of these files are one record, [enclave]; a call from the host
    is code of the monad [M enclave].  What the server asks for while it runs
    ([effect]) is carried out by the client port in the same order. *)

From S2P Require Import Prelude Buffer Transport Json Attestation Config Messages Host Texts LogStore StateMachine StateMgr Scheduler Peer Server Membership Requests Responses.
From Stdlib Require String.
Import String.StringSyntax.

(** ** State *)

#[global] Instance client_owner_eq_dec : EqDecision client_owner.
Proof. solve_decision. Defined.
#[global] Instance client_owner_countable : Countable client_owner.
Proof.
  apply (inj_countable' (λ o, match o with PeerClient n => inl n | LeaderClient z => inr z end)
    (λ s, match s with inl n => PeerClient n | inr z => LeaderClient z end)).
  by intros [].
Defined.

(** What a pending call runs when its answer arrives: [handle_rpc_result] of a
    peer object, or the lambda of [send_msg_to_leader]. *)
Inductive when_done := WhenPeer (obj : nat) (h : rpc_handler) | WhenLeader.

(** Calls to the host. *)
Inductive ocall :=
  | OClientCreate (endpoint : list byte)
  | OClientClose (client_uid : Z)
  | OSendRequest (client_uid : Z) (message : list byte) (request_uid : Z).

Record er_key_store := mk_key_store {
  self_report_ : list byte;
  self_private_ : list byte;
  self_public_ : list byte;
  store_ : gmap Z (list byte);
  temp_connections_ : gmap Z (Z * list byte);
}.
#[global] Instance eta_key_store : Eta er_key_store := λ k, mk_key_store
  (self_report_ k) (self_private_ k) (self_public_ k) (store_ k) (temp_connections_ k).

Record enclave (LS SM : Type) := mk_enclave {
  raft_rpc_request_handler : option (raft_server LS SM);
  key_store : option er_key_store;
  raft_rpc_client_callback_pool : gmap Z (req_msg * when_done);
  last_req_uid_ : Z;
  id_counter : Z;
  response_buffer_map : gmap Z (list byte);
  (* the [client_uid_] of the ports peers and leaders are reached through *)
  clients : gmap client_owner Z;
  (* results of calls to the leader that have come back *)
  async_results : gmap Z bool;
  (* the environment: random numbers drawn, the host's answers, calls made *)
  randoms : nat;
  host_uids : nat → Z;
  created : nat;
  ocalls : list ocall;
}.
Arguments mk_enclave {LS SM}.
Arguments raft_rpc_request_handler {LS SM}. Arguments key_store {LS SM}.
Arguments raft_rpc_client_callback_pool {LS SM}. Arguments last_req_uid_ {LS SM}.
Arguments id_counter {LS SM}. Arguments response_buffer_map {LS SM}. Arguments clients {LS SM}.
Arguments async_results {LS SM}. Arguments randoms {LS SM}. Arguments host_uids {LS SM}.
Arguments created {LS SM}. Arguments ocalls {LS SM}.

#[global] Instance eta_enclave LS SM : Eta (enclave LS SM) := λ e, mk_enclave
  (raft_rpc_request_handler e) (key_store e) (raft_rpc_client_callback_pool e) (last_req_uid_ e)
  (id_counter e) (response_buffer_map e) (clients e) (async_results e) (randoms e) (host_uids e)
  (created e) (ocalls e).

(** The zero-initialised globals. *)
Definition empty_enclave {LS SM} (uids : nat → Z) : enclave LS SM :=
  mk_enclave None None ∅ 0 0 ∅ ∅ ∅ 0 uids 0 [].

Section code.
Context `{FreshMem} `{evp} `{codecs} `{openssl}.
Context {LS SM : Type} `{!log_store LS} `{!state_machine SM}.
#[local] Abbreviation W := (raft_server LS SM).
#[local] Abbreviation E := (enclave LS SM).

Definition call_host (c : ocall) : M E unit := modify (update ocalls (λ l, l ++ [c])).

(** A pointer that is used without a test. *)
Definition deref {A} (f : E → option A) : M E A :=
  o ← gets f;
  match o with Some a => mret a | None => faulting null_deref end.

(** ** The RPC client port *)

(** The constructor; the host chooses the number. *)
Definition rpc_client_create (endpoint : list byte) : M E Z :=
  call_host (OClientCreate endpoint) ;;
  e ← gets id;
  created <~ S (created e) ;;
  mret (host_uids e (created e)).

(** The destructor. *)
Definition rpc_client_destroy (client_uid : Z) : M E unit :=
  modify (update raft_rpc_client_callback_pool (delete client_uid)) ;;
  call_host (OClientClose client_uid).

Definition raw_send (client_uid : Z) (type : er_message_type) (message : list byte)
    (unique_id : Z) : M E unit :=
  call_host (OSendRequest client_uid (tagged type message) unique_id).

(** [++last_req_uid_]. *)
Definition next_req_uid : M E Z :=
  e ← gets id;
  let uid := u32 (last_req_uid_ e + 1) in
  last_req_uid_ <~ uid ;;
  mret uid.

(** [raft_encrypt], which draws a random initial value. *)
Definition encrypt (data : list byte) : M E (list byte) :=
  n ← gets randoms;
  randoms <~ S n ;;
  lift (raft_encrypt n data).

Definition send (client_uid : Z) (req : req_msg) (done : when_done) : M E unit :=
  req_buffer ← lift (serialize_req req);
  message_buffer ← encrypt (bytes req_buffer);
  uid ← next_req_uid;
  modify (update raft_rpc_client_callback_pool <[uid := (req, done)]>) ;;
  raw_send client_uid raft_message message_buffer uid.

Definition send_xchg_request (client_uid my_id : Z) (my_report : list byte) : M E unit :=
  let body := JObject [(str "report", JString my_report); (str "server_id", JNumber my_id)] in
  uid ← next_req_uid;
  raw_send client_uid system_key_exchange_req (json_dump body) uid.

(** ** The server inside the enclave *)

(** The destructor of the client port of a peer that is erased is not run here:
    when it runs depends on the shared pointers that timers and pending calls
    hold.  The host is not told to close the connection, and the pool keeps
    the entry that this destructor would drop. *)
Definition perform (ef : effect) : M E unit :=
  match ef with
  | ECreateClient owner endpoint =>
      uid ← rpc_client_create endpoint;
      modify (update clients <[owner := uid]>)
  | ESend obj req h =>
      uid ← deref (λ e, clients e !! PeerClient obj);
      send uid req (WhenPeer obj h)
  | ESendLeader l req =>
      uid ← deref (λ e, clients e !! LeaderClient l);
      send uid req WhenLeader
  | _ => mret tt
  end.

(** A call on the server, with what it asks the ports to do. *)
Definition on_server {A} (m : M W A) : M E A := λ e,
  match raft_rpc_request_handler e with
  | None => (Fault null_deref, e)
  | Some w =>
      let '(r, w') := m w in
      let e' := e <| raft_rpc_request_handler := Some w' |> in
      match r with
      | Fault u => (Fault u, e')
      | _ => (for_each (drop (length (out w)) (out w')) perform ;; lift r) e'
      end
  end.

Definition server_id : M E Z := on_server (gets id_).

(** ** The key store *)

Definition get_store : M E er_key_store := deref key_store.
Definition upd_store (f : er_key_store → er_key_store) : M E unit :=
  modify (update key_store (fmap f)).

Definition register_report (http_packet : list byte) : M E bool :=
  k ← get_store;
  if negb (bool_decide (self_report_ k = [])) then throw runtime_error
  else
    quote ← lift (validate_verification_report http_packet);
    match quote with
    | None => mret false
    | Some quote =>
        d ← lift (report_data quote);
        if bool_decide (d = self_public_ k)
        then upd_store (λ k, k <| self_report_ := http_packet |>) ;; mret true
        else mret false
    end.

Definition receive_report (server_id : Z) (http_packet : list byte) : M E bool :=
  quote ← lift (validate_verification_report http_packet);
  match quote with
  | None => mret false
  | Some quote =>
      pk ← lift (report_data quote);
      get_store ;;
      upd_store (λ k, k <| store_ ::= <[server_id := pk]> |>) ;;
      mret true
  end.

Definition query_server (server_id : Z) : M E (option (list byte)) :=
  k ← get_store;
  mret (store_ k !! server_id).

(** [raft_rpc_request_handler->add_srv(...)], its result dropped. *)
Definition request_add_srv (server_id : Z) (endpoint : list byte) : M E unit :=
  on_server (add_srv (mk_srv_config server_id endpoint)) ;; mret tt.

Definition build_key_xchg_req (server_id_ : Z) (endpoint : list byte) : M E unit :=
  info ← query_server server_id_;
  match info with
  | Some _ => request_add_srv server_id_ endpoint
  | None =>
      my_id ← server_id;
      k ← get_store;
      match temp_connections_ k !! server_id_ with
      | None =>
          client ← rpc_client_create endpoint;
          upd_store (λ k, k <| temp_connections_ ::= <[server_id_ := (client, endpoint)]> |>) ;;
          send_xchg_request client my_id (self_report_ k)
      | Some (client, _) =>
          upd_store (λ k, k <| temp_connections_ ::= <[server_id_ := (client, endpoint)]> |>)
      end
  end.

(** The lookup that finds nothing is dereferenced all the same. *)
Definition handle_key_xchg_resp (payload exception : list byte) : M E unit :=
  if negb (bool_decide (exception = [])) then mret tt
  else match json_parse payload with
       | None => mret tt
       | Some rsp =>
           let server_id := int_value (at_key (str "server_id") rsp) in
           let report := string_value (at_key (str "report") rsp) in
           result ← receive_report server_id (c_str report);
           k ← get_store;
           match temp_connections_ k !! server_id with
           | None => faulting dangling_ref
           | Some (client, endpoint) =>
               upd_store (λ k, k <| temp_connections_ ::= delete server_id |>) ;;
               rpc_client_destroy client ;;
               when result (request_add_srv server_id endpoint)
           end
       end.

(** ** The RPC listener port *)

(** How a request ends: with an answer (or none), or waiting for the leader's
    answer to the call [uid], to be reported under [resp_type]. *)
Inductive reply :=
  | Reply (response : option (list byte))
  | Wait (uid : Z) (resp_type : er_message_type).

(** The end of [handle_client_request]. *)
Definition client_response (resp_type : er_message_type) (result : bool) : list byte :=
  tagged resp_type (json_dump (JObject [(str "success", JNumber (if result then 1 else 0))])).

(** [a_result->get()]: without a result the thread waits for the call the
    server has just made. *)
Definition await (resp_type : er_message_type) (r : option bool) : M E reply :=
  match r with
  | Some result => mret (Reply (Some (client_response resp_type result)))
  | None => uid ← gets last_req_uid_; mret (Wait uid resp_type)
  end.

(** An entry: the decoded bytes in a zeroed buffer with eight bytes to spare. *)
Definition make_log (item : json) : outcome buffer :=
  log ← base64_decode (string_value item);
  p_log ← alloc (u64 (Z.of_nat (length log) + 8));
  d ← memcpy_s (replicate (length (bytes p_log)) Byte.x00) log (length log);
  Ok (p_log <| bytes := d |>).

Fixpoint make_logs (items : list json) : outcome (list buffer) :=
  match items with
  | [] => Ok []
  | i :: items' => b ← make_log i; l ← make_logs items'; Ok (b :: l)
  end.

Definition handle_client_request (type : er_message_type) (payload : list byte) : M E reply :=
  let body := parsed payload in
  match type with
  | client_add_srv_req =>
      build_key_xchg_req (int_value (at_key (str "server_id") body))
        (string_value (at_key (str "endpoint") body)) ;;
      mret (Reply (Some (client_response client_add_srv_resp true)))
  | client_remove_srv_req =>
      r ← on_server (remove_srv (u16 (int_value (at_key (str "server_id") body))));
      await client_remove_srv_resp r
  | client_append_entries_req =>
      logs ← lift (make_logs (array_items body));
      r ← on_server (append_entries logs);
      await client_append_entries_resp r
  | _ => mret (Reply None)
  end.

(** A report that is refused leaves [buffer] null, and it is used. *)
Definition handle_system_request (type : er_message_type) (payload : list byte) : M E reply :=
  let body := parsed payload in
  match type with
  | system_key_exchange_req =>
      result ← receive_report (int_value (at_key (str "server_id") body))
                 (c_str (string_value (at_key (str "report") body)));
      if (result : bool) then
        my_id ← server_id;
        k ← get_store;
        let resp := JObject [(str "report", JString (self_report_ k)); (str "server_id", JNumber my_id)] in
        mret (Reply (Some (tagged system_key_exchange_resp (json_dump resp))))
      else faulting null_deref
  | _ => mret (Reply None)
  end.

(** The header and the log data of a decrypted message: their sizes are what
    the code takes them to be. *)
Definition split_message (message_buffer : list byte) : outcome (buffer * buffer) :=
  header ← alloc RPC_REQ_HEADER_SIZE;
  d ← memcpy_s (bytes header) message_buffer (Z.to_nat RPC_REQ_HEADER_SIZE);
  let header := header <| bytes := d |> in
  '(data_size, header) ← get_int (pos_set (RPC_REQ_HEADER_SIZE - 4) header);
  log_data ← alloc (u64 data_size);
  d ← memcpy_s (bytes log_data) (drop (Z.to_nat RPC_REQ_HEADER_SIZE) message_buffer)
        (Z.to_nat (u64 data_size));
  Ok (header, log_data <| bytes := d |>).

Definition handle_raft_message (data : list byte) : M E reply :=
  message_buffer ← lift (raft_decrypt data);
  '(header, log_data) ← lift (split_message message_buffer);
  answer ← catch_all (
    req ← lift (deserialize_req header (Some log_data));
    resp ← on_server (process_req req);
    resp_buf ← lift (serialize_resp resp);
    m ← encrypt (bytes resp_buf);
    mret (Some m))
    (mret None);
  mret (Reply (tagged raft_message <$> answer)).

(** The answer is kept under a new number until the host fetches it, and after. *)
Definition publish (response : option (list byte)) : M E (Z * Z) :=
  match response with
  | Some r =>
      e ← gets id;
      let msg_id := u32 (id_counter e + 1) in
      id_counter <~ msg_id ;;
      modify (update response_buffer_map (λ m,
        if bool_decide (m !! msg_id = None) then <[msg_id := r]> m else m)) ;;
      mret (i32 (Z.of_nat (length r)), msg_id)
  | None => mret (-1, 0)
  end.

(** The code and the message number of a call that returned, or the number of
    the call it waits for.  For a type it does not expect the code is -1 and
    the message number is left alone. *)
Definition ecall_handle_rpc_request (message : list byte) : M E (Z * Z + Z * er_message_type) :=
  type ← lift (read_type message);
  let payload := drop 2 message in
  r ← match type with
      | client_add_srv_req | client_remove_srv_req | client_append_entries_req =>
          handle_client_request type payload
      | system_key_exchange_req | system_key_setup_req => handle_system_request type payload
      | raft_message => handle_raft_message payload
      | _ => mret (Reply None)
      end;
  match r with
  | Reply response => r ← publish response; mret (inl r)
  | Wait uid t => mret (inr (uid, t))
  end.

(** The thread goes on once the leader's answer is there. *)
Definition resume_client_request (uid : Z) (resp_type : er_message_type) : M E (Z * Z) :=
  result ← deref (λ e, async_results e !! uid);
  publish (Some (client_response resp_type result)).

Definition ecall_fetch_rpc_response (msg_id : Z) (buffer : list byte) : M E (bool * list byte) :=
  e ← gets id;
  match response_buffer_map e !! msg_id with
  | None => mret (false, buffer)
  | Some r => d ← lift (memcpy_s buffer r (length r)); mret (true, d)
  end.

(** The host's side: fetch what a call announced. *)
Definition fetch_answer (r : Z * Z) : M E (option (list byte)) :=
  let '(resp_len, uid) := r in
  if resp_len <? 1 then mret None
  else
    '(ret, buffer) ← ecall_fetch_rpc_response uid (replicate (Z.to_nat resp_len) Byte.x00);
    mret (if (ret : bool) then Some buffer else None).

Definition message_handler (message : list byte) : M E (option (list byte) + Z * er_message_type) :=
  r ← ecall_handle_rpc_request message;
  match r with
  | inl r => a ← fetch_answer r; mret (inl a)
  | inr w => mret (inr w)
  end.

(** ** Answers to the enclave's own calls *)

(** [when_done(rsp, nullptr)]; an empty function throws. *)
Definition complete (uid : Z) (item : option (req_msg * when_done)) (rsp : resp_msg) : M E unit :=
  match item with
  | None => throw bad_function_call
  | Some (req, WhenPeer obj h) => on_server (handle_rpc_result obj req h (Some rsp))
  | Some (_, WhenLeader) => modify (update async_results <[uid := resp_accepted rsp]>)
  end.

(** The answer is copied into a buffer of its own, as far as it goes. *)
Definition read_response (data : list byte) : outcome resp_msg :=
  message_buffer ← raft_decrypt data;
  resp_buf ← alloc RPC_RESP_HEADER_SIZE;
  d ← memcpy_s (bytes resp_buf) message_buffer (length message_buffer);
  deserialize_resp (resp_buf <| bytes := d |>).

Definition handle_raft_response (req_uid : Z) (data : list byte) : M E unit :=
  e ← gets id;
  let item := raft_rpc_client_callback_pool e !! req_uid in
  modify (update raft_rpc_client_callback_pool (delete req_uid)) ;;
  rsp ← lift (read_response data);
  complete req_uid item rsp.

Definition handle_system_resp (type : er_message_type) (data : list byte) : M E unit :=
  match type with
  | system_key_exchange_resp => handle_key_xchg_resp data []
  | _ => mret tt
  end.

Definition ecall_rpc_response (req_uid : Z) (msg : list byte) (exception : option (list byte)) :
    M E unit :=
  match exception with
  | Some _ => mret tt
  | None =>
      type ← lift (read_type msg);
      match type with
      | system_key_exchange_resp | system_key_setup_resp => handle_system_resp type (drop 2 msg)
      | raft_message => handle_raft_response req_uid (drop 2 msg)
      | _ => mret tt
      end
  end.

(** ** Entry points *)

Definition ecall_timer_expired_callback (task_uid : Z) (success : bool) : M E unit :=
  on_server (timer_expired task_uid success).

(** One round of [commit_in_bg]. *)
Definition ecall_raft_instance_commit_bg : M E unit := on_server (handle_event EvCommit).

Definition ecall_register_verification_report (http_packet : list byte) : M E bool :=
  register_report http_packet.
End code.

(** ** Start-up *)

(** The SGX calls: a status and what they write. *)
Class sgx := {
  sgx_ecc256_open_context : Z;
  sgx_ecc256_create_key_pair : Z * (list byte * list byte);
  sgx_create_report : list byte → list byte → Z * list byte;
}.
Definition SGX_SUCCESS : Z := 0.

Section report_key.
Context `{FreshMem} `{evp} `{sgx} {LS SM : Type}.
#[local] Abbreviation E := (enclave LS SM).

(** Create the key store, unless it exists. *)
Definition ensure_key_store : M E Z :=
  e ← gets id;
  match key_store e with
  | Some _ => mret SGX_SUCCESS
  | None =>
      if negb (sgx_ecc256_open_context =? SGX_SUCCESS) then mret sgx_ecc256_open_context
      else
        let '(status, (private_key, public_key)) := sgx_ecc256_create_key_pair in
        if negb (status =? SGX_SUCCESS) then mret status
        else key_store <~ Some (mk_key_store [] private_key public_key ∅ ∅) ;; mret SGX_SUCCESS
  end.

Definition ecall_get_report (target_info : list byte) : M E (Z * option (list byte)) :=
  status ← ensure_key_store;
  if negb (status =? SGX_SUCCESS) then mret (status, None)
  else
    k ← get_store;
    let '(status, report) := sgx_create_report target_info (self_public_ k) in
    mret (status, Some report).

End report_key.

(** The enclave as it is built: [run_raft_instance] chooses the log store and
    the state machine. *)
Abbreviation raft_enclave := (enclave in_memory_log_store echo_state_machine).

(** [sstrfmt("tcp://%s:%d")], cut to 99 characters. *)
Definition endpoint_of (address : list byte) (port : Z) : list byte :=
  strfmt_fmt 100 (str "tcp://" ++ address ++ str ":" ++ decimal port).

Section startup.
Context `{FreshMem} `{evp}.

(** The constructor of the server runs before [listen] makes it known; the
    clients it creates are created all the same. *)
Definition run_raft_instance (srv_id : Z) (endpoint : list byte) (now : Z) (rnd : nat → Z) :
    M raft_enclave unit :=
  let '(r, w) := new_raft_server mem_new echo_new enclave_params
                   (new_state_mgr srv_id endpoint) now rnd in
  for_each (out w) perform ;;
  lift r ;;
  raft_rpc_request_handler <~ Some w.

Definition ecall_raft_instance_run (srv_id : Z) (address : list byte) (port now : Z)
    (rnd : nat → Z) : M raft_enclave unit :=
  run_raft_instance srv_id (endpoint_of address port) now rnd.
End startup.
