(* ===== verification/Samples.v ===== *)
(** * Example servers

    Servers of a cluster of three, built with the constructor, the in-memory
    log store, the echo state machine and the parameters the enclave uses.
    They are the concrete instances the theorems are applied to. *)

From S2P Require Import Prelude Buffer Config Messages LogStore StateMachine StateMgr Scheduler Peer Server Membership Requests Responses.

#[local] Existing Instance zero_mem.

Definition sample_srv (i : Z) : srv_config := mk_srv_config i [Byte.x73; byte.of_Z (48 + i)].
Definition cluster_of (ids : list Z) : cluster_config := mk_cluster_config 1 0 (sample_srv <$> ids).
Definition sample_mgr (i : Z) (ids : list Z) : in_memory_state_mgr :=
  mk_state_mgr i [Byte.x73] (cluster_of ids) None false.

Definition sample_state := raft_server in_memory_log_store echo_state_machine.

Definition start_server (i : Z) (ids : list Z) : sample_state :=
  (new_raft_server mem_new echo_new enclave_params (sample_mgr i ids) 0 Z.of_nat).2.

(** Server 1 of a cluster of three, as it starts. *)
Definition server1 : sample_state := start_server 1 [1; 2; 3].

Definition vote_req (src term last_term last_idx : Z) : req_msg :=
  mk_req_msg term request_vote_request src 1 last_term last_idx 0 [].
Definition vote_resp (src term : Z) (granted : bool) : resp_msg :=
  mk_resp_msg term request_vote_response src 1 0 granted.

Definition hello : log_entry := mk_log_entry 1 app_log (buf_of [Byte.x68; Byte.x69; Byte.x00]).
Definition append_req (src term last_term last_idx commit_idx : Z) (l : list log_entry) : req_msg :=
  mk_req_msg term append_entries_request src 1 last_term last_idx commit_idx l.

Definition run_events (es : list event) (w : sample_state) : sample_state :=
  foldl (λ w e, (handle_event e w).2) w es.

(** Its election timer expires and server 2 votes for it. *)
Definition server1_leader : sample_state :=
  run_events [EvTimer 1 true; EvRpcResult 0 (vote_req 1 1 0 0) resp_handler
                                (Some (vote_resp 2 1 true))] server1.
