(* ===== verification/Rpc.v ===== *)
(** * Calls between two enclaves

    A request that one server hands to its client port goes through
    serialisation, encryption, the host, the listener of the other enclave and
    back.  The theorems say that the detour does not show: the other server
    runs [process_req] on the request, and the caller runs
    [handle_rpc_result] on the answer.  The events of [Responses.event] are
    what the calls of [Enclave] come to. *)

From S2P Require Import Prelude Buffer Transport Json Attestation Config Messages LogStore StateMachine StateMgr Scheduler Peer Server Membership Requests Responses Enclave Samples.

Section rpc.
Context `{FreshMem} `{evp_laws} `{!evp_works} `{codecs} `{openssl}.
Context {LS SM : Type} `{!log_store LS} `{!state_machine SM}.
#[local] Abbreviation W := (raft_server LS SM).
#[local] Abbreviation E := (enclave LS SM).

(** A request as the other server gets it. *)
Definition delivered (r : req_msg) : req_msg :=
  r <| req_log_entries := rewound <$> req_log_entries r |>.

Definition req_encode (r : req_msg) : list byte :=
  req_header_encode r ++ wire_entries_encode (req_log_entries r).

Lemma deserialize_req_bytes h l :
  deserialize_req h (Some l) = deserialize_req (buf_of (bytes h)) (Some (buf_of (bytes l))).
Proof. unfold deserialize_req. by rewrite !pos_set_0. Qed.

Lemma split_message_spec r :
  req_ok r →
  ∃ h l, split_message (req_encode r) = Ok (h, l) ∧ deserialize_req h (Some l) = Ok (delivered r).
Proof.
  intros Hr. unfold split_message, req_encode. pose proof (req_header_size r Hr) as Hsz.
  pose proof Hr as (_ & _ & _ & _ & _ & _ & _ & _ & Hl). unfold RPC_REQ_HEADER_SIZE in Hl.
  rewrite (alloc_at RPC_REQ_HEADER_SIZE) by done. cbn [mbind outcome_bind].
  change (Z.to_nat RPC_REQ_HEADER_SIZE) with 45%nat.
  rewrite memcpy_s_full; [|apply length_fresh|rewrite length_app, length_req_header; lia].
  rewrite take_app_length', drop_app_length' by apply (length_req_header r). cbn [mbind outcome_bind].
  match goal with |- context [pos_set _ ?b] => change b with (buf_of (req_header_encode r)) end.
  destruct (get_int _) as [[n h]| |] eqn:Hg in Hsz |- *; [|done..].
  injection Hsz as ->. cbn [mbind outcome_bind].
  rewrite u64_small by (unfold is_u64; lia). rewrite alloc_at by lia. cbn [mbind outcome_bind].
  rewrite Nat2Z.id, memcpy_s_full; [|apply length_fresh|done]. rewrite firstn_all.
  cbn [mbind outcome_bind]. eexists _, _. split; [done|].
  rewrite deserialize_req_bytes.
  assert (bytes h = req_header_encode r) as ->.
  { apply (f_equal (λ o, bytes <$> (snd <$> o))) in Hg. revert Hg. unfold get_int.
    destruct (_ <? _); [done|]. destruct (load _ _); [|done..]. cbn. intros [= <-]. done. }
  by apply deserialize_req_spec.
Qed.

Lemma req_encode_nonempty r : req_encode r ≠ [].
Proof. intros E%(f_equal length). unfold req_encode in E. rewrite length_app, length_req_header in E. done. Qed.

Lemma resp_encode_nonempty r : resp_encode r ≠ [].
Proof. intros E%(f_equal length). by rewrite length_resp in E. Qed.

Lemma req_encode_sized r : req_ok r → int_sized (req_encode r).
Proof.
  intros (_ & _ & _ & _ & _ & _ & _ & _ & Hl). unfold int_sized, req_encode, RPC_REQ_HEADER_SIZE in *.
  rewrite length_app, length_req_header. lia.
Qed.

Lemma resp_encode_sized r : int_sized (resp_encode r).
Proof. unfold int_sized. by rewrite length_resp. Qed.

(** ** The caller *)

(** The state after a request has gone out under the number [uid]. *)
Definition sent (c : Z) (r : req_msg) (d : when_done) (m : list byte) (a : E) : E :=
  let uid := u32 (last_req_uid_ a + 1) in
  a <| randoms := S (randoms a) |> <| last_req_uid_ := uid |>
    <| raft_rpc_client_callback_pool ::= <[uid := (r, d)]> |>
    <| ocalls ::= λ l, l ++ [OSendRequest c (tagged raft_message m) uid] |>.

Lemma send_spec c r d (a : E) m :
  req_ok r → raft_encrypt (randoms a) (req_encode r) = Ok m →
  send c r d a = (Ok tt, sent c r d m a).
Proof.
  intros Hr Hm. unfold send. rewrite serialize_req_spec by done. run.
  change (bytes (buf_of ?x)) with x. fold (req_encode r).
  rewrite (bind_step (encrypt _) _ _ m (a <| randoms := S (randoms a) |>)); [done|].
  unfold encrypt. run. unfold lift. by rewrite Hm.
Qed.

(** ** The other side *)

Lemma handle_raft_message_spec r n m resp (b b1 : E) :
  req_ok r → raft_encrypt n (req_encode r) = Ok m →
  on_server (process_req (delivered r)) b = (Ok resp, b1) →
  ∃ c, raft_encrypt (randoms b1) (resp_encode resp) = Ok c ∧
    length c = (S_BLOCK_SIZE + Z.to_nat RPC_RESP_HEADER_SIZE)%nat ∧
    handle_raft_message m b =
      (Ok (Reply (Some (tagged raft_message c))), b1 <| randoms := S (randoms b1) |>).
Proof.
  intros Hr Hm Hs. destruct (raft_encrypt_ok (randoms b1) _ (resp_encode_sized resp)) as (c & Hc & Hl).
  rewrite length_resp in Hl. exists c. split; [done|]. split; [done|]. unfold handle_raft_message.
  rewrite (raft_decrypt_encrypt _ _ _ (req_encode_nonempty r) (req_encode_sized r Hr) Hm). run.
  destruct (split_message_spec r Hr) as (h & l & -> & Hd). run.
  match goal with |- (catch_all ?x ?y ≫= _) b = _ =>
    rewrite (bind_step (catch_all x y) _ b (Some c) (b1 <| randoms := S (randoms b1) |>)); [done|] end.
  unfold catch_all. rewrite Hd. run. rewrite (bind_step _ _ _ _ _ Hs), serialize_resp_spec. run.
  change (bytes (buf_of ?x)) with x.
  rewrite (bind_step (encrypt _) _ _ c (b1 <| randoms := S (randoms b1) |>)); [done|].
  unfold encrypt. run. unfold lift. by rewrite Hc.
Qed.

(** The state after an answer has been stored under a new number. *)
Definition published (r : list byte) (e : E) : E :=
  e <| id_counter := u32 (id_counter e + 1) |>
    <| response_buffer_map ::= <[u32 (id_counter e + 1) := r]> |>.

(** The answer the host fetches is the one the call left. *)
Lemma publish_fetch r (e : E) :
  (0 < length r)%nat → Z.of_nat (length r) < 2 ^ 31 →
  response_buffer_map e !! u32 (id_counter e + 1) = None →
  publish (Some r) e = (Ok (Z.of_nat (length r), u32 (id_counter e + 1)), published r e) ∧
  fetch_answer (Z.of_nat (length r), u32 (id_counter e + 1)) (published r e) =
    (Ok (Some r), published r e).
Proof.
  intros Hr Hl Hn. split.
  - unfold publish. run. rewrite i32_small by (unfold is_i32; lia).
    unfold published, update; cbn. by rewrite (bool_decide_eq_true_2 _ Hn).
  - unfold fetch_answer. rewrite (proj2 (Z.ltb_ge _ _)) by lia.
    rewrite (bind_step (ecall_fetch_rpc_response _ _) _ _ (true, r) (published r e)); [done|].
    unfold ecall_fetch_rpc_response. run. unfold published at 1. unfold update; cbn.
    rewrite lookup_insert_eq, Nat2Z.id, memcpy_s_full; [|apply length_replicate|done]. run.
    by rewrite firstn_all.
Qed.

Lemma drop_tagged t m : drop 2 (tagged t m) = m.
Proof. unfold tagged, u16_bytes. by rewrite drop_app_length' by (by rewrite length_le_split). Qed.

Lemma length_tagged t m : length (tagged t m) = (2 + length m)%nat.
Proof. unfold tagged, u16_bytes. by rewrite length_app, length_le_split. Qed.

(** What the host gets for a request of a server: the answer of the server. *)
Lemma message_handler_raft r n m resp (b b1 : E) :
  req_ok r → raft_encrypt n (req_encode r) = Ok m →
  on_server (process_req (delivered r)) b = (Ok resp, b1) →
  response_buffer_map b1 !! u32 (id_counter b1 + 1) = None →
  ∃ c, raft_encrypt (randoms b1) (resp_encode resp) = Ok c ∧
    message_handler (tagged raft_message m) b =
      (Ok (inl (Some (tagged raft_message c))),
       published (tagged raft_message c) (b1 <| randoms := S (randoms b1) |>)).
Proof.
  intros Hr Hm Hs Hn. destruct (handle_raft_message_spec r n m resp b b1 Hr Hm Hs) as (c & Hc & Hl & Hh).
  exists c. split; [done|]. unfold message_handler, ecall_handle_rpc_request.
  rewrite bind_assoc, read_type_tagged by done. run. cbn [er_type_to_Z er_type_of_Z].
  rewrite drop_tagged, bind_assoc, (bind_step _ _ _ _ _ Hh).
  destruct (publish_fetch (tagged raft_message c) (b1 <| randoms := S (randoms b1) |>)) as [Hp Hf];
    [rewrite length_tagged; lia| |done|].
  { rewrite length_tagged, Hl. done. }
  rewrite bind_assoc, (bind_step _ _ _ _ _ Hp). run. by rewrite (bind_step _ _ _ _ _ Hf).
Qed.

(** ** The answer *)

Lemma read_response_spec r n c :
  resp_ok r → raft_encrypt n (resp_encode r) = Ok c → read_response c = Ok r.
Proof.
  intros Hr Hc. unfold read_response.
  rewrite (raft_decrypt_encrypt _ _ _ (resp_encode_nonempty r) (resp_encode_sized r) Hc). cbn [mbind outcome_bind].
  rewrite (alloc_at RPC_RESP_HEADER_SIZE) by done. cbn [mbind outcome_bind].
  rewrite memcpy_s_full; [|by rewrite length_resp; apply length_fresh|done].
  cbn [mbind outcome_bind]. rewrite firstn_all. by apply deserialize_resp_spec.
Qed.

Lemma rpc_response_spec uid c (a : E) :
  ecall_rpc_response uid (tagged raft_message c) None a =
    (rsp ← lift (read_response c); complete uid (raft_rpc_client_callback_pool a !! uid) rsp)
      (a <| raft_rpc_client_callback_pool ::= delete uid |>).
Proof.
  unfold ecall_rpc_response. rewrite read_type_tagged by done. run.
  cbn [er_type_to_Z er_type_of_Z]. rewrite drop_tagged. unfold handle_raft_response. by run.
Qed.

(** C12: a call between two enclaves is a call between two servers.  The bytes
    the caller's port gives its host make the other enclave run [process_req]
    on the request (its entries rewound), and the bytes its host gets back
    make the caller's enclave run [handle_rpc_result], on the very request,
    peer object and handler of the call, with the answer [process_req] gave;
    whatever the caller did in between, as long as the call is pending and the
    calls of OpenSSL succeed. *)
Theorem rpc_round_trip (a b b1 : E) (c : Z) (obj : nat) (h : rpc_handler) (req : req_msg)
    (resp : resp_msg) :
  req_ok req → resp_ok resp →
  on_server (process_req (delivered req)) b = (Ok resp, b1) →
  response_buffer_map b1 !! u32 (id_counter b1 + 1) = None →
  ∃ a' msg uid ans b',
    send c req (WhenPeer obj h) a = (Ok tt, a') ∧
    ocalls a' = ocalls a ++ [OSendRequest c msg uid] ∧
    message_handler msg b = (Ok (inl (Some ans)), b') ∧
    raft_rpc_request_handler b' = raft_rpc_request_handler b1 ∧
    ∀ a2, raft_rpc_client_callback_pool a2 !! uid = raft_rpc_client_callback_pool a' !! uid →
      ecall_rpc_response uid ans None a2 =
        on_server (handle_rpc_result obj req h (Some resp))
          (a2 <| raft_rpc_client_callback_pool ::= delete uid |>).
Proof.
  intros Hr Hp Hs Hn. destruct (raft_encrypt_ok (randoms a) _ (req_encode_sized req Hr)) as (m & Hm & _).
  destruct (message_handler_raft req _ m resp b b1 Hr Hm Hs Hn) as (c' & Hc & Hh).
  exists (sent c req (WhenPeer obj h) m a), (tagged raft_message m), (u32 (last_req_uid_ a + 1)),
    (tagged raft_message c'). eexists.
  split; [by apply send_spec|]. split; [done|]. split; [exact Hh|]. split; [done|].
  intros a2 Ha. rewrite rpc_response_spec, (read_response_spec resp _ _ Hp Hc). run.
  rewrite Ha. unfold sent, update; cbn. by rewrite lookup_insert_eq.
Qed.

(** A call that waits for its answer. *)
Definition call_pending (a : E) (uid : Z) : Prop := is_Some (raft_rpc_client_callback_pool a !! uid).

(** An answer to a call that is not pending (repeated, or never made)
    reaches neither the server nor any other state: it ends in the exception
    of the empty handler, or in the error its bytes cause. *)
Theorem stray_answer_rejected (a : E) (uid : Z) (c : list byte) :
  ¬ call_pending a uid →
  ∃ o, ecall_rpc_response uid (tagged raft_message c) None a = (o, a) ∧ o ≠ Ok tt.
Proof.
  intros Ha%eq_None_not_Some. rewrite rpc_response_spec, Ha.
  assert (a <| raft_rpc_client_callback_pool ::= delete uid |> = a) as ->.
  { unfold update; cbn. rewrite delete_id by done. by destruct a. }
  unfold mbind, M_bind, lift. destruct (read_response c); eexists; by split.
Qed.

(** ** Failed calls *)

Lemma busy_not_sent r (w : W) p :
  find_peer r w = Some p → busy_flag_ p = true → request_append_entries_to r w = (Ok false, w).
Proof.
  intros Hp Hb. unfold request_append_entries_to. unfold get_peer at 1.
  rewrite bind_assoc, bind_gets, Hp, bind_ret. unfold make_busy. by rewrite Hb.
Qed.

Lemma busy_heartbeat r (w : W) p :
  find_peer r w = Some p → busy_flag_ p = true →
  ∃ s, (handle_hb_timeout r w).2 = w <| scheduler_ := s |>.
Proof.
  intros Hp Hb. assert (w = w <| scheduler_ := scheduler_ w |>) as Hw by (by destruct w).
  unfold handle_hb_timeout. run. unfold when at 1. destruct (bool_decide _); [|by eexists].
  rewrite (bind_step _ _ _ _ _ (busy_not_sent r w p Hp Hb)).
  unfold get_peer. rewrite bind_assoc, bind_gets, Hp, bind_ret.
  destruct (hb_enabled_ p); [|by eexists]. cbn [when]. unfold on.
  destruct (schedule _ _ _). by eexists.
Qed.

(** A request to the peer [i] is under way. *)
Definition peer_busy (w : W) (i : Z) : Prop := ∃ p, peers_ w !! i = Some p ∧ busy_flag_ p = true.

(** C37: a call that failed blocks its peer.  The host reports the error, the
    enclave drops the report, and the peer stays busy; from then on no
    heartbeat sends anything to it. *)
Theorem failed_call_blocks_peer (a : E) (w : W) (i uid : Z) (msg error : list byte) :
  raft_rpc_request_handler a = Some w → peer_busy w i →
  ecall_rpc_response uid msg (Some error) a = (Ok tt, a) ∧
  ∃ w', on_server (handle_hb_timeout (PeerOf i)) a =
    ((handle_hb_timeout (PeerOf i) w).1, a <| raft_rpc_request_handler := Some w' |>) ∧
    peers_ w' = peers_ w.
Proof.
  intros Ha (p & Hp & Hb). split; [done|]. unfold on_server. rewrite Ha.
  destruct (busy_heartbeat (PeerOf i) w p Hp Hb) as [s Hs].
  destruct (handle_hb_timeout (PeerOf i) w) as [o w']. cbn in Hs. subst w'.
  exists (w <| scheduler_ := s |>). rewrite drop_all. split; [|done]. by destruct o.
Qed.
End rpc.

(** ** Examples *)

#[local] Existing Instances zero_mem toy_evp toy_evp_laws toy_evp_works toy_codecs toy_openssl.

(** An enclave with a running server, whose peers are reached through the
    clients 1 and 2. *)
Definition enclave_of (w : sample_state) : raft_enclave :=
  (empty_enclave Z.of_nat) <| raft_rpc_request_handler := Some w |>
    <| clients := {[PeerClient 0 := 1; PeerClient 1 := 2]} |>.

Definition sample_vote_req : req_msg := vote_req 2 1 0 0.
Definition sample_answer : outcome resp_msg * raft_enclave :=
  on_server (process_req (delivered sample_vote_req)) (enclave_of server1).

Lemma rpc_round_trip_witness :
  ∃ a' msg uid ans b',
    send 1 sample_vote_req (WhenPeer 0 resp_handler) (enclave_of server1) = (Ok tt, a') ∧
    ocalls a' = [OSendRequest 1 msg uid] ∧
    message_handler msg (enclave_of server1) = (Ok (inl (Some ans)), b').
Proof.
  destruct (rpc_round_trip (enclave_of server1) (enclave_of server1) sample_answer.2 1 0 resp_handler
    sample_vote_req (mk_resp_msg 1 request_vote_response 1 2 1 true))
    as (a' & msg & uid & ans & b' & Ha & Ho & Hb & _).
  - unfold req_ok. ok_tac.
  - unfold resp_ok. ok_tac.
  - vm_compute. reflexivity.
  - vm_compute. reflexivity.
  - exists a', msg, uid, ans, b'. split; [exact Ha|]. split; [exact Ho|exact Hb].
Defined.

Lemma stray_answer_rejected_witness :
  ∃ o, ecall_rpc_response 7 (tagged raft_message [Byte.x00]) None (enclave_of server1) =
    (o, enclave_of server1) ∧ o ≠ Ok tt.
Proof. apply stray_answer_rejected. intros [x Hx]. vm_compute in Hx. discriminate Hx. Defined.

Lemma failed_call_blocks_peer_witness :
  ∃ w', on_server (handle_hb_timeout (PeerOf 2)) (enclave_of server1_leader) =
    ((handle_hb_timeout (PeerOf 2) server1_leader).1,
     (enclave_of server1_leader) <| raft_rpc_request_handler := Some w' |>) ∧
    peers_ w' = peers_ server1_leader.
Proof.
  apply (failed_call_blocks_peer (enclave_of server1_leader) server1_leader 2 1 [] []); [reflexivity|].
  vm_compute. eexists. split; reflexivity.
Defined.
