(* ===== verification/Client.v ===== *)
(** * The client

    src/client/RequestBuilder.hxx (the requests of a client and the answers it
    reads) and SocketClient.hxx (its connection), and how they meet the
    enclave's listener and the endpoints of the host. *)

From S2P Require Import Prelude Buffer Transport Session Json Attestation Host Config Messages Texts LogStore StateMachine StateMgr Scheduler Peer Server Membership Requests Responses Enclave Samples Rpc.
From Stdlib Require String.
Import String.StringSyntax.

(** ** Requests and answers *)

Module RequestBuilder.
Section code.
Context `{codecs}.

Definition serialize (type : er_message_type) (payload : list byte) : list byte :=
  u16_bytes (er_type_to_Z type) ++ payload.

Definition build_add_server_request (server_id : Z) : list byte :=
  json_dump (JObject [(str "endpoint", JString (str "tcp://127.0.0.1:" ++ decimal (9000 + server_id)));
                      (str "server_id", JNumber server_id)]).

Definition build_remove_server_request (server_id : Z) : list byte :=
  json_dump (JObject [(str "server_id", JNumber server_id)]).

Definition build_append_entries_request (logs : list (list byte)) : list byte :=
  json_dump (JArray ((λ log, JString (base64_encode log)) <$> logs)).

Definition add_server (server_id : Z) : list byte :=
  serialize client_add_srv_req (build_add_server_request server_id).

Definition append_entries (message : list byte) : list byte :=
  serialize client_append_entries_req (build_append_entries_request [message]).

Definition deserialize (buffer : list byte) : outcome bool :=
  read_type buffer ;;
  match json_parse (drop 2 buffer) with
  | Some body => Ok (negb (int_value (at_key (str "success") body) =? 0))
  | None => Throw runtime_error
  end.
End code.
End RequestBuilder.

(** ** The connection *)

Module SocketClient.
Inductive status_t := CONNECTING | AVAILABLE | BUSY | ERROR.
Inductive op := Idle | WritingRequest | ReadingHeader | ReadingBody.

Record client := mk {
  status_ : status_t;
  size_ : Z;
  req_sbuf : list byte;
  resp_sbuf : list byte;
  current : op;
  results : list bool;
}.
#[global] Instance eta_client : Eta client := λ c, mk
  (status_ c) (size_ c) (req_sbuf c) (resp_sbuf c) (current c) (results c).

Section code.
Context `{codecs}.

(** The constructor, once [connect] has returned. *)
Definition new_client (connected : bool) : client :=
  mk (if connected then AVAILABLE else ERROR) 0 [] [] Idle [].

(** [Some true] is the end of the stream, [Some false] another error. *)
Definition handle_error (eof : bool) : M client bool :=
  if eof then mret true else status_ <~ ERROR ;; mret false.

Definition send (request : list byte) : M client unit :=
  c ← gets id;
  match status_ c with
  | AVAILABLE =>
      status_ <~ BUSY ;;
      let n := u32 (Z.of_nat (length request)) in
      size_ <~ n ;;
      modify (update req_sbuf (λ b, b ++ u32_bytes n ++ request)) ;;
      current <~ WritingRequest
  | _ => throw runtime_error
  end.

Definition receive_header : M client unit := current <~ ReadingHeader.

Definition request_written (err : option bool) : M client unit :=
  match err with
  | Some eof => current <~ Idle ;; handle_error eof ;; mret tt
  | None => req_sbuf <~ [] ;; receive_header
  end.

Definition receive_done : M client unit :=
  c ← gets id;
  let n := Z.to_nat (size_ c) in
  resp_sbuf <~ drop n (resp_sbuf c) ;;
  current <~ Idle ;;
  result ← lift (RequestBuilder.deserialize (take n (resp_sbuf c ++ replicate n Byte.x00)));
  modify (update results (λ l, l ++ [result])) ;;
  status_ <~ AVAILABLE.

Definition receive_body : M client unit :=
  c ← gets id;
  if Z.of_nat (length (resp_sbuf c)) <? size_ c then current <~ ReadingBody else receive_done.

(** [in.read(&size_, 4)]: with fewer bytes it changes as many of [size_]. *)
Definition read_size : M client unit :=
  c ← gets id;
  let got := take 4 (resp_sbuf c) in
  size_ <~ le_combine (got ++ drop (length got) (u32_bytes (size_ c))) ;;
  resp_sbuf <~ drop 4 (resp_sbuf c).

(** The completion handler of [receive_header].  After an error other than the
    end of the stream it goes on as if the header had come. *)
Definition header_read (d : list byte) (err : option bool) : M client unit :=
  modify (update resp_sbuf (λ b, b ++ d)) ;;
  again ← match err with Some eof => handle_error eof | None => mret false end;
  if (again : bool) then receive_header else read_size ;; receive_body.

(** The completion handler of [receive_body]: whatever happened, it goes on. *)
Definition body_read (d : list byte) (err : option bool) : M client unit :=
  modify (update resp_sbuf (λ b, b ++ d)) ;;
  match err with Some eof => handle_error eof ;; mret tt | None => mret tt end ;;
  receive_body.

(** Bytes arrive; [transfer_at_least(4)] completes once there are four. *)
Definition bytes_arrive (d : list byte) : M client unit :=
  c ← gets id;
  match current c with
  | ReadingHeader =>
      if (length (resp_sbuf c ++ d) <? 4)%nat then modify (update resp_sbuf (λ b, b ++ d))
      else header_read d None
  | ReadingBody => body_read d None
  | _ => mret tt
  end.

(** ** Reading an answer *)

Context (m : list byte) (r : bool) (c0 : client).
Context (Hsmall : small m) (Hm : RequestBuilder.deserialize m = Ok r).

(** The client once it has read the answer. *)
Definition finished : client :=
  c0 <| size_ := Z.of_nat (length m) |> <| resp_sbuf := [] |> <| current := Idle |>
     <| results := results c0 ++ [r] |> <| status_ := AVAILABLE |>.

(** How far it has come with the bytes [p]. *)
Definition receiving (p : list byte) : client :=
  if (length p <? 4)%nat then c0 <| resp_sbuf := p |> <| current := ReadingHeader |>
  else if (length p <? length (frame m))%nat then
    c0 <| size_ := Z.of_nat (length m) |> <| resp_sbuf := drop 4 p |> <| current := ReadingBody |>
  else finished.

Lemma receive_body_spec q rest :
  q ++ rest = frame m → (4 ≤ length q)%nat → ∀ o,
  receive_body (c0 <| size_ := Z.of_nat (length m) |> <| resp_sbuf := drop 4 q |> <| current := o |>) =
    (Ok tt, receiving q).
Proof.
  intros Hq Hl o. pose proof (f_equal length Hq) as Hlen.
  rewrite length_app, length_frame in Hlen. unfold receive_body, receiving. rewrite bind_get.
  cbn [resp_sbuf size_]. rewrite (proj2 (Nat.ltb_ge _ 4) Hl), length_frame.
  match goal with |- context [Z.of_nat (length (resp_sbuf ?c)) <? size_ ?c] =>
    change (resp_sbuf c) with (drop 4 q); change (size_ c) with (Z.of_nat (length m)) end.
  rewrite length_drop.
  destruct (Nat.ltb_spec (length q) (4 + length m)).
  - rewrite (proj2 (Z.ltb_lt _ _)) by lia. done.
  - rewrite (proj2 (Z.ltb_ge _ _)) by lia.
    assert (rest = []) as -> by (destruct rest; [done|cbn in Hlen; lia]). rewrite app_nil_r in Hq. subst q.
    assert (drop 4 (frame m) = m) as Hd.
    { unfold frame, u32_bytes. by rewrite drop_app_length' by (by rewrite length_le_split). }
    rewrite Hd. unfold receive_done. rewrite bind_get, !bind_modify.
    match goal with |- (lift ?x ≫= _) _ = _ => replace x with (Ok r) end; cycle 1.
    { rewrite <-Hm. f_equal. change (m = take (Z.to_nat (Z.of_nat (length m)))
        (m ++ replicate (Z.to_nat (Z.of_nat (length m))) Byte.x00)).
      by rewrite Nat2Z.id, take_app_length. }
    rewrite bind_lift, bind_modify. unfold modify, finished. f_equal.
    unfold update; cbn. rewrite Nat2Z.id, drop_all. done.
Qed.

Lemma bytes_arrive_spec p d rest :
  p ++ d ++ rest = frame m → bytes_arrive d (receiving p) = (Ok tt, receiving (p ++ d)).
Proof.
  intros Hp. unfold bytes_arrive. rewrite bind_get.
  destruct (Nat.ltb_spec (length p) 4) as [H4|H4].
  - assert (receiving p = c0 <| resp_sbuf := p |> <| current := ReadingHeader |>) as ->
      by (unfold receiving; by rewrite (proj2 (Nat.ltb_lt _ _) H4)).
    cbn [current update resp_sbuf].
    destruct (Nat.ltb_spec (length (p ++ d)) 4) as [H4'|H4'].
    + unfold receiving. by rewrite (proj2 (Nat.ltb_lt _ _) H4').
    + unfold header_read. rewrite bind_modify, bind_ret. unfold read_size.
      rewrite bind_assoc, bind_get, bind_assoc, !bind_modify.
      rewrite <-(receive_body_spec (p ++ d) rest) with (o := ReadingHeader); [|by rewrite <-app_assoc|done].
      f_equal. unfold update; cbn [status_ size_ req_sbuf resp_sbuf current results].
      assert (take 4 (p ++ d) = u32_bytes (Z.of_nat (length m))) as ->.
      { rewrite app_assoc in Hp. apply (f_equal (take 4)) in Hp. rewrite take_app_le in Hp by done.
        rewrite Hp. unfold frame, u32_bytes. by rewrite take_app_length' by (by rewrite length_le_split). }
      f_equal. rewrite drop_ge by (unfold u32_bytes; rewrite !length_le_split; lia).
      by rewrite app_nil_r, frame_size.
  - destruct (Nat.ltb_spec (length p) (length (frame m))) as [Hl|Hl].
    + assert (receiving p = c0 <| size_ := Z.of_nat (length m) |> <| resp_sbuf := drop 4 p |>
        <| current := ReadingBody |>) as ->
        by (unfold receiving; by rewrite (proj2 (Nat.ltb_ge _ _) H4), (proj2 (Nat.ltb_lt _ _) Hl)).
      cbn [current update]. unfold body_read. rewrite bind_modify, bind_ret.
      rewrite <-(receive_body_spec (p ++ d) rest) with (o := ReadingBody);
        [|by rewrite <-app_assoc|rewrite length_app; lia].
      f_equal. unfold update; cbn. f_equal. by rewrite drop_app_le.
    + assert (receiving p = finished) as Hf
        by (unfold receiving; by rewrite (proj2 (Nat.ltb_ge _ _) H4), (proj2 (Nat.ltb_ge _ _) Hl)).
      assert (d = []) as ->.
      { apply (f_equal length) in Hp. rewrite !length_app in Hp. destruct d; [done|cbn in Hp; lia]. }
      rewrite Hf, !app_nil_r, Hf. done.
Qed.

Lemma arrive_all p ds :
  p ++ concat ds = frame m → for_each ds bytes_arrive (receiving p) = (Ok tt, finished).
Proof.
  revert p. induction ds as [|d ds IH]; intros p Hp; cbn [for_each concat] in *.
  - rewrite app_nil_r in Hp. subst p. unfold receiving. rewrite Nat.ltb_irrefl.
    rewrite (proj2 (Nat.ltb_ge _ _)); [done|]. rewrite length_frame. lia.
  - rewrite (bind_step _ _ _ _ _ (bytes_arrive_spec p d (concat ds) Hp)). apply IH. by rewrite <-app_assoc.
Qed.

(** C38: a client gets the answer however it is cut up.  Waiting for an
    answer, with nothing read yet, it takes pieces that make up the frame of
    [m], comes to the result [m] stands for and is available again. *)
Theorem client_reads_answer (ds : list (list byte)) :
  current c0 = ReadingHeader → resp_sbuf c0 = [] → concat ds = frame m →
  ∃ c', for_each ds bytes_arrive c0 = (Ok tt, c') ∧
    status_ c' = AVAILABLE ∧ results c' = results c0 ++ [r] ∧ resp_sbuf c' = [].
Proof.
  intros Hc Hr Hd. exists finished. split; [|done].
  replace c0 with (receiving []) at 1; [by apply arrive_all|].
  unfold receiving, update; cbn. destruct c0; cbn in *; by subst.
Qed.
End code.

Definition sample_answer `{codecs} : list byte :=
  tagged client_append_entries_resp (json_dump (JObject [(str "success", JNumber 1)])).

Lemma client_reads_answer_witness :
  let c0 := mk BUSY 9 [] [] ReadingHeader [] in
  ∃ c', for_each [take 3 (frame (sample_answer (H := toy_codecs))); drop 3 (frame (sample_answer (H := toy_codecs)))]
      (bytes_arrive (H := toy_codecs)) c0 = (Ok tt, c') ∧
    status_ c' = AVAILABLE ∧ results c' = [true] ∧ resp_sbuf c' = [].
Proof.
  intros c0. apply (client_reads_answer (H := toy_codecs) (sample_answer (H := toy_codecs)) true c0);
    vm_compute; reflexivity.
Defined.
End SocketClient.

(** ** A client's request in the enclave *)

Section enclave.
Context `{FreshMem} `{evp} `{codecs_laws} `{openssl}.
Context {LS SM : Type} `{!log_store LS} `{!state_machine SM}.
#[local] Abbreviation E := (enclave LS SM).

(** The entry the server gets for a client's message: eight zero bytes follow. *)
Definition client_log (message : list byte) : buffer := buf_of (message ++ replicate 8 Byte.x00).

Lemma make_log_spec message :
  Z.of_nat (length message) + 8 < 2 ^ 31 →
  make_log (JString (base64_encode message)) = Ok (client_log message).
Proof.
  intros Hl. unfold make_log. cbn [string_value]. rewrite base64_decode_encode. cbn [mbind outcome_bind].
  rewrite u64_small by (unfold is_u64; lia). rewrite alloc_at by lia. cbn [mbind outcome_bind].
  change (bytes (buf_at [] ?x)) with x. rewrite length_fresh.
  replace (Z.to_nat (Z.of_nat (length message) + 8)) with (length message + 8)%nat by lia.
  unfold memcpy_s. rewrite length_replicate, (proj2 (Nat.ltb_ge _ _)) by lia.
  rewrite Nat.ltb_irrefl. cbn [mbind outcome_bind]. rewrite firstn_all, drop_replicate.
  by replace (length message + 8 - length message)%nat with 8%nat by lia.
Qed.

Lemma deserialize_response t b :
  0 ≤ er_type_to_Z t < 2 ^ 16 → RequestBuilder.deserialize (client_response t b) = Ok b.
Proof.
  intros Ht. unfold RequestBuilder.deserialize, client_response.
  rewrite read_type_tagged by done. cbn [mbind outcome_bind]. rewrite drop_tagged, parse_dump by by destruct b.
  by destruct b.
Qed.

Lemma client_response_nonempty t b : (0 < length (client_response t b))%nat.
Proof. unfold client_response. rewrite length_tagged. lia. Qed.

(** A client's append request up to the answer of the server. *)
Lemma client_append_handled message (e e1 : E) r :
  Z.of_nat (length message) + 8 < 2 ^ 31 →
  on_server (append_entries [client_log message]) e = (Ok r, e1) →
  handle_client_request client_append_entries_req (RequestBuilder.build_append_entries_request [message]) e =
    await client_append_entries_resp r e1.
Proof.
  intros Hl Hs. unfold handle_client_request, parsed, RequestBuilder.build_append_entries_request.
  rewrite parse_dump by done. cbn [default array_items fmap list_fmap make_logs id].
  rewrite make_log_spec by done. cbn [mbind outcome_bind]. rewrite bind_lift.
  by rewrite (bind_step _ _ _ _ _ Hs).
Qed.

(** C22: a client's message is appended and acknowledged.  The bytes
    [RequestBuilder::append_entries] makes lead the listener to
    [append_entries] of the server with the message.  When the server knows
    the result at once, the host gets an answer that the client decodes to
    it; when the request was passed on to the leader, the call waits, and
    once the leader's answer is there the host gets an answer that the client
    decodes to that. *)
Theorem client_append_answered (message : list byte) (e e1 : E) (r : option bool) :
  Z.of_nat (length message) + 8 < 2 ^ 31 →
  on_server (append_entries [client_log message]) e = (Ok r, e1) →
  (∀ b, Z.of_nat (length (client_response client_append_entries_resp b)) < 2 ^ 31) →
  match r with
  | Some b =>
      response_buffer_map e1 !! u32 (id_counter e1 + 1) = None →
      ∃ ans e', message_handler (RequestBuilder.append_entries message) e = (Ok (inl (Some ans)), e') ∧
        raft_rpc_request_handler e' = raft_rpc_request_handler e1 ∧
        RequestBuilder.deserialize ans = Ok b
  | None =>
      message_handler (RequestBuilder.append_entries message) e =
        (Ok (inr (last_req_uid_ e1, client_append_entries_resp)), e1) ∧
      ∀ (e2 : E) b, async_results e2 !! last_req_uid_ e1 = Some b →
        response_buffer_map e2 !! u32 (id_counter e2 + 1) = None →
        ∃ ans e', (a ← resume_client_request (last_req_uid_ e1) client_append_entries_resp; fetch_answer a) e2 =
            (Ok (Some ans), e') ∧
          raft_rpc_request_handler e' = raft_rpc_request_handler e2 ∧
          RequestBuilder.deserialize ans = Ok b
  end.
Proof.
  intros Hl Hs Hr. pose proof (client_append_handled message e e1 r Hl Hs) as Hh.
  unfold message_handler, ecall_handle_rpc_request, RequestBuilder.append_entries.
  change (RequestBuilder.serialize ?t ?p) with (tagged t p).
  rewrite bind_assoc, read_type_tagged by done. run. cbn [er_type_to_Z er_type_of_Z].
  rewrite drop_tagged, bind_assoc. destruct r as [b|]; cbn [await] in Hh.
  - intros Hn. set (ans := client_response client_append_entries_resp b) in *.
    destruct (publish_fetch ans e1) as [Hp Hf]; [apply client_response_nonempty|apply Hr|done|].
    exists ans, (published ans e1). split; [|split; [done|by apply deserialize_response]].
    rewrite (bind_step _ _ _ _ _ Hh), bind_assoc, (bind_step _ _ _ _ _ Hp), bind_ret.
    by rewrite (bind_step _ _ _ _ _ Hf).
  - rewrite bind_gets in Hh. rewrite (bind_step _ _ _ _ _ Hh). split; [done|]. intros e2 b Hb Hn.
    set (ans := client_response client_append_entries_resp b).
    destruct (publish_fetch ans e2) as [Hp Hf]; [apply client_response_nonempty|apply Hr|done|].
    exists ans, (published ans e2). split; [|split; [done|by apply deserialize_response]].
    unfold resume_client_request, deref. rewrite !bind_assoc, bind_gets, Hb, bind_ret.
    by rewrite (bind_step _ _ _ _ _ Hp).
Qed.
End enclave.

(** ** Endpoints *)






(** A name the host admits whose port does not fit any more. *)
Example long_endpoint_refused :
  let address := concat (replicate 31 (str "abc.")) ++ str "com" in
  host_ok address false false = true ∧ match_endpoint (endpoint_of address 9001) = None.
Proof. vm_compute. split; reflexivity. Qed.


#[local] Existing Instances zero_mem toy_evp toy_codecs toy_codecs_laws toy_openssl.

Lemma client_append_answered_witness :
  ∃ ans e', message_handler (RequestBuilder.append_entries (str "hi")) (enclave_of server1_leader) =
      (Ok (inl (Some ans)), e') ∧
    RequestBuilder.deserialize ans = Ok true.
Proof.
  destruct (client_append_answered (str "hi") (enclave_of server1_leader)
    (on_server (append_entries [client_log (str "hi")]) (enclave_of server1_leader)).2 (Some true))
    as (ans & e' & Hm & _ & Hd).
  - reflexivity.
  - vm_compute. reflexivity.
  - intros []; vm_compute; reflexivity.
  - vm_compute. reflexivity.
  - exists ans, e'. split; [exact Hm|exact Hd].
Defined.
