(* ===== verification/Driver.v ===== *)
(** * The load driver

    src/client/client.cxx: arguments, the servers it adds, and the loop that
    sends random text.  Connecting and the random numbers are the
    environment; a round of the loop is an operation, since the loop has no
    end. *)

From S2P Require Import Prelude Buffer Transport Session Json Attestation Host Config Messages LogStore StateMachine StateMgr Scheduler Peer Server Membership Requests Responses Enclave Samples Rpc Client.
From Stdlib Require String.
Import String.StringSyntax.

Section code.
Context `{codecs}.
(** Whether the [k]-th connection succeeds, and the [k]-th number drawn from
    the distribution over the characters. *)
Context (connects : nat → bool) (drawn : nat → fin 16).

Record driver := mk_driver {
  client_id : Z;
  interval : Z;
  payload_size : Z;
  (* every connection made, with its port; the sent requests; the sleeps *)
  sockets : list (Z * SocketClient.client);
  slept : list Z;
  draws : nat;
}.
#[global] Instance eta_driver : Eta driver := λ d,
  mk_driver (client_id d) (interval d) (payload_size d) (sockets d) (slept d) (draws d).

(** The arguments; [None]: the usage message. *)
Definition parse_client_args (argv : list (list byte)) : option driver :=
  let start := mk_driver 1 500 256 [] [] 0 in
  match argv with
  | [] | [_] => Some start
  | [_; a] => Some (start <| client_id := strtoul10 a `mod` 2 ^ 8 |>)
  | [_; a; b] =>
      Some (start <| client_id := strtoul10 a `mod` 2 ^ 8 |> <| interval := u32 (strtoul10 b) |>)
  | [_; a; b; c] =>
      Some (start <| client_id := strtoul10 a `mod` 2 ^ 8 |> <| interval := u32 (strtoul10 b) |>
              <| payload_size := u32 (strtoul10 c) |>)
  | _ => None
  end.

Definition charset : list byte := str "0123456789abcdef".

(** [uniform_int_distribution] draws an index from 0 to [strlen(charset) - 1]. *)
Fixpoint push_chars (n : nat) (out : list byte) : M driver (list byte) :=
  match n with
  | O => mret out
  | S n' =>
      k ← gets draws;
      draws <~ S k ;;
      push_chars n' (out ++ [default Byte.x00 (charset !! fin_to_nat (drawn k))])
  end.
Definition generate_dummy_string (len : Z) : M driver (list byte) := push_chars (Z.to_nat len) [].

Definition leader_port : Z := 9000 + 1.

(** [make_shared<SocketClient>] and [send] on it. *)
Definition send_on_new_socket (request : list byte) : M driver unit :=
  d ← gets id;
  let '(r, c) := SocketClient.send request (SocketClient.new_client (connects (length (sockets d)))) in
  sockets <~ sockets d ++ [(leader_port, c)] ;;
  lift r.

Definition sleep_for (ms : Z) : M driver unit := modify (update slept (λ l, l ++ [ms])).

(** The servers the first client adds. *)
Definition add_servers : M driver unit :=
  for_each [2; 3; 4; 5] (λ i,
    send_on_new_socket (RequestBuilder.add_server i) ;; sleep_for 200).

Definition catch_runtime_error (m h : M driver unit) : M driver unit := λ d,
  match m d with (Throw runtime_error, d') => h d' | r => r end.

(** A round of [while (true)]. *)
Definition send_round : M driver unit :=
  catch_runtime_error (
    d ← gets id;
    dummy ← generate_dummy_string (payload_size d);
    send_on_new_socket (RequestBuilder.append_entries dummy))
  (modify (update interval (λ v, u32 (v * 2)))) ;;
  v ← gets interval;
  when (1 <=? v) (sleep_for v).

(** [main] up to the end of the [n]-th round.  [io_context_ptr->run()] is behind
    the loop. *)
Definition drive (n : nat) : M driver unit :=
  d ← gets id;
  when (client_id d =? 1) add_servers ;;
  for_each (seq 0 n) (λ _, send_round).

(** ** What the loop does *)

(** A connection on which a request was put, or that was not made; in neither
    case has an answer been read. *)
Definition unanswered (s : Z * SocketClient.client) : Prop :=
  s.1 = leader_port ∧ SocketClient.results s.2 = [] ∧
  (SocketClient.status_ s.2 = SocketClient.BUSY ∧ SocketClient.current s.2 = SocketClient.WritingRequest ∨
   SocketClient.status_ s.2 = SocketClient.ERROR).

Lemma send_on_new_socket_spec req d :
  ∃ c, unanswered (leader_port, c) ∧
    send_on_new_socket req d =
      (if connects (length (sockets d)) then Ok tt else Throw runtime_error,
       d <| sockets := sockets d ++ [(leader_port, c)] |>).
Proof.
  unfold send_on_new_socket. rewrite bind_get. unfold SocketClient.send. rewrite bind_get.
  destruct (connects (length (sockets d))); cbn; (eexists; split; [|reflexivity]); unfold unanswered; cbn; auto.
Qed.

(** The text is as long as asked for, of characters of [charset]. *)
Lemma push_chars_spec n out d :
  ∃ text k, push_chars n out d = (Ok (out ++ text), d <| draws := k |>) ∧
    length text = n ∧ Forall (λ c, c ∈ charset) text.
Proof.
  revert out d. induction n as [|n IH]; intros out d.
  { exists [], (draws d). rewrite app_nil_r. split; [by destruct d|done]. }
  cbn [push_chars]. rewrite bind_gets, bind_modify.
  destruct (IH (out ++ [default Byte.x00 (charset !! fin_to_nat (drawn (draws d)))])
    (d <| draws := S (draws d) |>)) as (text & k & Hk & Hl & Hf).
  eexists (_ :: text), k. rewrite Hk, <-app_assoc. split; [done|]. cbn [length]. split; [lia|].
  constructor; [|done]. pose proof (fin_to_nat_lt (drawn (draws d))) as Hlt.
  destruct (lookup_lt_is_Some_2 charset (fin_to_nat (drawn (draws d)))) as [c Hc]; [exact Hlt|].
  rewrite Hc. by eapply list_elem_of_lookup_2.
Qed.

(** A round: one connection more; the interval doubles when it fails. *)
Lemma send_round_spec d :
  let fails := negb (connects (length (sockets d))) in
  let v := if fails then u32 (interval d * 2) else interval d in
  ∃ c k, unanswered (leader_port, c) ∧
    send_round d = (Ok tt, d <| draws := k |> <| sockets := sockets d ++ [(leader_port, c)] |>
      <| interval := v |> <| slept := slept d ++ (if 1 <=? v then [v] else []) |>).
Proof.
  intros fails v. unfold send_round, catch_runtime_error, mbind at 1, M_bind at 1. rewrite bind_get.
  unfold generate_dummy_string.
  destruct (push_chars_spec (Z.to_nat (payload_size d)) [] d) as (text & k & Hk & _).
  rewrite (bind_step _ _ _ _ _ Hk). cbn [app].
  destruct (send_on_new_socket_spec (RequestBuilder.append_entries text) (d <| draws := k |>))
    as (c & Hc & Hs).
  change (sockets (d <| draws := k |>)) with (sockets d) in Hs. exists c, k. split; [done|]. rewrite Hs.
  subst fails v. destruct (connects (length (sockets d))); cbn [negb modify]; rewrite bind_gets;
    cbn [interval update]; lazymatch goal with |- when (1 <=? ?v) _ _ = _ => destruct (1 <=? v) end;
    cbn [when sleep_for modify]; rewrite ?app_nil_r; reflexivity.
Qed.

Lemma rounds_spec n d :
  ∃ d', for_each (seq 0 n) (λ _, send_round) d = (Ok tt, d') ∧
    length (sockets d') = (length (sockets d) + n)%nat ∧
    (Forall unanswered (sockets d) → Forall unanswered (sockets d')) ∧
    ((∀ k, connects k = false) → interval d' = u32 (interval d * 2 ^ Z.of_nat n) ∨ (n < 1)%nat ∧ d' = d).
Proof.
  revert d. generalize 0%nat as s. induction n as [|n IH]; intros s d; cbn [seq for_each].
  { exists d. split_and!; [done|lia|done|intros _; right; split; [lia|done]]. }
  destruct (send_round_spec d) as (c & k & Hc & Hr). rewrite (bind_step _ _ _ _ _ Hr).
  set (d1 := update slept _ _). destruct (IH (S s) d1) as (d' & Hd' & Hl & Hf & Hi).
  exists d'. split_and!; [done| | |].
  - rewrite Hl. subst d1. unfold update; cbn. rewrite length_app. cbn. lia.
  - intros Hall. apply Hf. subst d1. unfold update; cbn. apply Forall_app. split; [done|by constructor].
  - intros Hno. left. assert (interval d1 = u32 (interval d * 2)) as H1
      by (subst d1; unfold update; cbn; by rewrite Hno).
    destruct (Hi Hno) as [->|[Hn ->]]; rewrite H1.
    + unfold u32. rewrite Zmult_mod_idemp_l. f_equal. rewrite Nat2Z.inj_succ, Z.pow_succ_r by lia. lia.
    + assert (n = 0%nat) as -> by lia. done.
Qed.

(** Every connection the driver makes is left waiting: the completion handlers
    run in [io_context_ptr->run()], which is behind the endless loop, so no
    answer is ever read and no connection is closed. *)
Theorem answers_never_read (n : nat) (d : driver) :
  sockets d = [] → client_id d ≠ 1 →
  ∃ d', drive n d = (Ok tt, d') ∧ length (sockets d') = n ∧ Forall unanswered (sockets d').
Proof.
  intros Hs Hid. unfold drive. rewrite bind_get, (proj2 (Z.eqb_neq _ _) Hid). cbn [when]. rewrite bind_ret.
  destruct (rounds_spec n d) as (d' & Hd' & Hl & Hf & _). exists d'. rewrite Hs in *.
  split_and!; [done|done|by apply Hf].
Qed.

(** Once 32 rounds have failed the interval is 0 and the loop no longer
    sleeps. *)
Theorem backoff_wraps (n : nat) (d : driver) :
  (32 ≤ n)%nat → (∀ k, connects k = false) → client_id d ≠ 1 →
  ∃ d' d'', drive n d = (Ok tt, d') ∧ interval d' = 0 ∧
    send_round d' = (Ok tt, d'') ∧ slept d'' = slept d'.
Proof.
  intros Hn Hno Hid. unfold drive. rewrite bind_get, (proj2 (Z.eqb_neq _ _) Hid). cbn [when]. rewrite bind_ret.
  destruct (rounds_spec n d) as (d' & Hd' & _ & _ & Hi).
  assert (interval d' = 0) as H0.
  { destruct (Hi Hno) as [->|[? _]]; [|lia]. unfold u32. apply Z.mod_divide; [done|].
    apply Z.divide_mul_r. exists (2 ^ (Z.of_nat n - 32)). rewrite <-Z.pow_add_r by lia. f_equal. lia. }
  destruct (send_round_spec d') as (c & k & _ & Hr). rewrite Hno, H0 in Hr.
  eexists d', _. split_and!; [done..|exact Hr|]. unfold update; cbn. by rewrite app_nil_r.
Qed.
End code.

(** The first client stops before the loop when it cannot connect: the loop
    over the servers to add has no handler. *)
Example first_client_needs_leader `{codecs} drawn :
  (drive (λ _, false) drawn 1 (mk_driver 1 500 256 [] [] 0)).1 = Throw runtime_error.
Proof. reflexivity. Qed.
