(* ===== verification/KeyExchange.v ===== *)
(** * Key exchange

    Which keys the key store holds and which servers it lets into the cluster
    (src/raft_enclave/system/key_store.hxx, and the listener and client ports
    that drive it). *)

From S2P Require Import Prelude Buffer Transport Json Attestation Config Messages LogStore StateMachine StateMgr Scheduler Peer Server Membership Requests Responses Enclave Samples.
From Stdlib Require String.
Import String.StringSyntax.

Section keys.
Context `{FreshMem} `{evp} `{codecs} `{openssl}.
Context {LS SM : Type} `{!log_store LS} `{!state_machine SM}.
#[local] Abbreviation W := (raft_server LS SM).
#[local] Abbreviation E := (enclave LS SM).

(** ** Stored keys *)

(** A key that a genuine report vouches for. *)
Definition attested (pk : list byte) : Prop :=
  ∃ packet text quote, genuine packet text quote ∧ report_data quote = Ok pk.

Definition keys_attested (e : E) : Prop :=
  ∀ k i pk, key_store e = Some k → store_ k !! i = Some pk → attested pk.

(** The store may only gain attested keys. *)
Definition store_grows : relation E := keeps keys_attested.

Lemma within_on_server (R : relation E) `{!PreOrder R} {A} (m : M W A) :
  (∀ e w, R e (e <| raft_rpc_request_handler := w |>)) →
  (∀ ef, within R (perform ef)) → within R (on_server m).
Proof.
  intros Hh Hp e. unfold on_server. destruct (raft_rpc_request_handler e) as [w|]; [|reflexivity].
  destruct (m w) as [r w'].
  assert (∀ r : outcome A, within R (for_each (drop (length (out w)) (out w')) perform ;; lift r)) as Hw.
  { intros r'. apply within_bind; [done|by apply within_for_each|intros _; by apply within_lift]. }
  destruct r; [etrans; [apply Hh|apply Hw]..|apply Hh].
Qed.

(** A change of a member other than the key store. *)
Lemma keeps_other (e e' : E) : key_store e' = key_store e → store_grows e e'.
Proof. intros He Hk k i pk. rewrite He. apply Hk. Qed.
Hint Extern 3 (within store_grows (modify _)) =>
  (apply within_modify; intros ?; apply keeps_other; reflexivity) : within.

Lemma upd_store_grows f :
  (∀ k i pk, store_ (f k) !! i = Some pk → store_ k !! i = Some pk ∨ attested pk) →
  within store_grows (upd_store f).
Proof.
  intros Hf e He k i pk. unfold upd_store, modify, update; cbn.
  destruct (key_store e) as [k0|] eqn:Ek; [|done]. intros [= <-] [Hi|?]%Hf; [|done]. by eapply He.
Qed.

Lemma deref_grows {A} (f : E → option A) : within store_grows (deref f).
Proof. unfold deref. within_solve fail. Qed.

Lemma send_grows c r d : within store_grows (send c r d).
Proof. unfold send, encrypt, next_req_uid, raw_send, call_host. within_solve fail. Qed.
Hint Resolve @deref_grows @send_grows : within.

Lemma perform_grows ef : within store_grows (perform ef).
Proof. unfold perform, rpc_client_create, call_host. within_solve fail. Qed.

Lemma on_server_grows {A} (m : M W A) : within store_grows (on_server m).
Proof.
  apply within_on_server; [typeclasses eauto| |apply perform_grows].
  intros e w. by apply keeps_other.
Qed.
Hint Resolve @on_server_grows : within.

Lemma receive_report_grows i p : within store_grows (receive_report i p).
Proof.
  intros e. unfold receive_report.
  destruct (validate_verification_report p) as [[q|]| |] eqn:Hq; [|done..]. rewrite bind_lift.
  destruct (report_data q) as [pk| |] eqn:Hpk; [|done..]. rewrite bind_lift.
  match goal with |- store_grows e (?m e).2 => cut (within store_grows m); [by intros Hm|] end.
  apply within_bind; [typeclasses eauto|apply deref_grows|intros k].
  apply within_bind; [typeclasses eauto| |intros ?; apply within_ret; typeclasses eauto].
  apply upd_store_grows. intros k' j pk'. unfold update; cbn.
  intros [[_ <-]|[_ Hj]]%lookup_insert_Some; [right|by left].
  destruct (validate_sound p q Hq) as (text & Hg). by exists p, text, q.
Qed.
Hint Resolve @receive_report_grows : within.

Lemma other_fields_grow f : (∀ k, store_ (f k) = store_ k) → within store_grows (upd_store f).
Proof. intros Hf. apply upd_store_grows. intros k i pk. rewrite Hf. by left. Qed.
Hint Extern 2 (within store_grows (upd_store _)) =>
  (apply other_fields_grow; intros ?; reflexivity) : within.

Lemma handle_key_xchg_resp_grows payload ex : within store_grows (handle_key_xchg_resp payload ex).
Proof.
  unfold handle_key_xchg_resp, request_add_srv, get_store, rpc_client_destroy, call_host.
  within_solve fail.
Qed.

Lemma build_key_xchg_req_grows i ep : within store_grows (build_key_xchg_req i ep).
Proof.
  unfold build_key_xchg_req, query_server, request_add_srv, get_store, server_id, rpc_client_create,
    send_xchg_request, next_req_uid, raw_send, call_host.
  within_solve fail.
Qed.
Hint Resolve @handle_key_xchg_resp_grows @build_key_xchg_req_grows : within.

Lemma handle_client_request_grows t p : within store_grows (handle_client_request t p).
Proof. unfold handle_client_request, await. within_solve fail. Qed.

Lemma handle_system_request_grows t p : within store_grows (handle_system_request t p).
Proof. unfold handle_system_request, get_store, server_id. within_solve fail. Qed.

Lemma handle_raft_message_grows d : within store_grows (handle_raft_message d).
Proof. unfold handle_raft_message, encrypt. within_solve fail. Qed.

Lemma publish_grows r : within store_grows (publish r).
Proof. unfold publish. within_solve fail. Qed.
Hint Resolve @handle_client_request_grows @handle_system_request_grows @handle_raft_message_grows
  @publish_grows : within.

Lemma get_report_grows `{sgx} t : within store_grows (ecall_get_report t).
Proof.
  unfold ecall_get_report, ensure_key_store, get_store.
  apply within_bind; [typeclasses eauto| |intros ?; within_solve fail].
  intros e. rewrite bind_get. destruct (key_store e) eqn:Hk; [done|].
  destruct (negb _); [done|]. destruct sgx_ecc256_create_key_pair as [st [sk pk]].
  destruct (negb _); [done|]. intros _ k i p. rewrite bind_modify. unfold update; cbn.
  intros [= <-]. cbn. by rewrite lookup_empty.
Qed.

(** ** Admission *)

(** Nothing happens to the server. *)
Definition server_same : relation E := same raft_rpc_request_handler.

Lemma receive_report_true i p (e e' : E) b :
  receive_report i p e = (Ok b, e') →
  raft_rpc_request_handler e' = raft_rpc_request_handler e ∧
  (b = true → ∃ k pk, key_store e' = Some k ∧ store_ k !! i = Some pk ∧ attested pk).
Proof.
  unfold receive_report.
  destruct (validate_verification_report p) as [[q|]| |] eqn:Hq; [rewrite bind_lift|by intros [= <- <-]|done..].
  destruct (report_data q) as [pk| |] eqn:Hpk; [rewrite bind_lift|done..].
  unfold get_store, deref. rewrite bind_assoc, bind_gets. destruct (key_store e) as [k|] eqn:Hk; [|done].
  rewrite bind_ret. unfold upd_store. rewrite bind_modify. unfold mret, M_ret. intros [= <- <-].
  unfold update; cbn. rewrite Hk. cbn. split; [done|]. intros _.
  destruct (validate_sound p q Hq) as (text & Hg). eexists _, pk. split; [done|].
  split; [apply lookup_insert_eq|]. by exists p, text, q.
Qed.

Lemma receive_report_same i p : within server_same (receive_report i p).
Proof.
  unfold receive_report, get_store, deref, upd_store.
  within_solve ltac:(apply within_modify; intros ?; reflexivity).
Qed.

Lemma server_id_same : within server_same server_id.
Proof.
  intros e. unfold server_id, on_server, same.
  destruct (raft_rpc_request_handler e) as [w|] eqn:Hw; [|done]. cbn. by rewrite drop_all.
Qed.

(** What the store holds is not touched. *)
Definition keys_same : relation E := same (λ e, store_ <$> key_store e).

Lemma perform_keys ef : within keys_same (perform ef).
Proof.
  unfold perform, send, encrypt, next_req_uid, raw_send, rpc_client_create, call_host, deref.
  within_solve ltac:(apply within_modify; intros ?; reflexivity).
Qed.

Lemma on_server_keys {A} (m : M W A) : within keys_same (on_server m).
Proof. apply within_on_server; [typeclasses eauto|by intros e w|apply perform_keys]. Qed.
Hint Resolve @on_server_keys : within.

(** The part of [handle_key_xchg_resp] behind the report. *)
Definition after_report (i : Z) (b : bool) : M E unit :=
  k ← get_store;
  match temp_connections_ k !! i with
  | None => faulting dangling_ref
  | Some (client, endpoint) =>
      upd_store (λ k, k <| temp_connections_ ::= delete i |>) ;;
      rpc_client_destroy client ;;
      when b (request_add_srv i endpoint)
  end.

Ltac frame_store := apply within_modify; intros e; unfold keys_same, server_same, same, update; cbn;
  by destruct (key_store e).

Lemma after_report_keys i b : within keys_same (after_report i b).
Proof.
  unfold after_report, get_store, deref, upd_store, rpc_client_destroy, call_host, request_add_srv.
  within_solve frame_store.
Qed.

Lemma after_refusal_same i : within server_same (after_report i false).
Proof.
  unfold after_report, get_store, deref, upd_store, rpc_client_destroy, call_host. cbn [when].
  within_solve frame_store.
Qed.

(** C17: the key exchange proposes only servers with an attested key.  When an
    answer to a key exchange, or a client's request to add a server, changes
    anything in the raft server, the key store holds an attested key for the
    server in question.  This is about these two paths: an add_server_request
    that arrives as a raft message does not come past the key store. *)
Theorem exchange_requires_attestation (e : E) (payload exception endpoint : list byte) (i : Z) :
  keys_attested e →
  (raft_rpc_request_handler (handle_key_xchg_resp payload exception e).2 ≠ raft_rpc_request_handler e →
   ∃ pk, (store_ <$> key_store (handle_key_xchg_resp payload exception e).2) ≫=
           lookup (int_value (at_key (str "server_id") (parsed payload))) = Some pk ∧ attested pk) ∧
  (raft_rpc_request_handler (build_key_xchg_req i endpoint e).2 ≠ raft_rpc_request_handler e →
   ∃ pk, (store_ <$> key_store e) ≫= lookup i = Some pk ∧ attested pk).
Proof.
  intros He. split.
  - unfold handle_key_xchg_resp, parsed. destruct (negb _); [done|].
    destruct (json_parse payload) as [rsp|]; [|done]. cbn [default].
    set (srv := int_value _). set (rep := c_str _).
    destruct (receive_report srv rep e) as [[b|x|u] e1] eqn:Hr.
    + rewrite (bind_step _ _ _ _ _ Hr). fold (after_report srv b).
      destruct (receive_report_true _ _ _ _ _ Hr) as [Hs Hk]. destruct b.
      * intros _. destruct (Hk eq_refl) as (k & pk & Hk1 & Hk2 & Hpk). exists pk. split; [|done].
        by rewrite (after_report_keys srv true e1), Hk1.
      * by rewrite (after_refusal_same srv e1), Hs.
    + unfold mbind, M_bind. rewrite Hr. intros [].
      pose proof (receive_report_same srv rep e) as Hn. by rewrite Hr in Hn.
    + unfold mbind, M_bind. rewrite Hr. intros [].
      pose proof (receive_report_same srv rep e) as Hn. by rewrite Hr in Hn.
  - unfold build_key_xchg_req. destruct (key_store e) as [k|] eqn:Hk; cycle 1.
    { unfold query_server, get_store, deref, mbind, M_bind, gets. by rewrite Hk. }
    rewrite (bind_step (query_server i) _ e (store_ k !! i) e);
      [|unfold query_server, get_store, deref, mbind, M_bind, gets; by rewrite Hk].
    destruct (store_ k !! i) as [pk|] eqn:Hi.
    { intros _. exists pk. split; [done|by eapply He]. }
    match goal with |- raft_rpc_request_handler (?m e).2 ≠ _ → _ =>
      assert (within server_same m) as Hm; [|intros []; apply Hm] end.
    unfold send_xchg_request, next_req_uid, raw_send, rpc_client_create, call_host, upd_store,
      get_store, deref.
    apply within_bind; [typeclasses eauto|apply server_id_same|intros ?].
    within_solve ltac:(apply within_modify; intros ?; reflexivity).
Qed.
End keys.

(** ** A run of the enclave *)

Section runs.
Context `{FreshMem} `{evp} `{codecs} `{openssl} `{sgx}.

(** The calls of the host, from the first on. *)
Inductive host_call :=
  | HGetReport (target_info : list byte)
  | HRegister (http_packet : list byte)
  | HRun (srv_id : Z) (address : list byte) (port now : Z) (rnd : nat → Z)
  | HRequest (message : list byte)
  | HResume (uid : Z) (t : er_message_type)
  | HFetch (msg_id : Z) (buffer : list byte)
  | HResponse (uid : Z) (msg : list byte) (ex : option (list byte))
  | HTimer (uid : Z) (success : bool)
  | HCommit.

Definition run_call (c : host_call) : M raft_enclave unit :=
  match c with
  | HGetReport t => ecall_get_report t ;; mret tt
  | HRegister p => ecall_register_verification_report p ;; mret tt
  | HRun i a port now rnd => ecall_raft_instance_run i a port now rnd
  | HRequest m => ecall_handle_rpc_request m ;; mret tt
  | HResume uid t => resume_client_request uid t ;; mret tt
  | HFetch i b => ecall_fetch_rpc_response i b ;; mret tt
  | HResponse uid m ex => ecall_rpc_response uid m ex
  | HTimer uid s => ecall_timer_expired_callback uid s
  | HCommit => ecall_raft_instance_commit_bg
  end.

Hint Resolve @deref_grows @on_server_grows @perform_grows @get_report_grows
  @handle_key_xchg_resp_grows @handle_client_request_grows @handle_system_request_grows
  @handle_raft_message_grows @publish_grows : within.
Hint Extern 2 (within store_grows (upd_store _)) =>
  (apply other_fields_grow; intros ?; reflexivity) : within.
Hint Extern 3 (within store_grows (modify _)) =>
  (apply within_modify; intros ?; apply keeps_other; reflexivity) : within.

Lemma run_call_grows c : within store_grows (run_call c).
Proof.
  destruct c; cbn [run_call]; unfold ecall_handle_rpc_request, resume_client_request,
    ecall_fetch_rpc_response, ecall_rpc_response, handle_system_resp, handle_raft_response, complete,
    ecall_timer_expired_callback, ecall_raft_instance_commit_bg, ecall_register_verification_report,
    register_report, get_store, ecall_raft_instance_run, run_raft_instance; within_solve fail.
Qed.

(** C16: whatever the host calls, in whatever order, every key in the key
    store was taken from a quote that a report calls genuine; the first
    Content-Length bytes of the text of this report, the length being the one
    its packet states, are signed with the key of a certificate whose chain,
    from the same packet, OpenSSL accepts under Intel's root certificate. *)
Theorem stored_keys_attested (cs : list host_call) (uids : nat → Z) :
  keys_attested (foldl (λ e c, (run_call c e).2) (empty_enclave uids) cs).
Proof.
  assert (keys_attested (empty_enclave uids : raft_enclave)) as Hk by done.
  revert Hk. generalize (empty_enclave uids : raft_enclave). induction cs as [|c cs IH]; intros e Hk; [done|].
  apply IH, run_call_grows, Hk.
Qed.
End runs.

(** ** Examples *)

#[local] Existing Instances zero_mem toy_evp toy_codecs toy_openssl.

Definition sample_key : list byte := replicate 64 Byte.x41.

(** A leader whose key store knows the key of server 4. *)
Definition keyed_enclave : raft_enclave :=
  (empty_enclave Z.of_nat) <| raft_rpc_request_handler := Some server1_leader |>
    <| key_store := Some (mk_key_store [] [] [] {[4 := sample_key]} ∅) |>.

Lemma exchange_requires_attestation_witness :
  ∃ pk, (store_ <$> key_store keyed_enclave) ≫= lookup 4 = Some pk ∧ attested pk.
Proof.
  assert (attested sample_key) as Hk.
  { destruct (validate_sound sample_packet sample_quote sample_packet_valid) as (text & Hg).
    exists sample_packet, text, sample_quote. split; [exact Hg|vm_compute; reflexivity]. }
  apply (exchange_requires_attestation keyed_enclave [] [] (sc_endpoint (sample_srv 4)) 4).
  - intros k i pk [= <-]. cbn. intros [<- <-]%lookup_singleton_Some. exact Hk.
  - intros Hc%(f_equal (fmap (λ w, length (out w)))). vm_compute in Hc. discriminate Hc.
Defined.

(** The path of a raft message: server 5, of which the key store knows nothing,
    is taken up for joining. *)
Definition add_server5 : req_msg := mk_req_msg 1 add_server_request 2 1 0 0 0
  [mk_log_entry 1 cluster_server (match srv_config_serialize (sample_srv 5) with Ok b => b | _ => buf_of [] end)].

Example raft_message_skips_key_store :
  ∃ m c, serialize_req add_server5 = Ok m ∧ raft_encrypt 7 (bytes m) = Ok c ∧
    let e' := (handle_raft_message c keyed_enclave).2 in
    p_id <$> (raft_rpc_request_handler e' ≫= srv_to_join_) = Some 5 ∧
    (store_ <$> key_store e') ≫= lookup 5 = None.
Proof.
  eexists _, _. split; [vm_compute; reflexivity|]. split; [vm_compute; reflexivity|].
  vm_compute. split; reflexivity.
Qed.

Definition toy_sgx : sgx := {|
  sgx_ecc256_open_context := 0;
  sgx_ecc256_create_key_pair := (0, ([], sample_key));
  sgx_create_report _ d := (0, d);
|}.
#[local] Existing Instance toy_sgx.

(** A start-up that registers its report and then gets the key of server 2. *)
Definition started : raft_enclave := foldl (λ e c, (run_call c e).2) (empty_enclave Z.of_nat)
  [HGetReport []; HRegister sample_packet; HRun 1 (str "127.0.0.1") 9001 0 Z.of_nat;
   HRequest (tagged system_key_exchange_req (json_dump (JObject
     [(str "report", JString sample_packet); (str "server_id", JNumber 2)])))].

Example started_stores_key :
  (store_ <$> key_store started) = Some {[2 := sample_key]} ∧
  (self_report_ <$> key_store started) = Some sample_packet.
Proof. vm_compute. split; reflexivity. Qed.
