(* ===== verification/Start.v ===== *)
(** * Start-up of the host

    [main] of src/raft_app/raft_app.cpp with what it calls: the accept loop of
    port/asio_rpc_listener.hxx, [initialize_enclave] of
    sgx_utils/sgx_utils.cpp and [get_enclave_quote] of
    system/enclave_quote.cxx.  The SGX runtime, the files and asio are the
    environment ([platform]). *)

From S2P Require Import Prelude Buffer Transport Json Attestation Host Ias Config Messages LogStore StateMachine StateMgr Scheduler Peer Server Membership Requests Responses Enclave Samples KeyExchange.
From Stdlib Require String.
Import String.StringSyntax.

(** ** The accept loop *)

Module Listener.

(** [serving] are the sessions that were started and not closed; one accept at
    most is outstanding, for the session it names. *)
Record asio_rpc_listener := mk_listener {
  port_ : Z;
  is_open : bool;
  sid_counter : Z;
  active_sessions_ : gset Z;
  accepting : option Z;
  serving : list Z;
}.
#[global] Instance eta_listener : Eta asio_rpc_listener := λ l, mk_listener
  (port_ l) (is_open l) (sid_counter l) (active_sessions_ l) (accepting l) (serving l).
#[local] Abbreviation L := asio_rpc_listener.

Definition new_listener (port : Z) : L := mk_listener port true 0 ∅ None [].

Definition start : M L unit :=
  l ← gets id;
  if negb (is_open l) then mret tt
  else
    let sid := u32 (sid_counter l + 1) in
    sid_counter <~ sid ;;
    modify (update active_sessions_ (λ s, s ∪ {[sid]})) ;;
    accepting <~ Some sid.

Definition listen : M L unit := start.

(** The handler of [async_accept]: a session that was not accepted stays in
    the table. *)
Definition accepted (sid : Z) (ok : bool) : M L unit :=
  accepting <~ None ;;
  when ok (modify (update serving (λ l, l ++ [sid]))) ;;
  start.

(** Called by a session when it closes. *)
Definition remove_session (session_id : Z) : M L unit :=
  modify (update active_sessions_ (λ s, s ∖ {[session_id]})).

Definition stop : M L unit := is_open <~ false.

(** What happens to a listener: the accept completes, a session closes, the
    process ends. *)
Inductive listener_step (l : L) : L → Prop :=
  | step_accepted sid ok :
      accepting l = Some sid → listener_step l (accepted sid ok l).2
  | step_closed sid l1 l2 :
      serving l = l1 ++ sid :: l2 →
      listener_step l (remove_session sid (l <| serving := l1 ++ l2 |>)).2
  | step_stop : listener_step l (stop l).2.

(** Every session that runs, and the one being accepted, is in the table, under
    a number of its own. *)
Record listener_inv (l : L) : Prop := {
  inv_table : ∀ sid, sid ∈ serving l ++ option_list (accepting l) → sid ∈ active_sessions_ l;
  inv_unique : NoDup (serving l ++ option_list (accepting l));
  inv_issued : ∀ sid, sid ∈ serving l ++ option_list (accepting l) → 1 ≤ sid ≤ sid_counter l;
}.

Lemma start_inv l :
  listener_inv l → accepting l = None → 0 ≤ sid_counter l < 2 ^ 32 - 1 →
  listener_inv (start l).2 ∧ sid_counter (start l).2 ≤ sid_counter l + 1 ∧ sid_counter l ≤ sid_counter (start l).2.
Proof.
  intros [Ht Hu Hi] Ha Hc. unfold start. rewrite bind_get. destruct (is_open l); cbn; [|split; [by split|lia]].
  rewrite u32_small, !bind_modify by lia. rewrite Ha in *. cbn in *. rewrite app_nil_r in *. split; [|lia]. split; cbn.
  - intros sid [Hs|Hs]%elem_of_app; [|set_solver]. apply elem_of_union_l. auto.
  - apply NoDup_app. split; [done|]. split; [|apply NoDup_singleton].
    intros x Hx ->%list_elem_of_singleton. specialize (Hi _ Hx). lia.
  - intros sid [Hs|Hs]%elem_of_app; [specialize (Hi _ Hs); lia|].
    apply list_elem_of_singleton in Hs as ->. lia.
Qed.

Lemma step_inv l l' :
  listener_step l l' → listener_inv l → 0 ≤ sid_counter l < 2 ^ 32 - 1 →
  listener_inv l' ∧ sid_counter l ≤ sid_counter l' ≤ sid_counter l + 1.
Proof.
  intros Hstep [Ht Hu Hi] Hc. destruct Hstep as [sid ok Ha|sid l1 l2 Hs|].
  - unfold accepted. rewrite bind_modify. rewrite Ha in *. cbn in Ht, Hu, Hi.
    assert (∀ l1, listener_inv l1 → accepting l1 = None → sid_counter l1 = sid_counter l →
      listener_inv (start l1).2 ∧ sid_counter l ≤ sid_counter (start l1).2 ≤ sid_counter l + 1) as Hst.
    { intros l1 H1 H2 H3. rewrite <-H3 in *. destruct (start_inv l1) as (? & ? & ?); [done..|]. by split. }
    destruct ok; cbn [when]; [rewrite bind_modify|rewrite bind_ret]; apply Hst; try done;
      split; cbn; rewrite ?app_nil_r; try done.
    + intros x Hx. apply Ht. set_solver.
    + by apply NoDup_app in Hu as [? _].
    + intros x Hx. apply Hi. set_solver.
  - cbn. split; [|lia]. rewrite Hs in *. rewrite <-app_assoc in *. cbn in *.
    assert (NoDup (sid :: l1 ++ l2 ++ option_list (accepting l))) as Hn
      by (by rewrite Permutation_middle).
    apply NoDup_cons in Hn as [Hno Hn]. split; cbn; rewrite <-?app_assoc.
    + intros x Hx. apply elem_of_difference. split; [apply Ht; set_solver|].
      intros ->%elem_of_singleton. done.
    + done.
    + intros x Hx. apply Hi. set_solver.
  - cbn. split; [by split|lia].
Qed.

(** The listener knows its sessions.  As long as fewer than 2^32
    connections have come, whatever order connections open, fail and close in,
    every running session and the one being accepted is in the table, and no
    two share a number, so closing one removes no other. *)
Theorem sessions_tracked (port : Z) (k : nat) (l : asio_rpc_listener) :
  nsteps listener_step k (listen (new_listener port)).2 l → Z.of_nat k < 2 ^ 32 - 2 → listener_inv l.
Proof.
  intros Hn Hk. enough (listener_inv l ∧ 0 ≤ sid_counter l ≤ Z.of_nat k + 1) by tauto.
  revert l Hn. induction k as [|k IH]; intros l Hn.
  - inversion Hn; subst. unfold listen. destruct (start_inv (new_listener port)) as (Hi & H1 & H2); try done.
    split; cbn; [set_solver|constructor|set_solver].
  - apply nsteps_inv_r in Hn as (l1 & Hn & Hstep). destruct (IH ltac:(lia) l1 Hn) as [Hi Hc].
    destruct (step_inv _ _ Hstep Hi) as [? ?]; [lia|]. split; [done|lia].
Qed.

Lemma sessions_tracked_witness :
  listener_inv (remove_session 1 ((accepted 2 false (accepted 1 true (listen (new_listener 9001)).2).2).2
    <| serving := [] |>)).2.
Proof.
  apply (sessions_tracked 9001 3); [|lia].
  eapply nsteps_l; [apply (step_accepted _ 1 true); reflexivity|].
  eapply nsteps_l; [apply (step_accepted _ 2 false); reflexivity|].
  eapply nsteps_l; [apply (step_closed _ 1 [] []); reflexivity|]. apply nsteps_O.
Defined.

(** The accept that failed has left its number behind. *)
Example failed_accept_kept :
  active_sessions_ (accepted 1 false (listen (new_listener 9001)).2).2 = {[1; 2]}.
Proof. reflexivity. Qed.
End Listener.

(** ** The platform *)

Definition SGX_ERROR_BUSY : Z := 0x400a.
Definition SGX_ERROR_ENCLAVE_CRASHED : Z := 0x1006.
Definition EXIT_FAILURE : Z := 1.
Definition token_size : nat := 1024.

(** The calls [main] makes out of the program: a status and what they write.
    [secret.h] and the machine are part of it. *)
Record platform := mk_platform {
  bind_error : Z;
  can_read : bool;
  can_write : bool;
  can_reopen : bool;
  write_num : nat;
  (* status, updated, token *)
  sgx_create_enclave : list byte → Z * bool * list byte;
  sgx_init_quote : nat → Z * list byte;
  sgx_calc_quote_size : Z * Z;
  (* report, spid, quote_size *)
  sgx_get_quote : list byte → list byte → Z → Z * list byte;
  hex_decode : list byte → outcome (list byte);
  intel_api_spid : list byte;
  intel_api_primary : list byte;
  service : replies;
  hardware_concurrency : Z;
  clock : Z;
  random : nat → Z;
  client_uids : nat → Z;
}.

(** The globals of the process, and what it has done. *)
Record app := mk_app {
  global_enclave : option raft_enclave;
  global_rpc_listener : option Listener.asio_rpc_listener;
  attestation_verification_report : list byte;
  token_file : option (list byte);
  init_calls : nat;
  pauses : nat;
  commit_thread : bool;
  thread_pool : Z;
}.
#[global] Instance eta_app : Eta app := λ a, mk_app (global_enclave a) (global_rpc_listener a)
  (attestation_verification_report a) (token_file a) (init_calls a) (pauses a) (commit_thread a)
  (thread_pool a).
Definition new_app (file : option (list byte)) : app := mk_app None None [] file 0 0 false 0.

Section main.
Context `{FreshMem} `{evp} `{codecs} `{openssl} `{sgx} (p : platform).

(** A call into the enclave.  An exception that leaves it ends the enclave. *)
Definition ecall {A} (m : M raft_enclave A) : M app (Z * option A) := λ a,
  match global_enclave a with
  | None => (Fault null_deref, a)
  | Some e =>
      let '(r, e') := m e in
      let a' := a <| global_enclave := Some e' |> in
      match r with
      | Ok x => (Ok (SGX_SUCCESS, Some x), a')
      | Throw _ => (Ok (SGX_ERROR_ENCLAVE_CRASHED, None), a')
      | Fault u => (Fault u, a')
      end
  end.

(** *** [initialize_enclave] *)

(** Step 1: the token, and whether the file is open. *)
Definition read_token : M app (list byte * bool) :=
  a ← gets id;
  let zero := replicate token_size Byte.x00 in
  match token_file a with
  | Some d =>
      if can_read p then
        let d := take token_size d in
        mret (if (length d =? token_size)%nat then d else zero, true)
      else if can_write p then token_file <~ Some [] ;; mret (zero, true)
      else mret (zero, false)
  | None =>
      if can_write p then token_file <~ Some [] ;; mret (zero, true)
      else mret (zero, false)
  end.

(** Step 3. *)
Definition save_token (updated opened : bool) (token : list byte) : M app unit :=
  if negb updated || negb opened then mret tt
  else if negb (can_reopen p) then mret tt
  else token_file <~ Some (take (write_num p) token).

Definition initialize_enclave : M app Z :=
  '(token, opened) ← read_token;
  let '(ret, updated, token) := sgx_create_enclave p token in
  if negb (ret =? SGX_SUCCESS) then mret (-1)
  else
    global_enclave <~ Some (empty_enclave (client_uids p)) ;;
    save_token updated opened token ;;
    mret 0.

(** *** [get_enclave_quote] *)

(** The loop around [sgx_init_quote]; three rounds are enough. *)
Fixpoint init_quote (fuel : nat) (retry_counter : Z) : M app (Z * list byte) :=
  match fuel with
  | O => faulting diverges
  | S fuel =>
      n ← gets init_calls;
      init_calls <~ S n ;;
      let '(status, target_info) := sgx_init_quote p n in
      if negb (status =? SGX_ERROR_BUSY) then mret (status, target_info)
      else
        let retry_counter := retry_counter + 1 in
        if retry_counter <? 3 then modify (update pauses S) ;; init_quote fuel retry_counter
        else mret (status, target_info)
  end.

Definition check_status (status : Z) : M app unit :=
  if status =? SGX_SUCCESS then mret tt else throw sgx_error.

Definition get_enclave_quote : M app (list byte) :=
  '(status, target_info) ← init_quote 3 0;
  check_status status ;;
  '(status, ret) ← ecall (ecall_get_report target_info);
  check_status status ;;
  match ret with
  | None => throw sgx_error
  | Some (sgx_ret, report) =>
      check_status sgx_ret ;;
      let '(status, quote_size) := sgx_calc_quote_size p in
      check_status status ;;
      spid ← lift (hex_decode p (intel_api_spid p));
      let '(status, quote) := sgx_get_quote p (default [] report) spid quote_size in
      check_status status ;;
      mret quote
  end.

(** *** [main] *)

(** [srv_id], or the usage message. *)
Definition parse_args (argv : list (list byte)) : option Z :=
  match argv with
  | [] | [_] => Some 1
  | [_; id] => Some (strtoul10 id `mod` 2 ^ 8)
  | _ => None
  end.

(** From [hardware_concurrency] to the size of the pool. *)
Definition pool_size (cpu_cnt : Z) : Z :=
  let cpu_cnt := u32 (cpu_cnt - 1) in
  if cpu_cnt <? 1 then 1 else cpu_cnt.

(** Registering the report; [None]: go on. *)
Definition attest : M app (option Z) :=
  quote ← get_enclave_quote;
  rep ← lift (report DEVELOPMENT (intel_api_primary p) (base64_encode quote) (service p));
  attestation_verification_report <~ rep ;;
  '(status, result) ← ecall (ecall_register_verification_report (c_str rep));
  if negb (status =? SGX_SUCCESS) then mret (Some EXIT_FAILURE)
  else match result with
       | Some true => mret None
       | _ => mret (Some EXIT_FAILURE)
       end.

(** Running the instance, the listener and the threads. *)
Definition serve (srv_id : Z) : M app (option Z) :=
  '(status, _) ← ecall (ecall_raft_instance_run srv_id (str "127.0.0.1") (u16 (9000 + srv_id))
                          (clock p) (random p));
  if negb (status =? SGX_SUCCESS) then mret (Some EXIT_FAILURE)
  else
    a ← gets id;
    (match global_rpc_listener a with
     | None => faulting null_deref
     | Some l => global_rpc_listener <~ Some (Listener.listen l).2
     end) ;;
    commit_thread <~ true ;;
    thread_pool <~ pool_size (hardware_concurrency p) ;;
    mret None.

(** [main] up to the point where it waits for its threads ([None]), or its
    exit code. *)
Definition main (argv : list (list byte)) : M app (option Z) :=
  match parse_args argv with
  | None => mret (Some EXIT_FAILURE)
  | Some srv_id =>
      (if negb (bind_error p =? 0) then throw system_error else mret tt) ;;
      global_rpc_listener <~ Some (Listener.new_listener (u16 (9000 + srv_id))) ;;
      r ← initialize_enclave;
      if r <? 0 then mret (Some 1)
      else
        r ← attest;
        match r with
        | Some code => mret (Some code)
        | None => serve srv_id
        end
  end.

(** The end of [main], when no thread has work left. *)
Definition main_exit : M app Z :=
  modify (update global_rpc_listener (fmap (λ l, (Listener.stop l).2))) ;; mret 0.

(** ** An enclave serves only when it is attested *)

(** The enclave's own report: a genuine quote that carries its public key. *)
Definition attested_self (e : raft_enclave) : Prop :=
  ∃ k text quote, key_store e = Some k ∧ genuine (self_report_ k) text quote ∧
    report_data quote = Ok (self_public_ k).

Lemma register_report_true packet (e e' : raft_enclave) :
  register_report packet e = (Ok true, e') → attested_self e'.
Proof.
  unfold register_report, get_store, deref. rewrite bind_assoc, bind_gets.
  destruct (key_store e) as [k|] eqn:Hk; [rewrite bind_ret|done]. case_bool_decide; [|done]. cbn [negb].
  destruct (validate_verification_report packet) as [[q|]| |] eqn:Hq; [rewrite bind_lift|done..].
  destruct (report_data q) as [d| |] eqn:Hd; [rewrite bind_lift|done..].
  case_bool_decide as Hpk; [|done]. unfold upd_store. rewrite bind_modify. intros [= <-].
  destruct (validate_sound packet q Hq) as (text & Hg). eexists _, text, q.
  unfold update; cbn. rewrite Hk. cbn. by rewrite Hd, Hpk.
Qed.

(** The server of the process, and the connection its listener waits for. *)
Definition server (a : app) := global_enclave a ≫= raft_rpc_request_handler.
Definition listening (a : app) := global_rpc_listener a ≫= Listener.accepting.
Definition quiet : relation app := same (λ a, (server a, listening a)).

Lemma ecall_quiet {A} (m : M raft_enclave A) : within server_same m → within quiet (ecall m).
Proof.
  intros Hm a. unfold ecall, quiet, same, server. destruct (global_enclave a) as [e|] eqn:He; cbn [snd]; [|by rewrite He].
  specialize (Hm e). destruct (m e) as [[x|x|u] e']; cbn in *; by rewrite Hm.
Qed.

Lemma get_report_same t : within server_same (ecall_get_report (LS := in_memory_log_store) (SM := echo_state_machine) t).
Proof.
  unfold ecall_get_report, ensure_key_store, get_store, deref.
  within_solve ltac:(apply within_modify; intros ?; reflexivity).
Qed.

Lemma register_same packet :
  within server_same (ecall_register_verification_report (LS := in_memory_log_store) (SM := echo_state_machine) packet).
Proof.
  unfold ecall_register_verification_report, register_report, get_store, deref, upd_store.
  within_solve ltac:(apply within_modify; intros ?; reflexivity).
Qed.

Lemma init_quote_quiet fuel n : within quiet (init_quote fuel n).
Proof.
  revert n. induction fuel as [|fuel IH]; intros n; cbn [init_quote]; [by intros a|].
  pose proof IH. within_solve ltac:(apply within_modify; intros ?; reflexivity).
Qed.

(** The loop ends, within three rounds and two pauses when it starts at zero. *)
Lemma init_quote_returns fuel n a :
  (0 < fuel)%nat → 3 ≤ n + Z.of_nat fuel →
  ∃ r a', init_quote fuel n a = (Ok r, a') ∧ (pauses a' < pauses a + fuel)%nat.
Proof.
  revert n a. induction fuel as [|fuel IH]; intros n a Hf Hn; [lia|]. cbn [init_quote].
  rewrite bind_gets, bind_modify. destruct (sgx_init_quote p _) as [st info].
  destruct (negb _); [eexists _, _; split; [done|cbn; lia]|].
  destruct (Z.ltb_spec (n + 1) 3); [|eexists _, _; split; [done|cbn; lia]].
  rewrite bind_modify. edestruct IH as (r & a' & Hr & Hp); [| |exists r, a'; split; [exact Hr|]]; [lia..|].
  cbn in Hp. lia.
Qed.

Lemma attest_quiet : within quiet attest.
Proof.
  unfold attest, get_enclave_quote, check_status.
  pose proof (init_quote_quiet 3 0). pose proof (λ t, ecall_quiet _ (get_report_same t)).
  pose proof (λ t, ecall_quiet _ (register_same t)).
  within_solve ltac:(apply within_modify; intros ?; reflexivity).
Qed.

Lemma attest_sound a a' :
  attest a = (Ok None, a') → ∃ e, global_enclave a' = Some e ∧ attested_self e.
Proof.
  unfold attest. intros (q & a1 & _ & Ha)%bind_inv_ok. apply bind_inv_ok in Ha as (rep & a2 & _ & Ha).
  rewrite bind_modify in Ha. apply bind_inv_ok in Ha as ([st res] & a3 & He & Ha).
  destruct (negb _); [done|]. destruct res as [[]|]; [injection Ha as <-|done..].
  revert He. unfold ecall. destruct (global_enclave _) as [e|]; [|done].
  destruct (ecall_register_verification_report _ e) as [[x|x|u] e'] eqn:Er; [|done..].
  intros [= _ -> <-]. exists e'. split; [done|]. by eapply register_report_true.
Qed.

Lemma perform_key_store ef : within (same key_store) (perform (LS := in_memory_log_store) (SM := echo_state_machine) ef).
Proof.
  unfold perform, send, encrypt, next_req_uid, raw_send, rpc_client_create, call_host, deref.
  within_solve ltac:(apply within_modify; intros ?; reflexivity).
Qed.

Lemma run_instance_key_store i address port now rnd :
  within (same key_store) (ecall_raft_instance_run i address port now rnd).
Proof.
  unfold ecall_raft_instance_run, run_raft_instance. pose proof perform_key_store.
  within_solve ltac:(apply within_modify; intros ?; reflexivity).
Qed.

Lemma run_instance_ok i address port now rnd e e' :
  ecall_raft_instance_run i address port now rnd e = (Ok tt, e') → raft_rpc_request_handler e' ≠ None.
Proof.
  unfold ecall_raft_instance_run, run_raft_instance. destruct (new_raft_server _ _ _ _ _ _) as [r w].
  intros (? & e1 & _ & E)%bind_inv_ok. apply bind_inv_ok in E as (? & e2 & _ & E). by injection E as <-.
Qed.

(** *** The enclave keeps its report *)

Definition self_kept : relation raft_enclave := λ e e',
  ∀ k, key_store e = Some k → self_report_ k ≠ [] →
  ∃ k', key_store e' = Some k' ∧ self_report_ k' = self_report_ k ∧ self_public_ k' = self_public_ k.
#[local] Instance self_kept_preorder : PreOrder self_kept.
Proof.
  split; unfold self_kept; [intros e k; by eauto|]. intros e1 e2 e3 H12 H23 k Hk Hr.
  destruct (H12 k Hk Hr) as (k2 & Hk2 & E1 & E2).
  rewrite <-E1 in Hr |- *. rewrite <-E2. by apply H23.
Qed.

Ltac kept := apply within_modify; intros e k Hk Hr; unfold update; cbn; rewrite ?Hk; cbn; by eauto.

Lemma on_server_kept {A} (m : M (raft_server in_memory_log_store echo_state_machine) A) :
  within self_kept (on_server m).
Proof.
  apply within_on_server; [typeclasses eauto|intros e w k Hk Hr; by eauto|].
  intros ef e k Hk Hr. exists k. by rewrite (perform_key_store ef e).
Qed.

Lemma get_report_kept t :
  within self_kept (ecall_get_report (LS := in_memory_log_store) (SM := echo_state_machine) t).
Proof.
  unfold ecall_get_report, ensure_key_store, get_store, deref.
  apply within_bind; [typeclasses eauto| |intros ?; within_solve kept].
  intros e k Hk Hr. rewrite bind_get, Hk. cbn. eauto.
Qed.

Lemma register_kept packet :
  within self_kept (ecall_register_verification_report (LS := in_memory_log_store) (SM := echo_state_machine) packet).
Proof.
  intros e k Hk Hr. unfold ecall_register_verification_report, register_report, get_store, deref.
  rewrite bind_assoc, bind_gets, Hk, bind_ret, bool_decide_eq_false_2 by done. cbn. eauto.
Qed.

Lemma receive_report_kept i packet :
  within self_kept (receive_report (LS := in_memory_log_store) (SM := echo_state_machine) i packet).
Proof. unfold receive_report, get_store, deref, upd_store. within_solve kept. Qed.

Lemma build_key_xchg_req_kept i ep :
  within self_kept (build_key_xchg_req (LS := in_memory_log_store) (SM := echo_state_machine) i ep).
Proof.
  unfold build_key_xchg_req, query_server, request_add_srv, get_store, deref, upd_store, server_id,
    rpc_client_create, send_xchg_request, next_req_uid, raw_send, call_host.
  pose proof @on_server_kept. within_solve kept.
Qed.

Lemma handle_key_xchg_resp_kept payload ex :
  within self_kept (handle_key_xchg_resp (LS := in_memory_log_store) (SM := echo_state_machine) payload ex).
Proof.
  unfold handle_key_xchg_resp, request_add_srv, get_store, deref, upd_store, rpc_client_destroy, call_host.
  pose proof @on_server_kept. pose proof receive_report_kept. within_solve kept.
Qed.

Lemma run_call_kept c : within self_kept (run_call c).
Proof.
  pose proof @on_server_kept. pose proof receive_report_kept. pose proof build_key_xchg_req_kept.
  pose proof handle_key_xchg_resp_kept. pose proof get_report_kept. pose proof register_kept.
  destruct c; cbn [run_call]; unfold ecall_handle_rpc_request, resume_client_request,
    ecall_fetch_rpc_response, ecall_rpc_response, handle_system_resp, handle_raft_response, complete,
    ecall_timer_expired_callback, ecall_raft_instance_commit_bg, handle_client_request, await,
    handle_system_request, handle_raft_message, publish, encrypt, server_id, get_store, deref; try by within_solve kept.
  intros e k Hk Hr. exists k. by rewrite (run_instance_key_store _ _ _ _ _ e).
Qed.

Definition after_calls (cs : list host_call) (e : raft_enclave) : raft_enclave :=
  foldl (λ e c, (run_call c e).2) e cs.

Lemma attested_self_kept e e' : self_kept e e' → attested_self e → attested_self e'.
Proof.
  intros Hkept (k & text & q & Hk & Hg & Hd).
  destruct (Hkept k Hk) as (k' & Hk' & Er & Ep).
  { intros E. pose proof (genuine_text _ _ _ Hg) as Ht. by rewrite E in Ht. }
  exists k', text, q. by rewrite Er, Ep.
Qed.

Lemma attested_self_forever cs e : attested_self e → attested_self (after_calls cs e).
Proof.
  revert e. induction cs as [|c cs IH]; intros e He; [done|].
  apply IH. eapply attested_self_kept; [apply run_call_kept|done].
Qed.

(** What [serve] does in an attested process. *)
Lemma serve_spec i a e :
  global_enclave a = Some e → attested_self e → server a = None → listening a = None →
  let a' := (serve i a).2 in
  (∀ e', global_enclave a' = Some e' → attested_self e') ∧
  (listening a' ≠ None → server a' ≠ None ∧ (serve i a).1 = Ok None).
Proof.
  intros He Hat Hs Hl. unfold serve.
  set (m := ecall_raft_instance_run _ _ _ _ _). destruct (m e) as [r e1] eqn:Em.
  assert (attested_self e1) as Hat1.
  { eapply attested_self_kept; [|exact Hat]. intros k Hk _. exists k. split; [|done].
    rewrite <-Hk. assert (within (same key_store) m) as Hm by apply run_instance_key_store.
    specialize (Hm e). by rewrite Em in Hm. }
  set (a1 := a <| global_enclave := Some e1 |>).
  assert (∀ e', global_enclave a1 = Some e' → attested_self e') as Ha1 by by intros e' [= <-].
  assert (listening a1 = None) as Hl1 by done.
  assert (ecall m a = (match r with Ok x => Ok (SGX_SUCCESS, Some x)
    | Throw _ => Ok (SGX_ERROR_ENCLAVE_CRASHED, None) | Fault u => Fault u end, a1)) as Ec.
  { unfold ecall. rewrite He, Em. by destruct r. }
  destruct r as [[]|x|u].
  - rewrite (bind_step _ _ _ _ _ Ec). cbn [negb Z.eqb SGX_SUCCESS]. rewrite bind_get.
    apply run_instance_ok in Em. destruct (global_rpc_listener a1) as [l|]; cbn.
    + split; [by intros e' [= <-]|]. by intros _.
    + split; [done|]. intros Hn. by destruct (Hn Hl1).
  - rewrite (bind_step _ _ _ _ _ Ec). cbn. split; [done|]. intros Hn. by destruct (Hn Hl1).
  - rewrite (bind_fault _ _ _ _ _ Ec). cbn. split; [done|]. intros Hn. by destruct (Hn Hl1).
Qed.

(** A process before it serves. *)
Definition idle (a : app) : Prop := server a = None ∧ listening a = None.

Lemma quiet_idle : subrelation quiet (keeps idle).
Proof. intros a a' [= Hs Hl] [Hi1 Hi2]. split; congruence. Qed.

Lemma initialize_idle : within (keeps idle) initialize_enclave.
Proof.
  unfold initialize_enclave, read_token, save_token.
  within_solve ltac:(apply within_modify; intros ? [? ?]; by split).
Qed.

(** What is shown of [main], of the outcome and the state it ends in. *)
Definition serves_attested (cs : list host_call) (r : outcome (option Z) * app) : Prop :=
  (listening r.2 ≠ None → server r.2 ≠ None ∧ r.1 = Ok None) ∧
  (server r.2 ≠ None → ∃ e, global_enclave r.2 = Some e ∧ attested_self (after_calls cs e)).

Lemma idle_serves cs r : idle r.2 → serves_attested cs r.
Proof. intros [Hs Hl]. split; congruence. Qed.

Lemma idle_bind {A} cs (m : M app A) k a :
  within (keeps idle) m → idle a →
  (∀ x a', m a = (Ok x, a') → idle a' → serves_attested cs (k x a')) → serves_attested cs ((m ≫= k) a).
Proof.
  intros Hm Ha Hk. specialize (Hm a Ha). destruct (m a) as [[x|x|u] a'] eqn:E.
  - rewrite (bind_step _ _ _ _ _ E). by apply Hk.
  - rewrite (bind_throw _ _ _ _ _ E). by apply idle_serves.
  - rewrite (bind_fault _ _ _ _ _ E). by apply idle_serves.
Qed.

(** C18: a process serves only after its own report was accepted.  Whatever the
    platform and the attestation service answer to [main], a process whose
    listener accepts connections runs a server, and a process that runs a
    server holds a report, genuine in the sense of [genuine] and carrying its
    own public key; no later call of the host takes it away. *)
Theorem server_runs_attested (argv : list (list byte)) (file : option (list byte)) (cs : list host_call) :
  serves_attested cs (main argv (new_app file)).
Proof.
  unfold main. destruct (parse_args argv) as [i|]; [|by apply idle_serves].
  destruct (negb (bind_error p =? 0)); [by apply idle_serves|]. rewrite bind_ret, bind_modify.
  apply idle_bind; [apply initialize_idle|done|]. intros r a1 _ Ha1.
  destruct (r <? 0); [by apply idle_serves|].
  apply idle_bind; [|done|].
  { intros a. apply quiet_idle, attest_quiet. }
  intros [code|] a2 Ea Ha2; [by apply idle_serves|].
  destruct (attest_sound _ _ Ea) as (e & He & Hat). destruct Ha2 as [Hs Hl].
  destruct (serve_spec i a2 e He Hat Hs Hl) as [H1' H2']. split; [done|]. intros Hsrv.
  unfold server in Hsrv. destruct (global_enclave (serve i a2).2) as [e'|] eqn:He'; [|done].
  exists e'. split; [done|]. by apply attested_self_forever, H1'.
Qed.
End main.

(** ** Examples *)

#[local] Existing Instances zero_mem toy_evp toy_codecs toy_openssl toy_sgx.

(** A platform where everything works, the quoting service after one retry. *)
Definition ias_packet : list byte * list byte :=
  let body := json_dump sample_report in
  (header_length ++ decimal (Z.of_nat (length body)) ++ delimiter ++
   header_signature ++ str "sig" ++ delimiter ++
   header_certificates ++ sample_pem ++ str "%0A" ++ sample_pem, body).

Definition good_platform : platform :=
  mk_platform 0 true true true token_size
    (λ token, (SGX_SUCCESS, true, token))
    (λ n, if (n =? 0)%nat then (SGX_ERROR_BUSY, []) else (SGX_SUCCESS, str "target"))
    (SGX_SUCCESS, 432) (λ _ _ _, (SGX_SUCCESS, sample_quote)) Ok (str "spid") (str "key")
    (mk_replies 0 0 0 0 0 (ias_packet.1 ++ double_delimiter ++ take 10 ias_packet.2, 0) [Byte.x00]
      (reads [drop 10 ias_packet.2] []))
    4 0 Z.of_nat Z.of_nat.

Definition booted : outcome (option Z) * app :=
  main good_platform [str "raft_app"; str "3"] (new_app None).

Example booted_serves :
  booted.1 = Ok None ∧ listening booted.2 = Some 1 ∧
  (id_ <$> server booted.2) = Some 3 ∧ pauses booted.2 = 1%nat ∧ thread_pool booted.2 = 3.
Proof. vm_compute. auto. Qed.

Lemma server_runs_attested_witness :
  serves_attested [HTimer 1 true] booted ∧ bool_decide (is_Some (server booted.2)) = true.
Proof.
  split; [|vm_compute; reflexivity].
  exact (server_runs_attested good_platform [str "raft_app"; str "3"] None [HTimer 1 true]).
Defined.

(** Where the number of processors is not known, the counter wraps around. *)
Example pool_size_unknown : pool_size 0 = 2 ^ 32 - 1 ∧ pool_size 1 = 1 ∧ pool_size 8 = 7.
Proof. vm_compute. auto. Qed.
