(* ===== verification/Frames.v ===== *)
(** * What each operation may change

    For every operation of the server, the members it touches: a relation
    between states that ignores those members holds between the state before
    and the state after, whether the operation returns, throws or faults.
    The invariants of the following files are proved by walking through the
    code with these lemmas. *)

From S2P Require Import Prelude Buffer Config Messages LogStore StateMachine StateMgr Scheduler Peer Server Membership Requests Responses.

Section frames.
Context `{FreshMem} {LS SM : Type} `{!log_store LS} `{!state_machine SM}.
#[local] Abbreviation W := (raft_server LS SM).
Context (R : relation W) `{!PreOrder R}.

Lemma within_emit `{!Ignores R out} e :
  within R (emit e).
Proof.
  unfold emit. within_solve ignored.
Qed.
#[local] Hint Resolve within_emit : within.

Lemma within_system_exit `{!Ignores R out} c :
  within R (system_exit c).
Proof.
  unfold system_exit. within_solve ignored.
Qed.
#[local] Hint Resolve within_system_exit : within.

Lemma within_fatal `{!Ignores R out} {A} c :
  within R (fatal (A := A) c).
Proof.
  unfold fatal. within_solve ignored.
Qed.
#[local] Hint Resolve within_fatal : within.

Lemma within_persist_state `{!Ignores R state_mgr_} :
  within R (persist_state).
Proof.
  unfold persist_state. within_solve ignored.
Qed.
#[local] Hint Resolve within_persist_state : within.

Lemma within_persist_config `{!Ignores R state_mgr_} c :
  within R (persist_config c).
Proof.
  unfold persist_config. within_solve ignored.
Qed.
#[local] Hint Resolve within_persist_config : within.

Lemma within_set_config `{!Ignores R config_} `{!Ignores R state_mgr_} c :
  within R (set_config c).
Proof.
  unfold set_config. within_solve ignored.
Qed.
#[local] Hint Resolve within_set_config : within.

Lemma within_mutate_config `{!Ignores R config_} `{!Ignores R state_mgr_} f :
  within R (mutate_config f).
Proof.
  unfold mutate_config. within_solve ignored.
Qed.
#[local] Hint Resolve within_mutate_config : within.

Lemma within_get_peer r :
  within R (get_peer r).
Proof.
  unfold get_peer. within_solve ignored.
Qed.
#[local] Hint Resolve within_get_peer : within.

Lemma within_set_peer `{!Ignores R peers_} `{!Ignores R srv_to_join_} r p :
  within R (set_peer r p).
Proof.
  unfold set_peer. within_solve ignored.
Qed.
#[local] Hint Resolve within_set_peer : within.

Lemma within_upd_peer `{!Ignores R peers_} `{!Ignores R srv_to_join_} r f :
  within R (upd_peer r f).
Proof.
  unfold upd_peer. within_solve ignored.
Qed.
#[local] Hint Resolve within_upd_peer : within.

Lemma within_new_peer `{!Ignores R next_obj} `{!Ignores R out} `{!Ignores R scheduler_} c :
  within R (new_peer c).
Proof.
  unfold new_peer. within_solve ignored.
Qed.
#[local] Hint Resolve within_new_peer : within.

Lemma within_send_req `{!Ignores R out} r req h :
  within R (send_req r req h).
Proof.
  unfold send_req. within_solve ignored.
Qed.
#[local] Hint Resolve within_send_req : within.

Lemma within_enable_hb `{!Ignores R scheduler_} b p :
  within R (enable_hb b p).
Proof.
  unfold enable_hb. within_solve ignored.
Qed.
#[local] Hint Resolve within_enable_hb : within.

Lemma within_enable_hb_for_peer `{!Ignores R scheduler_} p :
  within R (enable_hb_for_peer p).
Proof.
  unfold enable_hb_for_peer. within_solve ignored.
Qed.
#[local] Hint Resolve within_enable_hb_for_peer : within.

Lemma within_rand_timeout `{!Ignores R draws} :
  within R (rand_timeout).
Proof.
  unfold rand_timeout. within_solve ignored.
Qed.
#[local] Hint Resolve within_rand_timeout : within.

Lemma within_restart_election_timer `{!Ignores R scheduler_} `{!Ignores R draws} `{!Ignores R
    election_task_} :
  within R (restart_election_timer).
Proof.
  unfold restart_election_timer. within_solve ignored.
Qed.
#[local] Hint Resolve within_restart_election_timer : within.

Lemma within_stop_election_timer `{!Ignores R scheduler_} :
  within R (stop_election_timer).
Proof.
  unfold stop_election_timer. within_solve ignored.
Qed.
#[local] Hint Resolve within_stop_election_timer : within.

Lemma within_term_for_log `{!Ignores R out} i :
  within R (term_for_log i).
Proof.
  unfold term_for_log. within_solve ignored.
Qed.
#[local] Hint Resolve within_term_for_log : within.

Lemma within_create_sync_snapshot_req `{!Ignores R out} `{!Ignores R peers_} `{!Ignores R
    srv_to_join_} `{!Ignores R state_machine_} r i t c :
  within R (create_sync_snapshot_req r i t c).
Proof.
  unfold create_sync_snapshot_req. within_solve ignored.
Qed.
#[local] Hint Resolve within_create_sync_snapshot_req : within.

Lemma within_create_append_entries_req `{!Ignores R out} `{!Ignores R peers_} `{!Ignores R
    srv_to_join_} `{!Ignores R state_machine_} r :
  within R (create_append_entries_req r).
Proof.
  unfold create_append_entries_req. within_solve ignored.
Qed.
#[local] Hint Resolve within_create_append_entries_req : within.

Lemma within_request_append_entries_to `{!Ignores R out} `{!Ignores R peers_} `{!Ignores R
    srv_to_join_} `{!Ignores R state_machine_} r :
  within R (request_append_entries_to r).
Proof.
  unfold request_append_entries_to. within_solve ignored.
Qed.
#[local] Hint Resolve within_request_append_entries_to : within.

Lemma within_commit `{!Ignores R out} `{!Ignores R peers_} `{!Ignores R srv_to_join_} `{!Ignores
    R state_machine_} `{!Ignores R quick_commit_idx_} i :
  within R (commit i).
Proof.
  unfold commit. within_solve ignored.
Qed.
#[local] Hint Resolve within_commit : within.

Lemma within_request_append_entries `{!Ignores R out} `{!Ignores R peers_} `{!Ignores R
    srv_to_join_} `{!Ignores R state_machine_} `{!Ignores R quick_commit_idx_} :
  within R (request_append_entries).
Proof.
  unfold request_append_entries. within_solve ignored.
Qed.
#[local] Hint Resolve within_request_append_entries : within.

Lemma within_append_config `{!Ignores R log_store_} c :
  within R (append_config c).
Proof.
  unfold append_config. within_solve ignored.
Qed.
#[local] Hint Resolve within_append_config : within.

Lemma within_become_leader `{!Ignores R out} `{!Ignores R peers_} `{!Ignores R srv_to_join_}
    `{!Ignores R state_machine_} `{!Ignores R quick_commit_idx_} `{!Ignores R scheduler_}
    `{!Ignores R role_} `{!Ignores R leader_} `{!Ignores R config_} `{!Ignores R state_mgr_}
    `{!Ignores R config_changing_} `{!Ignores R log_store_} :
  within R (become_leader).
Proof.
  unfold become_leader. within_solve ignored.
Qed.
#[local] Hint Resolve within_become_leader : within.

Lemma within_become_follower `{!Ignores R peers_} `{!Ignores R srv_to_join_} `{!Ignores R
    scheduler_} `{!Ignores R role_} `{!Ignores R draws} `{!Ignores R election_task_} :
  within R (become_follower).
Proof.
  unfold become_follower. within_solve ignored.
Qed.
#[local] Hint Resolve within_become_follower : within.

Lemma within_update_term `{!Ignores R peers_} `{!Ignores R srv_to_join_} `{!Ignores R
    scheduler_} `{!Ignores R role_} `{!Ignores R draws} `{!Ignores R election_task_} `{!Ignores
    R state_} `{!Ignores R election_completed_} `{!Ignores R votes_granted_} `{!Ignores R
    voted_servers_} `{!Ignores R state_mgr_} t :
  within R (update_term t).
Proof.
  unfold update_term. within_solve ignored.
Qed.
#[local] Hint Resolve within_update_term : within.

Lemma within_request_vote `{!Ignores R out} `{!Ignores R peers_} `{!Ignores R srv_to_join_}
    `{!Ignores R state_machine_} `{!Ignores R quick_commit_idx_} `{!Ignores R scheduler_}
    `{!Ignores R role_} `{!Ignores R leader_} `{!Ignores R config_} `{!Ignores R state_mgr_}
    `{!Ignores R config_changing_} `{!Ignores R log_store_} `{!Ignores R state_} `{!Ignores R
    votes_granted_} `{!Ignores R voted_servers_} `{!Ignores R election_completed_} :
  within R (request_vote).
Proof.
  unfold request_vote. within_solve ignored.
Qed.
#[local] Hint Resolve within_request_vote : within.

Lemma within_add_server `{!Ignores R next_obj} `{!Ignores R out} `{!Ignores R scheduler_}
    `{!Ignores R srv_to_join_} `{!Ignores R peers_} s :
  within R (add_server s).
Proof.
  unfold add_server. within_solve ignored.
Qed.
#[local] Hint Resolve within_add_server : within.

Lemma within_remove_servers `{!Ignores R scheduler_} `{!Ignores R peers_} `{!Ignores R
    state_mgr_} `{!Ignores R out} c l :
  within R (remove_servers c l).
Proof.
  induction l as [|i l IH]; cbn [remove_servers]; within_solve ignored.
Qed.
#[local] Hint Resolve within_remove_servers : within.

Lemma within_reconfigure `{!Ignores R next_obj} `{!Ignores R out} `{!Ignores R scheduler_}
    `{!Ignores R srv_to_join_} `{!Ignores R peers_} `{!Ignores R state_mgr_} `{!Ignores R
    config_} c :
  within R (reconfigure c).
Proof.
  unfold reconfigure. within_solve ignored.
Qed.
#[local] Hint Resolve within_reconfigure : within.

Lemma within_on_retryable_req_err `{!Ignores R out} o q :
  within R (on_retryable_req_err o q).
Proof.
  unfold on_retryable_req_err. within_solve ignored.
Qed.
#[local] Hint Resolve within_on_retryable_req_err : within.

Lemma within_sync_log_to_new_srv `{!Ignores R out} `{!Ignores R peers_} `{!Ignores R
    srv_to_join_} `{!Ignores R state_machine_} `{!Ignores R quick_commit_idx_} `{!Ignores R
    log_store_} `{!Ignores R config_changing_} i :
  within R (sync_log_to_new_srv i).
Proof.
  unfold sync_log_to_new_srv. within_solve ignored.
Qed.
#[local] Hint Resolve within_sync_log_to_new_srv : within.

Lemma within_invite_srv_to_join_cluster `{!Ignores R out} :
  within R (invite_srv_to_join_cluster).
Proof.
  unfold invite_srv_to_join_cluster. within_solve ignored.
Qed.
#[local] Hint Resolve within_invite_srv_to_join_cluster : within.

Lemma within_rm_srv_from_cluster `{!Ignores R out} `{!Ignores R peers_} `{!Ignores R
    srv_to_join_} `{!Ignores R state_machine_} `{!Ignores R quick_commit_idx_} `{!Ignores R
    log_store_} `{!Ignores R config_changing_} i :
  within R (rm_srv_from_cluster i).
Proof.
  unfold rm_srv_from_cluster. within_solve ignored.
Qed.
#[local] Hint Resolve within_rm_srv_from_cluster : within.

Lemma within_on_snapshot_completed `{!Ignores R last_snapshot_} `{!Ignores R log_store_}
    `{!Ignores R snp_in_progress_} s r f :
  within R (on_snapshot_completed s r f).
Proof.
  unfold on_snapshot_completed. within_solve ignored.
Qed.
#[local] Hint Resolve within_on_snapshot_completed : within.

Lemma within_find_config n i c :
  within R (find_config n i c).
Proof.
  revert c. induction n as [|n IH]; intros c; cbn [find_config]; within_solve ignored.
Qed.
#[local] Hint Resolve within_find_config : within.

Lemma within_take_snapshot `{!Ignores R out} `{!Ignores R state_machine_} `{!Ignores R
    last_snapshot_} `{!Ignores R log_store_} `{!Ignores R snp_in_progress_} i :
  within R (take_snapshot i).
Proof.
  unfold take_snapshot. within_solve ignored.
Qed.
#[local] Hint Resolve within_take_snapshot : within.

Lemma within_snapshot_and_compact `{!Ignores R out} `{!Ignores R state_machine_} `{!Ignores R
    last_snapshot_} `{!Ignores R log_store_} `{!Ignores R snp_in_progress_} i :
  within R (snapshot_and_compact i).
Proof.
  unfold snapshot_and_compact. within_solve ignored.
Qed.
#[local] Hint Resolve within_snapshot_and_compact : within.

Lemma within_commit_config_entry `{!Ignores R next_obj} `{!Ignores R out} `{!Ignores R
    scheduler_} `{!Ignores R srv_to_join_} `{!Ignores R peers_} `{!Ignores R state_mgr_}
    `{!Ignores R config_} `{!Ignores R config_changing_} `{!Ignores R catching_up_} b :
  within R (commit_config_entry b).
Proof.
  unfold commit_config_entry. within_solve ignored.
Qed.
#[local] Hint Resolve within_commit_config_entry : within.

Lemma within_commit_one `{!Ignores R next_obj} `{!Ignores R out} `{!Ignores R scheduler_}
    `{!Ignores R srv_to_join_} `{!Ignores R peers_} `{!Ignores R state_mgr_} `{!Ignores R
    config_} `{!Ignores R config_changing_} `{!Ignores R catching_up_} `{!Ignores R
    sm_commit_index_} `{!Ignores R state_machine_} `{!Ignores R last_snapshot_} `{!Ignores R
    log_store_} `{!Ignores R snp_in_progress_} :
  within R (commit_one).
Proof.
  unfold commit_one. within_solve ignored.
Qed.
#[local] Hint Resolve within_commit_one : within.

Lemma within_note_new_entry `{!Ignores R out} `{!Ignores R state_machine_} `{!Ignores R
    config_changing_} i e :
  within R (note_new_entry i e).
Proof.
  unfold note_new_entry. within_solve ignored.
Qed.
#[local] Hint Resolve within_note_new_entry : within.

Lemma within_note_old_entry `{!Ignores R out} `{!Ignores R state_machine_} `{!Ignores R
    config_changing_} i e :
  within R (note_old_entry i e).
Proof.
  unfold note_old_entry. within_solve ignored.
Qed.
#[local] Hint Resolve within_note_old_entry : within.

Lemma within_overwrite_entries `{!Ignores R out} `{!Ignores R state_machine_} `{!Ignores R
    config_changing_} `{!Ignores R log_store_} i l :
  within R (overwrite_entries i l).
Proof.
  revert i. induction l as [|e l IH]; intros i; cbn [overwrite_entries]; within_solve ignored.
Qed.
#[local] Hint Resolve within_overwrite_entries : within.

Lemma within_append_new_entries `{!Ignores R out} `{!Ignores R state_machine_} `{!Ignores R
    config_changing_} `{!Ignores R log_store_} l :
  within R (append_new_entries l).
Proof.
  induction l as [|e l IH]; cbn [append_new_entries]; within_solve ignored.
Qed.
#[local] Hint Resolve within_append_new_entries : within.

Lemma within_write_entries `{!Ignores R out} `{!Ignores R state_machine_} `{!Ignores R
    config_changing_} `{!Ignores R log_store_} i l :
  within R (write_entries i l).
Proof.
  unfold write_entries. within_solve ignored.
Qed.
#[local] Hint Resolve within_write_entries : within.

Lemma within_hear_from_leader `{!Ignores R peers_} `{!Ignores R srv_to_join_} `{!Ignores R
    scheduler_} `{!Ignores R role_} `{!Ignores R draws} `{!Ignores R election_task_} `{!Ignores
    R out} :
  within R (hear_from_leader).
Proof.
  unfold hear_from_leader. within_solve ignored.
Qed.
#[local] Hint Resolve within_hear_from_leader : within.

Lemma within_log_okay_for `{!Ignores R out} q :
  within R (log_okay_for q).
Proof.
  unfold log_okay_for. within_solve ignored.
Qed.
#[local] Hint Resolve within_log_okay_for : within.

Lemma within_handle_append_entries `{!Ignores R peers_} `{!Ignores R srv_to_join_} `{!Ignores R
    scheduler_} `{!Ignores R role_} `{!Ignores R draws} `{!Ignores R election_task_} `{!Ignores
    R out} `{!Ignores R state_machine_} `{!Ignores R config_changing_} `{!Ignores R log_store_}
    `{!Ignores R leader_} `{!Ignores R quick_commit_idx_} q :
  within R (handle_append_entries q).
Proof.
  unfold handle_append_entries. within_solve ignored.
Qed.
#[local] Hint Resolve within_handle_append_entries : within.

Lemma within_handle_vote_req `{!Ignores R state_} `{!Ignores R state_mgr_} q :
  within R (handle_vote_req q).
Proof.
  unfold handle_vote_req. within_solve ignored.
Qed.
#[local] Hint Resolve within_handle_vote_req : within.

Lemma within_append_client_entries `{!Ignores R log_store_} `{!Ignores R out} `{!Ignores R
    state_machine_} l :
  within R (append_client_entries l).
Proof.
  induction l as [|e l IH]; cbn [append_client_entries]; within_solve ignored.
Qed.
#[local] Hint Resolve within_append_client_entries : within.

Lemma within_handle_cli_req `{!Ignores R log_store_} `{!Ignores R out} `{!Ignores R
    state_machine_} `{!Ignores R time_elapsed_since_quorum_resp} `{!Ignores R peers_} `{!Ignores
    R srv_to_join_} `{!Ignores R quick_commit_idx_} q :
  within R (handle_cli_req q).
Proof.
  unfold handle_cli_req. within_solve ignored.
Qed.
#[local] Hint Resolve within_handle_cli_req : within.

Lemma within_handle_add_srv_req `{!Ignores R conf_to_add_} `{!Ignores R srv_to_join_} `{!Ignores
    R next_obj} `{!Ignores R out} `{!Ignores R scheduler_} q :
  within R (handle_add_srv_req q).
Proof.
  unfold handle_add_srv_req. within_solve ignored.
Qed.
#[local] Hint Resolve within_handle_add_srv_req : within.

Lemma within_handle_rm_srv_req `{!Ignores R out} q :
  within R (handle_rm_srv_req q).
Proof.
  unfold handle_rm_srv_req. within_solve ignored.
Qed.
#[local] Hint Resolve within_handle_rm_srv_req : within.

Lemma within_handle_log_sync_req `{!Ignores R log_store_} `{!Ignores R out} `{!Ignores R peers_}
    `{!Ignores R srv_to_join_} `{!Ignores R state_machine_} `{!Ignores R quick_commit_idx_} q :
  within R (handle_log_sync_req q).
Proof.
  unfold handle_log_sync_req. within_solve ignored.
Qed.
#[local] Hint Resolve within_handle_log_sync_req : within.

Lemma within_handle_join_cluster_req `{!Ignores R next_obj} `{!Ignores R out} `{!Ignores R
    scheduler_} `{!Ignores R srv_to_join_} `{!Ignores R peers_} `{!Ignores R state_mgr_}
    `{!Ignores R config_} `{!Ignores R catching_up_} `{!Ignores R role_} `{!Ignores R leader_}
    `{!Ignores R sm_commit_index_} `{!Ignores R quick_commit_idx_} `{!Ignores R state_} q :
  within R (handle_join_cluster_req q).
Proof.
  unfold handle_join_cluster_req. within_solve ignored.
Qed.
#[local] Hint Resolve within_handle_join_cluster_req : within.

Lemma within_handle_leave_cluster_req `{!Ignores R steps_to_down_} q :
  within R (handle_leave_cluster_req q).
Proof.
  unfold handle_leave_cluster_req. within_solve ignored.
Qed.
#[local] Hint Resolve within_handle_leave_cluster_req : within.

Lemma within_install_snapshot `{!Ignores R next_obj} `{!Ignores R out} `{!Ignores R scheduler_}
    `{!Ignores R srv_to_join_} `{!Ignores R peers_} `{!Ignores R state_mgr_} `{!Ignores R
    config_} `{!Ignores R log_store_} `{!Ignores R state_machine_} `{!Ignores R
    sm_commit_index_} `{!Ignores R quick_commit_idx_} `{!Ignores R last_snapshot_} `{!Ignores R
    draws} `{!Ignores R election_task_} s :
  within R (install_snapshot s).
Proof.
  unfold install_snapshot. within_solve ignored.
Qed.
#[local] Hint Resolve within_install_snapshot : within.

Lemma within_handle_snapshot_sync_req `{!Ignores R next_obj} `{!Ignores R out} `{!Ignores R
    scheduler_} `{!Ignores R srv_to_join_} `{!Ignores R peers_} `{!Ignores R state_mgr_}
    `{!Ignores R config_} `{!Ignores R log_store_} `{!Ignores R state_machine_} `{!Ignores R
    sm_commit_index_} `{!Ignores R quick_commit_idx_} `{!Ignores R last_snapshot_} `{!Ignores R
    draws} `{!Ignores R election_task_} q :
  within R (handle_snapshot_sync_req q).
Proof.
  unfold handle_snapshot_sync_req. within_solve ignored.
Qed.
#[local] Hint Resolve within_handle_snapshot_sync_req : within.

Lemma within_handle_install_snapshot_req `{!Ignores R next_obj} `{!Ignores R out} `{!Ignores R
    scheduler_} `{!Ignores R srv_to_join_} `{!Ignores R peers_} `{!Ignores R state_mgr_}
    `{!Ignores R config_} `{!Ignores R log_store_} `{!Ignores R state_machine_} `{!Ignores R
    sm_commit_index_} `{!Ignores R quick_commit_idx_} `{!Ignores R last_snapshot_} `{!Ignores R
    draws} `{!Ignores R election_task_} `{!Ignores R role_} q :
  within R (handle_install_snapshot_req q).
Proof.
  unfold handle_install_snapshot_req. within_solve ignored.
Qed.
#[local] Hint Resolve within_handle_install_snapshot_req : within.

Lemma within_handle_extended_msg `{!Ignores R next_obj} `{!Ignores R out} `{!Ignores R
    scheduler_} `{!Ignores R srv_to_join_} `{!Ignores R peers_} `{!Ignores R state_mgr_}
    `{!Ignores R config_} `{!Ignores R log_store_} `{!Ignores R state_machine_} `{!Ignores R
    sm_commit_index_} `{!Ignores R quick_commit_idx_} `{!Ignores R last_snapshot_} `{!Ignores R
    draws} `{!Ignores R election_task_} `{!Ignores R role_} `{!Ignores R conf_to_add_}
    `{!Ignores R catching_up_} `{!Ignores R leader_} `{!Ignores R state_} `{!Ignores R
    steps_to_down_} q :
  within R (handle_extended_msg q).
Proof.
  unfold handle_extended_msg. within_solve ignored.
Qed.
#[local] Hint Resolve within_handle_extended_msg : within.

Lemma within_process_req `{!Ignores R next_obj} `{!Ignores R out} `{!Ignores R scheduler_}
    `{!Ignores R srv_to_join_} `{!Ignores R peers_} `{!Ignores R state_mgr_} `{!Ignores R
    config_} `{!Ignores R log_store_} `{!Ignores R state_machine_} `{!Ignores R
    sm_commit_index_} `{!Ignores R quick_commit_idx_} `{!Ignores R last_snapshot_} `{!Ignores R
    draws} `{!Ignores R election_task_} `{!Ignores R role_} `{!Ignores R conf_to_add_}
    `{!Ignores R catching_up_} `{!Ignores R leader_} `{!Ignores R state_} `{!Ignores R
    steps_to_down_} `{!Ignores R election_completed_} `{!Ignores R votes_granted_} `{!Ignores R
    voted_servers_} `{!Ignores R config_changing_} `{!Ignores R time_elapsed_since_quorum_resp}
    q :
  within R (process_req q).
Proof.
  unfold process_req. within_solve ignored.
Qed.
#[local] Hint Resolve within_process_req : within.

Lemma within_handle_voting_resp `{!Ignores R out} `{!Ignores R peers_} `{!Ignores R
    srv_to_join_} `{!Ignores R state_machine_} `{!Ignores R quick_commit_idx_} `{!Ignores R
    scheduler_} `{!Ignores R role_} `{!Ignores R leader_} `{!Ignores R config_} `{!Ignores R
    state_mgr_} `{!Ignores R config_changing_} `{!Ignores R log_store_} `{!Ignores R
    voted_servers_} `{!Ignores R votes_granted_} `{!Ignores R election_completed_} q :
  within R (handle_voting_resp q).
Proof.
  unfold handle_voting_resp. within_solve ignored.
Qed.
#[local] Hint Resolve within_handle_voting_resp : within.

Lemma within_handle_append_entries_resp `{!Ignores R out} `{!Ignores R peers_} `{!Ignores R
    srv_to_join_} `{!Ignores R state_machine_} `{!Ignores R quick_commit_idx_} q :
  within R (handle_append_entries_resp q).
Proof.
  unfold handle_append_entries_resp. within_solve ignored.
Qed.
#[local] Hint Resolve within_handle_append_entries_resp : within.

Lemma within_handle_install_snapshot_resp `{!Ignores R out} `{!Ignores R peers_} `{!Ignores R
    srv_to_join_} `{!Ignores R state_machine_} q :
  within R (handle_install_snapshot_resp q).
Proof.
  unfold handle_install_snapshot_resp. within_solve ignored.
Qed.
#[local] Hint Resolve within_handle_install_snapshot_resp : within.

Lemma within_handle_peer_resp `{!Ignores R peers_} `{!Ignores R srv_to_join_} `{!Ignores R
    scheduler_} `{!Ignores R role_} `{!Ignores R draws} `{!Ignores R election_task_} `{!Ignores
    R state_} `{!Ignores R election_completed_} `{!Ignores R votes_granted_} `{!Ignores R
    voted_servers_} `{!Ignores R state_mgr_} `{!Ignores R out} `{!Ignores R state_machine_}
    `{!Ignores R quick_commit_idx_} `{!Ignores R leader_} `{!Ignores R config_} `{!Ignores R
    config_changing_} `{!Ignores R log_store_} q :
  within R (handle_peer_resp q).
Proof.
  unfold handle_peer_resp. within_solve ignored.
Qed.
#[local] Hint Resolve within_handle_peer_resp : within.

Lemma within_handle_ext_install_snapshot_resp `{!Ignores R out} `{!Ignores R peers_} `{!Ignores
    R srv_to_join_} `{!Ignores R state_machine_} `{!Ignores R quick_commit_idx_} `{!Ignores R
    log_store_} `{!Ignores R config_changing_} q :
  within R (handle_ext_install_snapshot_resp q).
Proof.
  unfold handle_ext_install_snapshot_resp. within_solve ignored.
Qed.
#[local] Hint Resolve within_handle_ext_install_snapshot_resp : within.

Lemma within_handle_ext_resp_err `{!Ignores R out} `{!Ignores R peers_} `{!Ignores R
    srv_to_join_} `{!Ignores R state_machine_} `{!Ignores R quick_commit_idx_} `{!Ignores R
    log_store_} `{!Ignores R config_changing_} `{!Ignores R scheduler_} `{!Ignores R retried} q
    :
  within R (handle_ext_resp_err q).
Proof.
  unfold handle_ext_resp_err. within_solve ignored.
Qed.
#[local] Hint Resolve within_handle_ext_resp_err : within.

Lemma within_handle_ext_resp `{!Ignores R out} `{!Ignores R peers_} `{!Ignores R srv_to_join_}
    `{!Ignores R state_machine_} `{!Ignores R quick_commit_idx_} `{!Ignores R log_store_}
    `{!Ignores R config_changing_} `{!Ignores R scheduler_} `{!Ignores R retried} q :
  within R (handle_ext_resp q).
Proof.
  unfold handle_ext_resp. within_solve ignored.
Qed.
#[local] Hint Resolve within_handle_ext_resp : within.

Lemma within_handle_rpc_result `{!Ignores R peers_} `{!Ignores R srv_to_join_} `{!Ignores R
    scheduler_} `{!Ignores R role_} `{!Ignores R draws} `{!Ignores R election_task_} `{!Ignores
    R state_} `{!Ignores R election_completed_} `{!Ignores R votes_granted_} `{!Ignores R
    voted_servers_} `{!Ignores R state_mgr_} `{!Ignores R out} `{!Ignores R state_machine_}
    `{!Ignores R quick_commit_idx_} `{!Ignores R leader_} `{!Ignores R config_} `{!Ignores R
    config_changing_} `{!Ignores R log_store_} `{!Ignores R retried} o q h s :
  within R (handle_rpc_result o q h s).
Proof.
  unfold handle_rpc_result. within_solve ignored.
Qed.
#[local] Hint Resolve within_handle_rpc_result : within.

Lemma within_handle_election_timeout `{!Ignores R steps_to_down_} `{!Ignores R state_}
    `{!Ignores R role_} `{!Ignores R votes_granted_} `{!Ignores R voted_servers_} `{!Ignores R
    election_completed_} `{!Ignores R state_mgr_} `{!Ignores R config_} `{!Ignores R out}
    `{!Ignores R peers_} `{!Ignores R srv_to_join_} `{!Ignores R state_machine_} `{!Ignores R
    quick_commit_idx_} `{!Ignores R scheduler_} `{!Ignores R leader_} `{!Ignores R
    config_changing_} `{!Ignores R log_store_} `{!Ignores R draws} `{!Ignores R election_task_}
    :
  within R (handle_election_timeout).
Proof.
  unfold handle_election_timeout.
  repeat first [lazymatch goal with |- within _ request_vote => apply within_request_vote end | within_step ignored].
Qed.
#[local] Hint Resolve within_handle_election_timeout : within.

Lemma within_handle_hb_timeout `{!Ignores R out} `{!Ignores R peers_} `{!Ignores R srv_to_join_}
    `{!Ignores R state_machine_} `{!Ignores R scheduler_} r :
  within R (handle_hb_timeout r).
Proof.
  unfold handle_hb_timeout. within_solve ignored.
Qed.
#[local] Hint Resolve within_handle_hb_timeout : within.

Lemma within_run_task `{!Ignores R steps_to_down_} `{!Ignores R state_} `{!Ignores R role_}
    `{!Ignores R votes_granted_} `{!Ignores R voted_servers_} `{!Ignores R election_completed_}
    `{!Ignores R state_mgr_} `{!Ignores R config_} `{!Ignores R out} `{!Ignores R peers_}
    `{!Ignores R srv_to_join_} `{!Ignores R state_machine_} `{!Ignores R quick_commit_idx_}
    `{!Ignores R scheduler_} `{!Ignores R leader_} `{!Ignores R config_changing_} `{!Ignores R
    log_store_} `{!Ignores R draws} `{!Ignores R election_task_} b :
  within R (run_task b).
Proof.
  unfold run_task. within_solve ignored.
Qed.
#[local] Hint Resolve within_run_task : within.

Lemma within_timer_expired `{!Ignores R steps_to_down_} `{!Ignores R state_} `{!Ignores R role_}
    `{!Ignores R votes_granted_} `{!Ignores R voted_servers_} `{!Ignores R election_completed_}
    `{!Ignores R state_mgr_} `{!Ignores R config_} `{!Ignores R out} `{!Ignores R peers_}
    `{!Ignores R srv_to_join_} `{!Ignores R state_machine_} `{!Ignores R quick_commit_idx_}
    `{!Ignores R scheduler_} `{!Ignores R leader_} `{!Ignores R config_changing_} `{!Ignores R
    log_store_} `{!Ignores R draws} `{!Ignores R election_task_} i b :
  within R (timer_expired i b).
Proof.
  unfold timer_expired. within_solve ignored.
Qed.
#[local] Hint Resolve within_timer_expired : within.

Lemma within_handle_event `{!Ignores R next_obj} `{!Ignores R out} `{!Ignores R scheduler_}
    `{!Ignores R srv_to_join_} `{!Ignores R peers_} `{!Ignores R state_mgr_} `{!Ignores R
    config_} `{!Ignores R log_store_} `{!Ignores R state_machine_} `{!Ignores R
    sm_commit_index_} `{!Ignores R quick_commit_idx_} `{!Ignores R last_snapshot_} `{!Ignores R
    draws} `{!Ignores R election_task_} `{!Ignores R role_} `{!Ignores R conf_to_add_}
    `{!Ignores R catching_up_} `{!Ignores R leader_} `{!Ignores R state_} `{!Ignores R
    steps_to_down_} `{!Ignores R election_completed_} `{!Ignores R votes_granted_} `{!Ignores R
    voted_servers_} `{!Ignores R config_changing_} `{!Ignores R time_elapsed_since_quorum_resp}
    `{!Ignores R snp_in_progress_} `{!Ignores R retried} `{!Ignores R clock} e :
  within R (handle_event e).
Proof.
  unfold handle_event. within_solve ignored.
Qed.
#[local] Hint Resolve within_handle_event : within.

End frames.

#[export] Hint Resolve
  within_emit within_system_exit within_fatal within_persist_state within_persist_config
  within_set_config within_mutate_config within_get_peer within_set_peer within_upd_peer
  within_new_peer within_send_req within_enable_hb within_enable_hb_for_peer
  within_rand_timeout within_restart_election_timer within_stop_election_timer
  within_term_for_log within_create_sync_snapshot_req within_create_append_entries_req
  within_request_append_entries_to within_commit within_request_append_entries
  within_append_config within_become_leader within_become_follower within_update_term
  within_request_vote within_add_server within_remove_servers within_reconfigure
  within_on_retryable_req_err within_sync_log_to_new_srv within_invite_srv_to_join_cluster
  within_rm_srv_from_cluster within_on_snapshot_completed within_find_config
  within_take_snapshot within_snapshot_and_compact within_commit_config_entry
  within_commit_one within_note_new_entry within_note_old_entry within_overwrite_entries
  within_append_new_entries within_write_entries within_hear_from_leader
  within_log_okay_for within_handle_append_entries within_handle_vote_req
  within_append_client_entries within_handle_cli_req within_handle_add_srv_req
  within_handle_rm_srv_req within_handle_log_sync_req within_handle_join_cluster_req
  within_handle_leave_cluster_req within_install_snapshot within_handle_snapshot_sync_req
  within_handle_install_snapshot_req within_handle_extended_msg within_process_req
  within_handle_voting_resp within_handle_append_entries_resp
  within_handle_install_snapshot_resp within_handle_peer_resp
  within_handle_ext_install_snapshot_resp within_handle_ext_resp_err
  within_handle_ext_resp within_handle_rpc_result within_handle_election_timeout
  within_handle_hb_timeout within_run_task within_timer_expired within_handle_event : within.

(** Close a goal about the state an operation leaves by walking through it. *)
Ltac by_frame_with tac :=
  lazymatch goal with
  | |- ?f (?m ?w).2 = ?f ?w =>
      let Hw := fresh in enough (within (same f) m) as Hw by exact (Hw w); within_solve tac
  | |- ?R ?w (?m ?w).2 =>
      let Hw := fresh in enough (within R m) as Hw by exact (Hw w); within_solve tac
  end.
Ltac by_frame := by_frame_with ignored.
