(* ===== verification/PeerSet.v ===== *)
(** * The set of peers

    Replication and elections change what is known about a peer, never who the
    peers are: only [reconfigure], the removal of an unreachable server from a
    cluster of two, and the constructor do. *)

From S2P Require Import Prelude Buffer Config Messages LogStore StateMachine StateMgr Scheduler Peer Server Membership Requests Responses Frames.

Section peer_set.
Context `{FreshMem} {LS SM : Type} `{!log_store LS} `{!state_machine SM}.
#[local] Abbreviation W := (raft_server LS SM).

Definition peer_set (w : W) : gset Z := dom (peers_ w).

Lemma elem_of_peer_ids (w : W) i : i ∈ peer_ids w ↔ i ∈ peer_set w.
Proof. unfold peer_ids, peer_set. by rewrite dom_alt, elem_of_list_to_set. Qed.

Lemma within_get_peer_then R `{!PreOrder R} {A} r (k : peer → M W A) :
  (∀ w p, find_peer r w = Some p → R w (k p w).2) → within R (get_peer r ≫= k).
Proof.
  intros Hk w. unfold get_peer. rewrite bind_assoc, bind_gets.
  destruct (find_peer r w) as [p|] eqn:E; [|done].
  rewrite bind_ret. by apply Hk.
Qed.

(** Writing a peer back keeps the set. *)
Lemma set_peer_set r p (w : W) :
  is_Some (find_peer r w) → peer_set (set_peer r p w).2 = peer_set w.
Proof.
  destruct r as [i|]; cbn; [|done]. intros [q Hq]. unfold peer_set, update; cbn.
  rewrite dom_insert_L. apply elem_of_dom_2 in Hq. set_solver.
Qed.

Lemma within_set_upd_peer r f : within (same peer_set) (upd_peer (LS := LS) (SM := SM) r f).
Proof.
  unfold upd_peer. apply within_get_peer_then; [apply _|]. intros w p Hp.
  unfold same. apply set_peer_set. by eexists.
Qed.
#[local] Hint Resolve within_set_upd_peer : within.

(** Writing a peer back after code that leaves the peers alone. *)
Lemma within_set_peer_after {A} r (m : M W A) (q : A → peer) :
  within (same peers_) m → within (same srv_to_join_) m → ∀ w,
  is_Some (find_peer r w) → same peer_set w ((m ≫= λ a, set_peer r (q a)) w).2.
Proof.
  intros Hm Hm' w Hw. specialize (Hm w). specialize (Hm' w). unfold mbind, M_bind, same in *.
  destruct (m w) as [[a|e|u] w']; cbn [snd] in *; [|unfold peer_set; by rewrite Hm..].
  rewrite set_peer_set; [unfold peer_set; by rewrite Hm|].
  destruct r; cbn in *; by rewrite ?Hm, ?Hm'.
Qed.

Lemma within_set_create_sync_snapshot_req r i t c :
  within (same peer_set) (create_sync_snapshot_req (LS := LS) (SM := SM) r i t c).
Proof. unfold create_sync_snapshot_req. within_solve idtac. Qed.
#[local] Hint Resolve within_set_create_sync_snapshot_req : within.

Lemma within_set_create_append_entries_req r :
  within (same peer_set) (create_append_entries_req (LS := LS) (SM := SM) r).
Proof. unfold create_append_entries_req. within_solve idtac. Qed.
#[local] Hint Resolve within_set_create_append_entries_req : within.

Lemma within_set_request_append_entries_to r :
  within (same peer_set) (request_append_entries_to (LS := LS) (SM := SM) r).
Proof.
  unfold request_append_entries_to. apply within_get_peer_then; [apply _|]. intros w p Hp.
  destruct (make_busy p) as [[] p']; [|done].
  trans (set_peer r p' w).2; [apply set_peer_set; by eexists|].
  destruct r; cbn [set_peer]; rewrite bind_modify; cbn [modify snd]; by_frame.
Qed.
#[local] Hint Resolve within_set_request_append_entries_to : within.

Lemma within_set_commit i : within (same peer_set) (commit (LS := LS) (SM := SM) i).
Proof. unfold commit. within_solve idtac. Qed.
#[local] Hint Resolve within_set_commit : within.

Lemma within_set_request_append_entries :
  within (same peer_set) (request_append_entries (LS := LS) (SM := SM)).
Proof. unfold request_append_entries. within_solve idtac. Qed.
#[local] Hint Resolve within_set_request_append_entries : within.

(** Walk up to the next read of a peer. *)
Ltac to_peer := repeat lazymatch goal with
  | |- within _ (get_peer _ ≫= _) => fail
  | |- _ => within_step ignored
  end.

Lemma within_set_become_leader : within (same peer_set) (become_leader (LS := LS) (SM := SM)).
Proof.
  unfold become_leader. to_peer.
  apply within_get_peer_then; [apply _|]. intros w p Hp.
  apply (within_set_peer_after _ _ id); [within_solve idtac..|by eexists].
Qed.

Lemma within_set_become_follower : within (same peer_set) (become_follower (LS := LS) (SM := SM)).
Proof.
  unfold become_follower. to_peer.
  apply within_get_peer_then; [apply _|]. intros w p Hp.
  apply (within_set_peer_after _ _ id); [within_solve idtac..|by eexists].
Qed.
#[local] Hint Resolve within_set_become_leader within_set_become_follower : within.

Lemma within_set_update_term t : within (same peer_set) (update_term (LS := LS) (SM := SM) t).
Proof. unfold update_term. within_solve idtac. Qed.

Lemma within_set_request_vote : within (same peer_set) (request_vote (LS := LS) (SM := SM)).
Proof. unfold request_vote. within_solve idtac. Qed.
#[local] Hint Resolve within_set_update_term within_set_request_vote : within.

Lemma within_set_handle_voting_resp r :
  within (same peer_set) (handle_voting_resp (LS := LS) (SM := SM) r).
Proof. unfold handle_voting_resp. within_solve idtac. Qed.

Lemma within_set_handle_election_timeout :
  within (same peer_set) (handle_election_timeout (LS := LS) (SM := SM)).
Proof. unfold handle_election_timeout. within_solve idtac. Qed.
End peer_set.

#[export] Hint Resolve within_set_upd_peer within_set_create_sync_snapshot_req
  within_set_create_append_entries_req within_set_request_append_entries_to
  within_set_commit within_set_request_append_entries within_set_become_leader
  within_set_become_follower within_set_update_term within_set_request_vote
  within_set_handle_voting_resp within_set_handle_election_timeout : within.
