(* ===== verification/Elections.v ===== *)
(** * Terms, votes and elections

    The safety of the voting code: a server's term never goes back and it
    votes once per term; a vote is on the stored state before the answer
    leaves; the answer follows the up-to-date rule; a server becomes leader
    only with the votes of a majority. *)

From S2P Require Import Prelude Buffer Config Messages LogStore StateMachine StateMgr Scheduler Peer Server Membership Requests Responses Samples Frames PeerSet.

Section elections.
Context `{FreshMem} {LS SM : Type} `{!log_store LS} `{!state_machine SM}.
#[local] Abbreviation W := (raft_server LS SM).

(** ** Terms and votes only move forward *)

Definition voted (w : W) : Z := voted_for_ (state_ w).

Definition vote_mono : relation W := λ w w',
  current_term w ≤ current_term w' ∧
  (current_term w' = current_term w → voted w ≠ -1 → voted w' = voted w).

#[global] Instance vote_mono_preorder : PreOrder vote_mono.
Proof.
  split; unfold vote_mono; [by intros w|].
  intros w1 w2 w3 [H1 H1'] [H2 H2']. split; [lia|]. intros Ht Hv.
  assert (current_term w2 = current_term w1) as H12 by lia.
  rewrite H2'; [by apply H1'|lia|]. by rewrite H1'.
Qed.

(** In a new term any vote is allowed. *)
Lemma vote_mono_new (w w' : W) : current_term w < current_term w' → vote_mono w w'.
Proof. unfold vote_mono. lia. Qed.

Lemma vote_mono_same (w w' : W) : state_ w' = state_ w → vote_mono w w'.
Proof. unfold vote_mono, current_term, voted. intros ->. split; [lia|done]. Qed.

(** Walk through code that leaves the term alone. *)
Lemma within_term_request_vote : within (same (current_term (LS := LS) (SM := SM))) request_vote.
Proof.
  unfold request_vote. within_solve ltac:(apply within_modify; intros ?; reflexivity).
Qed.
#[local] Hint Resolve within_term_request_vote : within.

(** The state in which [update_term] and [handle_election_timeout] go on
    after their assignments. *)
Definition new_term_state (t : Z) (w : W) : W :=
  w <| state_ := mk_srv_state t (-1) |> <| election_completed_ := false |>
    <| votes_granted_ := 0 |> <| voted_servers_ := ∅ |>.

Lemma update_term_new t (w : W) :
  current_term w < t →
  update_term t w =
    (persist_state ;; become_follower ;; mret true) (new_term_state t w).
Proof.
  intros Hlt%Z.ltb_lt. unfold update_term. rewrite bind_get, Hlt. done.
Qed.

Lemma update_term_old t (w : W) : t ≤ current_term w → update_term t w = (Ok false, w).
Proof.
  intros Hle%Z.ltb_ge. unfold update_term. rewrite bind_get, Hle. done.
Qed.

Lemma update_term_state t (w : W) :
  state_ (update_term t w).2 =
    if current_term w <? t then mk_srv_state t (-1) else state_ w.
Proof.
  destruct (Z.ltb_spec (current_term w) t) as [Hlt|Hge].
  - rewrite update_term_new by done.
    apply (within_weaken (same state_) (same state_)); [done|].
    within_solve idtac.
  - by rewrite update_term_old.
Qed.

Lemma within_vote_update_term t : within vote_mono (update_term t).
Proof.
  intros w. pose proof (update_term_state t w) as Hs.
  destruct (Z.ltb_spec (current_term w) t).
  - apply vote_mono_new. unfold current_term. by rewrite Hs.
  - by apply vote_mono_same.
Qed.
#[local] Hint Resolve within_vote_update_term : within.

(** ** Granting a vote *)

(** The candidate's log is at least as up to date as this server's. *)
Definition up_to_date (req : req_msg) (last_term last_idx : Z) : bool :=
  (last_term <? req_last_log_term req) ||
  ((req_last_log_term req =? last_term) && (last_idx <=? req_last_log_idx req)).

Definition grants (req : req_msg) (last_term : Z) (w : W) : bool :=
  (req_term req =? current_term w) &&
  up_to_date req last_term (u64 (next_slot_ w - 1)) &&
  ((voted w =? req_src req) || (voted w =? -1)).

Lemma handle_vote_req_spec req (w : W) last :
  last_entry (log_store_ w) = Ok last →
  handle_vote_req req w =
    if grants req (le_term last) w then
      (persist_state ;;
       mret (accept (next_slot_ w)
               (new_resp (current_term w) request_vote_response (id_ w) (req_src req))))
        (w <| state_ := mk_srv_state (current_term w) (req_src req) |>)
    else (Ok (new_resp (current_term w) request_vote_response (id_ w) (req_src req)), w).
Proof.
  intros Hl. unfold handle_vote_req. rewrite bind_get. cbv beta zeta. rewrite Hl, bind_lift.
  fold (up_to_date req (le_term last) (u64 (next_slot_ w - 1))). fold (voted w).
  fold (grants req (le_term last) w). by destruct (grants req (le_term last) w).
Qed.

Lemma handle_vote_req_state req (w : W) :
  state_ (handle_vote_req req w).2 = state_ w ∨
  (req_term req = current_term w ∧ (voted w = req_src req ∨ voted w = -1) ∧
   state_ (handle_vote_req req w).2 = mk_srv_state (current_term w) (req_src req)).
Proof.
  destruct (last_entry (log_store_ w)) as [last|e|u] eqn:Hl.
  - rewrite (handle_vote_req_spec req w last Hl).
    destruct (grants req (le_term last) w) eqn:Hg; [right|by left].
    apply andb_true_iff in Hg as [[Ht _]%andb_true_iff Hv].
    apply Z.eqb_eq in Ht. apply orb_true_iff in Hv. rewrite !Z.eqb_eq in Hv.
    split_and!; [done..|].
    pose proof (within_persist_state (LS := LS) (SM := SM) (same state_)
      (w <| state_ := mk_srv_state (current_term w) (req_src req) |>)) as Hp.
    unfold mbind, M_bind, mret, M_ret. destruct (persist_state _) as [[]?]; exact Hp.
  - left. unfold handle_vote_req. rewrite bind_get. unfold mbind, M_bind, lift. by rewrite Hl.
  - left. unfold handle_vote_req. rewrite bind_get. unfold mbind, M_bind, lift. by rewrite Hl.
Qed.

Lemma within_vote_handle_vote_req req :
  within vote_mono (handle_vote_req (LS := LS) (SM := SM) req).
Proof.
  intros w. destruct (handle_vote_req_state req w) as [Hs|(Ht & Hv & Hs)].
  - by apply vote_mono_same.
  - unfold vote_mono, current_term, voted in *. rewrite Hs. cbn. split; [lia|].
    intros _ Hne. destruct Hv; congruence.
Qed.
#[local] Hint Resolve within_vote_handle_vote_req : within.

(** ** Starting an election *)

Definition candidate_state (w : W) : W :=
  w <| state_ := mk_srv_state (u64 (current_term w + 1)) (-1) |> <| role_ := candidate |>
    <| votes_granted_ := 0 |> <| voted_servers_ := ∅ |> <| election_completed_ := false |>.

(** The election proper, after the guards of [handle_election_timeout]. *)
Definition run_for_leader : M W unit :=
  persist_state ;;
  request_vote ;;
  w ← gets id;
  when (negb (bool_decide (role_ w = leader))) restart_election_timer.

Definition stands_for_election (w : W) : bool :=
  negb (0 <? steps_to_down_ w) && negb (catching_up_ w) && negb (bool_decide (role_ w = leader)).

Lemma election_timeout_cases (w : W) :
  (stands_for_election w = true ∧
     handle_election_timeout w = run_for_leader (candidate_state w)) ∨
  (stands_for_election w = false ∧
     same (λ w, (state_ w, role_ w, votes_granted_ w, voted_servers_ w, id_ w)) w
       (handle_election_timeout w).2).
Proof.
  unfold handle_election_timeout, stands_for_election. rewrite bind_get.
  destruct (0 <? steps_to_down_ w) eqn:Es; cbn [negb andb]; [right; split; [done|by_frame]|].
  destruct (catching_up_ w) eqn:Ec; cbn [negb andb]; [right; split; [done|by_frame]|].
  destruct (bool_decide (role_ w = leader)) eqn:Er; cbn [negb]; [right; split; [done|by_frame]|].
  left. split; [done|]. rewrite !bind_modify. unfold run_for_leader, candidate_state.
  reflexivity.
Qed.

Lemma candidate_term (w : W) : current_term (candidate_state w) = u64 (current_term w + 1).
Proof. reflexivity. Qed.

Lemma run_for_leader_term : within (same (current_term (LS := LS) (SM := SM))) run_for_leader.
Proof. unfold run_for_leader. within_solve idtac. Qed.

Lemma election_timeout_vote_mono (w : W) :
  is_u64 (current_term w + 1) → 0 ≤ current_term w →
  vote_mono w (handle_election_timeout w).2.
Proof.
  intros Hb H0. destruct (election_timeout_cases w) as [[_ ->]|[_ [= Hs _ _ _ _]]].
  - apply vote_mono_new. pose proof (run_for_leader_term (candidate_state w)) as Ht.
    unfold same in Ht. rewrite Ht, candidate_term, u64_small by done. lia.
  - by apply vote_mono_same.
Qed.

(** ** One vote per term *)

(** Joining a cluster starts the server afresh with the leader's term. *)
Definition ordinary (e : event) : Prop :=
  match e with EvRequest req => req_type req ≠ join_cluster_request | _ => True end.

Lemma within_vote_process_req req :
  req_type req ≠ join_cluster_request → within vote_mono (process_req (LS := LS) (SM := SM) req).
Proof.
  intros Hj. unfold process_req, handle_extended_msg.
  destruct (req_type req); try done; within_solve idtac.
Qed.

Lemma within_vote_handle_rpc_result obj req h result :
  within vote_mono (handle_rpc_result (LS := LS) (SM := SM) obj req h result).
Proof. unfold handle_rpc_result, handle_peer_resp. within_solve idtac. Qed.

Lemma timer_expired_cases uid success (w : W) :
  ((∃ t, expired uid success (scheduler_ w) = Some (t, TElection)) ∧
   timer_expired uid success w = handle_election_timeout w) ∨
  (∀ R, PreOrder R → Ignores R out → Ignores R peers_ → Ignores R srv_to_join_ →
     Ignores R state_machine_ → Ignores R scheduler_ →
     R w (timer_expired uid success w).2).
Proof.
  unfold timer_expired. rewrite bind_get.
  destruct (expired uid success (scheduler_ w)) as [[t []]|]; [left; by eauto|right..];
    intros R ??????.
  - unfold run_task. by_frame.
  - unfold run_task. by_frame.
  - done.
Qed.

Lemma step_vote_mono e (w : W) :
  ordinary e → 0 ≤ current_term w → current_term w + 1 < 2 ^ 64 →
  vote_mono w (handle_event e w).2.
Proof.
  intros Ho H0 Hb. destruct e as [req|obj req h result|uid success| |now]; cbn [handle_event].
  - pose proof (within_vote_process_req req Ho) as Hp. by_frame.
  - apply within_vote_handle_rpc_result.
  - destruct (timer_expired_cases uid success w) as [[_ ->]|HR]; [|apply (HR vote_mono); apply _].
    apply election_timeout_vote_mono; [unfold is_u64; lia|done].
  - by_frame.
  - apply vote_mono_same. done.
Qed.

(** The vote an event makes this server cast: the one it grants, or its own
    when it stands for election. *)
Definition cast (e : event) (w : W) : option (Z * Z) :=
  match e with
  | EvRequest req =>
      match (process_req req w).1 with
      | Ok resp =>
          if bool_decide (req_type req = request_vote_request) && resp_accepted resp
          then Some (resp_term resp, req_src req) else None
      | _ => None
      end
  | EvTimer uid success =>
      match expired uid success (scheduler_ w) with
      | Some (_, TElection) =>
          if stands_for_election w then Some (u64 (current_term w + 1), id_ w) else None
      | _ => None
      end
  | _ => None
  end.

Fixpoint casts (es : list event) (w : W) : list (Z * Z) :=
  match es with
  | [] => []
  | e :: es' => option_list (cast e w) ++ casts es' (handle_event e w).2
  end.

(** -1 stands for nobody. *)
Definition named (e : event) : Prop :=
  match e with
  | EvRequest req => req_type req = request_vote_request → req_src req ≠ -1
  | _ => True
  end.

(** The events come from servers with proper ids, nobody joins a cluster in
    between, the term counter does not run out. *)
Fixpoint election_run (es : list event) (w : W) : Prop :=
  match es with
  | [] => True
  | e :: es' =>
      ordinary e ∧ named e ∧
      0 ≤ current_term w ∧ current_term w + 1 < 2 ^ 64 ∧ id_ w ≠ -1 ∧
      (∀ u, (handle_event e w).1 ≠ Fault u) ∧
      election_run es' (handle_event e w).2
  end.

(** A granted vote is on the state the server is left in. *)
Lemma process_vote_granted req (w : W) resp w' :
  req_type req = request_vote_request → process_req req w = (Ok resp, w') →
  resp_accepted resp = true →
  current_term w' = resp_term resp ∧ voted w' = req_src req ∧ resp_term resp = req_term req.
Proof.
  intros Hty Hp Ha. unfold process_req in Hp. rewrite Hty in Hp. cbn [is_raft_rpc when] in Hp.
  apply bind_inv_ok in Hp as ([] & w1 & _ & Hp).
  destruct (last_entry (log_store_ w1)) as [last|e|u] eqn:Hl.
  - rewrite (handle_vote_req_spec req w1 last Hl) in Hp.
    destruct (grants req (le_term last) w1) eqn:Hg; [|by injection Hp as <- _].
    apply andb_true_iff in Hg as [[Ht _]%andb_true_iff _]. apply Z.eqb_eq in Ht.
    apply bind_inv_ok in Hp as ([] & w2 & Hps & Hr). injection Hr as <- <-.
    pose proof (within_elim (same state_) _ _ _ _ (within_persist_state _) Hps) as Hst.
    unfold same in Hst. unfold current_term, voted. rewrite Hst. done.
  - unfold handle_vote_req in Hp. rewrite bind_get in Hp. unfold mbind, M_bind, lift in Hp.
    by rewrite Hl in Hp.
  - unfold handle_vote_req in Hp. rewrite bind_get in Hp. unfold mbind, M_bind, lift in Hp.
    by rewrite Hl in Hp.
Qed.

(** [request_vote] votes for the server itself and keeps it that way. *)
Lemma request_vote_voted (w : W) : voted (request_vote w).2 = id_ w.
Proof.
  unfold request_vote. rewrite bind_gets, bind_modify.
  set (w1 := update state_ _ w). change (id_ w) with (voted w1). generalize w1. clear w1.
  intros w1. by_frame.
Qed.

Lemma election_voted (w : W) : voted (run_for_leader (candidate_state w)).2 = id_ w.
Proof.
  unfold run_for_leader.
  set (w0 := candidate_state w) in *.
  assert (∃ m', persist_state w0 = (Ok tt, w0 <| state_mgr_ := m' |>)) as [m' Hp].
  { unfold persist_state. rewrite bind_gets. eexists. apply on_step, save_state_spec.
    split; [|unfold is_i32; cbn; lia]. apply u64_range. }
  rewrite (bind_step _ _ _ _ _ Hp). set (w1 := w0 <| state_mgr_ := m' |>).
  pose proof (request_vote_voted w1) as Hv. change (id_ w) with (id_ w1).
  unfold mbind at 1, M_bind at 1. destruct (request_vote w1) as [[[]|e|u] w2]; [|done..].
  rewrite <-Hv. cbn [snd]. by_frame.
Qed.

Lemma cast_recorded e (w : W) t c :
  named e → id_ w ≠ -1 →
  cast e w = Some (t, c) →
  current_term (handle_event e w).2 = t ∧ voted (handle_event e w).2 = c ∧ c ≠ -1.
Proof.
  intros Hsrc Hid Hc. destruct e as [req| |uid success| |]; cbn [cast handle_event] in *; try done.
  - destruct (process_req req w) as [[resp|x|x] w'] eqn:Hp; cbn [fst] in Hc; [|done..].
    destruct (bool_decide_reflect (req_type req = request_vote_request)) as [Hty|]; [|done].
    destruct (resp_accepted resp) eqn:Ha; [|done]. injection Hc as <- <-.
    rewrite (bind_step _ _ _ _ _ Hp). cbn [mret M_ret snd].
    destruct (process_vote_granted req w resp w' Hty Hp Ha) as (Ht & Hv & _). auto.
  - unfold timer_expired. rewrite bind_get.
    destruct (expired uid success (scheduler_ w)) as [[k []]|]; try done. cbn [run_task].
    destruct (election_timeout_cases w) as [[Hs ->]|[Hs _]]; rewrite Hs in Hc; [|done].
    injection Hc as <- <-. split_and!; [|apply election_voted|done].
    rewrite <-candidate_term. apply (run_for_leader_term (candidate_state w)).
Qed.

(** The votes still to come respect the one already recorded. *)
Lemma casts_after es (w : W) t c :
  election_run es w → (t, c) ∈ casts es w →
  current_term w ≤ t ∧ (current_term w = t → voted w ≠ -1 → c = voted w).
Proof.
  revert w. induction es as [|e es IH]; intros w Hr Hin; [by apply elem_of_nil in Hin|].
  cbn [casts election_run] in *. destruct Hr as (Ho & Hsrc & H0 & Hb & Hid & _ & Hr).
  pose proof (step_vote_mono e w Ho H0 Hb) as [Hm Hm'].
  apply elem_of_app in Hin as [Hin|Hin].
  - destruct (cast e w) as [[t' c']|] eqn:Hc; cbn in Hin; [|by apply elem_of_nil in Hin].
    apply list_elem_of_singleton in Hin as [= -> ->].
    destruct (cast_recorded e w t' c') as (<- & <- & _); auto.
  - destruct (IH _ Hr Hin) as [Ht Hv]. split; [lia|]. intros <- Hne.
    rewrite Hv, Hm'; [done|lia..|done|lia|]. rewrite Hm'; [done|lia|done].
Qed.

(** Two votes of one term are for one server. *)
Lemma casts_agree es (w : W) t c1 c2 :
  election_run es w → (t, c1) ∈ casts es w → (t, c2) ∈ casts es w → c1 = c2.
Proof.
  revert w. induction es as [|e es IH]; intros w Hr H1 H2; [by apply elem_of_nil in H1|].
  cbn [casts election_run] in *. destruct Hr as (Ho & Hsrc & H0 & Hb & Hid & _ & Hr).
  assert (∀ c c', (t, c) ∈ option_list (cast e w) → (t, c') ∈ casts es (handle_event e w).2 →
    c = c') as Hcross.
  { intros c c' Hc Hc'. destruct (cast e w) as [[t' c'']|] eqn:E; cbn in Hc;
      [|by apply elem_of_nil in Hc].
    apply list_elem_of_singleton in Hc as [= -> ->].
    destruct (cast_recorded e w t' c'' Hsrc Hid E) as (Ht & Hv & Hne).
    destruct (casts_after _ _ _ _ Hr Hc') as [_ Hv']. rewrite <-Hv. symmetry.
    apply Hv'; [done|by rewrite Hv]. }
  apply elem_of_app in H1 as [H1|H1], H2 as [H2|H2]; eauto.
  - destruct (cast e w) as [[t' c']|]; cbn in H1, H2; [|by apply elem_of_nil in H1].
    apply list_elem_of_singleton in H1 as [= -> ->], H2 as [= ->]. done.
  - symmetry. eauto.
Qed.

(** C10: a server casts at most one vote per term.  Over any run of events
    (requests, answers, timers, commits; its own candidacies count as votes
    for itself) without a join request, which clears the vote whatever its
    term, as long as the term counter does not run out and no server has the
    id -1, two votes cast in the same term are for the same server. *)
Theorem one_vote_per_term (es : list event) (w : W) (t c1 c2 : Z) :
  election_run es w → (t, c1) ∈ casts es w → (t, c2) ∈ casts es w → c1 = c2.
Proof. apply casts_agree. Qed.

(** C27: the voting rule.  A vote request of the current term is granted
    exactly when the candidate's log is at least as up to date (by the term,
    then the index of the last entry) and this server has not voted for
    another in this term; the answer carries the decision, and a granted vote
    is in the stored state by the time the answer exists.  A refusal changes
    nothing. *)
Theorem vote_rule `{!log_store_laws LS} (req : req_msg) (w : W) :
  log_ok (log_store_ w) → is_u64 (current_term w) → is_i32 (req_src req) →
  let last_idx := next_slot_ w - 1 in
  let grant := (req_term req =? current_term w) &&
    up_to_date req (term_view (log_store_ w) last_idx) last_idx &&
    ((voted w =? req_src req) || (voted w =? -1)) in
  ∃ resp w', handle_vote_req req w = (Ok resp, w') ∧ resp_accepted resp = grant ∧
    resp_term resp = current_term w ∧ log_store_ w' = log_store_ w ∧
    if grant then
      state_ w' = mk_srv_state (current_term w) (req_src req) ∧
      saved_state_ (state_mgr_ w') = Some (state_ w')
    else w' = w.
Proof.
  intros Hok Hu Hi last_idx grant.
  pose proof (log_bounds _ Hok) as [Hb1 Hb2]. pose proof (next_slot_spec _ Hok) as Hn.
  assert (u64 (next_slot_ w - 1) = last_idx) as Hlast.
  { apply u64_small. unfold is_u64, last_idx, next_slot_. lia. }
  destruct (entry_at_view (log_store_ w) last_idx Hok) as (e & He & Ht & _).
  { unfold last_idx, next_slot_. lia. }
  assert (last_entry (log_store_ w) = Ok e) as Hle by by rewrite last_entry_spec.
  rewrite (handle_vote_req_spec req w e Hle).
  assert (grants req (le_term e) w = grant) as -> by (unfold grants; by rewrite Hlast, Ht).
  destruct grant; [|eexists _, _; done].
  unfold persist_state. rewrite bind_assoc, bind_gets.
  set (w1 := w <| state_ := _ |>).
  erewrite bind_step; [|apply on_step, save_state_spec; split; assumption].
  eexists _, _. split; [reflexivity|]. done.
Qed.

(** ** Winning an election *)

(** The count: the term, the votes, the servers that answered, who counts. *)
Definition ballot (w : W) : Z * Z * gset Z * Z :=
  (current_term w, votes_granted_ w, voted_servers_ w, id_ w).

(** More than half of the cluster, this server included. *)
Definition majority (votes : Z) (w : W) : Prop :=
  Z.of_nat (size (peer_set w)) + 1 < 2 * votes.

Lemma size_peers (w : W) : size (peers_ w) = size (peer_set w).
Proof. unfold peer_set. symmetry. apply size_dom. Qed.

(** Nothing but a new term or an answer moves the count. *)
Definition recount : relation W := λ w w',
  ballot w' = ballot w ∨
  (current_term w < current_term w' ∧ votes_granted_ w' = 0 ∧ voted_servers_ w' = ∅ ∧
   id_ w' = id_ w).

#[global] Instance recount_preorder : PreOrder recount.
Proof.
  split; [by left|]. unfold recount, ballot. intros w1 w2 w3 [[= H1 H2 H3 H4]|H1] [[= H5 H6 H7 H8]|H5].
  - left. congruence.
  - right. rewrite <-H1, <-H4. done.
  - right. rewrite H5, H6, H7, H8. done.
  - right. destruct_and!. split_and!; [lia|congruence..].
Qed.

Lemma within_recount_update_term t : within recount (update_term t).
Proof.
  intros w. destruct (Z.ltb_spec (current_term w) t).
  - right. rewrite update_term_new by done.
    assert (ballot ((persist_state ;; become_follower ;; mret true) (new_term_state t w)).2
      = ballot (new_term_state t w)) as [= -> -> -> ->] by by_frame.
    done.
  - left. by rewrite update_term_old.
Qed.

Lemma within_recount_handle_vote_req req :
  within recount (handle_vote_req (LS := LS) (SM := SM) req).
Proof.
  intros w. left.
  assert (same (λ w, (votes_granted_ w, voted_servers_ w, id_ w)) w (handle_vote_req req w).2)
    as [= H1 H2 H3] by by_frame.
  unfold ballot. rewrite H1, H2, H3. unfold current_term.
  destruct (handle_vote_req_state req w) as [->|(Ht & _ & ->)]; done.
Qed.
#[local] Hint Resolve within_recount_update_term within_recount_handle_vote_req : within.

Lemma within_recount_process_req req :
  req_type req ≠ join_cluster_request → within recount (process_req (LS := LS) (SM := SM) req).
Proof.
  intros Hj. unfold process_req, handle_extended_msg.
  destruct (req_type req); try done; within_solve idtac.
Qed.

(** No code but [become_leader] makes a leader. *)
Definition no_promotion : relation W := λ w w', role_ w' = leader → role_ w = leader.
#[global] Instance no_promotion_preorder : PreOrder no_promotion.
Proof. split; unfold no_promotion; [by intros w|intros ???; auto]. Qed.

Lemma within_no_promotion_become_follower :
  within no_promotion (become_follower (LS := LS) (SM := SM)).
Proof.
  unfold become_follower. within_solve ltac:(apply within_modify; intros w; by intros ?).
Qed.
#[local] Hint Resolve within_no_promotion_become_follower : within.

Lemma within_no_promotion_update_term t :
  within no_promotion (update_term (LS := LS) (SM := SM) t).
Proof. unfold update_term. within_solve idtac. Qed.

Lemma within_no_promotion_hear_from_leader :
  within no_promotion (hear_from_leader (LS := LS) (SM := SM)).
Proof. unfold hear_from_leader. within_solve idtac. Qed.
#[local] Hint Resolve within_no_promotion_update_term within_no_promotion_hear_from_leader : within.

Lemma within_no_promotion_process_req req :
  within no_promotion (process_req (LS := LS) (SM := SM) req).
Proof.
  unfold process_req, handle_extended_msg, handle_append_entries, handle_install_snapshot_req,
    handle_join_cluster_req.
  within_solve ltac:(apply within_modify; intros w; by intros ?).
Qed.

(** ** Counting an answer *)

(** The answer is counted. *)
Definition counts (resp : resp_msg) (w : W) : bool :=
  (resp_term resp =? current_term w) && negb (election_completed_ w) &&
  negb (bool_decide (resp_src resp ∈ voted_servers_ w)).

Definition counted (resp : resp_msg) (w : W) : W :=
  let w := w <| voted_servers_ ::= union {[resp_src resp]} |> in
  if resp_accepted resp then w <| votes_granted_ ::= λ v, i32 (v + 1) |> else w.

(** The end of [handle_voting_resp], after the count. *)
Definition decide_election : M W unit :=
  w ← gets id;
  when (size (peers_ w) + 1 <=? size (voted_servers_ w))%nat (election_completed_ <~ true) ;;
  when (i32 ((Z.of_nat (size (peers_ w)) + 1) `div` 2) <? votes_granted_ w) (
    election_completed_ <~ true ;;
    become_leader).

Lemma handle_voting_resp_cases resp (w : W) :
  handle_voting_resp resp w =
    if counts resp w then decide_election (counted resp w) else (Ok tt, w).
Proof.
  unfold handle_voting_resp, counts. rewrite bind_get.
  destruct (resp_term resp =? current_term w); cbn [negb andb]; [|done].
  destruct (election_completed_ w); cbn [negb andb]; [done|].
  destruct (bool_decide (resp_src resp ∈ voted_servers_ w)); cbn [negb]; [done|].
  rewrite bind_modify. unfold counted. by destruct (resp_accepted resp).
Qed.

Lemma decide_election_ballot (w : W) : ballot (decide_election w).2 = ballot w.
Proof. unfold decide_election. by_frame. Qed.

Lemma decide_election_elects (w : W) :
  Z.of_nat (size (peer_set w)) + 1 < 2 ^ 31 →
  role_ w ≠ leader → role_ (decide_election w).2 = leader →
  majority (votes_granted_ w) (decide_election w).2.
Proof.
  intros Hn Hr Hl. unfold majority.
  assert (peer_set (decide_election w).2 = peer_set w) as -> by (unfold decide_election; by_frame).
  rewrite <-size_peers in *. unfold decide_election in Hl. rewrite bind_get in Hl.
  rewrite i32_small in Hl.
  2:{ unfold is_i32. pose proof (Z.div_pos (Z.of_nat (size (peers_ w)) + 1) 2 ltac:(lia) ltac:(lia)).
      pose proof (Z.div_le_upper_bound (Z.of_nat (size (peers_ w)) + 1) 2 (2 ^ 31 - 1)). lia. }
  destruct (Z.ltb_spec ((Z.of_nat (size (peers_ w)) + 1) `div` 2) (votes_granted_ w)) as [Hv|Hv].
  - pose proof (Z.div_mod (Z.of_nat (size (peers_ w)) + 1) 2 ltac:(lia)).
    pose proof (Z.mod_pos_bound (Z.of_nat (size (peers_ w)) + 1) 2 ltac:(lia)). lia.
  - cbn [when] in Hl. exfalso. apply Hr. rewrite <-Hl. symmetry. by_frame.
Qed.

(** The first vote is the candidate's own. *)
Lemma request_vote_tally (w : W) :
  votes_granted_ w = 0 → voted_servers_ w = ∅ → Z.of_nat (size (peer_set w)) + 1 < 2 ^ 31 →
  let w' := (request_vote w).2 in
  ballot w' = (current_term w, votes_granted_ w', voted_servers_ w', id_ w) ∧
  (votes_granted_ w' = 0 ∧ voted_servers_ w' = ∅ ∨
   votes_granted_ w' = 1 ∧ voted_servers_ w' = {[id_ w]}) ∧
  (role_ w ≠ leader → role_ w' = leader → majority (votes_granted_ w') w').
Proof.
  intros Hv Hs Hn w'. subst w'.
  assert (same (λ w, (current_term w, id_ w)) w (request_vote w).2) as [= Ht Hi].
  { unfold request_vote. by_frame_with ltac:(apply within_modify; intros ?; reflexivity). }
  split; [unfold ballot; by rewrite Ht, Hi|].
  assert (peer_set (request_vote w).2 = peer_set w) as Hps by by_frame.
  unfold majority. rewrite Hps. clear Ht Hi Hps. unfold request_vote. rewrite bind_gets, bind_modify.
  set (w1 := update state_ _ w).
  assert (same (λ w, (ballot w, role_ w, peer_set w)) w1 (persist_state w1).2) as Hp by by_frame.
  assert (votes_granted_ w1 = 0 ∧ voted_servers_ w1 = ∅) as [Hv1 Hs1] by done.
  change (role_ w) with (role_ w1). change (id_ w) with (id_ w1).
  change (peer_set w) with (peer_set w1) in Hn |- *. clearbody w1. clear Hv Hs w.
  match goal with |- context [(persist_state ≫= ?k) w1] =>
    destruct (bind_cases persist_state k w1) as [([] & _ & ->)|[_ ->]] end;
    set (w2 := (persist_state w1).2) in *; clearbody w2;
    injection Hp as _ Hvg Hvs Hid Hr Hps; cycle 1.
  { rewrite Hvg, Hvs, Hr. split; [by left|congruence]. }
  rewrite !bind_modify, bind_get. set (w3 := update voted_servers_ _ _).
  assert (votes_granted_ w3 = 1) as Hv3.
  { change (i32 (votes_granted_ w2 + 1) = 1). by rewrite Hvg, Hv1. }
  assert (voted_servers_ w3 = {[id_ w1]}) as Hs3.
  { change ({[id_ w1]} ∪ voted_servers_ w2 = {[id_ w1]}). rewrite Hvs, Hs1. set_solver. }
  assert (role_ w3 = role_ w1) as Hr3 by exact Hr.
  assert (size (peers_ w3) = size (peer_set w1)) as Hp3 by (rewrite size_peers, <-Hps; done).
  clearbody w3. rewrite Hp3, i32_small by (unfold is_i32; lia).
  rewrite <-Hv3, <-Hs3, <-Hr3, Hv3.
  rewrite Z.quot_div_nonneg by lia.
  pose proof (Z.div_mod (Z.of_nat (size (peer_set w1)) + 1) 2 ltac:(lia)).
  pose proof (Z.mod_pos_bound (Z.of_nat (size (peer_set w1)) + 1) 2 ltac:(lia)).
  destruct (Z.ltb_spec ((Z.of_nat (size (peer_set w1)) + 1) `div` 2) 1).
  - assert (ballot ((election_completed_ <~ true ;; become_leader) w3).2 = ballot w3)
      as [= _ -> -> _] by by_frame. rewrite Hv3. split; [by right|]. lia.
  - match goal with |- context [for_each ?l ?f w3] =>
      assert (same (λ w, (ballot w, role_ w)) w3 (for_each l f w3).2) as [= _ -> -> _ ->] by by_frame end.
    rewrite Hv3. split; [by right|]. congruence.
Qed.

(** ** The count over a run *)

(** In a newer term the rest of the handler is skipped. *)
Lemma update_term_then t (k : M W unit) (w : W) :
  current_term w < t →
  ((newer ← update_term t; if (newer : bool) then mret tt else k) w).2 = (update_term t w).2.
Proof.
  intros Hlt.
  match goal with |- context [(update_term t ≫= ?k) w] =>
    destruct (bind_cases (update_term t) k w) as [(a & Ha & ->)|[_ ->]] end; [|done].
  enough (a = true) as -> by done. rewrite update_term_new in Ha by done.
  unfold mbind, M_bind in Ha. destruct (persist_state _) as [[] ?]; [|done..].
  destruct (become_follower _) as [[] ?]; [|done..]. by injection Ha.
Qed.

(** An accepted answer to a vote request: the term and the voter. *)
Definition vote_received (e : event) : option (Z * Z) :=
  match e with
  | EvRpcResult _ _ _ (Some resp) =>
      if bool_decide (resp_type resp = request_vote_response) && resp_accepted resp
      then Some (resp_term resp, resp_src resp) else None
  | _ => None
  end.

(** How one event moves the count. *)
Definition tally_step (e : event) (w w' : W) : Prop :=
  id_ w' = id_ w ∧
  (ballot w' = ballot w ∨
   (current_term w < current_term w' ∧
     (votes_granted_ w' = 0 ∨
      votes_granted_ w' = 1 ∧ voted_servers_ w' = {[id_ w]} ∧
      cast e w = Some (current_term w', id_ w))) ∨
   ∃ resp, resp_src resp ∉ voted_servers_ w ∧ current_term w' = current_term w ∧
     voted_servers_ w' = {[resp_src resp]} ∪ voted_servers_ w ∧
     (votes_granted_ w' = votes_granted_ w ∨
      votes_granted_ w' = i32 (votes_granted_ w + 1) ∧
      vote_received e = Some (current_term w, resp_src resp))).

(** One event: the count moves as above, and a server that becomes leader has
    a majority. *)
Definition tallies (e : event) (w w' : W) : Prop :=
  tally_step e w w' ∧
  (Z.of_nat (size (peer_set w)) + 1 < 2 ^ 31 → role_ w ≠ leader → role_ w' = leader →
   majority (votes_granted_ w') w').

Lemma recount_tallies e w w' : recount w w' → no_promotion w w' → tallies e w w'.
Proof.
  intros Hc Hp. split; [|intros _ Hr Hl; by destruct Hr; apply Hp].
  destruct Hc as [Hb|(Ht & Hv & Hs & Hi)].
  - pose proof Hb as [= _ _ _ Hi]. split; [done|]. by left.
  - split; [done|]. right. left. split; [done|]. by left.
Qed.

Lemma voting_tallies obj req h resp (w : W) :
  resp_type resp = request_vote_response →
  tallies (EvRpcResult obj req h (Some resp)) w (handle_voting_resp resp w).2.
Proof.
  intros Hty. rewrite handle_voting_resp_cases. destruct (counts resp w) eqn:Hc.
  2:{ apply recount_tallies; [by left|done]. }
  apply andb_true_iff in Hc as [[Ht%Z.eqb_eq _]%andb_true_iff Hs%negb_true_iff%bool_decide_eq_false].
  pose proof (decide_election_ballot (counted resp w)) as [= Ht' Hv' Hs' Hi'].
  split.
  - split; [rewrite Hi'; unfold counted; by destruct (resp_accepted resp)|]. right. right.
    exists resp. split; [done|]. rewrite Ht', Hv', Hs'. unfold counted.
    destruct (resp_accepted resp) eqn:Ha; (split_and!; [done..|]); [right|by left].
    split; [done|]. unfold vote_received. by rewrite Ha, Hty, Ht.
  - intros Hn Hr Hl. rewrite Hv'. apply decide_election_elects; [| |done];
      unfold counted; by destruct (resp_accepted resp).
Qed.

Lemma within_same_pair {A B C} (f : W → A) (g : W → B) (m : M W C) :
  within (same f) m → within (same g) m → within (same (λ w, (f w, g w))) m.
Proof. intros Hf Hg w. unfold same. by rewrite Hf, Hg. Qed.

(** Code in front that leaves the count, the role and the peers alone. *)
Definition calm : relation W := same (λ w, (ballot w, role_ w, peer_set w)).

Lemma calm_tallies e w w1 w' :
  (∀ w, cast e w = None) → calm w w1 → tallies e w1 w' → tallies e w w'.
Proof.
  unfold calm, same. intros He [= Ht Hv Hs Hi Hr Hp] [[Hid Hstep] Hel]. split.
  - unfold tally_step, ballot in *. rewrite He, Ht, Hv, Hs, Hi in *. done.
  - unfold majority in *. rewrite Hp, Hr in *. done.
Qed.

Lemma peer_resp_tallies obj req h resp (w : W) :
  tallies (EvRpcResult obj req h (Some resp)) w (handle_peer_resp (Some resp) w).2.
Proof.
  unfold handle_peer_resp. rewrite bind_get. set (m := when _ _).
  assert (within calm m) as Hm.
  { apply (within_same_pair (λ w, (ballot w, role_ w)) peer_set); unfold m; within_solve idtac. }
  match goal with |- context [(m ≫= ?k) w] => destruct (bind_cases m k w) as [([] & _ & ->)|[_ ->]] end;
    cycle 1.
  { eapply calm_tallies; [done|apply Hm|]. apply recount_tallies; [by left|done]. }
  eapply calm_tallies; [done|apply Hm|]. generalize (m w).2 as w1. clear Hm m w. intros w.
  destruct (Z.ltb_spec (current_term w) (resp_term resp)).
  - rewrite update_term_then by done. apply recount_tallies.
    + apply within_recount_update_term.
    + apply within_no_promotion_update_term.
  - erewrite bind_step by (by apply update_term_old).
    destruct (resp_type resp) eqn:Hty; try solve [apply recount_tallies; [left|]; by_frame].
    by apply voting_tallies.
Qed.

Lemma candidate_tallies uid success t (w : W) :
  expired uid success (scheduler_ w) = Some (t, TElection) → stands_for_election w = true →
  0 ≤ current_term w → is_u64 (current_term w + 1) → Z.of_nat (size (peer_set w)) + 1 < 2 ^ 31 →
  tallies (EvTimer uid success) w (run_for_leader (candidate_state w)).2.
Proof.
  intros Hex Hst H0 Hu Hn. unfold run_for_leader.
  assert (cast (EvTimer uid success) w = Some (current_term (candidate_state w), id_ w)) as Hcast
    by (cbn [cast]; by rewrite Hex, Hst).
  assert (current_term w < current_term (candidate_state w)) as Hlt
    by (rewrite candidate_term, u64_small by done; lia).
  assert (votes_granted_ (candidate_state w) = 0 ∧ voted_servers_ (candidate_state w) = ∅ ∧
    id_ (candidate_state w) = id_ w ∧ role_ (candidate_state w) = candidate ∧
    peer_set (candidate_state w) = peer_set w) as (Hv & Hs & Hi & Hr & Hp) by done.
  generalize dependent (candidate_state w). intros w0 Hcast Hlt Hv Hs Hi Hr Hp.
  assert (calm w0 (persist_state w0).2) as Hc by by_frame.
  match goal with |- context [(persist_state ≫= ?k) w0] =>
    destruct (bind_cases persist_state k w0) as [([] & _ & ->)|[_ ->]] end;
    generalize dependent (persist_state w0).2; intros w1 [= Ht1 Hv1 Hs1 Hi1 Hr1 Hp1]; cycle 1.
  { split; [split; [congruence|]|congruence]. right. left. split; [lia|]. left. congruence. }
  destruct (request_vote_tally w1) as (Hb & Hvs & Hel); [congruence..|by rewrite Hp1, Hp|].
  set (w2 := (request_vote w1).2) in *.
  assert (tallies (EvTimer uid success) w w2) as Hw2.
  { injection Hb as Ht2 Hi2. split; [split; [congruence|]|].
    - right. left. split; [lia|]. rewrite Ht2, Ht1. destruct Hvs as [[? _]|[? Hvs]]; [by left|right].
      split_and!; [done| |done]. by rewrite Hvs, Hi1, Hi.
    - intros _ _ Hl. apply Hel; [congruence|done]. }
  match goal with |- context [(request_vote ≫= ?k) w1] =>
    destruct (bind_cases request_vote k w1) as [([] & _ & ->)|[_ ->]] end; [|exact Hw2].
  fold w2. clearbody w2. clear Hel Hvs Hb.
  match goal with |- tallies _ _ (?m w2).2 =>
    assert (calm w2 (m w2).2) as Hc3; [|generalize dependent (m w2).2] end.
  { apply (within_same_pair (λ w, (ballot w, role_ w)) peer_set); within_solve idtac. }
  intros w3 [= Ht3 Hv3 Hs3 Hi3 Hr3 Hp3]. destruct Hw2 as [[Hid Hst2] Hel2]. split.
  - unfold tally_step, ballot in *. rewrite Ht3, Hv3, Hs3, Hi3. done.
  - unfold majority in *. rewrite Hp3, Hr3, Hv3. done.
Qed.

Lemma step_tallies e (w : W) :
  ordinary e → 0 ≤ current_term w → current_term w + 1 < 2 ^ 64 →
  Z.of_nat (size (peer_set w)) + 1 < 2 ^ 31 → tallies e w (handle_event e w).2.
Proof.
  intros Ho H0 Hb Hn. destruct e as [req|obj req h result|uid success| |now]; cbn [handle_event].
  - apply recount_tallies.
    + pose proof (within_recount_process_req req Ho) as Hp. by_frame.
    + pose proof (within_no_promotion_process_req req) as Hp. by_frame.
  - unfold handle_rpc_result. rewrite bind_get.
    match goal with |- context [(?m0 ≫= _) w] => set (m := m0) end.
    assert (within calm m) as Hm.
    { apply (within_same_pair (λ w, (ballot w, role_ w)) peer_set); unfold m; within_solve idtac. }
    match goal with |- context [(m ≫= ?k) w] =>
      destruct (bind_cases m k w) as [([] & _ & ->)|[_ ->]] end;
      (eapply calm_tallies; [done|apply Hm|]); [|apply recount_tallies; [by left|done]].
    generalize (m w).2 as w1. intros w1. destruct h; [destruct result as [resp|]|].
    + apply peer_resp_tallies.
    + apply recount_tallies; [by left|done].
    + apply recount_tallies; [left|]; by_frame.
  - destruct (timer_expired_cases uid success w) as [[[t Hex] ->]|HR].
    2:{ apply recount_tallies; [left|]; [apply (HR (same ballot)); apply _|apply (HR no_promotion); apply _]. }
    destruct (election_timeout_cases w) as [[Hst ->]|[_ [= Hs Hr Hv Hvs Hi]]].
    2:{ apply recount_tallies; [left|unfold no_promotion; congruence].
        unfold ballot, current_term. congruence. }
    by apply (candidate_tallies _ _ t); [..|unfold is_u64; lia|].
  - apply recount_tallies; [left|]; by_frame.
  - apply recount_tallies; [by left|by intros ?].
Qed.

(** ** Elected by a majority *)

Definition state_after (es : list event) (w : W) : W :=
  foldl (λ w e, (handle_event e w).2) w es.

Definition votes_received (es : list event) : list (Z * Z) := omap vote_received es.

(** The votes counted so far, with the servers they came from: the server's
    own vote among those it cast, the others among those it received. *)
Definition tally (own rec : list (Z * Z)) (w : W) : Prop :=
  ∃ G : gset Z, Z.of_nat (size G) = votes_granted_ w ∧ G ⊆ voted_servers_ w ∧
    ∀ s, s ∈ G → s = id_ w ∧ (current_term w, s) ∈ own ∨ (current_term w, s) ∈ rec.

(** Counters that fit their types, nobody joins another cluster. *)
Definition countable (e : event) (w : W) : Prop :=
  ordinary e ∧ 0 ≤ current_term w ∧ current_term w + 1 < 2 ^ 64 ∧
  Z.of_nat (size (peer_set w)) + 1 < 2 ^ 31 ∧ votes_granted_ w + 1 < 2 ^ 31.

Fixpoint countable_run (es : list event) (w : W) : Prop :=
  match es with
  | [] => True
  | e :: es' => countable e w ∧ countable_run es' (handle_event e w).2
  end.

Lemma countable_run_snoc es e (w : W) :
  countable_run es w → countable e (state_after es w) → countable_run (es ++ [e]) w.
Proof.
  revert w. induction es as [|e' es IH]; intros w; cbn; [by auto|]. intros [Hc Hr] He. auto.
Qed.

Lemma election_run_snoc es e (w : W) :
  election_run es w → election_run [e] (state_after es w) → election_run (es ++ [e]) w.
Proof.
  revert w. induction es as [|e' es IH]; intros w; [by auto|].
  cbn [election_run app]. intros (? & ? & ? & ? & ? & ? & Hr) He. split_and!; [done..|].
  by apply IH.
Qed.

Lemma casts_app es es' (w : W) : casts (es ++ es') w = casts es w ++ casts es' (state_after es w).
Proof. revert w. induction es as [|e es IH]; intros w; cbn; [done|]. by rewrite IH, app_assoc. Qed.

Lemma tally_after e own rec (w : W) :
  countable e w → tally own rec w →
  tally (own ++ option_list (cast e w)) (rec ++ option_list (vote_received e))
    (handle_event e w).2.
Proof.
  intros (Ho & H0 & Hb & Hn & Hv) (G & HG & Hsub & Hfrom).
  destruct (step_tallies e w Ho H0 Hb Hn) as [[Hi Hstep] _].
  set (w' := (handle_event e w).2) in *. clearbody w'.
  destruct Hstep as [[= Ht Hv' Hs _]|[[_ [Hv0|(Hv1 & Hs1 & Hc)]]|(resp & Hnew & Ht & Hs & Hv')]].
  - exists G. rewrite Hv', Hs, Hi, Ht. set_solver.
  - exists ∅. rewrite Hv0. split_and!; [done|set_solver..].
  - exists {[id_ w]}. rewrite Hv1, Hs1, size_singleton, Hi, Hc. split_and!; [done|set_solver|].
    intros s. rewrite elem_of_singleton. intros ->. left. cbn. set_solver.
  - destruct Hv' as [Hv'|[Hv' Hrec]].
    + exists G. rewrite Hv', Hs, Hi, Ht. set_solver.
    + exists ({[resp_src resp]} ∪ G). rewrite Hv', Hs, Hi, Ht.
      rewrite size_union, size_singleton, i32_small by (unfold is_i32; lia || set_solver).
      split_and!; [lia|set_solver|]. rewrite Hrec. cbn. set_solver.
Qed.

Lemma tally_run es own rec (w : W) :
  countable_run es w → tally own rec w →
  tally (own ++ casts es w) (rec ++ votes_received es) (state_after es w).
Proof.
  revert own rec w. induction es as [|e es IH]; intros own rec w Hc Ht.
  - by rewrite !app_nil_r.
  - destruct Hc as [He Hc]. unfold votes_received. cbn [omap list_omap casts].
    replace (rec ++ _) with ((rec ++ option_list (vote_received e)) ++ votes_received es).
    + rewrite (app_assoc own). by apply IH, tally_after.
    + rewrite <-app_assoc. f_equal. by destruct (vote_received e).
Qed.

(** C11: a leader was elected by a majority of its cluster.  In a run without
    join requests in which the votes received in the current term are from
    servers of its cluster, an event makes a server that started with no votes
    leader only when a set of more than half of its cluster voted for it in
    its current term: the server itself by standing for election, every other
    by an accepted answer received. *)
Theorem leader_elected_by_majority (es : list event) (e : event) (w0 : W) :
  votes_granted_ w0 = 0 → countable_run (es ++ [e]) w0 →
  role_ (state_after es w0) ≠ leader → role_ (state_after (es ++ [e]) w0) = leader →
  let w := state_after (es ++ [e]) w0 in
  let members := {[id_ w]} ∪ peer_set w in
  (∀ s, (current_term w, s) ∈ votes_received (es ++ [e]) → s ∈ members) →
  ∃ G : gset Z, G ⊆ members ∧ (size members < 2 * size G)%nat ∧
    ∀ s, s ∈ G → s = id_ w ∧ (current_term w, s) ∈ casts (es ++ [e]) w0 ∨
                 (current_term w, s) ∈ votes_received (es ++ [e]).
Proof.
  intros H0 Hc Hr Hl w members Hm.
  destruct (tally_run (es ++ [e]) [] [] w0) as (G & HG & _ & Hfrom); [done| |].
  { exists ∅. rewrite H0. split_and!; [done|set_solver..]. }
  exists G. split; [|split; [|exact Hfrom]].
  { intros s [[-> _]|Hs]%Hfrom; [subst members; set_solver|by apply Hm]. }
  enough (majority (votes_granted_ w) w) as Hmaj.
  { unfold majority in Hmaj. fold w in HG. rewrite <-HG in Hmaj. subst members.
    rewrite size_union_alt, size_singleton.
    pose proof (subseteq_size (peer_set w ∖ {[id_ w]}) (peer_set w) ltac:(set_solver)). lia. }
  assert (state_after (es ++ [e]) w0 = (handle_event e (state_after es w0)).2) as Hw
    by (unfold state_after; by rewrite foldl_app).
  assert (countable e (state_after es w0)) as (Ho & Hp & Hb & Hn & _).
  { clear -Hc. revert w0 Hc. induction es as [|e' es IH]; intros w0 Hc; cbn in *; [naive_solver|].
    apply IH. naive_solver. }
  unfold w. rewrite Hw in *. by apply step_tallies.
Qed.
End elections.

#[local] Existing Instance zero_mem.

(** Server 1 is asked for its vote by servers 2 and 3 in term 1. *)
Definition two_candidates : list event :=
  [EvRequest (vote_req 2 1 0 0); EvRequest (vote_req 3 1 0 0); EvTimer 1 true].

Lemma one_vote_per_term_witness :
  casts two_candidates server1 = [(1, 2); (2, 1)] ∧
  ∀ c, (1, c) ∈ casts two_candidates server1 → c = 2.
Proof.
  assert (casts two_candidates server1 = [(1, 2); (2, 1)]) as E by (vm_compute; reflexivity).
  split; [exact E|]. intros c Hc. apply (one_vote_per_term two_candidates server1 1 c 2); [|done|].
  - repeat split; try (vm_compute; congruence); intros u; vm_compute; congruence.
  - rewrite E. constructor.
Defined.

(** Server 1 stands for election and server 2 votes for it. *)
Definition election_events : list event := [EvTimer 1 true].
Definition winning_event : event :=
  EvRpcResult 0 (vote_req 1 1 0 0) resp_handler (Some (vote_resp 2 1 true)).

Lemma leader_elected_by_majority_witness :
  role_ (state_after (election_events ++ [winning_event]) server1) = leader ∧
  ∃ G : gset Z, G ⊆ {[1; 2; 3]} ∧ (3 < 2 * size G)%nat ∧ ∀ s, s ∈ G →
    s = 1 ∨ (1, s) ∈ votes_received (election_events ++ [winning_event]).
Proof.
  assert (role_ (state_after (election_events ++ [winning_event]) server1) = leader) as Hl
    by (vm_compute; reflexivity).
  split; [exact Hl|].
  set (w := state_after (election_events ++ [winning_event]) server1) in *.
  assert ({[id_ w]} ∪ peer_set w = {[1; 2; 3]}) as Em by (vm_compute; reflexivity).
  assert (current_term w = 1 ∧ id_ w = 1) as [Et Ei] by (vm_compute; split; reflexivity).
  destruct (leader_elected_by_majority election_events winning_event server1) as (G & Hsub & Hsz & HG).
  - vm_compute. reflexivity.
  - repeat split; vm_compute; congruence.
  - vm_compute. congruence.
  - exact Hl.
  - intros s. fold w. rewrite Em, Et.
    replace (votes_received _) with [(1, 2)] by (vm_compute; reflexivity).
    rewrite list_elem_of_singleton. intros [= ->]. set_solver.
  - fold w in Hsub, Hsz. rewrite Em in Hsub, Hsz. exists G. split; [exact Hsub|]. split; [exact Hsz|].
    intros s Hs. destruct (HG s Hs) as [[-> _]|Hin]; [left; exact Ei|].
    right. fold w in Hin. rewrite Et in Hin. exact Hin.
Defined.

Lemma vote_rule_witness :
  ∃ resp w', handle_vote_req (vote_req 2 0 0 0) server1 = (Ok resp, w') ∧
    resp_accepted resp = true.
Proof.
  destruct (vote_rule (vote_req 2 0 0 0) server1) as (resp & w' & Hp & Ha & _).
  - exists dummy_entry, []. replace (log_store_ server1) with mem_new by (vm_compute; reflexivity).
    apply mem_new_holds.
  - vm_compute. split; congruence.
  - vm_compute. split; congruence.
  - exists resp, w'. split; [exact Hp|]. rewrite Ha. vm_compute. reflexivity.
Defined.
