(* ===== verification/PeerTable.v ===== *)
(** * The table of peers

    What makes the table [peers_] and the joining server [srv_to_join_] of a
    [raft_server] well-formed, and that every event keeps it so: a peer is filed
    under its own id, no two entries are the same object (timers and pending
    calls are bound to objects), and its heartbeat interval is within the
    bounds the parameters give. *)

From S2P Require Import Prelude Buffer Config Messages LogStore StateMachine StateMgr Scheduler Peer Server Membership Requests Responses Samples Frames PeerSet Elections.

Section peer_table.
Context `{FreshMem} {LS SM : Type} `{!log_store LS} `{!state_machine SM}.
#[local] Abbreviation W := (raft_server LS SM).

(** A peer made by this server and counted by [next_obj]. *)
Definition made (w : W) (p : peer) : Prop := peer_inv (params_ w) p ∧ (p_obj p < next_obj w)%nat.

Record table_ok (w : W) : Prop := {
  tb_params : params_ok (params_ w);
  tb_peer i p : peers_ w !! i = Some p → p_id p = i ∧ made w p;
  tb_join p : srv_to_join_ w = Some p → made w p;
  tb_unique i j p q : peers_ w !! i = Some p → peers_ w !! j = Some q → p_obj p = p_obj q → i = j;
  tb_apart i p q : peers_ w !! i = Some p → srv_to_join_ w = Some q → p_obj p ≠ p_obj q;
}.

Definition keeps_table : relation W := λ w w', table_ok w → table_ok w'.
#[local] Instance keeps_table_preorder : PreOrder keeps_table.
Proof. split; unfold keeps_table; [by intros w|intros ???; auto]. Qed.

(** What well-formedness looks at. *)
Definition table (w : W) := (params_ w, peers_ w, srv_to_join_ w, next_obj w).

Lemma keeps_same w w' : table w' = table w → keeps_table w w'.
Proof.
  intros [= Hps Hp Hj Hn] [H1 H2 H3 H4 H5]. split; unfold made in *; rewrite ?Hps, ?Hp, ?Hj, ?Hn; done.
Qed.

Lemma keeps_frame {A} (m : M W A) : within (same table) m → within keeps_table m.
Proof. intros Hm w. exact (keeps_same _ _ (Hm w)). Qed.

(** The same object with other bookkeeping. *)
Definition evolves (p q : peer) : Prop :=
  p_obj q = p_obj p ∧ p_config q = p_config p ∧ ∀ ps, params_ok ps → peer_inv ps p → peer_inv ps q.

Lemma made_evolves (w : W) p q : params_ok (params_ w) → evolves p q → made w p → made w q.
Proof. intros Hps (Ho & _ & Hi) [Hp Hn]. split; [by apply Hi|by rewrite Ho]. Qed.

(** Writing a peer back. *)
Lemma keeps_set_peer r p q (w : W) :
  find_peer r w = Some p → evolves p q → keeps_table w (set_peer r q w).2.
Proof.
  intros Hp Hev Hw. pose proof Hw as [Hps Hpe Hj Hu Ha]. pose proof Hev as (Ho & Hc & _).
  destruct r as [i|]; cbn in *; unfold update; split; cbn; try done.
  - intros j x [[<- <-]|[Hne Hx]]%lookup_insert_Some; [|by apply Hpe].
    destruct (Hpe i p Hp) as [Hid Hm]. split; [|by apply (made_evolves w p)]. unfold p_id in *. by rewrite Hc.
  - intros j k x y [[<- <-]|[Hj1 Hx]]%lookup_insert_Some [[<- <-]|[Hk1 Hy]]%lookup_insert_Some E; try done;
      (eapply Hu; [| |]; [done..|congruence]).
  - intros j x y [[<- <-]|[Hne Hx]]%lookup_insert_Some Hy; [rewrite Ho|]; by eapply Ha.
  - intros x [= <-]. apply (made_evolves w p); [done..|]. by apply Hj.
  - intros i x y Hx [= <-]. rewrite Ho. by eapply Ha.
Qed.

Lemma keeps_upd_peer r f : (∀ p, evolves p (f p)) → within keeps_table (upd_peer (LS := LS) (SM := SM) r f).
Proof.
  intros Hf. unfold upd_peer. apply within_get_peer_then; [apply _|]. intros w p Hp. by eapply keeps_set_peer.
Qed.

(** ** The changes the code makes to a peer *)

Create HintDb evolve.
Lemma evolves_refl p : evolves p p.
Proof. by split_and!. Qed.
Lemma evolves_trans p q x : evolves p q → evolves q x → evolves p x.
Proof. intros (Ho & Hc & Hi) (Ho' & Hc' & Hi'). split_and!; [congruence..|auto]. Qed.

(** A setter that leaves the interval alone. *)
Lemma evolves_set p q :
  p_obj q = p_obj p → p_config q = p_config p →
  (current_hb_interval_ q, hb_interval_ q, max_hb_interval_ q, rpc_backoff_ q) =
    (current_hb_interval_ p, hb_interval_ p, max_hb_interval_ p, rpc_backoff_ p) → evolves p q.
Proof.
  intros Ho Hc [= H1 H2 H3 H4]. split_and!; [done..|]. intros ps _. unfold peer_inv, hb_ok.
  by rewrite H1, H2, H3, H4.
Qed.

Lemma evolves_slow_down p : evolves p (slow_down_hb p).
Proof. split_and!; [done..|]. intros ps. apply slow_down_inv. Qed.
Lemma evolves_resume p : evolves p (resume_hb_speed p).
Proof. split_and!; [done..|]. intros ps. apply resume_inv. Qed.

Lemma evolves_rpc_completed t b p : evolves p (rpc_completed t b p).
Proof.
  unfold rpc_completed. eapply evolves_trans; [|destruct b; [apply evolves_slow_down|apply evolves_resume]].
  destruct t; try apply evolves_refl; by apply evolves_set.
Qed.

Lemma evolves_make_busy p : evolves p (make_busy p).2.
Proof. unfold make_busy. destruct (busy_flag_ p); [apply evolves_refl|by apply evolves_set]. Qed.
Lemma evolves_clear_pending p : evolves p (clear_pending_commit p).2.
Proof. unfold clear_pending_commit. destruct (pending_commit_flag_ p); [by apply evolves_set|apply evolves_refl]. Qed.
#[local] Hint Resolve evolves_slow_down evolves_resume evolves_rpc_completed : evolve.

Ltac evolve := intros ?; first [solve [auto with evolve nocore] | by apply evolves_set
                               | case_match; by apply evolves_set
                               | eapply evolves_trans; [apply evolves_resume|by apply evolves_set]].
#[local] Hint Extern 1 (within keeps_table (upd_peer _ _)) => (apply keeps_upd_peer; evolve) : within.
#[local] Hint Extern 5 (within keeps_table _) => (apply keeps_frame; solve [within_solve ignored]) : within.

(** The joining server is forgotten. *)
Lemma keeps_forget : within keeps_table (srv_to_join_ <~ None).
Proof. intros w [Hps Hp Hj Hu Ha]. by split. Qed.
#[local] Hint Resolve keeps_forget : within.

(** ** Sending *)

Lemma keeps_create_sync_snapshot_req r i t c :
  within keeps_table (create_sync_snapshot_req (LS := LS) (SM := SM) r i t c).
Proof. unfold create_sync_snapshot_req. within_solve fail. Qed.
#[local] Hint Resolve keeps_create_sync_snapshot_req : within.

Lemma keeps_create_append_entries_req r :
  within keeps_table (create_append_entries_req (LS := LS) (SM := SM) r).
Proof. unfold create_append_entries_req. within_solve fail. Qed.
#[local] Hint Resolve keeps_create_append_entries_req : within.

(** After a peer was read and written back the code goes on. *)
Lemma keeps_set_then {A} r p q (k : M W A) (w : W) :
  find_peer r w = Some p → evolves p q → within keeps_table k →
  keeps_table w ((set_peer r q ;; k) w).2.
Proof.
  intros Hp Hev Hk. etrans; [by eapply keeps_set_peer|]. destruct r; cbn [set_peer]; rewrite bind_modify; apply Hk.
Qed.

Lemma keeps_request_append_entries_to r :
  within keeps_table (request_append_entries_to (LS := LS) (SM := SM) r).
Proof.
  unfold request_append_entries_to. apply within_get_peer_then; [apply _|]. intros w p Hp.
  pose proof (evolves_make_busy p) as Hev. destruct (make_busy p) as [[] p']; [|done].
  apply (keeps_set_then r p p'); [done..|]. within_solve fail.
Qed.
#[local] Hint Resolve keeps_request_append_entries_to : within.

Lemma keeps_commit i : within keeps_table (commit (LS := LS) (SM := SM) i).
Proof. unfold commit. within_solve fail. Qed.
#[local] Hint Resolve keeps_commit : within.

Lemma keeps_request_append_entries : within keeps_table (request_append_entries (LS := LS) (SM := SM)).
Proof. unfold request_append_entries. within_solve fail. Qed.
#[local] Hint Resolve keeps_request_append_entries : within.

(** ** Heartbeats *)

Lemma enable_hb_evolves b p (w w' : W) q : enable_hb b p w = (Ok q, w') → evolves p q.
Proof.
  unfold enable_hb. intros Hq. apply bind_inv_ok in Hq as ([] & w1 & _ & [= <- _]). by apply evolves_set.
Qed.

Lemma enable_hb_for_peer_evolves p (w w' : W) q : enable_hb_for_peer p w = (Ok q, w') → evolves p q.
Proof.
  unfold enable_hb_for_peer. intros Hq. apply bind_inv_ok in Hq as (p1 & w1 & Hp1 & Hq).
  apply bind_inv_ok in Hq as ([] & w2 & _ & [= <- _]).
  eapply evolves_trans; [by eapply enable_hb_evolves|apply evolves_resume].
Qed.

(** A peer written back after code that leaves the table alone. *)
Lemma keeps_set_after r p (m : M W peer) (w : W) :
  find_peer r w = Some p → within (same table) m →
  (∀ w' q, m w = (Ok q, w') → evolves p q) → keeps_table w ((m ≫= set_peer r) w).2.
Proof.
  intros Hp Hm Hev. pose proof (Hm w) as Hs. destruct (m w) as [[q|x|u] w'] eqn:E; cbn [snd] in Hs.
  - rewrite (bind_step _ _ _ _ _ E). etrans; [by apply keeps_same|].
    apply (keeps_set_peer r p); [|by eapply Hev]. injection Hs as _ H1 H2 _.
    destruct r; cbn in *; by rewrite ?H1, ?H2.
  - erewrite bind_throw by done. by apply keeps_same.
  - erewrite bind_fault by done. by apply keeps_same.
Qed.

Lemma keeps_enable i : within keeps_table
  (p ← get_peer (PeerOf i); p ← enable_hb_for_peer p; set_peer (LS := LS) (SM := SM) (PeerOf i) p).
Proof.
  apply within_get_peer_then; [apply _|]. intros w p Hp.
  apply (keeps_set_after _ p); [done|within_solve ignored|]. intros w' q. apply enable_hb_for_peer_evolves.
Qed.

Lemma keeps_disable i : within keeps_table
  (p ← get_peer (PeerOf i); p ← enable_hb false p; set_peer (LS := LS) (SM := SM) (PeerOf i) p).
Proof.
  apply within_get_peer_then; [apply _|]. intros w p Hp.
  apply (keeps_set_after _ p); [done|within_solve ignored|]. intros w' q. apply enable_hb_evolves.
Qed.
#[local] Hint Resolve keeps_enable keeps_disable : within.

(** Walk, with the loops over the peers as they are. *)
Ltac keeps_solve := repeat (first [apply keeps_enable | apply keeps_disable | within_step fail]).

Lemma keeps_become_leader : within keeps_table (become_leader (LS := LS) (SM := SM)).
Proof. unfold become_leader. keeps_solve. Qed.
Lemma keeps_become_follower : within keeps_table (become_follower (LS := LS) (SM := SM)).
Proof. unfold become_follower. keeps_solve. Qed.
#[local] Hint Resolve keeps_become_leader keeps_become_follower : within.

Lemma keeps_update_term t : within keeps_table (update_term (LS := LS) (SM := SM) t).
Proof. unfold update_term. keeps_solve. Qed.
Lemma keeps_request_vote : within keeps_table (request_vote (LS := LS) (SM := SM)).
Proof. unfold request_vote. keeps_solve. Qed.
#[local] Hint Resolve keeps_update_term keeps_request_vote : within.

(** ** New peers *)

(** A peer that is in no table yet. *)
Definition unfiled (w : W) (p : peer) : Prop :=
  made w p ∧ (∀ i q, peers_ w !! i = Some q → p_obj q ≠ p_obj p) ∧
  (∀ q, srv_to_join_ w = Some q → p_obj q ≠ p_obj p).

Lemma unfiled_evolves (w w' : W) p q :
  table_ok w → table w' = table w → evolves p q → unfiled w p → unfiled w' q.
Proof.
  intros Hw [= Hps Hp Hj Hn] Hev (Hm & H1 & H2). pose proof Hev as (Ho & _ & Hi).
  apply (made_evolves w p q) in Hm; [|apply Hw|done]. unfold unfiled, made in *.
  rewrite Hps, Hp, Hj, Hn, Ho. rewrite Ho in Hm. done.
Qed.

Lemma new_peer_unfiled c (w w' : W) p :
  table_ok w → new_peer c w = (Ok p, w') → table_ok w' ∧ unfiled w' p ∧ p_config p = c ∧
    (params_ w', peers_ w', srv_to_join_ w') = (params_ w, peers_ w, srv_to_join_ w).
Proof.
  intros Hw Hp. pose proof Hw as [Hps Hpe Hj Hu Ha]. unfold new_peer in Hp.
  rewrite bind_gets, bind_modify in Hp. unfold emit in Hp. rewrite bind_modify in Hp.
  erewrite bind_step in Hp by (apply on_step, new_task_spec). rewrite bind_gets in Hp.
  injection Hp as <- <-. unfold unfiled, made, update; cbn.
  assert (∀ i q, peers_ w !! i = Some q → p_obj q ≠ next_obj w) as Hne.
  { intros i q Hq. destruct (Hpe i q Hq) as (_ & _ & Hlt). lia. }
  assert (∀ q, srv_to_join_ w = Some q → p_obj q ≠ next_obj w) as Hnj.
  { intros q Hq. destruct (Hj q Hq) as (_ & Hlt). lia. }
  split; [split; cbn; try done|split_and!; try done].
  - intros i q Hq. destruct (Hpe i q Hq) as (Hid & Hi & Hlt). split; [done|]. split; [done|cbn; lia].
  - intros q Hq. destruct (Hj q Hq) as (Hi & Hlt). split; [done|cbn; lia].
  - pose proof (max_hb_interval_bounds _ Hps). unfold peer_inv, hb_ok; cbn. lia.
  - lia.
Qed.

(** Filing a peer under its id, unless there is one. *)
Lemma keeps_file i p (w : W) :
  unfiled w p → p_id p = i → peers_ w !! i = None → keeps_table w (w <| peers_ ::= <[i := p]> |>).
Proof.
  intros (Hm & H1 & H2) Hid Hnone [Hps Hpe Hj Hu Ha]. split; unfold update; cbn; try done.
  - intros j q [[<- <-]|[_ Hq]]%lookup_insert_Some; [done|by apply Hpe].
  - intros j k x y [[<- <-]|[Hj1 Hx]]%lookup_insert_Some [[<- <-]|[Hk1 Hy]]%lookup_insert_Some E; try done.
    + by destruct (H1 k y Hy).
    + by destruct (H1 j x Hx).
    + by eapply Hu.
  - intros j x y [[<- <-]|[_ Hx]]%lookup_insert_Some Hy; [intros E; by apply (H2 y Hy)|by eapply Ha].
Qed.

Lemma keeps_join p (w : W) : unfiled w p → keeps_table w (w <| srv_to_join_ := Some p |>).
Proof.
  intros (Hm & H1 & _) [Hps Hpe Hj Hu Ha]. split; unfold update; cbn; try done.
  - by intros q [= <-].
  - intros i x y Hx [= <-]. by eapply H1.
Qed.

(** What [add_server] does with the peer it made, before filing it. *)
Definition prepare (w0 : W) (p : peer) : M W peer :=
  if bool_decide (role_ w0 = leader) then
    p ← enable_hb_for_peer p;
    match srv_to_join_ w0 with
    | Some j =>
        if p_id j =? p_id p then
          srv_to_join_ <~ None ;; mret (set_next_log_idx (next_log_idx_ j) p)
        else mret p
    | None => mret p
    end
  else mret p.

Lemma prepare_unfiled w0 (w w' : W) p q :
  table_ok w → unfiled w p → prepare w0 p w = (Ok q, w') →
  table_ok w' ∧ unfiled w' q ∧ p_config q = p_config p ∧ peers_ w' = peers_ w.
Proof.
  unfold prepare. intros Hw Hp. destruct (bool_decide _); [|by intros [= <- <-]]. intros Hq.
  apply bind_inv_ok in Hq as (p1 & w1 & Hp1 & Hq).
  assert (same table w w1) as Ht by (eapply within_elim; [|exact Hp1]; within_solve ignored).
  pose proof (enable_hb_for_peer_evolves _ _ _ _ Hp1) as Hev. pose proof Hev as (_ & Hc & _).
  pose proof (keeps_same _ _ Ht Hw) as Hw1. pose proof (unfiled_evolves _ _ _ _ Hw Ht Hev Hp) as Hf1.
  injection Ht as _ Hpe _ _.
  assert (table_ok w1 ∧ unfiled w1 p1 ∧ p_config p1 = p_config p ∧ peers_ w1 = peers_ w) as Hdone by done.
  destruct (srv_to_join_ w0) as [j|]; [|by injection Hq as <- <-].
  destruct (p_id j =? p_id p1); [|by injection Hq as <- <-].
  rewrite bind_modify in Hq. injection Hq as <- <-. split; [by apply keeps_forget|].
  split_and!; [|done..]. destruct Hf1 as (Hm & H1 & _). split_and!; [|done..].
  apply (made_evolves w1 p1); [apply Hw1|by apply evolves_set|done].
Qed.

Lemma keeps_add_server c : within keeps_table (add_server (LS := LS) (SM := SM) c).
Proof.
  intros w Hw. unfold add_server. destruct (new_peer c w) as [[p|x|u] w1] eqn:E; [|by inversion E..].
  destruct (new_peer_unfiled c w w1 p Hw E) as (Hw1 & Hf & Hc & _). rewrite (bind_step _ _ _ _ _ E), bind_get.
  cbv zeta. set (p1 := set_next_log_idx _ p).
  assert (unfiled w1 p1 ∧ p_config p1 = c) as [Hf1 Hc1].
  { split; [|done]. eapply (unfiled_evolves w1 w1 p); [done..| |done]. by apply evolves_set. }
  change (table_ok ((prepare w1 p1 ≫= λ p, when (bool_decide (peers_ w1 !! sc_id c = None))
    (modify (update peers_ <[sc_id c := p]>))) w1).2).
  destruct (prepare w1 p1 w1) as [[q|x|u] w2] eqn:Ep.
  - rewrite (bind_step _ _ _ _ _ Ep). destruct (prepare_unfiled _ _ _ _ _ Hw1 Hf1 Ep) as (Hw2 & Hf2 & Hc2 & Hpe).
    destruct (bool_decide_reflect (peers_ w1 !! sc_id c = None)); cbn [when]; [|done].
    apply keeps_file; [done| |by rewrite Hpe|done]. unfold p_id. by rewrite Hc2, Hc1.
  - erewrite bind_throw by done. eapply (within_elim keeps_table); [|exact Ep|done].
    unfold prepare. within_solve fail.
  - erewrite bind_fault by done. eapply (within_elim keeps_table); [|exact Ep|done].
    unfold prepare. within_solve fail.
Qed.

Lemma keeps_delete i : within keeps_table (modify (update peers_ (delete i))).
Proof.
  intros w [Hps Hpe Hj Hu Ha]. split; unfold update; cbn; try done.
  - intros j p [_ Hp]%lookup_delete_Some. by apply Hpe.
  - intros j k p q [_ Hp]%lookup_delete_Some [_ Hq]%lookup_delete_Some. by eapply Hu.
  - intros j p q [_ Hp]%lookup_delete_Some. by eapply Ha.
Qed.
#[local] Hint Resolve keeps_add_server keeps_delete : within.

(** ** Handlers *)

Lemma keeps_remove_servers c l : within keeps_table (remove_servers (LS := LS) (SM := SM) c l).
Proof. induction l as [|i l IH]; cbn [remove_servers]; within_solve fail. Qed.
#[local] Hint Resolve keeps_remove_servers : within.

Lemma keeps_reconfigure c : within keeps_table (reconfigure (LS := LS) (SM := SM) c).
Proof. unfold reconfigure. within_solve fail. Qed.
#[local] Hint Resolve keeps_reconfigure : within.

Lemma keeps_commit_config_entry b : within keeps_table (commit_config_entry (LS := LS) (SM := SM) b).
Proof. unfold commit_config_entry. within_solve fail. Qed.
#[local] Hint Resolve keeps_commit_config_entry : within.

Lemma keeps_commit_one : within keeps_table (commit_one (LS := LS) (SM := SM)).
Proof. unfold commit_one. within_solve fail. Qed.
#[local] Hint Resolve keeps_commit_one : within.

Lemma keeps_hear_from_leader : within keeps_table (hear_from_leader (LS := LS) (SM := SM)).
Proof. unfold hear_from_leader. within_solve fail. Qed.
#[local] Hint Resolve keeps_hear_from_leader : within.

Lemma keeps_handle_append_entries req : within keeps_table (handle_append_entries (LS := LS) (SM := SM) req).
Proof. unfold handle_append_entries. within_solve fail. Qed.
#[local] Hint Resolve keeps_handle_append_entries : within.

Lemma keeps_handle_cli_req req : within keeps_table (handle_cli_req (LS := LS) (SM := SM) req).
Proof. unfold handle_cli_req. within_solve fail. Qed.

Lemma keeps_handle_add_srv_req req : within keeps_table (handle_add_srv_req (LS := LS) (SM := SM) req).
Proof.
  unfold handle_add_srv_req. apply within_bind; [apply _|within_solve fail|intros w]. cbv zeta.
  destruct (req_log_entries req) as [|e []]; [within_solve fail| |within_solve fail].
  destruct (negb _); [within_solve fail|]. destruct (negb _); [within_solve fail|].
  apply within_bind; [apply _|within_solve fail|]. intros [c b'].
  destruct (_ || _); [within_solve fail|]. destruct (config_changing_ w); [within_solve fail|].
  apply within_bind; [apply _|within_solve fail|]. intros _ v Hv.
  destruct (new_peer c v) as [[p|x|u] v1] eqn:E; [|by inversion E..].
  destruct (new_peer_unfiled c v v1 p Hv E) as (Hv1 & Hf & _). rewrite (bind_step _ _ _ _ _ E), bind_modify.
  match goal with |- table_ok (?m ?v2).2 => assert (within keeps_table m) as Hm end.
  { unfold invite_srv_to_join_cluster. within_solve fail. }
  apply Hm. by apply keeps_join.
Qed.

Lemma keeps_handle_log_sync_req req : within keeps_table (handle_log_sync_req (LS := LS) (SM := SM) req).
Proof. unfold handle_log_sync_req. within_solve fail. Qed.

Lemma keeps_handle_join_cluster_req req : within keeps_table (handle_join_cluster_req (LS := LS) (SM := SM) req).
Proof. unfold handle_join_cluster_req. within_solve fail. Qed.

Lemma keeps_install_snapshot s : within keeps_table (install_snapshot (LS := LS) (SM := SM) s).
Proof. unfold install_snapshot. within_solve fail. Qed.
#[local] Hint Resolve keeps_install_snapshot : within.

Lemma keeps_handle_install_snapshot_req req :
  within keeps_table (handle_install_snapshot_req (LS := LS) (SM := SM) req).
Proof. unfold handle_install_snapshot_req, handle_snapshot_sync_req. within_solve fail. Qed.
#[local] Hint Resolve keeps_handle_cli_req keeps_handle_add_srv_req keeps_handle_log_sync_req
  keeps_handle_join_cluster_req keeps_handle_install_snapshot_req : within.

Lemma keeps_process_req req : within keeps_table (process_req (LS := LS) (SM := SM) req).
Proof. unfold process_req, handle_extended_msg. within_solve fail. Qed.

(** ** Answers and timers *)

Lemma keeps_clear_pending {A} r (k : bool → M W A) :
  (∀ b, within keeps_table (k b)) →
  within keeps_table (p ← get_peer r; let '(pending, p) := clear_pending_commit p in set_peer r p ;; k pending).
Proof.
  intros Hk. apply within_get_peer_then; [apply _|]. intros w p Hp.
  pose proof (evolves_clear_pending p) as Hev. destruct (clear_pending_commit p) as [b q].
  by apply (keeps_set_then r p q).
Qed.

Ltac keeps_resp := repeat (first [apply keeps_clear_pending; intros ? | within_step fail]).

Lemma keeps_handle_voting_resp r : within keeps_table (handle_voting_resp (LS := LS) (SM := SM) r).
Proof. unfold handle_voting_resp. keeps_resp. Qed.
Lemma keeps_handle_append_entries_resp r :
  within keeps_table (handle_append_entries_resp (LS := LS) (SM := SM) r).
Proof. unfold handle_append_entries_resp. keeps_resp. Qed.
Lemma keeps_handle_install_snapshot_resp r :
  within keeps_table (handle_install_snapshot_resp (LS := LS) (SM := SM) r).
Proof. unfold handle_install_snapshot_resp. keeps_resp. Qed.
#[local] Hint Resolve keeps_handle_voting_resp keeps_handle_append_entries_resp
  keeps_handle_install_snapshot_resp : within.

Lemma keeps_handle_peer_resp r : within keeps_table (handle_peer_resp (LS := LS) (SM := SM) r).
Proof. unfold handle_peer_resp. within_solve fail. Qed.

Lemma keeps_sync_log_to_new_srv i : within keeps_table (sync_log_to_new_srv (LS := LS) (SM := SM) i).
Proof. unfold sync_log_to_new_srv. within_solve fail. Qed.
Lemma keeps_rm_srv_from_cluster i : within keeps_table (rm_srv_from_cluster (LS := LS) (SM := SM) i).
Proof. unfold rm_srv_from_cluster. within_solve fail. Qed.
#[local] Hint Resolve keeps_handle_peer_resp keeps_sync_log_to_new_srv keeps_rm_srv_from_cluster : within.

Lemma keeps_handle_ext_resp r : within keeps_table (handle_ext_resp (LS := LS) (SM := SM) r).
Proof. unfold handle_ext_resp, handle_ext_resp_err, handle_ext_install_snapshot_resp. within_solve fail. Qed.
#[local] Hint Resolve keeps_handle_ext_resp : within.

Lemma keeps_handle_rpc_result obj req h r :
  within keeps_table (handle_rpc_result (LS := LS) (SM := SM) obj req h r).
Proof. unfold handle_rpc_result. within_solve fail. Qed.

Lemma keeps_handle_election_timeout : within keeps_table (handle_election_timeout (LS := LS) (SM := SM)).
Proof.
  intros w. destruct (election_timeout_cases w) as [[_ ->]|[Hst _]].
  - trans (candidate_state w); [by apply keeps_same|].
    enough (within keeps_table (run_for_leader (LS := LS) (SM := SM))) as Hr by apply Hr. unfold run_for_leader.
    apply within_bind; [apply _|apply keeps_frame; within_solve ignored|intros _].
    apply within_bind; [apply _|apply keeps_request_vote|intros _]. apply keeps_frame. within_solve ignored.
  - apply keeps_same. unfold stands_for_election, handle_election_timeout in *. rewrite bind_get.
    destruct (0 <? steps_to_down_ w); [by_frame|]. destruct (catching_up_ w); [by_frame|].
    destruct (bool_decide (role_ w = leader)); [by_frame|done].
Qed.

Lemma keeps_handle_hb_timeout r : within keeps_table (handle_hb_timeout (LS := LS) (SM := SM) r).
Proof. unfold handle_hb_timeout. within_solve fail. Qed.
#[local] Hint Resolve keeps_handle_election_timeout keeps_handle_hb_timeout : within.

Lemma keeps_timer_expired uid b : within keeps_table (timer_expired (LS := LS) (SM := SM) uid b).
Proof. unfold timer_expired, run_task, on_retryable_req_err. within_solve fail. Qed.
#[local] Hint Resolve keeps_process_req keeps_handle_rpc_result keeps_timer_expired : within.

Lemma keeps_handle_event e : within keeps_table (handle_event (LS := LS) (SM := SM) e).
Proof. destruct e; cbn [handle_event]; within_solve fail. Qed.

(** ** From the constructor on *)

Lemma keeps_construct c (w : W) :
  table_ok w →
  table_ok ((p ← new_peer c; modify (update peers_ (λ m, if bool_decide (m !! sc_id c = None)
                                               then <[sc_id c := p]> m else m))) w).2.
Proof.
  intros Hw. destruct (new_peer c w) as [[p|x|u] w1] eqn:E; [|by inversion E..].
  destruct (new_peer_unfiled c w w1 p Hw E) as (Hw1 & Hf & Hc & _). rewrite (bind_step _ _ _ _ _ E).
  cbn [modify snd]. destruct (peers_ w1 !! sc_id c) as [q|] eqn:Hq.
  - replace (update peers_ _ w1) with w1; [done|]. unfold update; cbn. rewrite Hq. by destruct w1.
  - replace (update peers_ _ w1) with (w1 <| peers_ ::= <[sc_id c := p]> |>)
      by (unfold update; cbn; by rewrite Hq).
    apply keeps_file; [done| |done..]. unfold p_id. by rewrite Hc.
Qed.

Lemma keeps_constructor_body : within keeps_table (constructor_body (LS := LS) (SM := SM)).
Proof.
  unfold constructor_body. repeat lazymatch goal with
    | |- within _ (new_peer _ ≫= _) => intros w; exact (keeps_construct _ w)
    | |- _ => within_step fail
    end.
Qed.

(** C24: the table of peers is well-formed.  From the constructor on, after any
    events whatever, every peer of a server is filed under its own id, no two
    entries (the joining server included) are the same object, and every
    heartbeat interval is between the configured one and [max_hb_interval]. *)
Theorem peer_table_well_formed (ls : LS) (sm : SM) (ps : raft_params) (mgr : in_memory_state_mgr)
    (now : Z) (rnd : nat → Z) (es : list event) :
  params_ok ps →
  let w := state_after es (new_raft_server ls sm ps mgr now rnd).2 in
  (∀ i p, peers_ w !! i = Some p →
     p_id p = i ∧ heart_beat_interval_ ps ≤ current_hb_interval_ p ≤ max_hb_interval ps ∧
     (∀ j q, peers_ w !! j = Some q → p_obj q = p_obj p → j = i) ∧
     (∀ q, srv_to_join_ w = Some q → p_obj q ≠ p_obj p)) ∧
  (∀ q, srv_to_join_ w = Some q →
     heart_beat_interval_ ps ≤ current_hb_interval_ q ≤ max_hb_interval ps).
Proof.
  intros Hps w. assert (table_ok w ∧ params_ w = ps) as [[_ Hpe Hj Hu Ha] Hw].
  { assert (table_ok (new_raft_server ls sm ps mgr now rnd).2 ∧
      params_ (new_raft_server ls sm ps mgr now rnd).2 = ps) as H0.
    { unfold new_raft_server. split.
      - apply keeps_constructor_body. unfold initial_server. destruct (load_config mgr). by split.
      - set (w0 := initial_server _ _ _ _ _ _).
        assert (params_ (constructor_body w0).2 = params_ w0) as -> by (unfold constructor_body; by_frame).
        subst w0. unfold initial_server. by destruct (load_config mgr). }
    subst w. revert H0. generalize (new_raft_server ls sm ps mgr now rnd).2.
    induction es as [|e es IH]; intros w [H1 H2]; [done|]. apply IH. split; [by apply keeps_handle_event|].
    assert (params_ (handle_event e w).2 = params_ w) as -> by by_frame. exact H2. }
  assert (∀ p, made w p → heart_beat_interval_ ps ≤ current_hb_interval_ p ≤ max_hb_interval ps) as Hmade.
  { intros p [(Hhb & H1 & H2 & _) _]. unfold hb_ok in Hhb. rewrite Hw in *. lia. }
  split.
  - intros i p Hp. destruct (Hpe i p Hp) as [Hid Hm]. split_and!; [done|by apply Hmade..| |].
    + intros j q Hq E. by eapply Hu.
    + intros q Hq E. by apply (Ha i p q).
  - intros q Hq. by apply Hmade, Hj.
Qed.
End peer_table.

#[local] Existing Instance zero_mem.

Lemma peer_table_well_formed_witness :
  let w := state_after [EvTimer 1 true; EvRpcResult 0 (vote_req 1 1 0 0) resp_handler None] server1 in
  size (peers_ w) = 2%nat ∧ ∀ i p, peers_ w !! i = Some p →
    p_id p = i ∧ 100 ≤ current_hb_interval_ p ≤ max_hb_interval enclave_params.
Proof.
  intros w. split; [vm_compute; reflexivity|]. intros i p Hp.
  destruct (peer_table_well_formed mem_new echo_new enclave_params (sample_mgr 1 [1; 2; 3]) 0 Z.of_nat
    [EvTimer 1 true; EvRpcResult 0 (vote_req 1 1 0 0) resp_handler None]) as [Ht _].
  - apply (bool_decide_unpack (params_ok enclave_params)). vm_compute. exact I.
  - destruct (Ht i p Hp) as (Hid & Hhb & _). split; [exact Hid|exact Hhb].
Defined.
