(* ===== verification/Cluster.v ===== *)
(** * A cluster of servers

    Several servers and the answers that travel between them.  A run of the
    cluster is a list of events, each at one server; messages may be lost,
    repeated, delayed and reordered, but an accepted vote that reaches a server
    was given to it by the server it names; the theorem assumes this of the
    network, the envelope of [Transport] does not enforce it.  The membership
    is fixed during the run. *)

From S2P Require Import Prelude Buffer Config Messages LogStore StateMachine StateMgr Scheduler Peer Server Membership Requests Responses Samples Frames PeerSet Elections.

Section cluster.
Context `{FreshMem} {LS SM : Type} `{!log_store LS} `{!state_machine SM}.
#[local] Abbreviation W := (raft_server LS SM).

(** ** A leader keeps its term *)

(** The code in front of [restart_election_timer] in [become_follower] does
    not throw. *)
Definition no_throw {A} (m : M W A) : Prop := ∀ w e, (m w).1 ≠ Throw e.

Lemma no_throw_bind {A B} (m : M W A) (k : A → M W B) :
  no_throw m → (∀ a, no_throw (k a)) → no_throw (m ≫= k).
Proof.
  intros Hm Hk w e. specialize (Hm w e). unfold mbind, M_bind.
  destruct (m w) as [[a|x|u] w']; [apply Hk|cbn in *; congruence..].
Qed.

Lemma no_throw_for_each {A} (l : list A) (f : A → M W unit) :
  (∀ x, no_throw (f x)) → no_throw (for_each l f).
Proof.
  intros Hf. induction l as [|x l IH]; [by intros w|]. by apply no_throw_bind.
Qed.

Lemma cancel_no_throw t s e : (cancel t s).1 ≠ Throw e.
Proof.
  destruct (tasks s !! t) as [d|] eqn:Hd.
  - by destruct (cancel_spec t d s Hd) as (calls & ->).
  - unfold cancel, cancel_impl, get_task, mbind, M_bind, gets. by rewrite Hd.
Qed.

Lemma disable_hb_no_throw i :
  no_throw (p ← get_peer (PeerOf i); p ← enable_hb false p; set_peer (PeerOf i) p).
Proof.
  apply no_throw_bind.
  - intros w e. unfold get_peer, mbind, M_bind, gets. by destruct (find_peer _ w).
  - intros p. apply no_throw_bind; [|by intros q w e].
    unfold enable_hb. apply no_throw_bind; [|by intros [] w e].
    intros w e. cbn [when negb]. unfold on. pose proof (cancel_no_throw (hb_task_ p) (scheduler_ w) e).
    by destruct (cancel (hb_task_ p) (scheduler_ w)).
Qed.

Lemma become_follower_role (w : W) :
  (∀ u, (become_follower w).1 ≠ Fault u) → role_ (become_follower w).2 = follower.
Proof.
  unfold become_follower. rewrite bind_gets.
  match goal with |- context [(for_each ?l ?f ≫= _) w] =>
    pose proof (no_throw_for_each l f disable_hb_no_throw w) as Hn;
    destruct (for_each l f w) as [[[]|e|u] w1] eqn:E end.
  - intros _. rewrite (bind_step _ _ _ _ _ E), !bind_modify.
    match goal with |- role_ (restart_election_timer ?w2).2 = _ =>
      assert (role_ (restart_election_timer w2).2 = role_ w2) as -> by by_frame end.
    done.
  - by destruct (Hn e).
  - unfold mbind at 1, M_bind at 1. rewrite E. intros Hf. by destruct (Hf u).
Qed.

(** A fault in front is a fault of the whole. *)
Lemma bind_no_fault {A B} (m : M W A) (k : A → M W B) w :
  (∀ u, ((m ≫= k) w).1 ≠ Fault u) → ∀ u, (m w).1 ≠ Fault u.
Proof.
  intros Hf u Hu. apply (Hf u). unfold mbind, M_bind. destruct (m w) as [[]?]; cbn in *; congruence.
Qed.

(** No code makes a leader of another term. *)
Definition office : relation W := λ w w',
  role_ w' = leader → role_ w = leader ∧ current_term w' = current_term w.
#[global] Instance office_preorder : PreOrder office.
Proof. split; unfold office; [by intros w|]. intros w1 w2 w3 H1 H2 H3. naive_solver congruence. Qed.

Lemma update_term_office t (w : W) :
  is_u64 t → (∀ u, (update_term t w).1 ≠ Fault u) → office w (update_term t w).2.
Proof.
  intros Ht. destruct (Z.ltb_spec (current_term w) t); cycle 1.
  { by rewrite update_term_old. }
  rewrite update_term_new by done. set (w0 := new_term_state t w).
  assert (∃ m, persist_state w0 = (Ok tt, w0 <| state_mgr_ := m |>)) as [m Hp].
  { unfold persist_state. rewrite bind_gets. eexists. apply on_step, save_state_spec.
    split; [exact Ht|]. unfold is_i32; cbn; lia. }
  rewrite (bind_step _ _ _ _ _ Hp). set (w1 := w0 <| state_mgr_ := m |>).
  intros Hf. pose proof (become_follower_role w1 (bind_no_fault _ _ _ Hf)) as Hr.
  unfold office. intros Hl. exfalso.
  destruct (bind_cases become_follower (λ _, mret true) w1) as [(a & _ & E)|[_ E]];
    rewrite E in Hl; cbn in Hl; congruence.
Qed.

Lemma within_office_become_follower : within office (become_follower (LS := LS) (SM := SM)).
Proof.
  intros w. intros Hl. split; [by apply (within_no_promotion_become_follower w)|by_frame].
Qed.
#[local] Hint Resolve within_office_become_follower : within.

Lemma within_office_handle_vote_req req : within office (handle_vote_req (LS := LS) (SM := SM) req).
Proof.
  intros w Hl. assert (role_ (handle_vote_req req w).2 = role_ w) as Hr by by_frame.
  split; [congruence|]. unfold current_term.
  destruct (handle_vote_req_state req w) as [->|(Ht & _ & ->)]; done.
Qed.
#[local] Hint Resolve within_office_handle_vote_req : within.

(** The handlers behind [update_term]. *)
Lemma within_office_handle_extended_msg req :
  req_type req ≠ join_cluster_request →
  within office (handle_extended_msg (LS := LS) (SM := SM) req).
Proof.
  intros Hj. unfold handle_extended_msg, handle_install_snapshot_req, hear_from_leader.
  destruct (req_type req); try done; within_solve idtac.
Qed.

(** [process_req] behind [update_term]. *)
Definition dispatch (req : req_msg) : M W resp_msg :=
  match req_type req with
  | append_entries_request => handle_append_entries req
  | request_vote_request => handle_vote_req req
  | client_request => handle_cli_req req
  | _ => handle_extended_msg req
  end.

Lemma process_req_dispatch req (w : W) :
  process_req req w =
    (if is_raft_rpc (req_type req) then
       update_term (req_term req) ≫= λ _,
         (w ← gets id; when (0 <? steps_to_down_ w) (steps_to_down_ <~ 2)) ;; dispatch req
     else dispatch req) w.
Proof. unfold process_req. destruct (is_raft_rpc _); [|done]. cbn [when]. by rewrite bind_assoc. Qed.

Lemma within_office_dispatch req :
  req_type req ≠ join_cluster_request → within office (dispatch req).
Proof.
  intros Hj. pose proof (within_office_handle_extended_msg req Hj) as Hx.
  unfold dispatch, handle_append_entries, hear_from_leader. within_solve idtac.
Qed.

(** A message of a newer term ends a leadership. *)
Lemma process_req_office req (w : W) :
  req_type req ≠ join_cluster_request → is_u64 (req_term req) →
  (∀ u, (process_req req w).1 ≠ Fault u) →
  office w (process_req req w).2 ∧
  (is_raft_rpc (req_type req) = true → role_ (process_req req w).2 = leader →
   req_term req ≤ current_term w).
Proof.
  intros Hj Ht. pose proof (within_office_dispatch req Hj) as Hx. rewrite process_req_dispatch.
  destruct (is_raft_rpc (req_type req)); [|by auto].
  intros Hf. pose proof (update_term_office _ w Ht (bind_no_fault _ _ _ Hf)) as Hu.
  match goal with |- context [(update_term ?t ≫= ?j) w] =>
    assert (office (update_term t w).2 ((update_term t ≫= j) w).2) as Hr end.
  { match goal with |- context [(update_term ?t ≫= ?j) w] =>
      destruct (bind_cases (update_term t) j w) as [(a & _ & ->)|[_ ->]] end; [|done]. by_frame. }
  split; [by etrans|]. intros _ Hl. apply Hr in Hl as [Hl _]. apply Hu in Hl as [_ Hl].
  destruct (Z.ltb_spec (current_term w) (req_term req)) as [Hlt|]; [|done].
  unfold current_term in Hl. rewrite update_term_state in Hl.
  rewrite (proj2 (Z.ltb_lt _ _)) in Hl by done. cbn in Hl. unfold current_term in *. lia.
Qed.

Lemma peer_resp_office resp (w : W) :
  is_u64 (resp_term resp) → (∀ u, (handle_peer_resp (Some resp) w).1 ≠ Fault u) →
  role_ (handle_peer_resp (Some resp) w).2 = leader →
  current_term (handle_peer_resp (Some resp) w).2 = current_term w.
Proof.
  intros Ht. unfold handle_peer_resp. rewrite bind_get. set (m := when _ _).
  assert (current_term (m w).2 = current_term w) as Hm by (unfold m; by_frame).
  match goal with |- context [(m ≫= ?k) w] => destruct (bind_cases m k w) as [([] & _ & ->)|[_ ->]] end;
    [|by intros].
  rewrite <-Hm. generalize (m w).2 as w1. clear Hm m w. intros w Hf Hl.
  destruct (Z.ltb_spec (current_term w) (resp_term resp)).
  - rewrite update_term_then in * by done.
    by apply (update_term_office _ w Ht (bind_no_fault _ _ _ Hf)).
  - erewrite bind_step by (by apply update_term_old). by_frame.
Qed.

(** The terms of messages are 64-bit numbers. *)
Definition typed_event (e : event) : Prop :=
  match e with
  | EvRequest req => is_u64 (req_term req)
  | EvRpcResult _ _ _ (Some resp) => is_u64 (resp_term resp)
  | _ => True
  end.

Lemma step_office e (w : W) :
  ordinary e → typed_event e → (∀ u, (handle_event e w).1 ≠ Fault u) →
  role_ w = leader → role_ (handle_event e w).2 = leader →
  current_term (handle_event e w).2 = current_term w.
Proof.
  intros Ho Ht Hf Hr Hl. destruct e as [req|obj req h result|uid success| |now]; cbn [handle_event] in *.
  - pose proof (process_req_office req w Ho Ht (bind_no_fault _ _ _ Hf)) as [Hp _].
    destruct (bind_cases (process_req req) (λ _, mret tt) w) as [(a & _ & E)|[_ E]];
      rewrite E in *; by apply Hp.
  - unfold handle_rpc_result in *. rewrite bind_get in *.
    match goal with |- context [(?m0 ≫= _) w] => set (m := m0) in * end.
    assert (current_term (m w).2 = current_term w) as Hm by (unfold m; by_frame).
    match goal with |- context [(m ≫= ?k) w] =>
      destruct (bind_cases m k w) as [([] & _ & E)|[_ E]]; rewrite E in * end; [|done].
    rewrite <-Hm. destruct h; [destruct result as [resp|]|].
    + by apply peer_resp_office.
    + done.
    + by_frame.
  - destruct (timer_expired_cases uid success w) as [[_ E]|HR].
    2:{ apply (HR (same current_term)); apply _. }
    rewrite E in *. unfold current_term.
    destruct (election_timeout_cases w) as [[Hs _]|[_ [= -> _ _ _ _]]]; [|done].
    unfold stands_for_election in Hs. by rewrite Hr, andb_false_r in Hs.
  - by_frame.
  - done.
Qed.

(** ** Runs of a cluster *)

Context (C : gset Z) (init : Z → W).

(** The events of one server, and the state they leave it in. *)
Definition local (i : Z) (tr : list (Z * event)) : list event :=
  (filter (λ x, x.1 = i) tr).*2.
Definition node (i : Z) (tr : list (Z * event)) : W := state_after (local i tr) (init i).

(** [resp] is the answer some server gave to a vote request of server [i]. *)
Definition vote_given (tr : list (Z * event)) (i : Z) (resp : resp_msg) : Prop :=
  ∃ tr1 j req tr2, tr = tr1 ++ (j, EvRequest req) :: tr2 ∧
    req_type req = request_vote_request ∧ req_src req = i ∧
    (process_req req (node j tr1)).1 = Ok resp.

(** What may reach server [i] after [tr]. *)
Definition deliverable (tr : list (Z * event)) (i : Z) (e : event) : Prop :=
  match e with
  | EvRequest req => req_type req = request_vote_request → req_src req ∈ C
  | EvRpcResult _ _ _ (Some resp) =>
      resp_type resp = request_vote_response → resp_accepted resp = true → vote_given tr i resp
  | _ => True
  end.

Inductive cluster_run : list (Z * event) → Prop :=
  | run_start :
      -1 ∉ C →
      (∀ i, i ∈ C → id_ (init i) = i ∧ role_ (init i) = follower ∧ votes_granted_ (init i) = 0 ∧
                    peer_set (init i) = C ∖ {[i]}) →
      cluster_run []
  | run_step tr i e :
      cluster_run tr → i ∈ C → deliverable tr i e → typed_event e → countable e (node i tr) →
      step (node i tr) e (node i (tr ++ [(i, e)])) →
      peer_set (node i (tr ++ [(i, e)])) = C ∖ {[i]} →
      cluster_run (tr ++ [(i, e)]).

(** ** The servers along a run *)

Lemma local_same tr i e : local i (tr ++ [(i, e)]) = local i tr ++ [e].
Proof. unfold local. by rewrite filter_app, filter_cons_True, fmap_app. Qed.

Lemma local_other tr i j e : i ≠ j → local i (tr ++ [(j, e)]) = local i tr.
Proof.
  intros Hne. unfold local. rewrite filter_app, filter_cons_False by (cbn; congruence).
  by rewrite app_nil_r.
Qed.

Lemma local_app tr1 tr2 i : local i (tr1 ++ tr2) = local i tr1 ++ local i tr2.
Proof. unfold local. by rewrite filter_app, fmap_app. Qed.

Lemma node_same tr i e : node i (tr ++ [(i, e)]) = (handle_event e (node i tr)).2.
Proof. unfold node, state_after. by rewrite local_same, foldl_app. Qed.

Lemma node_other tr i j e : i ≠ j → node i (tr ++ [(j, e)]) = node i tr.
Proof. intros Hne. unfold node. by rewrite local_other. Qed.

(** A run may be cut anywhere. *)
Lemma run_prefix tr1 tr2 : cluster_run (tr1 ++ tr2) → cluster_run tr1.
Proof.
  induction tr2 as [|x tr2 IH] using rev_ind; [by rewrite app_nil_r|].
  rewrite app_assoc. intros Hrun. apply IH. inversion Hrun as [E|tr i e Hr ? ? ? ? ? ? E].
  - by destruct (app_cons_not_nil (tr1 ++ tr2) [] x).
  - by apply app_inj_tail in E as [<- _].
Qed.

Lemma run_member tr1 i e tr2 : cluster_run (tr1 ++ (i, e) :: tr2) → i ∈ C.
Proof.
  rewrite (cons_middle (i, e)), app_assoc. intros Hrun%run_prefix.
  inversion Hrun as [E|tr j e' Hr Hj ? ? ? ? ? E].
  - by destruct (app_cons_not_nil tr1 [] (i, e)).
  - by apply app_inj_tail in E as [_ [= <- _]].
Qed.

(** What a run says about one server. *)
Lemma run_local tr i :
  cluster_run tr → i ∈ C →
  election_run (local i tr) (init i) ∧ countable_run (local i tr) (init i) ∧
  id_ (node i tr) = i ∧ peer_set (node i tr) = C ∖ {[i]} ∧ votes_granted_ (init i) = 0.
Proof.
  intros Hrun Hi. induction Hrun as [Hno Hinit|tr j e Hrun IH Hj Hd Hty Hc Hs Hp].
  { by destruct (Hinit i Hi) as (? & ? & ? & ?). }
  destruct IH as (He & Hcr & Hid & Hps & Hv).
  destruct (decide (i = j)) as [->|Hne]; [|by rewrite node_other, local_other].
  assert (-1 ∉ C) as Hno by (clear -Hrun; by induction Hrun).
  assert (id_ (node j tr) ≠ -1) as Hn1 by (rewrite Hid; by intros ->).
  rewrite local_same, node_same in *. inversion Hs as [e' Hf Heq1 Heq2]; subst e'.
  pose proof Hc as (Ho & H0 & Hb & _). split_and!; [|..|done|done].
  - apply election_run_snoc; [done|]. split_and!; [done| |done..].
    destruct e as [req| | | |]; cbn in *; [|done..]. intros Hr E. apply Hno. rewrite <-E. by apply Hd.
  - by apply countable_run_snoc.
  - etrans; [|exact Hid]. clear. by_frame.
Qed.

(** Casting a vote stays cast. *)
Lemma casts_more tr1 tr2 i x :
  x ∈ casts (local i tr1) (init i) → x ∈ casts (local i (tr1 ++ tr2)) (init i).
Proof. rewrite local_app, casts_app. set_solver. Qed.

Lemma vote_resp_src req (w : W) resp w' :
  req_type req = request_vote_request → process_req req w = (Ok resp, w') → resp_src resp = id_ w.
Proof.
  intros Hty Hp. unfold process_req in Hp. rewrite Hty in Hp.
  apply bind_inv_ok in Hp as ([] & w1 & Hu & Hp).
  assert (id_ w1 = id_ w) as <-.
  { eapply (within_elim (same id_)); [|exact Hu]. within_solve ignored. }
  unfold handle_vote_req in Hp. rewrite bind_get in Hp.
  apply bind_inv_ok in Hp as (last & w2 & _ & Hp).
  match type of Hp with context [if ?b then _ else _] => destruct b end.
  - rewrite bind_modify in Hp. apply bind_inv_ok in Hp as ([] & w3 & _ & Hp).
    by injection Hp as <- _.
  - by injection Hp as <- _.
Qed.

(** A vote received was cast. *)
Lemma received_cast tr i t s :
  cluster_run tr → i ∈ C → (t, s) ∈ votes_received (local i tr) →
  s ∈ C ∧ (t, i) ∈ casts (local s tr) (init s).
Proof.
  intros Hrun Hi. induction Hrun as [Hno Hinit|tr j e Hrun IH Hj Hd Hty Hc Hs Hp].
  { by intros ?%elem_of_nil. }
  destruct (decide (i = j)) as [->|Hne]; cycle 1.
  { rewrite local_other by done. intros Hin. destruct (IH Hin). split; [done|]. by apply casts_more. }
  rewrite local_same. unfold votes_received. rewrite omap_app, elem_of_app. intros [Hin|Hin].
  { destruct (IH Hin). split; [done|]. by apply casts_more. }
  destruct e as [| ? ? ? [resp|] | | |]; cbn in Hin; try by apply elem_of_nil in Hin.
  destruct (bool_decide_reflect (resp_type resp = request_vote_response)) as [Hvr|]; cbn in Hin;
    [|by apply elem_of_nil in Hin].
  destruct (resp_accepted resp) eqn:Ha; [|by apply elem_of_nil in Hin].
  apply list_elem_of_singleton in Hin as [= -> ->].
  destruct (Hd Hvr Ha) as (tr1 & k & vreq & tr2 & -> & Hrt & Hsrc & Hresp).
  pose proof (run_member _ _ _ _ Hrun) as Hk. pose proof (run_prefix _ _ Hrun) as Hrun1.
  destruct (run_local tr1 k Hrun1 Hk) as (_ & _ & Hid & _).
  destruct (process_req vreq (node k tr1)) as [o w'] eqn:Ep. cbn in Hresp. subst o.
  rewrite (vote_resp_src _ _ _ _ Hrt Ep), Hid. split; [done|].
  apply casts_more. rewrite (cons_middle (k, _)), app_assoc. apply casts_more.
  rewrite local_same, casts_app. apply elem_of_app. right. fold (node k tr1). cbn [casts cast].
  rewrite Ep. cbn [fst]. rewrite (bool_decide_true _ Hrt), Ha. cbn. set_solver.
Qed.

(** A leader has the votes of a majority of the cluster, all of its term. *)
Lemma leader_votes tr i :
  cluster_run tr → i ∈ C → role_ (node i tr) = leader →
  ∃ G : gset Z, G ⊆ C ∧ (size C < 2 * size G)%nat ∧
    ∀ s, s ∈ G → (current_term (node i tr), i) ∈ casts (local s tr) (init s).
Proof.
  intros Hrun Hi. induction Hrun as [Hno Hinit|tr j e Hrun IH Hj Hd Hty Hc Hs Hp].
  { destruct (Hinit i Hi) as (_ & Hr & _). cbn. congruence. }
  assert (cluster_run (tr ++ [(j, e)])) as Hrun' by by apply run_step.
  assert (role_ (node i tr) = leader →
    current_term (node i (tr ++ [(j, e)])) = current_term (node i tr) → ∃ G : gset Z,
    G ⊆ C ∧ (size C < 2 * size G)%nat ∧ ∀ s, s ∈ G →
    (current_term (node i (tr ++ [(j, e)])), i) ∈ casts (local s (tr ++ [(j, e)])) (init s)) as Hold.
  { intros Hl ->. destruct (IH Hl) as (G & HG & Hsz & Hv). exists G. split_and!; [done..|].
    intros s Hin. by apply casts_more, Hv. }
  destruct (decide (i = j)) as [->|Hne]; [|by rewrite !node_other in * by done; intros Hl; auto].
  intros Hl. destruct (run_local _ _ Hrun' Hj) as (_ & Hcr & Hid & Hps & Hv0).
  destruct (run_local _ _ Hrun Hj) as (_ & _ & Hid0 & Hps0 & _).
  pose proof Hc as (Ho & H0 & Hb & Hn & _).
  assert (∀ u, (handle_event e (node j tr)).1 ≠ Fault u) as Hf by by inversion Hs.
  destruct (decide (role_ (node j tr) = leader)) as [Hr|Hr].
  { apply Hold; [done|]. rewrite node_same in *. by apply step_office. }
  destruct (tally_run (local j (tr ++ [(j, e)])) [] [] (init j)) as (G & HG & _ & Hfrom); [done| |].
  { exists ∅. rewrite Hv0. split_and!; [done|set_solver..]. }
  fold (node j (tr ++ [(j, e)])) in HG, Hfrom.
  assert (∀ s, s ∈ G → s ∈ C ∧ (current_term (node j (tr ++ [(j, e)])), j)
    ∈ casts (local s (tr ++ [(j, e)])) (init s)) as Hall.
  { intros s Hin. destruct (Hfrom s Hin) as [[-> Hown]|Hrec].
    - rewrite Hid in *. done.
    - by apply received_cast. }
  exists G. split_and!; [intros s Hin; by apply Hall| |intros s Hin; by apply Hall].
  destruct (step_tallies e (node j tr) Ho H0 Hb Hn) as [_ Hel].
  rewrite <-node_same in Hel. specialize (Hel Hn Hr Hl). unfold majority in Hel.
  rewrite <-HG, Hps, size_difference, size_singleton in Hel by set_solver.
  assert (size C ≠ 0%nat) by (apply size_non_empty_iff; set_solver). lia.
Qed.

(** Two majorities share a member. *)
Lemma majorities_meet (G1 G2 : gset Z) :
  G1 ⊆ C → G2 ⊆ C → (size C < 2 * size G1)%nat → (size C < 2 * size G2)%nat → ∃ s, s ∈ G1 ∧ s ∈ G2.
Proof.
  intros H1 H2 Hs1 Hs2. destruct (set_choose_or_empty (G1 ∩ G2)) as [[s Hs]|He]; [set_solver|].
  exfalso. pose proof (subseteq_size (G1 ∪ G2) C ltac:(set_solver)) as Hsz.
  rewrite size_union in Hsz by set_solver. lia.
Qed.

(** The server that voted for both leaders voted for one. *)
Lemma one_leader_per_term tr tr' i j :
  cluster_run (tr ++ tr') → i ∈ C → j ∈ C →
  role_ (node i tr) = leader → role_ (node j (tr ++ tr')) = leader →
  current_term (node i tr) = current_term (node j (tr ++ tr')) → i = j.
Proof.
  intros Hrun Hi Hj Hri Hrj Ht.
  destruct (leader_votes tr i (run_prefix _ _ Hrun) Hi Hri) as (G1 & H1 & Hs1 & Hv1).
  destruct (leader_votes _ j Hrun Hj Hrj) as (G2 & H2 & Hs2 & Hv2).
  destruct (majorities_meet G1 G2 H1 H2 Hs1 Hs2) as (s & Hin1 & Hin2).
  destruct (run_local _ s Hrun (H1 s Hin1)) as (He & _).
  apply (casts_agree _ _ (current_term (node i tr)) i j He); [by apply casts_more, Hv1|].
  rewrite Ht. by apply Hv2.
Qed.

(** C1: election safety.  In any run of a cluster whose membership is fixed,
    at most one server is leader of a term: a server that leads term [t] at
    some moment and a server that leads term [t] at that or a later moment are
    the same. *)
Theorem election_safety (tr tr' : list (Z * event)) (i j : Z) :
  cluster_run (tr ++ tr') → i ∈ C → j ∈ C →
  role_ (node i tr) = leader → role_ (node j (tr ++ tr')) = leader →
  current_term (node i tr) = current_term (node j (tr ++ tr')) → i = j.
Proof. apply one_leader_per_term. Qed.
End cluster.

#[local] Existing Instance zero_mem.

(** Server 1 of three stands for election, server 2 votes for it. *)
Definition trio : gset Z := {[1; 2; 3]}.
Definition trio_start (i : Z) : sample_state := start_server i [1; 2; 3].
Definition ask_for_vote : req_msg := mk_req_msg 1 request_vote_request 1 2 0 0 0 [].
Definition vote_of_2 : resp_msg := mk_resp_msg 1 request_vote_response 2 1 1 true.
Definition trio_election : list (Z * event) :=
  [(1, EvTimer 1 true); (2, EvRequest ask_for_vote);
   (1, EvRpcResult 0 ask_for_vote resp_handler (Some vote_of_2))].

Lemma election_safety_witness :
  role_ (node trio_start 1 trio_election) = leader ∧
  ∀ j, j ∈ trio → role_ (node trio_start j (trio_election ++ [(3, EvTimer 1 true)])) = leader →
    current_term (node trio_start j (trio_election ++ [(3, EvTimer 1 true)])) = 1 → j = 1.
Proof.
  split; [vm_compute; reflexivity|]. intros j Hj Hr Ht. symmetry.
  apply (election_safety trio trio_start trio_election [(3, EvTimer 1 true)] 1 j);
    [|vm_compute; reflexivity|exact Hj|vm_compute; reflexivity|exact Hr|].
  2:{ rewrite Ht. vm_compute. reflexivity. }
  assert (∀ tr i e, cluster_run trio trio_start tr → i ∈ trio →
    deliverable trio trio_start tr i e → typed_event e → countable e (node trio_start i tr) →
    is_ok (handle_event e (node trio_start i tr)).1 = true →
    peer_set (node trio_start i (tr ++ [(i, e)])) = trio ∖ {[i]} →
    cluster_run trio trio_start (tr ++ [(i, e)])) as step_in.
  { intros tr i e ????? Hok ?. apply run_step; try assumption. rewrite node_same. constructor.
    intros u Hu. by rewrite Hu in Hok. }
  assert (-1 ∉ trio) as Hno by (vm_compute; congruence).
  assert (∀ i, i ∈ trio → id_ (trio_start i) = i ∧ role_ (trio_start i) = follower ∧
    votes_granted_ (trio_start i) = 0 ∧ peer_set (trio_start i) = trio ∖ {[i]}) as Hinit.
  { intros i. unfold trio. rewrite !elem_of_union, !elem_of_singleton.
    intros [[->| ->]| ->]; vm_compute; repeat split. }
  apply (step_in [_; _; _] 3); [apply (step_in [_; _] 1); [apply (step_in [_] 2);
    [apply (step_in [] 1); [by constructor|..]|..]|..]|..];
    try lazymatch goal with
    | |- deliverable _ _ _ _ (EvRpcResult _ _ _ _) =>
        intros _ _; exists [(1, EvTimer 1 true)], 2, ask_for_vote, []; repeat split;
        vm_compute; reflexivity
    | |- deliverable _ _ _ _ _ => vm_compute; reflexivity || intros; constructor
    | |- _ = _ => vm_compute; reflexivity
    | |- _ => repeat split; vm_compute; congruence
    end.
Defined.
