(* ===== verification/Durability.v ===== *)
(** * What the state manager holds

    Term and vote are given to the state manager on every path that changes
    them, exceptions included, so that between two events it holds what the
    server goes by.  The manager itself keeps them in memory only
    ([StateMgr]). *)

From S2P Require Import Prelude Buffer Config Messages LogStore StateMachine StateMgr Scheduler Peer Server Membership Requests Responses Samples Frames PeerSet Elections.

Section durability.
Context `{FreshMem} {LS SM : Type} `{!log_store LS} `{!state_machine SM}.
#[local] Abbreviation W := (raft_server LS SM).

(** What the manager holds; a server begins with term 0 and no vote when it has
    saved nothing. *)
Definition stored_state (m : in_memory_state_mgr) : srv_state :=
  default (mk_srv_state 0 (-1)) (read_state m).

(** The stored state is the current one, and its fields fit their types. *)
Definition durable (w : W) : Prop :=
  stored_state (state_mgr_ w) = state_ w ∧ srv_state_ok (state_ w) ∧ is_i32 (id_ w).

(** ** Writing the configuration leaves the stored state alone *)

Lemma within_mgr_on {A} (m : M in_memory_state_mgr A) :
  within (same saved_state_) m → within (keeps durable) (on state_mgr_ m).
Proof.
  intros Hm w. specialize (Hm (state_mgr_ w)). unfold same, keeps, durable, stored_state, read_state, on in *.
  destruct (m (state_mgr_ w)) as [o s]. cbn in *. by rewrite Hm.
Qed.

Lemma within_save_config c : within (same saved_state_) (save_config c).
Proof. unfold save_config. within_solve ignored. Qed.

Lemma within_config_written c : within (same saved_state_) (config_written c).
Proof. apply within_modify. intros m. by destruct (shared_config_ m). Qed.

Lemma within_durable_persist_config c :
  within (keeps durable) (persist_config (LS := LS) (SM := SM) c).
Proof. apply within_mgr_on, within_save_config. Qed.

Lemma within_durable_set_config c : within (keeps durable) (set_config (LS := LS) (SM := SM) c).
Proof.
  unfold set_config. within_step idtac; [within_solve ignored|]. apply within_mgr_on.
  within_solve ignored.
Qed.

Lemma within_durable_mutate_config f :
  within (keeps durable) (mutate_config (LS := LS) (SM := SM) f).
Proof.
  unfold mutate_config. within_step idtac; [within_solve ignored|].
  within_step idtac; [within_solve ignored|]. apply within_mgr_on, within_config_written.
Qed.
#[local] Hint Resolve within_durable_persist_config within_durable_set_config
  within_durable_mutate_config : within.

(** ** Changes of term and vote *)

(** Whatever the new state is, once it is written the server is durable. *)
Lemma persist_then {A} (k : M W A) (w : W) :
  srv_state_ok (state_ w) → is_i32 (id_ w) → within (keeps durable) k →
  durable ((persist_state ;; k) w).2.
Proof.
  intros Hs Hi Hk. unfold persist_state. rewrite bind_assoc, bind_gets.
  erewrite bind_step by by apply on_step, save_state_spec. by apply Hk.
Qed.

Lemma within_durable_persist_state : within (keeps durable) (persist_state (LS := LS) (SM := SM)).
Proof.
  intros w (_ & Hs & Hi). pose proof (persist_then (mret tt) w Hs Hi ltac:(within_solve idtac)) as Hd.
  unfold mbind, M_bind in Hd. by destruct (persist_state w) as [[]?].
Qed.
#[local] Hint Resolve within_durable_persist_state : within.

Lemma nobody_ok : is_i32 (-1).
Proof. unfold is_i32. lia. Qed.

Lemma within_durable_update_term t :
  is_u64 t → within (keeps durable) (update_term (LS := LS) (SM := SM) t).
Proof.
  intros Ht w Hd. destruct (Z.ltb_spec (current_term w) t).
  - rewrite update_term_new by done. apply persist_then; [by split; [|apply nobody_ok]|apply Hd|].
    within_solve idtac.
  - by rewrite update_term_old.
Qed.

Lemma within_durable_handle_vote_req req :
  is_i32 (req_src req) → within (keeps durable) (handle_vote_req (LS := LS) (SM := SM) req).
Proof.
  intros Hi w Hd. destruct (last_entry (log_store_ w)) as [last|e|u] eqn:Hl.
  - rewrite (handle_vote_req_spec req w last Hl). destruct (grants req (le_term last) w); [|done].
    apply persist_then; [|apply Hd|within_solve idtac]. destruct Hd as (_ & [Ht _] & _). by split.
  - unfold handle_vote_req. rewrite bind_get. unfold mbind, M_bind, lift. by rewrite Hl.
  - unfold handle_vote_req. rewrite bind_get. unfold mbind, M_bind, lift. by rewrite Hl.
Qed.

Lemma within_durable_become_leader : within (keeps durable) (become_leader (LS := LS) (SM := SM)).
Proof. unfold become_leader. within_solve ignored. Qed.
#[local] Hint Resolve within_durable_become_leader : within.

Lemma within_durable_request_vote : within (keeps durable) (request_vote (LS := LS) (SM := SM)).
Proof.
  intros w Hd. unfold request_vote. rewrite bind_gets, bind_modify.
  apply persist_then; [|apply Hd|within_solve ignored]. destruct Hd as (_ & [Ht _] & Hi). by split.
Qed.
#[local] Hint Resolve within_durable_request_vote : within.

(** Walk through code from a durable state. *)
Ltac stays_durable := lazymatch goal with
  | Hd : durable ?w |- durable (?m ?w).2 =>
      let Hw := fresh in enough (within (keeps durable) m) as Hw by exact (Hw w Hd);
      within_solve ignored
  end.

Lemma within_durable_election_timeout :
  within (keeps durable) (handle_election_timeout (LS := LS) (SM := SM)).
Proof.
  intros w Hd. unfold handle_election_timeout. rewrite bind_get.
  destruct (0 <? steps_to_down_ w); [stays_durable|].
  destruct (catching_up_ w); [stays_durable|].
  destruct (bool_decide (role_ w = leader)); [stays_durable|].
  rewrite !bind_modify. apply persist_then; [|apply Hd|within_solve ignored].
  split; [apply u64_range|apply nobody_ok].
Qed.

Lemma within_durable_remove_servers c l :
  within (keeps durable) (remove_servers (LS := LS) (SM := SM) c l).
Proof. induction l; cbn [remove_servers]; within_solve ignored. Qed.
#[local] Hint Resolve within_durable_election_timeout within_durable_remove_servers : within.

Lemma within_durable_reconfigure c : within (keeps durable) (reconfigure (LS := LS) (SM := SM) c).
Proof. unfold reconfigure. within_solve ignored. Qed.
#[local] Hint Resolve within_durable_reconfigure : within.

Lemma within_durable_join req :
  is_u64 (req_term req) → within (keeps durable) (handle_join_cluster_req (LS := LS) (SM := SM) req).
Proof.
  intros Ht w Hd. unfold handle_join_cluster_req. rewrite bind_get.
  destruct (req_log_entries req) as [|e []]; [done| |done].
  destruct (negb (bool_decide (le_val_type e = conf))); [done|].
  destruct (catching_up_ w); [done|]. rewrite !bind_modify.
  apply persist_then; [|apply Hd|within_solve ignored]. split; [done|apply nobody_ok].
Qed.

(** ** Every event *)

(** The fields of messages fit their types. *)
Definition typed (e : event) : Prop :=
  match e with
  | EvRequest req => is_u64 (req_term req) ∧ is_i32 (req_src req)
  | EvRpcResult _ _ _ (Some resp) => is_u64 (resp_term resp)
  | _ => True
  end.

Lemma within_durable_event e : typed e → within (keeps durable) (handle_event (LS := LS) (SM := SM) e).
Proof.
  intros Ht. destruct e as [req|obj req h [resp|]|uid success| |now]; cbn [handle_event typed] in *.
  - destruct Ht as [Ht Hi]. pose proof (within_durable_update_term _ Ht).
    pose proof (within_durable_handle_vote_req _ Hi). pose proof (within_durable_join _ Ht).
    unfold process_req, handle_extended_msg, handle_install_snapshot_req, handle_snapshot_sync_req,
      install_snapshot. within_solve ignored.
  - pose proof (within_durable_update_term _ Ht).
    unfold handle_rpc_result, handle_peer_resp, handle_voting_resp. within_solve ignored.
  - unfold handle_rpc_result. within_solve ignored.
  - unfold timer_expired, run_task. within_solve ignored.
  - unfold commit_one, commit_config_entry. within_solve ignored.
  - within_solve ignored.
Qed.

Lemma durable_run es w : durable w → Forall typed es → durable (state_after es w).
Proof.
  intros Hd Hes. revert w Hd. induction Hes as [|e es He _ IH]; intros w Hd; [done|].
  apply IH. by apply within_durable_event.
Qed.

Lemma within_durable_constructor_body :
  within (keeps durable) (constructor_body (LS := LS) (SM := SM)).
Proof. unfold constructor_body. within_solve ignored. Qed.

Lemma durable_new_raft_server ls sm ps mgr now rnd :
  is_i32 (my_id_ mgr) → srv_state_ok (stored_state mgr) →
  durable (new_raft_server (LS := LS) (SM := SM) ls sm ps mgr now rnd).2.
Proof.
  intros Hi Hs. apply within_durable_constructor_body. unfold durable, stored_state, initial_server in *.
  unfold load_config. cbn. by split_and!.
Qed.

(** C7: the state manager holds the current term and vote.  After the constructor
    and any sequence of events whose numbers fit their C++ types, every
    outcome of the handlers included, [read_state] returns the term and the
    vote the server goes by (nothing while they are those of a new server). *)
Theorem term_and_vote_saved (es : list event)
    (ls : LS) (sm : SM) (ps : raft_params) (mgr : in_memory_state_mgr) (now : Z) (rnd : nat → Z) :
  is_i32 (my_id_ mgr) → read_state mgr = None → Forall typed es →
  let w := state_after es (new_raft_server ls sm ps mgr now rnd).2 in
  match read_state (state_mgr_ w) with
  | Some s => s = state_ w
  | None => state_ w = mk_srv_state 0 (-1)
  end.
Proof.
  intros Hi Hm Hes w. assert (durable w) as [Hs _].
  { apply durable_run; [|done]. apply durable_new_raft_server; [done|].
    unfold stored_state. rewrite Hm. repeat split; vm_compute; congruence. }
  unfold stored_state in Hs. by destruct (read_state (state_mgr_ w)).
Qed.
End durability.

#[local] Existing Instance zero_mem.

(** Server 1 grants a vote; the manager holds it. *)
Lemma term_and_vote_saved_witness :
  let w := state_after [EvRequest (vote_req 2 7 0 0)] server1 in
  state_ w = mk_srv_state 7 2 ∧ read_state (state_mgr_ w) = Some (state_ w).
Proof.
  intros w. split; [vm_compute; reflexivity|].
  pose proof (term_and_vote_saved [EvRequest (vote_req 2 7 0 0)] mem_new echo_new enclave_params
    (sample_mgr 1 [1; 2; 3]) 0 Z.of_nat) as Ht.
  assert (∃ s, read_state (state_mgr_ w) = Some s) as [s Es] by (eexists; vm_compute; reflexivity).
  cbv zeta in Ht. change (new_raft_server mem_new echo_new enclave_params (sample_mgr 1 [1; 2; 3]) 0 Z.of_nat).2
    with server1 in Ht. fold w in Ht. rewrite Es in Ht |- *. f_equal. apply Ht.
  - vm_compute. split; congruence.
  - reflexivity.
  - repeat constructor; vm_compute; congruence.
Defined.

(** The vote is not kept beyond the manager: a server started on the manager
    that the enclave makes at every start has term 0 and no vote. *)
Example restart_forgets :
  state_ (new_raft_server mem_new echo_new enclave_params (new_state_mgr 1 []) 0 Z.of_nat).2
    = mk_srv_state 0 (-1).
Proof. reflexivity. Qed.
