(* ===== verification/Replication.v ===== *)
(** * Log replication

    What [handle_append_entries] does to a follower's log, as a merge of two
    lists; what [create_append_entries_req] puts into a request; which index
    [handle_append_entries_resp] commits. *)

From S2P Require Import Prelude Buffer Config Messages LogStore StateMachine StateMgr Scheduler Peer Server Membership Requests Responses Samples Frames PeerSet Elections.

(** ** The merge

    Entries the log already has (same index, same term) stay; at the first
    conflict the rest of the log is replaced. *)
Fixpoint merge_entries (old new : list log_entry) {struct new} : list log_entry :=
  match new with
  | [] => old
  | e :: new' =>
      match old with
      | [] => clone <$> new
      | o :: old' =>
          if le_term o =? le_term e then o :: merge_entries old' new' else clone <$> new
      end
  end.

(** Every new entry's term is in the merged log at its place. *)
Lemma merge_entries_terms old new j e :
  new !! j = Some e → ∃ o, merge_entries old new !! j = Some o ∧ le_term o = le_term e.
Proof.
  revert old j. induction new as [|e' new IH]; intros old j Hj; [done|]. cbn [merge_entries].
  assert ((clone <$> e' :: new) !! j = Some (clone e)) as Hc by by rewrite list_lookup_fmap, Hj.
  destruct old as [|o old]; [exists (clone e); split; [exact Hc|done]|].
  destruct (Z.eqb_spec (le_term o) (le_term e')) as [Ht|];
    [|exists (clone e); split; [exact Hc|done]].
  destruct j as [|j]; [|by apply IH]. injection Hj as ->. by exists o.
Qed.

(** Without a conflict nothing is lost. *)
Lemma merge_entries_keeps old new :
  (∀ j o e, old !! j = Some o → new !! j = Some e → le_term o = le_term e) →
  ∃ suffix, merge_entries old new = old ++ suffix.
Proof.
  revert old. induction new as [|e new IH]; intros old Hm; [exists []; by rewrite app_nil_r|].
  cbn [merge_entries]. destruct old as [|o old]; [by eexists|].
  rewrite (proj2 (Z.eqb_eq _ _) (Hm 0%nat o e eq_refl eq_refl)).
  destruct (IH old) as [suf ->]; [|by exists suf]. intros j. apply (Hm (S j)).
Qed.

(** ** The index a quorum has *)

(** How many servers have the log up to [v]. *)
Definition have (v : Z) (l : list Z) : nat := length (filter (λ x, v ≤ x) l).

#[global] Instance Zge_total : Total Z.ge.
Proof. intros x y. lia. Qed.
#[global] Instance Zge_trans : Transitive Z.ge.
Proof. intros x y z. lia. Qed.

Lemma have_perm v l l' : l ≡ₚ l' → have v l = have v l'.
Proof. intros Hp. unfold have. by rewrite Hp. Qed.

Lemma have_app v l l' : have v (l ++ l') = (have v l + have v l')%nat.
Proof. unfold have. by rewrite filter_app, length_app. Qed.

Lemma have_all v l : Forall (λ x, v ≤ x) l → have v l = length l.
Proof.
  unfold have. induction 1 as [|x l Hx Hl IH]; [done|].
  rewrite filter_cons_True by done. simpl. by rewrite IH.
Qed.

Lemma have_none v l : Forall (λ x, x < v) l → have v l = 0%nat.
Proof.
  unfold have. induction 1 as [|x l Hx Hl IH]; [done|]. rewrite filter_cons_False by lia. done.
Qed.

Lemma have_le v l : (have v l ≤ length l)%nat.
Proof. apply length_filter. Qed.

(** In a list sorted downwards the first [k + 1] have what the [k]-th has, and
    nobody after it has more. *)
Lemma sorted_have l k v :
  StronglySorted Z.ge l → l !! k = Some v →
  (k < have v l)%nat ∧ ∀ u, v < u → (have u l ≤ k)%nat.
Proof.
  intros Hs Hk. pose proof (take_drop_middle l k v Hk) as Hl.
  assert (k < length l)%nat as Hlt by by eapply lookup_lt_Some.
  rewrite <-Hl in Hs |- *. apply StronglySorted_app in Hs as (Hpre & _ & Hsuf).
  inversion_clear Hsuf as [|? ? Hsuf' Hle].
  rewrite !have_app. split.
  - rewrite (have_all v (take k l)), length_take.
    + change (v :: drop (S k) l) with ([v] ++ drop (S k) l). rewrite have_app, (have_all v [v]);
        [simpl; lia|by repeat constructor].
    + apply Forall_forall. intros x Hx.
      specialize (Hpre x v Hx ltac:(constructor)). lia.
  - intros u Hu. rewrite have_app, (have_none u (v :: drop (S k) l)).
    + pose proof (have_le u (take k l)). rewrite length_take in *. lia.
    + constructor; [done|]. eapply Forall_impl; [exact Hle|]. cbn. lia.
Qed.

(** [quorum_index] exists, more than half are at or above it, and no larger
    index is reached by more than half. *)
Lemma quorum_index_spec (l : list Z) :
  l ≠ [] →
  ∃ v, quorum_index l = Some v ∧ v ∈ l ∧ (length l < 2 * have v l)%nat ∧
    ∀ u, (length l < 2 * have u l)%nat → u ≤ v.
Proof.
  intros Hne. unfold quorum_index.
  assert (merge_sort Z.ge l ≡ₚ l) as Hp by apply merge_sort_Permutation.
  destruct (lookup_lt_is_Some_2 (merge_sort Z.ge l) (length l / 2)%nat) as [v Hv].
  { rewrite (Permutation_length Hp). apply Nat.div_lt; [|lia]. destruct l; [done|simpl; lia]. }
  exists v. destruct (sorted_have _ _ _ (StronglySorted_merge_sort Z.ge l) Hv) as [Hge Hlt].
  pose proof (Nat.div_mod (length l) 2 ltac:(lia)).
  pose proof (Nat.mod_upper_bound (length l) 2 ltac:(lia)).
  split_and!; [done| | |].
  - apply list_elem_of_lookup_2 in Hv. by rewrite Hp in Hv.
  - rewrite (have_perm v _ _ Hp) in Hge. lia.
  - intros u Hu. destruct (Z.le_gt_cases u v) as [|Huv]; [done|].
    specialize (Hlt u ltac:(lia)). rewrite (have_perm u _ _ Hp) in Hlt. lia.
Qed.

Section replication.
Context `{FreshMem} {LS SM : Type} `{!log_store LS} `{!state_machine SM}.
Context `{!log_store_laws LS} `{!state_machine_laws SM}.
#[local] Abbreviation W := (raft_server LS SM).

(** An entry the server can handle. *)
Definition entry_fine (e : log_entry) : Prop :=
  buf_ok (le_buf e) ∧ (le_val_type e = app_log → payload_ok (le_buf e)).

Definition log_view (w : W) : list log_entry := view (log_store_ w).

(** What the entry loops change. *)
Definition rest_of (w : W) := 
  (leader_ w, id_ w, (votes_granted_ w, quick_commit_idx_ w, sm_commit_index_ w),
   (election_completed_ w, catching_up_ w, steps_to_down_ w), scheduler_ w, election_task_ w,
   peers_ w, role_ w, state_ w, config_ w, (srv_to_join_ w, last_snapshot_ w, voted_servers_ w),
   params_ w, state_mgr_ w).

(** ** The three loops *)

Lemma note_new_entry_ok i e (w : W) :
  entry_fine e → ∃ w', note_new_entry i e w = (Ok tt, w') ∧ log_store_ w' = log_store_ w.
Proof.
  intros [_ Hp]. unfold note_new_entry. destruct (le_val_type e); try (by eexists).
  unfold emit. rewrite bind_modify. erewrite on_step by (by apply sm_pre_commit_spec, Hp).
  by eexists.
Qed.

Lemma note_old_entry_ok i e (w : W) :
  entry_fine e → ∃ w', note_old_entry i e w = (Ok tt, w') ∧ log_store_ w' = log_store_ w.
Proof.
  intros [_ Hp]. unfold note_old_entry. destruct (le_val_type e); try (by eexists).
  unfold emit. rewrite bind_modify. erewrite on_step by (by apply sm_rollback_spec, Hp).
  by eexists.
Qed.

Lemma append_new_entries_ok es (w : W) :
  log_ok (log_store_ w) → Forall entry_fine es →
  next_slot_ w + Z.of_nat (length es) < 2 ^ 64 →
  ∃ w', append_new_entries es w = (Ok tt, w') ∧ log_ok (log_store_ w') ∧
    start_index_ w' = start_index_ w ∧ log_view w' = log_view w ++ (clone <$> es).
Proof.
  revert w. induction es as [|e es IH]; intros w Hok Hes Hn.
  { exists w. by rewrite app_nil_r. }
  inversion_clear Hes as [|? ? He Hes']. cbn [length] in Hn. cbn [append_new_entries].
  destruct (append_spec (log_store_ w) e) as (s' & Ha & Hok' & Hst & Hv);
    [done|apply He|unfold next_slot_ in Hn; lia|].
  erewrite bind_step by (by apply on_step).
  set (w1 := update log_store_ _ w).
  destruct (note_new_entry_ok (next_slot (log_store_ w)) e w1) as (w2 & Hw2 & Hl2); [done|].
  rewrite (bind_step _ _ _ _ _ Hw2).
  assert (log_store_ w2 = s') as Hs2 by by rewrite Hl2.
  destruct (IH w2) as (w' & Hw' & Hok2 & Hst2 & Hv2); [by rewrite Hs2|done| |].
  { unfold next_slot_ in *. rewrite Hs2, next_slot_spec, Hst, Hv by done.
    rewrite next_slot_spec in Hn by done. rewrite length_app. simpl. lia. }
  exists w'. split_and!; [done..| |].
  - rewrite Hst2. unfold start_index_. by rewrite Hs2.
  - rewrite Hv2. unfold log_view. by rewrite Hs2, Hv, <-app_assoc.
Qed.

(** The position of an index in the view. *)
Definition offset (w : W) (i : Z) : nat := Z.to_nat (i - start_index_ w).

Definition bounded (w : W) (n : nat) : Prop :=
  next_slot_ w + Z.of_nat n < 2 ^ 64.

(** The second loop, at a conflict: one entry is rolled back, one is written,
    and the log ends there. *)
Lemma overwrite_entries_ok idx e es (w : W) :
  log_ok (log_store_ w) → Forall entry_fine (e :: es) → Forall entry_fine (log_view w) →
  start_index_ w ≤ idx < next_slot_ w → bounded w (S (length es)) →
  ∃ w', overwrite_entries idx (e :: es) w = (Ok es, w') ∧ log_ok (log_store_ w') ∧
    start_index_ w' = start_index_ w ∧ log_view w' = take (offset w idx) (log_view w) ++ [clone e].
Proof.
  intros Hok Hes Hold Hidx Hb. inversion_clear Hes as [|? ? He Hes'].
  unfold bounded, next_slot_, start_index_, log_view in *.
  pose proof (next_slot_spec _ Hok) as Hn. pose proof (log_bounds _ Hok) as [Hb1 Hb2].
  cbn [overwrite_entries]. rewrite bind_get. unfold next_slot_.
  rewrite (proj2 (Z.ltb_lt _ _)) by apply Hidx.
  destruct (lookup_lt_is_Some_2 (view (log_store_ w)) (offset w idx)) as [o Ho];
    [unfold offset, start_index_; lia|].
  rewrite (entry_at_hit _ idx o) by (done || lia). rewrite bind_lift.
  destruct (note_old_entry_ok idx o w) as (w1 & Hw1 & Hl1); [exact (Forall_lookup_1 _ _ _ _ Hold Ho)|].
  rewrite (bind_step _ _ _ _ _ Hw1).
  destruct (write_at_spec (log_store_ w1) idx e) as (s' & Hs' & Hok' & Hst & Hv).
  { by rewrite Hl1. }
  { apply He. }
  { rewrite Hl1. lia. }
  { lia. }
  erewrite bind_step by (by apply on_step). set (w2 := update log_store_ _ w1).
  destruct (note_new_entry_ok idx e w2) as (w3 & Hw3 & Hl3); [done|].
  rewrite (bind_step _ _ _ _ _ Hw3).
  assert (log_store_ w3 = s') as Hs3 by by rewrite Hl3. rewrite Hl1 in Hst, Hv.
  assert (next_slot s' = idx + 1) as Hnext.
  { rewrite next_slot_spec, Hst, Hv by done. rewrite length_app, length_take.
    simpl. lia. }
  exists w3. rewrite u64_small by (unfold is_u64; lia). split_and!.
  - destruct es as [|e' es']; [done|]. cbn [overwrite_entries]. rewrite bind_get. unfold next_slot_.
    rewrite Hs3, Hnext, Z.ltb_irrefl. done.
  - by rewrite Hs3.
  - by rewrite Hs3.
  - by rewrite Hs3, Hv.
Qed.

(** The loops from position [idx] on. *)
Definition write_from (idx : Z) (es : list log_entry) : M W unit :=
  w ← gets id;
  '(idx, rest) ← lift (skip_matching idx es w);
  rest ← overwrite_entries idx rest;
  append_new_entries rest.

Lemma take_drop_S {A} (l : list A) k o :
  l !! k = Some o → take k l ++ [o] = take (S k) l.
Proof. intros Ho. symmetry. by apply take_S_r. Qed.

Lemma write_from_ok es idx (w : W) :
  log_ok (log_store_ w) → Forall entry_fine es → Forall entry_fine (log_view w) →
  start_index_ w ≤ idx ≤ next_slot_ w → bounded w (length es) →
  ∃ w', write_from idx es w = (Ok tt, w') ∧ log_ok (log_store_ w') ∧
    start_index_ w' = start_index_ w ∧
    log_view w' = take (offset w idx) (log_view w) ++
                  merge_entries (drop (offset w idx) (log_view w)) es.
Proof.
  intros Hok Hes Hold. revert idx. induction Hes as [|e es He Hes IH]; intros idx Hidx Hb.
  { exists w. cbn [merge_entries]. by rewrite take_drop. }
  pose proof (next_slot_spec _ Hok) as Hn. pose proof (log_bounds _ Hok) as [Hb1 Hb2].
  unfold write_from. rewrite bind_get. cbn [skip_matching].
  destruct (Z.ltb_spec idx (next_slot_ w)) as [Hlt|Hge].
  - destruct (lookup_lt_is_Some_2 (log_view w) (offset w idx)) as [o Ho];
      [unfold offset, start_index_, log_view, next_slot_ in *; lia|].
    assert (term_at idx (log_store_ w) = Ok (le_term o)) as Ht.
    { apply term_at_entry; [done|]. apply entry_at_hit; [done|apply Hidx|done]. }
    rewrite Ht. cbn [mbind outcome_bind]. rewrite (drop_S _ o) by done. cbn [merge_entries].
    destruct (Z.eqb_spec (le_term o) (le_term e)) as [Heq|Hne].
    + destruct (IH (idx + 1)) as (w' & Hw' & Hok' & Hst' & Hv').
      { lia. } { unfold bounded in *. cbn [length] in Hb. lia. }
      exists w'. split_and!; [|done|done|].
      * rewrite <-Hw'. unfold write_from. rewrite bind_get.
        rewrite u64_small; [done|]. unfold is_u64, next_slot_, start_index_ in *. lia.
      * rewrite Hv'. replace (offset w (idx + 1)) with (S (offset w idx))
          by (unfold offset, start_index_ in *; lia).
        rewrite <-(take_drop_S _ _ _ Ho), <-app_assoc. done.
    + rewrite bind_lift. destruct (overwrite_entries_ok idx e es w) as (w1 & Hw1 & Hok1 & Hst1 & Hv1);
        [done|by constructor|done|lia|done|].
      rewrite (bind_step _ _ _ _ _ Hw1).
      destruct (append_new_entries_ok es w1) as (w' & Hw' & Hok' & Hst' & Hv'); [done|done| |].
      { unfold next_slot_. rewrite next_slot_spec by done. fold (start_index_ w1). fold (log_view w1).
        rewrite Hst1, Hv1, length_app, length_take. unfold bounded, offset in *.
        cbn [length] in *. lia. }
      exists w'. split_and!; [done|done|congruence|]. rewrite Hv', Hv1, <-app_assoc. done.
  - rewrite bind_lift. assert (idx = next_slot_ w) as -> by lia.
    assert (overwrite_entries (next_slot_ w) (e :: es) w = (Ok (e :: es), w)) as How.
    { cbn [overwrite_entries]. by rewrite bind_get, Z.ltb_irrefl. }
    rewrite (bind_step _ _ _ _ _ How).
    destruct (append_new_entries_ok (e :: es) w) as (w' & Hw' & Hok' & Hst' & Hv');
      [done|by constructor|done|].
    exists w'. split_and!; [done..|]. rewrite Hv'.
    assert (offset w (next_slot_ w) = length (log_view w)) as ->.
    { unfold offset, next_slot_, start_index_, log_view. lia. }
    by rewrite firstn_all, drop_all.
Qed.

(** ** The consistency check *)

(** The term of the entry before the new ones, where the server knows it: the
    empty prefix, an entry of the log, the last entry of the snapshot. *)
Definition known_term (w : W) (i : Z) : option Z :=
  if i =? 0 then Some 0
  else if start_index_ w <=? i then Some (term_view (log_store_ w) i)
  else match sm_last_snapshot (state_machine_ w) with
       | Some s => if i =? last_log_idx_ s then Some (last_log_term_ s) else None
       | None => None
       end.

Lemma term_for_log_spec i (w : W) :
  log_ok (log_store_ w) → 0 ≤ i →
  term_for_log i w =
    match known_term w i with
    | Some t => (Ok t, w)
    | None => (Throw raft_exception, w <| out ::= λ l, l ++ [EExit (-1)] |>)
    end.
Proof.
  intros Hok Hi. unfold term_for_log, known_term. rewrite bind_get.
  destruct (i =? 0); [done|]. destruct (start_index_ w <=? i).
  - by rewrite term_at_view.
  - destruct (sm_last_snapshot (state_machine_ w)) as [s|]; [|done].
    by destruct (i =? last_log_idx_ s).
Qed.

(** ** Hearing from the leader *)

(** The timers the server refers to exist. *)
Definition election_timer_ok (w : W) : Prop :=
  match election_task_ w with
  | Some t => is_Some (tasks (scheduler_ w) !! t)
  | None => True
  end.

Lemma restart_election_timer_ok (w : W) :
  election_timer_ok w → ∃ w', restart_election_timer w = (Ok tt, w').
Proof.
  intros Ht. unfold restart_election_timer. rewrite bind_get.
  destruct (catching_up_ w); [by eexists|].
  assert (∃ t w1, (match election_task_ w with
      | Some t => on scheduler_ (cancel t) ;; mret t
      | None => t ← on scheduler_ (new_task TElection); election_task_ <~ Some t ;; mret t
      end) w = (Ok t, w1) ∧ is_Some (tasks (scheduler_ w1) !! t)) as (t & w1 & Hm & Hs).
  { unfold election_timer_ok in Ht. destruct (election_task_ w) as [t|].
    - destruct Ht as [d Hd]. destruct (cancel_spec t d (scheduler_ w) Hd) as (calls & Hc).
      eexists t, _. split; [erewrite bind_step by (by apply on_step); done|].
      unfold update; cbn. rewrite lookup_insert_eq. by eexists.
    - eexists _, _. split; [erewrite bind_step by (apply on_step, new_task_spec); done|].
      unfold update; cbn. rewrite lookup_insert_eq. by eexists. }
  rewrite (bind_step _ _ _ _ _ Hm). unfold rand_timeout. rewrite bind_assoc, bind_get.
  rewrite bind_assoc, bind_modify. cbv zeta. rewrite bind_ret.
  destruct Hs as [d Hd]. edestruct (schedule_spec t) as (uid & last & _ & Hsch); [exact Hd|].
  eexists. by apply on_step.
Qed.

(** ** Committing as a follower *)

Lemma commit_follower i (w : W) :
  role_ w ≠ leader →
  ∃ o, commit i w = (Ok tt, w <| quick_commit_idx_ := Z.max (quick_commit_idx_ w) i |>
                             <| out := o |>).
Proof.
  intros Hr. unfold commit. rewrite bind_get.
  rewrite (bool_decide_eq_false_2 (role_ w = leader)) by done. cbn [when].
  destruct (Z.ltb_spec (quick_commit_idx_ w) i) as [Hlt|Hge]; cbn [when].
  - rewrite bind_assoc, bind_modify, bind_ret, bind_get. rewrite Z.max_r by lia.
    destruct (_ && _); cbn [when]; [by eexists|]. by exists (out w).
  - rewrite bind_ret, bind_get. rewrite Z.max_l by lia.
    destruct (_ && _); cbn [when]; [by eexists|]. exists (out w). by destruct w.
Qed.

(** ** Accepting and rejecting *)

(** The request continues this server's log. *)
Definition continues (req : req_msg) (w : W) : Prop :=
  req_last_log_idx req = 0 ∨
  (req_last_log_idx req < next_slot_ w ∧
   known_term w (req_last_log_idx req) = Some (req_last_log_term req)).

Lemma log_okay_accepts req (w : W) :
  log_ok (log_store_ w) → 0 ≤ req_last_log_idx req → continues req w →
  log_okay_for req w = (Ok true, w).
Proof.
  intros Hok H0 Hc. unfold log_okay_for. rewrite bind_get.
  destruct (Z.eqb_spec (req_last_log_idx req) 0); [done|]. destruct Hc as [|[Hlt Hk]]; [done|].
  rewrite (proj2 (Z.ltb_lt _ _) Hlt).
  assert (term_for_log (req_last_log_idx req) w = (Ok (req_last_log_term req), w)) as Ht
    by (rewrite term_for_log_spec, Hk by done; done).
  by rewrite (bind_step _ _ _ _ _ Ht), Z.eqb_refl.
Qed.

(** What a request of a leader must satisfy for its entries to fit the log. *)
Record append_request_fits (req : req_msg) (w : W) : Prop := {
  fit_idx : 0 ≤ req_last_log_idx req;
  fit_start : start_index_ w ≤ req_last_log_idx req + 1;
  fit_end : req_last_log_idx req < next_slot_ w;
  fit_room : bounded w (length (req_log_entries req));
  fit_new : Forall entry_fine (req_log_entries req);
  fit_old : Forall entry_fine (log_view w);
}.

Lemma write_entries_ok req (w : W) :
  log_ok (log_store_ w) → append_request_fits req w →
  ∃ w', write_entries (req_last_log_idx req) (req_log_entries req) w = (Ok tt, w') ∧
    log_ok (log_store_ w') ∧ start_index_ w' = start_index_ w ∧
    log_view w' =
      take (offset w (req_last_log_idx req + 1)) (log_view w) ++
      merge_entries (drop (offset w (req_last_log_idx req + 1)) (log_view w)) (req_log_entries req).
Proof.
  intros Hok [H0 Hst Hend Hroom Hnew Hold].
  destruct (bool_decide_reflect (req_log_entries req = [])) as [E|Hne].
  - exists w. unfold write_entries. rewrite E. cbn [merge_entries]. by rewrite take_drop.
  - unfold write_entries. rewrite bool_decide_eq_false_2 by done.
    assert (is_u64 (req_last_log_idx req + 1)) as Hu.
    { unfold bounded, is_u64 in *. lia. }
    rewrite (u64_small _ Hu). apply write_from_ok; [done..|lia|done].
Qed.

(** The part of the handler after the checks. *)
Lemma accept_entries req resp (w : W) :
  role_ w = follower → log_ok (log_store_ w) → append_request_fits req w →
  ∃ w', (write_entries (req_last_log_idx req) (req_log_entries req) ;;
         leader_ <~ req_src req ;;
         commit (req_commit_idx req) ;;
         mret resp) w = (Ok (resp : resp_msg), w') ∧
    log_ok (log_store_ w') ∧ start_index_ w' = start_index_ w ∧
    log_view w' =
      take (offset w (req_last_log_idx req + 1)) (log_view w) ++
      merge_entries (drop (offset w (req_last_log_idx req + 1)) (log_view w)) (req_log_entries req) ∧
    leader_ w' = req_src req ∧ role_ w' = follower ∧ state_ w' = state_ w ∧
    quick_commit_idx_ w' = Z.max (quick_commit_idx_ w) (req_commit_idx req).
Proof.
  intros Hr Hok Hfit. destruct (write_entries_ok req w Hok Hfit) as (w1 & Hw1 & Hok1 & Hst1 & Hv1).
  pose proof (within_elim (same (λ w, (role_ w, state_ w, quick_commit_idx_ w))) _ _ _ _
    (within_write_entries _ _ _) Hw1) as [= Hr1 Hs1 Hq1].
  rewrite (bind_step _ _ _ _ _ Hw1), bind_modify.
  destruct (commit_follower (req_commit_idx req) (w1 <| leader_ := req_src req |>)) as [o Ho].
  { change (role_ w1 ≠ leader). congruence. }
  rewrite (bind_step _ _ _ _ _ Ho). eexists. split; [reflexivity|].
  split_and!; [done..|exact (eq_trans Hr1 Hr)|exact Hs1|].
  change (Z.max (quick_commit_idx_ w1) (req_commit_idx req) =
          Z.max (quick_commit_idx_ w) (req_commit_idx req)). by rewrite Hq1.
Qed.

(** C14: a follower's log after an accepted append.  A request of the current
    term that continues the log is accepted; the log is then the merge of the
    old log with the request (the prefix and every entry that agrees kept, the
    rest of the log replaced from the first conflict on), every entry of the
    request is in place with its term, the answer names the index after them,
    the sender is the leader, and the commit index moves up to the leader's. *)
Theorem append_entries_merges (req : req_msg) (w : W) :
  role_ w = follower → req_term req = current_term w → log_ok (log_store_ w) →
  election_timer_ok w → continues req w → append_request_fits req w →
  let prev := req_last_log_idx req in
  ∃ resp w', handle_append_entries req w = (Ok resp, w') ∧
    resp_accepted resp = true ∧
    resp_next_idx resp = prev + Z.of_nat (length (req_log_entries req)) + 1 ∧
    log_ok (log_store_ w') ∧ start_index_ w' = start_index_ w ∧
    log_view w' = take (offset w (prev + 1)) (log_view w) ++
                  merge_entries (drop (offset w (prev + 1)) (log_view w)) (req_log_entries req) ∧
    (∀ j e, req_log_entries req !! j = Some e →
       term_view (log_store_ w') (prev + 1 + Z.of_nat j) = le_term e) ∧
    leader_ w' = req_src req ∧ role_ w' = follower ∧ state_ w' = state_ w ∧
    quick_commit_idx_ w' = Z.max (quick_commit_idx_ w) (req_commit_idx req).
Proof.
  intros Hr Ht Hok Htm Hc Hfit prev. unfold handle_append_entries. rewrite bind_get, Ht, Z.eqb_refl.
  unfold hear_from_leader. cbn [when]. rewrite bind_assoc, bind_get, Hr.
  destruct (restart_election_timer_ok w Htm) as (w1 & Hw1).
  pose proof (within_elim (same (λ w, (role_ w, log_store_ w, state_machine_ w, state_ w,
    quick_commit_idx_ w))) _ _ _ _ (within_restart_election_timer _) Hw1)
    as [= Hr1 Hl1 Hm1 Hs1 Hq1].
  rewrite (bind_step _ _ _ _ _ Hw1), bind_get.
  assert (append_request_fits req w1) as Hfit1.
  { destruct Hfit. split; unfold bounded, next_slot_, start_index_, log_view in *;
      rewrite ?Hl1; done. }
  assert (continues req w1) as Hc1.
  { unfold continues, known_term, next_slot_, start_index_ in *. by rewrite Hl1, Hm1. }
  assert (log_ok (log_store_ w1)) as Hok1 by by rewrite Hl1.
  assert (log_okay_for req w1 = (Ok true, w1)) as Hlk
    by (apply log_okay_accepts; [done|apply Hfit|done]).
  cbv zeta. rewrite (bind_step _ _ _ _ _ Hlk).
  replace (current_term w <? current_term w1) with false
    by (unfold current_term; rewrite Hs1, Z.ltb_irrefl; done). cbn [orb negb].
  edestruct (accept_entries req) as (w' & Hw' & Hok' & Hst' & Hv' & Hld & Hr' & Hs' & Hq');
    [by rewrite Hr1|exact Hok1|exact Hfit1|].
  rewrite Hw'. eexists _, w'. split; [reflexivity|].
  assert (start_index_ w1 = start_index_ w ∧ log_view w1 = log_view w) as [Hst1 Hv1]
    by (unfold start_index_, log_view; by rewrite Hl1).
  unfold offset in *. rewrite Hst1, Hv1 in *. split_and!; try done; try congruence.
  - destruct Hfit as [H0 ? ? Hroom _ _]. unfold bounded in Hroom. cbn.
    apply u64_small. unfold is_u64. lia.
  - intros j e Hj. destruct Hfit as [H0 Hsta Hend _ _ _].
    pose proof (next_slot_spec _ Hok) as Hn. unfold next_slot_, start_index_, log_view in *.
    destruct (merge_entries_terms (drop (Z.to_nat (prev + 1 - start_index (log_store_ w)))
      (view (log_store_ w))) _ j e Hj) as (o & Ho & <-).
    unfold term_view, entry_view. unfold prev in *. rewrite Hst'.
    destruct (Z.ltb_spec (req_last_log_idx req + 1 + Z.of_nat j) (start_index (log_store_ w))); [lia|].
    rewrite Hv', lookup_app_r, length_take by (rewrite length_take; lia).
    replace (Z.to_nat _ - _)%nat with j by lia. by rewrite Ho.
Qed.

(** C28: a request that does not fit is refused and the log is untouched: of
    an older term, past the end of the log, or disagreeing on the entry
    before.  The answer then carries this server's term and the index after
    its last entry, for the leader to step back to. *)
Theorem append_entries_rejects (req : req_msg) (w : W) :
  role_ w = follower → log_ok (log_store_ w) → election_timer_ok w →
  req_term req ≤ current_term w → 0 ≤ req_last_log_idx req →
  known_term w (req_last_log_idx req) ≠ None →
  (req_term req < current_term w ∨ ¬ continues req w) →
  ∃ resp w', handle_append_entries req w = (Ok resp, w') ∧ resp_accepted resp = false ∧
    resp_next_idx resp = next_slot_ w ∧ resp_term resp = current_term w ∧
    log_store_ w' = log_store_ w ∧ state_ w' = state_ w ∧
    quick_commit_idx_ w' = quick_commit_idx_ w ∧ leader_ w' = leader_ w.
Proof.
  intros Hr Hok Htm Hle H0 Hk Hbad. unfold handle_append_entries. rewrite bind_get.
  assert (∃ w1, when (req_term req =? current_term w) hear_from_leader w = (Ok tt, w1)) as (w1 & Hw1).
  { destruct (req_term req =? current_term w); cbn [when]; [|by eexists].
    unfold hear_from_leader. rewrite bind_get, Hr. by apply restart_election_timer_ok. }
  assert (same (λ w, (log_store_ w, state_machine_ w, state_ w, quick_commit_idx_ w, leader_ w)) w w1)
    as [= Hl1 Hm1 Hs1 Hq1 Hld1].
  { eapply within_elim; [|exact Hw1]. within_solve idtac. }
  rewrite (bind_step _ _ _ _ _ Hw1), bind_get. cbv zeta.
  assert (current_term w1 = current_term w ∧ next_slot_ w1 = next_slot_ w) as [Ht1 Hn1]
    by (unfold current_term, next_slot_; by rewrite Hs1, Hl1).
  assert (known_term w1 = known_term w) as Hk1.
  { unfold known_term, start_index_. by rewrite Hl1, Hm1. }
  assert (∃ b, log_okay_for req w1 = (Ok b, w1) ∧ (b = true → continues req w)) as (b & Hb & Hcont).
  { unfold log_okay_for. rewrite bind_get, Hn1. unfold continues.
    destruct (Z.eqb_spec (req_last_log_idx req) 0); [eexists; eauto|].
    destruct (Z.ltb_spec (req_last_log_idx req) (next_slot_ w)); [|by eexists].
    destruct (known_term w (req_last_log_idx req)) as [t|] eqn:E; [|done].
    assert (term_for_log (req_last_log_idx req) w1 = (Ok t, w1)) as Htf
      by (rewrite term_for_log_spec, Hk1, E by (try done; by rewrite Hl1); done).
    rewrite (bind_step _ _ _ _ _ Htf). eexists. split; [done|].
    intros ->%Z.eqb_eq. auto. }
  rewrite (bind_step _ _ _ _ _ Hb).
  assert ((req_term req <? current_term w1) || negb b = true) as ->.
  { rewrite Ht1. destruct Hbad as [Hlt|Hnc]; [by rewrite (proj2 (Z.ltb_lt _ _) Hlt)|].
    destruct b; [exfalso; auto|]. apply orb_true_r. }
  eexists _, w1. split; [reflexivity|]. rewrite Hn1, Ht1. done.
Qed.

(** ** The leader's side *)

Lemma commit_quick i (w : W) :
  quick_commit_idx_ (commit i w).2 = Z.max (quick_commit_idx_ w) i.
Proof.
  unfold commit. rewrite bind_get.
  destruct (Z.ltb_spec (quick_commit_idx_ w) i); cbn [when].
  - rewrite bind_assoc, bind_modify, Z.max_r by lia.
    change i with (quick_commit_idx_ (w <| quick_commit_idx_ := i |>)) at 2. by_frame.
  - rewrite bind_ret, Z.max_l by lia. by_frame.
Qed.

(** The peer after an accepted answer. *)
Definition acknowledged (resp : resp_msg) (p : peer) : peer :=
  set_matched_idx (u64 (resp_next_idx resp - 1)) (set_next_log_idx (resp_next_idx resp) p).

(** The commit index after an accepted answer. *)
Lemma response_quorum (resp : resp_msg) (w : W) (p : peer) :
  peers_ w !! resp_src resp = Some p → resp_accepted resp = true →
  let l := matched_indexes (w <| peers_ ::= <[resp_src resp := acknowledged resp p]> |>) in
  ∃ v, quick_commit_idx_ (handle_append_entries_resp resp w).2 = Z.max (quick_commit_idx_ w) v ∧
    v ∈ l ∧ (length l < 2 * have v l)%nat ∧ (∀ u, (length l < 2 * have u l)%nat → u ≤ v).
Proof.
  intros Hp Ha l. destruct (quorum_index_spec l) as (v & Hq & Hin & Hmaj & Hmax); [done|].
  exists v. split; [|done].
  unfold handle_append_entries_resp. rewrite bind_get, Hp, Ha.
  set (w1 := w <| peers_ ::= <[resp_src resp := acknowledged resp p]> |>).
  assert (upd_peer (PeerOf (resp_src resp)) (λ p, set_matched_idx (u64 (resp_next_idx resp - 1))
    (set_next_log_idx (resp_next_idx resp) p)) w = (Ok tt, w1)) as Hu.
  { unfold upd_peer, get_peer. rewrite bind_assoc, bind_gets. cbn [find_peer]. rewrite Hp.
    by rewrite bind_ret. }
  rewrite bind_assoc, (bind_step _ _ _ _ _ Hu), bind_assoc, bind_gets.
  change (matched_indexes w1) with l. rewrite Hq.
  rewrite bind_assoc. change (quick_commit_idx_ w) with (quick_commit_idx_ w1).
  rewrite <-commit_quick.
  match goal with |- context [(commit v ≫= ?k) w1] =>
    destruct (bind_cases (commit v) k w1) as [([] & _ & ->)|[_ ->]] end; [|done].
  by_frame.
Qed.

(** C15: an accepted answer of the current term commits what a majority is
    recorded to have, and no more.  The commit index becomes the larger of the
    old one and the largest index that more than half of the values counted
    (this server's last entry and the matched index recorded for each peer,
    with the answer taken in) have reached. *)
Theorem response_commits_majority (resp : resp_msg) (w : W) (p : peer) :
  resp_type resp = append_entries_response → resp_term resp = current_term w →
  peers_ w !! resp_src resp = Some p → resp_accepted resp = true →
  let p' := acknowledged resp (set_last_resp (clock w) p) in
  let l := matched_indexes (w <| peers_ ::= <[resp_src resp := p']> |>) in
  ∃ v, quick_commit_idx_ (handle_peer_resp (Some resp) w).2 = Z.max (quick_commit_idx_ w) v ∧
    v ∈ l ∧ (length l < 2 * have v l)%nat ∧ (∀ u, (length l < 2 * have u l)%nat → u ≤ v).
Proof.
  intros Hty Ht Hp Ha p' l. unfold handle_peer_resp. rewrite bind_get.
  rewrite bool_decide_eq_true_2 by by rewrite Hp. cbn [when].
  set (w1 := w <| peers_ ::= <[resp_src resp := set_last_resp (clock w) p]> |>).
  assert (upd_peer (PeerOf (resp_src resp)) (set_last_resp (clock w)) w = (Ok tt, w1)) as Hu.
  { unfold upd_peer, get_peer. rewrite bind_assoc, bind_gets. cbn [find_peer]. rewrite Hp.
    by rewrite bind_ret. }
  rewrite (bind_step _ _ _ _ _ Hu).
  erewrite bind_step by (apply update_term_old; change (current_term w1) with (current_term w); lia).
  rewrite Hty. subst l p'.
  replace (w <| peers_ ::= <[resp_src resp := acknowledged resp (set_last_resp (clock w) p)]> |>)
    with (w1 <| peers_ ::= <[resp_src resp := acknowledged resp (set_last_resp (clock w) p)]> |>)
    by (subst w1; unfold update; cbn; by rewrite insert_insert_eq).
  change (quick_commit_idx_ w) with (quick_commit_idx_ w1).
  apply response_quorum; [apply lookup_insert_eq|done].
Qed.

(** The entries a request to a peer carries. *)
Definition entries_from (w : W) (nxt : Z) : list log_entry :=
  take (Z.to_nat (Z.min (next_slot_ w) (nxt + max_append_size_ (params_ w)) - nxt))
    (drop (offset w nxt) (log_view w)).

Lemma create_append_entries_ok (r : peer_ref) (w : W) (p : peer) (t : Z) :
  log_ok (log_store_ w) → find_peer r w = Some p →
  let nxt := next_log_idx_ p in
  0 < nxt → start_index_ w ≤ nxt ≤ next_slot_ w → known_term w (nxt - 1) = Some t →
  0 ≤ max_append_size_ (params_ w) < 2 ^ 31 → next_slot_ w + 2 ^ 31 < 2 ^ 64 →
  ∃ req, create_append_entries_req r w = (Ok req, w) ∧
    req_type req = append_entries_request ∧ req_term req = current_term w ∧
    req_src req = id_ w ∧ req_dst req = p_id p ∧ req_commit_idx req = quick_commit_idx_ w ∧
    req_last_log_idx req = nxt - 1 ∧ req_last_log_term req = t ∧
    req_log_entries req = entries_from w nxt.
Proof.
  intros Hok Hp nxt H0 Hrng Ht Hmax Hbig. unfold create_append_entries_req. rewrite bind_get.
  pose proof (log_bounds _ Hok) as [Hb1 Hb2]. pose proof (next_slot_spec _ Hok) as Hn.
  assert (get_peer r w = (Ok p, w)) as Hg.
  { unfold get_peer. by rewrite bind_gets, Hp. }
  cbv zeta. rewrite (bind_step _ _ _ _ _ Hg). fold nxt.
  destruct (Z.eqb_spec nxt 0); [lia|]. cbn [when].
  rewrite bind_ret, (bind_step _ _ _ _ _ Hg). fold nxt.
  rewrite (u64_small (nxt - 1)) by (unfold is_u64; lia).
  rewrite (u64_small (start_index_ w - 1)) by (unfold is_u64, start_index_ in *; lia).
  destruct (Z.leb_spec (next_slot_ w) (nxt - 1)); [lia|].
  assert ((0 <? nxt - 1) && (nxt - 1 <? start_index_ w - 1) = false) as ->.
  { apply andb_false_iff. right. apply Z.ltb_ge. lia. }
  assert (term_for_log (nxt - 1) w = (Ok t, w)) as Hterm
    by (rewrite term_for_log_spec, Ht by (done || lia); done).
  rewrite (bind_step _ _ _ _ _ Hterm).
  replace (nxt - 1 + 1) with nxt by lia. rewrite !(u64_small nxt) by (unfold is_u64; lia).
  rewrite (u64_small (nxt + _)) by (unfold is_u64; lia).
  assert ((if next_slot_ w <=? nxt then mret []
    else lift (log_entries nxt (Z.min (next_slot_ w) (nxt + max_append_size_ (params_ w)))
                 (log_store_ w))) w = (Ok (entries_from w nxt), w)) as He.
  { unfold entries_from. destruct (Z.leb_spec (next_slot_ w) nxt).
    - rewrite Z.min_l by lia. by replace (Z.to_nat (next_slot_ w - nxt)) with 0%nat by lia.
    - rewrite log_entries_spec; [done|done|unfold start_index_ in *; lia|unfold next_slot_; lia|lia]. }
  rewrite (bind_step _ _ _ _ _ He). eexists. split; [reflexivity|]. done.
Qed.

(** C29: what a leader sends.  For a peer whose next index is within the log,
    the request carries this server's term and commit index, the index and
    term of the entry before, and exactly the log's entries from the next
    index on, at most [max_append_size_] of them; building it changes
    nothing. *)
Theorem append_request_is_a_slice (r : peer_ref) (w : W) (p : peer) (t : Z) :
  log_ok (log_store_ w) → find_peer r w = Some p →
  let nxt := next_log_idx_ p in
  0 < nxt → start_index_ w ≤ nxt ≤ next_slot_ w → known_term w (nxt - 1) = Some t →
  0 ≤ max_append_size_ (params_ w) < 2 ^ 31 → next_slot_ w + 2 ^ 31 < 2 ^ 64 →
  ∃ req, create_append_entries_req r w = (Ok req, w) ∧
    req_type req = append_entries_request ∧ req_term req = current_term w ∧
    req_src req = id_ w ∧ req_dst req = p_id p ∧ req_commit_idx req = quick_commit_idx_ w ∧
    req_last_log_idx req = nxt - 1 ∧ req_last_log_term req = t ∧
    req_log_entries req = entries_from w nxt.
Proof. apply create_append_entries_ok. Qed.
End replication.

#[local] Existing Instance zero_mem.

Lemma server1_log_ok : log_ok (log_store_ server1).
Proof.
  exists dummy_entry, []. replace (log_store_ server1) with mem_new by (vm_compute; reflexivity).
  apply mem_new_holds.
Qed.

Lemma hello_fine : entry_fine (SM := echo_state_machine) hello.
Proof. split; [split; [cbn; lia|vm_compute; reflexivity]|]. intros _. vm_compute. reflexivity. Qed.

Definition two_hellos : req_msg := append_req 2 0 0 0 1 [hello; hello].

Lemma append_entries_merges_witness :
  ∃ resp w', handle_append_entries two_hellos server1 = (Ok resp, w') ∧
    resp_next_idx resp = 3 ∧ leader_ w' = 2.
Proof.
  destruct (append_entries_merges two_hellos server1) as
    (resp & w' & Hw & _ & Hn & _ & _ & _ & _ & Hl & _).
  - vm_compute. reflexivity.
  - vm_compute. reflexivity.
  - exact server1_log_ok.
  - vm_compute. eexists. reflexivity.
  - left. reflexivity.
  - split; [vm_compute; congruence..| |].
    + repeat constructor; apply hello_fine.
    + replace (log_view server1) with (@nil log_entry) by (vm_compute; reflexivity). constructor.
  - exists resp, w'. split; [exact Hw|]. split; [exact Hn|exact Hl].
Defined.

Lemma append_entries_rejects_witness :
  ∃ resp w', handle_append_entries (append_req 2 0 5 7 0 []) server1 = (Ok resp, w') ∧
    resp_accepted resp = false ∧ resp_next_idx resp = 1.
Proof.
  destruct (append_entries_rejects (append_req 2 0 5 7 0 []) server1) as
    (resp & w' & Hw & Ha & Hn & _).
  - vm_compute. reflexivity.
  - exact server1_log_ok.
  - vm_compute. eexists. reflexivity.
  - vm_compute. congruence.
  - vm_compute. congruence.
  - vm_compute. congruence.
  - right. unfold continues. intros [E|[Hlt _]]; [vm_compute in E|vm_compute in Hlt]; congruence.
  - exists resp, w'. split; [exact Hw|]. split; [exact Ha|exact Hn].
Defined.

Definition ack2 : resp_msg := mk_resp_msg 1 append_entries_response 2 1 1 true.

Lemma response_commits_majority_witness :
  ∃ p v, peers_ server1_leader !! resp_src ack2 = Some p ∧
    quick_commit_idx_ (handle_peer_resp (Some ack2) server1_leader).2 = Z.max 0 v.
Proof.
  destruct (peers_ server1_leader !! resp_src ack2) as [p|] eqn:E.
  - destruct (response_commits_majority ack2 server1_leader p) as (v & Hv & _);
      [reflexivity|vm_compute; reflexivity|exact E|reflexivity|].
    exists p, v. split; [reflexivity|exact Hv].
  - exfalso. revert E. vm_compute. congruence.
Defined.

Lemma append_request_is_a_slice_witness :
  ∃ req, create_append_entries_req (PeerOf 2) server1_leader = (Ok req, server1_leader) ∧
    req_last_log_idx req = 0.
Proof.
  destruct (find_peer (PeerOf 2) server1_leader) as [p|] eqn:E;
    [|exfalso; revert E; vm_compute; congruence].
  assert (next_log_idx_ p = 1) as Hnxt.
  { revert E. vm_compute. intros [= <-]. reflexivity. }
  destruct (append_request_is_a_slice (PeerOf 2) server1_leader p 0) as
    (req & Hr & _ & _ & _ & _ & _ & Hi & _).
  - exists dummy_entry, [].
    replace (log_store_ server1_leader) with mem_new by (vm_compute; reflexivity).
    apply mem_new_holds.
  - exact E.
  - rewrite Hnxt. lia.
  - rewrite Hnxt. split; vm_compute; congruence.
  - rewrite Hnxt. vm_compute. reflexivity.
  - split; vm_compute; congruence.
  - vm_compute. reflexivity.
  - exists req. split; [exact Hr|]. rewrite Hi, Hnxt. reflexivity.
Defined.
