(* ===== verification/LeaderLog.v ===== *)
(** * The leader's log

    A leader never overwrites or deletes entries of its own log; it only
    appends to it: client entries, stamped with its term, and configurations.
    (Compaction, by the commit thread, drops entries from the front; it is
    with the log store.) *)

From S2P Require Import Prelude Buffer Config Messages LogStore StateMachine StateMgr Scheduler Peer Server Membership Requests Responses Samples Frames PeerSet Elections Cluster Replication.

Section leader_log.
Context `{FreshMem} {LS SM : Type} `{!log_store LS} `{!state_machine SM}.
Context `{!log_store_laws LS}.
#[local] Abbreviation W := (raft_server LS SM).

(** ** Code that appends at most [n] entries *)

Definition extended (n : nat) (w w' : W) : Prop :=
  log_ok (log_store_ w') ∧ start_index_ w' = start_index_ w ∧
  ∃ suffix, log_view w' = log_view w ++ suffix ∧ (length suffix ≤ n)%nat.

Definition appends {A} (n : nat) (m : M W A) : Prop := ∀ w,
  log_ok (log_store_ w) → bounded w n → extended n w (m w).2.

Lemma extended_same n w w' : log_ok (log_store_ w) → log_store_ w' = log_store_ w → extended n w w'.
Proof.
  intros Hok Hl. unfold extended, start_index_, log_view. rewrite Hl. split_and!; [done..|].
  exists []. rewrite app_nil_r. split; [done|cbn; lia].
Qed.

Lemma extended_trans n k w1 w2 w3 :
  extended n w1 w2 → extended k w2 w3 → extended (n + k) w1 w3.
Proof.
  intros (_ & Hs1 & l1 & Hv1 & Hl1) (Hok & Hs2 & l2 & Hv2 & Hl2). split_and!; [done|congruence|].
  exists (l1 ++ l2). rewrite Hv2, Hv1, app_assoc, length_app. split; [done|lia].
Qed.

Lemma extended_bounded n k w w' :
  log_ok (log_store_ w) → extended n w w' → bounded w (n + k) → bounded w' k.
Proof.
  intros Hok (Hok' & Hs & l & Hv & Hl). unfold bounded, next_slot_, start_index_, log_view in *.
  rewrite !next_slot_spec, Hs, Hv, length_app by done. lia.
Qed.

Lemma appends_bind {A B} n k (m : M W A) (f : A → M W B) :
  appends n m → (∀ a, appends k (f a)) → appends (n + k) (m ≫= f).
Proof.
  intros Hm Hf w Hok Hb. assert (extended n w (m w).2) as He.
  { apply Hm; [done|]. unfold bounded in *. lia. }
  destruct (bind_cases m f w) as [(a & _ & ->)|[_ ->]].
  - eapply extended_trans; [exact He|]. apply Hf; [apply He|]. by eapply extended_bounded.
  - destruct He as (Hok' & Hs & l & Hv & Hl). split_and!; [done..|]. exists l. split; [done|lia].
Qed.

Lemma appends_frame {A} n (m : M W A) : within (same log_store_) m → appends n m.
Proof. intros Hm w Hok _. by apply extended_same; [|apply Hm]. Qed.

(** Before and after code that does not touch the log. *)
Lemma appends_after {A B} n (m : M W A) (f : A → M W B) :
  within (same log_store_) m → (∀ a, appends n (f a)) → appends n (m ≫= f).
Proof. intros Hm Hf. by apply (appends_bind 0 n); [apply appends_frame|]. Qed.

Lemma appends_before {A B} n (m : M W A) (f : A → M W B) :
  appends n m → (∀ a, within (same log_store_) (f a)) → appends n (m ≫= f).
Proof.
  intros Hm Hf. replace n with (n + 0)%nat by lia. apply appends_bind; [done|].
  intros a. by apply appends_frame.
Qed.

Lemma appends_when n b (m : M W unit) : appends n m → appends n (when b m).
Proof. destruct b; [done|]. intros _ w Hok _. by apply extended_same. Qed.

Lemma appends_lift {A B} n (o : outcome A) (f : A → M W B) :
  (∀ a, o = Ok a → appends n (f a)) → appends n (lift o ≫= f).
Proof.
  intros Hf w Hok Hb. unfold mbind, M_bind, lift.
  destruct o as [a|e|u]; [by apply Hf|by apply extended_same..].
Qed.

Lemma appends_append e : buf_ok (le_buf e) → appends 1 (on log_store_ (append e)).
Proof.
  intros Hb w Hok Hn. unfold bounded in Hn.
  destruct (append_spec (log_store_ w) e) as (s' & Ha & Hok' & Hst & Hv);
    [done|done|unfold next_slot_ in Hn; lia|].
  erewrite on_step by done. split_and!; [done..|]. exists [clone e]. by split.
Qed.

Lemma appends_pack i c : appends 1 (on log_store_ (pack i c)).
Proof.
  intros w Hok _. apply extended_same; [done|]. unfold on.
  pose proof (pack_keeps (log_store_ w) i c Hok) as Hk.
  by destruct (pack i c (log_store_ w)).
Qed.

Create HintDb appends.
#[local] Hint Resolve appends_append appends_pack : appends.

(** Walk through a handler; [within] lemmas close what leaves the log alone. *)
Ltac appends_step := lazymatch goal with
  | |- appends _ (when _ _) => apply appends_when
  | |- appends _ (match ?x with _ => _ end) => destruct x
  | |- appends _ (let _ := _ in _) => cbv zeta
  | |- appends _ (_ ≫= _) =>
      first [ apply appends_before;
                [solve [eauto with appends nocore]|solve [intros ?; within_solve ignored]]
            | apply appends_after; [solve [within_solve ignored]|intros ?]
            | apply appends_before; [|solve [intros ?; within_solve ignored]] ]
  | |- appends _ _ => first [ solve [eauto with appends nocore]
                            | apply appends_frame; solve [within_solve ignored] ]
  end.
Ltac appends_solve := repeat appends_step.

Lemma appends_append_config c : appends 1 (append_config (LS := LS) (SM := SM) c).
Proof.
  unfold append_config. appends_step. apply appends_lift.
  intros b E. pose proof (cluster_config_serialize_ok c b E). appends_solve.
Qed.
#[local] Hint Resolve appends_append_config : appends.

Lemma appends_become_leader : appends 1 (become_leader (LS := LS) (SM := SM)).
Proof. unfold become_leader. appends_solve. Qed.
#[local] Hint Resolve appends_become_leader : appends.

Lemma appends_sync_log_to_new_srv i : appends 1 (sync_log_to_new_srv (LS := LS) (SM := SM) i).
Proof. unfold sync_log_to_new_srv. appends_solve. Qed.

Lemma appends_rm_srv_from_cluster i : appends 1 (rm_srv_from_cluster (LS := LS) (SM := SM) i).
Proof. unfold rm_srv_from_cluster. appends_solve. Qed.
#[local] Hint Resolve appends_sync_log_to_new_srv appends_rm_srv_from_cluster : appends.

Lemma appends_request_vote : appends 1 (request_vote (LS := LS) (SM := SM)).
Proof. unfold request_vote. appends_solve. Qed.
#[local] Hint Resolve appends_request_vote : appends.

Lemma appends_append_client_entries l :
  Forall (λ e, buf_ok (le_buf e)) l →
  appends (length l) (append_client_entries (LS := LS) (SM := SM) l).
Proof.
  induction 1 as [|e l He Hl IH]; cbn [append_client_entries length].
  { apply appends_frame. within_solve idtac. }
  apply appends_after; [within_solve ignored|]. intros t. cbv zeta.
  apply (appends_bind 1 (length l)); [by apply appends_append|]. intros i. appends_solve.
Qed.

Lemma appends_handle_cli_req req :
  Forall (λ e, buf_ok (le_buf e)) (req_log_entries req) →
  appends (length (req_log_entries req)) (handle_cli_req (LS := LS) (SM := SM) req).
Proof.
  intros He. pose proof (appends_append_client_entries _ He). unfold handle_cli_req. appends_solve.
Qed.

(** ** Events at a leader *)

(** Entries a client request brings, each in a proper buffer, with room for
    them in the log. *)
Definition brings (e : event) : list log_entry :=
  match e with EvRequest req => req_log_entries req | _ => [] end.

(** A refused message leaves the log alone. *)
Lemma leader_refuses req (w : W) :
  role_ w = leader → catching_up_ w = false → req_term req ≤ current_term w →
  log_store_ (handle_append_entries req w).2 = log_store_ w ∧
  log_store_ (handle_install_snapshot_req req w).2 = log_store_ w.
Proof.
  intros Hr Hc Ht. unfold handle_append_entries, handle_install_snapshot_req.
  rewrite !bind_get, Hc. cbn [negb]. rewrite andb_true_r.
  destruct (Z.eqb_spec (req_term req) (current_term w)) as [E|Hne]; cbn [when].
  - unfold hear_from_leader. rewrite !bind_assoc, !bind_get, Hr. done.
  - rewrite !bind_ret, !bind_get, Hc. cbn [negb andb].
    rewrite (proj2 (Z.ltb_lt _ _)) by lia. split; [|done]. cbv zeta. cbn [orb]. by_frame.
Qed.

Lemma leader_dispatch req (w : W) :
  log_ok (log_store_ w) → role_ w = leader → catching_up_ w = false →
  (is_raft_rpc (req_type req) = true → req_term req ≤ current_term w) →
  Forall (λ e, buf_ok (le_buf e)) (req_log_entries req) →
  bounded w (length (req_log_entries req)) →
  extended (length (req_log_entries req)) w (dispatch req w).2.
Proof.
  intros Hok Hr Hc Ht He Hb. pose proof (leader_refuses req w Hr Hc) as Hrf.
  unfold dispatch, handle_extended_msg.
  destruct (req_type req) eqn:Ety; cbn [is_raft_rpc] in Ht;
    try solve [apply extended_same; [done|by_frame]];
    try solve [apply extended_same; [done|by apply Hrf, Ht]].
  - by apply appends_handle_cli_req.
  - apply extended_same; [done|]. unfold handle_log_sync_req. rewrite bind_get, Hc.
    destruct (req_log_entries req) as [|x []]; [done| |done]. cbn [negb].
    by destruct (bool_decide _).
Qed.

Lemma leader_process_req req (w : W) :
  log_ok (log_store_ w) → role_ w = leader → catching_up_ w = false →
  req_type req ≠ join_cluster_request → is_u64 (req_term req) →
  Forall (λ e, buf_ok (le_buf e)) (req_log_entries req) →
  bounded w (length (req_log_entries req)) → (∀ u, (process_req req w).1 ≠ Fault u) →
  role_ (process_req req w).2 = leader →
  extended (length (req_log_entries req)) w (process_req req w).2.
Proof.
  intros Hok Hr Hc Hj Ht He Hb Hf Hl.
  destruct (process_req_office req w Hj Ht Hf) as [_ Hterm]. rewrite process_req_dispatch in *.
  destruct (is_raft_rpc (req_type req)) eqn:Erpc; [|by apply leader_dispatch; auto; congruence].
  specialize (Hterm eq_refl Hl). clear Hl Hf.
  erewrite bind_step by by apply update_term_old. rewrite bind_assoc, bind_get.
  destruct (0 <? steps_to_down_ w); cbn [when]; [|rewrite bind_ret; by apply leader_dispatch].
  rewrite bind_modify. set (w1 := update steps_to_down_ _ w).
  exact (leader_dispatch req w1 Hok Hr Hc (λ _, Hterm) He Hb).
Qed.

(** The other events append a configuration at most. *)
Lemma appends_handle_peer_resp r : appends 1 (handle_peer_resp (LS := LS) (SM := SM) r).
Proof. unfold handle_peer_resp, handle_voting_resp. appends_solve. Qed.

Lemma appends_handle_ext_install_snapshot_resp r :
  appends 1 (handle_ext_install_snapshot_resp (LS := LS) (SM := SM) r).
Proof. unfold handle_ext_install_snapshot_resp. appends_solve. Qed.

Lemma appends_handle_ext_resp_err r : appends 1 (handle_ext_resp_err (LS := LS) (SM := SM) r).
Proof.
  unfold handle_ext_resp_err. destruct (_ || _); [|appends_solve].
  apply appends_after; [within_solve idtac|]. intros w. cbv zeta.
  destruct (find_peer _ w) as [p|]; [|appends_solve].
  destruct (max_hb_interval _ <=? _); [|appends_solve].
  destruct (bool_decide _); [|appends_solve].
  apply appends_after; [within_solve ignored|]. intros []. appends_solve.
Qed.
#[local] Hint Resolve appends_handle_ext_install_snapshot_resp appends_handle_ext_resp_err : appends.

Lemma appends_handle_ext_resp r : appends 1 (handle_ext_resp (LS := LS) (SM := SM) r).
Proof. unfold handle_ext_resp. appends_solve. Qed.
#[local] Hint Resolve appends_handle_peer_resp appends_handle_ext_resp : appends.

Lemma appends_handle_rpc_result obj req h r :
  appends 1 (handle_rpc_result (LS := LS) (SM := SM) obj req h r).
Proof. unfold handle_rpc_result. appends_solve. Qed.

Lemma appends_run_for_leader : appends 1 (run_for_leader (LS := LS) (SM := SM)).
Proof. unfold run_for_leader. appends_solve. Qed.

Lemma appends_handle_election_timeout : appends 1 (handle_election_timeout (LS := LS) (SM := SM)).
Proof.
  intros w Hok Hb. destruct (election_timeout_cases w) as [[_ ->]|[Hst _]].
  - exact (appends_run_for_leader (candidate_state w) Hok Hb).
  - apply extended_same; [done|]. unfold stands_for_election, handle_election_timeout in *.
    rewrite bind_get. destruct (0 <? steps_to_down_ w); [by_frame|].
    destruct (catching_up_ w); [by_frame|].
    destruct (bool_decide (role_ w = leader)); [by_frame|done].
Qed.
#[local] Hint Resolve appends_handle_election_timeout : appends.

Lemma appends_timer_expired uid b : appends 1 (timer_expired (LS := LS) (SM := SM) uid b).
Proof. unfold timer_expired, run_task. appends_solve. Qed.

(** C6: a leader only appends.  Whatever request, answer or timer a server
    that leads before and after it handles, the log it had is a prefix of the
    log it has. *)
Theorem leader_append_only (e : event) (w : W) :
  log_ok (log_store_ w) → role_ w = leader → catching_up_ w = false →
  e ≠ EvCommit → ordinary e → typed_event e →
  Forall (λ x, buf_ok (le_buf x)) (brings e) → bounded w (length (brings e) + 1) →
  (∀ u, (handle_event e w).1 ≠ Fault u) → role_ (handle_event e w).2 = leader →
  let w' := (handle_event e w).2 in
  log_ok (log_store_ w') ∧ start_index_ w' = start_index_ w ∧
  log_view w `prefix_of` log_view w'.
Proof.
  intros Hok Hr Hc Hne Ho Ht He Hb Hf Hl w'.
  enough (∃ n, extended n w w') as (n & Hok' & Hs & l & Hv & _)
    by (split_and!; [done..|by exists l]).
  subst w'. destruct e as [req|obj req h result|uid success| |now]; cbn [handle_event brings] in *.
  - exists (length (req_log_entries req)).
    pose proof (bind_no_fault _ _ _ Hf) as Hf'.
    destruct (bind_cases (process_req req) (λ _, mret tt) w) as [(a & _ & E)|[_ E]];
      rewrite E in *; (apply leader_process_req; try done; unfold bounded in *; lia).
  - exists 1%nat. by apply appends_handle_rpc_result.
  - exists 1%nat. by apply appends_timer_expired.
  - done.
  - exists 0%nat. by apply extended_same.
Qed.

(** ** Sending to the peers *)

Definition size_limits (w : W) : Prop :=
  0 ≤ max_append_size_ (params_ w) < 2 ^ 31 ∧ next_slot_ w + 2 ^ 31 < 2 ^ 64.

(** A request for the peer is under way, or one can be built: its next index
    is within the log, and the term before it is known. *)
Definition sendable (w : W) (p : peer) : Prop :=
  busy_flag_ p = true ∨
  (0 < next_log_idx_ p ∧ start_index_ w ≤ next_log_idx_ p ≤ next_slot_ w ∧
   known_term w (next_log_idx_ p - 1) ≠ None).

Definition all_sendable (w : W) : Prop := ∀ i p, peers_ w !! i = Some p → sendable w p.

(** What [sendable] looks at. *)
Definition sending_context (w : W) := (log_store_ w, state_machine_ w, params_ w).

Lemma sendable_context w w' p : sending_context w' = sending_context w → sendable w p → sendable w' p.
Proof.
  intros [= Hl Hm _]. unfold sendable, start_index_, next_slot_, known_term, start_index_.
  by rewrite Hl, Hm.
Qed.

Lemma request_append_to_ok i (w : W) :
  log_ok (log_store_ w) → size_limits w → all_sendable w → is_Some (peers_ w !! i) →
  ∃ b w', request_append_entries_to (PeerOf i) w = (Ok b, w') ∧ all_sendable w' ∧
    sending_context w' = sending_context w ∧ dom (peers_ w') = dom (peers_ w).
Proof.
  intros Hok [Hp1 Hp2] Hall [p Hp]. unfold request_append_entries_to, get_peer.
  rewrite bind_assoc, bind_gets. cbn [find_peer]. rewrite Hp, bind_ret. unfold make_busy.
  destruct (busy_flag_ p) eqn:Hbusy; [by eexists _, w|].
  cbn [set_peer]. rewrite bind_modify. set (w1 := update peers_ _ w).
  destruct (Hall i p Hp) as [?|(H0 & Hrng & Hk)]; [congruence|].
  destruct (known_term w (next_log_idx_ p - 1)) as [t|] eqn:Ht; [|done].
  assert (peers_ w1 !! i = Some (p <| busy_flag_ := true |>)) as Hp'
    by (unfold w1, update; cbn; apply lookup_insert_eq).
  destruct (create_append_entries_ok (PeerOf i) w1 (p <| busy_flag_ := true |>) t)
    as (req & Hreq & _); [done..|].
  rewrite (bind_step _ _ _ _ _ Hreq). unfold send_req, get_peer.
  rewrite !bind_assoc, bind_gets. cbn [find_peer]. rewrite Hp', bind_ret. unfold emit.
  rewrite bind_modify. eexists _, _. split; [reflexivity|]. split_and!; [|done|].
  - intros j q. change (peers_ w1 !! j = Some q → sendable w1 q). intros Hq.
    apply (sendable_context w); [done|]. unfold w1, update in Hq; cbn in Hq.
    apply lookup_insert_Some in Hq as [[_ <-]|[_ Hq]]; [by left|]. by apply (Hall j).
  - change (dom (peers_ w1) = dom (peers_ w)). unfold w1, update; cbn.
    rewrite dom_insert_L. apply elem_of_dom_2 in Hp. set_solver.
Qed.

Lemma request_append_all_ok ids (w : W) :
  log_ok (log_store_ w) → size_limits w → all_sendable w → Forall (λ i, i ∈ dom (peers_ w)) ids →
  ∃ w', for_each ids (λ i, request_append_entries_to (PeerOf i) ;; mret tt) w = (Ok tt, w') ∧
    sending_context w' = sending_context w.
Proof.
  revert w. induction ids as [|i ids IH]; intros w Hok Hlim Hall Hids; [by eexists|].
  inversion_clear Hids as [|? ? Hi Hids'].
  destruct (request_append_to_ok i w Hok Hlim Hall) as (b & w1 & Hw1 & Hall1 & Hc1 & Hd1);
    [by apply elem_of_dom|].
  pose proof Hc1 as [= Hl Hm Hps]. cbn [for_each].
  rewrite bind_assoc, (bind_step _ _ _ _ _ Hw1), bind_ret.
  destruct (IH w1) as (w' & Hw' & Hc'); [by rewrite Hl| |done|by rewrite Hd1|].
  { unfold size_limits, next_slot_ in *. by rewrite Hl, Hps. }
  exists w'. split; [done|]. congruence.
Qed.

Lemma request_append_entries_ok (w : W) :
  log_ok (log_store_ w) → size_limits w → all_sendable w →
  ∃ w', request_append_entries w = (Ok tt, w') ∧ sending_context w' = sending_context w.
Proof.
  intros Hok Hlim Hall. unfold request_append_entries. rewrite bind_get.
  destruct (bool_decide_reflect (peers_ w = ∅)) as [He|He].
  - set (i := u64 _). unfold commit. rewrite bind_get.
    assert (∀ f, for_each (W := W) (peer_ids (w <| quick_commit_idx_ := i |>)) f
      (w <| quick_commit_idx_ := i |>) = (Ok tt, w <| quick_commit_idx_ := i |>)) as Hnone.
    { intros f. unfold peer_ids. change (peers_ (w <| quick_commit_idx_ := i |>)) with (peers_ w).
      by rewrite He, map_to_list_empty. }
    destruct (quick_commit_idx_ w <? i); cbn [when].
    + rewrite bind_assoc, bind_modify. destruct (bool_decide (role_ w = leader)); cbn [when].
      * rewrite bind_assoc, bind_gets, (bind_step _ _ _ _ _ (Hnone _)), bind_get.
        destruct (_ && _); by eexists.
      * rewrite bind_ret, bind_get. destruct (_ && _); by eexists.
    + rewrite bind_ret, bind_get. destruct (_ && _); by eexists.
  - destruct (request_append_all_ok (peer_ids w) w) as (w' & Hw' & Hc); [done..| |by exists w'].
    apply Forall_forall. intros j Hj. by apply elem_of_peer_ids in Hj.
Qed.

(** ** Client requests *)

Context `{!state_machine_laws SM}.

(** The entry as the leader's log keeps it. *)
Definition stamp (term : Z) (e : log_entry) : log_entry := clone (e <| le_term := term |>).

Definition client_entry_ok (e : log_entry) : Prop := buf_ok (le_buf e) ∧ payload_ok (le_buf e).

Lemma append_client_entries_ok l (w : W) :
  log_ok (log_store_ w) → Forall client_entry_ok l → bounded w (length l) →
  ∃ w', append_client_entries l w = (Ok tt, w') ∧ log_ok (log_store_ w') ∧
    start_index_ w' = start_index_ w ∧ log_view w' = log_view w ++ (stamp (current_term w) <$> l) ∧
    same (λ w, (state_machine_ w, params_ w, peers_ w, role_ w)) w w'.
Proof.
  intros Hok Hl. revert w Hok. induction Hl as [|e l [Hb Hpay] Hl IH]; intros w Hok Hroom.
  { exists w. by rewrite app_nil_r. }
  unfold bounded in Hroom. cbn [length] in Hroom. cbn [append_client_entries]. rewrite bind_gets.
  destruct (append_spec (log_store_ w) (e <| le_term := current_term w |>)) as
    (s' & Ha & Hok' & Hst & Hv); [done|done|unfold next_slot_ in Hroom; lia|].
  cbv zeta. erewrite bind_step by by apply on_step. rewrite bind_gets. unfold emit. rewrite bind_modify.
  set (w1 := update out _ _).
  erewrite bind_step by (by apply on_step, sm_pre_commit_spec).
  set (w2 := update state_machine_ _ w1).
  assert (log_store_ w2 = s') as Hs2 by done.
  assert (same (λ w, (state_machine_ w, params_ w, peers_ w, role_ w, state_ w)) w w2) as Hsame2
    by done. clearbody w2. injection Hsame2 as Hm2 Hp2 Hpe2 Hr2 Ht2.
  destruct (IH w2) as (w' & Hw' & Hok2 & Hst2 & Hv2 & Hsame); [by rewrite Hs2| |].
  { unfold bounded, next_slot_ in *. rewrite Hs2, next_slot_spec, Hst, Hv by done.
    rewrite next_slot_spec in Hroom by done. rewrite length_app. cbn. lia. }
  exists w'. split_and!; [done..| | |].
  - rewrite Hst2. unfold start_index_. by rewrite Hs2.
  - rewrite Hv2. unfold log_view, current_term. by rewrite Hs2, Hv, Ht2, <-app_assoc.
  - unfold same in *. congruence.
Qed.

(** The leader does not think it has lost its quorum: there are no peers, the
    last measurement is within the bound, or a new one is. *)
Definition quorum_fresh (w : W) : Prop :=
  let bound := i32 (election_timeout_upper_bound_ (params_ w) * 2) in
  peers_ w = ∅ ∨ time_elapsed_since_quorum_resp w ≤ bound ∨ quorum_age w ≤ bound.

(** The check in front of [handle_cli_req]. *)
Definition leader_expired (w : W) : M W bool :=
  let bound := i32 (election_timeout_upper_bound_ (params_ w) * 2) in
  if bool_decide (role_ w = leader) && negb (bool_decide (peers_ w = ∅)) &&
     (bound <? time_elapsed_since_quorum_resp w)
  then
    time_elapsed_since_quorum_resp <~ quorum_age w ;;
    mret (bound <? quorum_age w)
  else mret false.

Lemma leader_not_expired (w : W) :
  quorum_fresh w → ∃ t, leader_expired w w = (Ok false, w <| time_elapsed_since_quorum_resp := t |>).
Proof.
  intros Hq. unfold leader_expired. destruct (_ && (_ <? time_elapsed_since_quorum_resp w)) eqn:E.
  - apply andb_true_iff in E as [[_ E1]%andb_true_iff E2%Z.ltb_lt].
    apply negb_true_iff, bool_decide_eq_false in E1.
    rewrite bind_modify, (proj2 (Z.ltb_ge _ (quorum_age w))); [by eexists|].
    destruct Hq as [?|[?|?]]; [done|lia|done].
  - exists (time_elapsed_since_quorum_resp w). by destruct w.
Qed.

(** C8: client requests.  A leader with a fresh quorum accepts: the entries
    are in its log, in order, behind what was there, stamped with its term;
    every peer is asked to append; the answer names the index after them.  A
    server that does not lead changes nothing and names the leader it knows. *)
Theorem client_request_appended (req : req_msg) (w : W) :
  log_ok (log_store_ w) → size_limits w → all_sendable w →
  Forall client_entry_ok (req_log_entries req) →
  next_slot_ w + Z.of_nat (length (req_log_entries req)) + 2 ^ 31 < 2 ^ 64 →
  (role_ w = leader → quorum_fresh w →
   ∃ resp w', handle_cli_req req w = (Ok resp, w') ∧ resp_accepted resp = true ∧
     resp_next_idx resp = next_slot_ w + Z.of_nat (length (req_log_entries req)) ∧
     log_ok (log_store_ w') ∧
     log_view w' = log_view w ++ (stamp (current_term w) <$> req_log_entries req)) ∧
  (role_ w ≠ leader →
   ∃ resp, handle_cli_req req w = (Ok resp, w) ∧ resp_accepted resp = false ∧
     resp_dst resp = leader_ w).
Proof.
  intros Hok [Hlim1 Hlim2] Hall He Hroom. split.
  - intros Hr Hq. unfold handle_cli_req. rewrite bind_get. fold (leader_expired w). cbv zeta.
    destruct (leader_not_expired w Hq) as [t Ht]. fold (leader_expired w).
    rewrite (bind_step _ _ _ _ _ Ht), (bool_decide_eq_true_2 _ Hr). cbn [negb].
    set (w0 := update time_elapsed_since_quorum_resp _ w).
    destruct (append_client_entries_ok (req_log_entries req) w0) as
      (w1 & Hw1 & Hok1 & Hst1 & Hv1 & [= Hm1 Hp1 Hpe1 Hr1]); [done|done| |].
    { unfold bounded. change (next_slot_ w0) with (next_slot_ w). lia. }
    change (start_index_ w1 = start_index_ w) in Hst1.
    change (log_view w1 = log_view w ++ (stamp (current_term w) <$> req_log_entries req)) in Hv1.
    change (state_machine_ w1 = state_machine_ w) in Hm1. change (params_ w1 = params_ w) in Hp1.
    change (peers_ w1 = peers_ w) in Hpe1.
    rewrite (bind_step _ _ _ _ _ Hw1).
    assert (next_slot_ w1 = next_slot_ w + Z.of_nat (length (req_log_entries req))) as Hn1.
    { unfold next_slot_, start_index_, log_view in *. rewrite !next_slot_spec by done.
      rewrite Hst1, Hv1, length_app, length_fmap. lia. }
    destruct (request_append_entries_ok w1) as (w2 & Hw2 & [= Hl2 _ _]); [done| | |].
    { split; [by rewrite Hp1|lia]. }
    { intros i p Hp. rewrite Hpe1 in Hp. destruct (Hall i p Hp) as [|(H0 & Hrng & Hk)]; [by left|right].
      split_and!; [done|lia..|]. revert Hk. unfold known_term. rewrite Hst1, Hm1.
      destruct (_ =? 0); [done|]. by destruct (_ <=? _). }
    rewrite (bind_step _ _ _ _ _ Hw2), bind_gets. eexists _, w2. split; [reflexivity|].
    unfold log_view, next_slot_ in *. cbn. rewrite Hl2. done.
  - intros Hr. unfold handle_cli_req. rewrite bind_get, (bool_decide_eq_false_2 _ Hr).
    cbn [andb negb]. rewrite bind_ret. by eexists.
Qed.
End leader_log.

#[local] Existing Instance zero_mem.

(** A client appends an entry at the leader of the sample cluster. *)
Definition say_hello : event := EvRequest (client_req client_request [hello]).

Lemma leader_append_only_witness :
  log_view server1_leader `prefix_of` log_view (handle_event say_hello server1_leader).2 ∧
  length (log_view (handle_event say_hello server1_leader).2) = 1%nat.
Proof.
  split; [|vm_compute; reflexivity].
  apply (leader_append_only say_hello server1_leader).
  - exists dummy_entry, [].
    replace (log_store_ server1_leader) with mem_new by (vm_compute; reflexivity).
    apply mem_new_holds.
  - vm_compute. reflexivity.
  - vm_compute. reflexivity.
  - discriminate.
  - discriminate.
  - split; vm_compute; congruence.
  - repeat constructor; vm_compute; reflexivity || congruence.
  - vm_compute. reflexivity.
  - intros u. vm_compute. congruence.
  - vm_compute. reflexivity.
Defined.

Lemma client_request_appended_witness :
  ∃ resp w', handle_cli_req (client_req client_request [hello]) server1_leader = (Ok resp, w') ∧
    resp_next_idx resp = 2.
Proof.
  destruct (client_request_appended (client_req client_request [hello]) server1_leader) as [Hc _].
  - exists dummy_entry, [].
    replace (log_store_ server1_leader) with mem_new by (vm_compute; reflexivity).
    apply mem_new_holds.
  - repeat split; vm_compute; congruence.
  - assert (map_Forall (λ _ p, busy_flag_ p = true) (peers_ server1_leader)) as Hb
      by (refine (bool_decide_unpack _ _); vm_compute; exact I).
    intros i p Hp. left. exact (Hb i p Hp).
  - repeat constructor; vm_compute; reflexivity || congruence.
  - vm_compute. reflexivity.
  - destruct Hc as (resp & w' & Hw & _ & Hn & _); [vm_compute; reflexivity| |].
    + right. right. vm_compute. congruence.
    + exists resp, w'. split; [exact Hw|]. rewrite Hn. vm_compute. reflexivity.
Defined.
