(* ===== verification/Leading.v ===== *)
(** * What a server sends as leader

    The append requests a server has sent, and code that runs while it leads:
    the log grows by entries of the current term, and every append request
    that goes out is a piece of the log, marked with the term and preceded by
    the term of the entry before it. *)

From S2P Require Import Prelude Buffer Config Messages LogStore StateMachine StateMgr Scheduler Peer Server Membership Requests Responses Samples Frames PeerSet Elections Cluster Replication.

Section leading.
Context `{FreshMem} {LS SM : Type} `{!log_store LS} `{!state_machine SM}.
#[local] Abbreviation W := (raft_server LS SM).

(** ** Requests of replication

    What was sent with [resp_handler_], vote requests apart. *)
Definition replication_req (e : effect) : option req_msg :=
  match e with
  | ESend _ req resp_handler =>
      if bool_decide (req_type req = request_vote_request) then None else Some req
  | _ => None
  end.
Definition sent_reqs (w : W) : list req_msg := omap replication_req (out w).

(** A relation that looks at [out] through [sent_reqs] only, and one that looks
    at what was sent with [resp_handler_] only, votes included. *)
Class Quiet (R : relation W) : Prop :=
  quiet_emit : ∀ e w, replication_req e = None → R w (w <| out ::= λ l, l ++ [e] |>).
Definition is_call (e : effect) : bool := match e with ESend _ _ resp_handler => true | _ => false end.
Class Calm (R : relation W) : Prop :=
  calm_emit : ∀ e w, is_call e = false → R w (w <| out ::= λ l, l ++ [e] |>).
#[global] Instance quiet_calm R : Quiet R → Calm R.
Proof. intros HR e w He. apply HR. by destruct e as [? ? []| | | | | | |]. Qed.

Lemma sent_reqs_other e (w : W) :
  replication_req e = None → sent_reqs (w <| out ::= λ l, l ++ [e] |>) = sent_reqs w.
Proof. intros He. unfold sent_reqs, update; cbn. rewrite omap_app. cbn. by rewrite He, app_nil_r. Qed.

(** What replication looks at, and the same with the office of the server. *)
Definition traffic (w : W) := (log_store_ w, sent_reqs w).
Definition office_traffic (w : W) := (traffic w, role_ w, state_ w, params_ w).

#[global] Instance quiet_traffic : Quiet (same traffic).
Proof. intros e w He. unfold same, traffic. by rewrite sent_reqs_other. Qed.
#[global] Instance quiet_office_traffic : Quiet (same office_traffic).
Proof. intros e w He. unfold same, office_traffic, traffic. by rewrite sent_reqs_other. Qed.

Section quiet_code.
Context (R : relation W) `{!PreOrder R} `{!Calm R}.

Lemma calm_emit_other e : is_call e = false → within R (emit e).
Proof. intros He w. by apply calm_emit. Qed.
#[local] Hint Extern 1 (within R (emit _)) => (apply calm_emit_other; reflexivity) : within.

Lemma quiet_fatal {A} c : within R (fatal (A := A) c).
Proof. unfold fatal, system_exit. within_solve fail. Qed.
#[local] Hint Resolve quiet_fatal : within.

Lemma quiet_term_for_log i : within R (term_for_log i).
Proof. unfold term_for_log. within_solve fail. Qed.
#[local] Hint Resolve quiet_term_for_log : within.

Lemma quiet_create_sync_snapshot_req `{!Ignores R peers_} `{!Ignores R srv_to_join_}
    `{!Ignores R state_machine_} r i t c : within R (create_sync_snapshot_req r i t c).
Proof. unfold create_sync_snapshot_req. within_solve fail. Qed.
#[local] Hint Resolve quiet_create_sync_snapshot_req : within.

Lemma quiet_create_append_entries_req `{!Ignores R peers_} `{!Ignores R srv_to_join_}
    `{!Ignores R state_machine_} r : within R (create_append_entries_req r).
Proof. unfold create_append_entries_req. within_solve fail. Qed.

Lemma quiet_new_peer `{!Ignores R next_obj} `{!Ignores R scheduler_} c : within R (new_peer c).
Proof. unfold new_peer. within_solve fail. Qed.
#[local] Hint Resolve quiet_new_peer : within.

Lemma quiet_add_server `{!Ignores R next_obj} `{!Ignores R scheduler_} `{!Ignores R srv_to_join_}
    `{!Ignores R peers_} s : within R (add_server s).
Proof. unfold add_server. within_solve ignored. Qed.
#[local] Hint Resolve quiet_add_server : within.

Lemma quiet_remove_servers `{!Ignores R scheduler_} `{!Ignores R peers_} `{!Ignores R state_mgr_}
    c l : within R (remove_servers c l).
Proof. induction l as [|i l IH]; cbn [remove_servers]; unfold system_exit; within_solve fail. Qed.
#[local] Hint Resolve quiet_remove_servers : within.

Lemma quiet_reconfigure `{!Ignores R next_obj} `{!Ignores R scheduler_} `{!Ignores R srv_to_join_}
    `{!Ignores R peers_} `{!Ignores R state_mgr_} `{!Ignores R config_} c :
  within R (reconfigure c).
Proof. unfold reconfigure. within_solve fail. Qed.
#[local] Hint Resolve quiet_reconfigure : within.

Lemma quiet_commit_config_entry `{!Ignores R next_obj} `{!Ignores R scheduler_}
    `{!Ignores R srv_to_join_} `{!Ignores R peers_} `{!Ignores R state_mgr_} `{!Ignores R config_}
    `{!Ignores R config_changing_} `{!Ignores R catching_up_} b :
  within R (commit_config_entry b).
Proof. unfold commit_config_entry. within_solve fail. Qed.

Lemma quiet_note_new_entry `{!Ignores R state_machine_} `{!Ignores R config_changing_} i e :
  within R (note_new_entry i e).
Proof. unfold note_new_entry. within_solve fail. Qed.

Lemma quiet_note_old_entry `{!Ignores R state_machine_} `{!Ignores R config_changing_} i e :
  within R (note_old_entry i e).
Proof. unfold note_old_entry. within_solve fail. Qed.
#[local] Hint Resolve quiet_note_new_entry quiet_note_old_entry : within.

Lemma quiet_log_okay_for req : within R (log_okay_for req).
Proof. unfold log_okay_for. within_solve fail. Qed.

Lemma quiet_hear_from_leader `{!Ignores R peers_} `{!Ignores R srv_to_join_} `{!Ignores R scheduler_}
    `{!Ignores R role_} `{!Ignores R draws} `{!Ignores R election_task_} :
  within R hear_from_leader.
Proof. unfold hear_from_leader. within_solve fail. Qed.

(** Requests sent with the other handler. *)
Lemma quiet_send_ext r req : within R (send_req r req ex_resp_handler).
Proof. unfold send_req. within_solve fail. Qed.
#[local] Hint Resolve quiet_send_ext : within.

Lemma quiet_handle_add_srv_req `{!Ignores R conf_to_add_} `{!Ignores R srv_to_join_}
    `{!Ignores R next_obj} `{!Ignores R scheduler_} req : within R (handle_add_srv_req req).
Proof. unfold handle_add_srv_req, invite_srv_to_join_cluster. within_solve fail. Qed.

Lemma quiet_handle_rm_srv_req req : within R (handle_rm_srv_req req).
Proof. unfold handle_rm_srv_req. within_solve fail. Qed.
End quiet_code.

Lemma quiet_emit_other R `{!Quiet R} e : replication_req e = None → within R (emit e).
Proof. intros He w. by apply quiet_emit. Qed.
#[local] Hint Extern 1 (within ?R (emit _)) => (apply (quiet_emit_other R); reflexivity) : within.
#[local] Hint Resolve quiet_fatal quiet_term_for_log quiet_create_sync_snapshot_req
  quiet_create_append_entries_req quiet_new_peer quiet_add_server quiet_remove_servers
  quiet_reconfigure quiet_commit_config_entry quiet_note_new_entry quiet_note_old_entry
  quiet_log_okay_for quiet_hear_from_leader quiet_send_ext quiet_handle_add_srv_req
  quiet_handle_rm_srv_req : within.

(** ** Code of a leader *)

Context `{!log_store_laws LS} `{!state_machine_laws SM}.

(** The request carries entries of the log [l] from behind [req_last_log_idx]
    on, and the term of the entry at that index. *)
Definition slice (req : req_msg) (l : list log_entry) : Prop :=
  ∃ prev, req_last_log_idx req = Z.of_nat prev ∧ (prev ≤ length l)%nat ∧
    (prev ≠ 0%nat → le_term <$> l !! pred prev = Some (req_last_log_term req)) ∧
    req_log_entries req `prefix_of` drop prev l.

Lemma slice_prefix req l l' : l `prefix_of` l' → slice req l → slice req l'.
Proof.
  intros [k ->] (prev & Hp & Hl & Ht & He). exists prev. rewrite length_app. split_and!; [done|lia| |].
  - intros Hn. rewrite lookup_app_l by lia. auto.
  - rewrite drop_app_le by lia. by apply prefix_app_r.
Qed.

Definition of_log (w : W) (req : req_msg) : Prop :=
  req_type req = append_entries_request ∧ req_term req = current_term w ∧ slice req (log_view w).

(** A leader whose log begins at index 1 and has room for [n] entries. *)
Record leading (n : nat) (w : W) : Prop := {
  ld_role : role_ w = leader;
  ld_ok : log_ok (log_store_ w);
  ld_start : start_index_ w = 1;
  ld_append : 0 ≤ max_append_size_ (params_ w) < 2 ^ 31;
  ld_room : next_slot_ w + Z.of_nat n + 2 ^ 31 < 2 ^ 64;
}.

(** An entry of the server's current term. *)
Definition own_entry (w : W) (e : log_entry) : Prop := le_term e = current_term w ∧ entry_fine e.

(** The log grew by at most [n] entries of the current term, and what was sent
    are pieces of it. *)
Record led (n : nat) (w w' : W) : Prop := {
  led_ok : log_ok (log_store_ w');
  led_start : start_index_ w' = start_index_ w;
  led_log : ∃ suffix, log_view w' = log_view w ++ suffix ∧ (length suffix ≤ n)%nat ∧
    Forall (own_entry w) suffix;
  led_sent : ∃ reqs, sent_reqs w' = sent_reqs w ++ reqs ∧ Forall (of_log w') reqs;
  led_office : (role_ w', state_ w', params_ w') = (role_ w, state_ w, params_ w);
}.

Definition leads {A} (n : nat) (m : M W A) : Prop := ∀ w, leading n w → led n w (m w).2.

Lemma of_log_grows w w' req :
  current_term w' = current_term w → log_view w `prefix_of` log_view w' → of_log w req → of_log w' req.
Proof. intros Ht Hl (Hty & Htm & Hs). split_and!; [done|congruence|by eapply slice_prefix]. Qed.

Lemma led_trans n k w1 w2 w3 : led n w1 w2 → led k w2 w3 → led (n + k) w1 w3.
Proof.
  intros [Hok1 Hst1 (l1 & Hv1 & Hn1 & Hf1) (r1 & Hs1 & Hg1) Ho1]
    [Hok2 Hst2 (l2 & Hv2 & Hn2 & Hf2) (r2 & Hs2 & Hg2) Ho2].
  assert (state_ w2 = state_ w1 ∧ state_ w3 = state_ w2) as [Ht1 Ht2] by (split; congruence).
  split; [done|congruence| | |congruence].
  - exists (l1 ++ l2). rewrite Hv2, Hv1, app_assoc, length_app. split_and!; [done|lia|].
    apply Forall_app. split; [done|]. eapply Forall_impl; [exact Hf2|].
    intros e [He ?]. split; [|done]. unfold current_term in *. congruence.
  - exists (r1 ++ r2). rewrite Hs2, Hs1, app_assoc. split; [done|]. apply Forall_app. split; [|done].
    eapply Forall_impl; [exact Hg1|]. intros req. apply of_log_grows; [|by exists l2].
    unfold current_term. congruence.
Qed.

Lemma led_leading n k w w' : leading (n + k) w → led n w w' → leading k w'.
Proof.
  intros [Hr Hok Hst Ha Hrm] [Hok' Hst' (l & Hv & Hn & _) _ [= Hr' _ Hp]].
  split; [congruence|done|congruence|by rewrite Hp|]. unfold next_slot_, start_index_, log_view in *.
  rewrite next_slot_spec in * by done. rewrite Hst', Hv, length_app. lia.
Qed.

Lemma led_weaken n k w w' : (n ≤ k)%nat → led n w w' → led k w w'.
Proof.
  intros Hnk [Hok Hst (l & Hv & Hn & Hf) Hs Ho]. split; [done..| |done|done].
  exists l. split_and!; [done|lia|done].
Qed.

Lemma leading_weaken n k w : (n ≤ k)%nat → leading k w → leading n w.
Proof. intros Hnk [Hr Hok Hst Ha Hrm]. split; [done..|lia]. Qed.

Lemma led_same n w w' : log_ok (log_store_ w) → same office_traffic w w' → led n w w'.
Proof.
  intros Hok [= Hl Hs Hr Ht Hp]. split; unfold start_index_, log_view; rewrite ?Hl; [done|done| | |congruence].
  - exists []. rewrite app_nil_r. split_and!; [done|cbn; lia|constructor].
  - exists []. by rewrite app_nil_r.
Qed.

Lemma leads_bind {A B} n k (m : M W A) (f : A → M W B) :
  leads n m → (∀ a, leads k (f a)) → leads (n + k) (m ≫= f).
Proof.
  intros Hm Hf w Hw. assert (led n w (m w).2) as Hl.
  { apply Hm. eapply leading_weaken; [|done]. lia. }
  destruct (bind_cases m f w) as [(a & _ & ->)|[_ ->]].
  - eapply led_trans; [done|]. apply Hf. by eapply led_leading.
  - eapply led_weaken; [|done]. lia.
Qed.

Lemma leads_frame {A} n (m : M W A) : within (same office_traffic) m → leads n m.
Proof. intros Hm w Hw. apply led_same; [apply Hw|apply Hm]. Qed.

Lemma leads_after {A B} n (m : M W A) (f : A → M W B) :
  within (same office_traffic) m → (∀ a, leads n (f a)) → leads n (m ≫= f).
Proof. intros Hm Hf. by apply (leads_bind 0 n); [apply leads_frame|]. Qed.

Lemma leads_before {A B} n (m : M W A) (f : A → M W B) :
  leads n m → (∀ a, leads 0 (f a)) → leads n (m ≫= f).
Proof. intros Hm Hf. replace n with (n + 0)%nat by lia. by apply leads_bind. Qed.

Lemma leads_when n b (m : M W unit) : leads n m → leads n (when b m).
Proof. destruct b; [done|]. intros _. apply leads_frame. intros w. reflexivity. Qed.

Lemma leads_for_each {A} (l : list A) (f : A → M W unit) :
  (∀ x, leads 0 (f x)) → leads 0 (for_each l f).
Proof.
  intros Hf. induction l as [|x l IH]; [apply leads_frame; intros w; reflexivity|].
  by apply (leads_bind 0 0).
Qed.

Lemma leads_weaken {A} n k (m : M W A) : (n ≤ k)%nat → leads n m → leads k m.
Proof. intros Hnk Hm w Hw. eapply led_weaken; [done|]. apply Hm. by eapply leading_weaken. Qed.

Lemma leads_lift {A B} n (o : outcome A) (f : A → M W B) :
  (∀ a, o = Ok a → leads n (f a)) → leads n (lift o ≫= f).
Proof.
  intros Hf w Hw. unfold mbind, M_bind, lift.
  destruct o as [a|e|u]; [by apply Hf|apply led_same; [apply Hw|done]..].
Qed.

(** ** Append requests *)

Lemma fatal_not_ok {A} c (w : W) (a : A) w' : fatal c w ≠ (Ok a, w').
Proof. done. Qed.

Lemma get_peer_inv r (w : W) p w' : get_peer r w = (Ok p, w') → w' = w.
Proof. unfold get_peer. rewrite bind_gets. by destruct (find_peer r w); intros [= _ <-]. Qed.

(** The term in front of the entries, for a log that begins at index 1. *)
Lemma term_before (w : W) i :
  log_ok (log_store_ w) → start_index_ w = 1 → 0 ≤ i < next_slot_ w →
  ∃ t, term_for_log i w = (Ok t, w) ∧ (Z.to_nat i ≤ length (log_view w))%nat ∧
    (Z.to_nat i ≠ 0%nat → le_term <$> log_view w !! pred (Z.to_nat i) = Some t).
Proof.
  intros Hok Hst Hi. pose proof (next_slot_spec _ Hok) as Hn. unfold next_slot_, start_index_, log_view in *.
  rewrite term_for_log_spec by (done || lia). unfold known_term, start_index_. rewrite Hst in *.
  destruct (Z.eqb_spec i 0) as [->|Hne]; [exists 0; split_and!; [done|cbn; lia|done]|].
  rewrite (proj2 (Z.leb_le 1 i)) by lia. eexists. split; [done|]. split; [lia|]. intros _.
  unfold term_view, entry_view. rewrite Hst, (proj2 (Z.ltb_ge i 1)) by lia.
  replace (Z.to_nat (i - 1)) with (pred (Z.to_nat i)) by lia.
  destruct (lookup_lt_is_Some_2 (view (log_store_ w)) (pred (Z.to_nat i))) as [e ->]; [lia|done].
Qed.

(** The entries behind it. *)
Lemma entries_behind (w : W) i :
  log_ok (log_store_ w) → start_index_ w = 1 → 0 ≤ i < next_slot_ w →
  0 ≤ max_append_size_ (params_ w) < 2 ^ 31 → next_slot_ w + 2 ^ 31 < 2 ^ 64 →
  ∃ l, (if next_slot_ w <=? u64 (i + 1) then mret []
        else lift (log_entries (u64 (i + 1))
          (Z.min (next_slot_ w) (u64 (i + 1 + max_append_size_ (params_ w)))) (log_store_ w))) w =
       (Ok l, w) ∧ l `prefix_of` drop (Z.to_nat i) (log_view w).
Proof.
  intros Hok Hst Hi Hm Hrm. pose proof (next_slot_spec _ Hok) as Hn.
  unfold next_slot_, start_index_, log_view in *. rewrite !u64_small by (unfold is_u64; lia).
  destruct (Z.leb_spec (next_slot (log_store_ w)) (i + 1)); [exists []; split; [done|apply prefix_nil]|].
  rewrite log_entries_spec by (done || lia). eexists. split; [done|]. rewrite Hst.
  replace (i + 1 - 1) with i by lia. apply prefix_take.
Qed.

Lemma create_append_of_log r (w w' : W) req :
  leading 0 w → create_append_entries_req r w = (Ok req, w') → of_log w' req.
Proof.
  intros Hld Hc.
  assert (same office_traffic w w') as [= Hl _ _ Hs _]
    by (eapply within_elim; [|exact Hc]; within_solve ignored).
  destruct Hld as [_ Hok Hst Ha Hrm]. unfold create_append_entries_req in Hc. rewrite bind_get in Hc.
  apply bind_inv_ok in Hc as (p & w1 & ->%get_peer_inv & Hc).
  apply bind_inv_ok in Hc as ([] & w2 & Hu & Hc).
  assert (same office_traffic w w2) as [= Hl2 _ _ Hs2 Hp2]
    by (eapply within_elim; [|exact Hu]; within_solve ignored).
  apply bind_inv_ok in Hc as (q & w3 & ->%get_peer_inv & Hc). cbv zeta in Hc.
  pose proof (u64_range (next_log_idx_ q - 1)) as [Hi0 _]. set (i := u64 (next_log_idx_ q - 1)) in *.
  destruct (Z.leb_spec (next_slot_ w) i) as [|Hi]; [by apply fatal_not_ok in Hc|].
  rewrite Hst, andb_false_intro2 in Hc by (change (u64 (1 - 1)) with 0; by apply Z.ltb_ge).
  unfold next_slot_, start_index_ in *. rewrite <-Hl2 in *. rewrite <-Hp2 in *.
  destruct (term_before w2 i) as (t & Ht & Hlen & Hterm); [done..|]. rewrite (bind_step _ _ _ _ _ Ht) in Hc.
  destruct (entries_behind w2 i) as (es & Hes & Hpre); [done..|unfold next_slot_; lia|]. unfold next_slot_ in Hes.
  rewrite (bind_step _ _ _ _ _ Hes) in Hc. injection Hc as <- <-.
  split_and!; [done|cbn; unfold current_term; congruence|]. exists (Z.to_nat i).
  unfold log_view in *. split_and!; [cbn; lia|done..].
Qed.

Lemma leads_request_append_entries_to r : leads 0 (request_append_entries_to (LS := LS) (SM := SM) r).
Proof.
  intros w Hld. unfold request_append_entries_to. pose proof (ld_ok _ _ Hld) as Hok.
  unfold get_peer. rewrite bind_assoc, bind_gets. destruct (find_peer r w) as [p|]; [|by apply led_same].
  rewrite bind_ret. destruct (make_busy p) as [[] p']; [|by apply led_same].
  assert (∃ w1, set_peer r p' w = (Ok tt, w1)) as [w1 Hw1] by (destruct r; by eexists).
  assert (same office_traffic w w1) as H1 by (eapply within_elim; [|exact Hw1]; within_solve ignored).
  rewrite (bind_step _ _ _ _ _ Hw1). assert (leading 0 w1) as Hld1
    by (apply (led_leading 0 0 w); [done|by apply led_same]).
  apply (led_trans 0 0 w w1); [by apply led_same|]. pose proof (ld_ok _ _ Hld1) as Hok1.
  assert (same office_traffic w1 (create_append_entries_req r w1).2) as H2 by by_frame.
  destruct (create_append_entries_req r w1) as [[req|x|u] w2] eqn:Ec;
    [|erewrite bind_throw by exact Ec; by apply led_same|erewrite bind_fault by exact Ec; by apply led_same].
  rewrite (bind_step _ _ _ _ _ Ec). cbn [snd] in H2.
  pose proof (create_append_of_log _ _ _ _ Hld1 Ec) as Hof.
  apply (led_trans 0 0 w1 w2); [by apply led_same|].
  assert (log_ok (log_store_ w2)) as Hok2 by (injection H2 as Hl _ _ _ _; congruence).
  unfold send_req, get_peer. rewrite !bind_assoc, bind_gets.
  destruct (find_peer r w2) as [q|]; [|by apply led_same]. rewrite bind_ret. unfold emit. rewrite bind_modify.
  split; [done|done| | |done].
  - exists []. rewrite app_nil_r. split_and!; [done|cbn; lia|constructor].
  - exists [req]. split; [|by apply Forall_singleton]. destruct Hof as [Hty _].
    unfold sent_reqs, update; cbn. rewrite omap_app. cbn. by rewrite Hty.
Qed.

Create HintDb leads.
#[local] Hint Resolve leads_request_append_entries_to : leads.

(** Walk through the code of a leader. *)
Ltac leads_step := lazymatch goal with
  | |- leads _ (when _ _) => apply leads_when
  | |- leads 0 (for_each _ _) => apply leads_for_each; intros ?
  | |- leads _ (match ?x with _ => _ end) => destruct x
  | |- leads _ (let _ := _ in _) => cbv zeta
  | |- leads _ (_ ≫= _) =>
      first [ apply leads_after; [solve [within_solve ignored]|intros ?]
            | apply leads_before; [solve [eauto with leads nocore]|intros ?]
            | apply leads_before; [|intros ?] ]
  | |- leads _ _ => first [ apply leads_frame; solve [within_solve ignored]
                          | solve [eauto with leads nocore]
                          | apply (leads_weaken 0); [lia|solve [eauto with leads nocore]] ]
  end.
Ltac leads_solve := repeat leads_step.

Lemma leads_commit i : leads 0 (commit (LS := LS) (SM := SM) i).
Proof. unfold commit. leads_solve. Qed.
#[local] Hint Resolve leads_commit : leads.

Lemma leads_request_append_entries : leads 0 (request_append_entries (LS := LS) (SM := SM)).
Proof. unfold request_append_entries. leads_solve. Qed.
#[local] Hint Resolve leads_request_append_entries : leads.

(** Appending an entry of the current term. *)
Lemma led_append e (w : W) :
  leading 1 w → own_entry w (clone e) → buf_ok (le_buf e) → led 1 w (on log_store_ (append e) w).2.
Proof.
  intros [Hr Hok Hst Ha Hrm] He Hb.
  destruct (append_spec (log_store_ w) e) as (s' & Happ & Hok' & Hst' & Hv);
    [done|done|unfold next_slot_ in Hrm; lia|].
  erewrite on_step by done. split; [done|done| | |done].
  - exists [clone e]. split_and!; [done|done|by apply Forall_singleton].
  - exists []. by rewrite app_nil_r.
Qed.

Lemma leads_append_config c : leads 1 (append_config (LS := LS) (SM := SM) c).
Proof.
  intros w Hw. unfold append_config. rewrite bind_gets.
  destruct (cluster_config_serialize c) as [b|x|u] eqn:E; [|by apply led_same; [apply Hw|]..].
  pose proof (cluster_config_serialize_ok c b E) as Hb. rewrite bind_lift.
  set (e := mk_log_entry _ _ _).
  assert (led 1 w (on log_store_ (append e) w).2) as Hl.
  { apply led_append; [done| |done]. split; [done|]. split; [|done].
    by apply (stored_clone e). }
  match goal with |- context [(?m ≫= ?k) w] => by destruct (bind_cases m k w) as [(a & _ & ->)|[_ ->]] end.
Qed.
#[local] Hint Resolve leads_append_config : leads.

(** Entries a client brings: rewound, of a size and a content the server can
    handle. *)
Definition client_entry (e : log_entry) : Prop := stored e ∧ payload_ok (le_buf e).

Lemma leads_append_client_entries l :
  Forall client_entry l → leads (length l) (append_client_entries (LS := LS) (SM := SM) l).
Proof.
  induction 1 as [|e l [He Hp] Hl IH]; cbn [append_client_entries length].
  { apply leads_frame. within_solve fail. }
  intros w Hw. rewrite bind_gets. set (e' := e <| le_term := current_term w |>).
  revert w e' Hw. enough (∀ w, leading (1 + length l) w → ∀ e', clone e' = e' → own_entry w e' →
    buf_ok (le_buf e') → led (1 + length l) w
      ((on log_store_ (append e') ;; nxt ← gets next_slot_; let idx := u64 (nxt - 1) in
        emit (EPreCommit idx (le_buf e')) ;; on state_machine_ (sm_pre_commit idx (le_buf e')) ;;
        append_client_entries l) w).2) as Hgo.
  { intros w e' Hw. apply Hgo; [done| | |apply He].
    - apply clone_stored. exact He.
    - split; [done|]. split; [apply He|by intros _]. }
  intros w Hw e' Hcl Ho Hb. assert (led 1 w (on log_store_ (append e') w).2) as Hl1.
  { apply led_append; [|by rewrite Hcl|done]. eapply leading_weaken; [|done]. lia. }
  match goal with |- context [(?m ≫= ?k) w] =>
    assert (∀ a, leads (length l) (k a)) as Hk by (intros a; leads_solve);
    destruct (bind_cases m k w) as [(a & _ & ->)|[_ ->]] end.
  - exact (led_trans 1 (length l) _ _ _ Hl1 (Hk a _ (led_leading 1 (length l) _ _ Hw Hl1))).
  - eapply led_weaken; [|done]. lia.
Qed.

Lemma leads_handle_cli_req req :
  Forall client_entry (req_log_entries req) →
  leads (length (req_log_entries req)) (handle_cli_req (LS := LS) (SM := SM) req).
Proof.
  intros He. pose proof (leads_append_client_entries _ He). unfold handle_cli_req. leads_solve.
Qed.

Lemma leads_handle_append_entries_resp r :
  leads 0 (handle_append_entries_resp (LS := LS) (SM := SM) r).
Proof. unfold handle_append_entries_resp. leads_solve. Qed.

Lemma leads_handle_install_snapshot_resp r :
  leads 0 (handle_install_snapshot_resp (LS := LS) (SM := SM) r).
Proof. unfold handle_install_snapshot_resp. leads_solve. Qed.

Lemma leads_handle_hb_timeout r : leads 0 (handle_hb_timeout (LS := LS) (SM := SM) r).
Proof. unfold handle_hb_timeout. leads_solve. Qed.

(** ** Code of any server *)

(** A server that does not lead: its log stays and it sends no entries. *)
Definition bystander : relation W := λ w w',
  role_ w ≠ leader → role_ w' ≠ leader ∧ traffic w' = traffic w.
#[global] Instance bystander_preorder : PreOrder bystander.
Proof.
  split; unfold bystander; [by intros w|]. intros w1 w2 w3 H12 H23 Hr.
  destruct (H12 Hr) as [Hr2 Ht2]. destruct (H23 Hr2) as [Hr3 Ht3]. split; congruence.
Qed.
#[global] Instance bystander_quiet : Quiet bystander.
Proof. intros e w He Hr. split; [done|]. unfold traffic. by rewrite sent_reqs_other. Qed.

Lemma bystander_commit i : within bystander (commit (LS := LS) (SM := SM) i).
Proof.
  intros w Hr. split; [assert (role_ (commit i w).2 = role_ w) as -> by by_frame; done|].
  unfold commit. rewrite bind_get, (bool_decide_eq_false_2 _ Hr). cbn [when]. by_frame.
Qed.
#[local] Hint Resolve bystander_commit : within.

(** Code behind [role_ == leader]. *)
Lemma bystander_guard b (m : M W unit) :
  within bystander (w ← gets id; when (bool_decide (role_ w = leader) && b) m).
Proof. intros w Hr. rewrite bind_get, (bool_decide_eq_false_2 _ Hr). by split. Qed.

Lemma bystander_handle_append_entries_resp r :
  within bystander (handle_append_entries_resp (LS := LS) (SM := SM) r).
Proof.
  unfold handle_append_entries_resp. apply within_bind; [typeclasses eauto|within_solve fail|intros w].
  destruct (peers_ w !! _); [|within_solve fail].
  apply within_bind; [typeclasses eauto|within_solve fail|]. intros b. apply bystander_guard.
Qed.

Lemma bystander_handle_install_snapshot_resp r :
  within bystander (handle_install_snapshot_resp (LS := LS) (SM := SM) r).
Proof.
  intros w Hr. unfold handle_install_snapshot_resp. rewrite bind_get, (bool_decide_eq_false_2 _ Hr).
  cbn [andb when]. lazymatch goal with |- role_ (?m w).2 ≠ _ ∧ _ => cut (within bystander m) end;
    [intros Hm; by apply Hm|within_solve fail].
Qed.

Lemma bystander_handle_hb_timeout r : within bystander (handle_hb_timeout (LS := LS) (SM := SM) r).
Proof. intros w Hr. unfold handle_hb_timeout. by rewrite bind_get, (bool_decide_eq_false_2 _ Hr). Qed.

Lemma bystander_handle_cli_req req : within bystander (handle_cli_req (LS := LS) (SM := SM) req).
Proof. intros w Hr. unfold handle_cli_req. by rewrite bind_get, (bool_decide_eq_false_2 _ Hr). Qed.

(** [leading] but for the role. *)
Definition roomy (n : nat) (w : W) : Prop := leading n (w <| role_ := leader |>).

Lemma roomy_leading n w : roomy n w → role_ w = leader → leading n w.
Proof. intros [_ Hok Hst Ha Hrm] Hr. by split. Qed.
Lemma leading_roomy n w : leading n w → roomy n w.
Proof. intros [_ Hok Hst Ha Hrm]. by split. Qed.

Definition still (w : W) := (traffic w, params_ w).
#[global] Instance quiet_still : Quiet (same still).
Proof. intros e w He. unfold same, still, traffic. by rewrite sent_reqs_other. Qed.

Lemma roomy_still n w w' : same still w w' → roomy n w → roomy n w'.
Proof.
  intros [= Hl _ Hp] [_ Hok Hst Ha Hrm]. split; [done|..];
    unfold start_index_, next_slot_, update in *; cbn in *; by rewrite ?Hl, ?Hp.
Qed.

(** What a step may do to the log of a server, and send: nothing, or what a
    leader does, from a state of the same log on. *)
Definition reacts (n : nat) (w w' : W) : Prop :=
  traffic w' = traffic w ∨ ∃ w1, traffic w1 = traffic w ∧ leading n w1 ∧ led n w1 w'.
Definition reacting {A} (n : nat) (m : M W A) : Prop := ∀ w, roomy n w → reacts n w (m w).2.

Lemma reacting_frame {A} n (m : M W A) : within (same traffic) m → reacting n m.
Proof. intros Hm w _. left. apply Hm. Qed.

Lemma reacting_after {A B} n (m : M W A) (f : A → M W B) :
  within (same still) m → (∀ a, reacting n (f a)) → reacting n (m ≫= f).
Proof.
  intros Hm Hf w Hw. specialize (Hm w). assert (traffic (m w).2 = traffic w) as Ht by (unfold same, still in Hm; congruence).
  destruct (bind_cases m f w) as [(a & _ & ->)|[_ ->]]; [|by left].
  destruct (Hf a _ (roomy_still _ _ _ Hm Hw)) as [Hq|(w1 & Hw1 & Hld & Hl)].
  - left. by rewrite Hq.
  - right. exists w1. split; [by rewrite Hw1|done].
Qed.

Lemma reacting_then {A B} n (m : M W A) (f : A → M W B) :
  reacting n m → (∀ a, within (same office_traffic) (f a)) → reacting n (m ≫= f).
Proof.
  intros Hm Hf w Hw. pose proof (Hm w Hw) as Hr.
  destruct (bind_cases m f w) as [(a & _ & ->)|[_ ->]]; [|done].
  specialize (Hf a (m w).2). destruct Hr as [Hq|(w1 & Hw1 & Hld & Hl)].
  - left. injection Hf as Hl Hs _ _ _. unfold traffic in *. congruence.
  - right. exists w1. split; [done|]. split; [done|]. replace n with (n + 0)%nat by lia.
    eapply led_trans; [done|]. apply led_same; [apply Hl|done].
Qed.

Lemma reacting_when n b (m : M W unit) : reacting n m → reacting n (when b m).
Proof. destruct b; [done|]. intros _ w _. by left. Qed.

Lemma reacting_split {A} n (m : M W A) : within bystander m → leads n m → reacting n m.
Proof.
  intros Hb Hl w Hw. destruct (decide (role_ w = leader)) as [Hr|Hr].
  - right. exists w. pose proof (roomy_leading _ _ Hw Hr) as Hld. split; [done|]. split; [done|]. by apply Hl.
  - left. by apply Hb.
Qed.

Lemma reacts_weaken n k w w' :
  (n ≤ k)%nat → roomy k w → reacts n w w' → reacts k w w'.
Proof.
  intros Hnk Hrm [Hq|(w1 & Hw1 & Hld & Hl)]; [by left|]. right. exists w1. split; [done|].
  split; [|by eapply led_weaken]. destruct Hld as [Hr Hok Hst Ha _], Hrm as [_ _ _ _ Hrm].
  split; [done..|]. injection Hw1 as Hls _. unfold next_slot_, update in *. cbn in Hrm. congruence.
Qed.

(** ** The events of a server *)

Lemma reacting_become_leader : reacting 1 (become_leader (LS := LS) (SM := SM)).
Proof.
  unfold become_leader. apply reacting_after; [within_solve fail|]. intros _ w Hw. rewrite bind_modify.
  right. exists (w <| role_ := leader |>). split; [done|]. split; [done|].
  match goal with |- led 1 ?w1 (?m ?w1).2 => cut (leads 1 m); [intros Hm; by apply Hm|] end.
  leads_solve.
Qed.

Create HintDb reacts.
#[local] Hint Resolve reacting_become_leader : reacts.

Ltac reacts_step := lazymatch goal with
  | |- reacting _ (when _ _) => apply reacting_when
  | |- reacting _ (match ?x with _ => _ end) => destruct x
  | |- reacting _ (let _ := _ in _) => cbv zeta
  | |- reacting _ (_ ≫= _) =>
      first [ apply reacting_after; [solve [within_solve ignored]|intros ?]
            | apply reacting_then; [|intros ?; solve [within_solve ignored]] ]
  | |- reacting _ _ => first [ solve [eauto with reacts nocore]
                             | apply reacting_frame; solve [within_solve ignored] ]
  end.
Ltac reacts_solve := repeat reacts_step.

Lemma reacting_weaken {A} n (m : M W A) : reacting 0 m → reacting n m.
Proof.
  intros Hm w Hw. apply (reacts_weaken 0); [lia|done|]. apply Hm.
  destruct Hw as [Hr Hok Hst Ha Hrm]. split; [done..|lia].
Qed.

Lemma reacting_handle_voting_resp r : reacting 1 (handle_voting_resp (LS := LS) (SM := SM) r).
Proof. unfold handle_voting_resp. reacts_solve. Qed.

Lemma reacting_handle_append_entries_resp r :
  reacting 1 (handle_append_entries_resp (LS := LS) (SM := SM) r).
Proof.
  apply reacting_weaken, reacting_split;
    [apply bystander_handle_append_entries_resp|apply leads_handle_append_entries_resp].
Qed.

Lemma reacting_handle_install_snapshot_resp r :
  reacting 1 (handle_install_snapshot_resp (LS := LS) (SM := SM) r).
Proof.
  apply reacting_weaken, reacting_split;
    [apply bystander_handle_install_snapshot_resp|apply leads_handle_install_snapshot_resp].
Qed.
#[local] Hint Resolve reacting_handle_voting_resp reacting_handle_append_entries_resp
  reacting_handle_install_snapshot_resp : reacts.

Lemma reacting_handle_peer_resp r : reacting 1 (handle_peer_resp (LS := LS) (SM := SM) r).
Proof. unfold handle_peer_resp. reacts_solve. Qed.
#[local] Hint Resolve reacting_handle_peer_resp : reacts.

Lemma reacting_handle_rpc_result obj req r :
  reacting 1 (handle_rpc_result (LS := LS) (SM := SM) obj req resp_handler r).
Proof. unfold handle_rpc_result. reacts_solve. Qed.

Lemma reacting_request_vote : reacting 1 (request_vote (LS := LS) (SM := SM)).
Proof. unfold request_vote, send_req. reacts_solve. Qed.
#[local] Hint Resolve reacting_request_vote : reacts.

Lemma reacting_run_for_leader : reacting 1 (run_for_leader (LS := LS) (SM := SM)).
Proof.
  unfold run_for_leader. apply reacting_after; [within_solve fail|]. intros _.
  apply reacting_then; [apply reacting_request_vote|]. intros _. within_solve fail.
Qed.

Lemma reacting_handle_election_timeout :
  reacting 1 (handle_election_timeout (LS := LS) (SM := SM)).
Proof.
  intros w Hw. destruct (election_timeout_cases w) as [[_ ->]|[Hst _]].
  - apply (reacting_run_for_leader (candidate_state w)). by apply (roomy_still 1 w).
  - left. unfold stands_for_election, handle_election_timeout in *. rewrite bind_get.
    destruct (0 <? steps_to_down_ w); [by_frame|]. destruct (catching_up_ w); [by_frame|].
    destruct (bool_decide (role_ w = leader)); [by_frame|done].
Qed.

Lemma reacting_handle_hb_timeout r : reacting 1 (handle_hb_timeout (LS := LS) (SM := SM) r).
Proof.
  apply reacting_weaken, reacting_split; [apply bystander_handle_hb_timeout|apply leads_handle_hb_timeout].
Qed.
#[local] Hint Resolve reacting_handle_election_timeout reacting_handle_hb_timeout : reacts.

Lemma reacting_timer_expired uid b : reacting 1 (timer_expired (LS := LS) (SM := SM) uid b).
Proof. unfold timer_expired, run_task, on_retryable_req_err. reacts_solve. Qed.

(** Without snapshots the commit thread leaves the log alone. *)
Definition no_snapshots : relation W := λ w w',
  snapshot_distance_ (params_ w) = 0 → params_ w' = params_ w ∧ traffic w' = traffic w.
#[global] Instance no_snapshots_preorder : PreOrder no_snapshots.
Proof.
  split; unfold no_snapshots; [by intros w|]. intros w1 w2 w3 H12 H23 Hr.
  destruct (H12 Hr) as [Hp2 Ht2]. destruct H23 as [Hp3 Ht3]; [congruence|]. split; congruence.
Qed.
#[global] Instance no_snapshots_quiet : Quiet no_snapshots.
Proof. intros e w He Hr. split; [done|]. unfold traffic. by rewrite sent_reqs_other. Qed.

Lemma no_snapshots_compact i : within no_snapshots (snapshot_and_compact (LS := LS) (SM := SM) i).
Proof. intros w Hd. unfold snapshot_and_compact. by rewrite bind_get, Hd. Qed.
#[local] Hint Resolve no_snapshots_compact : within.

Lemma commit_event_traffic (w : W) :
  snapshot_distance_ (params_ w) = 0 → traffic (handle_event EvCommit w).2 = traffic w.
Proof.
  intros Hd. assert (within no_snapshots (handle_event (LS := LS) (SM := SM) EvCommit)) as Hw.
  { cbn [handle_event]. unfold commit_one. within_solve fail. }
  by apply Hw.
Qed.

(** Requests other than those that carry entries. *)
Lemma reacting_dispatch req (w : W) :
  req_type req ≠ append_entries_request → req_type req ≠ install_snapshot_request →
  req_type req ≠ join_cluster_request → catching_up_ w = false →
  (req_type req = client_request → Forall client_entry (req_log_entries req)) →
  roomy (length (req_log_entries req)) w →
  reacts (length (req_log_entries req)) w (dispatch req w).2.
Proof.
  intros Ha Hi Hj Hc He Hw. unfold dispatch, handle_extended_msg.
  destruct (req_type req); try done; try (left; solve [by_frame]).
  - exact (reacting_split _ _ (bystander_handle_cli_req req) (leads_handle_cli_req req (He eq_refl)) w Hw).
  - left. unfold handle_log_sync_req. rewrite bind_get, Hc.
    destruct (req_log_entries req) as [|x []]; [done| |done]. by destruct (negb _).
Qed.
End leading.
