(* ===== verification/LogMatching.v ===== *)
(** * Log matching

    The servers of a cluster that replicates: append requests are ones a
    server sent, the membership is fixed and no snapshots are taken.  In such
    a run two logs with an entry of the same index and term are the same up to
    it.  The argument follows the entries back to the leader of their term. *)

From S2P Require Import Prelude Buffer Config Messages LogStore StateMachine StateMgr Scheduler Peer Server Membership Requests Responses Samples Frames PeerSet Elections Cluster Replication LeaderLog Leading.

Section following.
Context `{FreshMem} {LS SM : Type} `{!log_store LS} `{!state_machine SM}.
Context `{!log_store_laws LS} `{!state_machine_laws SM}.
#[local] Abbreviation W := (raft_server LS SM).

(** ** An append request at one server *)

#[local] Instance quiet_sent_reqs : Quiet (same (sent_reqs (LS := LS) (SM := SM))).
Proof. intros e w He. unfold same. by rewrite sent_reqs_other. Qed.

#[local] Hint Extern 1 (within ?R (emit _)) => (apply (quiet_emit_other R); reflexivity) : within.
#[local] Hint Resolve quiet_fatal quiet_term_for_log quiet_note_new_entry quiet_note_old_entry
  quiet_log_okay_for quiet_hear_from_leader : within.

Lemma quiet_overwrite_entries i l : within (same sent_reqs) (overwrite_entries (LS := LS) (SM := SM) i l).
Proof. revert i. induction l as [|e l IH]; intros i; cbn [overwrite_entries]; within_solve ignored. Qed.

Lemma quiet_append_new_entries l :
  within (same sent_reqs) (append_new_entries (LS := LS) (SM := SM) l).
Proof. induction l as [|e l IH]; cbn [append_new_entries]; within_solve ignored. Qed.
#[local] Hint Resolve quiet_overwrite_entries quiet_append_new_entries : within.

Lemma quiet_write_entries i l : within (same sent_reqs) (write_entries (LS := LS) (SM := SM) i l).
Proof. unfold write_entries. within_solve ignored. Qed.

Lemma hear_from_leader_follows (w w' : W) : hear_from_leader w = (Ok tt, w') → role_ w' = follower.
Proof.
  unfold hear_from_leader. rewrite bind_get. destruct (role_ w) eqn:Hr; intros Hh.
  - rewrite <-Hr. eapply (within_elim (same role_)); [|exact Hh]. within_solve ignored.
  - pose proof (become_follower_role w) as Hb. rewrite Hh in Hb. by apply Hb.
  - done.
Qed.

(** The request continues the log, which begins at index 1. *)
Definition continues_at (req : req_msg) (prev : nat) (l : list log_entry) : Prop :=
  req_last_log_idx req = Z.of_nat prev ∧ (prev ≤ length l)%nat ∧
  (prev ≠ 0%nat → le_term <$> l !! pred prev = Some (req_last_log_term req)).

Lemma log_okay_continues req (w w' : W) :
  log_ok (log_store_ w) → start_index_ w = 1 → 0 ≤ req_last_log_idx req →
  log_okay_for req w = (Ok true, w') →
  w' = w ∧ continues_at req (Z.to_nat (req_last_log_idx req)) (log_view w).
Proof.
  intros Hok Hst H0. unfold log_okay_for, continues_at. rewrite bind_get, Z2Nat.id by done.
  destruct (Z.eqb_spec (req_last_log_idx req) 0) as [->|Hne].
  { intros [= <-]. split_and!; [done..|cbn; lia|done]. }
  destruct (Z.ltb_spec (req_last_log_idx req) (next_slot_ w)); [|done].
  destruct (term_before w (req_last_log_idx req)) as (t & Ht & Hlen & Hterm); [done..|].
  rewrite (bind_step _ _ _ _ _ Ht). intros [= <-%Z.eqb_eq <-]. by split_and!.
Qed.

(** The log of a follower after a request that continues it. *)
Record merged (req : req_msg) (w w' : W) : Prop := {
  mg_ok : log_ok (log_store_ w');
  mg_start : start_index_ w' = start_index_ w;
  mg_role : role_ w' ≠ leader;
  mg_sent : sent_reqs w' = sent_reqs w;
  mg_term : current_term w' = req_term req;
  mg_log : let prev := Z.to_nat (req_last_log_idx req) in
    continues_at req prev (log_view w) ∧
    log_view w' = take prev (log_view w) ++ merge_entries (drop prev (log_view w)) (req_log_entries req);
}.

(** What an append request needs of the server and of the request. *)
Record mergeable (req : req_msg) (w : W) : Prop := {
  ma_ok : log_ok (log_store_ w);
  ma_start : start_index_ w = 1;
  ma_idx : 0 ≤ req_last_log_idx req;
  ma_room : bounded w (length (req_log_entries req));
  ma_new : Forall entry_fine (req_log_entries req);
  ma_old : Forall entry_fine (log_view w);
}.

Lemma mergeable_traffic req w w' : traffic w' = traffic w → mergeable req w → mergeable req w'.
Proof.
  intros [= Hl _] [Hok Hst Hi Hr Hn Ho]. split; [|..|done|]; unfold start_index_, bounded, next_slot_, log_view in *;
    by rewrite ?Hl.
Qed.

Lemma accepted_merges req resp (w : W) :
  role_ w = follower → current_term w = req_term req → mergeable req w →
  continues_at req (Z.to_nat (req_last_log_idx req)) (log_view w) →
  merged req w ((write_entries (req_last_log_idx req) (req_log_entries req) ;;
                 leader_ <~ req_src req ;; commit (req_commit_idx req) ;; mret (resp : resp_msg)) w).2.
Proof.
  intros Hr Htm [Hok Hst Hi Hrm Hn Ho] Hc. pose proof Hc as (_ & Hlen & _).
  pose proof (next_slot_spec _ Hok) as Hnx. unfold start_index_ in Hst.
  assert (append_request_fits req w) as Hfit
    by (split; [done|unfold start_index_; lia|unfold next_slot_, log_view in *; lia|done..]).
  destruct (accept_entries req resp w Hr Hok Hfit) as (w' & Hw' & Hok' & Hst' & Hv' & _ & Hr' & Hs' & _).
  replace (offset w (req_last_log_idx req + 1)) with (Z.to_nat (req_last_log_idx req)) in Hv'
    by (unfold offset, start_index_; lia).
  rewrite Hw'. split; [done..|cbn; congruence| |cbn; unfold current_term in *; congruence|by split].
  destruct (write_entries_ok req w Hok Hfit) as (w1 & Hw1 & _).
  pose proof (within_elim _ _ _ _ _ (quiet_write_entries _ _) Hw1) as Hs1.
  pose proof (within_elim (same role_) _ _ _ _ (within_write_entries _ _ _) Hw1) as Hr1.
  rewrite (bind_step _ _ _ _ _ Hw1), bind_modify in Hw'. rewrite <-Hs1.
  unfold same in Hr1. set (w2 := update leader_ _ w1) in Hw'.
  destruct (bystander_commit (req_commit_idx req) w2) as [_ Hq]; [change (role_ w1 ≠ leader); congruence|].
  change (sent_reqs w1) with (sent_reqs w2). destruct (commit _ w2) as [[[]|?|?] w3] eqn:Ec.
  - rewrite (bind_step _ _ _ _ _ Ec) in Hw'. injection Hw' as <-. by injection Hq.
  - by erewrite bind_throw in Hw' by done.
  - by erewrite bind_fault in Hw' by done.
Qed.

Lemma append_entries_event req (w : W) :
  req_term req ≤ current_term w → mergeable req w →
  traffic (handle_append_entries req w).2 = traffic w ∨ merged req w (handle_append_entries req w).2.
Proof.
  intros Ht Hm. unfold handle_append_entries. rewrite bind_get. set (hear := when _ _).
  assert (traffic (hear w).2 = traffic w ∧ current_term (hear w).2 = current_term w) as [Hq Htm]
    by (unfold hear; split; by_frame).
  destruct (hear w) as [[[]|x|u] w1] eqn:Eh;
    [|erewrite bind_throw by done; by left|erewrite bind_fault by done; by left].
  rewrite (bind_step _ _ _ _ _ Eh), bind_get. cbv zeta. cbn [snd] in Hq, Htm.
  pose proof (mergeable_traffic _ _ _ Hq Hm) as Hm1.
  assert (traffic (log_okay_for req w1).2 = traffic w1) as Hq1 by by_frame.
  destruct (log_okay_for req w1) as [[b|x|u] w2] eqn:El;
    [|erewrite bind_throw by done; left; cbn in *; congruence|
      erewrite bind_fault by done; left; cbn in *; congruence].
  rewrite (bind_step _ _ _ _ _ El). cbn [snd] in Hq1.
  destruct b; [|rewrite orb_true_r; left; cbn; congruence]. cbn [negb]. rewrite orb_false_r.
  destruct (log_okay_continues _ _ _ (ma_ok _ _ Hm1) (ma_start _ _ Hm1) (ma_idx _ _ Hm1) El) as [-> Hc].
  destruct (Z.ltb_spec (req_term req) (current_term w1)); [by left|]. right.
  assert (role_ w1 = follower) as Hr.
  { apply (hear_from_leader_follows w). subst hear. by rewrite (proj2 (Z.eqb_eq _ _)) in Eh by lia. }
  lazymatch goal with |- context [accept ?n ?r] => set (resp := accept n r) end.
  destruct (accepted_merges req resp w1 Hr ltac:(lia) Hm1 Hc) as [Ho Hs Hr' Hse Htm' Hl].
  injection Hq as Hls Hsr. unfold start_index_, log_view in *. rewrite Hls, Hsr in *. by split.
Qed.

Lemma append_request_event req (w : W) :
  req_type req = append_entries_request → mergeable req w →
  traffic (process_req req w).2 = traffic w ∨ merged req w (process_req req w).2.
Proof.
  intros Hty Hm. rewrite process_req_dispatch, Hty. cbn [is_raft_rpc].
  assert (req_term req ≤ current_term (update_term (req_term req) w).2) as Ht.
  { unfold current_term. rewrite update_term_state.
    destruct (Z.ltb_spec (current_term w) (req_term req)); done. }
  assert (traffic (update_term (req_term req) w).2 = traffic w) as Hq
    by (unfold update_term; by_frame).
  match goal with |- context [(?m ≫= ?k) w] => destruct (bind_cases m k w) as [(b & _ & ->)|[_ ->]] end;
    [|by left].
  set (w1 := (update_term (req_term req) w).2) in *. clearbody w1.
  set (m := w ← gets id; _). assert (traffic (m w1).2 = traffic w1 ∧ current_term (m w1).2 = current_term w1)
    as [Hq2 Ht2] by (subst m; split; by_frame).
  match goal with |- context [(m ≫= ?k) w1] => destruct (bind_cases m k w1) as [([] & _ & ->)|[_ ->]] end;
    [|left; congruence].
  set (w2 := (m w1).2) in *. clearbody w2. unfold dispatch. rewrite Hty.
  destruct (append_entries_event req w2) as [E|[Ho Hs Hr Hse Htm Hl]]; [lia| | |].
  - eapply mergeable_traffic; [|done]. congruence.
  - left. congruence.
  - right. assert (traffic w2 = traffic w) as [= Hls Hsr] by congruence.
    unfold start_index_, log_view in *. rewrite Hls, Hsr in *. by split.
Qed.

(** ** A term of office *)

(** Terms grow, and a leader leads until they do. *)
Definition tenure : relation W := λ w w',
  current_term w ≤ current_term w' ∧
  (role_ w = leader → current_term w' = current_term w → role_ w' = leader).
#[local] Instance tenure_preorder : PreOrder tenure.
Proof.
  split; unfold tenure; [by intros w|]. intros w1 w2 w3 [Ht1 Hr1] [Ht2 Hr2].
  split; [lia|]. intros Hl Ht. apply Hr2; [apply Hr1; [done|]|]; lia.
Qed.

Lemma tenure_same w w' : role_ w' = role_ w → current_term w' = current_term w → tenure w w'.
Proof. intros Hr Ht. unfold tenure. split; [lia|congruence]. Qed.
Lemma tenure_none w w' : role_ w ≠ leader → current_term w ≤ current_term w' → tenure w w'.
Proof. by intros Hr Ht. Qed.

Lemma tenure_update_term t : within tenure (update_term (LS := LS) (SM := SM) t).
Proof.
  intros w. destruct (Z.ltb_spec (current_term w) t) as [Hlt|]; [|by rewrite update_term_old].
  assert (current_term w < current_term (update_term t w).2) as Hg.
  { unfold current_term. rewrite update_term_state, (proj2 (Z.ltb_lt _ _)) by done. done. }
  split; [lia|]. intros _ ?. lia.
Qed.

Lemma tenure_hear_from_leader : within tenure (hear_from_leader (LS := LS) (SM := SM)).
Proof.
  intros w. assert (current_term (hear_from_leader w).2 = current_term w) as Ht by by_frame.
  destruct (decide (role_ w = leader)) as [Hr|Hr]; [|apply tenure_none; [done|lia]].
  apply tenure_same; [|done]. unfold hear_from_leader. by rewrite bind_get, Hr.
Qed.

Lemma tenure_handle_vote_req req : within tenure (handle_vote_req (LS := LS) (SM := SM) req).
Proof.
  intros w. apply tenure_same; [by_frame|]. unfold current_term.
  by destruct (handle_vote_req_state req w) as [->|(_ & _ & ->)].
Qed.
#[local] Hint Resolve tenure_update_term tenure_hear_from_leader tenure_handle_vote_req : within.

Ltac take_office := apply within_modify; intros ?; by split.

Lemma tenure_become_leader : within tenure (become_leader (LS := LS) (SM := SM)).
Proof. unfold become_leader. within_solve take_office. Qed.
#[local] Hint Resolve tenure_become_leader : within.

Lemma tenure_process_req req :
  req_type req ≠ join_cluster_request → within tenure (process_req (LS := LS) (SM := SM) req).
Proof.
  intros Hj. unfold process_req, handle_extended_msg, handle_append_entries, handle_install_snapshot_req.
  destruct (req_type req); try done; within_solve ignored.
Qed.

Lemma tenure_handle_rpc_result obj req h r :
  within tenure (handle_rpc_result (LS := LS) (SM := SM) obj req h r).
Proof. unfold handle_rpc_result, handle_peer_resp, handle_voting_resp. within_solve ignored. Qed.

Lemma step_tenure e (w : W) :
  ordinary e → 0 ≤ current_term w → current_term w + 1 < 2 ^ 64 → tenure w (handle_event e w).2.
Proof.
  intros Ho H0 Hb. destruct e as [req|obj req h result|uid success| |now]; cbn [handle_event].
  - pose proof (tenure_process_req req Ho) as Hp. by_frame.
  - apply tenure_handle_rpc_result.
  - destruct (timer_expired_cases uid success w) as [[_ ->]|HR]; [|apply (HR tenure); apply _].
    destruct (election_timeout_vote_mono w) as [Hm _]; [unfold is_u64; lia|done|].
    destruct (election_timeout_cases w) as [[Hs _]|[_ [= Hst Hr _ _ _]]].
    + apply tenure_none; [|done]. unfold stands_for_election in Hs. intros Hr.
      by rewrite bool_decide_eq_true_2, andb_false_r in Hs.
    + apply tenure_same; [done|]. unfold current_term. congruence.
  - by_frame.
  - done.
Qed.

(** A server that is not joining does not begin to. *)
Definition attentive : relation W := λ w w', catching_up_ w = false → catching_up_ w' = false.
#[local] Instance attentive_preorder : PreOrder attentive.
Proof. split; unfold attentive; [by intros w|intros ???; auto]. Qed.

Lemma step_attentive e (w : W) : ordinary e → attentive w (handle_event e w).2.
Proof.
  intros Ho. destruct e as [req| | | |]; cbn [handle_event].
  - cbn in Ho. enough (within attentive (process_req (LS := LS) (SM := SM) req)) as Hp by by_frame.
    unfold process_req, handle_extended_msg, handle_install_snapshot_req.
    destruct (req_type req); try done; within_solve ignored.
  - by_frame.
  - by_frame.
  - unfold commit_one, commit_config_entry.
    by_frame_with ltac:(apply within_modify; intros ? ?; done).
  - by_frame.
Qed.

(** ** One event *)

(** Clients bring entries that can be stored, and no server is being added or
    removed: those answers have a handler of their own. *)
Definition plain (e : event) : Prop :=
  match e with
  | EvRequest req => req_type req = client_request → Forall client_entry (req_log_entries req)
  | EvRpcResult _ _ h _ => h = resp_handler
  | _ => True
  end.

(** What an append request needs; snapshots are not installed. *)
Definition fits_log (e : event) (w : W) : Prop :=
  ∀ req, e = EvRequest req → req_type req ≠ install_snapshot_request ∧
    (req_type req = append_entries_request → mergeable req w).

(** What an event does to the log and to what was sent: nothing, what a leader
    does, or the merge of an append request. *)
Inductive deed (e : event) (w w' : W) : Prop :=
  | deed_none : traffic w' = traffic w → deed e w w'
  | deed_lead n w1 : traffic w1 = traffic w → leading n w1 → led n w1 w' → deed e w w'
  | deed_merge req : e = EvRequest req → req_type req = append_entries_request → merged req w w' →
      deed e w w'.

Lemma reacts_deed n e (w w' : W) : reacts n w w' → deed e w w'.
Proof. intros [Hq|(w1 & Hq & Hld & Hl)]; [by apply deed_none|by apply (deed_lead _ _ _ n w1)]. Qed.

Lemma roomy_weaken n k (w : W) : (n ≤ k)%nat → roomy k w → roomy n w.
Proof. intros Hnk Hw. by eapply leading_weaken. Qed.

Lemma request_deed req (w : W) :
  ordinary (EvRequest req) → plain (EvRequest req) → catching_up_ w = false →
  roomy (length (req_log_entries req)) w → fits_log (EvRequest req) w →
  deed (EvRequest req) w (process_req req w).2.
Proof.
  intros Hj He Hc Hw Hfit. destruct (Hfit req eq_refl) as [Hi Hm]. destruct (decide (req_type req = append_entries_request)) as [Ha|Ha].
  { destruct (append_request_event req w Ha (Hm Ha)); [by apply deed_none|by eapply deed_merge]. }
  destruct (decide (req_type req = request_vote_request)) as [Hv|Hv].
  { apply deed_none. unfold process_req, update_term. rewrite Hv. cbn [is_raft_rpc]. by_frame. }
  apply (reacts_deed (length (req_log_entries req))). rewrite process_req_dispatch.
  replace (is_raft_rpc (req_type req)) with false by (by destruct (req_type req)).
  by apply reacting_dispatch.
Qed.

Lemma step_deed e (w : W) :
  ordinary e → plain e → catching_up_ w = false → snapshot_distance_ (params_ w) = 0 →
  roomy (length (brings e) + 1) w → fits_log e w →
  deed e w (handle_event e w).2.
Proof.
  intros Ho Hr Hc Hd Hw Hm. destruct e as [req|obj req h result|uid success| |now].
  - cbn [handle_event]. enough (deed (EvRequest req) w (process_req req w).2) as Hp
      by (by destruct (bind_cases (process_req req) (λ _, mret tt) w) as [(a & _ & ->)|[_ ->]]).
    apply request_deed; [done..| |done]. eapply roomy_weaken; [|done]. cbn. lia.
  - cbn in Hr. subst h. apply (reacts_deed 1). by apply reacting_handle_rpc_result.
  - apply (reacts_deed 1). by apply reacting_timer_expired.
  - apply deed_none. by apply commit_event_traffic.
  - by apply deed_none.
Qed.
End following.

(** ** Logs and the leaders of their terms *)

Section matching.
(** The logs the leaders of each term have had. *)
Context (leader_log : Z → list log_entry → Prop).

(** Every entry, with what is before it, is in a log of its term's leader. *)
Definition rooted (l : list log_entry) : Prop :=
  ∀ k e, l !! k = Some e → ∃ l', leader_log (le_term e) l' ∧ take (S k) l' = take (S k) l.

Lemma rooted_nil : rooted [].
Proof. done. Qed.

Lemma rooted_take n l : rooted l → rooted (take n l).
Proof.
  intros Hl k e [Hk He]%lookup_take_Some. destruct (Hl k e Hk) as (l' & Hl' & Ht).
  exists l'. split; [done|]. by rewrite take_take, Nat.min_l by lia.
Qed.

(** The log of a leader that appends. *)
Lemma rooted_appended l suffix t :
  rooted l → leader_log t (l ++ suffix) → Forall (λ e, le_term e = t) suffix → rooted (l ++ suffix).
Proof.
  intros Hl Ht Hs k e [Hk|[Hge Hk]]%lookup_app_Some.
  - destruct (Hl k e Hk) as (l' & Hl' & Htk). exists l'. split; [done|]. rewrite Htk.
    apply lookup_lt_Some in Hk. by rewrite take_app_le by lia.
  - rewrite Forall_lookup in Hs. rewrite (Hs _ _ Hk). by exists (l ++ suffix).
Qed.

(** The logs of one leader are pieces of one another. *)
Context (Hchain : ∀ t l1 l2, leader_log t l1 → leader_log t l2 →
  l1 `prefix_of` l2 ∨ l2 `prefix_of` l1).

Lemma prefix_take_eq {A} (l1 l2 : list A) n :
  (n ≤ length l1)%nat → l1 `prefix_of` l2 → take n l1 = take n l2.
Proof. intros Hn [s ->]. by rewrite take_app_le. Qed.

Lemma rooted_match l1 l2 k e1 e2 :
  rooted l1 → rooted l2 → l1 !! k = Some e1 → l2 !! k = Some e2 → le_term e1 = le_term e2 →
  take (S k) l1 = take (S k) l2.
Proof.
  intros H1 H2 Hk1 Hk2 Ht. destruct (H1 k e1 Hk1) as (l1' & Hl1 & E1), (H2 k e2 Hk2) as (l2' & Hl2 & E2).
  assert (∀ (l l' : list log_entry) e, l !! k = Some e → take (S k) l' = take (S k) l → (S k ≤ length l')%nat) as Hlen.
  { intros l l' e Hk%lookup_lt_Some E%(f_equal length). rewrite !length_take in E. lia. }
  pose proof (Hlen _ _ _ Hk1 E1). pose proof (Hlen _ _ _ Hk2 E2). rewrite <-E1, <-E2, Ht in *.
  destruct (Hchain _ _ _ Hl1 Hl2); [|symmetry]; by apply prefix_take_eq.
Qed.

(** A merge gives the old log or a piece of the sender's. *)
Lemma merge_is_either l0 l p es :
  rooted l0 → rooted l → Forall stored l → take p l0 = take p l →
  (p ≤ length l0)%nat → (p ≤ length l)%nat → es `prefix_of` drop p l →
  let l' := take p l0 ++ merge_entries (drop p l0) es in
  l' = l0 ∨ l' = take (p + length es) l.
Proof.
  intros H0 H1 Hst. revert p. induction es as [|e es IH]; intros p Htk Hp0 Hp1 [s Hs] l'.
  { left. unfold l'. cbn [merge_entries]. by rewrite take_drop. }
  assert (l !! p = Some e) as He by (rewrite <-(Nat.add_0_r p), <-lookup_drop, Hs; done).
  assert (take (p + length (e :: es)) l = take p l ++ e :: es) as Htake.
  { by rewrite <-take_take_drop, Hs, take_app_length. }
  assert (clone <$> e :: es = e :: es) as Hcl.
  { rewrite <-(list_fmap_id (e :: es)) at 2. apply list_fmap_ext. intros j x Hj. apply clone_stored.
    rewrite Forall_lookup in Hst. apply (Hst (p + j)%nat). rewrite <-lookup_drop, Hs. by apply lookup_app_l_Some. }
  subst l'. cbn [merge_entries]. destruct (drop p l0) as [|o old] eqn:Ed.
  { right. by rewrite Hcl, Htake, Htk. }
  assert (l0 !! p = Some o) as Ho by (rewrite <-(Nat.add_0_r p), <-lookup_drop, Ed; done).
  destruct (Z.eqb_spec (le_term o) (le_term e)) as [Ht|Hne]; [|right; by rewrite Hcl, Htake, Htk].
  pose proof (rooted_match _ _ _ _ _ H0 H1 Ho He Ht) as HtkS.
  assert (drop (S p) l0 = old) as Ed' by (by rewrite <-Nat.add_1_r, <-drop_drop, Ed).
  destruct (IH (S p)) as [E|E]; [done|by eapply lookup_lt_Some..| | |].
  - exists s. by rewrite <-Nat.add_1_r, <-drop_drop, Hs.
  - left. rewrite Ed', (take_S_r _ _ _ Ho), <-app_assoc in E. done.
  - right. rewrite Ed', (take_S_r _ _ _ Ho), <-app_assoc in E. rewrite Nat.add_succ_l, <-Nat.add_succ_r in E. done.
Qed.

Lemma merge_cases req prev l0 l :
  rooted l0 → rooted l → Forall stored l → slice req l → continues_at req prev l0 →
  let l' := take prev l0 ++ merge_entries (drop prev l0) (req_log_entries req) in
  l' = l0 ∨ ∃ n, l' = take n l.
Proof.
  intros H0 H1 Hst (p & Hp & Hlen & Hterm & Hes) (Hi & Hlen0 & Hterm0) l'.
  assert (p = prev) as -> by lia.
  assert (take prev l0 = take prev l) as Htk.
  { destruct (decide (prev = 0%nat)) as [->|Hne]; [done|]. specialize (Hterm Hne). specialize (Hterm0 Hne).
    destruct (l !! pred prev) as [e|] eqn:E; [|done]. destruct (l0 !! pred prev) as [e0|] eqn:E0; [|done].
    injection Hterm as Hterm. injection Hterm0 as Hterm0.
    replace prev with (S (pred prev)) by lia. eapply rooted_match; [done..|congruence]. }
  destruct (merge_is_either l0 l prev (req_log_entries req)); [done..|by left|right; by eexists].
Qed.

Lemma merge_rooted req prev l0 l :
  rooted l0 → rooted l → Forall stored l → slice req l → continues_at req prev l0 →
  rooted (take prev l0 ++ merge_entries (drop prev l0) (req_log_entries req)).
Proof.
  intros H0 H1 Hst Hsl Hc. destruct (merge_cases req prev l0 l) as [->|[n ->]]; [done..|].
  by apply rooted_take.
Qed.
End matching.

(** ** A cluster that replicates *)

Section cluster.
Context `{FreshMem} {LS SM : Type} `{!log_store LS} `{!state_machine SM}.
Context `{!log_store_laws LS} `{!state_machine_laws SM}.
#[local] Abbreviation W := (raft_server LS SM).
Context (C : gset Z) (init : Z → W).
#[local] Abbreviation node := (node init).

(** A server that takes no snapshots, and whose log begins at index 1. *)
Record in_service (w : W) : Prop := {
  sv_ok : log_ok (log_store_ w);
  sv_start : start_index_ w = 1;
  sv_entries : Forall entry_fine (log_view w);
  sv_member : catching_up_ w = false;
  sv_snapshots : snapshot_distance_ (params_ w) = 0;
  sv_batch : 0 ≤ max_append_size_ (params_ w) < 2 ^ 31;
}.

(** The log does not reach the end of the 64-bit indices, and requests that
    carry entries or snapshots come from a server of the cluster. *)
Definition admissible (tr : list (Z * event)) (i : Z) (e : event) : Prop :=
  plain e ∧ next_slot_ (node i tr) + Z.of_nat (length (brings e) + 1) + 2 ^ 31 < 2 ^ 64 ∧
  match e with
  | EvRequest req =>
      req_type req = append_entries_request ∨ req_type req = install_snapshot_request →
      ∃ j, j ∈ C ∧ req ∈ sent_reqs (node j tr)
  | _ => True
  end.

Inductive replication_run : list (Z * event) → Prop :=
  | rep_start :
      cluster_run C init [] →
      (∀ i, i ∈ C → in_service (init i) ∧ log_view (init i) = [] ∧ sent_reqs (init i) = []) →
      replication_run []
  | rep_step tr i e :
      replication_run tr → cluster_run C init (tr ++ [(i, e)]) → admissible tr i e →
      replication_run (tr ++ [(i, e)]).

Lemma replication_cluster tr : replication_run tr → cluster_run C init tr.
Proof. by destruct 1. Qed.

Lemma replication_snoc tr i e :
  replication_run (tr ++ [(i, e)]) →
  replication_run tr ∧ i ∈ C ∧ admissible tr i e ∧ ordinary e ∧
  0 ≤ current_term (node i tr) ∧ current_term (node i tr) + 1 < 2 ^ 64.
Proof.
  intros Hrun. inversion Hrun as [Hc Hi E|tr0 i0 e0 Hr Hc Ha E]; [by destruct tr|].
  apply app_inj_tail in E as [-> [= -> ->]].
  inversion Hc as [? ? E|tr1 i1 e1 _ Hi _ _ (Ho & H0 & Hb & _) _ _ E]; [by destruct tr|].
  by apply app_inj_tail in E as [-> [= -> ->]].
Qed.

Lemma replication_prefix tr1 tr2 : replication_run (tr1 ++ tr2) → replication_run tr1.
Proof.
  induction tr2 as [|[i e] tr2 IH] using rev_ind; [by rewrite app_nil_r|].
  rewrite app_assoc. intros [Hr _]%replication_snoc. auto.
Qed.

(** The requests under way. *)
Definition carried (req : req_msg) : Prop :=
  req_type req = append_entries_request ∧ 0 ≤ req_last_log_idx req ∧
  Forall (λ e, entry_fine e ∧ stored e) (req_log_entries req).

(** ** The servers in service *)

Lemma in_service_roomy n w :
  in_service w → next_slot_ w + Z.of_nat n + 2 ^ 31 < 2 ^ 64 → roomy n w.
Proof. intros [Hok Hst _ _ _ Hb] Hrm. by split. Qed.

Lemma merge_entries_fine old new :
  Forall entry_fine old → Forall (λ e, entry_fine e ∧ stored e) new →
  Forall (entry_fine (SM := SM)) (merge_entries old new).
Proof.
  intros Ho Hn. assert (Forall (entry_fine (SM := SM)) (clone <$> new)) as Hc.
  { apply Forall_fmap. eapply Forall_impl; [exact Hn|]. intros e [He Hs]. cbn. by rewrite clone_stored. }
  revert old Ho Hc. induction Hn as [|e new [He Hs] Hn IH]; intros old Ho Hc; [done|].
  cbn [merge_entries]. destruct Ho as [|o old Hfo Ho]; [done|]. destruct (_ =? _); [|done].
  constructor; [done|]. apply IH; [done|]. by inversion Hc.
Qed.

Lemma of_log_carried (w : W) req :
  log_ok (log_store_ w) → Forall entry_fine (log_view w) → of_log w req → carried req.
Proof.
  intros Hok Hf (Hty & _ & prev & Hp & _ & _ & Hes). split_and!; [done|lia|].
  destruct Hes as [s Hs]. pose proof (view_stored _ Hok) as Hst.
  assert (Forall (λ e, entry_fine (SM := SM) e ∧ stored e) (drop prev (log_view w))) as Hd.
  { apply Forall_drop, Forall_and. by split. }
  rewrite Hs in Hd. by apply Forall_app in Hd as [? _].
Qed.

(** The log and the requests after an event. *)
Lemma deed_fine e (w w' : W) :
  deed e w w' → log_ok (log_store_ w) → start_index_ w = 1 → Forall entry_fine (log_view w) →
  Forall carried (sent_reqs w) →
  (∀ req, e = EvRequest req → req_type req = append_entries_request → carried req) →
  log_ok (log_store_ w') ∧ start_index_ w' = 1 ∧ Forall entry_fine (log_view w') ∧
  Forall carried (sent_reqs w').
Proof.
  intros Hd Hok Hst Hf Hs Hreq. destruct Hd as [[= Hl Hq]|n w1 [= Hl1 Hq1] Hld Hled|req -> Hty Hm].
  - unfold start_index_, log_view. by rewrite Hl, Hq.
  - destruct Hled as [Hok' Hst' (l & Hv & _ & Hown) (rs & Hr & Hof) _].
    assert (Forall entry_fine (log_view w')) as Hf'.
    { rewrite Hv. apply Forall_app. split; [unfold log_view; by rewrite Hl1|].
      eapply Forall_impl; [exact Hown|]. by intros x [_ Hx]. }
    split_and!; [done|rewrite Hst'; unfold start_index_; by rewrite Hl1|done|].
    rewrite Hr, Hq1. apply Forall_app. split; [done|]. eapply Forall_impl; [exact Hof|].
    intros req. by apply of_log_carried.
  - destruct Hm as [Hok' Hst' _ Hq _ [_ Hv]]. destruct (Hreq req eq_refl Hty) as (_ & _ & Hes).
    split_and!; [done|congruence| |by rewrite Hq]. rewrite Hv. apply Forall_app.
    split; [by apply Forall_take|]. apply merge_entries_fine; [by apply Forall_drop|done].
Qed.

(** What may arrive at a server in service. *)
Lemma admissible_fits tr i e :
  in_service (node i tr) → admissible tr i e →
  (∀ j, j ∈ C → Forall carried (sent_reqs (node j tr))) →
  fits_log e (node i tr) ∧
  (∀ req, e = EvRequest req → req_type req = append_entries_request → carried req).
Proof.
  intros Hs (_ & Hrm & Hsrc) Hc.
  assert (∀ req, e = EvRequest req → req_type req = append_entries_request ∨
    req_type req = install_snapshot_request → carried req) as Hcar.
  { intros req -> Hty. destruct (Hsrc Hty) as (j & Hj & Hin). specialize (Hc j Hj).
    rewrite Forall_forall in Hc. by apply Hc. }
  split; [|by auto]. intros req ->. split.
  - intros Hty. destruct (Hcar req eq_refl (or_intror Hty)) as [Hty' _]. congruence.
  - intros Hty. destruct (Hcar req eq_refl (or_introl Hty)) as (_ & Hi & Hes).
    destruct Hs as [Hok Hst Hf _ _ _]. split; [done..| | |done].
    + unfold bounded. cbn in Hrm. lia.
    + eapply Forall_impl; [exact Hes|]. by intros x [? _].
Qed.

Lemma run_in_service tr i :
  replication_run tr → i ∈ C → in_service (node i tr) ∧ Forall carried (sent_reqs (node i tr)).
Proof.
  intros Hrun. revert i. induction Hrun as [_ Hinit|tr j e Hrun IH Hc Ha]; intros i Hi.
  { destruct (Hinit i Hi) as (Hs & _ & Hq). unfold Cluster.node. cbn. by rewrite Hq. }
  destruct (decide (i = j)) as [->|Hne]; [|rewrite node_other by done; by apply IH].
  destruct (replication_snoc tr j e) as (_ & _ & _ & Ho & _); [by apply rep_step|].
  destruct (IH j Hi) as [Hs Hcar]. pose proof Hs as [Hok Hst Hf Hm Hd Hb].
  destruct (admissible_fits _ _ _ Hs Ha) as [Hfit Hreq]; [intros k Hk; by apply IH|].
  pose proof Ha as (Hpl & Hrm & _). rewrite node_same.
  assert (deed e (node j tr) (handle_event e (node j tr)).2) as Hdd
    by (apply step_deed; [done..|by apply in_service_roomy|done]).
  destruct (deed_fine _ _ _ Hdd) as (Hok' & Hst' & Hf' & Hcar'); [done..|].
  assert (params_ (handle_event e (node j tr)).2 = params_ (node j tr)) as Hp by by_frame.
  split; [|done]. split; [done..|by apply step_attentive|congruence|by rewrite Hp].
Qed.

Lemma run_deed tr i e :
  replication_run (tr ++ [(i, e)]) → deed e (node i tr) (node i (tr ++ [(i, e)])).
Proof.
  intros Hrun. destruct (replication_snoc _ _ _ Hrun) as (Hr & Hi & Ha & Ho & _).
  destruct (run_in_service tr i Hr Hi) as [Hs _]. pose proof Hs as [_ _ _ Hm Hd _].
  destruct (admissible_fits _ _ _ Hs Ha) as [Hfit _]; [intros k Hk; by apply run_in_service|].
  destruct Ha as (Hpl & Hrm & _). rewrite node_same.
  apply step_deed; [done..|by apply in_service_roomy|done].
Qed.

(** ** The logs of leaders *)

Lemma run_tenure tr1 tr2 i :
  replication_run (tr1 ++ tr2) → tenure (node i tr1) (node i (tr1 ++ tr2)).
Proof.
  induction tr2 as [|[j e] tr2 IH] using rev_ind; [intros _; rewrite app_nil_r; by apply tenure_same|].
  rewrite app_assoc. intros (Hr & Hj & _ & Ho & H0 & Hb)%replication_snoc. specialize (IH Hr).
  destruct (decide (i = j)) as [->|Hne]; [|by rewrite node_other by done].
  rewrite node_same. eapply tenure_preorder; [exact IH|]. by apply step_tenure.
Qed.

(** A leader's log only grows during its term. *)
Lemma office_log tr1 tr2 i :
  replication_run (tr1 ++ tr2) → i ∈ C →
  role_ (node i tr1) = leader → role_ (node i (tr1 ++ tr2)) = leader →
  current_term (node i (tr1 ++ tr2)) = current_term (node i tr1) →
  log_view (node i tr1) `prefix_of` log_view (node i (tr1 ++ tr2)).
Proof.
  intros Hrun Hi Hl1. induction tr2 as [|[j e] tr2 IH] using rev_ind; [by rewrite app_nil_r|].
  rewrite app_assoc in *. pose proof (replication_snoc _ _ _ Hrun) as (Hr & _ & _ & Ho & H0 & Hb).
  destruct (decide (i = j)) as [->|Hne]; [|rewrite node_other by done; by apply IH].
  pose proof (run_deed _ _ _ Hrun) as Hd. intros Hl2 Ht.
  destruct (run_tenure tr1 tr2 j Hr) as [Hle1 Hten].
  assert (current_term (node j (tr1 ++ tr2)) ≤ current_term (node j ((tr1 ++ tr2) ++ [(j, e)]))) as Hle2
    by (rewrite node_same; by apply step_tenure).
  etrans; [apply IH; [done|apply Hten; [done|lia]|lia]|].
  destruct Hd as [[= Hl _]|n w1 [= Hl _] _ [_ _ (l & Hv & _) _ _]|req _ _ [_ _ Hnl _ _ _]]; [| |done].
  - unfold log_view. by rewrite Hl.
  - rewrite Hv. unfold log_view. rewrite Hl. by apply prefix_app_r.
Qed.

(** The logs the leader of term [t] has had so far. *)
Definition leader_log (tr : list (Z * event)) (t : Z) (l : list log_entry) : Prop :=
  ∃ tr1 tr2 i, tr = tr1 ++ tr2 ∧ i ∈ C ∧ role_ (node i tr1) = leader ∧
    current_term (node i tr1) = t ∧ log_view (node i tr1) = l.

Lemma leader_log_chain tr t l1 l2 :
  replication_run tr → leader_log tr t l1 → leader_log tr t l2 →
  l1 `prefix_of` l2 ∨ l2 `prefix_of` l1.
Proof.
  intros Hrun (a1 & b1 & i1 & E1 & Hi1 & Hr1 & Ht1 & <-) (a2 & b2 & i2 & E2 & Hi2 & Hr2 & Ht2 & <-).
  assert (∀ a b c i j, tr = (a ++ b) ++ c → i ∈ C → j ∈ C → role_ (node i a) = leader →
    role_ (node j (a ++ b)) = leader → current_term (node i a) = current_term (node j (a ++ b)) →
    log_view (node i a) `prefix_of` log_view (node j (a ++ b))) as Hgrow.
  { intros a b c i j -> Hi Hj Hl1 Hl2 Ht. apply replication_prefix in Hrun.
    assert (i = j) as <- by (eapply (one_leader_per_term C init a b); [by apply replication_cluster|done..]).
    by apply office_log. }
  subst tr. apply app_eq_inv in E2 as [(k & -> & ->)|(k & -> & ->)].
  - right. eapply Hgrow; [reflexivity|done..|congruence].
  - left. eapply Hgrow; [by rewrite <-app_assoc|done..|congruence].
Qed.

Lemma leader_log_more tr tr' t l : leader_log tr t l → leader_log (tr ++ tr') t l.
Proof. intros (a & b & i & -> & Hi). exists a, (b ++ tr'), i. by rewrite app_assoc. Qed.

Lemma rooted_more tr tr' l : rooted (leader_log tr) l → rooted (leader_log (tr ++ tr')) l.
Proof.
  intros Hl k e Hk. destruct (Hl k e Hk) as (l' & Hl' & E). exists l'. split; [|done].
  by apply leader_log_more.
Qed.

(** ** Every log goes back to leaders *)

(** The request is a piece of a log of the leader of its term. *)
Definition sent_rooted (tr : list (Z * event)) (req : req_msg) : Prop :=
  ∃ l, leader_log tr (req_term req) l ∧ rooted (leader_log tr) l ∧ Forall stored l ∧ slice req l.

Lemma run_rooted tr i :
  replication_run tr → i ∈ C →
  rooted (leader_log tr) (log_view (node i tr)) ∧ Forall (sent_rooted tr) (sent_reqs (node i tr)).
Proof.
  intros Hrun. revert i. induction Hrun as [_ Hinit|tr j e Hrun IH Hc Ha]; intros i Hi.
  { destruct (Hinit i Hi) as (_ & Hv & Hq). unfold Cluster.node. cbn. rewrite Hv, Hq. by split. }
  assert (replication_run (tr ++ [(j, e)])) as Hrun' by by apply rep_step.
  assert (∀ k, k ∈ C → rooted (leader_log (tr ++ [(j, e)])) (log_view (node k tr)) ∧
    Forall (sent_rooted (tr ++ [(j, e)])) (sent_reqs (node k tr))) as IH'.
  { intros k Hk. destruct (IH k Hk) as [Hr Hs]. split; [by apply rooted_more|].
    eapply Forall_impl; [exact Hs|]. intros req (l & Hll & Hl & Hst & Hsl). exists l.
    split_and!; [by apply leader_log_more|by apply rooted_more|done..]. }
  clear IH. destruct (decide (i = j)) as [->|Hne]; [|rewrite node_other by done; by apply IH'].
  destruct (IH' j Hi) as [Hr Hs]. pose proof (run_in_service _ _ Hrun' Hi) as [[Hok' _ _ _ _ _] _].
  pose proof (run_deed _ _ _ Hrun') as Hd.
  set (w' := node j (tr ++ [(j, e)])) in *. set (w := node j tr) in *.
  destruct Hd as [[= Hl Hq]|n w1 [= Hl Hq] Hld Hled|req -> Hty Hm].
  - unfold log_view in *. by rewrite Hl, Hq.
  - destruct Hled as [_ _ (suf & Hv & _ & Hown) (rs & Hrs & Hof) [= Hrole Hst _]].
    assert (leader_log (tr ++ [(j, e)]) (current_term w') (log_view w')) as Hll.
    { exists (tr ++ [(j, e)]), [], j. rewrite app_nil_r. split_and!; [done..| |done|done].
      fold w'. rewrite Hrole. apply Hld. }
    assert (rooted (leader_log (tr ++ [(j, e)])) (log_view w')) as Hr'.
    { rewrite Hv. apply (rooted_appended _ _ _ (current_term w1)).
      - unfold log_view in *. by rewrite Hl.
      - rewrite <-Hv. replace (current_term w1) with (current_term w'); [done|]. unfold current_term. by rewrite Hst.
      - eapply Forall_impl; [exact Hown|]. by intros x [? _]. }
    split; [done|]. rewrite Hrs, Hq. apply Forall_app. split; [done|].
    eapply Forall_impl; [exact Hof|]. intros req (_ & Ht & Hsl). exists (log_view w').
    split_and!; [by rewrite Ht|done|by apply view_stored|done].
  - destruct Hm as [_ _ _ Hq _ [Hcont Hv]]. rewrite Hq. split; [|done]. rewrite Hv.
    destruct Ha as (_ & _ & Hsrc). destruct (Hsrc (or_introl Hty)) as (k & Hk & Hin).
    destruct (IH' k Hk) as [_ Hsk]. rewrite Forall_forall in Hsk.
    destruct (Hsk req Hin) as (l & _ & Hlr & Hst & Hsl).
    eapply merge_rooted; [intros t l1 l2; by apply leader_log_chain|done..].
Qed.

(** C2: log matching.  In any run of a cluster that replicates, whenever the
    logs of two servers, at the same or at different moments, have an entry of
    the same term at the same index, they are the same up to that entry. *)
Theorem log_matching (tr tr' : list (Z * event)) (i j : Z) (k : nat) (ei ej : log_entry) :
  replication_run (tr ++ tr') → i ∈ C → j ∈ C →
  log_view (node i tr) !! k = Some ei → log_view (node j (tr ++ tr')) !! k = Some ej →
  le_term ei = le_term ej →
  take (S k) (log_view (node i tr)) = take (S k) (log_view (node j (tr ++ tr'))).
Proof.
  intros Hrun Hi Hj Hki Hkj Ht.
  destruct (run_rooted tr i (replication_prefix _ _ Hrun) Hi) as [Hri%(rooted_more _ tr') _].
  destruct (run_rooted _ j Hrun Hj) as [Hrj _].
  eapply rooted_match; [|exact Hri|exact Hrj|done..]. intros t l1 l2. by apply leader_log_chain.
Qed.
End cluster.

#[local] Existing Instance zero_mem.

(** Server 1 of the three is elected, takes an entry from a client, and brings
    it to server 2 once that has answered the empty request of the election. *)
Definition beat : req_msg := mk_req_msg 1 append_entries_request 1 2 0 0 0 [].
Definition beat_ok : resp_msg := mk_resp_msg 1 append_entries_response 2 1 1 true.
Definition carry_hello : req_msg := mk_req_msg 1 append_entries_request 1 2 0 0 0 [hello].
Definition trio_replication : list (Z * event) :=
  trio_election ++
  [(1, say_hello); (2, EvRequest beat); (1, EvRpcResult 0 beat resp_handler (Some beat_ok));
   (2, EvRequest carry_hello)].

(** One more event of the run, checked by evaluation. *)
Lemma replication_extend (C : gset Z) (init : Z → sample_state) tr i e :
  replication_run C init tr → i ∈ C → deliverable C init tr i e → typed_event e →
  countable e (node init i tr) → is_ok (handle_event e (node init i tr)).1 = true →
  peer_set (node init i (tr ++ [(i, e)])) = C ∖ {[i]} → admissible C init tr i e →
  replication_run C init (tr ++ [(i, e)]).
Proof.
  intros Hr Hi Hd Ht Hc Hok Hp Ha. apply rep_step; [done| |done].
  apply run_step; try done; [by apply replication_cluster|]. rewrite node_same. constructor.
  intros u Hu. by rewrite Hu in Hok.
Qed.

Lemma trio_cases (P : Z → Prop) : P 1 → P 2 → P 3 → ∀ i, i ∈ trio → P i.
Proof.
  intros H1 H2 H3 i. unfold trio. rewrite !elem_of_union, !elem_of_singleton. by intros [[->| ->]| ->].
Qed.

Lemma trio_in_service : replication_run trio trio_start [].
Proof.
  constructor; [constructor; [vm_compute; congruence|]|]; apply trio_cases;
    [vm_compute; repeat split; reflexivity..| | |].
  all: lazymatch goal with |- in_service ?w ∧ _ =>
      assert (log_store_ w = mem_new) as Hl by (vm_compute; reflexivity);
      assert (log_view w = []) as Hv by (unfold log_view; by rewrite Hl);
      split; [split; [rewrite Hl; exists dummy_entry, []; apply mem_new_holds|
                      vm_compute; reflexivity|rewrite Hv; constructor|..]|split; [exact Hv|]] end;
    vm_compute; repeat split; congruence.
Qed.

(** Find a sent request by its place in the list. *)
Ltac sent_by j n := intros _; exists j; split; [vm_compute; reflexivity|];
  apply (list_elem_of_lookup_2 _ n); vm_compute; reflexivity.

Lemma trio_replicates : replication_run trio trio_start trio_replication.
Proof.
  apply (replication_extend _ _ [_; _; _; _; _; _] 2);
    [apply (replication_extend _ _ [_; _; _; _; _] 1);
    [apply (replication_extend _ _ [_; _; _; _] 2); [apply (replication_extend _ _ [_; _; _] 1);
    [apply (replication_extend _ _ [_; _] 1); [apply (replication_extend _ _ [_] 2);
    [apply (replication_extend _ _ [] 1); [apply trio_in_service|..]|..]|..]|..]|..]|..]|..];
    try lazymatch goal with
    | |- deliverable _ _ _ _ (EvRpcResult _ _ _ (Some vote_of_2)) =>
        intros _ _; exists [(1, EvTimer 1 true)], 2, ask_for_vote, []; repeat split;
        vm_compute; reflexivity
    | |- deliverable _ _ _ _ _ => cbn; intros; first [discriminate|vm_compute; reflexivity|exact I]
    | |- admissible _ _ _ _ (EvRequest beat) => split_and!; [discriminate|vm_compute; reflexivity|sent_by 1 1%nat]
    | |- admissible _ _ _ _ (EvRequest carry_hello) =>
        split_and!; [discriminate|vm_compute; reflexivity|sent_by 1 2%nat]
    | |- admissible _ _ _ _ say_hello =>
        split_and!; [intros _; repeat constructor; vm_compute; reflexivity || congruence
                    |vm_compute; reflexivity|by intros []]
    | |- admissible _ _ _ _ _ => split_and!; [done || (vm_compute; reflexivity)|vm_compute; reflexivity|
                                   done || (by intros [])]
    | |- _ = _ => vm_compute; reflexivity
    | |- _ => repeat split; vm_compute; congruence
    end.
Qed.

Lemma log_matching_witness :
  log_view (node trio_start 2 trio_replication) ≠ [] ∧
  take 1 (log_view (node trio_start 1 (take 4 trio_replication))) =
    take 1 (log_view (node trio_start 2 trio_replication)).
Proof.
  split; [vm_compute; congruence|].
  apply (log_matching trio trio_start (take 4 trio_replication) (drop 4 trio_replication) 1 2 0
    hello hello);
    [exact trio_replicates|vm_compute; reflexivity..].
Defined.
