(* ===== verification/Completeness.v ===== *)
(** * Leader completeness

    An entry that a majority of the cluster has stored in the term of its
    leader is in the log of every leader of a later term.  The argument is the
    one of the Raft paper: a later leader has the vote of a server that stored
    the entry, whose log was not ahead of the candidate's. *)

From S2P Require Import Prelude Buffer Config Messages LogStore StateMachine StateMgr Scheduler Peer Server Membership Requests Responses Samples Frames PeerSet Elections Cluster Replication LeaderLog Leading LogMatching.

Section ballots.
Context `{FreshMem} {LS SM : Type} `{!log_store LS} `{!state_machine SM}.
#[local] Abbreviation W := (raft_server LS SM).

(** ** Vote requests *)

Definition ballot_req (e : effect) : option req_msg :=
  match e with
  | ESend _ req resp_handler =>
      if bool_decide (req_type req = request_vote_request) then Some req else None
  | _ => None
  end.
Definition vote_reqs (w : W) : list req_msg := omap ballot_req (out w).

Lemma vote_reqs_emit e (w : W) :
  vote_reqs (w <| out ::= λ l, l ++ [e] |>) = vote_reqs w ++ option_list (ballot_req e).
Proof. unfold vote_reqs, update; cbn. rewrite omap_app. cbn. by destruct (ballot_req e). Qed.

#[local] Instance calm_vote_reqs : Calm (same vote_reqs).
Proof.
  intros e w He. unfold same. rewrite vote_reqs_emit.
  destruct e as [? ? []| | | | | | |]; cbn in *; try done; by rewrite app_nil_r.
Qed.

#[local] Hint Extern 1 (within ?R (emit _)) => (apply (calm_emit_other R); reflexivity) : within.
#[local] Hint Resolve quiet_fatal quiet_term_for_log quiet_create_sync_snapshot_req
  quiet_create_append_entries_req quiet_new_peer quiet_add_server quiet_remove_servers
  quiet_reconfigure quiet_commit_config_entry quiet_note_new_entry quiet_note_old_entry
  quiet_log_okay_for quiet_hear_from_leader quiet_send_ext quiet_handle_add_srv_req
  quiet_handle_rm_srv_req : within.

(** Replication asks for no votes. *)
Lemma create_append_no_vote r (w w' : W) req :
  create_append_entries_req r w = (Ok req, w') → req_type req ≠ request_vote_request.
Proof.
  unfold create_append_entries_req. rewrite bind_get. intros Hc.
  apply bind_inv_ok in Hc as (p & w1 & _ & Hc). apply bind_inv_ok in Hc as ([] & w2 & _ & Hc).
  apply bind_inv_ok in Hc as (q & w3 & _ & Hc). cbv zeta in Hc.
  destruct (_ <=? _); [by apply fatal_not_ok in Hc|]. destruct (_ && _).
  - unfold create_sync_snapshot_req in Hc. apply bind_inv_ok in Hc as (p1 & w4 & _ & Hc).
    rewrite bind_get in Hc. cbv zeta in Hc. apply bind_inv_ok in Hc as (snp & w5 & _ & Hc).
    apply bind_inv_ok in Hc as (p2 & w6 & _ & Hc). apply bind_inv_ok in Hc as (off & w7 & _ & Hc).
    apply bind_inv_ok in Hc as (d & w8 & _ & Hc). apply bind_inv_ok in Hc as ([n d'] & w9 & _ & Hc).
    destruct (_ <? _); [by apply fatal_not_ok in Hc|]. apply bind_inv_ok in Hc as (b & w10 & _ & Hc).
    by injection Hc as <- _.
  - apply bind_inv_ok in Hc as (t & w4 & _ & Hc). apply bind_inv_ok in Hc as (es & w5 & _ & Hc).
    by injection Hc as <- _.
Qed.

Lemma ballots_request_append_entries_to r :
  within (same vote_reqs) (request_append_entries_to (LS := LS) (SM := SM) r).
Proof.
  intros w. unfold request_append_entries_to. unfold get_peer. rewrite bind_assoc, bind_gets.
  destruct (find_peer r w) as [p|]; [|done]. rewrite bind_ret.
  destruct (make_busy p) as [[] p']; [|done].
  assert (∃ w1, set_peer r p' w = (Ok tt, w1) ∧ vote_reqs w1 = vote_reqs w) as (w1 & Hw1 & E1)
    by (destruct r; by eexists).
  rewrite (bind_step _ _ _ _ _ Hw1). unfold same. rewrite <-E1.
  assert (vote_reqs (create_append_entries_req r w1).2 = vote_reqs w1) as E2 by by_frame.
  destruct (create_append_entries_req r w1) as [[req|x|u] w2] eqn:Ec;
    [|by erewrite bind_throw by exact Ec|by erewrite bind_fault by exact Ec].
  rewrite (bind_step _ _ _ _ _ Ec). cbn [snd] in E2. rewrite <-E2.
  pose proof (create_append_no_vote _ _ _ _ Ec) as Hnv.
  unfold send_req, get_peer. rewrite !bind_assoc, bind_gets. destruct (find_peer r w2); [|done].
  rewrite bind_ret. unfold emit. rewrite bind_modify. cbn [mret M_ret snd]. rewrite vote_reqs_emit. cbn.
  by rewrite bool_decide_eq_false_2, app_nil_r.
Qed.
#[local] Hint Resolve ballots_request_append_entries_to : within.

Lemma ballots_commit i : within (same vote_reqs) (commit (LS := LS) (SM := SM) i).
Proof. unfold commit. within_solve ignored. Qed.
#[local] Hint Resolve ballots_commit : within.

Lemma ballots_request_append_entries :
  within (same vote_reqs) (request_append_entries (LS := LS) (SM := SM)).
Proof. unfold request_append_entries. within_solve ignored. Qed.
#[local] Hint Resolve ballots_request_append_entries : within.

Lemma ballots_become_leader : within (same vote_reqs) (become_leader (LS := LS) (SM := SM)).
Proof. unfold become_leader. within_solve ignored. Qed.
#[local] Hint Resolve ballots_become_leader : within.

Lemma ballots_write_entries i l : within (same vote_reqs) (write_entries (LS := LS) (SM := SM) i l).
Proof.
  assert (∀ i l, within (same vote_reqs) (overwrite_entries (LS := LS) (SM := SM) i l)) as H1
    by (intros j l'; revert j; induction l' as [|e l' IH]; intros j; cbn [overwrite_entries]; within_solve ignored).
  assert (∀ l, within (same vote_reqs) (append_new_entries (LS := LS) (SM := SM) l)) as H2
    by (intros l'; induction l' as [|e l' IH]; cbn [append_new_entries]; within_solve ignored).
  unfold write_entries. within_solve ignored.
Qed.

Lemma ballots_append_client_entries l :
  within (same vote_reqs) (append_client_entries (LS := LS) (SM := SM) l).
Proof. induction l as [|e l IH]; cbn [append_client_entries]; within_solve ignored. Qed.
#[local] Hint Resolve ballots_write_entries ballots_append_client_entries : within.

Lemma ballots_become_follower : within (same vote_reqs) (become_follower (LS := LS) (SM := SM)).
Proof. unfold become_follower. within_solve ignored. Qed.
#[local] Hint Resolve ballots_become_follower : within.

Lemma ballots_update_term t : within (same vote_reqs) (update_term (LS := LS) (SM := SM) t).
Proof. unfold update_term. within_solve ignored. Qed.
#[local] Hint Resolve ballots_update_term : within.

Lemma ballots_dispatch req : within (same vote_reqs) (dispatch (LS := LS) (SM := SM) req).
Proof.
  unfold dispatch, handle_extended_msg. destruct (req_type req);
    unfold handle_append_entries, handle_vote_req, handle_cli_req, handle_log_sync_req, handle_join_cluster_req,
      handle_leave_cluster_req, handle_install_snapshot_req, handle_snapshot_sync_req, install_snapshot;
    within_solve ignored.
Qed.
#[local] Hint Resolve ballots_dispatch : within.

Lemma ballots_process_req req (w : W) : vote_reqs (process_req req w).2 = vote_reqs w.
Proof. rewrite process_req_dispatch. destruct (is_raft_rpc _); by_frame. Qed.

Lemma ballots_handle_voting_resp r : within (same vote_reqs) (handle_voting_resp (LS := LS) (SM := SM) r).
Proof. unfold handle_voting_resp. within_solve ignored. Qed.
Lemma ballots_handle_append_entries_resp r :
  within (same vote_reqs) (handle_append_entries_resp (LS := LS) (SM := SM) r).
Proof. unfold handle_append_entries_resp. within_solve ignored. Qed.
Lemma ballots_handle_install_snapshot_resp r :
  within (same vote_reqs) (handle_install_snapshot_resp (LS := LS) (SM := SM) r).
Proof. unfold handle_install_snapshot_resp. within_solve ignored. Qed.
#[local] Hint Resolve ballots_handle_voting_resp ballots_handle_append_entries_resp
  ballots_handle_install_snapshot_resp : within.

Lemma ballots_handle_rpc_result obj req r :
  within (same vote_reqs) (handle_rpc_result (LS := LS) (SM := SM) obj req resp_handler r).
Proof. unfold handle_rpc_result, handle_peer_resp. within_solve ignored. Qed.

Lemma ballots_commit_event : within (same vote_reqs) (handle_event (LS := LS) (SM := SM) EvCommit).
Proof. cbn [handle_event]. unfold commit_one, snapshot_and_compact, take_snapshot, on_snapshot_completed. within_solve ignored. Qed.

(** ** Standing for election *)

Context `{!log_store_laws LS} `{!state_machine_laws SM}.

(** The term of the last entry. *)
Definition last_term (l : list log_entry) : Z :=
  match last l with Some e => le_term e | None => 0 end.

(** The request describes the server's log. *)
Definition describes (w : W) (req : req_msg) : Prop :=
  req_type req = request_vote_request ∧ req_term req = current_term w ∧ req_src req = id_ w ∧
  req_last_log_idx req = Z.of_nat (length (log_view w)) ∧ req_last_log_term req = last_term (log_view w).

Lemma describes_same w w' req :
  same (λ w, (log_store_ w, state_ w, id_ w)) w w' → describes w req → describes w' req.
Proof.
  intros [= Hl Hs Hi]. unfold describes, current_term, log_view. by rewrite Hl, Hs, Hi.
Qed.

(** Code that sends requests describing the log, and leaves log and term. *)
Definition canvass : relation W := λ w w',
  log_ok (log_store_ w) → start_index_ w = 1 →
  same (λ w, (log_store_ w, state_ w, id_ w)) w w' ∧
  ∃ rs, vote_reqs w' = vote_reqs w ++ rs ∧ Forall (describes w) rs.
#[local] Instance canvass_preorder : PreOrder canvass.
Proof.
  split; unfold canvass.
  - intros w _ _. split; [done|]. exists []. by rewrite app_nil_r.
  - intros w1 w2 w3 H12 H23 Hok Hst. destruct (H12 Hok Hst) as [Hs (r1 & E1 & F1)].
    pose proof Hs as [= Hl _ _]. destruct H23 as [Hs' (r2 & E2 & F2)];
      [congruence|unfold start_index_ in *; congruence|]. split; [congruence|].
    exists (r1 ++ r2). rewrite E2, E1, app_assoc. split; [done|]. apply Forall_app. split; [done|].
    eapply Forall_impl; [exact F2|]. intros req. by apply describes_same.
Qed.

Lemma canvass_frame {A} (m : M W A) :
  within (same (λ w, (log_store_ w, state_ w, id_ w))) m → within (same vote_reqs) m → within canvass m.
Proof.
  intros H1 H2 w _ _. split; [apply H1|]. exists []. rewrite app_nil_r. split; [apply H2|done].
Qed.

(** The last index and its term. *)
Lemma last_log_term (w : W) :
  log_ok (log_store_ w) → start_index_ w = 1 →
  u64 (next_slot_ w - 1) = Z.of_nat (length (log_view w)) ∧
  term_for_log (u64 (next_slot_ w - 1)) w = (Ok (last_term (log_view w)), w).
Proof.
  intros Hok Hst. pose proof (next_slot_spec _ Hok) as Hn. pose proof (log_bounds _ Hok) as Hb.
  unfold next_slot_, start_index_, log_view in *. rewrite u64_small by (unfold is_u64; lia).
  replace (next_slot (log_store_ w) - 1) with (Z.of_nat (length (view (log_store_ w)))) by lia.
  split; [done|]. destruct (view (log_store_ w)) as [|e l] eqn:Ev using rev_ind.
  { rewrite term_for_log_spec by (done || (cbn; lia)). done. }
  clear IHl. destruct (term_before w (Z.of_nat (length (l ++ [e])))) as (t & Ht & _ & Hterm);
    [done|done|unfold next_slot_; lia|]. rewrite Ht. f_equal. f_equal.
  unfold log_view in Hterm. rewrite Ev, Nat2Z.id, length_app in Hterm. cbn in Hterm.
  specialize (Hterm ltac:(lia)). replace (pred (length l + 1)) with (length l) in Hterm by lia.
  rewrite list_lookup_middle in Hterm by done. injection Hterm as <-. unfold last_term. by rewrite last_snoc.
Qed.

Lemma canvass_one i : within canvass (
  p ← get_peer (PeerOf i);
  last ← gets (λ w, u64 (next_slot_ w - 1));
  t ← term_for_log last;
  w ← gets id;
  send_req (PeerOf i)
    (mk_req_msg (current_term w) request_vote_request (id_ w) (p_id p) t last (quick_commit_idx_ w) [])
    resp_handler).
Proof.
  apply within_get_peer_then; [apply _|]. intros w p Hp Hok Hst. rewrite bind_gets.
  destruct (last_log_term w Hok Hst) as [Hi Ht]. rewrite (bind_step _ _ _ _ _ Ht), bind_get.
  unfold send_req, get_peer. rewrite bind_assoc, bind_gets, Hp, bind_ret. split; [done|].
  eexists [_]. unfold emit, modify. cbn [snd]. rewrite vote_reqs_emit. cbn [ballot_req option_list].
  split; [reflexivity|]. apply Forall_singleton. unfold describes; cbn. by rewrite Hi.
Qed.
(** ** The vote requests of one event *)

(** Nothing is asked for, or the log is described to the others. *)
Definition campaign (w w' : W) : Prop :=
  vote_reqs w' = vote_reqs w ∨
  ∃ w1, same (λ w, (log_store_ w, vote_reqs w)) w w1 ∧ canvass w1 w'.

Lemma campaign_before w w1 w' :
  same (λ w, (log_store_ w, vote_reqs w)) w w1 → campaign w1 w' → campaign w w'.
Proof.
  intros Hs [Hv|(w2 & Hs2 & Hc)]; [left; unfold same in Hs; congruence|].
  right. exists w2. split; [|done]. unfold same in *. congruence.
Qed.

Lemma campaign_after w w1 w' :
  campaign w w1 → same (λ w, (log_store_ w, state_ w, id_ w)) w1 w' → vote_reqs w' = vote_reqs w1 →
  campaign w w'.
Proof.
  intros [Hv|(w2 & Hs2 & Hc)] Hs Hv'; [left; congruence|right]. exists w2. split; [done|].
  etrans; [exact Hc|]. intros _ _. split; [done|]. exists []. by rewrite app_nil_r.
Qed.

Lemma campaign_request_vote (w : W) : campaign w (request_vote w).2.
Proof.
  unfold request_vote. rewrite bind_gets, bind_modify. set (w0 := update state_ _ w).
  apply (campaign_before w w0); [done|]. generalize (id_ w) as self. intros self. clearbody w0. clear w.
  assert (same (λ w, (log_store_ w, vote_reqs w)) w0 (persist_state w0).2) as Hs by by_frame.
  match goal with |- context [(persist_state ≫= ?k) w0] =>
    destruct (bind_cases persist_state k w0) as [([] & _ & ->)|[_ ->]] end; [|left; unfold same in Hs; congruence].
  apply (campaign_before _ _ _ Hs). generalize (persist_state w0).2. clear. intros w.
  rewrite !bind_modify, bind_get. match goal with |- campaign _ ((if ?b then _ else _) ?w2).2 =>
    set (w' := w2) end.
  apply (campaign_before w w'); [done|]. destruct (_ <? _).
  - left. rewrite bind_modify. etrans; [apply ballots_become_leader|done].
  - right. exists w'. split; [done|]. apply within_for_each; [apply _|]. intros i. apply canvass_one.
Qed.

Lemma campaign_election_timeout (w : W) : campaign w (handle_election_timeout w).2.
Proof.
  destruct (election_timeout_cases w) as [[_ ->]|[Hst _]].
  - apply (campaign_before w (candidate_state w)); [done|]. generalize (candidate_state w). clear w.
    intros w. unfold run_for_leader.
    assert (same (λ w, (log_store_ w, vote_reqs w)) w (persist_state w).2) as Hs by by_frame.
    match goal with |- context [(persist_state ≫= ?k) w] =>
      destruct (bind_cases persist_state k w) as [([] & _ & ->)|[_ ->]] end; [|left; unfold same in Hs; congruence].
    apply (campaign_before _ _ _ Hs). generalize (persist_state w).2. clear. intros w.
    pose proof (campaign_request_vote w) as Hc.
    match goal with |- context [(request_vote ≫= ?k) w] =>
      destruct (bind_cases request_vote k w) as [([] & _ & ->)|[_ ->]] end; [|done].
    apply (campaign_after _ _ _ Hc); [by_frame|]. by_frame.
  - left. unfold stands_for_election, handle_election_timeout in *. rewrite bind_get.
    destruct (0 <? steps_to_down_ w); [by_frame|]. destruct (catching_up_ w); [by_frame|].
    destruct (bool_decide (role_ w = leader)); [by_frame|done].
Qed.

Lemma campaign_timer uid b (w : W) : campaign w (timer_expired uid b w).2.
Proof.
  unfold timer_expired. rewrite bind_get. destruct (expired uid b (scheduler_ w)) as [[t []]|]; cbn [run_task].
  - apply campaign_election_timeout.
  - left. unfold handle_hb_timeout. by_frame.
  - left. unfold on_retryable_req_err. by_frame.
  - by left.
Qed.

Lemma step_campaign e (w : W) : plain e → campaign w (handle_event e w).2.
Proof.
  intros Hp. destruct e as [req|obj req h result|uid success| |now].
  - left. cbn [handle_event]. pose proof (ballots_process_req req w) as Hv.
    by destruct (bind_cases (process_req req) (λ _, mret tt) w) as [(a & _ & ->)|[_ ->]].
  - left. cbn in Hp. subst h. apply ballots_handle_rpc_result.
  - apply campaign_timer.
  - left. apply ballots_commit_event.
  - by left.
Qed.

(** The new vote requests of an event describe the log it leaves. *)
Lemma step_ballots e (w : W) :
  plain e → log_ok (log_store_ w) → start_index_ w = 1 →
  ∃ rs, vote_reqs (handle_event e w).2 = vote_reqs w ++ rs ∧ Forall (describes (handle_event e w).2) rs.
Proof.
  intros Hp Hok Hst. destruct (step_campaign e w Hp) as [->|(w1 & [= Hl Hv] & Hc)].
  { exists []. by rewrite app_nil_r. }
  destruct Hc as [Hs (rs & -> & Hd)]; [congruence|unfold start_index_ in *; congruence|].
  exists rs. rewrite Hv. split; [done|]. eapply Forall_impl; [exact Hd|]. intros req. by apply describes_same.
Qed.
(** ** A vote and the voter's log *)

Lemma last_entry_term (w : W) :
  log_ok (log_store_ w) → start_index_ w = 1 →
  ∃ e, last_entry (log_store_ w) = Ok e ∧ le_term e = last_term (log_view w).
Proof.
  intros Hok Hst. pose proof (next_slot_spec _ Hok) as Hn. unfold start_index_, log_view in *.
  destruct (entry_at_view (log_store_ w) (next_slot (log_store_ w) - 1) Hok) as (e & He & Ht & _); [lia|].
  exists e. rewrite last_entry_spec by done. split; [done|]. rewrite Ht. unfold term_view, entry_view.
  rewrite Hn, Hst. destruct (view (log_store_ w)) as [|x l _] eqn:Ev using rev_ind; [done|].
  rewrite length_app, Nat2Z.inj_add. cbn [length]. destruct (Z.ltb_spec (1 + (Z.of_nat (length l) + Z.of_nat 1) - 1) 1);
    [lia|]. replace (Z.to_nat _) with (length l) by lia. unfold last_term. by rewrite list_lookup_middle, last_snoc.
Qed.

(** A granted vote: the candidate's log is not behind. *)
Lemma granted_up_to_date req (w w' : W) resp :
  req_type req = request_vote_request → process_req req w = (Ok resp, w') → resp_accepted resp = true →
  log_ok (log_store_ w) → start_index_ w = 1 →
  up_to_date req (last_term (log_view w)) (Z.of_nat (length (log_view w))) = true.
Proof.
  intros Hty Hp Ha Hok Hst. unfold process_req in Hp. rewrite Hty in Hp. cbn [is_raft_rpc when] in Hp.
  apply bind_inv_ok in Hp as ([] & w1 & Hu & Hp).
  assert (log_store_ w1 = log_store_ w) as Hl.
  { eapply (within_elim (same log_store_)); [|exact Hu]. within_solve ignored. }
  unfold start_index_, log_view in *. rewrite <-Hl in *.
  destruct (last_entry_term w1 Hok Hst) as (e & He & Ht). destruct (last_log_term w1 Hok Hst) as [Hi _].
  rewrite (handle_vote_req_spec req w1 e He) in Hp. unfold log_view in *.
  destruct (grants req (le_term e) w1) eqn:Hg; [|by injection Hp as <- _].
  apply andb_true_iff in Hg as [[_ Hud]%andb_true_iff _]. by rewrite Hi, Ht in Hud.
Qed.
End ballots.

(** ** Ordered logs *)

(** Terms do not decrease along the log, and none is above [t]. *)
Definition ordered (t : Z) (l : list log_entry) : Prop :=
  (∀ j k ej ek, (j ≤ k)%nat → l !! j = Some ej → l !! k = Some ek → le_term ej ≤ le_term ek) ∧
  Forall (λ e, le_term e ≤ t) l.

Lemma ordered_weaken t t' l : t ≤ t' → ordered t l → ordered t' l.
Proof. intros Ht [Ho Hf]. split; [done|]. eapply Forall_impl; [exact Hf|]. cbn. lia. Qed.

Lemma ordered_take t l n : ordered t l → ordered t (take n l).
Proof.
  intros [Ho Hf]. split; [|by apply Forall_take].
  intros j k ej ek Hjk [Hj _]%lookup_take_Some [Hk _]%lookup_take_Some. by eapply Ho.
Qed.

(** What a leader appends is of its term. *)
Lemma ordered_appended t l suffix :
  ordered t l → Forall (λ e, le_term e = t) suffix → ordered t (l ++ suffix).
Proof.
  intros [Ho Hf] Hs. rewrite Forall_lookup in Hf, Hs. split.
  - intros j k ej ek Hjk [Hj|[Hgj Hj]]%lookup_app_Some [Hk|[Hgk Hk]]%lookup_app_Some.
    + by eapply Ho.
    + rewrite (Hs _ _ Hk). by eapply Hf.
    + apply lookup_lt_Some in Hk. lia.
    + by rewrite (Hs _ _ Hj), (Hs _ _ Hk).
  - apply Forall_app. split; apply Forall_lookup; [done|]. intros k e Hk. by rewrite (Hs _ _ Hk).
Qed.

Lemma ordered_last t l k e : ordered t l → l !! k = Some e → le_term e ≤ last_term l ≤ t.
Proof.
  intros [Ho Hf] Hk. unfold last_term. pose proof (lookup_lt_Some _ _ _ Hk). rewrite last_lookup.
  destruct (l !! pred (length l)) as [x|] eqn:Hx; [|apply lookup_ge_None in Hx; lia].
  rewrite Forall_lookup in Hf. split; [|by eapply Hf]. eapply (Ho k (pred (length l))); [lia|done..].
Qed.

Lemma last_term_lookup l k : (k < length l)%nat → ∃ e, l !! pred (length l) = Some e ∧ le_term e = last_term l.
Proof.
  intros Hk. destruct (l !! pred (length l)) as [x|] eqn:Hx; [|apply lookup_ge_None in Hx; lia].
  exists x. split; [done|]. unfold last_term. by rewrite last_lookup, Hx.
Qed.

(** A merge keeps what the sender's log agrees with. *)
Lemma merge_keeps (E l0 l : list log_entry) p es :
  E `prefix_of` l0 → l `prefix_of` E ∨ E `prefix_of` l → (p ≤ length l0)%nat → es `prefix_of` drop p l →
  E `prefix_of` take p l0 ++ merge_entries (drop p l0) es.
Proof.
  intros [r Hr] Hag. revert p. induction es as [|e es IH]; intros p Hp [s Hs].
  { cbn [merge_entries]. rewrite take_drop. by exists r. }
  assert (l !! p = Some e) as He by (rewrite <-(Nat.add_0_r p), <-lookup_drop, Hs; done).
  assert (∀ x, (length E ≤ p)%nat → E `prefix_of` take p l0 ++ x) as Hfar.
  { intros x Hpk. rewrite Hr, take_app_ge by done. rewrite <-app_assoc. by eexists. }
  cbn [merge_entries]. destruct (drop p l0) as [|o old] eqn:Ed.
  { apply Hfar. apply (f_equal length) in Ed. rewrite length_drop, Hr, length_app in *. cbn in Ed. lia. }
  assert (l0 !! p = Some o) as Ho by (rewrite <-(Nat.add_0_r p), <-lookup_drop, Ed; done).
  destruct (Z.eqb_spec (le_term o) (le_term e)) as [Ht|Hne].
  - assert (drop (S p) l0 = old) as Ed' by (by rewrite <-Nat.add_1_r, <-drop_drop, Ed).
    specialize (IH (S p)). rewrite Ed', (take_S_r _ _ _ Ho), <-app_assoc in IH.
    apply IH; [by eapply lookup_lt_Some|]. exists s. by rewrite <-Nat.add_1_r, <-drop_drop, Hs.
  - apply Hfar. destruct (decide (p < length E)%nat) as [Hlt|]; [|lia]. exfalso. apply Hne.
    rewrite Hr, lookup_app_l in Ho by done. destruct Hag as [[q ->]|[q ->]].
    + rewrite (lookup_app_l_Some _ _ _ _ He) in Ho. congruence.
    + rewrite lookup_app_l in He by done. congruence.
Qed.

(** ** The voter's log and the candidate's *)

Section voters.
(** The logs of the leaders of each term. *)
Context (leader_log : Z → list log_entry → Prop).
Context (Hchain : ∀ t l1 l2, leader_log t l1 → leader_log t l2 →
  l1 `prefix_of` l2 ∨ l2 `prefix_of` l1).

Lemma rooted_last l k :
  rooted leader_log l → (k < length l)%nat → ∃ l', leader_log (last_term l) l' ∧ l `prefix_of` l'.
Proof.
  intros Hr Hk. destruct (last_term_lookup l k Hk) as (e & He & <-).
  destruct (Hr _ _ He) as (l' & Hl' & Ht). exists l'. split; [done|].
  rewrite (take_ge l) in Ht by lia. rewrite <-Ht. apply prefix_take.
Qed.

(** The log of the candidate is at least as up to date as the voter's. *)
Definition not_behind (l voter : list log_entry) : Prop :=
  last_term voter < last_term l ∨
  (last_term l = last_term voter ∧ (length voter ≤ length l)%nat).

(** Two logs of one chain. *)
Lemma chain_total l1 l2 l1' l2' t :
  leader_log t l1' → leader_log t l2' → l1 `prefix_of` l1' → l2 `prefix_of` l2' →
  l1 `prefix_of` l2 ∨ l2 `prefix_of` l1.
Proof.
  intros H1 H2 Hp1 Hp2. destruct (Hchain _ _ _ H1 H2).
  - eapply prefix_weak_total; [|exact Hp2]. by etrans.
  - eapply prefix_weak_total; [exact Hp1|]. by etrans.
Qed.

(** If the voter's log begins with [E], and so do those of the leaders after
    the term of its last entry, so does the candidate's. *)
Lemma candidate_has E voter l t :
  E ≠ [] → 0 ≤ last_term E → E `prefix_of` voter → not_behind l voter →
  rooted leader_log voter → rooted leader_log l → ordered t voter →
  (∀ V l', last_term E < V → V ≤ last_term l → leader_log V l' → E `prefix_of` l') →
  E `prefix_of` l.
Proof.
  intros Hne H0 HE Hnb Hrv Hrl Hov Hlater.
  assert (0 < length E)%nat as HlE by (destruct E; [done|cbn; lia]).
  destruct (last_term_lookup E 0 HlE) as (e & He & HeT).
  assert (last_term E ≤ last_term voter) as Hts.
  { rewrite <-HeT. eapply ordered_last; [exact Hov|]. by eapply prefix_lookup_Some. }
  pose proof (prefix_length _ _ HE) as Hlv. destruct Hnb as [Hlt|[Heq Hlen]].
  - assert (0 < length l)%nat as Hll by (destruct l; [cbn in Hlt; lia|cbn; lia]).
    destruct (rooted_last l 0 Hrl Hll) as (l' & Hl' & Hp).
    assert (E `prefix_of` l') as HE' by (eapply (Hlater (last_term l)); [lia|done..]).
    destruct (prefix_weak_total _ _ _ Hp HE') as [HlE'|]; [|done]. exfalso.
    destruct (last_term_lookup l 0 Hll) as (x & Hx & Hxt).
    assert (ordered t E) as HoE by (destruct HE as [r ->]; rewrite <-(take_app_length E r); by apply ordered_take).
    destruct (ordered_last _ _ _ _ HoE (prefix_lookup_Some _ _ _ _ Hx HlE')). lia.
  - destruct (rooted_last voter 0 Hrv) as (lv & Hlv' & Hpv); [lia|].
    destruct (rooted_last l 0 Hrl) as (ll & Hll' & Hpl); [lia|]. rewrite Heq in Hll'.
    destruct (chain_total _ _ _ _ _ Hlv' Hll' Hpv Hpl) as [Hv|Hv]; [by etrans|].
    by rewrite (prefix_length_eq _ _ Hv) by lia.
Qed.
End voters.

(** ** A cluster that elects and replicates *)

Section cluster.
Context `{FreshMem} {LS SM : Type} `{!log_store LS} `{!state_machine SM}.
Context `{!log_store_laws LS} `{!state_machine_laws SM}.
#[local] Abbreviation W := (raft_server LS SM).
Context (C : gset Z) (init : Z → W).
#[local] Abbreviation node := (node init).
#[local] Abbreviation replication_run := (replication_run C init).
#[local] Abbreviation leader_log := (leader_log C init).

(** A run in which the vote requests, too, are ones a server sent. *)
Inductive raft_run : list (Z * event) → Prop :=
  | raft_start :
      replication_run [] → (∀ i, i ∈ C → vote_reqs (init i) = []) → raft_run []
  | raft_step tr i e :
      raft_run tr → replication_run (tr ++ [(i, e)]) →
      (∀ req, e = EvRequest req → req_type req = request_vote_request →
         ∃ j, j ∈ C ∧ req ∈ vote_reqs (node j tr)) →
      raft_run (tr ++ [(i, e)]).

Lemma raft_replication tr : raft_run tr → replication_run tr.
Proof. by destruct 1. Qed.

Lemma raft_snoc tr i e :
  raft_run (tr ++ [(i, e)]) → raft_run tr ∧ ∀ req, e = EvRequest req →
    req_type req = request_vote_request → ∃ j, j ∈ C ∧ req ∈ vote_reqs (node j tr).
Proof.
  intros Hrun. inversion Hrun as [? ? E|tr0 i0 e0 Hr Hc Ha E]; [by destruct tr|].
  by apply app_inj_tail in E as [-> [= -> ->]].
Qed.

Lemma raft_prefix tr1 tr2 : raft_run (tr1 ++ tr2) → raft_run tr1.
Proof.
  induction tr2 as [|[i e] tr2 IH] using rev_ind; [by rewrite app_nil_r|].
  rewrite app_assoc. intros [Hr _]%raft_snoc. auto.
Qed.

(** What makes an event the next of a run, apart from the run itself. *)
Record may_follow (tr : list (Z * event)) (i : Z) (e : event) : Prop := {
  mf_member : i ∈ C;
  mf_deliverable : deliverable C init tr i e;
  mf_typed : typed_event e;
  mf_countable : countable e (node i tr);
  mf_ok : is_ok (handle_event e (node i tr)).1 = true;
  mf_peers : peer_set (handle_event e (node i tr)).2 = C ∖ {[i]};
  mf_admissible : admissible C init tr i e;
  mf_asked : ∀ req, e = EvRequest req → req_type req = request_vote_request →
    ∃ j, j ∈ C ∧ req ∈ vote_reqs (node j tr);
}.

Lemma raft_run_steps tr :
  raft_run [] → (∀ n i e, tr !! n = Some (i, e) → may_follow (take n tr) i e) →
  raft_run tr.
Proof.
  intros H0. induction tr as [|[i e] tr IH] using rev_ind; intros Hsteps; [done|].
  assert (raft_run tr) as Hr.
  { apply IH. intros n j x Hn. rewrite <-(take_app_le tr [(i, e)]) by (apply lookup_lt_Some in Hn; lia).
    by apply Hsteps, lookup_app_l_Some. }
  destruct (Hsteps (length tr) i e) as [Hi Hd Hty Hc Hok Hp Ha Hq]; [by rewrite list_lookup_middle|].
  rewrite take_app_length in *. apply raft_step; [done| |done]. apply rep_step; [by apply raft_replication| |done].
  apply run_step; [by apply replication_cluster, raft_replication|done..| |by rewrite node_same].
  rewrite node_same. constructor. intros u Hu. by rewrite Hu in Hok.
Qed.

(** The vote that arrives was given when the last event happened. *)
Lemma vote_given_before tr m j req i resp :
  tr !! m = Some (j, EvRequest req) → req_type req = request_vote_request → req_src req = i →
  (process_req req (node j (take m tr))).1 = Ok resp → vote_given init tr i resp.
Proof.
  intros Hm Hty Hs Hr. exists (take m tr), j, req, (drop (S m) tr). split_and!; [|done..].
  by rewrite take_drop_middle.
Qed.
(** A vote request describes the log its sender had in that term. *)
Lemma run_described tr j req :
  raft_run tr → j ∈ C → req ∈ vote_reqs (node j tr) →
  ∃ tr1 tr2, tr = tr1 ++ tr2 ∧ describes (node j tr1) req.
Proof.
  intros Hrun Hj. induction Hrun as [_ Hinit|tr i e Hrun IH Hc Ha]; intros Hin.
  { unfold Cluster.node in Hin. cbn in Hin. rewrite (Hinit j Hj) in Hin. by apply elem_of_nil in Hin. }
  assert (req ∈ vote_reqs (node j tr) →
    ∃ tr1 tr2, tr ++ [(i, e)] = tr1 ++ tr2 ∧ describes (node j tr1) req) as Hold.
  { intros (a & b & -> & Hd)%IH. exists a, (b ++ [(i, e)]). by rewrite app_assoc. }
  destruct (decide (j = i)) as [->|Hne]; [|rewrite node_other in Hin by done; auto].
  destruct (replication_snoc _ _ _ _ _ Hc) as (Hr & _ & (Hp & _) & _).
  destruct (run_in_service _ _ _ _ Hr Hj) as [[Hok Hst _ _ _ _] _].
  rewrite node_same in Hin. destruct (step_ballots e (node i tr)) as (rs & E & Hd); [done..|].
  rewrite E, elem_of_app in Hin. destruct Hin as [Hin|Hin]; [auto|].
  rewrite Forall_forall in Hd. exists (tr ++ [(i, e)]), []. rewrite app_nil_r, node_same. auto.
Qed.

(** ** One event at a server of the run *)

(** The log grows by entries of the term, or takes over those of the leader of
    the term. *)
Inductive log_step (tr : list (Z * event)) (w w' : W) : Prop :=
  | log_grows suffix :
      log_view w' = log_view w ++ suffix → Forall (λ x, le_term x = current_term w') suffix →
      log_step tr w w'
  | log_adopts l p es :
      leader_log tr (current_term w') l → (p ≤ length (log_view w))%nat → es `prefix_of` drop p l →
      log_view w' = take p (log_view w) ++ merge_entries (drop p (log_view w)) es →
      (log_view w' = log_view w ∨ ∃ n, log_view w' = take n l) →
      log_step tr w w'.

Lemma run_log_step tr i e :
  replication_run (tr ++ [(i, e)]) → log_step tr (node i tr) (node i (tr ++ [(i, e)])).
Proof.
  intros Hrun. destruct (replication_snoc _ _ _ _ _ Hrun) as (Hr & Hi & Ha & _).
  destruct (run_deed _ _ _ _ _ Hrun) as [[= Hl _]|n w1 [= Hl _] _ Hled|req -> Hty Hm].
  - apply (log_grows _ _ _ []); [|done]. unfold log_view. by rewrite Hl, app_nil_r.
  - destruct Hled as [_ _ (l & Hv & _ & Hown) _ [= _ Hst _]]. apply (log_grows _ _ _ l).
    + rewrite Hv. unfold log_view. by rewrite Hl.
    + eapply Forall_impl; [exact Hown|]. intros x [Ht _]. rewrite Ht. unfold current_term. by rewrite Hst.
  - destruct Hm as [_ _ _ _ Htm [Hcont Hv]]. destruct Ha as (_ & _ & Hsrc).
    destruct (Hsrc (or_introl Hty)) as (k & Hk & Hin).
    destruct (run_rooted _ _ tr k Hr Hk) as [_ Hsk]. rewrite Forall_forall in Hsk.
    destruct (Hsk req Hin) as (l & Hll & Hlr & Hst & Hsl).
    destruct (run_rooted _ _ tr i Hr Hi) as [Hri _].
    pose proof Hsl as (p & Hp & _ & _ & Hes). pose proof Hcont as (Hp' & Hlen & _).
    apply (log_adopts _ _ _ l (Z.to_nat (req_last_log_idx req)) (req_log_entries req));
      [by rewrite Htm|done|by rewrite Hp, Nat2Z.id|done|]. rewrite Hv.
    eapply (merge_cases (leader_log tr)); [|done..]. intros t l1 l2. by apply leader_log_chain.
Qed.

Lemma run_term tr1 tr2 i :
  replication_run (tr1 ++ tr2) → current_term (node i tr1) ≤ current_term (node i (tr1 ++ tr2)).
Proof. intros Hrun. by apply (run_tenure C). Qed.

(** Terms along a log do not decrease. *)
Lemma run_ordered tr i :
  replication_run tr → i ∈ C → ordered (current_term (node i tr)) (log_view (node i tr)).
Proof.
  remember (length tr) as n eqn:Hn. revert tr Hn i. induction (lt_wf n) as [n _ IH].
  intros tr -> i Hrun Hi. destruct tr as [|[j e] tr _] using rev_ind.
  { inversion Hrun as [_ Hinit|? ? ? ? ? ? E]; [|by destruct tr].
    destruct (Hinit i Hi) as (_ & Hv & _). unfold Cluster.node. cbn. rewrite Hv. by split. }
  destruct (replication_snoc _ _ _ _ _ Hrun) as (Hr & Hj & _).
  assert (∀ tr1 tr2 k, tr = tr1 ++ tr2 → k ∈ C → ordered (current_term (node k tr1)) (log_view (node k tr1))) as Hall.
  { intros a b k -> Hk. eapply IH; [|reflexivity|by eapply replication_prefix|done]. rewrite !length_app. cbn. lia. }
  pose proof (Hall tr [] i ltac:(by rewrite app_nil_r) Hi) as Ho.
  destruct (decide (i = j)) as [->|Hne]; [|by rewrite node_other by done].
  apply (ordered_weaken _ _ _ (run_term _ _ _ Hrun)) in Ho.
  destruct (run_log_step _ _ _ Hrun) as [l Hv Hown|l p es Hll _ _ _ [->|[n ->]]]; [|done|].
  - rewrite Hv. by apply ordered_appended.
  - destruct Hll as (a & b & k & Htr & Hk & _ & <- & <-). apply ordered_take. by eapply Hall.
Qed.

(** ** The first moment of a term of office *)

(** No server has led term [t] before. *)
Definition unled (t : Z) (tr : list (Z * event)) : Prop :=
  ∀ tr1 x tr2 l, tr = tr1 ++ x :: tr2 → ¬ leader_log tr1 t l.

Lemma unled_prefix t tr1 tr2 : unled t (tr1 ++ tr2) → unled t tr1.
Proof. intros Hu a x b l ->. apply (Hu a x (b ++ tr2)). by rewrite <-app_assoc. Qed.

Lemma unled_snoc t tr x : (∀ l, ¬ leader_log tr t l) → unled t (tr ++ [x]).
Proof.
  intros Hn a y b l E Hl. destruct b as [|z b _] using rev_ind.
  - apply app_inj_tail in E as [-> _]. by eapply Hn.
  - rewrite app_comm_cons, app_assoc in E. apply app_inj_tail in E as [-> _].
    by eapply Hn, leader_log_more.
Qed.

Lemma first_leader tr t :
  replication_run tr →
  (∀ l, ¬ leader_log tr t l) ∨
  ∃ tr1 tr2 i, tr = tr1 ++ tr2 ∧ unled t tr1 ∧ i ∈ C ∧
    role_ (node i tr1) = leader ∧ current_term (node i tr1) = t.
Proof.
  induction tr as [|[j e] tr IH] using rev_ind; intros Hrun.
  { left. intros l (a & b & i & E & Hi & Hl & _). symmetry in E. apply app_nil in E as [-> _].
    apply replication_cluster in Hrun. inversion Hrun as [_ Hinit|? ? ? ? ? ? ? ? ? ? E]; [|by destruct tr].
    destruct (Hinit i Hi) as (_ & Hr & _). unfold Cluster.node in Hl. cbn in Hl. congruence. }
  destruct (replication_snoc _ _ _ _ _ Hrun) as (Hr & Hj & _).
  destruct (IH Hr) as [Hn|(a & b & i & -> & Hi)]; cycle 1.
  { right. exists a, (b ++ [(j, e)]), i. by rewrite app_assoc. }
  set (w := node j (tr ++ [(j, e)])).
  destruct (decide (role_ w = leader ∧ current_term w = t)) as [[Hl Ht]|Hno].
  { right. exists (tr ++ [(j, e)]), [], j. rewrite app_nil_r. split_and!; [done|by apply unled_snoc|done..]. }
  left. intros l (a & b & i & E & Hi & Hl & Ht & Hv). destruct b as [|y b _] using rev_ind.
  - rewrite app_nil_r in E. subst a. destruct (decide (i = j)) as [->|Hne]; [by apply Hno|].
    rewrite node_other in * by done. apply (Hn l). exists tr, [], i. by rewrite app_nil_r.
  - rewrite app_assoc in E. apply app_inj_tail in E as [-> _]. apply (Hn l). by exists a, b, i.
Qed.

(** The log of the future leader only grows in the term of its election. *)
Lemma campaign_log tr1 tr2 i :
  replication_run (tr1 ++ tr2) → unled (current_term (node i tr1)) (tr1 ++ tr2) →
  current_term (node i (tr1 ++ tr2)) = current_term (node i tr1) →
  log_view (node i tr1) `prefix_of` log_view (node i (tr1 ++ tr2)).
Proof.
  induction tr2 as [|[j e] tr2 IH] using rev_ind; [by rewrite app_nil_r|].
  rewrite app_assoc. intros Hrun Hu Ht. pose proof (replication_snoc _ _ _ _ _ Hrun) as (Hr & _).
  destruct (decide (i = j)) as [->|Hne].
  2:{ rewrite node_other in * by done. apply IH; [done|by eapply unled_prefix|done]. }
  pose proof (run_term _ _ j Hrun). pose proof (run_term _ _ j Hr).
  etrans; [apply IH; [done|by eapply unled_prefix|lia]|].
  destruct (run_log_step _ _ _ Hrun) as [l -> _|l p es Hll _ _ _ _]; [by apply prefix_app_r|].
  exfalso. rewrite Ht in Hll. by eapply (Hu (tr1 ++ tr2) (j, e) []).
Qed.

(** Leaders have proper terms. *)
Lemma leader_term_pos tr i :
  replication_run tr → i ∈ C → role_ (node i tr) = leader → 0 ≤ current_term (node i tr).
Proof.
  intros Hrun Hi. induction tr as [|[j e] tr IH] using rev_ind.
  { apply replication_cluster in Hrun. inversion Hrun as [_ Hinit|? ? ? ? ? ? ? ? ? ? E]; [|by destruct tr].
    destruct (Hinit i Hi) as (_ & Hr & _). unfold Cluster.node. cbn. congruence. }
  destruct (replication_snoc _ _ _ _ _ Hrun) as (Hr & Hj & _ & _ & H0 & _).
  destruct (decide (i = j)) as [->|Hne]; [|rewrite node_other by done; auto].
  intros _. pose proof (run_term _ _ j Hrun). lia.
Qed.

(** ** Votes *)

Lemma cast_moment tr s x :
  x ∈ casts (local s tr) (init s) →
  ∃ tr1 e tr2, tr = tr1 ++ (s, e) :: tr2 ∧ cast e (node s tr1) = Some x.
Proof.
  induction tr as [|[j e] tr IH] using rev_ind; [by intros ?%elem_of_nil|].
  intros Hin. assert (x ∈ casts (local s tr) (init s) →
    ∃ tr1 e' tr2, tr ++ [(j, e)] = tr1 ++ (s, e') :: tr2 ∧ cast e' (node s tr1) = Some x) as Hold.
  { intros (a & e' & b & -> & Hc)%IH. exists a, e', (b ++ [(j, e)]). by rewrite <-app_assoc. }
  destruct (decide (s = j)) as [->|Hne]; [|rewrite local_other in Hin by done; auto].
  rewrite local_same, casts_app, elem_of_app in Hin. destruct Hin as [Hin|Hin]; [auto|].
  fold (node j tr) in Hin. cbn [casts] in Hin. rewrite app_nil_r in Hin.
  destruct (cast e (node j tr)) as [y|] eqn:E; cbn in Hin; [|by apply elem_of_nil in Hin].
  apply list_elem_of_singleton in Hin as ->. by exists tr, e, [].
Qed.

(** A vote for [c] in term [t]: the voter stands itself, or the candidate's log,
    when it asked, was not behind the voter's. *)
Lemma vote_moment tr s e t c :
  raft_run (tr ++ [(s, e)]) → cast e (node s tr) = Some (t, c) →
  current_term (node s (tr ++ [(s, e)])) = t ∧
  ((c = s ∧ log_view (node s tr) `prefix_of` log_view (node s (tr ++ [(s, e)]))) ∨
   ∃ tr1 tr2, tr = tr1 ++ tr2 ∧ c ∈ C ∧ current_term (node c tr1) = t ∧
     not_behind (log_view (node c tr1)) (log_view (node s tr))).
Proof.
  intros Hrun Hc. pose proof (raft_replication _ Hrun) as Hrep.
  destruct (raft_snoc _ _ _ Hrun) as [Hr Hasked].
  destruct (replication_snoc _ _ _ _ _ Hrep) as (Hrep0 & Hs & _ & Ho & H0 & Hb).
  destruct (run_in_service _ _ _ _ Hrep0 Hs) as [[Hok Hst _ _ _ _] _].
  assert (∀ j tr1 tr2, tr = tr1 ++ tr2 → j ∈ C → id_ (node j tr1) = j) as Hid.
  { intros j a b -> Hj. apply replication_prefix, replication_cluster in Hrep0.
    by destruct (run_local _ _ _ _ Hrep0 Hj) as (_ & _ & ? & _). }
  destruct e as [req| |uid b| |]; try done.
  - cbn [cast] in Hc. destruct (process_req req (node s tr)) as [[resp|x|x] w'] eqn:Hp; cbn [fst] in Hc; [|done..].
    destruct (bool_decide_reflect (req_type req = request_vote_request)) as [Hty|]; [|done].
    destruct (resp_accepted resp) eqn:Ha; [|done]. injection Hc as <- <-.
    destruct (process_vote_granted _ _ _ _ Hty Hp Ha) as (Ht & _ & Htq).
    pose proof (granted_up_to_date _ _ _ _ Hty Hp Ha Hok Hst) as Hud.
    rewrite node_same. cbn [handle_event]. rewrite (bind_step _ _ _ _ _ Hp). split; [done|right].
    destruct (Hasked req eq_refl Hty) as (j & Hj & Hin).
    destruct (run_described _ _ _ Hr Hj Hin) as (a & b & Htr & _ & Hdt & Hdi & Hdl & Hdlt).
    rewrite (Hid j a b Htr Hj) in Hdi. rewrite Hdi, Htq. exists a, b. split_and!; [done..|].
    unfold up_to_date in Hud. rewrite Hdl, Hdlt in Hud. unfold not_behind.
    apply orb_true_iff in Hud as [Hlt%Z.ltb_lt|[Heq%Z.eqb_eq Hle%Z.leb_le]%andb_true_iff]; [by left|right; lia].
  - assert (c = s) as ->.
    { cbn [cast] in Hc. destruct (expired _ _ _) as [[? []]|]; try done.
      destruct (stands_for_election _); [|done]. injection Hc as _ <-. eapply Hid; [symmetry; apply app_nil_r|done]. }
    rewrite node_same. destruct (run_local _ _ _ _ (replication_cluster _ _ _ Hrep) Hs) as (Her & _).
    destruct (cast_recorded (EvTimer uid b) (node s tr) t s) as (Ht & _); [done| |done|].
    { rewrite (Hid s tr []) by (rewrite ?app_nil_r; done). apply replication_cluster in Hrep0. intros ->.
      assert (-1 ∉ C) as Hno by (clear -Hrep0; by induction Hrep0). done. }
    split; [done|left]. split; [done|]. rewrite <-node_same.
    destruct (run_deed _ _ _ _ _ Hrep) as [[= Hl _]|n w1 [= Hl _] _ Hled|req E _ _]; [| |done].
    + unfold log_view. by rewrite Hl.
    + destruct Hled as [_ _ (l & Hv & _ & Hown) _ _]. rewrite Hv. unfold log_view. rewrite Hl. by apply prefix_app_r.
Qed.

(** ** Entries that stay *)

(** A majority has stored [E] in the term of its last entry. *)
Definition entrenched (tr : list (Z * event)) (E : list log_entry) : Prop :=
  E ≠ [] ∧ ∃ G : gset Z, G ⊆ C ∧ (size C < 2 * size G)%nat ∧
    ∀ s, s ∈ G → ∃ tr1 tr2, tr = tr1 ++ tr2 ∧ current_term (node s tr1) = last_term E ∧
      E `prefix_of` log_view (node s tr1).

Lemma run_chain tr t l1 l2 :
  raft_run tr → leader_log tr t l1 → leader_log tr t l2 → l1 `prefix_of` l2 ∨ l2 `prefix_of` l1.
Proof. intros Hrun. apply leader_log_chain. by apply raft_replication. Qed.

(** The leader of that term had it. *)
Lemma entrenched_leader tr E :
  raft_run tr → entrenched tr E →
  0 ≤ last_term E ∧ ∃ l, leader_log tr (last_term E) l ∧ E `prefix_of` l.
Proof.
  intros Hrun (Hne & G & HG & Hsz & Hst). apply raft_replication in Hrun.
  destruct (set_choose_or_empty G) as [[s Hs]|He].
  2:{ assert (G = ∅) as -> by set_solver. rewrite size_empty in Hsz. lia. }
  destruct (Hst s Hs) as (a & b & -> & _ & [r Hr]).
  destruct (run_rooted _ _ a s (replication_prefix _ _ _ _ Hrun) (HG s Hs)) as [Hrt _].
  rewrite Hr in Hrt. apply (rooted_take _ (length E)) in Hrt. rewrite take_app_length in Hrt.
  destruct (rooted_last _ E 0 Hrt) as (l & Hl & Hp); [destruct E; [done|cbn; lia]|].
  split; [|exists l; split; [by apply leader_log_more|done]].
  destruct Hl as (a1 & a2 & i & -> & Hi & Hrl & <- & _). apply leader_term_pos; [|done..].
  rewrite <-app_assoc in Hrun. by eapply replication_prefix.
Qed.

(** A server keeps [E] as long as the leaders do. *)
Lemma retains tr a c rest s U E :
  replication_run tr → tr = (a ++ c) ++ rest → unled U (a ++ c) →
  current_term (node s (a ++ c)) ≤ U → last_term E ≤ current_term (node s a) →
  (∀ V l, last_term E ≤ V < U → leader_log tr V l → l `prefix_of` E ∨ E `prefix_of` l) →
  E `prefix_of` log_view (node s a) → E `prefix_of` log_view (node s (a ++ c)).
Proof.
  intros Hrun Htr Hu HU HT Hag HE. revert rest Htr Hu HU.
  induction c as [|[j e] c IH] using rev_ind; intros rest Htr Hu HU; [by rewrite app_nil_r|].
  rewrite app_assoc in *. assert (replication_run ((a ++ c) ++ [(j, e)])) as Hr
    by (rewrite Htr in Hrun; by eapply replication_prefix).
  pose proof (run_term _ _ s Hr) as Hle.
  specialize (IH ((j, e) :: rest)). rewrite Htr, <-!app_assoc in IH. rewrite <-!app_assoc in *.
  specialize (IH eq_refl ltac:(rewrite app_assoc in Hu; by eapply unled_prefix) ltac:(lia)).
  rewrite !app_assoc in *.
  destruct (decide (s = j)) as [->|Hne]; [|by rewrite node_other by done].
  destruct (run_log_step _ _ _ Hr) as [l -> _|l p es Hll Hp Hes -> _]; [by apply prefix_app_r|].
  eapply merge_keeps; [done| |done..]. eapply Hag; [split|rewrite Htr, <-app_assoc; by apply leader_log_more].
  - etrans; [exact HT|]. rewrite <-app_assoc in Hr |- *. by apply run_term.
  - assert (current_term (node j ((a ++ c) ++ [(j, e)])) ≠ U); [|lia].
    intros E'. rewrite E' in Hll. by eapply (Hu (a ++ c) (j, e) []).
Qed.

(** The candidate's log has no entry of the term it stands for. *)
Lemma candidate_last tr c U :
  replication_run tr → c ∈ C → (∀ l, ¬ leader_log tr U l) → current_term (node c tr) = U →
  log_view (node c tr) ≠ [] → last_term (log_view (node c tr)) < U.
Proof.
  intros Hrun Hc Hn HU Hne. pose proof (run_ordered _ _ Hrun Hc) as Ho.
  destruct (run_rooted _ _ _ _ Hrun Hc) as [Hr _]. rewrite HU in Ho.
  assert (0 < length (log_view (node c tr)))%nat as Hl by (destruct (log_view _); [done|cbn; lia]).
  destruct (last_term_lookup _ 0 Hl) as (e & He & _). destruct (ordered_last _ _ _ _ Ho He) as [_ Hle].
  destruct (rooted_last _ _ 0 Hr Hl) as (l' & Hl' & _).
  assert (last_term (log_view (node c tr)) ≠ U); [|lia]. intros E. rewrite E in Hl'. by eapply Hn.
Qed.

(** Two moments of a run, the first in an earlier term of one server. *)
Lemma earlier_moment tr p p' v x q s :
  replication_run tr → tr = p ++ p' → tr = (v ++ [x]) ++ q →
  current_term (node s p) < current_term (node s (v ++ [x])) → ∃ c, v = p ++ c.
Proof.
  intros Hrun Hp Hv Hlt. assert (tr = p ++ p') as E by done. rewrite Hv in E.
  apply app_eq_inv in E as [(k & E & _)|(k & E & _)].
  - destruct k as [|y k _] using rev_ind; [rewrite app_nil_r in E; rewrite E in Hlt; lia|].
    rewrite app_assoc in E. apply app_inj_tail in E as [-> _]. by exists k.
  - exfalso. rewrite Hp in Hrun. apply replication_prefix in Hrun. rewrite E in *.
    pose proof (run_term _ _ s Hrun). lia.
Qed.

Section later.
(** A run in which the leaders between the term of [E] and [U] have it. *)
Context (tr : list (Z * event)) (E : list log_entry) (U : Z).
Context (Hraft : raft_run tr) (Hent : entrenched tr E) (HU : last_term E < U).
Context (IH : ∀ V l, last_term E < V < U → leader_log tr V l → E `prefix_of` l).

Lemma leaders_agree V l :
  last_term E ≤ V < U → leader_log tr V l → l `prefix_of` E ∨ E `prefix_of` l.
Proof.
  intros HV Hll. destruct (decide (V = last_term E)) as [->|]; [|right; apply (IH V); [lia|done]].
  destruct (entrenched_leader _ _ Hraft Hent) as [_ (lT & HlT & HET)].
  destruct (run_chain _ _ _ _ Hraft Hll HlT) as [Hp1|Hp1]; [|right; by etrans].
  by eapply prefix_weak_total.
Qed.

(** A server that stored [E] has it when it votes in term [U]. *)
Lemma voter_kept p p' v x q s :
  tr = p ++ p' → current_term (node s p) = last_term E → E `prefix_of` log_view (node s p) →
  tr = (v ++ [x]) ++ q → current_term (node s (v ++ [x])) = U → unled U v →
  E `prefix_of` log_view (node s v).
Proof.
  intros Hp HpT HpE Htr HtU Hu. pose proof (raft_replication _ Hraft) as Hrun.
  destruct (earlier_moment tr p p' v x q s) as (c & ->); [done..|lia|].
  apply (retains tr p c ([x] ++ q) s U); [done|by rewrite Htr, <-!app_assoc|done| |lia|apply leaders_agree|done].
  rewrite <-HtU. apply run_term. rewrite Htr in Hrun. by eapply replication_prefix.
Qed.

(** The first log of a leader of term [U]. *)
Lemma elected_has fb rest i :
  tr = fb ++ rest → unled U fb → i ∈ C → role_ (node i fb) = leader → current_term (node i fb) = U →
  E `prefix_of` log_view (node i fb).
Proof.
  intros Htr Hu Hi Hl Ht. destruct (entrenched_leader _ _ Hraft Hent) as [H0 _].
  pose proof Hent as (Hne & G & HG & Hsz & Hst).
  assert (raft_run fb) as Hfb by (rewrite Htr in Hraft; by eapply raft_prefix).
  destruct (leader_votes C init fb i) as (G2 & HG2 & Hsz2 & Hv2); [by apply replication_cluster, raft_replication|done..|].
  destruct (majorities_meet C init G G2) as (s & Hs & Hs2); [done..|].
  rewrite Ht in Hv2. destruct (cast_moment _ _ _ (Hv2 s Hs2)) as (v & e & r & Hfbv & Hcast).
  rewrite (cons_middle (s, e)), app_assoc in Hfbv. rewrite Hfbv in *. clear fb Hfbv.
  assert (raft_run (v ++ [(s, e)])) as Hv by by eapply raft_prefix.
  destruct (vote_moment _ _ _ _ _ Hv Hcast) as [HtU Hcase]. destruct (Hst s Hs) as (p & p' & Hp & HpT & HpE).
  rewrite <-app_assoc in Htr.
  pose proof (voter_kept p p' v (s, e) _ s Hp HpT HpE Htr HtU ltac:(by eapply unled_prefix, unled_prefix)) as HEv.
  destruct Hcase as [[-> Hgrow]|(a & b & -> & Hc & HaU & Hnb)].
  { etrans; [exact HEv|]. etrans; [exact Hgrow|].
    apply campaign_log; [by apply raft_replication|by rewrite HtU|congruence]. }
  pose proof (raft_replication _ Hfb) as Hrf. rewrite <-!app_assoc in Hrf, Hu, Ht |- *.
  etrans; [|apply campaign_log; [exact Hrf|by rewrite HaU|congruence]].
  pose proof (replication_prefix _ _ _ _ Hrf) as Hra.
  pose proof (replication_prefix _ _ _ _ (raft_replication _ Hv)) as Hrv.
  assert (∀ l, ¬ leader_log a U l) as Hna.
  { intros l. destruct b as [|y b]; [apply (Hu a (s, e) r)|apply (Hu a y (b ++ [(s, e)] ++ r))]; done. }
  destruct (run_rooted _ _ _ _ Hra Hc) as [Hroot _]. destruct (run_rooted _ _ _ _ Hrv (HG s Hs)) as [Hroots _].
  apply (candidate_has (leader_log tr) ltac:(intros t l1 l2; by apply run_chain) E
    (log_view (node s (a ++ b))) _ (current_term (node s (a ++ b)))); [done..| | | |].
  - rewrite Htr, <-app_assoc. by apply rooted_more.
  - rewrite Htr, <-!app_assoc. by apply rooted_more.
  - by apply run_ordered, HG.
  - intros V l' HV HVl. apply IH. split; [done|]. eapply Z.le_lt_trans; [exact HVl|].
    apply candidate_last; [done..|]. intros Hnil. rewrite Hnil in HVl. cbn in HVl. lia.
Qed.
End later.

Lemma later_leaders tr E U l :
  raft_run tr → entrenched tr E → last_term E < U → leader_log tr U l → E `prefix_of` l.
Proof.
  intros Hraft Hent. revert l. induction (Z.lt_wf (last_term E) U) as [U _ IH]. intros l HU Hll.
  pose proof (raft_replication _ Hraft) as Hrun.
  destruct (first_leader tr U Hrun) as [Hn|(fb & rest & i & Htr & Hu & Hi & Hl & Ht)]; [by destruct (Hn l)|].
  etrans; [eapply (elected_has tr E U Hraft Hent HU); [|exact Htr|exact Hu|exact Hi|done..]|].
  { intros V l' HV. apply IH; lia. }
  destruct Hll as (a & b & j & Hab & Hj & Hlj & Htj & <-). rewrite Htr in Hab.
  apply app_eq_inv in Hab as [(k & -> & ->)|(k & -> & ->)].
  - destruct k as [|y k]; [rewrite app_nil_r in *|].
    + assert (j = i) as ->; [|done]. eapply (one_leader_per_term C init a []); rewrite ?app_nil_r; try done; [|congruence].
      rewrite Htr in Hrun. by eapply replication_cluster, replication_prefix.
    + exfalso. eapply (Hu a y k); [done|]. exists a, [], j. by rewrite app_nil_r.
  - assert (replication_run (fb ++ k)) as Hrk by (rewrite Htr, app_assoc in Hrun; by eapply replication_prefix).
    assert (i = j) as -> by (eapply (one_leader_per_term C init fb k); try done; [by apply replication_cluster|congruence]).
    apply (office_log C); [done..|congruence].
Qed.

(** C3: leader completeness.  In any run of a cluster that elects and
    replicates, a log prefix that a majority of the servers has stored in the
    term of its last entry is in the log of every leader of a later term. *)
Theorem leader_completeness (tr tr' : list (Z * event)) (i : Z) (E : list log_entry) :
  raft_run (tr ++ tr') → entrenched (tr ++ tr') E → i ∈ C →
  role_ (node i tr) = leader → last_term E < current_term (node i tr) →
  E `prefix_of` log_view (node i tr).
Proof.
  intros Hraft Hent Hi Hl Ht. eapply (later_leaders _ _ (current_term (node i tr))); [done..|].
  by exists tr, tr', i.
Qed.
End cluster.

#[local] Existing Instance zero_mem.

(** After server 1 has brought its entry to server 2, that is elected by
    server 3. *)
Definition ask_of_2 : req_msg := mk_req_msg 2 request_vote_request 2 3 1 1 0 [].
Definition vote_of_3 : resp_msg := mk_resp_msg 2 request_vote_response 3 2 1 true.
Definition trio_succession : list (Z * event) :=
  trio_replication ++
  [(2, EvTimer 1 true); (3, EvRequest ask_of_2);
   (2, EvRpcResult 1 ask_of_2 resp_handler (Some vote_of_3))].

(** The conditions on an event of the run, by evaluation. *)
Ltac was_sent :=
  match goal with |- ∃ j, j ∈ _ ∧ ?req ∈ _ =>
    exists (req_src req); split; [vm_compute; reflexivity|];
    vm_compute; repeat first [apply list_elem_of_here|apply list_elem_of_further] end.
Ltac follows :=
  try lazymatch goal with
  | |- deliverable _ _ (take (S ?m) _) _ (EvRpcResult _ _ _ (Some ?resp)) =>
      let ty := eval vm_compute in (resp_type resp) in
      lazymatch ty with
      | request_vote_response => intros _ _; eapply (vote_given_before _ _ m); [reflexivity..|vm_compute; reflexivity]
      | _ => let E := fresh in intros E; discriminate E
      end
  | |- deliverable _ _ _ _ _ => cbn; intros; first [exact I|discriminate|vm_compute; reflexivity]
  | |- admissible _ _ _ _ _ => split_and!; [cbn; intros; first [reflexivity|exact I|congruence|
        repeat constructor; vm_compute; reflexivity || congruence]|vm_compute; reflexivity|
        first [exact I|intros [?|?]; discriminate|intros _; was_sent]]
  | |- ∀ req, _ = _ → _ => let E := fresh in intros ? E ?; first [discriminate E|
        injection E as <-; first [discriminate|was_sent]]
  | |- _ = _ => vm_compute; reflexivity
  | |- _ => repeat split; vm_compute; congruence
  end.

Lemma trio_raft_start : raft_run trio trio_start [].
Proof. apply raft_start; [apply trio_in_service|apply trio_cases; vm_compute; reflexivity]. Qed.

Lemma trio_raft : raft_run trio trio_start trio_succession.
Proof.
  apply raft_run_steps; [exact trio_raft_start|]. intros n i e Hn.
  do 10 (try (destruct n as [|n]; [injection Hn as <- <-; constructor; follows|])).
  discriminate Hn.
Qed.

Lemma trio_entrenched : entrenched trio trio_start trio_succession [hello].
Proof.
  split; [done|]. exists {[1; 2]}. split_and!; [unfold trio; set_solver|vm_compute; lia|].
  intros s. rewrite elem_of_union, !elem_of_singleton. intros [->| ->].
  - exists (take 4 trio_succession), (drop 4 trio_succession). split_and!; [by rewrite take_drop|vm_compute; reflexivity|].
    eexists []. vm_compute. reflexivity.
  - exists trio_replication, (drop 7 trio_succession). split_and!; [done|vm_compute; reflexivity|].
    eexists []. vm_compute. reflexivity.
Qed.

Lemma leader_completeness_witness :
  role_ (node trio_start 2 trio_succession) = leader ∧ current_term (node trio_start 2 trio_succession) = 2 ∧
  [hello] `prefix_of` log_view (node trio_start 2 trio_succession).
Proof.
  split_and!; [vm_compute; reflexivity..|].
  apply (leader_completeness trio trio_start trio_succession [] 2 [hello]);
    [rewrite app_nil_r; exact trio_raft|rewrite app_nil_r; exact trio_entrenched|vm_compute; reflexivity..].
Defined.
