(* ===== verification/LostCommit.v ===== *)
(** * An entry that is committed and lost

    [Completeness] speaks of entries stored by a majority in the term of their
    last entry.  [handle_append_entries_resp] commits by counting replicas,
    whatever the term of the entry, and this is more than leader completeness
    covers: the run below is one of three servers, all messages of which were
    sent, in which two servers apply different entries at index 1. *)

From S2P Require Import Prelude Buffer Config Messages LogStore StateMachine StateMgr Scheduler Peer Server Membership Requests Responses Samples Frames PeerSet Elections Cluster Replication LeaderLog Leading LogMatching Completeness.

#[local] Existing Instance zero_mem.

(** ** The messages *)

Definition farewell : log_entry := mk_log_entry 2 app_log (buf_of [Byte.x68; Byte.x6f; Byte.x00]).
Definition poll (t src dst last_term last_idx : Z) : req_msg :=
  mk_req_msg t request_vote_request src dst last_term last_idx 0 [].
Definition grant (t src dst next_idx : Z) : resp_msg :=
  mk_resp_msg t request_vote_response src dst next_idx true.
Definition carry (t src dst last_term last_idx : Z) (l : list log_entry) : req_msg :=
  mk_req_msg t append_entries_request src dst last_term last_idx 0 l.
Definition reply (t src dst next_idx : Z) (ok : bool) : resp_msg :=
  mk_resp_msg t append_entries_response src dst next_idx ok.
(** The answer to a request, at the peer object the request was sent from. *)
Definition answer (obj : nat) (req : req_msg) (resp : resp_msg) : event :=
  EvRpcResult obj req resp_handler (Some resp).

(** ** The run *)

(** Server 1 leads term 1 and takes an entry; server 2 leads term 2 and takes
    another; nothing is replicated. *)
Definition two_leaders : list (Z * event) :=
  [(1, EvTimer 1 true); (2, EvRequest (poll 1 1 2 0 0)); (1, answer 0 (poll 1 1 2 0 0) (grant 1 2 1 1));
   (1, say_hello);
   (2, EvTimer 1 true); (3, EvRequest (poll 2 2 3 0 0)); (2, answer 1 (poll 2 2 3 0 0) (grant 2 3 2 1));
   (2, EvRequest (client_req client_request [farewell])); (1, EvRequest (poll 2 2 1 0 0))].

(** Server 1 leads term 3, brings its entry of term 1 to server 3, and commits
    and applies it. *)
Definition old_entry_committed : list (Z * event) :=
  [(1, EvTimer 1 true); (3, EvRequest (poll 3 1 3 1 1)); (1, answer 1 (poll 3 1 3 1 1) (grant 3 3 1 1));
   (3, EvRequest (carry 3 1 3 1 1 [])); (1, answer 1 (carry 3 1 3 1 1 []) (reply 3 3 1 1 false));
   (3, EvRequest (carry 3 1 3 0 0 [hello])); (1, answer 1 (carry 3 1 3 0 0 [hello]) (reply 3 3 1 2 true));
   (1, EvCommit)].

(** Server 2 leads term 4 with the vote of server 3, whose last entry is of
    term 1, and replaces the entry there. *)
Definition entry_replaced : list (Z * event) :=
  [(2, EvRequest (poll 3 1 2 1 1)); (2, EvTimer 1 true); (3, EvRequest (poll 4 2 3 2 1));
   (2, answer 1 (poll 4 2 3 2 1) (grant 4 3 2 2));
   (3, EvRequest (carry 4 2 3 2 1 [])); (2, answer 1 (carry 4 2 3 2 1 []) (reply 4 3 2 2 false));
   (3, EvRequest (carry 4 2 3 0 0 [farewell]));
   (2, answer 1 (carry 4 2 3 0 0 [farewell]) (reply 4 3 2 2 true)); (2, EvCommit)].

Definition lost_commit : list (Z * event) := (two_leaders ++ old_entry_committed) ++ entry_replaced.

Lemma lost_commit_runs : raft_run trio trio_start lost_commit.
Proof.
  apply raft_run_steps; [exact trio_raft_start|]. intros n i e Hn.
  do 26 (try (destruct n as [|n]; [injection Hn as <- <-; constructor; unfold answer; follows|])).
  discriminate Hn.
Qed.

(** ** What it shows *)

(** The state machine of the server has been given [data] for index [idx]. *)
Definition applied (idx : Z) (data : buffer) (w : sample_state) : Prop := ECommit idx data ∈ out w.

(** Two servers of a proper run apply different entries at the same index:
    the first committed an entry of an earlier term, which the second, elected
    without it, replaced on the majority that had it. *)
Example applied_entries_differ :
  let tr1 := two_leaders ++ old_entry_committed in
  raft_run trio trio_start lost_commit ∧ tr1 `prefix_of` lost_commit ∧
  role_ (node trio_start 1 tr1) = leader ∧ applied 1 (le_buf hello) (node trio_start 1 tr1) ∧
  [hello] `prefix_of` log_view (node trio_start 3 tr1) ∧
  role_ (node trio_start 2 lost_commit) = leader ∧ applied 1 (le_buf farewell) (node trio_start 2 lost_commit) ∧
  [farewell] `prefix_of` log_view (node trio_start 3 lost_commit) ∧ le_buf hello ≠ le_buf farewell.
Proof.
  cbv zeta. split_and!; [exact lost_commit_runs|by apply prefix_app_r|vm_compute; reflexivity| | | | | |done].
  - unfold applied. vm_compute. repeat first [apply list_elem_of_here|apply list_elem_of_further].
  - by exists [].
  - vm_compute; reflexivity.
  - unfold applied. vm_compute. repeat first [apply list_elem_of_here|apply list_elem_of_further].
  - by exists [].
Qed.

(** Leader completeness is not at odds with it: the entry was stored by a
    majority, but in a later term than its own. *)
Example not_entrenched : ¬ entrenched trio trio_start lost_commit [hello].
Proof.
  intros He.
  assert ([hello] `prefix_of` log_view (node trio_start 2 lost_commit)) as [r Hr].
  { eapply later_leaders; [exact lost_commit_runs|exact He| |]; cycle 1.
    - exists lost_commit, [], 2. split_and!; [by rewrite app_nil_r|vm_compute; reflexivity..].
    - vm_compute. reflexivity. }
  vm_compute in Hr. discriminate Hr.
Qed.
