(* ===== verification/Tally.v ===== *)
(** * Matched indices

    What an event does to the matched indices of the peers: nothing but an
    accepted answer of a follower brings a new one in, and new peers begin
    at 0. *)

From S2P Require Import Prelude Buffer Config Messages LogStore StateMachine StateMgr Scheduler Peer Server Membership Requests Responses Samples Frames PeerSet Elections PeerTable Cluster Replication LeaderLog Leading LogMatching.

Section tally.
Context `{FreshMem} {LS SM : Type} `{!log_store LS} `{!state_machine SM}.
#[local] Abbreviation W := (raft_server LS SM).

(** The matched indices an event may bring in, by peer. *)
Context (news : Z → Z → Prop).

(** A peer's matched index is the old one, a new one, or 0. *)
Definition tallied : relation W := λ w w', ∀ i q, peers_ w' !! i = Some q →
  matched_idx_ q = 0 ∨ (∃ p, peers_ w !! i = Some p ∧ matched_idx_ q = matched_idx_ p) ∨
  news i (matched_idx_ q).
#[global] Instance tallied_preorder : PreOrder tallied.
Proof.
  split; unfold tallied; [intros w i q Hq; right; left; by exists q|].
  intros w1 w2 w3 H12 H23 i q Hq. destruct (H23 i q Hq) as [?|[(p & Hp & E)|?]]; [by left| |by right; right].
  rewrite E. by apply H12.
Qed.

Lemma tallied_same w w' : peers_ w' = peers_ w → tallied w w'.
Proof. intros E i q Hq. right. left. exists q. by rewrite <-E. Qed.

Lemma tallied_frame {A} (m : M W A) : within (same peers_) m → within tallied m.
Proof. intros Hm w. exact (tallied_same _ _ (Hm w)). Qed.

Lemma tallied_insert i q (w : W) :
  matched_idx_ q = 0 ∨ (∃ p, peers_ w !! i = Some p ∧ matched_idx_ q = matched_idx_ p) ∨ news i (matched_idx_ q) →
  tallied w (w <| peers_ ::= <[i := q]> |>).
Proof.
  intros Hq j x Hx. unfold update in Hx; cbn in Hx. apply lookup_insert_Some in Hx as [[<- <-]|[_ Hx]]; [done|].
  right. left. by exists x.
Qed.

(** Writing a peer back with its matched index. *)
Lemma tallied_set_peer r p q (w : W) :
  find_peer r w = Some p → matched_idx_ q = matched_idx_ p → tallied w (set_peer r q w).2.
Proof.
  intros Hp Hq. destruct r as [i|]; cbn in *; [|by apply tallied_same].
  apply tallied_insert. right. left. by exists p.
Qed.

Lemma tallied_upd_peer r f :
  (∀ p, matched_idx_ (f p) = matched_idx_ p) → within tallied (upd_peer (LS := LS) (SM := SM) r f).
Proof.
  intros Hf. unfold upd_peer. apply within_get_peer_then; [apply _|]. intros w p Hp. by eapply tallied_set_peer.
Qed.

Lemma tallied_upd_joining f : within tallied (upd_peer (LS := LS) (SM := SM) Joining f).
Proof.
  apply tallied_frame. unfold upd_peer. apply within_get_peer_then; [apply _|]. done.
Qed.

Lemma rpc_completed_matched t b p : matched_idx_ (rpc_completed t b p) = matched_idx_ p.
Proof. by destruct t, b. Qed.

#[local] Hint Extern 1 (within tallied (upd_peer Joining _)) => apply tallied_upd_joining : within.
#[local] Hint Extern 2 (within tallied (upd_peer _ _)) =>
  (apply tallied_upd_peer; intros ?; first [reflexivity|apply rpc_completed_matched|case_match; reflexivity]) : within.
#[local] Hint Extern 5 (within tallied _) => (apply tallied_frame; solve [within_solve ignored]) : within.

(** After a peer was read and written back the code goes on. *)
Lemma tallied_set_then {A} r p q (k : M W A) (w : W) :
  find_peer r w = Some p → matched_idx_ q = matched_idx_ p → within tallied k →
  tallied w ((set_peer r q ;; k) w).2.
Proof.
  intros Hp Hq Hk. etrans; [by eapply tallied_set_peer|]. destruct r; cbn [set_peer]; rewrite bind_modify; apply Hk.
Qed.

Lemma tallied_create_sync_snapshot_req r i t c :
  within tallied (create_sync_snapshot_req (LS := LS) (SM := SM) r i t c).
Proof. unfold create_sync_snapshot_req. within_solve fail. Qed.
#[local] Hint Resolve tallied_create_sync_snapshot_req : within.

Lemma tallied_create_append_entries_req r :
  within tallied (create_append_entries_req (LS := LS) (SM := SM) r).
Proof. unfold create_append_entries_req. within_solve fail. Qed.
#[local] Hint Resolve tallied_create_append_entries_req : within.

Lemma tallied_request_append_entries_to r :
  within tallied (request_append_entries_to (LS := LS) (SM := SM) r).
Proof.
  unfold request_append_entries_to. apply within_get_peer_then; [apply _|]. intros w p Hp.
  assert (matched_idx_ (make_busy p).2 = matched_idx_ p) as Hm by (unfold make_busy; by destruct (busy_flag_ p)).
  destruct (make_busy p) as [[] p']; [|done]. apply (tallied_set_then r p p'); [done..|]. within_solve fail.
Qed.
#[local] Hint Resolve tallied_request_append_entries_to : within.

Lemma tallied_commit i : within tallied (commit (LS := LS) (SM := SM) i).
Proof. unfold commit. within_solve fail. Qed.
#[local] Hint Resolve tallied_commit : within.

Lemma tallied_request_append_entries : within tallied (request_append_entries (LS := LS) (SM := SM)).
Proof. unfold request_append_entries. within_solve fail. Qed.
#[local] Hint Resolve tallied_request_append_entries : within.

(** A peer written back after code that leaves the table alone. *)
Lemma tallied_set_after r p (m : M W peer) (w : W) :
  find_peer r w = Some p → within (same table) m →
  (∀ w' q, m w = (Ok q, w') → matched_idx_ q = matched_idx_ p) → tallied w ((m ≫= set_peer r) w).2.
Proof.
  intros Hp Hm Hq. pose proof (Hm w) as Hs. destruct (m w) as [[q|x|u] w'] eqn:E; cbn [snd] in Hs;
    injection Hs as _ H1 H2 _.
  - rewrite (bind_step _ _ _ _ _ E). etrans; [by apply tallied_same|].
    apply (tallied_set_peer r p); [|by eapply Hq]. destruct r; cbn in *; by rewrite ?H1, ?H2.
  - erewrite bind_throw by done. by apply tallied_same.
  - erewrite bind_fault by done. by apply tallied_same.
Qed.

Lemma enable_hb_matched b p (w w' : W) q : enable_hb b p w = (Ok q, w') → matched_idx_ q = matched_idx_ p.
Proof. unfold enable_hb. intros Hq. by apply bind_inv_ok in Hq as ([] & w1 & _ & [= <- _]). Qed.
Lemma enable_hb_for_peer_matched p (w w' : W) q :
  enable_hb_for_peer p w = (Ok q, w') → matched_idx_ q = matched_idx_ p.
Proof.
  unfold enable_hb_for_peer. intros Hq. apply bind_inv_ok in Hq as (p1 & w1 & Hp1 & Hq).
  apply bind_inv_ok in Hq as ([] & w2 & _ & [= <- _]). by apply enable_hb_matched in Hp1.
Qed.

Lemma tallied_enable i : within tallied
  (p ← get_peer (PeerOf i); p ← enable_hb_for_peer p; set_peer (LS := LS) (SM := SM) (PeerOf i) p).
Proof.
  apply within_get_peer_then; [apply _|]. intros w p Hp.
  apply (tallied_set_after _ p); [done|within_solve ignored|]. intros w' q. apply enable_hb_for_peer_matched.
Qed.
Lemma tallied_disable i : within tallied
  (p ← get_peer (PeerOf i); p ← enable_hb false p; set_peer (LS := LS) (SM := SM) (PeerOf i) p).
Proof.
  apply within_get_peer_then; [apply _|]. intros w p Hp.
  apply (tallied_set_after _ p); [done|within_solve ignored|]. intros w' q. apply enable_hb_matched.
Qed.
#[local] Hint Resolve tallied_enable tallied_disable : within.
Ltac tallied_solve := repeat (first [apply tallied_enable | apply tallied_disable | within_step fail]).

Lemma tallied_become_leader : within tallied (become_leader (LS := LS) (SM := SM)).
Proof. unfold become_leader. tallied_solve. Qed.
Lemma tallied_become_follower : within tallied (become_follower (LS := LS) (SM := SM)).
Proof. unfold become_follower. tallied_solve. Qed.
#[local] Hint Resolve tallied_become_leader tallied_become_follower : within.
Lemma tallied_update_term t : within tallied (update_term (LS := LS) (SM := SM) t).
Proof. unfold update_term. tallied_solve. Qed.
Lemma tallied_request_vote : within tallied (request_vote (LS := LS) (SM := SM)).
Proof. unfold request_vote. tallied_solve. Qed.
#[local] Hint Resolve tallied_update_term tallied_request_vote : within.

(** New peers begin at 0. *)
Lemma prepare_matched w0 p (w w' : W) q :
  prepare w0 p w = (Ok q, w') → matched_idx_ q = matched_idx_ p ∧ peers_ w' = peers_ w.
Proof.
  intros Hq. split.
  - unfold prepare in Hq. destruct (bool_decide _); [|by injection Hq as <- _].
    apply bind_inv_ok in Hq as (p1 & w1 & Hp1%enable_hb_for_peer_matched & Hq).
    destruct (srv_to_join_ w0) as [j|]; [|by injection Hq as <- _].
    destruct (p_id j =? p_id p1); [|by injection Hq as <- _].
    rewrite bind_modify in Hq. by injection Hq as <- _.
  - eapply (within_elim (same peers_)); [|exact Hq]. unfold prepare. within_solve ignored.
Qed.

Lemma new_peer_matched c (w w' : W) p : new_peer c w = (Ok p, w') → matched_idx_ p = 0.
Proof.
  intros Hp. unfold new_peer in Hp.
  rewrite bind_gets, bind_modify in Hp. unfold emit in Hp. rewrite bind_modify in Hp.
  erewrite bind_step in Hp by (apply on_step, new_task_spec). rewrite bind_gets in Hp. by injection Hp as <- _.
Qed.

Lemma tallied_add_server c : within tallied (add_server (LS := LS) (SM := SM) c).
Proof.
  intros w. unfold add_server.
  assert (tallied w (new_peer c w).2) as Hn by (apply tallied_frame; within_solve ignored).
  destruct (new_peer c w) as [[p|x|u] w1] eqn:E; [|by inversion E..]. cbn [snd] in Hn.
  rewrite (bind_step _ _ _ _ _ E), bind_get. etrans; [exact Hn|]. clear Hn.
  apply new_peer_matched in E. cbv zeta. set (p1 := set_next_log_idx _ p).
  change (tallied w1 ((prepare w1 p1 ≫= λ p, when (bool_decide (peers_ w1 !! sc_id c = None))
    (modify (update peers_ <[sc_id c := p]>))) w1).2).
  destruct (bind_cases (prepare w1 p1) (λ p, when (bool_decide (peers_ w1 !! sc_id c = None))
    (modify (update peers_ <[sc_id c := p]>))) w1) as [(q & Hq & ->)|[_ ->]];
    [|apply tallied_frame; unfold prepare; within_solve ignored].
  destruct (prepare_matched w1 p1 w1 (prepare w1 p1 w1).2 q) as [Hm Hp];
    [rewrite <-Hq; by destruct (prepare w1 p1 w1)|].
  etrans; [by apply tallied_same|]. destruct (bool_decide _); [|done]. apply tallied_insert. left. by rewrite Hm.
Qed.

Lemma tallied_delete i : within tallied (modify (update peers_ (delete i))).
Proof.
  intros w j q Hq. unfold modify, update in Hq; cbn in Hq. apply lookup_delete_Some in Hq as [_ Hq].
  right. left. by exists q.
Qed.
#[local] Hint Resolve tallied_add_server tallied_delete : within.

Lemma tallied_remove_servers c l : within tallied (remove_servers (LS := LS) (SM := SM) c l).
Proof. induction l as [|i l IH]; cbn [remove_servers]; within_solve fail. Qed.
#[local] Hint Resolve tallied_remove_servers : within.
Lemma tallied_reconfigure c : within tallied (reconfigure (LS := LS) (SM := SM) c).
Proof. unfold reconfigure. within_solve fail. Qed.
#[local] Hint Resolve tallied_reconfigure : within.
Lemma tallied_commit_config_entry b : within tallied (commit_config_entry (LS := LS) (SM := SM) b).
Proof. unfold commit_config_entry. within_solve fail. Qed.
#[local] Hint Resolve tallied_commit_config_entry : within.
Lemma tallied_commit_one : within tallied (commit_one (LS := LS) (SM := SM)).
Proof. unfold commit_one. within_solve fail. Qed.
Lemma tallied_hear_from_leader : within tallied (hear_from_leader (LS := LS) (SM := SM)).
Proof. unfold hear_from_leader. within_solve fail. Qed.
#[local] Hint Resolve tallied_commit_one tallied_hear_from_leader : within.

Lemma tallied_process_req req : within tallied (process_req (LS := LS) (SM := SM) req).
Proof.
  unfold process_req, handle_extended_msg, handle_append_entries, handle_cli_req, handle_add_srv_req,
    invite_srv_to_join_cluster, handle_log_sync_req, handle_join_cluster_req, handle_install_snapshot_req,
    handle_snapshot_sync_req, install_snapshot.
  within_solve fail.
Qed.

(** ** Answers *)

Lemma tallied_clear_pending {A} r (k : bool → M W A) :
  (∀ b, within tallied (k b)) →
  within tallied (p ← get_peer r; let '(pending, p) := clear_pending_commit p in set_peer r p ;; k pending).
Proof.
  intros Hk. apply within_get_peer_then; [apply _|]. intros w p Hp.
  assert (matched_idx_ (clear_pending_commit p).2 = matched_idx_ p) as Hm
    by (unfold clear_pending_commit; by destruct (pending_commit_flag_ p)).
  destruct (clear_pending_commit p) as [b q]. by apply (tallied_set_then r p q).
Qed.

Lemma tallied_upd_news i f :
  (∀ p, news i (matched_idx_ (f p))) → within tallied (upd_peer (LS := LS) (SM := SM) (PeerOf i) f).
Proof.
  intros Hf. unfold upd_peer. apply within_get_peer_then; [apply _|]. intros w p Hp.
  apply tallied_insert. right. right. apply Hf.
Qed.

Lemma tallied_handle_append_entries_resp resp :
  (resp_accepted resp = true → news (resp_src resp) (u64 (resp_next_idx resp - 1))) →
  within tallied (handle_append_entries_resp (LS := LS) (SM := SM) resp).
Proof.
  intros Hn. unfold handle_append_entries_resp. destruct (resp_accepted resp); [specialize (Hn eq_refl)|];
    repeat (first [apply tallied_clear_pending; intros ? | by apply tallied_upd_news | within_step fail]).
Qed.

Lemma tallied_handle_voting_resp r : within tallied (handle_voting_resp (LS := LS) (SM := SM) r).
Proof. unfold handle_voting_resp. within_solve fail. Qed.
#[local] Hint Resolve tallied_handle_voting_resp : within.

Lemma tallied_handle_rpc_result obj req result :
  (∀ resp, result = Some resp → resp_type resp ≠ install_snapshot_response ∧
     (resp_type resp = append_entries_response → resp_accepted resp = true →
      news (resp_src resp) (u64 (resp_next_idx resp - 1)))) →
  within tallied (handle_rpc_result (LS := LS) (SM := SM) obj req resp_handler result).
Proof.
  intros Hr. unfold handle_rpc_result, handle_peer_resp. destruct result as [resp|]; [|within_solve fail].
  destruct (Hr resp eq_refl) as [Hi Hn].
  assert (resp_type resp = append_entries_response →
    within tallied (handle_append_entries_resp (LS := LS) (SM := SM) resp)) as Ha
    by (intros Ht; apply tallied_handle_append_entries_resp; auto).
  destruct (resp_type resp); try done; try specialize (Ha eq_refl); within_solve fail.
Qed.

(** ** Timers *)

Lemma tallied_handle_election_timeout : within tallied (handle_election_timeout (LS := LS) (SM := SM)).
Proof.
  intros w. destruct (election_timeout_cases w) as [[_ ->]|[Hst _]].
  - trans (candidate_state w); [by apply tallied_same|].
    enough (within tallied (run_for_leader (LS := LS) (SM := SM))) as Hr by apply Hr. unfold run_for_leader.
    apply within_bind; [apply _|apply tallied_frame; within_solve ignored|intros _].
    apply within_bind; [apply _|apply tallied_request_vote|intros _]. apply tallied_frame. within_solve ignored.
  - apply tallied_same. unfold stands_for_election, handle_election_timeout in *. rewrite bind_get.
    destruct (0 <? steps_to_down_ w); [by_frame|]. destruct (catching_up_ w); [by_frame|].
    destruct (bool_decide (role_ w = leader)); [by_frame|done].
Qed.
Lemma tallied_handle_hb_timeout r : within tallied (handle_hb_timeout (LS := LS) (SM := SM) r).
Proof. unfold handle_hb_timeout. within_solve fail. Qed.
#[local] Hint Resolve tallied_handle_election_timeout tallied_handle_hb_timeout : within.

Lemma tallied_timer_expired uid b : within tallied (timer_expired (LS := LS) (SM := SM) uid b).
Proof. unfold timer_expired, run_task, on_retryable_req_err. within_solve fail. Qed.
#[local] Hint Resolve tallied_process_req tallied_timer_expired : within.

Context `{!log_store_laws LS} `{!state_machine_laws SM}.

(** The matched indices after an event. *)
Lemma tallied_handle_event e :
  plain (SM := SM) e →
  (∀ obj req h resp, e = EvRpcResult obj req h (Some resp) → resp_type resp ≠ install_snapshot_response ∧
     (resp_type resp = append_entries_response → resp_accepted resp = true →
      news (resp_src resp) (u64 (resp_next_idx resp - 1)))) →
  within tallied (handle_event (LS := LS) (SM := SM) e).
Proof.
  intros Hp Hn. destruct e as [req|obj req h result|uid success| |now]; cbn [handle_event]; [within_solve fail| |
    within_solve fail|within_solve fail|within_solve fail].
  cbn in Hp. subst h. apply tallied_handle_rpc_result. intros resp ->. by eapply Hn.
Qed.
End tally.
