(* ===== verification/Committed.v ===== *)
(** * Committed entries stay

    When the answer of a follower lets a leader commit an entry of its own
    term, a majority has stored the log up to it in this term, so every later
    leader has it.  The leader counts the matched indices of its peers; they
    tell what the peers have stored as long as they are of this leadership:
    [become_leader] does not reset them and answers of an earlier term are not
    ignored, so both are hypotheses of the theorem. *)

From S2P Require Import Prelude Buffer Config Messages LogStore StateMachine StateMgr Scheduler Peer Server Membership Requests Responses Samples Frames PeerSet Elections PeerTable Cluster Replication LeaderLog Leading LogMatching Completeness LostCommit Tally.

(** ** The answer of a follower *)

Section followers.
Context `{FreshMem} {LS SM : Type} `{!log_store LS} `{!state_machine SM}.
Context `{!log_store_laws LS} `{!state_machine_laws SM}.
#[local] Abbreviation W := (raft_server LS SM).

#[local] Hint Extern 1 (within ?R (emit _)) => (apply (quiet_emit_other R); reflexivity) : within.
#[local] Hint Resolve quiet_fatal quiet_hear_from_leader : within.

(** An accepted append request: the log is merged, and the answer names the
    index behind the entries of the request. *)
Definition acks (req : req_msg) (w : W) (resp : resp_msg) : Prop :=
  resp_src resp = id_ w ∧ resp_term resp = req_term req ∧
  resp_next_idx resp = u64 (req_last_log_idx req + Z.of_nat (length (req_log_entries req)) + 1).

Lemma append_entries_accepted req resp (w w' : W) :
  req_term req ≤ current_term w → mergeable req w →
  handle_append_entries req w = (Ok resp, w') → resp_accepted resp = true →
  merged req w w' ∧ acks req w resp.
Proof.
  intros Ht Hm Hh Hacc. unfold handle_append_entries in Hh. rewrite bind_get in Hh.
  apply bind_inv_ok in Hh as ([] & w1 & Eh & Hh). rewrite bind_get in Hh. cbv zeta in Hh.
  assert (same traffic w w1) as [= Hls Hsr] by (eapply within_elim; [|exact Eh]; within_solve ignored).
  assert (same (λ w, (current_term w, id_ w)) w w1) as [= Htm Hid]
    by (eapply within_elim; [|exact Eh]; within_solve ignored).
  assert (mergeable req w1) as Hm1 by (apply (mergeable_traffic req w); [unfold traffic; congruence|done]).
  apply bind_inv_ok in Hh as (b & w2 & El & Hh).
  destruct b; [|rewrite orb_true_r in Hh; by injection Hh as <- _]. cbn [negb] in Hh. rewrite orb_false_r in Hh.
  destruct (log_okay_continues _ _ _ (ma_ok _ _ Hm1) (ma_start _ _ Hm1) (ma_idx _ _ Hm1) El) as [-> Hc].
  destruct (Z.ltb_spec (req_term req) (current_term w1)); [by injection Hh as <- _|].
  assert (role_ w1 = follower) as Hr.
  { apply (hear_from_leader_follows w). by rewrite (proj2 (Z.eqb_eq _ _)) in Eh by lia. }
  match type of Hh with context [accept ?n ?r] => set (ans := accept n r) in Hh end.
  pose proof (accepted_merges req ans w1 Hr ltac:(lia) Hm1 Hc) as Hmg. rewrite Hh in Hmg. cbn [snd] in Hmg.
  split.
  - destruct Hmg as [Ho Hs Hr' Hse Htm' Hl]. unfold start_index_, log_view in *. rewrite Hls, Hsr in *. by split.
  - apply bind_inv_ok in Hh as ([] & v1 & _ & Hh). apply bind_inv_ok in Hh as ([] & v2 & _ & Hh).
    apply bind_inv_ok in Hh as ([] & v3 & _ & Hh). injection Hh as <- _. subst ans.
    unfold acks. cbn. split_and!; [done|lia|done].
Qed.

Lemma append_request_accepted req resp (w w' : W) :
  req_type req = append_entries_request → mergeable req w →
  process_req req w = (Ok resp, w') → resp_accepted resp = true →
  merged req w w' ∧ acks req w resp.
Proof.
  intros Hty Hm Hp Hacc. rewrite process_req_dispatch, Hty in Hp. cbn [is_raft_rpc] in Hp.
  apply bind_inv_ok in Hp as (b & w1 & Hu & Hp). apply bind_inv_ok in Hp as ([] & w2 & Hs & Hp).
  assert (same traffic w w2) as [= Hls Hsr].
  { trans w1; [eapply within_elim; [|exact Hu]; unfold update_term; within_solve ignored|].
    eapply within_elim; [|exact Hs]. within_solve ignored. }
  assert (same id_ w w2) as Hid.
  { trans w1; [eapply within_elim; [|exact Hu]; within_solve ignored|].
    eapply within_elim; [|exact Hs]. within_solve ignored. }
  assert (req_term req ≤ current_term w2) as Ht.
  { trans (current_term w1); [|apply Z.eq_le_incl; symmetry; eapply (within_elim (same current_term)); [|exact Hs]; within_solve ignored].
    change w1 with (Ok b, w1).2. rewrite <-Hu. unfold current_term. rewrite update_term_state.
    destruct (Z.ltb_spec (current_term w) (req_term req)); done. }
  unfold dispatch in Hp. rewrite Hty in Hp.
  destruct (append_entries_accepted req resp w2 w') as [Hmg Hack]; [done| |done..|].
  { apply (mergeable_traffic req w); [unfold traffic; congruence|done]. }
  unfold acks, same in *. rewrite <-Hid. split; [|done].
  destruct Hmg as [Ho Hs' Hr' Hse Htm' Hl]. unfold start_index_, log_view in *. rewrite Hls, Hsr in *. by split.
Qed.

(** ** The commit index of the leader *)

(** An accepted answer raises the commit index to what a majority has, by the
    matched indices with the answer taken in. *)
Lemma answer_commits obj req resp (w : W) :
  resp_type resp = append_entries_response → resp_accepted resp = true → resp_term resp ≤ current_term w →
  let w' := (handle_rpc_result obj req resp_handler (Some resp) w).2 in
  quick_commit_idx_ w' = quick_commit_idx_ w ∨
  ∃ v c, tallied (λ j m, j = resp_src resp ∧ m = u64 (resp_next_idx resp - 1)) w v ∧
    log_store_ v = log_store_ w ∧ peer_set v = peer_set w ∧
    quick_commit_idx_ w' = Z.max (quick_commit_idx_ w) c ∧
    (length (matched_indexes v) < 2 * have c (matched_indexes v))%nat.
Proof.
  intros Hty Hacc Ht w'. subst w'. unfold handle_rpc_result. rewrite bind_get.
  set (news := λ j m : Z, j = resp_src resp ∧ m = u64 (resp_next_idx resp - 1)).
  set (R := λ w w' : W, tallied news w w' ∧ peer_set w' = peer_set w ∧
    same (λ w, (quick_commit_idx_ w, log_store_ w, state_ w)) w w').
  assert (∀ w1 w2 w3, R w1 w2 → R w2 w3 → R w1 w3) as Htrans.
  { intros w1 w2 w3 (Ht1 & Hp1 & Hs1) (Ht2 & Hp2 & Hs2). split_and!; [by etrans|congruence|by etrans]. }
  assert (∀ r f, (∀ p, matched_idx_ (f p) = matched_idx_ p) → ∀ w, R w (upd_peer r f w).2) as Hupd.
  { intros r f Hf v. split_and!; [by apply tallied_upd_peer|by apply within_set_upd_peer|by_frame]. }
  match goal with |- context [(?m ≫= _) w] => set (m1 := m) end.
  assert (R w (m1 w).2) as H1.
  { unfold m1. destruct (ref_of_object obj w) as [r|]; [apply Hupd; intros p; apply rpc_completed_matched|].
    by destruct (bool_decide (obj ∈ retried w)). }
  match goal with |- context [(m1 ≫= ?k) w] => destruct (bind_cases m1 k w) as [([] & _ & ->)|[_ ->]] end;
    [|left; destruct H1 as (_ & _ & [= Hq _ _]); done].
  generalize dependent (m1 w).2. clear m1. intros w1 H1. unfold handle_peer_resp. rewrite bind_get.
  set (m2 := when _ _). assert (R w1 (m2 w1).2) as H2 by (unfold m2; destruct (bool_decide _); [by apply Hupd|done]).
  match goal with |- context [(m2 ≫= ?k) w1] => destruct (bind_cases m2 k w1) as [([] & _ & ->)|[_ ->]] end;
    specialize (Htrans _ _ _ H1 H2); [|left; destruct Htrans as (_ & _ & [= Hq _ _]); done].
  clear H2. generalize dependent (m2 w1).2. clear m2 H1. intros w2 (Hta & Hps & [= Hq Hl Hst]).
  assert (resp_term resp ≤ current_term w2) as Ht2 by (unfold current_term in *; by rewrite Hst).
  rewrite (bind_step _ _ _ _ _ (update_term_old _ w2 Ht2)), Hty.
  destruct (peers_ w2 !! resp_src resp) as [p|] eqn:Hp.
  2:{ left. unfold handle_append_entries_resp. by rewrite bind_get, Hp. }
  destruct (response_quorum resp w2 p Hp Hacc) as (c & Hc & _ & Hmaj & _).
  right. exists (w2 <| peers_ ::= <[resp_src resp := acknowledged resp p]> |>), c. split_and!; [|done| | |exact Hmaj].
  - etrans; [exact Hta|]. apply tallied_insert. right. by right.
  - rewrite <-Hps. unfold peer_set, update; cbn. rewrite dom_insert_L. apply elem_of_dom_2 in Hp. set_solver.
  - by rewrite Hc, Hq.
Qed.
End followers.

(** ** What the answer tells *)

Section agreement.
Context (leader_log : Z → list log_entry → Prop).
Context (Hchain : ∀ t l1 l2, leader_log t l1 → leader_log t l2 →
  l1 `prefix_of` l2 ∨ l2 `prefix_of` l1).

(** After the merge the log agrees with the sender's up to the end of the
    request. *)
Lemma merge_agrees req prev l0 l :
  rooted leader_log l0 → rooted leader_log l → Forall stored l → slice req l → continues_at req prev l0 →
  let n := (prev + length (req_log_entries req))%nat in
  (n ≤ length l)%nat ∧
  take n l `prefix_of` take prev l0 ++ merge_entries (drop prev l0) (req_log_entries req).
Proof.
  intros H0 H1 Hst Hsl Hc n. pose proof (merge_rooted leader_log Hchain req prev l0 l H0 H1 Hst Hsl Hc) as Hr.
  destruct Hsl as (p & Hp & Hlen & Hterm & Hes), Hc as (Hi & Hlen0 & Hterm0). assert (p = prev) as -> by lia.
  assert (n ≤ length l)%nat as Hn.
  { apply prefix_length in Hes. rewrite length_drop in Hes. lia. }
  split; [done|]. set (l' := take prev l0 ++ _) in *.
  destruct (decide (n = 0%nat)) as [->|Hne]; [apply prefix_nil|].
  destruct (lookup_lt_is_Some_2 l (pred n) ltac:(lia)) as [x Hx].
  enough (∃ y, l' !! pred n = Some y ∧ le_term y = le_term x) as (y & Hy & Ht).
  { pose proof (rooted_match leader_log Hchain l l' (pred n) x y H1 Hr Hx Hy ltac:(done)) as E.
    replace (S (pred n)) with n in E by lia. rewrite E. apply prefix_take. }
  unfold l'. destruct (req_log_entries req) as [|e es _] eqn:Ees using rev_ind.
  - cbn [merge_entries length] in *. rewrite take_drop. subst n. rewrite Nat.add_0_r in *.
    specialize (Hterm Hne). specialize (Hterm0 Hne). rewrite Hx in Hterm. cbn in Hterm.
    destruct (l0 !! pred prev) as [y|]; [|done]. injection Hterm as ?. injection Hterm0 as ?. exists y. split; [done|congruence].
  - assert (l !! (prev + length es)%nat = Some e) as He.
    { destruct Hes as [s Hs]. rewrite <-lookup_drop, Hs, <-app_assoc. by apply list_lookup_middle. }
    assert (pred n = prev + length es)%nat as Ep by (subst n; rewrite length_app; cbn; lia). rewrite Ep in *.
    rewrite He in Hx. injection Hx as <-.
    destruct (merge_entries_terms (drop prev l0) (es ++ [e]) (length es) e) as (y & Hy & Ht);
      [by apply list_lookup_middle|].
    exists y. split; [|done]. rewrite lookup_app_r, length_take, Nat.min_l by (rewrite ?length_take; lia).
    replace (prev + length es - prev)%nat with (length es) by lia. done.
Qed.
End agreement.

(** ** Counting *)

Lemma have_map {A} (f : A → Z) (c : Z) (m : gmap Z A) :
  have c (f <$> (map_to_list m).*2) = size (filter (λ x, c ≤ f x.2) m).
Proof.
  induction m as [|i x m Hi IH] using map_ind.
  { by rewrite map_to_list_empty, map_filter_empty, map_size_empty. }
  rewrite (have_perm c _ (f <$> (map_to_list m).*2 ++ [x])).
  2:{ rewrite map_to_list_insert by done. rewrite !fmap_cons, Permutation_app_comm. done. }
  rewrite fmap_app, have_app, IH. cbn [fmap list_fmap]. unfold have.
  destruct (decide (c ≤ f x)) as [Hx|Hx].
  - rewrite filter_cons_True, filter_nil, map_filter_insert_True by done.
    rewrite map_size_insert_None; [cbn; lia|]. apply map_lookup_filter_None. by left.
  - rewrite filter_cons_False, filter_nil, map_filter_insert_False by done. rewrite delete_id by done. cbn; lia.
Qed.

Lemma entry_last_term (l : list log_entry) c t :
  0 < c → le_term <$> l !! Z.to_nat (c - 1) = Some t → last_term (take (Z.to_nat c) l) = t.
Proof.
  intros Hc. destruct (l !! Z.to_nat (c - 1)) as [x|] eqn:Hx; [|done]. intros [= <-].
  unfold last_term. replace (Z.to_nat c) with (S (Z.to_nat (c - 1))) by lia.
  by rewrite (take_S_r _ _ _ Hx), last_snoc.
Qed.

(** ** A leader that counts *)

Section cluster.
Context `{FreshMem} {LS SM : Type} `{!log_store LS} `{!state_machine SM}.
Context `{!log_store_laws LS} `{!state_machine_laws SM}.
#[local] Abbreviation W := (raft_server LS SM).
Context (C : gset Z) (init : Z → W).
#[local] Abbreviation node := (node init).
#[local] Abbreviation replication_run := (replication_run C init).
#[local] Abbreviation raft_run := (raft_run C init).
#[local] Abbreviation leader_log := (leader_log C init).

(** The index the answer confirms. *)
Definition confirmed (resp : resp_msg) : Z := u64 (resp_next_idx resp - 1).

(** Server [j], by its answer, has the leader's log up to the confirmed
    index. *)
Lemma ack_stored tr j req resp :
  replication_run (tr ++ [(j, EvRequest req)]) → req_type req = append_entries_request →
  (process_req req (node j tr)).1 = Ok resp → resp_accepted resp = true →
  resp_src resp = j ∧ current_term (node j (tr ++ [(j, EvRequest req)])) = resp_term resp ∧
  ∃ l, leader_log tr (resp_term resp) l ∧ 0 ≤ confirmed resp ∧ (Z.to_nat (confirmed resp) ≤ length l)%nat ∧
    take (Z.to_nat (confirmed resp)) l `prefix_of` log_view (node j (tr ++ [(j, EvRequest req)])).
Proof.
  intros Hrun Hty Hresp Hacc. destruct (replication_snoc _ _ _ _ _ Hrun) as (Hr & Hj & Ha & _).
  destruct (run_in_service _ _ _ _ Hr Hj) as [Hs _].
  destruct (admissible_fits _ _ _ _ _ Hs Ha) as [Hfit _]; [intros k Hk; by apply (run_in_service C)|].
  destruct (Hfit req eq_refl) as [_ Hm]. specialize (Hm Hty).
  destruct (process_req req (node j tr)) as [o w'] eqn:Ep. cbn in Hresp. subst o.
  destruct (append_request_accepted req resp _ _ Hty Hm Ep Hacc) as [Hmg (Hsrc & Htm & Hnx)].
  assert (id_ (node j tr) = j) as Hid by (by destruct (run_local _ _ _ _ (replication_cluster _ _ _ Hr) Hj) as (_ & _ & ? & _)).
  rewrite node_same. cbn [handle_event]. rewrite (bind_step _ _ _ _ _ Ep). cbn [mret M_ret snd].
  destruct Hmg as [_ _ _ _ Hterm [Hcont Hv]]. split_and!; [congruence|congruence|].
  destruct Ha as (_ & _ & Hsent). destruct (Hsent (or_introl Hty)) as (k & Hk & Hin).
  destruct (run_rooted _ _ tr k Hr Hk) as [_ Hsk]. rewrite Forall_forall in Hsk.
  destruct (Hsk req Hin) as (l & Hll & Hlr & Hst & Hsl).
  destruct (run_rooted _ _ tr j Hr Hj) as [Hrj _]. exists l.
  destruct (merge_agrees (leader_log tr) ltac:(intros t l1 l2; by apply leader_log_chain) req _ _ l Hrj Hlr Hst Hsl Hcont)
    as [Hn Hp]. rewrite <-Hv in Hp.
  assert (confirmed resp = Z.of_nat (Z.to_nat (req_last_log_idx req) + length (req_log_entries req))) as ->.
  { pose proof (ma_idx _ _ Hm). pose proof (ma_room _ _ Hm) as Hroom. destruct Hcont as (_ & Hlen & _).
    pose proof (next_slot_spec _ (ma_ok _ _ Hm)) as Hns. pose proof (ma_start _ _ Hm) as Hstart.
    unfold confirmed, bounded, next_slot_, start_index_, log_view in *. rewrite Hnx.
    rewrite (u64_small (_ + 1)) by (unfold is_u64; lia). rewrite u64_small by (unfold is_u64; lia). lia. }
  rewrite Nat2Z.id, Htm. split_and!; [done|lia|done|done].
Qed.

(** The log of a leader has all its logs before. *)
Lemma office_latest tr i l :
  replication_run tr → i ∈ C → role_ (node i tr) = leader →
  leader_log tr (current_term (node i tr)) l → l `prefix_of` log_view (node i tr).
Proof.
  intros Hrun Hi Hl (a & b & j & -> & Hj & Hlj & Htj & <-).
  assert (j = i) as -> by (by eapply (one_leader_per_term C init a b); [apply replication_cluster|..]).
  by apply (office_log C).
Qed.

(** Some server gave this answer to an append request. *)
Definition ack_given (tr : list (Z * event)) (resp : resp_msg) : Prop :=
  ∃ tr1 j req tr2, tr = tr1 ++ (j, EvRequest req) :: tr2 ∧
    req_type req = append_entries_request ∧ (process_req req (node j tr1)).1 = Ok resp.

(** Answers that reach a leader are of its term, and nothing was matched when
    it took office. *)
Record timely (tr : list (Z * event)) (i : Z) (e : event) : Prop := {
  tm_answer obj req h resp : e = EvRpcResult obj req h (Some resp) →
    resp_type resp ≠ install_snapshot_response ∧
    (resp_type resp = append_entries_response → resp_accepted resp = true →
     ack_given tr resp ∧ (role_ (node i tr) = leader → resp_term resp = current_term (node i tr)));
  tm_office : role_ (node i tr) ≠ leader → role_ (handle_event e (node i tr)).2 = leader →
    ∀ j p, peers_ (handle_event e (node i tr)).2 !! j = Some p → matched_idx_ p = 0;
}.

Inductive commit_run : list (Z * event) → Prop :=
  | commit_start : raft_run [] → commit_run []
  | commit_step tr i e :
      commit_run tr → raft_run (tr ++ [(i, e)]) → timely tr i e → commit_run (tr ++ [(i, e)]).

Lemma commit_run_steps tr :
  raft_run tr → (∀ n i e, tr !! n = Some (i, e) → timely (take n tr) i e) → commit_run tr.
Proof.
  induction tr as [|[i e] tr IH] using rev_ind; intros Hr Hsteps; [by apply commit_start|].
  apply commit_step; [|done|].
  - apply IH; [by eapply raft_prefix|]. intros n j x Hn.
    rewrite <-(take_app_le tr [(i, e)]) by (apply lookup_lt_Some in Hn; lia).
    by apply Hsteps, lookup_app_l_Some.
  - specialize (Hsteps (length tr) i e). rewrite take_app_length in Hsteps. apply Hsteps. by rewrite list_lookup_middle.
Qed.

Lemma commit_raft tr : commit_run tr → raft_run tr.
Proof. by destruct 1. Qed.

Lemma commit_prefix tr1 tr2 : commit_run (tr1 ++ tr2) → commit_run tr1.
Proof.
  induction tr2 as [|x tr2 IH] using rev_ind; [by rewrite app_nil_r|].
  rewrite app_assoc. intros Hrun. apply IH. inversion Hrun as [? E|tr i e Hr ? ? E].
  - by destruct (app_cons_not_nil (tr1 ++ tr2) [] x).
  - by apply app_inj_tail in E as [<- _].
Qed.

Lemma commit_replication tr : commit_run tr → replication_run tr.
Proof. intros Hrun%commit_raft. by apply raft_replication. Qed.

(** The matched indices an event brings. *)
Definition news (e : event) (j m : Z) : Prop :=
  ∃ obj req h resp, e = EvRpcResult obj req h (Some resp) ∧ resp_type resp = append_entries_response ∧
    resp_accepted resp = true ∧ j = resp_src resp ∧ m = confirmed resp.

Lemma step_tallied tr i e :
  commit_run (tr ++ [(i, e)]) → tallied (news e) (node i tr) (node i (tr ++ [(i, e)])).
Proof.
  intros Hrun. inversion Hrun as [? E|tr0 i0 e0 _ Hr [Hans _] E]; [by destruct tr|].
  apply app_inj_tail in E as [-> [= -> ->]]. apply raft_replication in Hr.
  destruct (replication_snoc _ _ _ _ _ Hr) as (_ & _ & (Hp & _) & _). rewrite node_same.
  apply (tallied_handle_event (news e) e); [done|]. intros obj req h resp ->. destruct (Hans _ _ _ _ eq_refl) as [Hi _].
  split; [done|]. intros Hty Hacc. by exists obj, req, h, resp.
Qed.

(** At some moment of term [t] server [j] had the first [m] entries of [l]. *)
Definition credited (t : Z) (l : list log_entry) (tr : list (Z * event)) (j m : Z) : Prop :=
  m = 0 ∨ (0 ≤ m ∧ (Z.to_nat m ≤ length l)%nat ∧
    ∃ tr1 tr2, tr = tr1 ++ tr2 ∧ current_term (node j tr1) = t ∧
      take (Z.to_nat m) l `prefix_of` log_view (node j tr1)).

Lemma credited_more t l l' tr tr' j m :
  l `prefix_of` l' → credited t l tr j m → credited t l' (tr ++ tr') j m.
Proof.
  intros [s ->] [->|(H0 & Hm & a & b & -> & Ht & Hp)]; [by left|right]. split_and!; [done|rewrite length_app; lia|].
  exists a, (b ++ tr'). rewrite app_assoc. split_and!; [done..|]. by rewrite take_app_le.
Qed.

(** A matched index after an answer. *)
Lemma news_credited tr i e j m :
  commit_run (tr ++ [(i, e)]) → role_ (node i tr) = leader → news e j m →
  credited (current_term (node i tr)) (log_view (node i tr)) tr j m.
Proof.
  intros Hrun Hl (obj & req & h & resp & -> & Hty & Hacc & -> & ->).
  inversion Hrun as [? E|tr0 i0 e0 Hc Hr [Hans _] E]; [by destruct tr|].
  apply app_inj_tail in E as [-> [= -> ->]]. destruct (Hans _ _ _ _ eq_refl) as [_ Hg].
  destruct (Hg Hty Hacc) as [(a & k & req' & b & Htr & Hty' & Hresp) Ht]. specialize (Ht Hl).
  apply commit_replication in Hc. apply raft_replication in Hr.
  destruct (replication_snoc _ _ _ _ _ Hr) as (_ & Hi & _).
  assert (replication_run (a ++ [(k, EvRequest req')])) as Ha.
  { rewrite Htr, (cons_middle (k, _)), app_assoc in Hc. by eapply replication_prefix. }
  destruct (ack_stored _ _ _ _ Ha Hty' Hresp Hacc) as (Hsrc & Htm & l & Hll & H0 & Hlen & Hp).
  right. rewrite Hsrc. rewrite Ht in *.
  assert (l `prefix_of` log_view (node i tr)) as Hpre.
  { apply office_latest; [done..|]. apply (leader_log_more _ _ _ ((k, EvRequest req') :: b)) in Hll.
    by rewrite <-Htr in Hll. }
  pose proof (prefix_length _ _ Hpre). split_and!; [done|lia|].
  exists (a ++ [(k, EvRequest req')]), b. split_and!; [by rewrite Htr, <-app_assoc|done|].
  destruct Hpre as [s ->]. by rewrite take_app_le.
Qed.

Lemma tallied_credited tr i e (v : W) :
  commit_run (tr ++ [(i, e)]) → role_ (node i tr) = leader →
  (∀ j p, peers_ (node i tr) !! j = Some p →
     credited (current_term (node i tr)) (log_view (node i tr)) tr j (matched_idx_ p)) →
  tallied (news e) (node i tr) v → ∀ j q, peers_ v !! j = Some q →
  credited (current_term (node i tr)) (log_view (node i tr)) tr j (matched_idx_ q).
Proof.
  intros Hrun Hl Hold Ht j q Hq. destruct (Ht j q Hq) as [->|[(p & Hp & ->)|Hn]]; [by left|by apply Hold|].
  by eapply news_credited.
Qed.

(** What a leader has counted, its peers have stored. *)
Lemma run_credited tr i j p :
  commit_run tr → i ∈ C → role_ (node i tr) = leader → peers_ (node i tr) !! j = Some p →
  credited (current_term (node i tr)) (log_view (node i tr)) tr j (matched_idx_ p).
Proof.
  intros Hrun Hi. revert j p. induction Hrun as [Hr|tr k e Hrun IH Hr Hans]; intros j p Hl Hp.
  { apply raft_replication, replication_cluster in Hr. inversion Hr as [_ Hinit|? ? ? ? ? ? ? ? ? ? E]; [|by destruct tr].
    destruct (Hinit i Hi) as (_ & Hr' & _). unfold Cluster.node in Hl. cbn in Hl. congruence. }
  assert (commit_run (tr ++ [(k, e)])) as Hrun' by by apply commit_step.
  destruct (decide (i = k)) as [->|Hne].
  2:{ rewrite node_other in * by done. apply (credited_more _ (log_view (node i tr))); [done|]. by apply IH. }
  destruct (decide (role_ (node k tr) = leader)) as [Hl0|Hl0]; [|left; rewrite node_same in *; by eapply tm_office].
  apply raft_replication in Hr. pose proof (replication_cluster _ _ _ Hr) as Hcl.
  assert (current_term (node k (tr ++ [(k, e)])) = current_term (node k tr)) as Ht.
  { inversion Hcl as [? ? E|tr1 i1 e1 _ _ _ Hty (Ho & _) Hs _ E]; [by destruct tr|].
    apply app_inj_tail in E as [-> [= -> ->]]. assert (∀ u, (handle_event e (node k tr)).1 ≠ Fault u) as Hf by by inversion Hs.
    rewrite node_same in *. by apply step_office. }
  rewrite Ht. apply (credited_more _ (log_view (node k tr))); [by apply (office_log C)|].
  eapply tallied_credited; [done|done| |by apply step_tallied|done]. intros. by apply IH.
Qed.

(** A majority by the matched indices is one that has stored the entries. *)
Lemma majority_entrenched tr i (v : W) c rest :
  replication_run tr → i ∈ C → log_store_ v = log_store_ (node i tr) → peer_set v = C ∖ {[i]} →
  (∀ j q, peers_ v !! j = Some q →
     credited (current_term (node i tr)) (log_view (node i tr)) tr j (matched_idx_ q)) →
  0 < c → (length (matched_indexes v) < 2 * have c (matched_indexes v))%nat →
  le_term <$> log_view (node i tr) !! Z.to_nat (c - 1) = Some (current_term (node i tr)) →
  entrenched C init (tr ++ rest) (take (Z.to_nat c) (log_view (node i tr))).
Proof.
  intros Hrun Hi Hlog Hps Hcr Hc Hmaj Hterm. set (L := log_view (node i tr)) in *.
  pose proof (entry_last_term L c _ Hc Hterm) as Hlt.
  destruct (L !! Z.to_nat (c - 1)) as [x|] eqn:Hx; [|done].
  assert (i ∉ peer_set v) as Hni by (rewrite Hps; set_solver).
  set (big := filter (λ x : Z * peer, c ≤ matched_idx_ x.2) (peers_ v)).
  assert (dom big ⊆ peer_set v) as Hbig by (apply dom_filter_subseteq).
  split.
  { intros E. apply (f_equal length) in E. rewrite length_take in E. apply lookup_lt_Some in Hx. cbn in E. lia. }
  exists ({[i]} ∪ dom big). split_and!; [set_solver| |].
  - rewrite size_union, size_singleton, size_dom by set_solver. unfold matched_indexes, big in *.
    rewrite <-(have_map matched_idx_ c (peers_ v)). cbn [length] in Hmaj. rewrite !length_fmap in Hmaj.
    rewrite length_map_to_list, <-size_dom in Hmaj. fold (peer_set v) in Hmaj.
    rewrite Hps, size_difference, size_singleton in Hmaj by set_solver.
    assert (size C ≠ 0%nat) by (apply size_non_empty_iff; set_solver). unfold have in *.
    rewrite filter_cons in Hmaj. destruct (decide _); cbn [length] in Hmaj; lia.
  - intros s [->%elem_of_singleton|Hs]%elem_of_union.
    + exists tr, rest. split_and!; [done|done|apply prefix_take].
    + apply elem_of_dom in Hs as [q [Hq Hle]%map_lookup_filter_Some]. cbn in Hle.
      destruct (Hcr s q Hq) as [?|(_ & Hlen & a & b & -> & Ha & Hp)]; [lia|].
      exists a, (b ++ rest). rewrite app_assoc. split_and!; [done|by rewrite Ha|]. etrans; [|exact Hp].
      rewrite <-(Nat.min_l (Z.to_nat c) (Z.to_nat (matched_idx_ q))), <-take_take by lia. apply prefix_take.
Qed.

(** What an answer commits is stored by a majority. *)
Lemma commit_entrenched tr rest i obj req resp :
  let e := EvRpcResult obj req resp_handler (Some resp) in
  let w := node i tr in
  let c := quick_commit_idx_ (node i (tr ++ [(i, e)])) in
  commit_run (tr ++ [(i, e)]) → role_ w = leader →
  resp_type resp = append_entries_response → resp_accepted resp = true →
  quick_commit_idx_ w < c → 0 < c → le_term <$> log_view w !! Z.to_nat (c - 1) = Some (current_term w) →
  entrenched C init (tr ++ rest) (take (Z.to_nat c) (log_view w)).
Proof.
  intros e w c Hrun Hl Hty Hacc Hraise Hpos Hterm.
  inversion Hrun as [? E|tr0 i0 e0 Hc Hr [Hans _] E]; [by destruct tr|].
  apply app_inj_tail in E as [-> [= -> ->]]. destruct (Hans _ _ _ _ eq_refl) as [_ Hg].
  destruct (Hg Hty Hacc) as [_ Ht]. specialize (Ht Hl). clear Hans Hg.
  pose proof (commit_replication _ Hc) as Hrun0.
  destruct (replication_snoc _ _ _ _ _ (raft_replication _ _ _ Hr)) as (_ & Hi & _).
  destruct (run_local _ _ _ _ (replication_cluster _ _ _ Hrun0) Hi) as (_ & _ & _ & Hps & _).
  assert (c = quick_commit_idx_ (handle_rpc_result obj req resp_handler (Some resp) w).2) as Ec
    by (unfold c; by rewrite node_same).
  destruct (answer_commits obj req resp w Hty Hacc) as [Hq|(v & c' & Hta & Hlog & Hp & Hq & Hmaj)];
    [unfold w; lia|lia|].
  assert (c' = c) as -> by lia.
  apply (majority_entrenched tr i v); try done; [by rewrite Hp|].
  apply (tallied_credited tr i e v); [done|done|intros j p; by apply run_credited|].
  intros j q Hj. destruct (Hta j q Hj) as [?|[?|[-> Hm]]]; [by left|right; by left|right; right].
  by exists obj, req, resp_handler, resp.
Qed.

(** An answer lets a leader of term [t] commit [l], whose last entry is of this
    term. *)
Inductive commits (tr : list (Z * event)) (t : Z) (l : list log_entry) : Prop :=
  | own_commit tr1 tr2 i obj req resp :
      let e := EvRpcResult obj req resp_handler (Some resp) in
      let w := node i tr1 in
      let c := quick_commit_idx_ (node i (tr1 ++ [(i, e)])) in
      tr = (tr1 ++ [(i, e)]) ++ tr2 → role_ w = leader → current_term w = t →
      resp_type resp = append_entries_response → resp_accepted resp = true →
      quick_commit_idx_ w < c → 0 < c → le_term <$> log_view w !! Z.to_nat (c - 1) = Some t →
      l = take (Z.to_nat c) (log_view w) →
      commits tr t l.

Lemma commits_spec tr t l :
  commit_run tr → commits tr t l →
  entrenched C init tr l ∧ last_term l = t ∧ ∃ l', leader_log tr t l' ∧ l `prefix_of` l'.
Proof.
  intros Hrun [tr1 tr2 i obj req resp e w c -> Hl Ht Hty Hacc Hraise Hpos Hterm ->].
  pose proof (commit_prefix _ _ Hrun) as Hrun1. split_and!.
  - rewrite <-app_assoc. apply (commit_entrenched tr1 _ i obj req resp); try done. fold w. by rewrite Ht.
  - by apply entry_last_term.
  - exists (log_view w). split; [|apply prefix_take]. apply commit_replication in Hrun1.
    destruct (replication_snoc _ _ _ _ _ Hrun1) as (_ & Hi & _).
    exists tr1, ([(i, e)] ++ tr2), i. by rewrite <-app_assoc.
Qed.

(** C4: what a leader commits in its own term stays.  When an accepted answer
    raises a leader's commit index to an entry of its term, the log up to this
    entry is in the log of every leader of a later term, in any run in which
    the answers that reach a leader are of its term and its peers' matched
    indices were 0 when it took office. *)
Theorem committed_stays (tr tr1 tr2 : list (Z * event)) (t k : Z) (l : list log_entry) :
  commit_run tr → commits tr t l → tr = tr1 ++ tr2 → k ∈ C →
  role_ (node k tr1) = leader → t < current_term (node k tr1) → l `prefix_of` log_view (node k tr1).
Proof.
  intros Hrun Hc Htr Hk Hl Hlt. destruct (commits_spec _ _ _ Hrun Hc) as (Hent & Ht & _).
  eapply (later_leaders C init _ _ (current_term (node k tr1))); [by apply commit_raft|exact Hent|by rewrite Ht|].
  by exists tr1, tr2, k.
Qed.

(** C5: commits agree.  Whatever two leaders, of the same or of different
    terms, commit of their own terms in such a run, one is a prefix of the
    other: no two of them commit different entries at one index. *)
Theorem commits_agree (tr : list (Z * event)) (t1 t2 : Z) (l1 l2 : list log_entry) :
  commit_run tr → commits tr t1 l1 → commits tr t2 l2 → l1 `prefix_of` l2 ∨ l2 `prefix_of` l1.
Proof.
  intros Hrun H1 H2. pose proof (commit_raft _ Hrun) as Hraft.
  destruct (commits_spec _ _ _ Hrun H1) as (He1 & Ht1 & l1' & Hl1 & Hp1).
  destruct (commits_spec _ _ _ Hrun H2) as (He2 & Ht2 & l2' & Hl2 & Hp2).
  destruct (Z.lt_trichotomy t1 t2) as [Hlt|[->|Hlt]].
  - eapply prefix_weak_total; [|exact Hp2]. eapply later_leaders; [done|exact He1| |exact Hl2]. lia.
  - eapply (chain_total (leader_log tr)); [intros t la lb; by apply run_chain|exact Hl1|exact Hl2|done..].
  - eapply prefix_weak_total; [exact Hp1|]. eapply later_leaders; [done|exact He2| |exact Hl1]. lia.
Qed.
End cluster.

#[local] Existing Instance zero_mem.

(** Server 2 answers the request that brought it the entry, which server 1
    commits; then server 2 is elected, takes an entry, brings both to server 3
    and commits them. *)
Definition carry_ok : resp_msg := reply 1 2 1 2 true.
Definition take_over : list (Z * event) :=
  [(2, EvTimer 1 true); (3, EvRequest ask_of_2); (2, answer 1 ask_of_2 vote_of_3);
   (2, EvRequest (client_req client_request [farewell]));
   (3, EvRequest (carry 2 2 3 1 1 [])); (2, answer 1 (carry 2 2 3 1 1 []) (reply 2 3 2 1 false));
   (3, EvRequest (carry 2 2 3 0 0 [hello; farewell]))].
Definition both_ok : event := answer 1 (carry 2 2 3 0 0 [hello; farewell]) (reply 2 3 2 3 true).
Definition trio_commit : list (Z * event) :=
  ((trio_replication ++ [(1, answer 0 carry_hello carry_ok)]) ++ take_over) ++ [(2, both_ok)].

Lemma trio_commit_raft : raft_run trio trio_start trio_commit.
Proof.
  apply raft_run_steps; [exact trio_raft_start|]. intros n i e Hn.
  do 16 (try (destruct n as [|n]; [injection Hn as <- <-; constructor; unfold both_ok, answer; follows|])).
  discriminate Hn.
Qed.

Lemma ack_given_before tr m j req resp :
  tr !! m = Some (j, EvRequest req) → req_type req = append_entries_request →
  (process_req req (node trio_start j (take m tr))).1 = Ok resp → ack_given trio_start tr resp.
Proof.
  intros Hm Hty Hr. exists (take m tr), j, req, (drop (S m) tr). split_and!; [|done..]. by rewrite take_drop_middle.
Qed.

Lemma fresh_office (w : sample_state) :
  Forall (λ x, matched_idx_ x.2 = 0) (map_to_list (peers_ w)) →
  ∀ j p, peers_ w !! j = Some p → matched_idx_ p = 0.
Proof. rewrite Forall_forall. intros Hf j p Hp%elem_of_map_to_list. by apply (Hf (j, p)). Qed.

(** The conditions on an event of the run; the request an answer belongs to is
    event [m]. *)
Ltac in_time m :=
  constructor;
  [let E := fresh in intros ? ? ? ? E;
   first [discriminate E
         |injection E as <- <- <- <-; split; [discriminate|];
          first [discriminate
                |intros _ _; split; [eapply (ack_given_before _ m); [reflexivity..|vm_compute; reflexivity]|
                                     intros _; vm_compute; reflexivity]]]
  |let Hb := fresh in let Ha := fresh in
   intros Hb Ha; first [vm_compute in Ha; discriminate Ha|destruct Hb; vm_compute; reflexivity|
                        apply fresh_office; vm_compute; repeat constructor]].

Lemma trio_commits : commit_run trio trio_start trio_commit.
Proof.
  apply commit_run_steps; [exact trio_commit_raft|]. intros n i e Hn.
  do 16 (try (destruct n as [|n]; [injection Hn as <- <-; unfold both_ok, answer;
    first [in_time 4%nat|in_time 6%nat|in_time 14%nat]|])).
  discriminate Hn.
Qed.

Lemma first_commit : commits trio_start trio_commit 1 [hello].
Proof.
  apply (own_commit trio_start _ _ _ trio_replication (take_over ++ [(2, both_ok)]) 1 0 carry_hello carry_ok);
    vm_compute; reflexivity.
Qed.

Lemma second_commit : commits trio_start trio_commit 2 [hello; farewell].
Proof.
  apply (own_commit trio_start _ _ _ ((trio_replication ++ [(1, answer 0 carry_hello carry_ok)]) ++ take_over) [] 2 1
    (carry 2 2 3 0 0 [hello; farewell]) (reply 2 3 2 3 true)); vm_compute; reflexivity.
Qed.

Lemma committed_stays_witness :
  role_ (node trio_start 2 trio_commit) = leader ∧ [hello] `prefix_of` log_view (node trio_start 2 trio_commit).
Proof.
  split; [vm_compute; reflexivity|].
  apply (committed_stays trio trio_start trio_commit trio_commit [] 1 2);
    [exact trio_commits|exact first_commit|by rewrite app_nil_r|vm_compute; reflexivity..].
Defined.

Lemma commits_agree_witness : [hello] `prefix_of` [hello; farewell] ∨ [hello; farewell] `prefix_of` [hello].
Proof.
  apply (commits_agree trio trio_start trio_commit 1 2);
    [exact trio_commits|exact first_commit|exact second_commit].
Defined.
