(* ===== verification/Reconfig.v ===== *)
(** * Reconfiguration

    [reconfigure] makes the set of peers the one of the new configuration. *)

From S2P Require Import Prelude Buffer Config Messages LogStore StateMachine StateMgr Scheduler Peer Server Membership Requests Responses Samples Frames PeerSet.

(** ** Tasks are never freed *)

Definition tasks_grow : relation ServicePort := λ s s', dom (tasks s) ⊆ dom (tasks s').
#[global] Instance tasks_grow_preorder : PreOrder tasks_grow.
Proof. split; unfold tasks_grow; [by intros s|intros ???; set_solver]. Qed.

Lemma within_tasks_set t d : within tasks_grow (set_task t d).
Proof. intros s. unfold tasks_grow, set_task, modify, update; cbn. rewrite dom_insert. set_solver. Qed.

Lemma within_tasks_get t : within tasks_grow (get_task t).
Proof. unfold get_task. within_solve ignored. Qed.
#[local] Hint Resolve within_tasks_set within_tasks_get : within.

Lemma within_tasks_new b : within tasks_grow (new_task b).
Proof.
  intros s. rewrite new_task_spec. unfold tasks_grow, update; cbn. rewrite dom_insert. set_solver.
Qed.

Lemma within_tasks_schedule t ms : within tasks_grow (schedule t ms).
Proof. unfold schedule, emit_timer. within_solve ignored. Qed.

Lemma within_tasks_cancel t : within tasks_grow (cancel t).
Proof. unfold cancel, cancel_impl, emit_timer. within_solve ignored. Qed.

(** A configuration has a server of this id. *)
Lemma get_server_elem c i : get_server c i ≠ None ↔ i ∈ sc_id <$> servers_ c.
Proof.
  unfold get_server. generalize (servers_ c) as l. induction l as [|s l IH]; cbn.
  - set_solver.
  - rewrite elem_of_cons. destruct (Z.eqb_spec (sc_id s) i) as [->|]; [split; [by left|done]|].
    rewrite IH. naive_solver.
Qed.

Section reconfig.
Context `{FreshMem} {LS SM : Type} `{!log_store LS} `{!state_machine SM}.
#[local] Abbreviation W := (raft_server LS SM).

(** The heartbeat timers of the peers exist. *)
Definition heartbeats_exist (w : W) : Prop :=
  ∀ i p, peers_ w !! i = Some p → hb_task_ p ∈ dom (tasks (scheduler_ w)).

(** ** New peers *)

Lemma new_peer_ok c (w : W) :
  ∃ p w', new_peer c w = (Ok p, w') ∧ p_config p = c ∧ next_log_idx_ p = 0 ∧
    hb_task_ p ∈ dom (tasks (scheduler_ w')) ∧ tasks_grow (scheduler_ w) (scheduler_ w').
Proof.
  unfold new_peer, emit. rewrite bind_gets, !bind_modify.
  erewrite bind_step by apply on_step, new_task_spec. rewrite bind_gets.
  eexists _, _. split; [reflexivity|]. split_and!; [done..| |].
  - unfold update; cbn. rewrite dom_insert. set_solver.
  - unfold tasks_grow, update; cbn. rewrite dom_insert. set_solver.
Qed.

Lemma enable_hb_for_peer_ok p (w : W) :
  hb_task_ p ∈ dom (tasks (scheduler_ w)) →
  ∃ p' w', enable_hb_for_peer p w = (Ok p', w') ∧ p_config p' = p_config p ∧
    hb_task_ p' = hb_task_ p ∧ hb_enabled_ p' = true ∧ next_log_idx_ p' = next_log_idx_ p ∧
    tasks_grow (scheduler_ w) (scheduler_ w').
Proof.
  intros [d Hd]%elem_of_dom. unfold enable_hb_for_peer, enable_hb. cbn [negb when].
  rewrite bind_assoc, !bind_ret. cbv zeta. set (q := resume_hb_speed _).
  pose proof (within_tasks_schedule (hb_task_ q) (current_hb_interval_ q) (scheduler_ w)) as Hg.
  destruct (schedule_spec (hb_task_ q) (current_hb_interval_ q) d (scheduler_ w)) as (uid & last & _ & Hs);
    [exact Hd|].
  erewrite bind_step by by apply on_step. rewrite Hs in Hg.
  eexists _, _. split; [reflexivity|]. done.
Qed.

(** The peers after a server was added: the new one, if its id was free. *)
Lemma add_server_ok s (w : W) :
  heartbeats_exist w →
  ∃ p w', add_server s w = (Ok tt, w') ∧ heartbeats_exist w' ∧ p_id p = sc_id s ∧
    peers_ w' = (if decide (peers_ w !! sc_id s = None) then <[sc_id s := p]> (peers_ w) else peers_ w) ∧
    (role_ w = leader → hb_enabled_ p = true).
Proof.
  intros Hhb. unfold add_server.
  destruct (new_peer_ok s w) as (p & w1 & Hw1 & Hc & _ & Ht & Hg).
  pose proof (within_elim (same (λ w, (peers_ w, role_ w, srv_to_join_ w))) _ _ _ _
    (within_new_peer _ _) Hw1) as [= Hp1 Hr1 Hj1].
  rewrite (bind_step _ _ _ _ _ Hw1), bind_get. cbv zeta.
  set (p0 := set_next_log_idx _ p).
  match goal with |- context [(?m0 ≫= _) w1] => set (m := m0) end.
  assert (∃ q w2, m w1 = (Ok q, w2) ∧ p_config q = s ∧ hb_task_ q = hb_task_ p ∧
    peers_ w2 = peers_ w ∧ tasks_grow (scheduler_ w1) (scheduler_ w2) ∧
    (role_ w = leader → hb_enabled_ q = true)) as (q & w2 & Hw2 & Hq & Htq & Hp2 & Hg2 & Hen).
  { unfold m. rewrite Hr1. destruct (bool_decide_reflect (role_ w = leader)); cycle 1.
    { by eexists p0, w1. }
    destruct (enable_hb_for_peer_ok p0 w1 Ht) as (q & w2 & Hw2 & Hcq & Htq & Hen & _ & Hg2).
    pose proof (within_elim (same peers_) _ _ _ _ (within_enable_hb_for_peer _ _) Hw2) as Hp2.
    unfold same in Hp2. rewrite (bind_step _ _ _ _ _ Hw2).
    assert (p_config q = s) as Hqs by by rewrite Hcq.
    destruct (srv_to_join_ w1) as [j|]; [destruct (p_id j =? p_id q)|];
      eexists _, _; (split; [reflexivity|]); split_and!; try done; by rewrite <-Hp1. }
  rewrite (bind_step _ _ _ _ _ Hw2). clearbody m.
  assert (hb_task_ q ∈ dom (tasks (scheduler_ w2))) as Hdom by (rewrite Htq; by apply Hg2).
  assert (∀ i x, peers_ w !! i = Some x → hb_task_ x ∈ dom (tasks (scheduler_ w2))) as Hold.
  { intros i x Hx. apply Hg2, Hg. by apply (Hhb i). }
  exists q. rewrite Hp1. destruct (decide (peers_ w !! sc_id s = None)) as [Hnone|Hsome].
  - rewrite bool_decide_eq_true_2 by done. cbn [when]. eexists. split; [reflexivity|].
    split_and!; [|unfold p_id; by rewrite Hq|unfold update; cbn; by rewrite Hp2|done].
    intros i x. unfold update; cbn. rewrite Hp2, lookup_insert_Some.
    intros [[_ <-]|[_ Hx]]; [done|by apply (Hold i)].
  - rewrite bool_decide_eq_false_2 by done. cbn [when]. eexists. split; [reflexivity|].
    split_and!; [|unfold p_id; by rewrite Hq|done|done].
    intros i x. rewrite Hp2. apply Hold.
Qed.

(** A peer set up for a server of the configuration. *)
Definition peer_for (w : W) (i : Z) (p : peer) : Prop :=
  p_id p = i ∧ (role_ w = leader → hb_enabled_ p = true).

Lemma add_servers_ok l (w : W) :
  heartbeats_exist w →
  ∃ w', for_each l add_server w = (Ok tt, w') ∧ heartbeats_exist w' ∧
    dom (peers_ w') = dom (peers_ w) ∪ list_to_set (sc_id <$> l) ∧
    (∀ i p, peers_ w !! i = Some p → peers_ w' !! i = Some p) ∧
    (∀ i p, peers_ w' !! i = Some p → peers_ w !! i = Some p ∨ peer_for w i p).
Proof.
  revert w. induction l as [|s l IH]; intros w Hhb.
  { exists w. cbn. split_and!; [done|done|set_solver|done|by left]. }
  destruct (add_server_ok s w Hhb) as (q & w1 & Hw1 & Hhb1 & Hid & Hp1 & Hen).
  pose proof (within_elim (same role_) _ _ _ _ (within_add_server _ _) Hw1) as Hr1.
  destruct (IH w1 Hhb1) as (w' & Hw' & Hhb' & Hdom & Hkeep & Hnew).
  exists w'. cbn [for_each]. rewrite (bind_step _ _ _ _ _ Hw1). unfold same, peer_for in *.
  split_and!; [done..| | |].
  - rewrite Hdom, Hp1. cbn. destruct (decide (peers_ w !! sc_id s = None)) as [|Hs].
    + rewrite dom_insert_L. set_solver.
    + apply not_eq_None_Some, elem_of_dom in Hs. set_solver.
  - intros i p Hp. apply Hkeep. rewrite Hp1.
    destruct (decide _) as [Hn|]; [rewrite lookup_insert_ne; congruence|done].
  - intros i p [Hp|Hp]%Hnew; [|right; by rewrite <-Hr1]. rewrite Hp1 in Hp.
    destruct (decide _) as [Hn|]; [|by left].
    apply lookup_insert_Some in Hp as [[<- <-]|[_ Hp]]; [by right|by left].
Qed.

(** ** Leaving peers *)

(** A configuration the state manager can keep. *)
Definition savable (c : cluster_config) : Prop :=
  cluster_config_ok c ∧ fits [] (cluster_config_encode c).

Lemma persist_config_ok c (w : W) :
  savable c → ∃ w', persist_config c w = (Ok tt, w') ∧
    peers_ w' = peers_ w ∧ scheduler_ w' = scheduler_ w.
Proof.
  intros [Hc Hf]. unfold persist_config. erewrite on_step by by apply save_config_spec. by eexists.
Qed.

(** The loop returns early at this server, unless it is catching up; the peers
    it has not come to stay. *)
Lemma remove_servers_ok c l (w : W) :
  heartbeats_exist w → Forall (λ i, i ≠ id_ w ∨ catching_up_ w = true) l ∨ savable c →
  ∃ b w', remove_servers c l w = (Ok b, w') ∧ heartbeats_exist w' ∧
    (∀ i, peers_ w' !! i = peers_ w !! i ∨ peers_ w' !! i = None) ∧
    (Forall (λ i, i ≠ id_ w ∨ catching_up_ w = true) l →
     b = true ∧ ∀ i, peers_ w' !! i = if decide (i ∈ l) then None else peers_ w !! i).
Proof.
  revert w. induction l as [|j l IH]; intros w Hhb Hl; cbn [remove_servers].
  { exists true, w. split_and!; [done..|by left|done]. }
  rewrite bind_get. destruct ((j =? id_ w) && negb (catching_up_ w)) eqn:Hself.
  { assert (¬ Forall (λ i, i ≠ id_ w ∨ catching_up_ w = true) (j :: l)) as Hno.
    { apply andb_true_iff in Hself as [->%Z.eqb_eq Hcu%negb_true_iff].
      intros [[?|?] _]%Forall_cons; congruence. }
    destruct Hl as [Hl|Hs]; [done|]. destruct (persist_config_ok c w Hs) as (w1 & Hw1 & Hp1 & Hs1).
    rewrite (bind_step _ _ _ _ _ Hw1). unfold system_exit, emit. rewrite bind_modify.
    eexists false, _. split; [reflexivity|]. unfold heartbeats_exist, update; cbn. rewrite Hp1, Hs1.
    split_and!; [exact Hhb|by left|done]. }
  assert (Forall (λ i, i ≠ id_ w ∨ catching_up_ w = true) l ∨ savable c) as Hl'.
  { destruct Hl as [[_ Hl]%Forall_cons|]; [by left|by right]. }
  destruct (peers_ w !! j) as [p|] eqn:Hp; cycle 1.
  { destruct (IH w Hhb Hl') as (b & w' & Hw' & Hhb' & Hsub & Hlk). exists b, w'. split_and!; [done..|].
    intros [_ Hall]%Forall_cons. destruct (Hlk Hall) as [-> Hlk']. split; [done|]. intros i. rewrite Hlk'.
    destruct (decide (i ∈ l)), (decide (i ∈ j :: l)) as [Hin|Hin]; try done.
    - set_solver.
    - apply elem_of_cons in Hin as [->|]; done. }
  pose proof (Hhb j p Hp) as [d Hd]%elem_of_dom.
  pose proof (within_tasks_cancel (hb_task_ p) (scheduler_ w)) as Hg.
  destruct (cancel_spec _ _ _ Hd) as (calls & Hc). rewrite Hc in Hg.
  unfold enable_hb. cbn [negb when]. rewrite bind_assoc.
  erewrite bind_step by by apply on_step. rewrite bind_ret, bind_modify.
  set (w1 := update peers_ _ _).
  assert (peers_ w1 = delete j (peers_ w)) as Hp1 by done.
  assert (tasks_grow (scheduler_ w) (scheduler_ w1)) as Hg1 by exact Hg.
  assert (same (λ w, (id_ w, catching_up_ w)) w w1) as Hsame by done.
  clearbody w1. injection Hsame as Hid Hcu.
  destruct (IH w1) as (b & w' & Hw' & Hhb' & Hsub & Hlk); [|by rewrite Hid, Hcu|].
  { intros i q. rewrite Hp1, lookup_delete_Some. intros [_ Hq]. apply Hg1. by apply (Hhb i). }
  exists b, w'. split_and!; [done..| |].
  { intros i. destruct (Hsub i) as [->|]; [|by right]. rewrite Hp1.
    destruct (decide (i = j)) as [->|]; [right; by apply lookup_delete_eq|left; by apply lookup_delete_ne]. }
  intros [_ Hall]%Forall_cons. destruct Hlk as [-> Hlk]; [by rewrite Hid, Hcu|]. split; [done|].
  intros i. rewrite Hlk, Hp1. destruct (decide (i = j)) as [->|].
  - rewrite lookup_delete_eq, (decide_True (P := j ∈ j :: l)) by set_solver.
    by destruct (decide (j ∈ l)).
  - rewrite lookup_delete_ne by done.
    destruct (decide (i ∈ l)), (decide (i ∈ j :: l)); set_solver.
Qed.

(** The new configuration does not end this server. *)
Definition stays (c : cluster_config) (w : W) : Prop :=
  catching_up_ w = true ∨ get_server c (id_ w) ≠ None.

(** [reconfigure] in general: it returns, and when the server stays the new
    configuration is in force. *)
Lemma reconfigure_ok (c : cluster_config) (w : W) :
  heartbeats_exist w → peers_ w !! id_ w = None → stays c w ∨ savable c →
  ∃ w', reconfigure c w = (Ok tt, w') ∧ heartbeats_exist w' ∧ peers_ w' !! id_ w = None ∧
    (stays c w → config_ w' = c ∧
     (∀ i, i ∈ dom (peers_ w') ↔ i ∈ sc_id <$> servers_ c ∧ i ≠ id_ w) ∧
     (∀ i p, peers_ w !! i = Some p → i ∈ sc_id <$> servers_ c → peers_ w' !! i = Some p) ∧
     (∀ i p, peers_ w' !! i = Some p → peers_ w !! i = Some p ∨ peer_for w i p)).
Proof.
  intros Hhb Hself Hin. unfold reconfigure. rewrite bind_get.
  destruct (add_servers_ok (srvs_added c w) w Hhb) as (w1 & Hw1 & Hhb1 & Hdom & Hkeep & Hnew).
  pose proof (within_elim (same (λ w, (id_ w, catching_up_ w))) (for_each (srvs_added c w) add_server)
    _ _ _ ltac:(within_solve ignored) Hw1) as [= Hid Hcu].
  cbv zeta. rewrite (bind_step _ _ _ _ _ Hw1).
  assert (∀ i, i ∈ srvs_removed c w ↔
    get_server c i = None ∧ (i ∈ dom (peers_ w) ∨ i = id_ w)) as Hrem.
  { intros i. unfold srvs_removed. rewrite elem_of_app, list_elem_of_filter, elem_of_peer_ids.
    unfold peer_set. destruct (bool_decide_reflect (get_server c (id_ w) = None)) as [Hn|Hn];
      [rewrite list_elem_of_singleton|rewrite elem_of_nil]; naive_solver. }
  assert (stays c w → Forall (λ i, i ≠ id_ w1 ∨ catching_up_ w1 = true) (srvs_removed c w)) as Hst.
  { intros Hs. apply Forall_forall. intros i Hi. rewrite Hid, Hcu. apply Hrem in Hi as [Hn Hi].
    destruct Hs as [?|Hs]; [by right|left]. by intros ->. }
  assert (∀ i, i ∈ sc_id <$> srvs_added c w ↔
    get_server c i ≠ None ∧ peers_ w !! i = None ∧ i ≠ id_ w) as Hadd.
  { intros i. rewrite get_server_elem. unfold srvs_added. rewrite !list_elem_of_fmap.
    setoid_rewrite list_elem_of_filter. naive_solver. }
  assert (∀ i, i ∈ dom (peers_ w1) ↔ i ∈ dom (peers_ w) ∨
    get_server c i ≠ None ∧ peers_ w !! i = None ∧ i ≠ id_ w) as Hd1.
  { intros i. rewrite Hdom, elem_of_union, elem_of_list_to_set, Hadd. done. }
  destruct (remove_servers_ok c (srvs_removed c w) w1 Hhb1) as (b & w2 & Hw2 & Hhb2 & Hsub & Hlk);
    [naive_solver|].
  rewrite (bind_step _ _ _ _ _ Hw2).
  assert (peers_ w2 !! id_ w = None) as Hself2.
  { destruct (Hsub (id_ w)) as [->|]; [|done]. apply not_elem_of_dom. rewrite Hd1, elem_of_dom, Hself.
    intros [[? ?]|(_ & _ & ?)]; done. }
  destruct b; cbn [when]; cycle 1.
  { exists w2. split_and!; [done..|]. intros [? _]%Hst%Hlk. done. }
  unfold set_config. rewrite bind_modify. erewrite on_step by reflexivity. eexists. split; [reflexivity|].
  set (w3 := update state_mgr_ _ _). assert (peers_ w3 = peers_ w2) as Hp3 by done.
  assert (scheduler_ w3 = scheduler_ w2) as Hs3 by done.
  assert (config_ w3 = c) as Hc3 by done. clearbody w3.
  split_and!; [intros i p; rewrite Hp3, Hs3; apply Hhb2|by rewrite Hp3|].
  intros [_ Hlk']%Hst%Hlk. split_and!; [done| | |].
  - intros i. rewrite <-get_server_elem, Hp3, elem_of_dom, Hlk'.
    destruct (decide (i ∈ srvs_removed c w)) as [Hr|Hr].
    + apply Hrem in Hr as [? _]. split; [by intros [? ?]|naive_solver].
    + rewrite <-elem_of_dom, Hd1. split.
      * intros [Hi|(? & _ & ?)]; [|done]. split; [intros Hn; apply Hr, Hrem; by auto|].
        intros ->. apply elem_of_dom in Hi as [? ?]. congruence.
      * intros [Hg Hne]. destruct (peers_ w !! i) eqn:Hi; [left; by apply elem_of_dom_2 in Hi|by auto].
  - intros i p Hp Hi. rewrite Hp3, Hlk', decide_False; [by apply Hkeep|].
    intros [Hn _]%Hrem. by apply get_server_elem in Hi.
  - intros i p. rewrite Hp3, Hlk'. destruct (decide _); [done|]. apply Hnew.
Qed.

(** C9: a new configuration takes effect.  Unless it leaves this server out,
    after [reconfigure] the configuration is the new one and there is a peer
    for exactly the other servers of it; a server that stays keeps its peer
    object with all it has recorded, a server that is new has one of its own,
    with heartbeats on when this server leads. *)
Theorem reconfigure_installs (c : cluster_config) (w : W) :
  heartbeats_exist w → peers_ w !! id_ w = None →
  (catching_up_ w = true ∨ get_server c (id_ w) ≠ None) →
  ∃ w', reconfigure c w = (Ok tt, w') ∧ config_ w' = c ∧ heartbeats_exist w' ∧
    (∀ i, i ∈ dom (peers_ w') ↔ i ∈ sc_id <$> servers_ c ∧ i ≠ id_ w) ∧
    (∀ i p, peers_ w !! i = Some p → i ∈ sc_id <$> servers_ c → peers_ w' !! i = Some p) ∧
    (∀ i p, peers_ w' !! i = Some p → peers_ w !! i = Some p ∨ peer_for w i p).
Proof.
  intros Hhb Hself Hin. destruct (reconfigure_ok c w Hhb Hself (or_introl Hin)) as (w' & Hw' & Hhb' & _ & Hc).
  destruct (Hc Hin) as (? & ? & ? & ?). by exists w'.
Qed.
End reconfig.

#[local] Existing Instance zero_mem.

(** Server 3 leaves the sample cluster, server 4 joins. *)
Lemma reconfigure_installs_witness :
  ∃ w', reconfigure (cluster_of [1; 2; 4]) server1_leader = (Ok tt, w') ∧
    ∀ i, i ∈ dom (peers_ w') ↔ i ∈ [1; 2; 4] ∧ i ≠ 1.
Proof.
  destruct (reconfigure_installs (cluster_of [1; 2; 4]) server1_leader) as
    (w' & Hw & _ & _ & Hd & _).
  - assert (map_Forall (λ _ p, hb_task_ p ∈ dom (tasks (scheduler_ server1_leader)))
      (peers_ server1_leader)) as Hb by (refine (bool_decide_unpack _ _); vm_compute; exact I).
    exact Hb.
  - vm_compute. reflexivity.
  - right. vm_compute. congruence.
  - exists w'. split; [exact Hw|]. exact Hd.
Defined.
