(* ===== verification/Commit.v ===== *)
(** * The commit thread

    [commit_in_bg] of src/raft_enclave/raft/src/raft_server.cxx: entries the
    cluster has agreed on are handed to the state machine, configurations among
    them take effect. *)

From S2P Require Import Prelude Buffer Config Messages LogStore StateMachine StateMgr Scheduler Peer Server Membership Requests Responses Samples Frames PeerSet Reconfig.

Section commit.
Context `{FreshMem} {LS SM : Type} `{!log_store LS} `{!state_machine SM}
  `{!state_machine_laws SM}.
#[local] Abbreviation W := (raft_server LS SM).

(** The last entry that may be applied, and the entries up to it. *)
Definition commit_target (w : W) : Z := Z.min (quick_commit_idx_ w) (u64 (next_slot_ w - 1)).
Definition to_apply (w : W) : list Z :=
  seqZ (sm_commit_index_ w + 1) (commit_target w - sm_commit_index_ w).

(** The calls of the state machine so far. *)
Definition commit_of (e : effect) : option (Z * buffer) :=
  match e with ECommit idx data => Some (idx, data) | _ => None end.
Definition commits (w : W) : list (Z * buffer) := omap commit_of (out w).

(** The call an entry asks for, and the configuration it holds. *)
Definition applied (l : LS) (i : Z) : list (Z * buffer) :=
  match entry_at i l with
  | Ok e => if bool_decide (le_val_type e = app_log) then [(i, le_buf e)] else []
  | _ => []
  end.
Definition conf_in (e : log_entry) : option cluster_config :=
  if bool_decide (le_val_type e = conf) then
    match cluster_config_deserialize (pos_set 0 (le_buf e)) with Ok (c, _) => Some c | _ => None end
  else None.
Definition conf_at (l : LS) (i : Z) : option cluster_config :=
  match entry_at i l with Ok e => conf_in e | _ => None end.

(** The configuration in force once the entry at [i] is applied. *)
Definition install (l : LS) (c : cluster_config) (i : Z) : cluster_config :=
  match conf_at l i with Some c' => if log_idx_ c <? log_idx_ c' then c' else c | None => c end.

(** An entry the thread can apply: the state machine takes the payload, a
    configuration can be read and kept. *)
Definition applicable (l : LS) (i : Z) : Prop :=
  ∃ e, entry_at i l = Ok e ∧
    (le_val_type e = app_log → payload_ok (le_buf e)) ∧
    (le_val_type e = conf → ∃ c b, cluster_config_deserialize (pos_set 0 (le_buf e)) = Ok (c, b) ∧ savable c).

(** What [reconfigure] relies on. *)
Definition peers_ready (w : W) : Prop := heartbeats_exist w ∧ peers_ w !! id_ w = None.

(** ** What applying leaves alone *)

Definition settled (w : W) :=
  (log_store_ w, quick_commit_idx_ w, params_ w, id_ w, state_ w, role_ w).
Definition progress (w : W) := (settled w, sm_commit_index_ w, commits w).

Lemma emit_other e : commit_of e = None → within (same progress) (emit e).
Proof.
  intros He w. unfold same, progress, commits, emit, modify, update; cbn.
  rewrite omap_app. cbn. by rewrite He, app_nil_r.
Qed.
#[local] Hint Extern 1 (within (same progress) (emit _)) => (apply emit_other; reflexivity) : within.

Lemma within_progress_new_peer c : within (same progress) (new_peer (LS := LS) (SM := SM) c).
Proof. unfold new_peer. within_solve fail. Qed.
#[local] Hint Resolve within_progress_new_peer : within.

Lemma within_progress_remove_servers c l :
  within (same progress) (remove_servers (LS := LS) (SM := SM) c l).
Proof. induction l as [|i l IH]; cbn [remove_servers]; unfold system_exit; within_solve fail. Qed.
#[local] Hint Resolve within_progress_remove_servers : within.

Lemma within_progress_reconfigure c : within (same progress) (reconfigure (LS := LS) (SM := SM) c).
Proof. unfold reconfigure, add_server. within_solve fail. Qed.

Lemma no_snapshots i (w : W) :
  snapshot_distance_ (params_ w) = 0 → snapshot_and_compact i w = (Ok tt, w).
Proof. intros Hd. unfold snapshot_and_compact. rewrite bind_get, Hd. done. Qed.

(** ** One entry *)

Lemma commit_config_entry_ok buf c b (w : W) :
  cluster_config_deserialize (pos_set 0 buf) = Ok (c, b) → savable c → peers_ready w →
  ∃ w', commit_config_entry buf w = (Ok tt, w') ∧ peers_ready w' ∧ progress w' = progress w ∧
    (get_server c (id_ w) ≠ None →
     config_ w' = if log_idx_ (config_ w) <? log_idx_ c then c else config_ w).
Proof.
  intros Hc Hs [Hhb Hself]. unfold commit_config_entry. rewrite Hc, bind_lift.
  destruct (persist_config_ok c w Hs) as (w1 & Hw1 & Hp1 & Hs1).
  pose proof (within_elim (same (λ w, (progress w, config_ w))) (persist_config c) _ _ _ ltac:(within_solve fail) Hw1)
    as [= Hl1 Hq1 Hpa1 Hid1 Hst1 Hr1 Hsm1 Hc1 Hcf1].
  rewrite (bind_step _ _ _ _ _ Hw1), bind_modify, bind_get. set (w2 := update config_changing_ _ w1).
  assert (progress w2 = progress w) as Hpr2
    by (unfold progress, settled in *; change (commits w2) with (commits w1); cbn; congruence).
  assert (config_ w2 = config_ w ∧ id_ w2 = id_ w) as [Hcf2 Hid2] by done.
  assert (heartbeats_exist w2 ∧ peers_ w2 !! id_ w2 = None) as [Hhb2 Hself2].
  { unfold heartbeats_exist. change (peers_ w2) with (peers_ w1). change (scheduler_ w2) with (scheduler_ w1).
    rewrite Hp1, Hs1, Hid2. done. }
  clearbody w2. rewrite Hcf2.
  assert (∃ w3, when (log_idx_ (config_ w) <? log_idx_ c) (reconfigure c) w2 = (Ok tt, w3) ∧
    peers_ready w3 ∧ progress w3 = progress w2 ∧ (get_server c (id_ w) ≠ None →
      config_ w3 = if log_idx_ (config_ w) <? log_idx_ c then c else config_ w)) as (w3 & Hw3 & Hr3 & Hpr3 & Hc3).
  { destruct (log_idx_ (config_ w) <? log_idx_ c); cbn [when]; [|by exists w2].
    destruct (reconfigure_ok c w2 Hhb2 Hself2 (or_intror Hs)) as (w3 & Hw3 & Hhb3 & Hself3 & Hin3).
    pose proof (within_elim _ _ _ _ _ (within_progress_reconfigure c) Hw3) as Hpr.
    exists w3. split_and!; [done| |done|].
    - split; [done|]. injection Hpr as _ _ _ -> _. done.
    - intros Hg. apply Hin3. right. by rewrite Hid2. }
  rewrite (bind_step _ _ _ _ _ Hw3), bind_get.
  rewrite Hpr2 in Hpr3.
  destruct (_ && _); cbn [when]; eexists; (split; [reflexivity|]); (split_and!; [exact Hr3|exact Hpr3|exact Hc3]).
Qed.

Lemma commit_one_ok (w : W) :
  snapshot_distance_ (params_ w) = 0 → is_u64 (sm_commit_index_ w + 1) → peers_ready w →
  applicable (log_store_ w) (sm_commit_index_ w + 1) →
  let i := sm_commit_index_ w + 1 in
  ∃ w', commit_one w = (Ok tt, w') ∧ peers_ready w' ∧ settled w' = settled w ∧
    sm_commit_index_ w' = i ∧ commits w' = commits w ++ applied (log_store_ w) i ∧
    ((∀ c, conf_at (log_store_ w) i = Some c → get_server c (id_ w) ≠ None) →
     config_ w' = install (log_store_ w) (config_ w) i).
Proof.
  intros Hd Hu Hr (e & He & Ha & Hc) i. unfold commit_one. rewrite bind_modify, bind_get.
  set (w1 := update sm_commit_index_ _ w).
  assert (sm_commit_index_ w1 = i) as Hi by (subst w1; unfold update; cbn; by apply u64_small).
  assert (settled w1 = settled w ∧ commits w1 = commits w ∧ config_ w1 = config_ w ∧ peers_ready w1)
    as (Hs1 & Hc1 & Hcf1 & Hr1) by done.
  assert (log_store_ w1 = log_store_ w ∧ params_ w1 = params_ w ∧ id_ w1 = id_ w) as (Hl1 & Hp1 & Hid1) by done.
  fold i in He. clearbody w1 i. cbv zeta. rewrite Hi, Hl1, He, bind_lift.
  unfold applied, install, conf_at. rewrite He.
  match goal with |- context [(?m0 ≫= _) w1] => set (m := m0) end.
  assert (∃ w2, m w1 = (Ok tt, w2) ∧ peers_ready w2 ∧ settled w2 = settled w ∧ sm_commit_index_ w2 = i ∧
    commits w2 = commits w ++ (if bool_decide (le_val_type e = app_log) then [(i, le_buf e)] else []) ∧
    ((∀ c, conf_in e = Some c → get_server c (id_ w) ≠ None) →
     config_ w2 = match conf_in e with
       | Some c' => if log_idx_ (config_ w) <? log_idx_ c' then c' else config_ w
       | None => config_ w
       end)) as (w2 & Hw2 & Hr2 & Hs2 & Hsm2 & Hc2 & Hcf2).
  { subst m. unfold conf_in. destruct (le_val_type e); try (exists w1; rewrite app_nil_r; by split_and!).
    - destruct (sm_commit_spec (state_machine_ w1) i (le_buf e) (Ha eq_refl)) as (s' & Hs' & _).
      unfold emit. rewrite bind_modify. erewrite on_step by exact Hs'. eexists. split; [reflexivity|].
      split_and!; [done..| |done].
      unfold commits, update in *; cbn. rewrite omap_app. cbn. by rewrite Hc1.
    - destruct (Hc eq_refl) as (c & b & Hdec & Hsv).
      destruct (commit_config_entry_ok _ c b w1 Hdec Hsv Hr1) as (w2 & Hw2 & Hr2 & [= Hpr] & Hcf2).
      exists w2. cbn. rewrite Hdec, app_nil_r. unfold settled in *.
      split_and!; [done|done|congruence|congruence|congruence|].
      intros Hg. rewrite Hcf2, Hcf1; [done|]. rewrite Hid1. by apply Hg. }
  rewrite (bind_step _ _ _ _ _ Hw2), bind_gets, no_snapshots by (injection Hs2 as _ _ -> _; done).
  by exists w2.
Qed.

(** ** All of them *)

Lemma commit_pending_spec (w : W) :
  commit_pending w = true ↔ sm_commit_index_ w < commit_target w.
Proof. unfold commit_pending, commit_target. rewrite andb_true_iff, !Z.ltb_lt. lia. Qed.

Lemma commit_loop_ok n (w : W) :
  snapshot_distance_ (params_ w) = 0 → 0 ≤ sm_commit_index_ w → peers_ready w →
  Z.of_nat n = commit_target w - sm_commit_index_ w →
  (∀ i, i ∈ to_apply w → applicable (log_store_ w) i) →
  ∃ w', commit_loop n w = (Ok tt, w') ∧ peers_ready w' ∧ settled w' = settled w ∧
    sm_commit_index_ w' = commit_target w ∧
    commits w' = commits w ++ (to_apply w ≫= applied (log_store_ w)) ∧
    ((∀ i c, i ∈ to_apply w → conf_at (log_store_ w) i = Some c → get_server c (id_ w) ≠ None) →
     config_ w' = foldl (install (log_store_ w)) (config_ w) (to_apply w)).
Proof.
  revert w. induction n as [|n IH]; intros w Hd Hsm Hr Hn Ha.
  - assert (commit_target w = sm_commit_index_ w) as He by lia.
    assert (commit_pending w = false) as Hp.
    { apply not_true_iff_false. rewrite commit_pending_spec. lia. }
    exists w. unfold to_apply. rewrite He, Z.sub_diag. cbn [commit_loop]. rewrite bind_get, Hp. cbn.
    rewrite app_nil_r. by split_and!.
  - assert (commit_pending w = true) as Hp by (apply commit_pending_spec; lia).
    assert (commit_target w < 2 ^ 64) as Hu
      by (unfold commit_target; pose proof (u64_range (next_slot_ w - 1)) as Hrg; unfold is_u64 in Hrg; lia).
    cbn [commit_loop]. rewrite bind_get, Hp.
    assert (to_apply w = sm_commit_index_ w + 1 :: seqZ (sm_commit_index_ w + 2)
      (commit_target w - (sm_commit_index_ w + 1))) as Ht.
    { unfold to_apply. rewrite seqZ_cons by lia. f_equal. f_equal; lia. }
    destruct (commit_one_ok w Hd) as (w1 & H1 & Hr1 & Hs1 & Hi1 & Hc1 & Hcf1);
      [unfold is_u64; lia|done|apply Ha; rewrite Ht; by left|].
    rewrite (bind_step _ _ _ _ _ H1). pose proof Hs1 as [= Hl Hq Hpar Hid _ _].
    assert (commit_target w1 = commit_target w) as Htg by (unfold commit_target, next_slot_; congruence).
    assert (to_apply w = sm_commit_index_ w + 1 :: to_apply w1) as Ht1.
    { rewrite Ht. unfold to_apply. rewrite Htg, Hi1. f_equal. f_equal. lia. }
    destruct (IH w1) as (w' & Hw' & Hr' & Hs' & Hi' & Hc' & Hcf').
    + congruence.
    + lia.
    + done.
    + rewrite Htg. lia.
    + intros i Hin. rewrite Hl. apply Ha. rewrite Ht1. by right.
    + exists w'. split_and!; [done|done|congruence|congruence| |].
      * rewrite Hc', Hc1, Hl, Ht1. cbn. by rewrite app_assoc.
      * intros Hg. rewrite Hcf', Hl, Ht1; cbn.
        -- f_equal. apply Hcf1. intros c. apply Hg. rewrite Ht1. by left.
        -- intros i c Hin. rewrite Hl, Hid. apply Hg. rewrite Ht1. by right.
Qed.

(** C13: agreed entries are applied, in order and once.  When the thread of a
    server that takes no snapshots, whose peers have their timers and which is
    not its own peer, wakes up, it goes through the log from the
    entry after the last one applied up to the last one that is agreed on and
    present, given that each can be applied (the state machine takes its
    payload, its configuration can be read and stored again).  The state
    machine is called with each client entry among them, in the order of the
    log; if all configurations among them keep this server, each takes effect
    in turn unless a later one is in force already; the log, the term, the
    vote and the role stay, and nothing is left to apply. *)
Theorem commits_applied_in_order (w : W) :
  snapshot_distance_ (params_ w) = 0 → 0 ≤ sm_commit_index_ w ≤ commit_target w →
  heartbeats_exist w → peers_ w !! id_ w = None →
  (∀ i, i ∈ to_apply w → applicable (log_store_ w) i) →
  ∃ w', commit_in_bg (Z.to_nat (commit_target w - sm_commit_index_ w)) w = (Ok tt, w') ∧
    commit_pending w' = false ∧ sm_commit_index_ w' = commit_target w ∧ settled w' = settled w ∧
    commits w' = commits w ++ (to_apply w ≫= applied (log_store_ w)) ∧
    ((∀ i c, i ∈ to_apply w → conf_at (log_store_ w) i = Some c → get_server c (id_ w) ≠ None) →
     config_ w' = foldl (install (log_store_ w)) (config_ w) (to_apply w)).
Proof.
  intros Hd Hsm Hhb Hself Ha.
  destruct (commit_loop_ok (Z.to_nat (commit_target w - sm_commit_index_ w)) w Hd) as
    (w' & Hl & _ & Hs & Hi & Hc & Hcf); [lia|by split|lia|done|].
  exists w'. split_and!; [unfold commit_in_bg, catch_all; by rewrite Hl| |done..].
  apply not_true_iff_false. rewrite commit_pending_spec. injection Hs as Hls Hq _.
  assert (commit_target w' = commit_target w) by (unfold commit_target, next_slot_; congruence). lia.
Qed.
End commit.

#[local] Existing Instance zero_mem.

(** Server 1 after the leader's append request with two committed entries: a
    client's and a configuration with a fourth server. *)
Definition conf_entry : log_entry := mk_log_entry 1 conf
  (match cluster_config_serialize (mk_cluster_config 2 1 (sample_srv <$> [1; 2; 3; 4])) with
   | Ok b => b | _ => buf_of [] end).
Definition server1_behind : sample_state :=
  run_events [EvRequest (append_req 2 1 0 0 2 [hello; conf_entry])] server1.

Lemma commits_applied_in_order_witness :
  ∃ w', commit_in_bg 2 server1_behind = (Ok tt, w') ∧ commit_pending w' = false ∧
    commits w' = [(1, le_buf hello)] ∧ sc_id <$> servers_ (config_ w') = [1; 2; 3; 4].
Proof.
  assert (sm_commit_index_ server1_behind = 0 ∧ commit_target server1_behind = 2 ∧
    to_apply server1_behind = [1; 2]) as (H0 & H1 & Ht) by (vm_compute; split_and!; reflexivity).
  destruct (commits_applied_in_order server1_behind) as (w' & Hc & Hp & _ & _ & Hcalls & Hcf).
  - vm_compute. reflexivity.
  - vm_compute. split; discriminate.
  - assert (map_Forall (λ _ p, hb_task_ p ∈ dom (tasks (scheduler_ server1_behind)))
      (peers_ server1_behind)) as Hb by (refine (bool_decide_unpack _ _); vm_compute; exact I).
    exact Hb.
  - vm_compute. reflexivity.
  - intros i Hi. rewrite Ht in Hi. apply elem_of_cons in Hi as [->|Hi%list_elem_of_singleton]; [|subst i].
    + eexists. split; [vm_compute; reflexivity|]. split; [intros _; vm_compute; reflexivity|discriminate].
    + eexists. split; [vm_compute; reflexivity|]. split; [discriminate|]. intros _.
      eexists _, _. split; [vm_compute; reflexivity|].
      split; [refine (bool_decide_unpack _ _); vm_compute; exact I|vm_compute; split; congruence].
  - rewrite H0, H1 in Hc at 1. exists w'. split; [exact Hc|]. split; [exact Hp|].
    split; [rewrite Hcalls; vm_compute; reflexivity|].
    rewrite Hcf; [vm_compute; reflexivity|]. intros i c Hi. rewrite Ht in Hi.
    apply elem_of_cons in Hi as [->|Hi%list_elem_of_singleton]; [|subst i]; vm_compute; [discriminate|].
    intros [= <-]. discriminate.
Defined.
